(* ===== verification/_CoqProject ===== *)
-Q . S2P
Prelude.v
CLib.v
Proc.v
Request.v
Parser.v
ParserSpec.v
ParserRefine.v
Framing.v
ParserCorrect.v
RequestType.v
World.v
Reader.v
Evidence.v
ReaderCorrect.v
ReaderDeadline.v
ReaderLive.v
Response.v
ResponseCorrect.v
ResponseWire.v
ResponseProps.v
Connection.v
Mime.v
Stats.v
Config.v
ConnectionQueue.v
QueueThreads.v
QueueWake.v
QueueAccess.v
StaticFiles.v
StaticPaths.v
StaticServe.v
Router.v
RouterCorrect.v
Logger.v
LoggerThreads.v
ConfigOutput.v
LogLines.v
ClientHandler.v
HandlerSpec.v
HandlerSize.v
Conversation.v
HandlerCorrect.v
HandlerSend.v
HandlerLoop.v
HandlerProps.v
Returns.v
HandlerLive.v
HandlerLog.v
ThreadPool.v
Server.v
ServerCorrect.v
ServerProps.v
ServerLog.v
ServerLive.v
ServerEnd.v
ServerInstance.v
ServerThreads.v
ServerAccess.v
ServerThreadsEnd.v
ServerThreadsInstance.v
Signals.v
ServerRun.v
