(* ===== verification/Prelude.v ===== *)
(** * CinderHTTP: a verification development

    CinderHTTP is a multi-threaded HTTP/1.1 server in C: an accept thread puts
    connections into a bounded queue, workers take them out, and each worker
    serves one connection at a time with static files and a small JSON API.
    This library models the program function by function and proves what makes
    it correct, from the parser to the return of main.

    ** How the code is modelled

    Pure C functions are functions on byte lists and integers.  Code that
    allocates, opens or does I/O is written in a monad of explicit state passing
    (Proc.v): a call returns a value, never returns, or commits a fault (freeing
    what is not a live block, closing what is not open).  The state [proc] has
    the heap blocks and descriptors in use, as multisets, and an oracle that
    decides which allocation fails; [world] (World.v) adds, for one connection,
    the clock and the answers of poll, recv, send, sendfile, read and lseek as
    scripts; [session] (ClientHandler.v) adds the reports to the counters and the
    calls of the logger.
    Theorems quantify over oracles and scripts, so they cover every pattern of
    memory exhaustion, short reads and writes, interruptions and errors.  [wp] is
    total correctness (returns, no fault), [wlp] allows a call not to return.
    A NULL pointer is [None], a C string a byte list with the block that owns it,
    0 and -1 are [true] and [false] where nothing else is returned, integers are
    [Z] with the wrap of size_t written out where it can happen.

    ** Files

    - Prelude, CLib: notations, tactics, hints; the C library functions used
      (memchr, strstr, strtol, strtoull, decimal formatting, splitting).
    - Proc, World: process resources and the operating system.
    - Request (http_limits.h, http_request.h/.c), Parser (http_parser.h/.c);
      ParserSpec, ParserRefine, Framing, ParserCorrect: [parse_spec], the pure
      specification, the refinement, a declarative grammar, the round trip.
      RequestType: what the rest of the server may rely on in a request.
    - Reader (http_reader.h/.c); ReaderCorrect, ReaderLive: the contract of every
      path of http_reader_next_request, and that it returns the messages of the
      stream however the bytes are cut.  ReaderDeadline: how long it may wait.
      Evidence: which answers of the operating system, taken during a call, are a
      reason for it to fail.
    - Response (http_response.h/.c, utils.c); ResponseCorrect, ResponseWire,
      ResponseProps: ownership under any sequence of operations, exact sizes,
      what goes on the wire.
    - Connection (http_connection.c), Mime (mime.c), Stats (server_stats.h/.c),
      Config (config.h/.c), ConfigOutput (what it prints).
    - ConnectionQueue (connection_queue.h/.c): the ring buffer, refined to a
      bounded FIFO.  QueueThreads: any number of threads on it, at the granularity
      of the pthread calls; QueueWake: the mutex and the wake-ups.  QueueAccess:
      the critical sections again, one load or store of memory at a time, refined
      to QueueThreads by the mutex alone.
    - StaticFiles (static_files.h/.c) over the interface [FileSystem];
      StaticPaths, StaticServe: decoding, dot segments, the reference lookup
      [serve_ref], containment under [PosixPaths].
    - Router (router.h/.c), RouterCorrect: the API table.
    - ClientHandler (client_handler.c): the loop of one connection.  HandlerSpec,
      HandlerSize, Conversation: what a connection may say, [talk], an inductive
      relation between bytes received, bytes sent and events, in which every
      course but the regular one needs a reason.  HandlerCorrect, HandlerSend,
      HandlerLoop, HandlerProps: every run is a conversation.
      Returns, HandlerLive: every run returns, given that the waits end.
      HandlerLog: what a connection logs.
    - ThreadPool (thread_pool.h/.c, start-up and clean-up of server.c); Server:
      the accept loop of server_run and worker_main as a transition system over
      the ring buffer, with the class [ConnectionHandler] for what a worker does.
      ServerCorrect, ServerProps, ServerLive, ServerEnd: ownership, counts, drain,
      deadlock freedom, termination.  ServerLog: what the accept thread logs.
      ServerInstance: client_handle discharges
      the interface; interleavings that go wrong.  ServerThreads: the same server
      with the pthread calls of QueueThreads as steps, refined to Server;
      ServerAccess: with the memory accesses of QueueAccess, refined to
      ServerThreads; ServerThreadsEnd, ServerThreadsInstance: termination, and runs.
      Signals: the set-up of the signal actions and deliveries.  ServerRun:
      server_run and main as a whole.
    - Logger (logger.c); LoggerThreads: threads in it, byte by byte, under its
      mutex; LogLines: the log calls of client_handler.c and server.c, and the lines
      they become.

    ** What the theorems show

    - Memory and descriptors: no double free or close and no leak, for parsing,
      the reader, any sequence of response operations, serving a file, a whole
      connection, the queue, start-up, and main.
    - Functional correctness: the parser computes its specification and accepts
      exactly a grammar; the reader returns the stream's messages in order; a
      response is framed as it declares; the router follows its table; a file is
      served only from below the document root; the keep-alive rules.
    - Composition: a connection is a conversation, of at most 100 requests: every
      message gets its reply, and silence, refusals and cut replies have reasons.
    - Concurrency: the queue is linearizable, loses no wake-up and lets every call
      come to rest; in every reachable state a connection has one owner; shutdown
      drains the queue; from a noticed flag every schedule ends server_run.  Server
      takes a push or a pop as one step; [server_accesses_refine] shows that the
      server interleaved at every pthread call and every access to the queue's memory
      reaches no other states, because the mutex keeps the sections apart, and
      [preemptive_shutdown_terminates] that it ends, too.  Calls of the logger do
      not mix.
    - Robustness: a slow sender cannot move the request deadline; what a client sends
      cannot forge a log line; a rejected command line is diagnosed; a broken
      connection cannot terminate the process.
    - Surprises: [shutdown_signal_can_be_missed], [active_gauge_can_leak],
      [root_directory_serves_nothing], [null_version_persists],
      [second_close_ignored], [failed_start_says_cleanly] and
      [interrupted_wait_restarts] show behaviours that differ from what the comments of
      the source, or its messages, say.

    ** Bounds and fuel

    Loops that are not structural have fuel that is proved sufficient: the
    parser, the decoder of dot segments and the token search consume a byte each
    round (fuel: length + 1); the doubling of the buffer stops within 64 rounds;
    the reader and the senders take an answer of a script each round (fuel:
    script + 1); the connection loop runs at most HTTP_MAX_REQUESTS_PER_CONNECTION
    rounds.  A script that runs out means a call that never returns;
    [client_handle_total] asks that each script has an answer that ends the wait
    (for send this is a real condition: the server sets no send timeout).  The
    system of Server takes one critical section or call as one step, that of
    ServerThreads one pthread call, that of ServerAccess one access to memory under
    the mutex.  [int] timeouts wrap as they do on the usual compilers
    ([idle_timeout_ms]); configured values never reach that.

    ** Not modelled

    The text printed with perror and the messages that server_run prints (those of
    main are in [main]); weak memory: accesses of two threads are interleaved, which
    is what the mutex promises for data that only its owners touch; the mutex of
    server_stats.c, whose operations are one step each; socket options other than the receive timeout; the #ifdef branches
    for systems without sendfile or MSG_NOSIGNAL; a pthread_cond_signal or broadcast
    that fails, a mutex that cannot be locked in shutdown or taken again after a wait
    (the code ignores these results).  Allocations of concurrent connections are
    followed per connection, not in one shared heap. *)
From Stdlib Require Export Strings.Byte ZArith Lia.
From Stdlib Require Strings.String.
From stdpp Require Export base numbers sets option gmultiset.
From stdpp Require Export list.
Export Stdlib.Strings.String.StringSyntax.

#[global] Open Scope Z_scope.
#[global] Open Scope list_scope.

(** ** Bytes and literals *)

(** A C [char] or [unsigned char] is a [byte]; its numeric value is [bz]. *)
Definition bz (c : byte) : Z := Z.of_N (Byte.to_N c).

(** The bytes of a C string literal, without the terminating NUL. *)
Definition lit (s : String.string) : list byte := String.list_byte_of_string s.
Arguments lit s%_string_scope.

Declare Scope cinder_scope.
Delimit Scope cinder_scope with cinder.
#[global] Open Scope cinder_scope.

Infix "=?b" := Byte.eqb (at level 70) : cinder_scope.

Definition NUL : byte := x00.
Definition HT : byte := x09.
Definition LF : byte := x0a.
Definition CR : byte := x0d.
Definition SP : byte := x20.
Definition CRLF : list byte := [CR; LF].

(** [in_range lo hi c] is the C test [c >= lo && c <= hi] on bytes. *)
Definition in_range (lo hi c : byte) : bool := (bz lo <=? bz c) && (bz c <=? bz hi).

#[global] Instance byte_eq_dec : EqDecision byte := Byte.byte_eq_dec.

(** ** Machine integers of the LP64 target *)

Definition SIZE_MAX : Z := 2 ^ 64 - 1.
Definition ULLONG_MAX : Z := 2 ^ 64 - 1.
Definition LONG_MAX : Z := 2 ^ 63 - 1.
Definition LONG_MIN : Z := - 2 ^ 63.
Definition INT_MAX : Z := 2 ^ 31 - 1.
Definition INT_MIN : Z := - 2 ^ 31.

(** Unsigned 64-bit arithmetic ([size_t], [uint64_t]) wraps around. *)
Definition wrap64 (z : Z) : Z := z mod 2 ^ 64.

(** A result of [int] arithmetic, in two's complement.  C leaves an overflow
    undefined; this is the value that code testing for a negative result
    expects. *)
Definition wrap32 (z : Z) : Z := (z + 2 ^ 31) mod 2 ^ 32 - 2 ^ 31.

(** The length of a list as a [size_t] quantity. *)
Definition zlen {A} (l : list A) : Z := Z.of_nat (length l).

(** ** Automation *)

Create HintDb cinder.

(** Turn the boolean tests of the code into propositions. *)
Ltac bool_simp :=
  repeat match goal with
  | H : _ && _ = true |- _ => apply andb_prop in H as [? ?]
  | H : _ || _ = false |- _ => apply orb_false_elim in H as [? ?]
  | H : negb _ = true |- _ => apply negb_true_iff in H
  | H : negb _ = false |- _ => apply negb_false_iff in H
  | H : Byte.eqb _ _ = true |- _ => apply Byte.byte_dec_bl in H
  | H : Byte.eqb _ _ = false |- _ => apply Byte.eqb_false in H
  | H : Z.eqb _ _ = true |- _ => apply Z.eqb_eq in H
  | H : Z.eqb _ _ = false |- _ => apply Z.eqb_neq in H
  | H : Z.leb _ _ = true |- _ => apply Z.leb_le in H
  | H : Z.leb _ _ = false |- _ => apply Z.leb_gt in H
  | H : Z.ltb _ _ = true |- _ => apply Z.ltb_lt in H
  | H : Z.ltb _ _ = false |- _ => apply Z.ltb_ge in H
  | H : Nat.eqb _ _ = true |- _ => apply Nat.eqb_eq in H
  | H : Nat.eqb _ _ = false |- _ => apply Nat.eqb_neq in H
  | H : Nat.leb _ _ = true |- _ => apply Nat.leb_le in H
  | H : Nat.leb _ _ = false |- _ => apply Nat.leb_gt in H
  | H : Nat.ltb _ _ = true |- _ => apply Nat.ltb_lt in H
  | H : Nat.ltb _ _ = false |- _ => apply Nat.ltb_ge in H
  end.

(** Case analysis on the scrutinee of an [if] or a [match], keeping the
    equation and reflecting it. *)
Ltac case_bool :=
  match goal with
  | |- context [if ?b then _ else _] => let E := fresh "E" in destruct b eqn:E
  | H : context [if ?b then _ else _] |- _ => let E := fresh "E" in destruct b eqn:E
  end; bool_simp.

(** ** Bytes: shared lemmas *)

Lemma eqb_refl_byte c : (c =?b c) = true.
Proof. by apply Byte.byte_dec_lb. Qed.

Lemma eqb_eq_byte a b : (a =?b b) = true <-> a = b.
Proof. split; [apply Byte.byte_dec_bl | apply Byte.byte_dec_lb]. Qed.

Lemma eqb_neq_byte a b : (a =?b b) = false <-> a <> b.
Proof.
  split; [apply Byte.eqb_false |].
  intros Hne. destruct (a =?b b) eqn:E; [|done]. by apply Byte.byte_dec_bl in E.
Qed.

Lemma bz_range c : 0 <= bz c <= 255.
Proof. unfold bz. pose proof (Byte.to_N_bounded c). lia. Qed.

Lemma bz_inj a b : bz a = bz b -> a = b.
Proof.
  unfold bz. intros H. apply N2Z.inj in H.
  pose proof (Byte.of_to_N a) as Ha. pose proof (Byte.of_to_N b) as Hb. congruence.
Qed.

Lemma in_range_true lo hi c : in_range lo hi c = true <-> bz lo <= bz c <= bz hi.
Proof. unfold in_range. rewrite andb_true_iff, !Z.leb_le. done. Qed.

Lemma zlen_app {A} (l k : list A) : zlen (l ++ k) = zlen l + zlen k.
Proof. unfold zlen. rewrite length_app. lia. Qed.

Lemma zlen_nonneg {A} (l : list A) : 0 <= zlen l.
Proof. unfold zlen. lia. Qed.

Lemma wrap64_small z : 0 <= z <= SIZE_MAX -> wrap64 z = z.
Proof. unfold wrap64, SIZE_MAX. intros. apply Z.mod_small. lia. Qed.

Lemma wrap32_small z : - 2 ^ 31 <= z <= INT_MAX -> wrap32 z = z.
Proof. unfold wrap32, INT_MAX. intros. rewrite Z.mod_small by lia. lia. Qed.

Lemma wrap32_range z : - 2 ^ 31 <= wrap32 z <= INT_MAX.
Proof. unfold wrap32, INT_MAX. pose proof (Z.mod_pos_bound (z + 2 ^ 31) (2 ^ 32)). lia. Qed.

Lemma wrap64_range z : 0 <= wrap64 z <= SIZE_MAX.
Proof. unfold wrap64, SIZE_MAX. pose proof (Z.mod_pos_bound z (2 ^ 64)). lia. Qed.

Lemma Forall_cons_eqv {A} (P : A -> Prop) x l : Forall P (x :: l) <-> P x /\ Forall P l.
Proof. split; [apply Forall_cons_1|]. intros [? ?]. by constructor. Qed.

Lemma filter_none {A} (f : A -> bool) l : Forall (fun x => f x = false) l -> List.filter f l = [].
Proof. induction 1 as [|x l Hx _ IH]; simpl; [done|]. by rewrite Hx. Qed.

(** Lists: a list split at a position. *)
Lemma take_app_length {A} (l k : list A) n : n = length l -> take n (l ++ k) = l.
Proof. intros ->. by rewrite take_app_length. Qed.

Lemma drop_app_length {A} (l k : list A) n : n = length l -> drop n (l ++ k) = k.
Proof. intros ->. by rewrite drop_app_length. Qed.

Lemma drop_S_app {A} (l k : list A) c n : n = S (length l) -> drop n (l ++ c :: k) = k.
Proof. intros ->. rewrite drop_app_ge by lia. by replace (S (length l) - length l)%nat with 1%nat by lia. Qed.

#[export] Hint Resolve zlen_nonneg eqb_refl_byte : cinder.
