(* ===== verification/CLib.v ===== *)
(** * The C library functions the server calls

    Pure models of what the sources use of [<string.h>], [<stdlib.h>] and
    [<stdio.h>]: [memchr], [strcmp], [strncmp], [strstr], [strtoull],
    [strtol] and the decimal conversions of [snprintf].  A C string is the
    list of its bytes before the terminating NUL. *)
From S2P Require Import Prelude.

(** [memchr(l, c, len)]: offset of the first [c], [None] for NULL. *)
Fixpoint memchr (c : byte) (l : list byte) : option nat :=
  match l with
  | [] => None
  | x :: l' => if x =?b c then Some 0%nat else S <$> memchr c l'
  end.

(** The C string held by an array: its bytes up to the first NUL (the array
    itself is followed by a NUL). *)
Fixpoint c_string (l : list byte) : list byte :=
  match l with
  | [] => []
  | x :: l' => if x =?b NUL then [] else x :: c_string l'
  end.

(** [strcmp(a, b) == 0]. *)
Definition strcmp_eq (a b : list byte) : bool := bool_decide (a = b).

(** [strncmp(s, p, strlen(p)) == 0]. *)
Fixpoint has_prefix (p s : list byte) : bool :=
  match p, s with
  | [], _ => true
  | x :: p', y :: s' => (x =?b y) && has_prefix p' s'
  | _ :: _, [] => false
  end.

(** [strstr(s, p) != NULL]. *)
Fixpoint strstr (s p : list byte) : bool :=
  has_prefix p s || match s with [] => false | _ :: s' => strstr s' p end.

(** Decimal digits. *)
Definition is_digit (c : byte) : bool := in_range "0" "9" c.

Fixpoint span (f : byte -> bool) (l : list byte) : list byte * list byte :=
  match l with
  | [] => ([], [])
  | x :: l' => if f x then let '(a, b) := span f l' in (x :: a, b) else ([], l)
  end.

Fixpoint dec_value (acc : Z) (ds : list byte) : Z :=
  match ds with
  | [] => acc
  | d :: ds' => dec_value (acc * 10 + (bz d - bz "0")) ds'
  end.

(** [isspace] of the C locale. *)
Definition is_space (c : byte) : bool := (c =?b SP) || in_range HT CR c.

(** The sign prefix of a [strto*] subject sequence. *)
Definition scan_sign (s : list byte) : bool * list byte :=
  match s with
  | c :: s' => if c =?b "-" then (true, s') else if c =?b "+" then (false, s') else (false, s)
  | [] => (false, s)
  end.

(** What [strtol] and [strtoull] scan: sign, digits and the offset of [end]
    (0 when no conversion could be performed). *)
Definition scan_decimal (s : list byte) : bool * list byte * nat :=
  let '(_, s1) := span is_space s in
  let '(neg, s2) := scan_sign s1 in
  let '(ds, rest) := span is_digit s2 in
  match ds with
  | [] => (false, [], 0%nat)
  | _ => (neg, ds, (length s - length rest)%nat)
  end.

(** [strtoull(s, &end, 10)]: value, offset of [end], and [errno == ERANGE]. *)
Definition strtoull (s : list byte) : Z * nat * bool :=
  let '(neg, ds, e) := scan_decimal s in
  let v := dec_value 0 ds in
  if ULLONG_MAX <? v then (ULLONG_MAX, e, true)
  else ((if neg then wrap64 (- v) else v), e, false).

(** [strtol(s, &end, 10)]. *)
Definition strtol (s : list byte) : Z * nat * bool :=
  let '(neg, ds, e) := scan_decimal s in
  let v := if neg then - dec_value 0 ds else dec_value 0 ds in
  if LONG_MAX <? v then (LONG_MAX, e, true)
  else if v <? LONG_MIN then (LONG_MIN, e, true)
  else (v, e, false).

(** The digit character of [0 <= d <= 9]. *)
Definition digit_char (d : Z) : byte :=
  match Byte.of_N (Z.to_N (48 + d)) with Some b => b | None => NUL end.

Fixpoint dec_digits (fuel : nat) (z : Z) (acc : list byte) : list byte :=
  match fuel with
  | O => acc
  | S f =>
      let acc' := digit_char (z mod 10) :: acc in
      if z / 10 =? 0 then acc' else dec_digits f (z / 10) acc'
  end.

(** [snprintf("%zu")] and [snprintf("%" PRIu64)]: a 64-bit value has at most
    20 digits. *)
Definition fmt_unsigned (z : Z) : list byte := dec_digits 20 z [].

(** [snprintf("%d")]. *)
Definition fmt_int (z : Z) : list byte :=
  if z <? 0 then ("-"%byte :: fmt_unsigned (- z)) else fmt_unsigned z.

(** ** Lemmas *)

Lemma memchr_None c l : memchr c l = None <-> c ∉ l.
Proof.
  induction l as [|x l IH]; simpl; [set_solver|].
  case_bool; [subst; set_solver|].
  rewrite fmap_None, IH. set_solver.
Qed.

Lemma memchr_Some c l i :
  memchr c l = Some i <-> exists l1 l2, l = l1 ++ c :: l2 /\ i = length l1 /\ c ∉ l1.
Proof.
  revert i. induction l as [|x l IH]; intros i; simpl.
  { split; [done|]. intros (l1 & l2 & H & _). by destruct l1. }
  case_bool.
  - subst. split.
    + intros [= <-]. exists [], l. set_solver.
    + intros (l1 & l2 & H & -> & Hn). destruct l1; [done|]. simplify_eq/=. set_solver.
  - rewrite fmap_Some. split.
    + intros (j & Hj & ->). apply IH in Hj as (l1 & l2 & -> & -> & Hn).
      exists (x :: l1), l2. set_solver.
    + intros (l1 & l2 & H & -> & Hn). destruct l1 as [|y l1]; simplify_eq/=.
      exists (length l1). split; [|done]. apply IH. exists l1, l2. set_solver.
Qed.

Lemma memchr_app c l1 l2 : c ∉ l1 -> memchr c (l1 ++ c :: l2) = Some (length l1).
Proof. intros. apply memchr_Some. eauto. Qed.

Lemma memchr_lt c l i : memchr c l = Some i -> (i < length l)%nat.
Proof. intros (l1 & l2 & -> & -> & _)%memchr_Some. rewrite length_app. simpl. lia. Qed.

Lemma c_string_id l : NUL ∉ l -> c_string l = l.
Proof.
  induction l as [|x l IH]; simpl; [done|]. intros H.
  rewrite (proj2 (eqb_neq_byte x NUL)) by set_solver. rewrite IH; set_solver.
Qed.

Lemma c_string_no_nul l : NUL ∉ c_string l.
Proof. induction l as [|x l IH]; simpl; [set_solver|]. case_bool; set_solver. Qed.

Lemma strcmp_eq_true a b : strcmp_eq a b = true <-> a = b.
Proof. apply bool_decide_eq_true. Qed.

Lemma has_prefix_true p s : has_prefix p s = true <-> exists r, s = p ++ r.
Proof.
  revert s. induction p as [|x p IH]; intros s; simpl; [naive_solver|].
  destruct s as [|y s]; [naive_solver|].
  rewrite andb_true_iff, IH, eqb_eq_byte. naive_solver.
Qed.

Lemma strstr_true s p : strstr s p = true <-> exists a b, s = a ++ p ++ b.
Proof.
  induction s as [|x s IH]; simpl.
  - rewrite orb_false_r, has_prefix_true. split.
    + intros [r Hr]. by exists [], r.
    + intros (a & b & Hab). destruct a; [|done]. by exists b.
  - rewrite orb_true_iff, has_prefix_true, IH. split.
    + intros [[r ->]|(a & b & ->)]; [by exists [], r|by exists (x :: a), b].
    + intros (a & b & Hab). destruct a as [|y a]; simplify_eq/=; [left; by exists b|].
      right. by exists a, b.
Qed.

Lemma span_spec f l : forall a b, span f l = (a, b) ->
  l = a ++ b /\ Forall (fun c => f c = true) a /\ (forall c b', b = c :: b' -> f c = false).
Proof.
  induction l as [|x l IH]; simpl; intros a b; [naive_solver|].
  destruct (f x) eqn:Ef.
  - destruct (span f l) as [a' b'] eqn:Es. intros [= <- <-].
    destruct (IH _ _ eq_refl) as (-> & HF & Hb). auto.
  - intros [= <- <-]. naive_solver.
Qed.

Lemma span_all f l : Forall (fun c => f c = true) l -> span f l = (l, []).
Proof. induction 1 as [|x l Hx _ IH]; simpl; [done|]. by rewrite Hx, IH. Qed.

Lemma is_digit_true c : is_digit c = true <-> 48 <= bz c <= 57.
Proof. unfold is_digit. rewrite in_range_true. done. Qed.

Lemma is_digit_not_space c : is_digit c = true -> is_space c = false.
Proof. by destruct c. Qed.

Lemma is_digit_not_sign c : is_digit c = true -> (c =?b "-") = false /\ (c =?b "+") = false.
Proof. by destruct c. Qed.

Lemma dec_value_lower ds : forall acc, 0 <= acc ->
  Forall (fun c => is_digit c = true) ds -> acc <= dec_value acc ds.
Proof.
  induction ds as [|d ds IH]; simpl; intros acc Hacc HF; [lia|].
  apply Forall_cons_1 in HF as [Hd HF]. apply is_digit_true in Hd.
  change (bz "0") with 48. specialize (IH (acc * 10 + (bz d - 48)) ltac:(lia) HF). lia.
Qed.

Lemma dec_value_app ds1 ds2 acc : dec_value acc (ds1 ++ ds2) = dec_value (dec_value acc ds1) ds2.
Proof. revert acc. induction ds1; simpl; auto. Qed.

(** A digit sequence is its own subject sequence. *)
Lemma scan_decimal_digits ds :
  ds <> [] -> Forall (fun c => is_digit c = true) ds -> scan_decimal ds = (false, ds, length ds).
Proof.
  intros Hne HF. unfold scan_decimal. destruct ds as [|d ds]; [done|].
  pose proof (Forall_inv HF) as Hd. cbv beta in Hd.
  simpl span at 1. rewrite (is_digit_not_space d Hd). unfold scan_sign.
  destruct (is_digit_not_sign d Hd) as [-> ->].
  rewrite (span_all _ _ HF). f_equal.
Qed.

Lemma strtoull_digits ds :
  ds <> [] -> Forall (fun c => is_digit c = true) ds ->
  strtoull ds = if ULLONG_MAX <? dec_value 0 ds then (ULLONG_MAX, length ds, true)
                else (dec_value 0 ds, length ds, false).
Proof. intros. unfold strtoull. by rewrite scan_decimal_digits. Qed.

Lemma bz_digit_char d : 0 <= d <= 9 -> bz (digit_char d) = 48 + d.
Proof.
  intros H. assert (d = 0 \/ d = 1 \/ d = 2 \/ d = 3 \/ d = 4 \/ d = 5 \/ d = 6 \/ d = 7 \/
    d = 8 \/ d = 9) as Hd by lia.
  repeat destruct Hd as [->|Hd]; try reflexivity. by subst.
Qed.

Lemma is_digit_digit_char d : 0 <= d <= 9 -> is_digit (digit_char d) = true.
Proof. intros H. apply is_digit_true. rewrite bz_digit_char by done. lia. Qed.

Lemma dec_digits_spec fuel : forall z acc, 0 <= z < 10 ^ Z.of_nat fuel -> (0 < fuel)%nat ->
  exists ds, dec_digits fuel z acc = ds ++ acc /\ ds <> [] /\ (length ds <= fuel)%nat /\
    Forall (fun c => is_digit c = true) ds /\ dec_value 0 ds = z.
Proof.
  induction fuel as [|f IH]; intros z acc Hz Hf; [lia|].
  assert (Hmod : 0 <= z mod 10 <= 9) by (pose proof (Z.mod_pos_bound z 10); lia).
  assert (Hlast : forall acc', digit_char (z mod 10) :: acc' = [digit_char (z mod 10)] ++ acc')
    by done.
  cbn [dec_digits]. destruct (z / 10 =? 0) eqn:E; bool_simp.
  - exists [digit_char (z mod 10)]. split_and!; [done|done|simpl; lia| |].
    + apply Forall_singleton. by apply is_digit_digit_char.
    + simpl. rewrite bz_digit_char by done. change (bz "0") with 48.
      pose proof (Z.div_mod z 10). lia.
  - assert (Hdiv : 0 <= z / 10 < 10 ^ Z.of_nat f).
    { split; [apply Z.div_pos; lia|]. apply Z.div_lt_upper_bound; [lia|].
      replace (Z.of_nat (S f)) with (Z.succ (Z.of_nat f)) in Hz by lia.
      rewrite Z.pow_succ_r in Hz; lia. }
    assert (Hf' : (0 < f)%nat) by (destruct f; [simpl in Hdiv; lia|lia]).
    destruct (IH (z / 10) (digit_char (z mod 10) :: acc) Hdiv Hf')
      as (ds & -> & Hne & Hl & HF & Hv).
    exists (ds ++ [digit_char (z mod 10)]). split_and!.
    + by rewrite <- app_assoc.
    + by destruct ds.
    + rewrite length_app. simpl. lia.
    + apply Forall_app. split; [done|]. apply Forall_singleton. by apply is_digit_digit_char.
    + rewrite dec_value_app, Hv. simpl. rewrite bz_digit_char by done.
      change (bz "0") with 48. pose proof (Z.div_mod z 10). lia.
Qed.

(** Printing a 64-bit value and reading it back. *)
Lemma fmt_unsigned_spec z : 0 <= z <= SIZE_MAX ->
  fmt_unsigned z <> [] /\ (length (fmt_unsigned z) <= 20)%nat /\
  Forall (fun c => is_digit c = true) (fmt_unsigned z) /\ dec_value 0 (fmt_unsigned z) = z.
Proof.
  intros Hz. unfold fmt_unsigned.
  destruct (dec_digits_spec 20 z []) as (ds & -> & ? & ? & ? & ?).
  - unfold SIZE_MAX in Hz. change (10 ^ Z.of_nat 20) with 100000000000000000000. lia.
  - lia.
  - rewrite app_nil_r. done.
Qed.

#[export] Hint Resolve c_string_no_nul is_digit_digit_char : cinder.

(** ** Splitting at separators *)

(** The maximal runs of bytes that satisfy [f]; the others separate them. *)
Fixpoint split_on (f : byte -> bool) (l : list byte) : list (list byte) :=
  match l with
  | [] => [[]]
  | c :: l' =>
      if f c then
        match split_on f l' with
        | e :: es => (c :: e) :: es
        | [] => [[c]]
        end
      else [] :: split_on f l'
  end.

Lemma split_on_span f l : split_on f l =
  let '(r, rest) := span f l in
  match rest with [] => [r] | _ :: rest' => r :: split_on f rest' end.
Proof.
  induction l as [|c l IH]; [done|]. cbn [split_on span].
  destruct (f c); [|done]. rewrite IH. destruct (span f l) as [r [|x rest]]; done.
Qed.

Lemma split_on_all f l : Forall (fun c => f c = true) l -> split_on f l = [l].
Proof. intros H. by rewrite split_on_span, span_all. Qed.

Lemma split_on_app f a c b : Forall (fun c => f c = true) a -> f c = false ->
  split_on f (a ++ c :: b) = a :: split_on f b.
Proof.
  intros Ha Hc. induction Ha as [|x a Hx _ IH]; simpl; [by rewrite Hc|]. by rewrite Hx, IH.
Qed.

Lemma split_on_ok f l : Forall (fun s => Forall (fun c => f c = true) s) (split_on f l).
Proof.
  induction l as [|c l IH]; simpl; [by repeat constructor|]. destruct (f c) eqn:E.
  - destruct (split_on f l) as [|e es]; [by repeat constructor|].
    apply Forall_cons_1 in IH as [? ?]. by repeat constructor.
  - by constructor.
Qed.
