(* ===== verification/Proc.v ===== *)
(** * Process resources: heap blocks and file descriptors

    Calls that allocate, free, open or close are written in a small state
    monad over [proc].  A heap block is named by the number of the allocation
    request that made it, a descriptor by the number of the call that opened
    it, so neither is reused and a second [free] or [close] of the same one is
    seen.  Whether an allocation succeeds is decided by an oracle, so that a
    theorem over all oracles covers every pattern of memory exhaustion.
    Contents are carried by the values that own the blocks. *)
From S2P Require Import Prelude CLib.

(** ** The monad *)

(** A call returns a value in a new state, or never returns (it waits for an
    event that does not come, or its loop is out of fuel), or commits a fault:
    freeing what is not a live heap block, closing what is not open. *)
Inductive outcome (S A : Type) : Type :=
| Done (a : A) (s : S)
| NoReturn
| Fault.
Arguments Done {S A} a s.
Arguments NoReturn {S A}.
Arguments Fault {S A}.

Definition M (S A : Type) : Type := S -> outcome S A.

#[global] Instance M_ret S : MRet (M S) := fun A a s => Done a s.
#[global] Instance M_bind S : MBind (M S) := fun A B k m s =>
  match m s with
  | Done a s' => k a s'
  | NoReturn => NoReturn
  | Fault => Fault
  end.

Definition fault {S A} : M S A := fun _ => Fault.
Definition no_return {S A} : M S A := fun _ => NoReturn.

(** Total correctness: the call returns, without fault, in a state and with a
    value that satisfy the postcondition. *)
Definition wp {S A} (m : M S A) (Q : A -> S -> Prop) (s : S) : Prop :=
  match m s with Done a s' => Q a s' | NoReturn | Fault => False end.

(** Partial correctness: the same, but the call may fail to return. *)
Definition wlp {S A} (m : M S A) (Q : A -> S -> Prop) (s : S) : Prop :=
  match m s with Done a s' => Q a s' | NoReturn => True | Fault => False end.

(** ** The state *)

Record proc := Proc {
  p_malloc_ok : nat -> bool; (* does the n-th allocation request succeed? *)
  p_next : nat;              (* allocation requests made so far *)
  p_live : gmultiset nat;    (* blocks allocated and not freed *)
  p_next_fd : nat;           (* descriptors opened so far *)
  p_fds : gmultiset nat;     (* descriptors open *)
}.

Definition set_heap (n : nat) (l : gmultiset nat) (p : proc) : proc :=
  {| p_malloc_ok := p_malloc_ok p; p_next := n; p_live := l;
     p_next_fd := p_next_fd p; p_fds := p_fds p |}.

Definition set_fds (n : nat) (l : gmultiset nat) (p : proc) : proc :=
  {| p_malloc_ok := p_malloc_ok p; p_next := p_next p; p_live := p_live p;
     p_next_fd := n; p_fds := l |}.

(** [malloc]: the new block, or [None] for NULL. *)
Definition malloc : M proc (option nat) := fun p =>
  if p_malloc_ok p (p_next p)
  then Done (Some (p_next p)) (set_heap (S (p_next p)) ({[+ p_next p +]} ⊎ p_live p) p)
  else Done None (set_heap (S (p_next p)) (p_live p) p).

(** [free] of a block. *)
Definition free_block (b : nat) : M proc () := fun p =>
  if decide (b ∈ p_live p)
  then Done () (set_heap (p_next p) (p_live p ∖ {[+ b +]}) p)
  else Fault.

(** [free(ptr)]: NULL is allowed. *)
Definition free (b : option nat) : M proc () :=
  match b with None => mret () | Some b => free_block b end.

(** [realloc]: on success the old block is gone, on failure it stays. *)
Definition realloc (old : option nat) : M proc (option nat) :=
  new ← malloc;
  match new with
  | None => mret None
  | Some b => free old;; mret (Some b)
  end.

(** The kernel hands out a descriptor; [close] gives it back. *)
Definition fd_open : M proc nat := fun p =>
  Done (p_next_fd p) (set_fds (S (p_next_fd p)) ({[+ p_next_fd p +]} ⊎ p_fds p) p).

Definition close (fd : nat) : M proc () := fun p =>
  if decide (fd ∈ p_fds p)
  then Done () (set_fds (p_next_fd p) (p_fds p ∖ {[+ fd +]}) p)
  else Fault.

(** ** C strings on the heap *)

(** A character array with the NUL that follows it; [cs_block] is [None] for a
    string literal, which must not be freed.  A [char *] is an [option cstr],
    [None] for NULL. *)
Record cstr := CStr { cs_block : option nat; cs_bytes : list byte }.

(** The array read as a C string. *)
Definition cs_string (c : cstr) : list byte := c_string (cs_bytes c).

Definition str_lit (s : String.string) : cstr := CStr None (lit s).
Arguments str_lit s%_string_scope.

Definition free_str (p : option cstr) : M proc () :=
  match p with
  | None => mret ()
  | Some c => match cs_block c with Some b => free_block b | None => fault end
  end.

(** [malloc(n + 1)] followed by a copy of [n] bytes and the terminator. *)
Definition alloc_str (l : list byte) : M proc (option cstr) :=
  b ← malloc;
  mret ((fun b => CStr (Some b) l) <$> b).

(** Blocks owned through a pointer. *)
Definition blk (b : option nat) : gmultiset nat :=
  match b with Some b => {[+ b +]} | None => ∅ end.
Definition blk_str (p : option cstr) : gmultiset nat :=
  match p with Some c => blk (cs_block c) | None => ∅ end.

(** A pointer that may be passed to [free]: NULL or a heap block. *)
Definition owned_str (p : option cstr) : Prop :=
  match p with Some c => is_Some (cs_block c) | None => True end.

(** ** Frames: what a heap-only call leaves alone *)

Record heap_only (p p' : proc) : Prop := {
  ho_ok : p_malloc_ok p' = p_malloc_ok p;
  ho_next : (p_next p <= p_next p')%nat;
  ho_fds : p_fds p' = p_fds p;
  ho_next_fd : p_next_fd p' = p_next_fd p;
}.

(** Some allocation request between the two states failed. *)
Definition alloc_failed (p p' : proc) : Prop :=
  exists k, (p_next p <= k < p_next p')%nat /\ p_malloc_ok p k = false.

(** Every allocation request succeeds. *)
Definition no_oom (p : proc) : Prop := forall k, p_malloc_ok p k = true.

(** A process that has allocated nothing, with the given oracle. *)
Definition fresh_proc (ok : nat -> bool) : proc :=
  {| p_malloc_ok := ok; p_next := 0; p_live := ∅; p_next_fd := 0; p_fds := ∅ |}.

(** ** Rules *)

Lemma wp_ret {S A} (a : A) (Q : A -> S -> Prop) s : Q a s -> wp (mret a) Q s.
Proof. done. Qed.

Lemma wp_bind {S A B} (m : M S A) (k : A -> M S B) Q s :
  wp m (fun a => wp (k a) Q) s -> wp (m ≫= k) Q s.
Proof. unfold wp, mbind, M_bind. by destruct (m s). Qed.

Lemma wp_mono {S A} (m : M S A) (Q Q' : A -> S -> Prop) s :
  wp m Q s -> (forall a s', Q a s' -> Q' a s') -> wp m Q' s.
Proof. unfold wp. destruct (m s); naive_solver. Qed.

Lemma wp_Done {S A} (m : M S A) Q s : wp m Q s <-> exists a s', m s = Done a s' /\ Q a s'.
Proof. unfold wp. destruct (m s); naive_solver. Qed.

Lemma wlp_ret {S A} (a : A) (Q : A -> S -> Prop) s : Q a s -> wlp (mret a) Q s.
Proof. done. Qed.

Lemma wlp_bind {S A B} (m : M S A) (k : A -> M S B) Q s :
  wlp m (fun a => wlp (k a) Q) s -> wlp (m ≫= k) Q s.
Proof. unfold wlp, mbind, M_bind. by destruct (m s). Qed.

Lemma wlp_mono {S A} (m : M S A) (Q Q' : A -> S -> Prop) s :
  wlp m Q s -> (forall a s', Q a s' -> Q' a s') -> wlp m Q' s.
Proof. unfold wlp. destruct (m s); naive_solver. Qed.

Lemma wp_wlp {S A} (m : M S A) Q s : wp m Q s -> wlp m Q s.
Proof. unfold wp, wlp. by destruct (m s). Qed.

#[global] Instance heap_only_refl : Reflexive heap_only.
Proof. intros p. split; auto. Qed.

#[global] Instance heap_only_trans : Transitive heap_only.
Proof. intros p q r [? ? ? ?] [? ? ? ?]. split; try congruence. lia. Qed.

Lemma alloc_failed_l p q r : heap_only q r -> alloc_failed p q -> alloc_failed p r.
Proof. intros [_ ? _ _] (k & ? & ?). exists k. split; [lia|done]. Qed.

Lemma alloc_failed_r p q r : heap_only p q -> alloc_failed q r -> alloc_failed p r.
Proof. intros [Hok ? _ _] (k & ? & Hk). rewrite Hok in Hk. exists k. split; [lia|done]. Qed.

Lemma no_oom_not_failed p p' : no_oom p -> ~ alloc_failed p p'.
Proof. intros Hno (k & _ & Hk). by rewrite Hno in Hk. Qed.

Lemma no_oom_ext p p' : heap_only p p' -> no_oom p -> no_oom p'.
Proof. intros [Hok _ _ _] Hno k. by rewrite Hok. Qed.

#[export] Hint Resolve heap_only_refl alloc_failed_l alloc_failed_r no_oom_ext : cinder.

(** Specifications of the primitives, in ledger form. *)
Lemma wp_malloc p :
  wp malloc (fun b p' => heap_only p p' /\ p_live p' = p_live p ⊎ blk b /\
                         (b = None -> alloc_failed p p')) p.
Proof.
  unfold wp, malloc. destruct (p_malloc_ok p (p_next p)) eqn:E; simpl; split_and!.
  - split; simpl; auto with lia.
  - multiset_solver.
  - done.
  - split; simpl; auto with lia.
  - multiset_solver.
  - intros _. exists (p_next p). simpl. split; [lia|done].
Qed.

Lemma wp_free b p : blk b ⊆ p_live p ->
  wp (free b) (fun _ p' => heap_only p p' /\ p_live p = p_live p' ⊎ blk b) p.
Proof.
  destruct b as [b|]; simpl; intros Hb.
  - unfold wp, free_block. rewrite decide_True by multiset_solver.
    simpl. split; [split; simpl; auto|]. multiset_solver.
  - apply wp_ret. split; [reflexivity|multiset_solver].
Qed.

Lemma wp_realloc b p : blk b ⊆ p_live p ->
  wp (realloc b) (fun b' p' => heap_only p p' /\
    match b' with
    | Some _ => p_live p' ⊎ blk b = p_live p ⊎ blk b'
    | None => p_live p' = p_live p /\ alloc_failed p p'
    end) p.
Proof.
  intros Hb. unfold realloc. apply wp_bind.
  eapply wp_mono; [apply wp_malloc|]. intros b' p1 (Hho & Hl & Hf).
  destruct b' as [b'|].
  - apply wp_bind. eapply wp_mono; [apply wp_free; multiset_solver|].
    intros _ p2 [Hho2 Hl2]. apply wp_ret. split; [by etrans|]. multiset_solver.
  - apply wp_ret. split; [done|]. split; [multiset_solver|auto].
Qed.

Lemma wp_alloc_str l p :
  wp (alloc_str l) (fun r p' => heap_only p p' /\ p_live p' = p_live p ⊎ blk_str r /\ owned_str r /\
    match r with Some c => cs_bytes c = l | None => alloc_failed p p' end) p.
Proof.
  unfold alloc_str. apply wp_bind. eapply wp_mono; [apply wp_malloc|].
  intros [b|] p' (? & ? & ?); apply wp_ret; simpl; eauto.
Qed.

Lemma wp_free_str c p : owned_str c -> blk_str c ⊆ p_live p ->
  wp (free_str c) (fun _ p' => heap_only p p' /\ p_live p = p_live p' ⊎ blk_str c) p.
Proof.
  destruct c as [c|]; simpl; [|intros; apply wp_ret; split; [reflexivity|multiset_solver]].
  intros [b Hb] Hin. rewrite Hb in *. exact (wp_free (Some b) p Hin).
Qed.

(** Releasing one or two strings before going on. *)
Lemma wp_free_then {A} c (k : M proc A) Q p : owned_str c -> blk_str c ⊆ p_live p ->
  (forall p', heap_only p p' -> p_live p = p_live p' ⊎ blk_str c -> wp k Q p') ->
  wp (free_str c;; k) Q p.
Proof.
  intros Ho Hin Hk. apply wp_bind. eapply wp_mono; [by apply wp_free_str|].
  intros _ p' [? ?]. by apply Hk.
Qed.

Lemma wp_free_two {A} c d (k : M proc A) Q p :
  owned_str c -> owned_str d -> blk_str c ⊎ blk_str d ⊆ p_live p ->
  (forall p', heap_only p p' -> p_live p = p_live p' ⊎ blk_str c ⊎ blk_str d -> wp k Q p') ->
  wp (free_str c;; free_str d;; k) Q p.
Proof.
  intros Hc Hd Hin Hk. apply wp_free_then; [done|multiset_solver|]. intros p1 Hho1 Hl1.
  apply wp_free_then; [done|multiset_solver|]. intros p2 Hho2 Hl2.
  apply Hk; [by etrans|multiset_solver].
Qed.

(** Allocating a string before going on: failure, or a fresh owned block. *)
Lemma wp_alloc_then {A} l (k : option cstr -> M proc A) Q p :
  (forall p', heap_only p p' -> p_live p' = p_live p -> alloc_failed p p' -> wp (k None) Q p') ->
  (forall b p', heap_only p p' -> p_live p' = p_live p ⊎ {[+ b +]} ->
     wp (k (Some (CStr (Some b) l))) Q p') ->
  wp (c ← alloc_str l; k c) Q p.
Proof.
  intros HN HS. apply wp_bind. eapply wp_mono; [apply wp_alloc_str|].
  intros [[[b|] l']|] p' (Hho & Hl & Ho & Hr); simpl in *.
  - subst. by apply HS.
  - by destruct Ho.
  - apply HN; [done|multiset_solver|done].
Qed.

(** Chains of [heap_only] steps. *)
Ltac heap_trans := first [reflexivity | assumption | etrans; [eassumption|heap_trans]].

(** Ledger goals left by the rules above. *)
Ltac ledger := simpl in *; unfold blk_str, blk in *; simpl in *; multiset_solver.
