(* ===== verification/Request.v ===== *)
(** * The request structure: http_limits.h, http_request.h and http_request.c

    Limits, the [http_request_t] record with the heap blocks it owns, its
    constructor and destructor, method names and case-insensitive header
    lookup.  An object pointer ([http_request_t *] and the like) always refers
    to a caller's object and is passed by value here; a string pointer that can
    be NULL is an [option]. *)
From S2P Require Import Prelude CLib Proc.

(** ** http_limits.h *)

Definition HTTP_MAX_REQUEST_LINE : Z := 8192.
Definition HTTP_MAX_HEADER_BYTES : Z := 32768.
Definition HTTP_MAX_HEADERS : Z := 100.
Definition HTTP_MAX_BODY_SIZE : Z := 1024 * 1024.
Definition HTTP_MAX_MESSAGE_BYTES : Z := HTTP_MAX_HEADER_BYTES + HTTP_MAX_BODY_SIZE.
Definition HTTP_MAX_REQUESTS_PER_CONNECTION : Z := 100.
Definition HTTP_MAX_STATIC_FILE_SIZE : Z := 64 * 1024 * 1024.

(** ** http_request.h *)

Inductive http_method_t :=
| HTTP_METHOD_GET
| HTTP_METHOD_HEAD
| HTTP_METHOD_POST
| HTTP_METHOD_UNKNOWN.

#[global] Instance http_method_eq_dec : EqDecision http_method_t.
Proof. solve_decision. Defined.

Record http_header_t := Header { hdr_name : cstr; hdr_value : cstr }.

(** [req_array] is the block of the [headers] array; [header_count] is the
    length of [req_headers]. *)
Record http_request_t := Request {
  req_method : http_method_t;
  req_target : option cstr;
  req_version : option cstr;
  req_array : option nat;
  req_headers : list http_header_t;
  req_body : option cstr;
  req_body_length : Z;
}.

Definition header_count (r : http_request_t) : Z := zlen (req_headers r).

(** ** http_request.c *)

Definition http_request_init : http_request_t :=
  {| req_method := HTTP_METHOD_UNKNOWN; req_target := None; req_version := None;
     req_array := None; req_headers := []; req_body := None; req_body_length := 0 |}.

(** The loop that frees the name and the value of every header. *)
Fixpoint free_headers (hs : list http_header_t) : M proc () :=
  match hs with
  | [] => mret ()
  | h :: hs' =>
      free_str (Some (hdr_name h));;
      free_str (Some (hdr_value h));;
      free_headers hs'
  end.

Definition http_request_destroy (request : http_request_t) : M proc http_request_t :=
  free_str (req_target request);;
  free_str (req_version request);;
  (match req_array request with
   | None => mret ()
   | Some arr => free_headers (req_headers request);; free (Some arr)
   end);;
  free_str (req_body request);;
  mret http_request_init.

Definition http_method_to_string (method : http_method_t) : list byte :=
  match method with
  | HTTP_METHOD_GET => lit "GET"
  | HTTP_METHOD_HEAD => lit "HEAD"
  | HTTP_METHOD_POST => lit "POST"
  | HTTP_METHOD_UNKNOWN => lit "UNKNOWN"
  end.

Definition http_method_from_string (method : option (list byte)) : http_method_t :=
  match method with
  | None => HTTP_METHOD_UNKNOWN
  | Some m =>
      if strcmp_eq m (lit "GET") then HTTP_METHOD_GET
      else if strcmp_eq m (lit "HEAD") then HTTP_METHOD_HEAD
      else if strcmp_eq m (lit "POST") then HTTP_METHOD_POST
      else HTTP_METHOD_UNKNOWN
  end.

Definition ascii_tolower (c : byte) : Z :=
  if in_range "A" "Z" c then bz c - bz "A" + bz "a" else bz c.

(** Case-insensitive comparison of two C strings. *)
Fixpoint header_name_equal (a b : list byte) : bool :=
  match a, b with
  | x :: a', y :: b' =>
      if ascii_tolower x =? ascii_tolower y then header_name_equal a' b' else false
  | [], [] => true
  | _, _ => false
  end.

(** The loop of [http_request_get_header]: the first match. *)
Fixpoint find_header (name : list byte) (hs : list http_header_t) : option cstr :=
  match hs with
  | [] => None
  | h :: hs' =>
      if header_name_equal (cs_string (hdr_name h)) name then Some (hdr_value h)
      else find_header name hs'
  end.

Definition http_request_get_header (request : http_request_t) (name : option (list byte))
  : option cstr :=
  match name with
  | None => None
  | Some name => find_header name (req_headers request)
  end.

(** ** Ownership *)

Definition blk_headers (hs : list http_header_t) : gmultiset nat :=
  foldr (fun h acc => blk_str (Some (hdr_name h)) ⊎ blk_str (Some (hdr_value h)) ⊎ acc) ∅ hs.

(** The heap blocks a request owns. *)
Definition blk_request (r : http_request_t) : gmultiset nat :=
  blk_str (req_target r) ⊎ blk_str (req_version r) ⊎ blk (req_array r) ⊎
  blk_headers (req_headers r) ⊎ blk_str (req_body r).

Definition owned_header (h : http_header_t) : Prop :=
  owned_str (Some (hdr_name h)) /\ owned_str (Some (hdr_value h)).

(** The ownership discipline of http_request.h: every pointer is NULL or a
    heap block, and headers are only stored in an allocated array. *)
Record owned_request (r : http_request_t) : Prop := {
  own_target : owned_str (req_target r);
  own_version : owned_str (req_version r);
  own_headers : Forall owned_header (req_headers r);
  own_array : req_array r = None -> req_headers r = [];
  own_body : owned_str (req_body r);
}.

(** ** Lemmas *)

Lemma ascii_tolower_idem_range c : 0 <= ascii_tolower c <= 255.
Proof.
  unfold ascii_tolower. pose proof (bz_range c). destruct (in_range _ _ c) eqn:E; [|done].
  apply in_range_true in E. change (bz "A") with 65 in *. change (bz "Z") with 90 in *.
  change (bz "a") with 97. lia.
Qed.

(** Two names are equal when their lower-case images are. *)
Lemma header_name_equal_true a b :
  header_name_equal a b = true <-> map ascii_tolower a = map ascii_tolower b.
Proof.
  revert b. induction a as [|x a IH]; intros [|y b]; simpl; try done.
  destruct (Z.eqb_spec (ascii_tolower x) (ascii_tolower y)) as [E|E].
  - rewrite IH, E. split; [by intros ->|by intros [= ->]].
  - split; [done|]. by intros [= ? _].
Qed.

Lemma header_name_equal_refl a : header_name_equal a a = true.
Proof. by apply header_name_equal_true. Qed.

Lemma header_name_equal_sym a b : header_name_equal a b = header_name_equal b a.
Proof. apply eq_true_iff_eq. rewrite !header_name_equal_true. naive_solver. Qed.

(** Case-insensitive equality does not distinguish equal names. *)
Lemma header_name_equal_trans a b c :
  header_name_equal a b = true -> header_name_equal a c = header_name_equal b c.
Proof.
  rewrite header_name_equal_true. intros E. apply eq_true_iff_eq.
  rewrite !header_name_equal_true. by rewrite E.
Qed.

Lemma find_header_Some name hs v :
  find_header name hs = Some v <->
  exists hs1 h hs2, hs = hs1 ++ h :: hs2 /\ hdr_value h = v /\
    header_name_equal (cs_string (hdr_name h)) name = true /\
    Forall (fun h' => header_name_equal (cs_string (hdr_name h')) name = false) hs1.
Proof.
  induction hs as [|h hs IH]; simpl.
  { split; [done|]. intros (hs1 & ? & ? & H & _). by destruct hs1. }
  destruct (header_name_equal (cs_string (hdr_name h)) name) eqn:E.
  - split.
    + intros [= <-]. exists [], h, hs. auto.
    + intros (hs1 & h' & hs2 & H & <- & _ & HF). destruct hs1 as [|h1 hs1]; simplify_eq/=; [done|].
      apply Forall_cons_1 in HF as [? _]. congruence.
  - rewrite IH. split.
    + intros (hs1 & h' & hs2 & -> & <- & Hh & HF). exists (h :: hs1), h', hs2. auto.
    + intros (hs1 & h' & hs2 & H & <- & Hh & HF). destruct hs1 as [|h1 hs1]; simplify_eq/=; [congruence|].
      apply Forall_cons_1 in HF as [_ HF]. eauto 10.
Qed.

Lemma find_header_None name hs :
  find_header name hs = None <->
  Forall (fun h => header_name_equal (cs_string (hdr_name h)) name = false) hs.
Proof.
  induction hs as [|h hs IH]; simpl; [naive_solver|].
  destruct (header_name_equal _ _) eqn:E; split; try done.
  - intros HF. apply Forall_cons_1 in HF as [? _]. congruence.
  - rewrite IH. auto.
  - intros HF. apply Forall_cons_1 in HF as [_ ?]. by apply IH.
Qed.

Lemma blk_headers_app hs1 hs2 : blk_headers (hs1 ++ hs2) = blk_headers hs1 ⊎ blk_headers hs2.
Proof. induction hs1; simpl; multiset_solver. Qed.

Lemma wp_free_headers hs p :
  Forall owned_header hs -> blk_headers hs ⊆ p_live p ->
  wp (free_headers hs) (fun _ p' => heap_only p p' /\ p_live p = p_live p' ⊎ blk_headers hs) p.
Proof.
  revert p. induction hs as [|h hs IH]; intros p HF Hin; simpl in *.
  { apply wp_ret. split; [reflexivity|multiset_solver]. }
  apply Forall_cons_1 in HF as [[Hn Hv] HF]. simpl in Hin.
  apply wp_bind. eapply wp_mono; [apply (wp_free_str (Some (hdr_name h))); [done|]|].
  { simpl. multiset_solver. }
  intros _ p1 [Hho1 Hl1]. simpl in Hl1.
  apply wp_bind. eapply wp_mono; [apply (wp_free_str (Some (hdr_value h))); [done|]|].
  { simpl. multiset_solver. }
  intros _ p2 [Hho2 Hl2]. simpl in Hl2.
  eapply wp_mono; [apply IH; [done|multiset_solver]|].
  intros _ p3 [Hho3 Hl3]. split; [by repeat (etrans; [done|])|]. multiset_solver.
Qed.

(** Destroying a request frees exactly the blocks it owns and leaves it empty. *)
Lemma wp_request_destroy r p :
  owned_request r -> blk_request r ⊆ p_live p ->
  wp (http_request_destroy r) (fun r' p' => r' = http_request_init /\ heap_only p p' /\
    p_live p = p_live p' ⊎ blk_request r) p.
Proof.
  intros [Ht Hv Hh Ha Hb] Hin. unfold http_request_destroy, blk_request in *.
  apply wp_bind. eapply wp_mono; [apply wp_free_str; [done|multiset_solver]|].
  intros _ p1 [Hho1 Hl1].
  apply wp_bind. eapply wp_mono; [apply wp_free_str; [done|multiset_solver]|].
  intros _ p2 [Hho2 Hl2].
  apply wp_bind. apply wp_mono with (Q := fun _ p3 => heap_only p2 p3 /\
    p_live p2 = p_live p3 ⊎ blk (req_array r) ⊎ blk_headers (req_headers r)).
  { destruct (req_array r) as [arr|] eqn:Earr.
    - apply wp_bind. eapply wp_mono; [apply wp_free_headers; [done|multiset_solver]|].
      intros _ p3 [Hho3 Hl3].
      eapply wp_mono; [apply (wp_free (Some arr)); simpl in *; multiset_solver|].
      intros _ p4 [Hho4 Hl4]. split; [by etrans|]. simpl in *. multiset_solver.
    - apply wp_ret. rewrite (Ha eq_refl). simpl. split; [reflexivity|multiset_solver]. }
  intros _ p3 [Hho3 Hl3].
  apply wp_bind. eapply wp_mono; [apply wp_free_str; [done|multiset_solver]|].
  intros _ p4 [Hho4 Hl4]. apply wp_ret. split; [done|]. split.
  { by repeat (etrans; [done|]). }
  multiset_solver.
Qed.

Lemma owned_request_init : owned_request http_request_init.
Proof. split; simpl; auto. Qed.

Lemma blk_request_init : blk_request http_request_init = ∅.
Proof. unfold blk_request. simpl. multiset_solver. Qed.

#[export] Hint Resolve owned_request_init header_name_equal_refl : cinder.
