(* ===== verification/Parser.v ===== *)
(** * The message parser: http_parser.h and http_parser.c

    A pointer into the message and an end pointer are modelled by the bytes
    between them, so advancing a cursor drops a prefix.  Functions that
    allocate are in the [proc] monad with the allocations, frees and early
    returns of the code in its order. *)
From S2P Require Import Prelude CLib Proc Request.

Inductive http_parse_result_t :=
| HTTP_PARSE_OK
| HTTP_PARSE_BAD_REQUEST
| HTTP_PARSE_UNSUPPORTED_METHOD
| HTTP_PARSE_UNSUPPORTED_VERSION
| HTTP_PARSE_TOO_LARGE
| HTTP_PARSE_TOO_MANY_HEADERS
| HTTP_PARSE_INVALID_CONTENT_LENGTH
| HTTP_PARSE_UNSUPPORTED_TRANSFER_ENCODING
| HTTP_PARSE_OUT_OF_MEMORY.

#[global] Instance http_parse_result_eq_dec : EqDecision http_parse_result_t.
Proof. solve_decision. Defined.

(** ** Character classes and tokens *)

Definition is_token_char (c : byte) : bool :=
  if in_range "A" "Z" c || in_range "a" "z" c || in_range "0" "9" c then true
  else bool_decide (c ∈ lit "!#$%&'*+-.^_`|~").

Definition is_supported_method_token (method : list byte) : bool :=
  strcmp_eq method (lit "GET") || strcmp_eq method (lit "HEAD") ||
  strcmp_eq method (lit "POST").

Definition known_unsupported : list (list byte) :=
  [lit "PUT"; lit "DELETE"; lit "PATCH"; lit "OPTIONS"; lit "TRACE"; lit "CONNECT"; lit "PRI"].

(** The table is searched, and any other token is accepted as well. *)
Definition is_known_unsupported_method (method : list byte) : bool :=
  if existsb (strcmp_eq method) known_unsupported then true else true.

Definition method_token_is_well_formed (method : list byte) : bool :=
  match method with
  | [] => false
  | _ => forallb is_token_char method
  end.

Definition is_ows (c : byte) : bool := (c =?b SP) || (c =?b HT).

(** [skip_ows(start, end)] and [trim_ows_end(start, end)]. *)
Fixpoint skip_ows (l : list byte) : list byte :=
  match l with
  | c :: l' => if is_ows c then skip_ows l' else l
  | [] => []
  end.

Fixpoint trim_ows_end (l : list byte) : list byte :=
  match l with
  | [] => []
  | c :: l' =>
      match trim_ows_end l' with
      | [] => if is_ows c then [] else [c]
      | t => c :: t
      end
  end.

Definition dup_range (range : list byte) : M proc (option cstr) := alloc_str range.

(** ** Framing *)

Definition CRLFCRLF : list byte := [CR; LF; CR; LF].

(** Offset of the first CRLF CRLF; [None] is [(size_t)-1]. *)
Fixpoint http_find_header_terminator (data : list byte) : option nat :=
  if has_prefix CRLFCRLF data then Some 0%nat
  else match data with
       | [] => None
       | _ :: data' => S <$> http_find_header_terminator data'
       end.

(** [inl] is an error result, [inr] is HTTP_PARSE_OK with [*out_length]. *)
Definition http_parse_content_length_value (value : option (list byte))
  : http_parse_result_t + Z :=
  match value with
  | None => inl HTTP_PARSE_INVALID_CONTENT_LENGTH
  | Some v =>
      if bool_decide (v = []) then inl HTTP_PARSE_INVALID_CONTENT_LENGTH
      else if negb (forallb is_digit v) then inl HTTP_PARSE_INVALID_CONTENT_LENGTH
      else
        let '(parsed, e, erange) := strtoull v in
        if (e =? 0)%nat || negb (bool_decide (drop e v = [])) || erange
        then inl HTTP_PARSE_INVALID_CONTENT_LENGTH
        else if HTTP_MAX_BODY_SIZE <? parsed then inl HTTP_PARSE_TOO_LARGE
        else inr parsed
  end.

(** The line at the cursor without its CRLF, and the cursor after it: the
    [memchr] for LF with the checks [nl == NULL || nl == cursor || nl[-1] != CR]
    that four places of the parser make. *)
Definition next_line (cursor : list byte) : option (list byte * list byte) :=
  match memchr LF cursor with
  | None => None
  | Some O => None
  | Some (S i) =>
      if bool_decide (cursor !! i = Some CR)
      then Some (take i cursor, drop (S (S i)) cursor) else None
  end.

(** The loop over the header lines.  [cursor] runs up to the end of the header
    section; fuel: every round consumes at least one byte. *)
Fixpoint framing_loop (fuel : nat) (cursor : list byte)
    (saw_content_length : bool) (content_length : Z) (saw_chunked : bool)
  : M proc (http_parse_result_t + Z) :=
  match fuel with
  | O => no_return
  | S fuel =>
      if bool_decide (cursor = []) || has_prefix CRLF cursor then
        mret (if saw_chunked then inl HTTP_PARSE_UNSUPPORTED_TRANSFER_ENCODING
              else inr (if saw_content_length then content_length else 0))
      else
        match next_line cursor with
        | None => mret (inl HTTP_PARSE_BAD_REQUEST)
        | Some (line, rest) =>
            match memchr ":" line with
            | None | Some O => mret (inl HTTP_PARSE_BAD_REQUEST)
            | Some colon =>
                name ← dup_range (take colon line);
                match name with
                | None => mret (inl HTTP_PARSE_OUT_OF_MEMORY)
                | Some name =>
                    value ← dup_range (trim_ows_end (skip_ows (drop (S colon) line)));
                    match value with
                    | None => free_str (Some name);; mret (inl HTTP_PARSE_OUT_OF_MEMORY)
                    | Some value =>
                        let bail e :=
                          free_str (Some name);; free_str (Some value);; mret (inl e) in
                        let continue cl len ch :=
                          free_str (Some name);; free_str (Some value);;
                          framing_loop fuel rest cl len ch in
                        if header_name_equal (cs_string name) (lit "Transfer-Encoding") then
                          if header_name_equal (cs_string value) (lit "chunked") ||
                             strstr (cs_string value) (lit "chunked")
                          then continue saw_content_length content_length true
                          else bail HTTP_PARSE_UNSUPPORTED_TRANSFER_ENCODING
                        else if header_name_equal (cs_string name) (lit "Content-Length") then
                          match http_parse_content_length_value (Some (cs_string value)) with
                          | inl e => bail e
                          | inr parsed_len =>
                              if saw_content_length then bail HTTP_PARSE_INVALID_CONTENT_LENGTH
                              else continue true parsed_len saw_chunked
                          end
                        else continue saw_content_length content_length saw_chunked
                    end
                end
            end
        end
  end.

Definition http_inspect_message_framing (data : list byte) (header_length : nat)
  : M proc (http_parse_result_t + Z) :=
  if (header_length <? 4)%nat then mret (inl HTTP_PARSE_BAD_REQUEST)
  else if negb (bool_decide (take 4 (drop (header_length - 4) data) = CRLFCRLF))
  then mret (inl HTTP_PARSE_BAD_REQUEST)
  else
    match next_line (take header_length data) with
    | None => mret (inl HTTP_PARSE_BAD_REQUEST)
    | Some (_, cursor) => framing_loop (S (length cursor)) cursor false 0 false
    end.

(** ** The request line *)

(** The tail of [parse_request_line] that looks at the version. *)
Definition check_version (version : list byte) : http_parse_result_t :=
  if strcmp_eq version (lit "HTTP/1.0") || strcmp_eq version (lit "HTTP/1.1")
  then HTTP_PARSE_OK
  else if has_prefix (lit "HTTP/") version && negb (bool_decide (drop 5 version = []))
  then if forallb (fun c => is_digit c || (c =?b ".")) (drop 5 version)
       then HTTP_PARSE_UNSUPPORTED_VERSION
       else HTTP_PARSE_BAD_REQUEST
  else HTTP_PARSE_BAD_REQUEST.

Definition parse_request_line (line : list byte) (request : http_request_t)
  : M proc (http_parse_result_t * http_request_t) :=
  if (zlen line =? 0) || (HTTP_MAX_REQUEST_LINE <? zlen line) then
    mret (if HTTP_MAX_REQUEST_LINE <? zlen line then HTTP_PARSE_TOO_LARGE
          else HTTP_PARSE_BAD_REQUEST, request)
  else
    match memchr SP line with
    | None | Some O => mret (HTTP_PARSE_BAD_REQUEST, request)
    | Some first_sp =>
        if bool_decide (is_Some (memchr NUL (take first_sp line))) then
          mret (HTTP_PARSE_BAD_REQUEST, request)
        else
          method ← dup_range (take first_sp line);
          match method with
          | None => mret (HTTP_PARSE_OUT_OF_MEMORY, request)
          | Some method =>
              let bail e := free_str (Some method);; mret (e, request) in
              if negb (method_token_is_well_formed (cs_string method)) then
                bail HTTP_PARSE_BAD_REQUEST
              else
                let after_method := drop (S first_sp) line in
                if match after_method with [] => true | c :: _ => c =?b SP end then
                  bail HTTP_PARSE_BAD_REQUEST
                else
                  match memchr SP after_method with
                  | None | Some O => bail HTTP_PARSE_BAD_REQUEST
                  | Some target_len =>
                      let target := take target_len after_method in
                      let version := drop (S target_len) after_method in
                      if bool_decide (version = []) ||
                         bool_decide (is_Some (memchr SP version)) then
                        bail HTTP_PARSE_BAD_REQUEST
                      else if bool_decide (is_Some (memchr NUL target)) ||
                              bool_decide (is_Some (memchr NUL version)) then
                        bail HTTP_PARSE_BAD_REQUEST
                      else if negb (is_supported_method_token (cs_string method)) then
                        bail (if is_known_unsupported_method (cs_string method)
                              then HTTP_PARSE_UNSUPPORTED_METHOD else HTTP_PARSE_BAD_REQUEST)
                      else
                        free_str (Some method);;
                        t ← dup_range target;
                        v ← dup_range version;
                        let request :=
                          {| req_method := http_method_from_string (Some (cs_string method));
                             req_target := t; req_version := v;
                             req_array := req_array request;
                             req_headers := req_headers request;
                             req_body := req_body request;
                             req_body_length := req_body_length request |} in
                        match t, v with
                        | Some _, Some v => mret (check_version (cs_string v), request)
                        | _, _ => mret (HTTP_PARSE_OUT_OF_MEMORY, request)
                        end
                  end
          end
    end.

(** ** Header lines *)

Definition append_header (request : http_request_t) (name value : cstr)
  : M proc (http_parse_result_t * http_request_t) :=
  if HTTP_MAX_HEADERS <=? header_count request then
    free_str (Some name);; free_str (Some value);;
    mret (HTTP_PARSE_TOO_MANY_HEADERS, request)
  else
    grown ← realloc (req_array request);
    match grown with
    | None =>
        free_str (Some name);; free_str (Some value);;
        mret (HTTP_PARSE_OUT_OF_MEMORY, request)
    | Some arr =>
        mret (HTTP_PARSE_OK,
              {| req_method := req_method request;
                 req_target := req_target request;
                 req_version := req_version request;
                 req_array := Some arr;
                 req_headers := req_headers request ++ [Header name value];
                 req_body := req_body request;
                 req_body_length := req_body_length request |})
    end.

Definition is_bad_name_char (c : byte) : bool := (c =?b SP) || (c =?b HT) || (c =?b NUL).

Definition parse_header_line (line : list byte) (request : http_request_t)
  : M proc (http_parse_result_t * http_request_t) :=
  if zlen line =? 0 then mret (HTTP_PARSE_BAD_REQUEST, request)
  else
    match memchr ":" line with
    | None | Some O => mret (HTTP_PARSE_BAD_REQUEST, request)
    | Some name_len =>
        if existsb is_bad_name_char (take name_len line) then
          mret (HTTP_PARSE_BAD_REQUEST, request)
        else
          name ← dup_range (take name_len line);
          match name with
          | None => mret (HTTP_PARSE_OUT_OF_MEMORY, request)
          | Some name =>
              let value_range := trim_ows_end (skip_ows (drop (S name_len) line)) in
              if bool_decide (is_Some (memchr NUL value_range)) then
                free_str (Some name);; mret (HTTP_PARSE_BAD_REQUEST, request)
              else
                value ← dup_range value_range;
                match value with
                | None => free_str (Some name);; mret (HTTP_PARSE_OUT_OF_MEMORY, request)
                | Some value => append_header request name value
                end
          end
    end.

(** ** The whole message *)

(** The [while (cursor < headers_end)] loop; fuel: one byte per round at least. *)
Fixpoint parse_header_lines (fuel : nat) (cursor : list byte) (request : http_request_t)
  : M proc (http_parse_result_t * http_request_t) :=
  match fuel with
  | O => no_return
  | S fuel =>
      if bool_decide (cursor = []) then mret (HTTP_PARSE_OK, request)
      else
        match next_line cursor with
        | None => mret (HTTP_PARSE_BAD_REQUEST, request)
        | Some (line, rest) =>
            '(hr, request) ← parse_header_line line request;
            match hr with
            | HTTP_PARSE_OK => parse_header_lines fuel rest request
            | _ => mret (hr, request)
            end
        end
  end.

(** The number of headers named Content-Length. *)
Definition count_content_length (hs : list http_header_t) : Z :=
  zlen (List.filter (fun h => header_name_equal (cs_string (hdr_name h)) (lit "Content-Length")) hs).

(** The re-validation of Content-Length and Transfer-Encoding on the stored
    headers: [inr] the body length, [inl] the error. *)
Definition revalidate (request : http_request_t) (expected_body : Z) : http_parse_result_t + Z :=
  let cl := http_request_get_header request (Some (lit "Content-Length")) in
  let te := http_request_get_header request (Some (lit "Transfer-Encoding")) in
  match te with
  | Some _ => inl HTTP_PARSE_UNSUPPORTED_TRANSFER_ENCODING
  | None =>
      let length_result :=
        match cl with
        | None => inr 0
        | Some cl =>
            if 1 <? count_content_length (req_headers request)
            then inl HTTP_PARSE_INVALID_CONTENT_LENGTH
            else http_parse_content_length_value (Some (cs_string cl))
        end in
      match length_result with
      | inl e => inl e
      | inr body_length =>
          if negb (body_length =? expected_body) then inl HTTP_PARSE_BAD_REQUEST
          else if (0 <? body_length) && (body_length =? SIZE_MAX) then inl HTTP_PARSE_TOO_LARGE
          else inr body_length
      end
  end.

(** [http_request_destroy(request); return result;] *)
Definition parse_fail (e : http_parse_result_t) (request : http_request_t)
  : M proc (http_parse_result_t * http_request_t) :=
  request ← http_request_destroy request; mret (e, request).

(** The end of [http_parse_request]: re-validation and the copy of the body. *)
Definition parse_body (body : list byte) (expected_body : Z) (request : http_request_t)
  : M proc (http_parse_result_t * http_request_t) :=
  match revalidate request expected_body with
  | inl e => parse_fail e request
  | inr body_length =>
      if 0 <? body_length then
        b ← malloc;
        match b with
        | None => parse_fail HTTP_PARSE_OUT_OF_MEMORY request
        | Some b =>
            mret (HTTP_PARSE_OK,
                  {| req_method := req_method request;
                     req_target := req_target request;
                     req_version := req_version request;
                     req_array := req_array request;
                     req_headers := req_headers request;
                     req_body := Some (CStr (Some b) (take (Z.to_nat body_length) body));
                     req_body_length := body_length |})
        end
      else mret (HTTP_PARSE_OK, request)
  end.

Definition http_parse_request (data : list byte) : M proc (http_parse_result_t * http_request_t) :=
  let request := http_request_init in
  if zlen data =? 0 then mret (HTTP_PARSE_BAD_REQUEST, request)
  else
    match http_find_header_terminator data with
    | None => mret (HTTP_PARSE_BAD_REQUEST, request)
    | Some term =>
        let header_bytes := (term + 4)%nat in
        if HTTP_MAX_HEADER_BYTES <? Z.of_nat header_bytes then
          mret (HTTP_PARSE_TOO_LARGE, request)
        else
          frame ← http_inspect_message_framing data header_bytes;
          match frame with
          | inl e => mret (e, request)
          | inr expected_body =>
              if zlen data <? Z.of_nat header_bytes + expected_body then
                mret (HTTP_PARSE_BAD_REQUEST, request)
              else if Z.of_nat header_bytes + expected_body <? zlen data then
                mret (HTTP_PARSE_BAD_REQUEST, request)
              else
                match next_line (take (term + 2) data) with
                | None => parse_fail HTTP_PARSE_BAD_REQUEST request
                | Some (line, cursor) =>
                    '(rl, request) ← parse_request_line line request;
                    match rl with
                    | HTTP_PARSE_OK =>
                        '(hr, request) ← parse_header_lines (S (length cursor)) cursor request;
                        match hr with
                        | HTTP_PARSE_OK =>
                            parse_body (drop header_bytes data) expected_body request
                        | e => parse_fail e request
                        end
                    | e => parse_fail e request
                    end
                end
          end
    end.
