(* ===== verification/ParserSpec.v ===== *)
(** * The parser without memory, and the refinement

    [parse_spec] is the function from messages to requests that
    [http_parse_request] computes when allocation succeeds, written without the
    heap.  The refinement lemmas show that the code computes it, that it fails
    with HTTP_PARSE_OUT_OF_MEMORY only when an allocation fails, and that on
    every path the blocks it leaves live are exactly those of the request it
    returns. *)
From S2P Require Import Prelude CLib Proc Request Parser.

(** The contents of a parsed request. *)
Record request := Req {
  rq_method : http_method_t;
  rq_target : list byte;
  rq_version : list byte;
  rq_headers : list (list byte * list byte);
  rq_body : list byte;
}.

(** Name and value range of a header line. *)
Definition split_header (line : list byte) : option (list byte * list byte) :=
  match memchr ":" line with
  | None | Some O => None
  | Some colon => Some (take colon line, trim_ows_end (skip_ows (drop (S colon) line)))
  end.

(** What one header does to the framing state: Content-Length seen, its value,
    chunked seen. *)
Definition framing_state : Type := bool * Z * bool.

Definition framing_header (name value : list byte) (st : framing_state)
  : http_parse_result_t + framing_state :=
  let '(saw, len, chunked) := st in
  if header_name_equal name (lit "Transfer-Encoding") then
    if header_name_equal value (lit "chunked") || strstr value (lit "chunked")
    then inr (saw, len, true)
    else inl HTTP_PARSE_UNSUPPORTED_TRANSFER_ENCODING
  else if header_name_equal name (lit "Content-Length") then
    match http_parse_content_length_value (Some value) with
    | inl e => inl e
    | inr n => if saw then inl HTTP_PARSE_INVALID_CONTENT_LENGTH else inr (true, n, chunked)
    end
  else inr (saw, len, chunked).

Definition framing_end (st : framing_state) : http_parse_result_t + Z :=
  let '(saw, len, chunked) := st in
  if chunked then inl HTTP_PARSE_UNSUPPORTED_TRANSFER_ENCODING
  else inr (if saw then len else 0).

Fixpoint framing_lines (fuel : nat) (cursor : list byte) (st : framing_state)
  : http_parse_result_t + Z :=
  match fuel with
  | O => inl HTTP_PARSE_BAD_REQUEST
  | S fuel =>
      if bool_decide (cursor = []) || has_prefix CRLF cursor then framing_end st
      else
        match next_line cursor with
        | None => inl HTTP_PARSE_BAD_REQUEST
        | Some (line, rest) =>
            match split_header line with
            | None => inl HTTP_PARSE_BAD_REQUEST
            | Some (name, value) =>
                match framing_header (c_string name) (c_string value) st with
                | inl e => inl e
                | inr st => framing_lines fuel rest st
                end
            end
        end
  end.

Definition framing_spec (data : list byte) (header_length : nat) : http_parse_result_t + Z :=
  if (header_length <? 4)%nat then inl HTTP_PARSE_BAD_REQUEST
  else if negb (bool_decide (take 4 (drop (header_length - 4) data) = CRLFCRLF))
  then inl HTTP_PARSE_BAD_REQUEST
  else
    match next_line (take header_length data) with
    | None => inl HTTP_PARSE_BAD_REQUEST
    | Some (_, cursor) => framing_lines (S (length cursor)) cursor (false, 0, false)
    end.

Definition request_line_spec (line : list byte)
  : http_parse_result_t + (http_method_t * list byte * list byte) :=
  if (zlen line =? 0) || (HTTP_MAX_REQUEST_LINE <? zlen line) then
    inl (if HTTP_MAX_REQUEST_LINE <? zlen line then HTTP_PARSE_TOO_LARGE
         else HTTP_PARSE_BAD_REQUEST)
  else
    match memchr SP line with
    | None | Some O => inl HTTP_PARSE_BAD_REQUEST
    | Some first_sp =>
        let method := take first_sp line in
        let after_method := drop (S first_sp) line in
        if bool_decide (is_Some (memchr NUL method)) ||
           negb (method_token_is_well_formed method) ||
           match after_method with [] => true | c :: _ => c =?b SP end
        then inl HTTP_PARSE_BAD_REQUEST
        else
          match memchr SP after_method with
          | None | Some O => inl HTTP_PARSE_BAD_REQUEST
          | Some target_len =>
              let target := take target_len after_method in
              let version := drop (S target_len) after_method in
              if bool_decide (version = []) || bool_decide (is_Some (memchr SP version)) ||
                 bool_decide (is_Some (memchr NUL target)) ||
                 bool_decide (is_Some (memchr NUL version))
              then inl HTTP_PARSE_BAD_REQUEST
              else if negb (is_supported_method_token method) then
                inl HTTP_PARSE_UNSUPPORTED_METHOD
              else
                match check_version version with
                | HTTP_PARSE_OK => inr (http_method_from_string (Some method), target, version)
                | e => inl e
                end
          end
    end.

Definition header_line_spec (line : list byte) : option (list byte * list byte) :=
  match split_header line with
  | None => None
  | Some (name, value) =>
      if existsb is_bad_name_char name || bool_decide (is_Some (memchr NUL value))
      then None else Some (name, value)
  end.

Fixpoint header_lines_spec (fuel : nat) (cursor : list byte) (acc : list (list byte * list byte))
  : http_parse_result_t + list (list byte * list byte) :=
  match fuel with
  | O => inl HTTP_PARSE_BAD_REQUEST
  | S fuel =>
      if bool_decide (cursor = []) then inr acc
      else
        match next_line cursor with
        | None => inl HTTP_PARSE_BAD_REQUEST
        | Some (line, rest) =>
            match header_line_spec line with
            | None => inl HTTP_PARSE_BAD_REQUEST
            | Some h =>
                if HTTP_MAX_HEADERS <=? zlen acc then inl HTTP_PARSE_TOO_MANY_HEADERS
                else header_lines_spec fuel rest (acc ++ [h])
            end
        end
  end.

Definition parse_spec (data : list byte) : http_parse_result_t + request :=
  match http_find_header_terminator data with
  | None => inl HTTP_PARSE_BAD_REQUEST
  | Some term =>
      let header_bytes := (term + 4)%nat in
      if HTTP_MAX_HEADER_BYTES <? Z.of_nat header_bytes then inl HTTP_PARSE_TOO_LARGE
      else
        match framing_spec data header_bytes with
        | inl e => inl e
        | inr expected_body =>
            if negb (zlen data =? Z.of_nat header_bytes + expected_body)
            then inl HTTP_PARSE_BAD_REQUEST
            else
              match next_line (take (term + 2) data) with
              | None => inl HTTP_PARSE_BAD_REQUEST
              | Some (line, cursor) =>
                  match request_line_spec line with
                  | inl e => inl e
                  | inr (method, target, version) =>
                      match header_lines_spec (S (length cursor)) cursor [] with
                      | inl e => inl e
                      | inr headers =>
                          inr (Req method target version headers (drop header_bytes data))
                      end
                  end
              end
        end
  end.

(** ** From the structure to its contents *)

Definition view_header (h : http_header_t) : list byte * list byte :=
  (cs_bytes (hdr_name h), cs_bytes (hdr_value h)).

(** [shows r a]: the structure [r] holds the contents [a]; the body pointer is
    NULL when the body is empty. *)
Record shows (r : http_request_t) (a : request) : Prop := {
  sh_method : req_method r = rq_method a;
  sh_target : cs_bytes <$> req_target r = Some (rq_target a);
  sh_version : cs_bytes <$> req_version r = Some (rq_version a);
  sh_headers : map view_header (req_headers r) = rq_headers a;
  sh_body : cs_bytes <$> req_body r = match rq_body a with [] => None | b => Some b end;
  sh_body_length : req_body_length r = zlen (rq_body a);
}.

(** ** Lemmas: lines *)

Lemma next_line_Some cursor line rest :
  next_line cursor = Some (line, rest) <-> cursor = line ++ CR :: LF :: rest /\ LF ∉ line.
Proof.
  unfold next_line. split.
  - destruct (memchr LF cursor) as [[|i]|] eqn:E; try done.
    apply memchr_Some in E as (l1 & l2 & -> & Hi & Hn).
    case_bool_decide as Hcr; [|done]. intros [= <- <-].
    destruct l1 as [|x l1 _] using rev_ind; [done|]. rewrite length_app in Hi. simpl in Hi.
    assert (i = length l1) as -> by lia.
    rewrite <- app_assoc in Hcr |- *. simpl in Hcr |- *.
    rewrite list_lookup_middle in Hcr by done. simplify_eq.
    rewrite take_app_length by done.
    rewrite (drop_app_ge l1) by lia. replace (S (S (length l1)) - length l1)%nat with 2%nat by lia.
    split; [done|set_solver].
  - intros [-> Hn]. replace (line ++ CR :: LF :: rest) with ((line ++ [CR]) ++ LF :: rest)
      by by rewrite <- app_assoc.
    assert (LF ∉ line ++ [CR]).
    { rewrite elem_of_app, list_elem_of_singleton. by intros [?|?]. }
    rewrite memchr_app by done. rewrite length_app, Nat.add_1_r.
    rewrite <- app_assoc. simpl.
    rewrite bool_decide_eq_true_2 by by apply list_lookup_middle.
    rewrite take_app_length by done. rewrite drop_app_ge by lia.
    by replace (S (S (length line)) - length line)%nat with 2%nat by lia.
Qed.

Lemma next_line_length cursor line rest :
  next_line cursor = Some (line, rest) -> (length rest < length cursor)%nat.
Proof. intros [-> _]%next_line_Some. rewrite length_app. simpl. lia. Qed.

(** ** Refinement: framing *)

Lemma wp_framing_loop fuel : forall cursor saw len ch p, (length cursor < fuel)%nat ->
  wp (framing_loop fuel cursor saw len ch) (fun r p' =>
    heap_only p p' /\ p_live p' = p_live p /\
    (r = framing_lines fuel cursor (saw, len, ch) \/
     r = inl HTTP_PARSE_OUT_OF_MEMORY /\ alloc_failed p p')) p.
Proof.
  induction fuel as [|fuel IH]; intros cursor saw len ch p Hfuel; [lia|].
  cbn [framing_loop framing_lines].
  destruct (bool_decide (cursor = []) || has_prefix CRLF cursor).
  { apply wp_ret. split; [heap_trans|]. split; [done|]. by left. }
  destruct (next_line cursor) as [[line rest]|] eqn:Eline; [|by apply wp_ret; eauto with cinder].
  apply next_line_length in Eline. unfold split_header.
  destruct (memchr ":" line) as [[|c]|]; try by apply wp_ret; eauto with cinder.
  apply wp_alloc_then; [intros p1 Hho1 Hl1 Hf; apply wp_ret; by eauto 6 with cinder|].
  intros bn p1 Hho1 Hl1.
  apply wp_alloc_then.
  { intros p2 Hho2 Hl2 Hf. apply wp_free_then; [simpl; eauto|ledger|]. intros p3 Hho3 Hl3.
    apply wp_ret. split; [heap_trans|]. split; [ledger|]. right. split; [done|].
    eapply alloc_failed_l; [done|]. by eapply alloc_failed_r. }
  intros bv p2 Hho2 Hl2. cbv zeta beta.
  set (name := take (S c) line). set (value := trim_ows_end _).
  change (cs_string (CStr (Some bn) name)) with (c_string name).
  change (cs_string (CStr (Some bv) value)) with (c_string value).
  assert (Hbail : forall e : http_parse_result_t, wp (free_str (Some (CStr (Some bn) name));;
      free_str (Some (CStr (Some bv) value));; mret (inl e))
      (fun (r : http_parse_result_t + Z) p' =>
        heap_only p p' /\ p_live p' = p_live p /\ r = inl e) p2).
  { intros e. apply wp_free_two; [simpl; eauto|simpl; eauto|ledger|]. intros p3 Hho3 Hl3.
    apply wp_ret. split; [heap_trans|]. split; [ledger|done]. }
  assert (Hcont : forall cl' len' ch', wp (free_str (Some (CStr (Some bn) name));;
      free_str (Some (CStr (Some bv) value));; framing_loop fuel rest cl' len' ch')
      (fun r p' => heap_only p p' /\ p_live p' = p_live p /\
        (r = framing_lines fuel rest (cl', len', ch') \/
         r = inl HTTP_PARSE_OUT_OF_MEMORY /\ alloc_failed p p')) p2).
  { intros cl' len' ch'. apply wp_free_two; [simpl; eauto|simpl; eauto|ledger|].
    intros p3 Hho3 Hl3. eapply wp_mono; [apply IH; lia|].
    intros r p4 (Hho4 & Hl4 & Hr). split; [heap_trans|]. split; [ledger|].
    destruct Hr as [Hr|[Hr Hf]]; [by left|right]. split; [done|].
    eapply alloc_failed_r; [|done]. heap_trans. }
  unfold framing_header.
  repeat case_match; simplify_eq;
    first [by apply Hcont | eapply wp_mono; [by apply Hbail|]; by naive_solver].
Qed.

Lemma wp_inspect_message_framing data header_length p :
  wp (http_inspect_message_framing data header_length) (fun r p' =>
    heap_only p p' /\ p_live p' = p_live p /\
    (r = framing_spec data header_length \/
     r = inl HTTP_PARSE_OUT_OF_MEMORY /\ alloc_failed p p')) p.
Proof.
  unfold http_inspect_message_framing, framing_spec.
  repeat (case_match; try by apply wp_ret; eauto with cinder).
  apply wp_framing_loop. lia.
Qed.

(** ** Header sections as lists of lines *)

Definition crlf_line (l : list byte) : list byte := l ++ CRLF.
Definition unlines (ls : list (list byte)) : list byte := concat (map crlf_line ls).

(** The framing loop over a list of parsed headers. *)
Fixpoint framing_fold (hs : list (list byte * list byte)) (st : framing_state)
  : http_parse_result_t + Z :=
  match hs with
  | [] => framing_end st
  | (name, value) :: hs' =>
      match framing_header (c_string name) (c_string value) st with
      | inl e => inl e
      | inr st => framing_fold hs' st
      end
  end.

Definition is_content_length (h : list byte * list byte) : bool :=
  header_name_equal (c_string h.1) (lit "Content-Length").
Definition is_transfer_encoding (h : list byte * list byte) : bool :=
  header_name_equal (c_string h.1) (lit "Transfer-Encoding").

(** The body length a header list declares: no Transfer-Encoding, and at most
    one Content-Length, whose value is the length. *)
Inductive declares (hs : list (list byte * list byte)) : Z -> Prop :=
| declares_none :
    Forall (fun h => is_transfer_encoding h = false) hs ->
    Forall (fun h => is_content_length h = false) hs ->
    declares hs 0
| declares_one hs1 h hs2 n :
    hs = hs1 ++ h :: hs2 ->
    Forall (fun h => is_transfer_encoding h = false) hs ->
    is_content_length h = true ->
    Forall (fun h => is_content_length h = false) (hs1 ++ hs2) ->
    http_parse_content_length_value (Some (c_string h.2)) = inr n ->
    declares hs n.

Lemma unlines_cons l ls rest :
  unlines (l :: ls) ++ rest = l ++ CR :: LF :: (unlines ls ++ rest).
Proof. unfold unlines, crlf_line. simpl. by rewrite <- !app_assoc. Qed.

Lemma unlines_snoc l ls : unlines (ls ++ [l]) = unlines ls ++ l ++ CRLF.
Proof.
  unfold unlines. rewrite map_app, concat_app. simpl. by rewrite app_nil_r.
Qed.

Lemma split_header_nonempty l nv : split_header l = Some nv -> l <> [].
Proof. by destruct l. Qed.

Lemma header_line_spec_split l h : header_line_spec l = Some h -> split_header l = Some h.
Proof. unfold header_line_spec. repeat case_match; naive_solver. Qed.

Lemma has_prefix_CRLF_line l rest : l <> [] -> LF ∉ l -> has_prefix CRLF (l ++ CR :: LF :: rest) = false.
Proof.
  intros Hne Hn. apply not_true_is_false. intros [r Hr]%has_prefix_true.
  destruct l as [|x [|y l]]; [done|by simplify_eq/=|]. simplify_eq/=. set_solver.
Qed.

(** On well-formed lines, the framing loop is the fold over their headers. *)
Lemma framing_lines_unlines ls hs : forall fuel st,
  Forall2 (fun l h => (LF ∉ l) /\ split_header l = Some h) ls hs ->
  (length ls < fuel)%nat ->
  framing_lines fuel (unlines ls ++ CRLF) st = framing_fold hs st.
Proof.
  intros fuel st H. revert fuel st.
  induction H as [|l [n v] ls hs [Hlf Hsp] _ IH]; intros [|fuel] st Hf; simpl in Hf; try lia.
  { simpl. done. }
  cbn [framing_lines framing_fold]. rewrite unlines_cons.
  rewrite has_prefix_CRLF_line by eauto using split_header_nonempty.
  rewrite bool_decide_eq_false_2 by by destruct l. simpl orb. cbv iota.
  rewrite (proj2 (next_line_Some _ l (unlines ls ++ CRLF))) by done.
  rewrite Hsp. destruct (framing_header _ _ st); [done|]. apply IH. lia.
Qed.

(** The header loop succeeds exactly on sequences of at most 100 good lines. *)
Lemma header_lines_spec_inv fuel : forall cursor acc hs,
  header_lines_spec fuel cursor acc = inr hs ->
  exists ls hs', cursor = unlines ls /\ hs = acc ++ hs' /\
    Forall2 (fun l h => (LF ∉ l) /\ header_line_spec l = Some h) ls hs' /\
    (hs' = [] \/ zlen hs <= HTTP_MAX_HEADERS).
Proof.
  induction fuel as [|fuel IH]; intros cursor acc hs; [done|]. cbn [header_lines_spec].
  case_bool_decide as Hc.
  { intros [= <-]. exists [], []. rewrite app_nil_r. auto. }
  destruct (next_line cursor) as [[line rest]|] eqn:En; [|done].
  destruct (header_line_spec line) as [h|] eqn:Eh; [|done].
  case_bool; [done|]. intros (ls & hs' & -> & -> & HF & Hlen)%IH.
  apply next_line_Some in En as [-> Hlf].
  exists (line :: ls), (h :: hs'). split_and!.
  - by rewrite <- (app_nil_r (unlines (line :: ls))), unlines_cons, app_nil_r.
  - by rewrite <- app_assoc.
  - auto.
  - right. destruct Hlen as [->|?]; [|done]. rewrite app_nil_r, zlen_app.
    unfold HTTP_MAX_HEADERS in *. change (zlen [h]) with 1. lia.
Qed.

Lemma header_lines_spec_unlines ls hs : forall fuel acc,
  Forall2 (fun l h => (LF ∉ l) /\ header_line_spec l = Some h) ls hs ->
  (length ls < fuel)%nat -> zlen acc + zlen hs <= HTTP_MAX_HEADERS ->
  header_lines_spec fuel (unlines ls) acc = inr (acc ++ hs).
Proof.
  intros fuel acc H. revert fuel acc.
  induction H as [|l h ls hs [Hlf Hh] _ IH]; intros [|fuel] acc Hf Hlen; simpl in Hf; try lia.
  { simpl. by rewrite app_nil_r. }
  cbn [header_lines_spec].
  rewrite <- (app_nil_r (unlines (l :: ls))), unlines_cons, app_nil_r.
  rewrite bool_decide_eq_false_2 by by destruct l.
  rewrite (proj2 (next_line_Some _ l (unlines ls))) by done. rewrite Hh.
  assert (zlen (h :: hs) = 1 + zlen hs) by (unfold zlen; simpl; lia).
  pose proof (zlen_nonneg hs).
  destruct (Z.leb_spec HTTP_MAX_HEADERS (zlen acc)); [lia|].
  rewrite IH; [by rewrite <- app_assoc|lia|].
  rewrite zlen_app. change (zlen [h]) with 1. lia.
Qed.

(** ** What the framing fold computes *)

Lemma framing_fold_chunked hs : forall saw len n,
  framing_fold hs (saw, len, true) <> inr n.
Proof.
  induction hs as [|[nm v] hs IH]; intros saw len n; [done|].
  cbn [framing_fold]. unfold framing_header. repeat case_match; simplify_eq; try done; auto.
Qed.

(** A name cannot be both Content-Length and Transfer-Encoding. *)
Lemma te_not_cl name : header_name_equal name (lit "Transfer-Encoding") = true ->
  header_name_equal name (lit "Content-Length") = false.
Proof. intros H. by rewrite (header_name_equal_trans _ _ _ H). Qed.

Lemma framing_fold_saw hs : forall len n,
  framing_fold hs (true, len, false) = inr n <->
  n = len /\ Forall (fun h => is_transfer_encoding h = false) hs /\
  Forall (fun h => is_content_length h = false) hs.
Proof.
  induction hs as [|[nm v] hs IH]; intros len n; [naive_solver|].
  cbn [framing_fold]. unfold framing_header. rewrite !Forall_cons_eqv.
  unfold is_transfer_encoding at 1, is_content_length at 1. cbn [fst snd].
  destruct (header_name_equal (c_string nm) (lit "Transfer-Encoding")) eqn:Ete.
  { split; [|naive_solver]. destruct (_ || _); [|done]. by intros ?%framing_fold_chunked. }
  destruct (header_name_equal (c_string nm) (lit "Content-Length")) eqn:Ecl.
  { split; [|naive_solver]. repeat case_match; naive_solver. }
  rewrite IH. naive_solver.
Qed.

(** The framing pass accepts exactly the header lists that declare a length. *)
Lemma framing_fold_declares hs n : framing_fold hs (false, 0, false) = inr n <-> declares hs n.
Proof.
  induction hs as [|[nm v] hs IH].
  { split; [intros [= <-]; by apply declares_none|].
    intros [|hs1 h hs2 n' Hh]; [done|]. by destruct hs1. }
  cbn [framing_fold]. unfold framing_header.
  destruct (header_name_equal (c_string nm) (lit "Transfer-Encoding")) eqn:Ete.
  { assert (HT : ~ Forall (fun h => is_transfer_encoding h = false) ((nm, v) :: hs)).
    { intros [H _]%Forall_cons_1. unfold is_transfer_encoding in H. simpl in H. congruence. }
    split; [destruct (_ || _); [by intros ?%framing_fold_chunked|done]|by intros []]. }
  destruct (header_name_equal (c_string nm) (lit "Content-Length")) eqn:Ecl.
  - destruct (http_parse_content_length_value (Some (c_string v))) as [e|m] eqn:Ev.
    + split; [done|]. intros [HT HC|hs1 h hs2 n' Hh HT Hcl HC Hv].
      { apply Forall_cons_1 in HC as [HC _]. unfold is_content_length in HC. simpl in HC. congruence. }
      destruct hs1 as [|h1 hs1]; simplify_eq/=; [congruence|].
      apply Forall_cons_1 in HC as [HC _]. unfold is_content_length in HC. simpl in HC. congruence.
    + rewrite framing_fold_saw. split.
      * intros (-> & HT & HC). apply (declares_one _ [] (nm, v) hs); auto.
      * intros [HT HC|hs1 h hs2 n' Hh HT Hcl HC Hv].
        { apply Forall_cons_1 in HC as [HC _]. unfold is_content_length in HC. simpl in HC. congruence. }
        destruct hs1 as [|h1 hs1]; simplify_eq/=.
        { apply Forall_cons_1 in HT as [_ HT]. split_and!; [congruence|done|done]. }
        apply Forall_cons_1 in HC as [HC _]. unfold is_content_length in HC. simpl in HC. congruence.
  - rewrite IH. split.
    + intros [HT HC|hs1 h hs2 n' -> HT Hcl HC Hv].
      * apply declares_none; by constructor.
      * apply (declares_one _ ((nm, v) :: hs1) h hs2); [done|by constructor|done| |done].
        simpl. by constructor.
    + intros [HT HC|hs1 h hs2 n' Hh HT Hcl HC Hv].
      * apply Forall_cons_1 in HT as [_ HT], HC as [_ HC]. by apply declares_none.
      * destruct hs1 as [|h1 hs1]; simplify_eq/=.
        { unfold is_content_length in Hcl. simpl in Hcl. congruence. }
        apply Forall_cons_1 in HT as [_ HT], HC as [_ HC]. by eapply declares_one.
Qed.
