(* ===== verification/ParserRefine.v ===== *)
(** * Refinement of [parse_spec] by [http_parse_request]

    The Content-Length syntax, the re-validation pass, and the composition of
    the request line, the header lines and the body. *)
From S2P Require Import Prelude CLib Proc Request Parser ParserSpec.

(** ** Content-Length values *)

Lemma forallb_digits v : forallb is_digit v = true <-> Forall (fun c => is_digit c = true) v.
Proof. rewrite forallb_forall, List.Forall_forall. done. Qed.

(** The three outcomes, by the value of the digit string. *)
Lemma content_length_value_cases v :
  http_parse_content_length_value (Some v) =
  if bool_decide (v <> [] /\ Forall (fun c => is_digit c = true) v) then
    if ULLONG_MAX <? dec_value 0 v then inl HTTP_PARSE_INVALID_CONTENT_LENGTH
    else if HTTP_MAX_BODY_SIZE <? dec_value 0 v then inl HTTP_PARSE_TOO_LARGE
    else inr (dec_value 0 v)
  else inl HTTP_PARSE_INVALID_CONTENT_LENGTH.
Proof.
  unfold http_parse_content_length_value.
  case_bool_decide as Hv; [subst; done|].
  destruct (forallb is_digit v) eqn:Ed; simpl negb; cbv iota.
  - apply forallb_digits in Ed. rewrite bool_decide_eq_true_2 by done.
    rewrite strtoull_digits by done.
    destruct (ULLONG_MAX <? dec_value 0 v); [by rewrite orb_true_r|].
    rewrite drop_all, bool_decide_eq_true_2 by done.
    destruct v; [done|]. simpl length. cbn [Nat.eqb]. by rewrite !orb_false_r.
  - rewrite bool_decide_eq_false_2; [done|]. intros [_ HF]. apply forallb_digits in HF. congruence.
Qed.

Lemma content_length_value_ok v n :
  http_parse_content_length_value (Some v) = inr n <->
  v <> [] /\ Forall (fun c => is_digit c = true) v /\ n = dec_value 0 v /\ n <= HTTP_MAX_BODY_SIZE.
Proof.
  rewrite content_length_value_cases.
  case_bool_decide as Hd; [|naive_solver].
  destruct (Z.ltb_spec ULLONG_MAX (dec_value 0 v)) as [Hu|Hu].
  { unfold ULLONG_MAX, HTTP_MAX_BODY_SIZE in *. naive_solver lia. }
  destruct (Z.ltb_spec HTTP_MAX_BODY_SIZE (dec_value 0 v)); naive_solver lia.
Qed.

Lemma content_length_value_range v n :
  http_parse_content_length_value (Some v) = inr n -> 0 <= n <= HTTP_MAX_BODY_SIZE.
Proof.
  intros (_ & HF & -> & ?)%content_length_value_ok. split; [|done].
  by apply dec_value_lower.
Qed.

Lemma declares_range hs n : declares hs n -> 0 <= n <= HTTP_MAX_BODY_SIZE.
Proof.
  intros [|]; [unfold HTTP_MAX_BODY_SIZE; lia|]. by eapply content_length_value_range.
Qed.

Lemma framing_lines_range fuel : forall cursor saw len ch n,
  0 <= len <= HTTP_MAX_BODY_SIZE ->
  framing_lines fuel cursor (saw, len, ch) = inr n -> 0 <= n <= HTTP_MAX_BODY_SIZE.
Proof.
  induction fuel as [|fuel IH]; intros cursor saw len ch n Hlen; [done|]. cbn [framing_lines].
  destruct (_ || _).
  { unfold framing_end. destruct ch; [done|]. intros [= <-]. destruct saw; [done|].
    unfold HTTP_MAX_BODY_SIZE. lia. }
  destruct (next_line cursor) as [[line rest]|]; [|done].
  destruct (split_header line) as [[name value]|]; [|done].
  destruct (framing_header _ _ _) as [|[[saw' len'] ch']] eqn:Eh; [done|]. apply IH.
  unfold framing_header in Eh. repeat case_match; simplify_eq; try done.
  by eapply content_length_value_range.
Qed.

Lemma framing_spec_range data hl n :
  framing_spec data hl = inr n -> 0 <= n <= HTTP_MAX_BODY_SIZE.
Proof.
  unfold framing_spec. repeat case_match; try done.
  apply framing_lines_range. unfold HTTP_MAX_BODY_SIZE. lia.
Qed.

(** ** The re-validation pass never rejects *)

Lemma find_header_view name hs :
  Forall (fun h => header_name_equal (c_string h.1) name = false) (map view_header hs) ->
  find_header name hs = None.
Proof. rewrite find_header_None, Forall_map. done. Qed.

Lemma count_content_length_view hs :
  count_content_length hs = zlen (List.filter is_content_length (map view_header hs)).
Proof.
  unfold count_content_length. induction hs as [|h hs IH]; [done|]. simpl.
  unfold is_content_length at 1. simpl.
  change (c_string (cs_bytes (hdr_name h))) with (cs_string (hdr_name h)).
  destruct (header_name_equal _ _); unfold zlen in *; simpl; lia.
Qed.

(** When the framing pass accepted the headers, the checks on the stored
    headers accept them with the same length. *)
Lemma revalidate_declares r n :
  declares (map view_header (req_headers r)) n -> revalidate r n = inr n.
Proof.
  intros Hd. pose proof (declares_range _ _ Hd) as Hr.
  assert (Hte : http_request_get_header r (Some (lit "Transfer-Encoding")) = None).
  { simpl. apply find_header_view. by destruct Hd. }
  unfold revalidate. rewrite Hte.
  assert (Hfin : (if negb (n =? n) then inl HTTP_PARSE_BAD_REQUEST
                  else if (0 <? n) && (n =? SIZE_MAX) then inl HTTP_PARSE_TOO_LARGE
                  else @inr http_parse_result_t Z n) = inr n).
  { rewrite Z.eqb_refl. simpl.
    replace (n =? SIZE_MAX) with false; [by rewrite andb_false_r|].
    symmetry. apply Z.eqb_neq. unfold HTTP_MAX_BODY_SIZE, SIZE_MAX in *. lia. }
  destruct Hd as [HT HC|hs1 h hs2 n Hh HT Hcl HC Hv].
  - simpl. by rewrite (find_header_view _ _ HC).
  - rewrite count_content_length_view, Hh.
    apply map_eq_app in Hh as (rs1 & rs2 & Hrs & <- & Hh2).
    destruct rs2 as [|r0 rs2]; [done|]. simpl in Hh2. injection Hh2 as <- <-.
    apply Forall_app in HC as [HC1 HC2].
    rewrite List.filter_app. simpl List.filter. rewrite Hcl, !filter_none by done.
    simpl http_request_get_header.
    rewrite (proj2 (find_header_Some _ _ (hdr_value r0))).
    + change (1 <? zlen ([] ++ [view_header r0])) with false. cbv iota.
      change (c_string (view_header r0).2) with (cs_string (hdr_value r0)) in Hv.
      by rewrite Hv.
    + exists rs1, r0, rs2. split_and!; try done. by apply Forall_map in HC1.
Qed.

(** ** Refinement: the request line *)

Lemma memchr_none_nul l : bool_decide (is_Some (memchr NUL l)) = false -> c_string l = l.
Proof.
  intros H%bool_decide_eq_false. apply c_string_id, memchr_None. by apply eq_None_not_Some.
Qed.

(** Errors other than memory exhaustion that the parser reports. *)
Definition parse_error (e : http_parse_result_t) : Prop :=
  e <> HTTP_PARSE_OK /\ e <> HTTP_PARSE_OUT_OF_MEMORY.

Lemma check_version_error v : check_version v = HTTP_PARSE_OK \/ parse_error (check_version v).
Proof. unfold check_version, parse_error. repeat case_match; auto. Qed.

(** What a parsing step on [r] leaves: the ledger is exact for the request it
    returns, and the result is out of memory after a failed allocation, or the
    one described by [P]. *)
Definition step_post (p : proc) (r : http_request_t)
    (P : http_parse_result_t -> http_request_t -> Prop)
    (res : http_parse_result_t * http_request_t) (p' : proc) : Prop :=
  heap_only p p' /\ owned_request res.2 /\
  p_live p' ⊎ blk_request r = p_live p ⊎ blk_request res.2 /\
  (res.1 = HTTP_PARSE_OUT_OF_MEMORY /\ alloc_failed p p' \/ P res.1 res.2).

Definition line_post (line : list byte) (e : http_parse_result_t) (r : http_request_t) : Prop :=
  match request_line_spec line with
  | inl e' => e = e' /\ parse_error e'
  | inr (m, t, v) => e = HTTP_PARSE_OK /\ shows r (Req m t v [] [])
  end.

Lemma step_post_ret p r e (P : http_parse_result_t -> http_request_t -> Prop) :
  owned_request r -> P e r -> wp (mret (e, r)) (step_post p r P) p.
Proof. intros. apply wp_ret. split_and!; simpl; auto with cinder. Qed.

Lemma parse_error_BAD : parse_error HTTP_PARSE_BAD_REQUEST.
Proof. done. Qed.
#[local] Hint Resolve parse_error_BAD : cinder.

(** The copies of the target and the version. *)
Lemma wp_store_line m target version p p2 (P : http_parse_result_t -> http_request_t -> Prop) :
  c_string version = version -> heap_only p p2 -> p_live p2 = p_live p ->
  (forall r, shows r (Req m target version [] []) -> P (check_version version) r) ->
  wp (t ← dup_range target; v ← dup_range version;
      let request := {| req_method := m; req_target := t; req_version := v; req_array := None;
                        req_headers := []; req_body := None; req_body_length := 0 |} in
      match t, v with
      | Some _, Some v => mret (check_version (cs_string v), request)
      | _, _ => mret (HTTP_PARSE_OUT_OF_MEMORY, request)
      end) (step_post p http_request_init P) p2.
Proof.
  intros Hver Hho Hl HP.
  unfold step_post.
  apply wp_alloc_then.
  - intros p3 Hho3 Hl3 Hf3. apply wp_bind. eapply wp_mono; [apply wp_alloc_str|].
    intros v p4 (Hho4 & Hl4 & Hov & _). apply wp_ret. split_and!; simpl.
    + heap_trans.
    + by split; simpl; auto.
    + unfold blk_request. simpl. ledger.
    + left. split; [done|]. eapply alloc_failed_l; [done|]. eapply alloc_failed_r; [|done]. heap_trans.
  - intros bt p3 Hho3 Hl3. apply wp_alloc_then.
    + intros p4 Hho4 Hl4 Hf4. apply wp_ret. split_and!; simpl.
      * heap_trans.
      * by split; simpl; eauto.
      * unfold blk_request. simpl. ledger.
      * left. split; [done|]. eapply alloc_failed_r; [|done]. heap_trans.
    + intros bv p4 Hho4 Hl4. apply wp_ret. split_and!; simpl.
      * heap_trans.
      * by split; simpl; eauto.
      * unfold blk_request. simpl. ledger.
      * right. change (cs_string (CStr (Some bv) version)) with (c_string version). rewrite Hver.
        by apply HP.
Qed.

Lemma wp_parse_request_line line p :
  wp (parse_request_line line http_request_init)
     (step_post p http_request_init (line_post line)) p.
Proof.
  pose proof owned_request_init as Hown.
  unfold parse_request_line, line_post, request_line_spec.
  destruct (_ || _).
  { apply step_post_ret; [done|]. by case_match. }
  destruct (memchr SP line) as [[|i]|]; try (by apply step_post_ret).
  set (method := take (S i) line). set (after := drop (S (S i)) line).
  destruct (bool_decide (is_Some (memchr NUL method))) eqn:Enul; [by apply step_post_ret|].
  apply memchr_none_nul in Enul.
  apply wp_alloc_then.
  { intros p1 Hho1 Hl1 Hf. apply wp_ret. split_and!; simpl; auto. by rewrite Hl1. }
  intros b p1 Hho1 Hl1. cbv zeta.
  change (cs_string (CStr (Some b) method)) with (c_string method). rewrite Enul.
  assert (Hbail : forall e (P : http_parse_result_t -> http_request_t -> Prop),
    P e http_request_init ->
    wp (free_str (Some (CStr (Some b) method));; mret (e, http_request_init))
       (step_post p http_request_init P) p1).
  { intros e P HP. apply wp_free_then; [simpl; eauto|ledger|]. intros p2 Hho2 Hl2.
    apply wp_ret. split_and!; simpl; auto; [heap_trans|ledger]. }
  destruct (negb (method_token_is_well_formed method)); [by apply Hbail|]. cbn [orb].
  destruct (match after with [] => true | _ => _ end); [by apply Hbail|].
  destruct (memchr SP after) as [[|j]|]; try (by apply Hbail).
  set (target := take (S j) after). set (version := drop (S (S j)) after).
  destruct (bool_decide (version = []) || _); [by apply Hbail|]. cbn [orb].
  destruct (bool_decide (is_Some (memchr NUL target)) || _) eqn:Enul2; [by apply Hbail|].
  apply orb_false_elim in Enul2 as [_ Hver%memchr_none_nul].
  destruct (negb (is_supported_method_token method)).
  { apply Hbail. unfold is_known_unsupported_method. by destruct (existsb _ _). }
  apply wp_free_then; [simpl; eauto|ledger|]. intros p2 Hho2 Hl2.
  apply wp_store_line; [done|heap_trans|ledger|]. intros r Hsh.
  destruct (check_version_error version) as [->|Hce]; [by split|].
  destruct (check_version version); by destruct Hce.
Qed.

(** ** Refinement: header lines *)

Definition set_headers (a : request) (hs : list (list byte * list byte)) : request :=
  Req (rq_method a) (rq_target a) (rq_version a) hs (rq_body a).

Definition header_post (line : list byte) (a : request)
    (e : http_parse_result_t) (r : http_request_t) : Prop :=
  match header_line_spec line with
  | None => e = HTTP_PARSE_BAD_REQUEST
  | Some h =>
      if HTTP_MAX_HEADERS <=? zlen (rq_headers a) then e = HTTP_PARSE_TOO_MANY_HEADERS
      else e = HTTP_PARSE_OK /\ shows r (set_headers a (rq_headers a ++ [h]))
  end.

Lemma shows_header_count r a : shows r a -> header_count r = zlen (rq_headers a).
Proof. intros [_ _ _ <- _ _]. unfold header_count, zlen. by rewrite length_map. Qed.

Lemma wp_append_header r a name value p bn bv :
  cs_block name = Some bn -> cs_block value = Some bv ->
  owned_request r -> shows r a -> blk_request r ⊎ {[+ bn +]} ⊎ {[+ bv +]} ⊆ p_live p ->
  wp (append_header r name value) (fun res p' =>
    heap_only p p' /\ owned_request res.2 /\
    p_live p' ⊎ blk_request r ⊎ {[+ bn +]} ⊎ {[+ bv +]} = p_live p ⊎ blk_request res.2 /\
    (res.1 = HTTP_PARSE_OUT_OF_MEMORY /\ alloc_failed p p' \/
     if HTTP_MAX_HEADERS <=? zlen (rq_headers a) then res.1 = HTTP_PARSE_TOO_MANY_HEADERS
     else res.1 = HTTP_PARSE_OK /\
          shows res.2 (set_headers a (rq_headers a ++ [(cs_bytes name, cs_bytes value)])))) p.
Proof.
  intros Hbn Hbv Hown Hsh Hin. unfold append_header. rewrite (shows_header_count _ _ Hsh).
  assert (owned_str (Some name)) by (simpl; rewrite Hbn; eauto).
  assert (owned_str (Some value)) by (simpl; rewrite Hbv; eauto).
  destruct (HTTP_MAX_HEADERS <=? _).
  { apply wp_free_two; [done|done|simpl; rewrite Hbn, Hbv; ledger|]. intros p1 Hho1 Hl1.
    simpl in Hl1. rewrite Hbn, Hbv in Hl1.
    apply wp_ret. split_and!; simpl; auto. simpl in *. multiset_solver. }
  apply wp_bind. eapply wp_mono.
  { apply wp_realloc. unfold blk_request in Hin. multiset_solver. }
  intros [arr|] p1 [Hho1 Hl1].
  - apply wp_ret. split_and!; simpl; auto.
    + destruct Hown as [? ? Hh ? ?]. split; simpl; auto; [|done].
      apply Forall_app. split; [done|]. apply Forall_singleton. by split.
    + unfold blk_request in *. simpl. rewrite blk_headers_app. simpl. rewrite Hbn, Hbv.
      simpl in *. multiset_solver.
    + right. split; [done|]. destruct Hsh as [Hm Ht Hv Hhs Hb Hbl]. split; simpl; auto.
      by rewrite map_app, Hhs.
  - destruct Hl1 as [Hl1 Hf1].
    apply wp_free_two; [done|done|simpl; rewrite Hbn, Hbv; simpl; multiset_solver|].
    intros p2 Hho2 Hl2. simpl in Hl2. rewrite Hbn, Hbv in Hl2.
    apply wp_ret. split_and!; simpl; auto; [heap_trans|simpl in *; multiset_solver|].
    left. split; [done|]. by eapply alloc_failed_l.
Qed.

Lemma step_post_fail p r e (P : http_parse_result_t -> http_request_t -> Prop) p' :
  owned_request r -> heap_only p p' -> p_live p' = p_live p ->
  (e = HTTP_PARSE_OUT_OF_MEMORY /\ alloc_failed p p' \/ P e r) ->
  wp (mret (e, r)) (step_post p r P) p'.
Proof. intros ? ? Hl HP. apply wp_ret. split_and!; simpl; auto. by rewrite Hl. Qed.

Lemma wp_parse_header_line line r a p :
  owned_request r -> shows r a -> blk_request r ⊆ p_live p ->
  wp (parse_header_line line r) (step_post p r (header_post line a)) p.
Proof.
  intros Hown Hsh Hin. unfold parse_header_line.
  destruct (Z.eqb_spec (zlen line) 0) as [H0|H0].
  { apply step_post_ret; [done|]. by destruct line. }
  unfold header_post, header_line_spec, split_header.
  destruct (memchr ":" line) as [[|i]|]; try (by apply step_post_ret).
  set (name := take (S i) line). set (value := trim_ows_end _).
  destruct (existsb is_bad_name_char name); [by apply step_post_ret|]. cbn [orb].
  apply wp_alloc_then; [intros; apply step_post_fail; auto|].
  intros bn p1 Hho1 Hl1. cbv zeta. fold value.
  destruct (bool_decide (is_Some (memchr NUL value))).
  { apply wp_free_then; [simpl; eauto|ledger|]. intros p2 Hho2 Hl2.
    apply step_post_fail; [done|heap_trans|ledger|by right]. }
  apply wp_alloc_then.
  { intros p2 Hho2 Hl2 Hf. apply wp_free_then; [simpl; eauto|ledger|]. intros p3 Hho3 Hl3.
    apply step_post_fail; [done|heap_trans|ledger|left]. split; [done|].
    eapply alloc_failed_l; [done|]. by eapply alloc_failed_r. }
  intros bv p2 Hho2 Hl2.
  eapply wp_mono; [by apply (wp_append_header r a _ _ p2 bn bv); [..|multiset_solver]|].
  intros [e r'] p3 (Hho3 & Ho3 & Hl3 & HP). split_and!; [heap_trans|done|simpl in *; multiset_solver|].
  destruct HP as [[He Hf]|HP]; [left|by right]. split; [done|].
  eapply alloc_failed_r; [|done]. heap_trans.
Qed.

Definition headers_post (fuel : nat) (cursor : list byte) (a : request)
    (e : http_parse_result_t) (r : http_request_t) : Prop :=
  match header_lines_spec fuel cursor (rq_headers a) with
  | inl e' => e = e' /\ parse_error e'
  | inr hs => e = HTTP_PARSE_OK /\ shows r (set_headers a hs)
  end.

Lemma wp_parse_header_lines fuel : forall cursor r a p,
  owned_request r -> shows r a -> blk_request r ⊆ p_live p -> (length cursor < fuel)%nat ->
  wp (parse_header_lines fuel cursor r) (step_post p r (headers_post fuel cursor a)) p.
Proof.
  induction fuel as [|fuel IH]; intros cursor r a p Hown Hsh Hin Hf; [lia|].
  unfold headers_post. cbn [parse_header_lines header_lines_spec].
  destruct (bool_decide (cursor = [])).
  { apply step_post_ret; [done|]. split; [done|]. by destruct a. }
  destruct (next_line cursor) as [[line rest]|] eqn:En; [|by apply step_post_ret].
  apply next_line_length in En.
  apply wp_bind. eapply wp_mono; [by apply wp_parse_header_line|].
  intros [hr r1] p1 (Hho1 & Ho1 & Hl1 & HP). simpl in *.
  destruct HP as [[-> Hfail]|HP].
  { apply wp_ret. split_and!; simpl; auto. }
  unfold header_post in HP. destruct (header_line_spec line) as [h|].
  2: { subst. apply wp_ret. split_and!; simpl; auto. by right. }
  destruct (HTTP_MAX_HEADERS <=? _).
  { subst. apply wp_ret. split_and!; simpl; auto. by right. }
  destruct HP as [-> Hsh1].
  eapply wp_mono; [apply (IH rest r1 (set_headers a (rq_headers a ++ [h]))); auto; [|lia]|].
  { multiset_solver. }
  intros [e r2] p2 (Hho2 & Ho2 & Hl2 & HP). split_and!; simpl in *; auto.
  - heap_trans.
  - multiset_solver.
  - destruct HP as [[He Hf2]|HP]; [left|right; exact HP]. split; [done|].
    by eapply alloc_failed_r.
Qed.
