(* ===== verification/Framing.v ===== *)
(** * Facts about message framing

    The header terminator and the framing decision depend only on the header
    section, so both are stable when more bytes arrive; a message that has been
    framed is cut off exactly after its declared body. *)
From S2P Require Import Prelude CLib Proc Request Parser ParserSpec ParserRefine.

(** ** The header terminator *)

Lemma find_terminator_Some data i :
  http_find_header_terminator data = Some i ->
  exists a b, data = a ++ CRLFCRLF ++ b /\ length a = i.
Proof.
  revert i. induction data as [|x data IH]; intros i; cbn [http_find_header_terminator].
  { done. }
  destruct (has_prefix CRLFCRLF (x :: data)) eqn:E.
  - intros [= <-]. apply has_prefix_true in E as [r Hr]. by exists [], r.
  - intros (j & Hj & ->)%fmap_Some. apply IH in Hj as (a & b & -> & <-).
    by exists (x :: a), b.
Qed.

Lemma has_prefix_app p s k : has_prefix p s = true -> has_prefix p (s ++ k) = true.
Proof. rewrite !has_prefix_true. intros [r ->]. exists (r ++ k). by rewrite app_assoc. Qed.

(** More bytes do not move a terminator that was found. *)
Lemma find_terminator_app data k i :
  http_find_header_terminator data = Some i -> http_find_header_terminator (data ++ k) = Some i.
Proof.
  revert i. induction data as [|x data IH]; intros i; cbn [http_find_header_terminator]; [done|].
  destruct (has_prefix CRLFCRLF (x :: data)) eqn:E.
  - intros [= <-]. cbn [app http_find_header_terminator].
    apply (has_prefix_app _ _ k) in E. cbn [app] in E. by rewrite E.
  - intros (j & Hj & ->)%fmap_Some. cbn [app http_find_header_terminator].
    rewrite (IH _ Hj).
    destruct (has_prefix CRLFCRLF (x :: data ++ k)) eqn:E'; [|done]. exfalso.
    apply find_terminator_Some in Hj as (a & b & -> & <-).
    apply not_true_iff_false in E. apply E. apply has_prefix_true. apply has_prefix_true in E' as [r Hr].
    destruct a as [|a1 [|a2 [|a3 a]]]; simplify_eq/=; eauto.
Qed.

(** A prefix without the terminator ends before the end of the terminator. *)
Lemma find_terminator_None data k i :
  http_find_header_terminator data = None ->
  http_find_header_terminator (data ++ k) = Some i -> (length data < i + 4)%nat.
Proof.
  revert i. induction data as [|x data IH]; intros i; cbn [app http_find_header_terminator].
  { simpl. lia. }
  destruct (has_prefix CRLFCRLF (x :: data)) eqn:E; [done|].
  rewrite fmap_None. intros Hn.
  destruct (has_prefix CRLFCRLF (x :: data ++ k)) eqn:E'.
  - intros [= <-]. apply has_prefix_true in E' as [r Hr]. simpl.
    destruct (decide (length data < 3)%nat); [lia|]. exfalso.
    apply not_true_iff_false in E. apply E. apply has_prefix_true.
    destruct data as [|d1 [|d2 [|d3 data]]]; simpl in *; try lia; by simplify_eq/=.
  - intros (j & Hj & ->)%fmap_Some. specialize (IH _ Hn Hj). simpl. lia.
Qed.

Lemma find_terminator_app_unique a b :
  http_find_header_terminator (a ++ [CR; LF; CR]) = None ->
  http_find_header_terminator (a ++ CRLFCRLF ++ b) = Some (length a).
Proof.
  induction a as [|x a IH]; [done|]. cbn [app http_find_header_terminator].
  destruct (has_prefix CRLFCRLF (x :: a ++ [CR; LF; CR])) eqn:E; [done|].
  rewrite fmap_None. intros Hn. rewrite (IH Hn).
  destruct (has_prefix CRLFCRLF (x :: a ++ CRLFCRLF ++ b)) eqn:E'; [|done]. exfalso.
  apply not_true_iff_false in E. apply E. apply has_prefix_true. apply has_prefix_true in E' as [r Hr].
  destruct a as [|a1 [|a2 [|a3 a]]]; simplify_eq/=; eauto.
Qed.

(** ** Framing is stable *)

Lemma take_drop_app_stable {A} (data k : list A) n : (n <= length data)%nat ->
  take n (data ++ k) = take n data.
Proof. intros. by rewrite take_app_le. Qed.

Lemma framing_spec_app data k hl :
  (hl <= length data)%nat -> framing_spec (data ++ k) hl = framing_spec data hl.
Proof.
  intros Hl. unfold framing_spec. rewrite take_drop_app_stable by done.
  destruct (Nat.ltb_spec hl 4); [done|].
  rewrite drop_app_le by lia. rewrite take_app_le; [done|]. rewrite length_drop. lia.
Qed.

(** [frame data hl n]: [data] starts with a header section of [hl] bytes that
    is within the limit and declares a body of [n] bytes. *)
Definition frame (data : list byte) (hl : nat) (n : Z) : Prop :=
  (exists i, http_find_header_terminator data = Some i /\ hl = (i + 4)%nat) /\
  Z.of_nat hl <= HTTP_MAX_HEADER_BYTES /\
  framing_spec data hl = inr n.

Lemma frame_header_length data hl n : frame data hl n -> (4 <= hl <= length data)%nat.
Proof.
  intros ((i & Hi & ->) & _). apply find_terminator_Some in Hi as (a & b & -> & <-).
  rewrite !length_app. simpl. lia.
Qed.

Lemma frame_app data k hl n : frame data hl n -> frame (data ++ k) hl n.
Proof.
  intros Hf. pose proof (frame_header_length _ _ _ Hf). destruct Hf as ((i & Hi & ->) & Hm & Hs).
  split_and!; [exists i; split; [by apply find_terminator_app|done]|done|].
  rewrite framing_spec_app; [done|lia].
Qed.

Lemma frame_take data hl n m : frame data hl n -> (hl <= m)%nat -> frame (take m data) hl n.
Proof.
  intros Hf Hm. pose proof (frame_header_length _ _ _ Hf) as Hl.
  destruct Hf as ((i & Hi & ->) & Hmax & Hs).
  rewrite <- (take_drop m data) in Hi, Hs.
  split_and!; [|done|].
  - exists i. split; [|done].
    destruct (http_find_header_terminator (take m data)) as [j|] eqn:E.
    + by rewrite (find_terminator_app _ _ _ E) in Hi.
    + pose proof (find_terminator_None _ _ _ E Hi) as Hlt. rewrite length_take in Hlt. lia.
  - rewrite framing_spec_app in Hs; [done|]. rewrite length_take. lia.
Qed.

Lemma frame_functional data hl n hl' n' : frame data hl n -> frame data hl' n' -> hl = hl' /\ n = n'.
Proof. intros ((i & Hi & ->) & _ & Hs) ((j & Hj & ->) & _ & Hs'). simplify_eq. by rewrite Hs in Hs'; simplify_eq. Qed.

Lemma frame_range data hl n : frame data hl n -> 0 <= n <= HTTP_MAX_BODY_SIZE.
Proof. intros (_ & _ & Hs). by eapply framing_spec_range. Qed.

(** ** Agreement of the two passes over the headers *)

Lemma find_terminator_split data i :
  http_find_header_terminator data = Some i ->
  take (i + 4) data = take (i + 2) data ++ CRLF /\ take 4 (drop i data) = CRLFCRLF.
Proof.
  intros (a & b & -> & <-)%find_terminator_Some.
  rewrite (drop_app_length a) by done. split; [|done].
  rewrite !take_app_add. rewrite <- app_assoc. done.
Qed.

(** If the framing pass declared [n] and the header lines parse to [hs], then
    [hs] declares [n]. *)
Lemma passes_agree data i n line cursor hs :
  http_find_header_terminator data = Some i -> framing_spec data (i + 4) = inr n ->
  next_line (take (i + 2) data) = Some (line, cursor) ->
  header_lines_spec (S (length cursor)) cursor [] = inr hs -> declares hs n.
Proof.
  intros Hi Hs Hn Hh. destruct (find_terminator_split _ _ Hi) as [Ht _].
  unfold framing_spec in Hs. rewrite Ht in Hs.
  assert (Hn' : next_line (take (i + 2) data ++ CRLF) = Some (line, cursor ++ CRLF)).
  { apply next_line_Some in Hn as [-> Hlf]. apply next_line_Some. by rewrite <- app_assoc. }
  rewrite Hn' in Hs. apply header_lines_spec_inv in Hh as (ls & hs' & -> & -> & HF & _).
  repeat (case_match; [done|]).
  rewrite (framing_lines_unlines ls hs') in Hs.
  - by apply framing_fold_declares.
  - eapply Forall2_impl; [exact HF|]. intros l h [? ?]. split; [done|]. by apply header_line_spec_split.
  - rewrite length_app. apply Forall2_length in HF. clear -HF.
    assert (length ls <= length (unlines ls))%nat; [|lia].
    clear HF. induction ls as [|l ls IH]; [done|].
    unfold unlines, crlf_line in *. simpl. rewrite !length_app. simpl. lia.
Qed.

(** The errors of the framing pass. *)
Lemma framing_lines_error fuel : forall cursor st e,
  framing_lines fuel cursor st = inl e -> parse_error e.
Proof.
  induction fuel as [|fuel IH]; intros cursor st e; cbn [framing_lines]; [by intros [= <-]|].
  destruct (_ || _).
  { destruct st as [[saw len] ch]. unfold framing_end. destruct ch; by intros [= <-]. }
  destruct (next_line cursor) as [[line rest]|]; [|by intros [= <-]].
  destruct (split_header line) as [[name value]|]; [|by intros [= <-]].
  destruct (framing_header _ _ _) as [e'|st'] eqn:Eh; [|by apply IH].
  intros [= <-]. unfold framing_header in Eh. destruct st as [[saw len] ch].
  rewrite content_length_value_cases in Eh.
  repeat case_match; by simplify_eq.
Qed.

Lemma framing_spec_error data hl e : framing_spec data hl = inl e -> parse_error e.
Proof.
  unfold framing_spec. repeat case_match; try (by intros [= <-]). apply framing_lines_error.
Qed.
