(* ===== verification/ParserCorrect.v ===== *)
(** * Correctness of http_parse_request

    The refinement of [parse_spec], the absence of leaks, the grammar of
    accepted messages and the round trip with a printer. *)
From S2P Require Import Prelude CLib Proc Request Parser ParserSpec ParserRefine Framing.

(** ** The grammar *)

(** A header line: name, colon, optional white space around the value. *)
Definition header_line (l name value : list byte) : Prop :=
  exists o1 o2, l = name ++ (":"%byte) :: o1 ++ value ++ o2 /\
    name <> [] /\ (":"%byte ∉ name) /\ Forall (fun c => is_bad_name_char c = false) name /\
    Forall (fun c => is_ows c = true) o1 /\ Forall (fun c => is_ows c = true) o2 /\
    (forall c, hd_error value = Some c -> is_ows c = false) /\
    (forall c, last value = Some c -> is_ows c = false) /\
    (NUL ∉ value).

Definition request_line (a : request) : list byte :=
  http_method_to_string (rq_method a) ++ SP :: rq_target a ++ SP :: rq_version a.

(** The message [data] is one complete request with the contents [a]. *)
Definition message (data : list byte) (a : request) : Prop :=
  exists ls, data = crlf_line (request_line a) ++ unlines ls ++ CRLF ++ rq_body a /\
    rq_method a <> HTTP_METHOD_UNKNOWN /\
    rq_target a <> [] /\ (SP ∉ rq_target a) /\ (NUL ∉ rq_target a) /\ (LF ∉ rq_target a) /\
    (rq_version a = lit "HTTP/1.0" \/ rq_version a = lit "HTTP/1.1") /\
    zlen (request_line a) <= HTTP_MAX_REQUEST_LINE /\
    Forall2 (fun l h => (LF ∉ l) /\ header_line l h.1 h.2) ls (rq_headers a) /\
    zlen (rq_headers a) <= HTTP_MAX_HEADERS /\
    declares (rq_headers a) (zlen (rq_body a)) /\
    zlen (crlf_line (request_line a) ++ unlines ls ++ CRLF) <= HTTP_MAX_HEADER_BYTES.

(** A request written out with one space after each colon. *)
Definition print_header (h : list byte * list byte) : list byte := h.1 ++ (":"%byte) :: SP :: h.2.

Definition print_request (a : request) : list byte :=
  crlf_line (request_line a) ++ unlines (map print_header (rq_headers a)) ++ CRLF ++ rq_body a.

(** A field that [print_header] can write: a name without separators, a value
    without control bytes of the grammar and without surrounding white space. *)
Definition printable_header (h : list byte * list byte) : Prop :=
  h.1 <> [] /\ Forall (fun c => is_bad_name_char c = false) h.1 /\
  (":"%byte ∉ h.1) /\ (LF ∉ h.1) /\ (LF ∉ h.2) /\ (NUL ∉ h.2) /\
  (forall c, hd_error h.2 = Some c -> is_ows c = false) /\
  (forall c, last h.2 = Some c -> is_ows c = false).

(** A request within the limits of http_limits.h whose headers declare its body. *)
Record printable (a : request) : Prop := {
  pr_method : rq_method a <> HTTP_METHOD_UNKNOWN;
  pr_target : rq_target a <> [] /\ (SP ∉ rq_target a) /\ (NUL ∉ rq_target a) /\ (LF ∉ rq_target a);
  pr_version : rq_version a = lit "HTTP/1.0" \/ rq_version a = lit "HTTP/1.1";
  pr_line : zlen (request_line a) <= HTTP_MAX_REQUEST_LINE;
  pr_headers : Forall printable_header (rq_headers a);
  pr_count : zlen (rq_headers a) <= HTTP_MAX_HEADERS;
  pr_declares : declares (rq_headers a) (zlen (rq_body a));
  pr_size : zlen (print_request a) - zlen (rq_body a) <= HTTP_MAX_HEADER_BYTES;
}.

(** ** White space *)

Lemma skip_ows_spec l : exists o, l = o ++ skip_ows l /\ Forall (fun c => is_ows c = true) o /\
  (forall c, hd_error (skip_ows l) = Some c -> is_ows c = false).
Proof.
  induction l as [|x l (o & Hl & HF & Hh)]; simpl; [by exists []|].
  destruct (is_ows x) eqn:E.
  - exists (x :: o). simpl. rewrite <- Hl. auto.
  - exists []. split_and!; [done|constructor|]. simpl. intros c [= <-]. done.
Qed.

Lemma skip_ows_app o v : Forall (fun c => is_ows c = true) o ->
  (forall c, hd_error v = Some c -> is_ows c = false) -> skip_ows (o ++ v) = v.
Proof.
  induction 1 as [|x o Hx _ IH]; simpl; intros Hv.
  - destruct v as [|c v]; [done|]. simpl. by rewrite (Hv c).
  - rewrite Hx. by apply IH.
Qed.

Lemma trim_ows_end_spec l : exists o, l = trim_ows_end l ++ o /\ Forall (fun c => is_ows c = true) o /\
  (forall c, last (trim_ows_end l) = Some c -> is_ows c = false).
Proof.
  induction l as [|x l (o & Hl & HF & Hh)]; simpl; [by exists []|].
  destruct (trim_ows_end l) as [|y t] eqn:E.
  - simpl in Hl. subst o. destruct (is_ows x) eqn:Ex; [exists (x :: l); auto|].
    exists l. split_and!; [done|done|]. simpl. intros c [= <-]. done.
  - exists o. split_and!; [by rewrite Hl at 1|done|]. intros c. rewrite last_cons_cons. apply Hh.
Qed.

Lemma trim_ows_end_app v o : Forall (fun c => is_ows c = true) o ->
  (forall c, last v = Some c -> is_ows c = false) -> trim_ows_end (v ++ o) = v.
Proof.
  intros HF. induction v as [|x v IH]; intros Hv.
  - simpl. induction HF as [|y o Hy _ IHo]; simpl; [done|]. by rewrite IHo, Hy.
  - simpl. destruct v as [|y v].
    + simpl in *. rewrite IH by done. by rewrite (Hv x).
    + rewrite IH; [done|]. intros c Hc. apply Hv. by rewrite last_cons_cons.
Qed.

Lemma hd_trim_ows_end v c : hd_error (trim_ows_end v) = Some c -> hd_error v = Some c.
Proof.
  destruct (trim_ows_end_spec v) as (o & Hv & _). rewrite Hv at 2.
  by destruct (trim_ows_end v).
Qed.

Lemma existsb_false {A} (f : A -> bool) l : existsb f l = false <-> Forall (fun x => f x = false) l.
Proof.
  induction l as [|x l IH]; simpl; [naive_solver|].
  rewrite orb_false_iff, IH, Forall_cons_eqv. done.
Qed.

(** ** The grammar of a header line *)

Lemma header_line_spec_grammar l n v : header_line_spec l = Some (n, v) <-> header_line l n v.
Proof.
  unfold header_line_spec, split_header. split.
  - destruct (memchr ":" l) as [[|i]|] eqn:E; try done.
    apply memchr_Some in E as (l1 & l2 & -> & Hi & Hc).
    rewrite (take_app_length l1) by done.
    replace (drop (S (S i)) (l1 ++ (":"%byte) :: l2)) with l2.
    2: { by rewrite Hi, drop_S_app by done. }
    destruct (existsb is_bad_name_char l1) eqn:Eb; [done|].
    destruct (bool_decide (is_Some (memchr NUL _))) eqn:En; [done|]. intros [= <- <-].
    destruct (skip_ows_spec l2) as (o1 & Hl2 & Ho1 & Hh1).
    destruct (trim_ows_end_spec (skip_ows l2)) as (o2 & Hv & Ho2 & Ht).
    exists o1, o2. split_and!; try done.
    + by rewrite <- Hv, <- Hl2.
    + by destruct l1.
    + by apply existsb_false.
    + intros c Hc'. apply Hh1. by apply hd_trim_ows_end.
    + apply bool_decide_eq_false in En. apply memchr_None. by apply eq_None_not_Some.
  - intros (o1 & o2 & -> & Hne & Hc & Hb & Ho1 & Ho2 & Hh & Hl & Hn).
    rewrite memchr_app by done. destruct n as [|x n]; [done|]. simpl length.
    replace (take (S (length n)) ((x :: n) ++ (":"%byte) :: o1 ++ v ++ o2)) with (x :: n)
      by by rewrite take_app_length.
    replace (drop (S (S (length n))) ((x :: n) ++ (":"%byte) :: o1 ++ v ++ o2)) with (o1 ++ v ++ o2).
    2: { by rewrite drop_S_app by done. }
    assert (Ev : trim_ows_end (skip_ows (o1 ++ v ++ o2)) = v).
    { destruct v as [|y v].
      - simpl. assert (skip_ows (o1 ++ o2) = []) as ->; [|done].
        assert (Ho : Forall (fun c => is_ows c = true) (o1 ++ o2)) by by apply Forall_app.
        clear -Ho. induction Ho as [|z o Hz _ IH]; simpl; [done|]. by rewrite Hz.
      - rewrite skip_ows_app; [by apply trim_ows_end_app|done|]. intros c [= <-]. by apply Hh. }
    rewrite Ev. rewrite (proj2 (existsb_false _ _) Hb). cbn [orb].
    rewrite (proj2 (memchr_None NUL v) Hn). by rewrite bool_decide_eq_false_2 by by intros [? ?].
Qed.

(** ** The grammar of the request line *)

Lemma supported_method m : is_supported_method_token m = true <->
  exists k, k <> HTTP_METHOD_UNKNOWN /\ m = http_method_to_string k.
Proof.
  unfold is_supported_method_token. rewrite !orb_true_iff, !strcmp_eq_true. split.
  - intros [[->| ->]| ->]; [exists HTTP_METHOD_GET|exists HTTP_METHOD_HEAD|exists HTTP_METHOD_POST]; done.
  - intros ([| | |] & Hk & ->); [by left; left|by left; right|by right|done].
Qed.

Lemma method_round_trip k : k <> HTTP_METHOD_UNKNOWN ->
  http_method_from_string (Some (http_method_to_string k)) = k.
Proof. by destruct k. Qed.

(** Method names are well-formed tokens without separators. *)
Lemma method_string_facts k : k <> HTTP_METHOD_UNKNOWN ->
  http_method_to_string k <> [] /\ (SP ∉ http_method_to_string k) /\
  (NUL ∉ http_method_to_string k) /\ (LF ∉ http_method_to_string k) /\
  method_token_is_well_formed (http_method_to_string k) = true.
Proof. intros Hk. destruct k; try done; split_and!; try done; by apply (bool_decide_unpack _). Qed.

Lemma check_version_OK v : check_version v = HTTP_PARSE_OK <->
  v = lit "HTTP/1.0" \/ v = lit "HTTP/1.1".
Proof.
  unfold check_version. destruct (_ || _) eqn:E.
  - rewrite orb_true_iff, !strcmp_eq_true in E. naive_solver.
  - apply orb_false_elim in E as [E1 E2].
    rewrite <- not_true_iff_false, strcmp_eq_true in E1, E2.
    split; [repeat case_match; done|naive_solver].
Qed.

Lemma version_facts v : v = lit "HTTP/1.0" \/ v = lit "HTTP/1.1" ->
  v <> [] /\ (SP ∉ v) /\ (NUL ∉ v) /\ (LF ∉ v).
Proof. intros [->| ->]; split_and!; try done; by apply (bool_decide_unpack _). Qed.

(** Cutting a line at a separator found by [memchr]. *)
Lemma memchr_cut c l i : memchr c l = Some i ->
  l = take i l ++ c :: drop (S i) l /\ (c ∉ take i l).
Proof.
  intros (l1 & l2 & -> & -> & Hn)%memchr_Some.
  by rewrite take_app_length, drop_S_app by done.
Qed.

Lemma not_some_memchr c l : bool_decide (is_Some (memchr c l)) = false <-> c ∉ l.
Proof. rewrite bool_decide_eq_false, <- eq_None_not_Some. apply memchr_None. Qed.

Lemma request_line_spec_inv line m t v :
  request_line_spec line = inr (m, t, v) ->
  line = http_method_to_string m ++ SP :: t ++ SP :: v /\ m <> HTTP_METHOD_UNKNOWN /\
  t <> [] /\ (SP ∉ t) /\ (NUL ∉ t) /\ (v = lit "HTTP/1.0" \/ v = lit "HTTP/1.1") /\
  zlen line <= HTTP_MAX_REQUEST_LINE.
Proof.
  unfold request_line_spec. destruct (_ || _) eqn:Elen; [done|]. bool_simp.
  destruct (memchr SP line) as [[|i]|] eqn:Esp; try done.
  apply memchr_cut in Esp as [Hline Hsp]. set (method := take (S i) line) in *.
  set (after := drop (S (S i)) line) in *. case_bool; [done|].
  destruct (memchr SP after) as [[|j]|] eqn:Esp2; try done.
  apply memchr_cut in Esp2 as [Hafter Hsp2]. set (target := take (S j) after) in *.
  set (version := drop (S (S j)) after) in *. case_bool; [done|].
  rewrite !not_some_memchr in *.
  destruct (is_supported_method_token method) eqn:Em; [|done]. cbn [negb].
  destruct (check_version version) eqn:Ev; try done.
  apply supported_method in Em as (k & Hk & Hm). rewrite Hm, method_round_trip by done.
  intros Heq. assert (m = k /\ t = target /\ v = version) as (-> & -> & ->) by naive_solver.
  split_and!; try done.
  - by rewrite <- Hm, <- Hafter.
  - intros Ht. unfold target in Ht. by destruct after.
  - by apply check_version_OK.
Qed.

Lemma request_line_spec_ok m t v line :
  line = http_method_to_string m ++ SP :: t ++ SP :: v ->
  m <> HTTP_METHOD_UNKNOWN -> t <> [] -> SP ∉ t -> NUL ∉ t ->
  v = lit "HTTP/1.0" \/ v = lit "HTTP/1.1" -> zlen line <= HTTP_MAX_REQUEST_LINE ->
  request_line_spec line = inr (m, t, v).
Proof.
  intros Hline Hm Ht Hsp Hnul Hv Hlen.
  destruct (method_string_facts m Hm) as (Hne & Hmsp & Hmnul & _ & Hwf).
  destruct (version_facts v Hv) as (Hvne & Hvsp & Hvnul & _).
  unfold request_line_spec.
  assert (zlen line <> 0) by (subst line; by destruct (http_method_to_string m)).
  destruct (Z.eqb_spec (zlen line) 0); [done|]. destruct (Z.ltb_spec HTTP_MAX_REQUEST_LINE (zlen line)); [lia|].
  cbn [orb]. rewrite Hline, memchr_app by done.
  remember (http_method_to_string m) as ms. destruct ms as [|x ms]; [done|].
  change (length (x :: ms)) with (S (length ms)). cbv iota.
  rewrite take_app_length, (drop_S_app (x :: ms)) by done.
  rewrite (proj2 (not_some_memchr NUL (x :: ms)) Hmnul), Hwf. cbn [negb orb].
  destruct t as [|y t]; [done|].
  assert ((y =?b SP) = false) as Hy by (apply eqb_neq_byte; set_solver).
  replace (match (y :: t) ++ SP :: v with [] => true | c :: _ => c =?b SP end) with false
    by (simpl; by rewrite Hy). cbv iota.
  rewrite memchr_app by done. change (length (y :: t)) with (S (length t)). cbv iota.
  rewrite take_app_length, (drop_S_app (y :: t)) by done.
  rewrite (bool_decide_eq_false_2 (v = [])) by done.
  rewrite !(proj2 (not_some_memchr _ _)) by done. cbn [orb].
  rewrite (proj2 (supported_method (x :: ms))) by eauto. cbn [negb].
  rewrite (proj2 (check_version_OK v) Hv), Heqms, method_round_trip by done. done.
Qed.

(** ** The terminator of a sequence of lines *)

Lemma find_terminator_line l rest : LF ∉ l -> has_prefix CRLF rest = false ->
  http_find_header_terminator (l ++ CR :: LF :: rest) =
  (fun i => (length l + 2 + i)%nat) <$> http_find_header_terminator rest.
Proof.
  intros Hl Hr. induction l as [|x l IH].
  - cbn [app http_find_header_terminator length].
    replace (has_prefix CRLFCRLF (CR :: LF :: rest)) with false by by rewrite <- Hr.
    cbn [has_prefix CRLFCRLF]. change (CR =?b LF) with false. cbn [andb].
    by destruct (http_find_header_terminator rest).
  - cbn [app http_find_header_terminator length]. rewrite IH by set_solver.
    assert (has_prefix CRLFCRLF (x :: l ++ CR :: LF :: rest) = false) as ->.
    { apply not_true_is_false. intros [r Hr']%has_prefix_true.
      destruct l as [|y l]; simplify_eq/=. set_solver. }
    by destruct (http_find_header_terminator rest).
Qed.

Lemma find_terminator_end l rest : LF ∉ l ->
  http_find_header_terminator (l ++ CR :: LF :: CR :: LF :: rest) = Some (length l).
Proof.
  intros Hl. induction l as [|x l IH]; [done|].
  cbn [app http_find_header_terminator length]. rewrite IH by set_solver.
  assert (has_prefix CRLFCRLF (x :: l ++ CR :: LF :: CR :: LF :: rest) = false) as ->; [|done].
  apply not_true_is_false. intros [r Hr']%has_prefix_true.
  destruct l as [|y l]; simplify_eq/=. set_solver.
Qed.

(** In a header section of non-empty lines the terminator is the end. *)
Lemma find_terminator_unlines l ls body : LF ∉ l ->
  Forall (fun l => l <> [] /\ LF ∉ l) ls ->
  http_find_header_terminator (crlf_line l ++ unlines ls ++ CRLF ++ body) =
  Some (length (crlf_line l ++ unlines ls) - 2)%nat.
Proof.
  intros Hl HF. revert l Hl. induction HF as [|l' ls [Hne Hl'] _ IH]; intros l Hl.
  - unfold crlf_line at 1. simpl. rewrite <- app_assoc. simpl. rewrite find_terminator_end by done.
    f_equal. unfold crlf_line, unlines. rewrite !length_app. simpl. lia.
  - unfold crlf_line at 1. rewrite <- app_assoc.
    etrans; [apply (find_terminator_line l (unlines (l' :: ls) ++ CRLF ++ body))|].
    + done.
    + rewrite unlines_cons. by apply has_prefix_CRLF_line.
    + change (unlines (l' :: ls)) with (crlf_line l' ++ unlines ls). rewrite <- app_assoc.
      rewrite (IH l' Hl'). simpl. f_equal. unfold crlf_line. rewrite !length_app. simpl. lia.
Qed.

(** ** The grammar of a message *)

Lemma header_lines_grammar ls hs :
  Forall2 (fun l h => (LF ∉ l) /\ header_line_spec l = Some h) ls hs <->
  Forall2 (fun l h => (LF ∉ l) /\ header_line l h.1 h.2) ls hs.
Proof.
  split; intros H; (eapply Forall2_impl; [exact H|]); intros l [n v] [? ?];
    (split; [done|]); by apply header_line_spec_grammar.
Qed.

Lemma unlines_length ls : (length ls <= length (unlines ls))%nat.
Proof.
  induction ls as [|l ls IH]; [done|]. unfold unlines, crlf_line in *. simpl.
  rewrite !length_app. simpl. lia.
Qed.

Lemma parse_spec_message data a : parse_spec data = inr a -> message data a.
Proof.
  unfold parse_spec. destruct (http_find_header_terminator data) as [i|] eqn:Ei; [|done].
  case_bool; [done|]. destruct (framing_spec data (i + 4)) as [|n] eqn:Ef; [done|].
  case_bool; [done|]. destruct (next_line (take (i + 2) data)) as [[line cursor]|] eqn:En; [|done].
  destruct (request_line_spec line) as [|[[m t] v]] eqn:Erl; [done|].
  destruct (header_lines_spec _ cursor []) as [|hs] eqn:Eh; [done|]. intros [= <-].
  pose proof (passes_agree _ _ _ _ _ _ Ei Ef En Eh) as Hd.
  apply request_line_spec_inv in Erl as (-> & Hm & Ht & Hsp & Hnul & Hv & Hlen).
  apply header_lines_spec_inv in Eh as (ls & hs' & -> & -> & HF & Hmax).
  apply next_line_Some in En as [Hn Hlf].
  destruct (find_terminator_split _ _ Ei) as [Htake _].
  pose proof (take_drop (i + 4) data) as Hdata. rewrite Htake, Hn in Hdata.
  assert (Hl4 : length (take (i + 4) data) = (i + 4)%nat).
  { rewrite length_take. apply find_terminator_Some in Ei as (A & B & -> & <-).
    rewrite !length_app. simpl. lia. }
  assert (Hbody : zlen (drop (i + 4) data) = n).
  { rewrite <- (take_drop (i + 4) data) in E0 at 1. rewrite zlen_app in E0.
    unfold zlen in *. rewrite Hl4 in E0. lia. }
  exists ls. cbn [rq_method rq_target rq_version rq_headers rq_body].
  unfold request_line. cbn [rq_method rq_target rq_version].
  split_and!; try done.
  - rewrite <- Hdata at 1. unfold crlf_line. rewrite <- !app_assoc. simpl. by rewrite <- !app_assoc.
  - set_solver.
  - by apply header_lines_grammar.
  - simpl. destruct Hmax as [->|?]; [done|done].
  - by rewrite Hbody.
  - replace (crlf_line _ ++ unlines ls ++ CRLF) with (take (i + 4) data).
    + unfold zlen. rewrite Hl4. done.
    + rewrite Htake, Hn. unfold crlf_line. by rewrite <- !app_assoc.
Qed.

(** The framing of a start line and header lines that declare a length. *)
Lemma lines_terminator rl ls hs body (H := crlf_line rl ++ unlines ls) :
  LF ∉ rl -> Forall2 (fun l h => (LF ∉ l) /\ header_line_spec l = Some h) ls hs ->
  http_find_header_terminator ((H ++ CRLF) ++ body) = Some (length H - 2)%nat.
Proof.
  intros Hlf HF. unfold H. rewrite <- !app_assoc. apply find_terminator_unlines; [done|].
  clear -HF. induction HF as [|l h ls hs [Hl Hh] _ IH]; constructor; [|done].
  split; [|done]. by apply header_line_spec_split, split_header_nonempty in Hh.
Qed.

Lemma lines_framing rl ls hs n body (H := crlf_line rl ++ unlines ls) :
  LF ∉ rl -> Forall2 (fun l h => (LF ∉ l) /\ header_line_spec l = Some h) ls hs ->
  declares hs n ->
  http_find_header_terminator ((H ++ CRLF) ++ body) = Some (length H - 2)%nat /\
  framing_spec ((H ++ CRLF) ++ body) (length (H ++ CRLF)) = inr n.
Proof.
  intros Hlf HF Hd.
  assert (HH : (2 <= length H)%nat).
  { unfold H, crlf_line. rewrite !length_app. simpl. lia. }
  pose proof (lines_terminator rl ls hs body Hlf HF) as Hterm. fold H in Hterm.
  split; [done|]. rewrite framing_spec_app by done. unfold framing_spec.
  destruct (Nat.ltb_spec (length (H ++ CRLF)) 4) as [Hlt|_].
  { rewrite length_app in Hlt. simpl in Hlt. lia. }
  rewrite bool_decide_eq_true_2.
  2: { destruct (find_terminator_split _ _ Hterm) as [_ Hc]. rewrite <- Hc.
       rewrite length_app. simpl length. replace (length H + 2 - 4)%nat with (length H - 2)%nat by lia.
       rewrite (drop_app_le (H ++ CRLF)) by (rewrite length_app; simpl; lia).
       rewrite take_app_le; [done|]. rewrite length_drop, length_app. simpl. lia. }
  rewrite firstn_all.
  rewrite (proj2 (next_line_Some _ rl (unlines ls ++ CRLF))).
  2: { split; [|done]. unfold H, crlf_line. by rewrite <- !app_assoc. }
  rewrite (framing_lines_unlines ls hs).
  - by apply framing_fold_declares.
  - eapply Forall2_impl; [exact HF|]. intros l h [? ?]. split; [done|]. by apply header_line_spec_split.
  - pose proof (unlines_length ls). rewrite length_app. lia.
Qed.

Lemma message_parse_spec data a : message data a -> parse_spec data = inr a.
Proof.
  intros (ls & -> & Hm & Ht & Hsp & Hnul & Htlf & Hv & Hlen & HF & Hmax & Hd & Hhb).
  set (rl := request_line a) in *.
  assert (Hlf : LF ∉ rl).
  { destruct (method_string_facts _ Hm) as (_ & _ & _ & ? & _).
    destruct (version_facts _ Hv) as (_ & _ & _ & ?). unfold rl, request_line.
    rewrite elem_of_app, elem_of_cons, elem_of_app, elem_of_cons. naive_solver. }
  apply header_lines_grammar in HF.
  set (H := crlf_line rl ++ unlines ls) in *.
  assert (Hdata : crlf_line rl ++ unlines ls ++ CRLF ++ rq_body a = (H ++ CRLF) ++ rq_body a)
    by (unfold H; by rewrite <- !app_assoc).
  assert (HH : (2 <= length H)%nat).
  { unfold H, crlf_line. rewrite !length_app. simpl. lia. }
  destruct (lines_framing rl ls (rq_headers a) (zlen (rq_body a)) (rq_body a) Hlf HF Hd)
    as [Hterm Hfr]. fold H in Hterm, Hfr.
  rewrite Hdata. unfold parse_spec. rewrite Hterm.
  replace (length H - 2 + 4)%nat with (length (H ++ CRLF)) by (rewrite length_app; simpl; lia).
  replace (length H - 2 + 2)%nat with (length H) by lia.
  rewrite app_assoc in Hhb. fold H in Hhb.
  destruct (Z.ltb_spec HTTP_MAX_HEADER_BYTES (Z.of_nat (length (H ++ CRLF)))) as [Hlt|_].
  { unfold zlen in Hhb. lia. }
  rewrite Hfr. rewrite zlen_app. unfold zlen at 2. rewrite Z.eqb_refl. cbn [negb].
  rewrite <- app_assoc at 1. rewrite take_app_length by done.
  rewrite (proj2 (next_line_Some H rl (unlines ls))).
  2: { split; [|done]. unfold H, crlf_line. by rewrite <- app_assoc. }
  rewrite (request_line_spec_ok (rq_method a) (rq_target a) (rq_version a)) by done.
  rewrite (header_lines_spec_unlines ls (rq_headers a)); [|done| |].
  - rewrite drop_app_length by done. by destruct a.
  - pose proof (unlines_length ls). lia.
  - change (zlen []) with 0. lia.
Qed.

(** ** The composition of the code's steps *)

Lemma wp_parse_fail e r p p0 :
  owned_request r -> heap_only p0 p -> p_live p = p_live p0 ⊎ blk_request r ->
  wp (parse_fail e r) (fun res p' => res = (e, http_request_init) /\ heap_only p p' /\
    p_live p' = p_live p0) p.
Proof.
  intros Ho Hho Hl. apply wp_bind. eapply wp_mono; [apply wp_request_destroy; [done|multiset_solver]|].
  intros r' p1 (-> & Hho1 & Hl1). apply wp_ret. split; [done|]. split; [done|multiset_solver].
Qed.

(** What [http_parse_request] does, on every path. *)
Definition parse_post (data : list byte) (p : proc)
    (res : http_parse_result_t * http_request_t) (p' : proc) : Prop :=
  heap_only p p' /\ owned_request res.2 /\ p_live p' = p_live p ⊎ blk_request res.2 /\
  (res = (HTTP_PARSE_OUT_OF_MEMORY, http_request_init) /\ alloc_failed p p' \/
   match parse_spec data with
   | inl e => res = (e, http_request_init) /\ parse_error e
   | inr a => res.1 = HTTP_PARSE_OK /\ shows res.2 a
   end).

Lemma parse_post_init data p p' e : heap_only p p' -> p_live p' = p_live p ->
  (e = HTTP_PARSE_OUT_OF_MEMORY /\ alloc_failed p p' \/ parse_spec data = inl e /\ parse_error e) ->
  parse_post data p (e, http_request_init) p'.
Proof.
  intros Hho Hl He. split_and!; simpl; auto with cinder.
  { rewrite blk_request_init, Hl. multiset_solver. }
  destruct He as [[-> ?]|[-> ?]]; [by left|by right].
Qed.

Lemma wp_parse_body data p0 p a r n :
  parse_spec data = inr a -> declares (rq_headers a) n -> zlen (rq_body a) = n ->
  owned_request r -> heap_only p0 p -> p_live p = p_live p0 ⊎ blk_request r ->
  shows r (Req (rq_method a) (rq_target a) (rq_version a) (rq_headers a) []) ->
  wp (parse_body (rq_body a) n r) (parse_post data p0) p.
Proof.
  intros Hs Hd Hn Ho Hho Hl Hsh. unfold parse_body.
  destruct Hsh as [Hm Ht Hv Hhs Hnb%fmap_None Hbl]. simpl in Hm, Ht, Hv, Hhs, Hbl.
  rewrite revalidate_declares by by rewrite Hhs.
  destruct (Z.ltb_spec 0 n) as [Hpos|Hz].
  - apply wp_bind. eapply wp_mono; [apply wp_malloc|]. intros [b|] p1 (Hho1 & Hl1 & Hf1).
    + apply wp_ret. split_and!; simpl; [heap_trans| | |].
      * destruct Ho. split; simpl; eauto.
      * unfold blk_request in *. rewrite Hnb in Hl. simpl in *. multiset_solver.
      * right. rewrite Hs. split; [done|]. split; simpl; try done.
        rewrite take_ge by (unfold zlen in Hn; lia).
        unfold zlen in Hn. destruct (rq_body a); [simpl in Hn; lia|done].
    + eapply wp_mono; [apply (wp_parse_fail _ _ _ p0); [done|heap_trans|ledger]|].
      intros res p2 (-> & Hho2 & Hl2). apply parse_post_init; [heap_trans|done|].
      left. split; [done|]. eapply alloc_failed_l; [done|]. eapply alloc_failed_r; [done|]. auto.
  - pose proof (declares_range _ _ Hd). assert (rq_body a = []) as Hnil.
    { unfold zlen in Hn. destruct (rq_body a); [done|]. simpl in Hn. lia. }
    apply wp_ret. split_and!; simpl; auto. right. rewrite Hs. split; [done|].
    split; simpl; try done; [by rewrite Hnb, Hnil|by rewrite Hnil].
Qed.

(** The steps of the code compose to [parse_spec]. *)
(** The failing exits. *)
Lemma wp_fail_post data p e r q : owned_request r -> heap_only p q -> p_live q = p_live p ⊎ blk_request r ->
  (e = HTTP_PARSE_OUT_OF_MEMORY /\ alloc_failed p q \/ parse_spec data = inl e /\ parse_error e) ->
  wp (parse_fail e r) (parse_post data p) q.
Proof.
  intros Hor Hhor Hlr He. eapply wp_mono; [by apply (wp_parse_fail _ _ _ p)|].
  intros res q' (-> & Hho' & Hl'). apply parse_post_init; [heap_trans|done|].
  destruct He as [[-> ?]|?]; [left|by right]. split; [done|]. by eapply alloc_failed_l.
Qed.

(** From the request line to the body, once the framing is known. *)
Lemma wp_parse_lines data body n line cursor p q :
  parse_spec data =
    match request_line_spec line with
    | inl e => inl e
    | inr (method, target, version) =>
        match header_lines_spec (S (length cursor)) cursor [] with
        | inl e => inl e
        | inr headers => inr (Req method target version headers body)
        end
    end ->
  (forall hs, header_lines_spec (S (length cursor)) cursor [] = inr hs -> declares hs n) ->
  zlen body = n -> heap_only p q -> p_live q = p_live p ->
  wp ('(rl, request) ← parse_request_line line http_request_init;
      match rl with
      | HTTP_PARSE_OK =>
          '(hr, request) ← parse_header_lines (S (length cursor)) cursor request;
          match hr with HTTP_PARSE_OK => parse_body body n request | e => parse_fail e request end
      | e => parse_fail e request
      end) (parse_post data p) q.
Proof.
  intros Hps Hdecl Hbody Hho1 Hl1.
  apply wp_bind. eapply wp_mono; [apply wp_parse_request_line|].
  intros [rl r1] p2 (Hho2 & Ho2 & Hl2 & HP2). rewrite blk_request_init in Hl2. cbn [fst snd] in *.
  destruct HP2 as [[-> Hf2]|HP2].
  { apply wp_fail_post; [done|heap_trans|multiset_solver|left]. split; [done|]. by eapply alloc_failed_r. }
  unfold line_post in HP2. destruct (request_line_spec line) as [e|[[m t] v]].
  { destruct HP2 as [-> He]. destruct e; try (by destruct He);
      (apply wp_fail_post; [done|heap_trans|multiset_solver|by right]). }
  destruct HP2 as [-> Hsh]. apply wp_bind.
  eapply wp_mono; [apply (wp_parse_header_lines _ _ _ (Req m t v [] [])); auto; multiset_solver|].
  intros [hr r2] p3 (Hho3 & Ho3 & Hl3 & HP3). cbn [fst snd] in *.
  assert (Hl3' : p_live p3 = p_live p ⊎ blk_request r2) by multiset_solver.
  destruct HP3 as [[-> Hf3]|HP3].
  { apply wp_fail_post; [done|heap_trans|done|left]. split; [done|]. eapply alloc_failed_r; [|done]. heap_trans. }
  unfold headers_post in HP3. simpl rq_headers in HP3.
  destruct (header_lines_spec (S (length cursor)) cursor []) as [e|hs] eqn:Eh.
  { destruct HP3 as [-> He]. destruct e; try (by destruct He);
      (apply wp_fail_post; [done|heap_trans|done|by right]). }
  destruct HP3 as [-> Hsh3]. apply (wp_parse_body data p p3 (Req m t v hs body) r2 n); auto. heap_trans.
Qed.

Lemma wp_http_parse_request data p : wp (http_parse_request data) (parse_post data p) p.
Proof.
  unfold http_parse_request. destruct (Z.eqb_spec (zlen data) 0) as [H0|H0].
  { apply wp_ret, parse_post_init; [reflexivity|done|right]. by destruct data. }
  destruct (http_find_header_terminator data) as [i|] eqn:Ei.
  2: { apply wp_ret, parse_post_init; [reflexivity|done|right]. unfold parse_spec. by rewrite Ei. }
  destruct (HTTP_MAX_HEADER_BYTES <? Z.of_nat (i + 4)) eqn:Emax.
  { apply wp_ret, parse_post_init; [reflexivity|done|right]. unfold parse_spec. by rewrite Ei, Emax. }
  apply wp_bind. eapply wp_mono; [apply wp_inspect_message_framing|].
  intros frame p1 (Hho1 & Hl1 & [Hfr|[-> Hf1]]).
  2: { apply wp_ret, parse_post_init; auto. }
  destruct frame as [e|n].
  { apply wp_ret, parse_post_init; [done|done|right]. unfold parse_spec. rewrite Ei, Emax, <- Hfr.
    split; [done|]. by eapply framing_spec_error. }
  assert (Hps := eq_refl (parse_spec data)). unfold parse_spec in Hps at 2. rewrite Ei, Emax, <- Hfr in Hps.
  destruct (Z.eqb_spec (zlen data) (Z.of_nat (i + 4) + n)) as [Hlen|Hlen]; cbn [negb] in Hps.
  2: { destruct (Z.ltb_spec (zlen data) (Z.of_nat (i + 4) + n));
         [|destruct (Z.ltb_spec (Z.of_nat (i + 4) + n) (zlen data)); [|lia]];
         apply wp_ret, parse_post_init; auto; by right. }
  destruct (Z.ltb_spec (zlen data) (Z.of_nat (i + 4) + n)); [lia|].
  destruct (Z.ltb_spec (Z.of_nat (i + 4) + n) (zlen data)); [lia|].
  destruct (next_line (take (i + 2) data)) as [[line cursor]|] eqn:En.
  2: { apply wp_fail_post; [apply owned_request_init|done| |by right].
       rewrite blk_request_init, Hl1. multiset_solver. }
  apply wp_parse_lines; [done| | |done|done].
  - intros hs Eh. by eapply passes_agree.
  - pose proof (framing_spec_range _ _ _ (eq_sym Hfr)). unfold zlen in *. rewrite length_drop. lia.
Qed.

(** ** Properties *)

(** C2. Refinement.  On every message and under every pattern of allocation
    failures [http_parse_request] returns without fault; the blocks it leaves
    live are the previous ones and those of the request, which a failed parse
    leaves empty; and its result is HTTP_PARSE_OUT_OF_MEMORY after a failed
    allocation, or the one of [parse_spec]. *)
Theorem http_parse_request_refines data p :
  exists res r p', http_parse_request data p = Done (res, r) p' /\
    heap_only p p' /\ owned_request r /\ p_live p' = p_live p ⊎ blk_request r /\
    (res <> HTTP_PARSE_OK -> r = http_request_init) /\
    (res = HTTP_PARSE_OUT_OF_MEMORY /\ alloc_failed p p' \/
     match parse_spec data with
     | inl e => res = e /\ e <> HTTP_PARSE_OK /\ e <> HTTP_PARSE_OUT_OF_MEMORY
     | inr a => res = HTTP_PARSE_OK /\ shows r a
     end).
Proof.
  destruct (proj1 (wp_Done _ _ _) (wp_http_parse_request data p))
    as ([res r] & p' & Hd & Hho & Ho & Hl & HP).
  exists res, r, p'. split_and!; try done; cbn [fst snd] in *.
  - intros Hres. destruct HP as [[[= _ ?] _]|HP]; [done|].
    destruct (parse_spec data); [by destruct HP as [[= _ ?] _]|by destruct HP].
  - destruct HP as [[[= ? _] ?]|HP]; [by left|right].
    destruct (parse_spec data); [|done]. by destruct HP as [[= ? _] [? ?]].
Qed.

(** C22. The accepted messages.  With enough memory, [http_parse_request] accepts
    exactly the messages of the grammar, and the request it builds has the
    contents the grammar reads off. *)
Theorem http_parse_request_grammar data p :
  no_oom p -> forall a,
  (exists r p', http_parse_request data p = Done (HTTP_PARSE_OK, r) p' /\ shows r a)
  <-> message data a.
Proof.
  intros Hno a. pose proof (wp_http_parse_request data p) as Hwp.
  apply wp_Done in Hwp as ([res r] & p' & Hd & _ & _ & _ & HP). cbn [fst snd] in HP.
  assert (Hnf := no_oom_not_failed p p' Hno).
  split.
  - intros (r' & p'' & Hd' & Hsh). rewrite Hd in Hd'. simplify_eq.
    apply parse_spec_message. destruct HP as [[[=] _]|HP].
    destruct (parse_spec data) as [e|a']; [by destruct HP as [HP [? _]]; congruence|].
    destruct HP as [_ Hsh']. f_equal.
    destruct Hsh as [A1 A2 A3 A4 A5 A6], Hsh' as [B1 B2 B3 B4 B5 B6].
    destruct a as [m t v h b], a' as [m' t' v' h' b']. simpl in *. rewrite A2 in B2. rewrite A3 in B3.
    rewrite A5 in B5. simplify_eq. f_equal. by destruct b, b'; simplify_eq.
  - intros Hm%message_parse_spec. rewrite Hm in HP.
    destruct HP as [[_ ?]|[-> Hsh]]; [done|]. eauto.
Qed.

(** The grammar theorem on a concrete request with a body. *)
Lemma http_parse_request_grammar_witness :
  exists r p', http_parse_request
    (lit "POST /api/echo HTTP/1.1" ++ CRLF ++ lit "Content-Length: 2" ++ CRLF ++ CRLF ++ lit "hi")
    (fresh_proc (fun _ => true)) = Done (HTTP_PARSE_OK, r) p' /\
  message (lit "POST /api/echo HTTP/1.1" ++ CRLF ++ lit "Content-Length: 2" ++ CRLF ++ CRLF ++ lit "hi")
    (Req HTTP_METHOD_POST (lit "/api/echo") (lit "HTTP/1.1")
         [(lit "Content-Length", lit "2")] (lit "hi")).
Proof.
  eexists _, _. split; [vm_compute; reflexivity|].
  apply (http_parse_request_grammar _ (fresh_proc (fun _ => true))); [intros k; reflexivity|].
  eexists _, _. split; [vm_compute; reflexivity|]. split; vm_compute; reflexivity.
Defined.

(** No leak.  Whatever the message and the allocation failures, parsing and
    then destroying the request gives back every block: the live heap and the
    open descriptors are those of before. *)
Theorem http_parse_request_no_leak data p :
  exists res r p1 p2,
    http_parse_request data p = Done (res, r) p1 /\
    http_request_destroy r p1 = Done http_request_init p2 /\
    p_live p2 = p_live p /\ p_fds p2 = p_fds p.
Proof.
  destruct (proj1 (wp_Done _ _ _) (wp_http_parse_request data p))
    as ([res r] & p1 & Hd & Hho & Ho & Hl & _). cbn [fst snd] in *.
  destruct (proj1 (wp_Done _ _ _) (wp_request_destroy r p1 Ho ltac:(multiset_solver)))
    as (r' & p2 & Hd2 & -> & Hho2 & Hl2).
  exists res, r, p1, p2. split_and!; [done|done|multiset_solver|].
  by rewrite (ho_fds _ _ Hho2), (ho_fds _ _ Hho).
Qed.

(** The parser without its last checks: the body is copied with the length of the
    framing pass, and the stored headers are not looked at again. *)
Definition copy_body (body : list byte) (body_length : Z) (request : http_request_t)
  : M proc (http_parse_result_t * http_request_t) :=
  if 0 <? body_length then
    b ← malloc;
    match b with
    | None => parse_fail HTTP_PARSE_OUT_OF_MEMORY request
    | Some b =>
        mret (HTTP_PARSE_OK,
              {| req_method := req_method request; req_target := req_target request;
                 req_version := req_version request; req_array := req_array request;
                 req_headers := req_headers request;
                 req_body := Some (CStr (Some b) (take (Z.to_nat body_length) body));
                 req_body_length := body_length |})
    end
  else mret (HTTP_PARSE_OK, request).

Definition one_pass_parse (data : list byte) : M proc (http_parse_result_t * http_request_t) :=
  if zlen data =? 0 then mret (HTTP_PARSE_BAD_REQUEST, http_request_init)
  else
    match http_find_header_terminator data with
    | None => mret (HTTP_PARSE_BAD_REQUEST, http_request_init)
    | Some term =>
        if HTTP_MAX_HEADER_BYTES <? Z.of_nat (term + 4) then mret (HTTP_PARSE_TOO_LARGE, http_request_init)
        else
          frame ← http_inspect_message_framing data (term + 4);
          match frame with
          | inl e => mret (e, http_request_init)
          | inr expected_body =>
              if negb (zlen data =? Z.of_nat (term + 4) + expected_body) then
                mret (HTTP_PARSE_BAD_REQUEST, http_request_init)
              else
                match next_line (take (term + 2) data) with
                | None => parse_fail HTTP_PARSE_BAD_REQUEST http_request_init
                | Some (line, cursor) =>
                    '(rl, request) ← parse_request_line line http_request_init;
                    match rl with
                    | HTTP_PARSE_OK =>
                        '(hr, request) ← parse_header_lines (S (length cursor)) cursor request;
                        match hr with
                        | HTTP_PARSE_OK => copy_body (drop (term + 4) data) expected_body request
                        | e => parse_fail e request
                        end
                    | e => parse_fail e request
                    end
                end
          end
    end.

Lemma bind_same {S A B} (m : M S A) (Q : A -> S -> Prop) (k1 k2 : A -> M S B) s :
  wp m Q s -> (forall a s', Q a s' -> k1 a s' = k2 a s') -> (m ≫= k1) s = (m ≫= k2) s.
Proof. unfold wp, mbind, M_bind. destruct (m s); naive_solver. Qed.

(** The lines of a message that passed the framing pass with length [n]. *)
Lemma lines_without_revalidation line cursor body n p :
  (forall hs, header_lines_spec (S (length cursor)) cursor [] = inr hs -> declares hs n) ->
  ('(rl, request) ← parse_request_line line http_request_init;
   match rl with
   | HTTP_PARSE_OK =>
       '(hr, request) ← parse_header_lines (S (length cursor)) cursor request;
       match hr with HTTP_PARSE_OK => parse_body body n request | e => parse_fail e request end
   | e => parse_fail e request
   end) p =
  ('(rl, request) ← parse_request_line line http_request_init;
   match rl with
   | HTTP_PARSE_OK =>
       '(hr, request) ← parse_header_lines (S (length cursor)) cursor request;
       match hr with HTTP_PARSE_OK => copy_body body n request | e => parse_fail e request end
   | e => parse_fail e request
   end) p.
Proof.
  intros Hd. eapply bind_same; [apply wp_parse_request_line|].
  intros [rl r1] p1 (_ & Ho1 & Hl1 & HP1). cbn [fst snd] in *. destruct rl; try done.
  destruct HP1 as [[[=] _]|HP1]. unfold line_post in HP1.
  destruct (request_line_spec line) as [e|[[m t] v]]; [by destruct HP1 as [<- [? _]]|].
  destruct HP1 as [_ Hsh]. rewrite blk_request_init in Hl1.
  eapply bind_same; [apply (wp_parse_header_lines _ _ _ (Req m t v [] [])); auto; multiset_solver|].
  intros [hr r2] p2 (_ & _ & _ & HP2). cbn [fst snd] in *. destruct hr; try done.
  destruct HP2 as [[[=] _]|HP2]. unfold headers_post in HP2. simpl rq_headers in HP2.
  destruct (header_lines_spec (S (length cursor)) cursor []) as [e|hs]; [by destruct HP2 as [<- [? _]]|].
  destruct HP2 as [_ Hsh2]. unfold parse_body.
  by rewrite (revalidate_declares _ n) by (rewrite (sh_headers _ _ Hsh2); auto).
Qed.

(** C33. The two passes agree.  On every message and under every pattern of
    allocation failures, [http_parse_request] does exactly what the parser does
    that skips the re-validation of the stored headers: when
    [http_inspect_message_framing] accepts a message and its lines parse, none of
    the checks on Content-Length and Transfer-Encoding that follow rejects it. *)
Theorem revalidation_never_rejects data p : http_parse_request data p = one_pass_parse data p.
Proof.
  unfold http_parse_request, one_pass_parse. destruct (zlen data =? 0); [done|].
  destruct (http_find_header_terminator data) as [i|] eqn:Ei; [|done]. cbv zeta.
  destruct (HTTP_MAX_HEADER_BYTES <? Z.of_nat (i + 4)); [done|].
  eapply bind_same; [apply wp_inspect_message_framing|].
  intros frame p1 (_ & _ & [Hfr|[-> _]]); [|done]. destruct frame as [e|n]; [done|].
  destruct (Z.ltb_spec (zlen data) (Z.of_nat (i + 4) + n)), (Z.ltb_spec (Z.of_nat (i + 4) + n) (zlen data)),
    (Z.eqb_spec (zlen data) (Z.of_nat (i + 4) + n)); try lia; cbn [negb]; try done.
  destruct (next_line (take (i + 2) data)) as [[line cursor]|] eqn:En; [|done].
  apply lines_without_revalidation. intros hs Eh. by eapply passes_agree.
Qed.

(** Content-Length values: the exact classification of every string. *)
Theorem content_length_classification v :
  http_parse_content_length_value (Some v) =
  if bool_decide (v <> [] /\ Forall (fun c => is_digit c = true) v) then
    if ULLONG_MAX <? dec_value 0 v then inl HTTP_PARSE_INVALID_CONTENT_LENGTH
    else if HTTP_MAX_BODY_SIZE <? dec_value 0 v then inl HTTP_PARSE_TOO_LARGE
    else inr (dec_value 0 v)
  else inl HTTP_PARSE_INVALID_CONTENT_LENGTH.
Proof. apply content_length_value_cases. Qed.

Lemma printed_lines hs : Forall printable_header hs ->
  Forall2 (fun l h => (LF ∉ l) /\ header_line l h.1 h.2) (map print_header hs) hs.
Proof.
  intros Hh. induction Hh as [|[n v] hs (Hne & Hb & Hcol & Hln & Hlv & Hnv & Hhd & Hla) _ IH];
    simpl; constructor; [|done]. simpl in *. unfold print_header. simpl. split.
  - rewrite elem_of_app, !elem_of_cons. naive_solver.
  - exists [SP], []. rewrite app_nil_r. split_and!; try done; by apply Forall_singleton.
Qed.

Lemma print_request_message a : printable a -> message (print_request a) a.
Proof.
  intros [Hm (Ht & Hsp & Hnul & Hlf) Hv Hl Hh Hc Hd Hs]. exists (map print_header (rq_headers a)).
  split_and!; try done.
  - by apply printed_lines.
  - unfold print_request in Hs. rewrite !app_assoc, zlen_app in Hs.
    rewrite app_assoc. lia.
Qed.

(** C24. Round trip.  Printing a request within the limits and parsing the bytes
    gives the request back. *)
Theorem print_parse_round_trip a p :
  printable a -> no_oom p ->
  exists r p', http_parse_request (print_request a) p = Done (HTTP_PARSE_OK, r) p' /\ shows r a.
Proof.
  intros Hp Hno. pose proof (wp_http_parse_request (print_request a) p) as Hwp.
  apply wp_Done in Hwp as ([res r] & p' & Hd & _ & _ & _ & HP). cbn [fst snd] in HP.
  rewrite (message_parse_spec _ _ (print_request_message a Hp)) in HP.
  destruct HP as [[_ ?%no_oom_not_failed]|[-> Hsh]]; [done|done|eauto].
Qed.

(** A GET request with a header that declares no body. *)
Definition sample_request : request :=
  Req HTTP_METHOD_GET (lit "/index.html") (lit "HTTP/1.1") [(lit "Host", lit "a b")] [].

Lemma print_parse_round_trip_witness :
  exists r p', http_parse_request (print_request sample_request) (fresh_proc (fun _ => true)) =
    Done (HTTP_PARSE_OK, r) p' /\ shows r sample_request.
Proof.
  apply print_parse_round_trip; [|intros k; reflexivity].
  split.
  - done.
  - split_and!; try done; by apply (bool_decide_unpack _).
  - by right.
  - by vm_compute.
  - apply Forall_singleton. split_and!; try done; try (by apply (bool_decide_unpack _)).
    + by intros c [= <-].
    + by intros c [= <-].
  - by vm_compute.
  - apply declares_none; by repeat constructor.
  - by vm_compute.
Defined.
