(* ===== verification/RequestType.v ===== *)
(** * The type of a parsed request

    What the rest of the server relies on when it is handed a request: which
    pointers are not NULL, which bytes cannot occur in a string, so that C's
    string functions see all of it, and which bounds the numbers have. *)
From S2P Require Import Prelude CLib Proc Request Parser ParserSpec ParserRefine Framing ParserCorrect.

(** A heap string with contents [l], without NUL or line feed. *)
Definition text_field (s : option cstr) (l : list byte) : Prop :=
  exists b, s = Some (CStr (Some b) l) /\ (NUL ∉ l) /\ (LF ∉ l).

Record http_header_typed (h : http_header_t) : Prop := {
  th_name : exists name, text_field (Some (hdr_name h)) name /\ name <> [] /\
    (SP ∉ name) /\ (HT ∉ name) /\ (":"%byte ∉ name);
  th_value : exists value, text_field (Some (hdr_value h)) value /\
    (forall c, hd_error value = Some c -> is_ows c = false) /\
    (forall c, last value = Some c -> is_ows c = false);
}.

Record http_request_typed (r : http_request_t) : Prop := {
  ty_method : req_method r <> HTTP_METHOD_UNKNOWN;
  ty_target : exists target, text_field (req_target r) target /\ target <> [] /\ (SP ∉ target);
  ty_version : exists version, text_field (req_version r) version /\
    (version = lit "HTTP/1.0" \/ version = lit "HTTP/1.1");
  ty_headers : Forall http_header_typed (req_headers r);
  ty_count : header_count r <= HTTP_MAX_HEADERS;
  ty_array : req_headers r <> [] -> is_Some (req_array r);
  ty_body_length : 0 <= req_body_length r <= HTTP_MAX_BODY_SIZE;
  ty_body : match req_body r with
    | Some c => is_Some (cs_block c) /\ zlen (cs_bytes c) = req_body_length r /\ 0 < req_body_length r
    | None => req_body_length r = 0
    end;
}.

Lemma owned_text s l : owned_str s -> cs_bytes <$> s = Some l -> (NUL ∉ l) -> (LF ∉ l) -> text_field s l.
Proof.
  intros Ho Hs Hn Hl. destruct s as [[b l']|]; simplify_eq/=. destruct Ho as [b' Hb]. simpl in Hb. subst b.
  by exists b'.
Qed.

Lemma bad_name_chars name : Forall (fun c => is_bad_name_char c = false) name ->
  (NUL ∉ name) /\ (SP ∉ name) /\ (HT ∉ name).
Proof.
  rewrite Forall_forall. intros H. split_and!; intros Hin; by apply H in Hin.
Qed.

Lemma header_line_typed l h : owned_header h -> LF ∉ l ->
  header_line l (cs_bytes (hdr_name h)) (cs_bytes (hdr_value h)) -> http_header_typed h.
Proof.
  intros [Hon Hov] Hlf (o1 & o2 & -> & Hne & Hcol & Hbad & _ & _ & Hfirst & Hlast & Hnul).
  apply bad_name_chars in Hbad as (Hn & Hsp & Hht). split.
  - eexists. split_and!; [eapply owned_text; [done|done|done|set_solver]|done..].
  - eexists. split_and!; [eapply owned_text; [done|done|done|set_solver]|done..].
Qed.

Lemma shows_typed r a data : owned_request r -> shows r a -> message data a -> http_request_typed r.
Proof.
  intros [Ot Ov Oh Oa Ob] [Sm St Sv Sh Sb Sl]
    (ls & -> & Hm & Hne & Hsp & Hnul & Hlf & Hv & _ & Hhs & Hcount & Hdecl & _).
  split.
  - by rewrite Sm.
  - exists (rq_target a). split_and!; [by eapply owned_text|done..].
  - exists (rq_version a). split; [|done]. apply version_facts in Hv as (? & ? & ? & ?). by eapply owned_text.
  - rewrite <- Sh in Hhs. clear -Oh Hhs. rewrite Forall2_fmap_r in Hhs.
    revert Oh. induction Hhs as [|l h ls hs [Hl Hh] _ IH]; intros Oh; [constructor|].
    apply Forall_cons in Oh as [Oh Ohs]. constructor; [|auto]. by eapply header_line_typed.
  - unfold header_count, zlen. rewrite <- (length_map view_header), Sh. exact Hcount.
  - intros Hn. destruct (req_array r) as [b|]; [eauto|]. by specialize (Oa eq_refl).
  - rewrite Sl. by eapply declares_range.
  - rewrite Sl. destruct (req_body r) as [[b l]|], (rq_body a) as [|x bd]; simplify_eq/=; done.
Qed.

(** C16. Type of a request.  Whenever [http_parse_request] succeeds, the request has a
    known method, a target and a supported version, at most 100 headers with names and
    values, all on the heap and without NUL, line feed or (in target and names) spaces;
    the body pointer is NULL exactly when [body_length] is 0, and otherwise points to
    that many bytes, at most HTTP_MAX_BODY_SIZE. *)
Theorem parsed_request_typed data p :
  wp (http_parse_request data) (fun '(res, r) _ => res = HTTP_PARSE_OK -> http_request_typed r) p.
Proof.
  eapply wp_mono; [apply wp_http_parse_request|]. intros [res r] p' (_ & Ho & _ & HP) ->.
  simpl in *. destruct HP as [[[=] _]|HP]. destruct (parse_spec data) as [e|a] eqn:E.
  - destruct HP as [[= <- _] [? _]]. done.
  - destruct HP as [_ Hs]. by eapply shows_typed, parse_spec_message.
Qed.
