(* ===== verification/World.v ===== *)
(** * The operating system seen by one connection

    The world adds to the process resources what the socket of one connection,
    the clock and [poll] answer.  Calls that can wait take their answers from a
    finite script: when it is used up the call never returns.  The clock is a
    function of the number of readings.  The last three fields are a trace for
    specifications: the bytes received, the bytes sent and the timeouts passed
    to [poll]. *)
From S2P Require Import Prelude CLib Proc.

Inductive errno :=
| EINTR | EAGAIN | EPIPE | ECONNRESET | EINVAL | ENOSYS | EIO | EACCES | ENOENT
| EOTHER (n : Z).

#[global] Instance errno_eq_dec : EqDecision errno.
Proof. solve_decision. Defined.

Record timespec := Timespec { tv_sec : Z; tv_nsec : Z }.

(** [PollReady err pollin]: [revents] has one of POLLERR, POLLHUP, POLLNVAL;
    has POLLIN. *)
Inductive poll_answer :=
| PollError (e : errno)
| PollTimeout
| PollReady (err pollin : bool).

(** [RecvData bs]: [bs] is available; the call takes what fits. *)
Inductive recv_answer :=
| RecvError (e : errno)
| RecvEof
| RecvData (bs : list byte).

(** [SendCount n]: the kernel takes at most [n] bytes. *)
Inductive send_answer :=
| SendError (e : errno)
| SendCount (n : nat).

(** Open regular files, by descriptor: content and position; the answers of
    [sendfile] and [read] ([inr n]: at most [n] bytes) and of [lseek]. *)
Record files := Files {
  f_content : nat -> list byte;
  f_position : nat -> nat;
  f_sendfile : list send_answer;
  f_read : list (errno + nat);
  f_lseek_ok : bool;
}.

(** No file is open. *)
Definition no_files : files :=
  {| f_content := fun _ => []; f_position := fun _ => 0%nat; f_sendfile := []; f_read := [];
     f_lseek_ok := true |}.

Record world := World {
  w_proc : proc;
  w_clock : nat -> option timespec; (* [None]: clock_gettime fails *)
  w_ticks : nat;
  w_poll : list poll_answer;
  w_recv : list recv_answer;
  w_send : list send_answer;
  w_received : list byte;
  w_sent : list byte;
  w_polled : list Z;
  w_file : files;
}.

Definition set_proc (p : proc) (w : world) : world :=
  {| w_proc := p; w_clock := w_clock w; w_ticks := w_ticks w; w_poll := w_poll w;
     w_recv := w_recv w; w_send := w_send w; w_received := w_received w;
     w_sent := w_sent w; w_polled := w_polled w; w_file := w_file w |}.

(** A call that only touches the process resources. *)
Definition lift {A} (m : M proc A) : M world A := fun w =>
  match m (w_proc w) with
  | Done a p => Done a (set_proc p w)
  | NoReturn => NoReturn
  | Fault => Fault
  end.

Definition clock_gettime : M world (option timespec) := fun w =>
  Done (w_clock w (w_ticks w))
    {| w_proc := w_proc w; w_clock := w_clock w; w_ticks := S (w_ticks w); w_poll := w_poll w;
       w_recv := w_recv w; w_send := w_send w; w_received := w_received w;
       w_sent := w_sent w; w_polled := w_polled w; w_file := w_file w |}.

Definition poll (timeout_ms : Z) : M world poll_answer := fun w =>
  match w_poll w with
  | [] => NoReturn
  | a :: rest =>
      Done a
        {| w_proc := w_proc w; w_clock := w_clock w; w_ticks := w_ticks w; w_poll := rest;
           w_recv := w_recv w; w_send := w_send w; w_received := w_received w;
           w_sent := w_sent w; w_polled := w_polled w ++ [timeout_ms]; w_file := w_file w |}
  end.

(** [recv] of at most [space] bytes; what does not fit stays in the socket. *)
Definition recv (space : nat) : M world recv_answer := fun w =>
  match w_recv w with
  | [] => NoReturn
  | a :: rest =>
      let '(out, rest', got) :=
        match a with
        | RecvData bs =>
            (RecvData (take space bs),
             if (length bs <=? space)%nat then rest else RecvData (drop space bs) :: rest,
             take space bs)
        | _ => (a, rest, [])
        end in
      Done out
        {| w_proc := w_proc w; w_clock := w_clock w; w_ticks := w_ticks w; w_poll := w_poll w;
           w_recv := rest'; w_send := w_send w; w_received := w_received w ++ got;
           w_sent := w_sent w; w_polled := w_polled w; w_file := w_file w |}
  end.

(** [send] of the bytes [bs] (not empty): the count taken. *)
Definition send (bs : list byte) : M world (errno + nat) := fun w =>
  match w_send w with
  | [] => NoReturn
  | a :: rest =>
      let '(out, got) :=
        match a with
        | SendError e => (inl e, [])
        | SendCount n => (inr (length (take n bs)), take n bs)
        end in
      Done out
        {| w_proc := w_proc w; w_clock := w_clock w; w_ticks := w_ticks w; w_poll := w_poll w;
           w_recv := w_recv w; w_send := rest; w_received := w_received w;
           w_sent := w_sent w ++ got; w_polled := w_polled w; w_file := w_file w |}
  end.

Definition set_file (f : files) (sent : list byte) (w : world) : world :=
  {| w_proc := w_proc w; w_clock := w_clock w; w_ticks := w_ticks w; w_poll := w_poll w;
     w_recv := w_recv w; w_send := w_send w; w_received := w_received w;
     w_sent := w_sent w ++ sent; w_polled := w_polled w; w_file := f |}.

(** [sendfile(client_fd, fd, &offset, count)]: bytes of the file from [offset]
    go to the socket; the position of [fd] does not move. *)
Definition sendfile (fd offset count : nat) : M world (errno + nat) := fun w =>
  let f := w_file w in
  match f_sendfile f with
  | [] => NoReturn
  | a :: rest =>
      let f' := {| f_content := f_content f; f_position := f_position f; f_sendfile := rest;
                   f_read := f_read f; f_lseek_ok := f_lseek_ok f |} in
      match a with
      | SendError e => Done (inl e) (set_file f' [] w)
      | SendCount n =>
          let got := take (min n count) (drop offset (f_content f fd)) in
          Done (inr (length got)) (set_file f' got w)
      end
  end.

(** [lseek(fd, offset, SEEK_SET)]. *)
Definition lseek_set (fd offset : nat) : M world bool := fun w =>
  let f := w_file w in
  if f_lseek_ok f then
    Done true (set_file
      {| f_content := f_content f; f_position := fun d => if decide (d = fd) then offset else f_position f d;
         f_sendfile := f_sendfile f; f_read := f_read f; f_lseek_ok := f_lseek_ok f |} [] w)
  else Done false w.

(** [read(fd, buffer, count)]. *)
Definition read (fd count : nat) : M world (errno + list byte) := fun w =>
  let f := w_file w in
  match f_read f with
  | [] => NoReturn
  | a :: rest =>
      let got := match a with
                 | inl _ => []
                 | inr n => take (min n count) (drop (f_position f fd) (f_content f fd))
                 end in
      Done (match a with inl e => inl e | inr _ => inr got end)
        (set_file {| f_content := f_content f;
                     f_position := fun d => if decide (d = fd) then (f_position f fd + length got)%nat
                                            else f_position f d;
                     f_sendfile := f_sendfile f; f_read := rest; f_lseek_ok := f_lseek_ok f |} [] w)
  end.

(** A loop whose fuel is read off the scripts. *)
Definition fueled {A} (fuel : world -> nat) (m : nat -> M world A) : M world A :=
  fun w => m (S (fuel w)) w.

(** The bytes the socket still has to deliver. *)
Definition answer_bytes (a : recv_answer) : list byte :=
  match a with RecvData bs => bs | _ => [] end.

Definition pending (w : world) : list byte := concat (map answer_bytes (w_recv w)).

(** ** Rules *)

Lemma wp_lift {A} (m : M proc A) Q w :
  wp m (fun a p => Q a (set_proc p w)) (w_proc w) -> wp (lift m) Q w.
Proof. unfold wp, lift. by destruct (m (w_proc w)). Qed.

Lemma wlp_lift {A} (m : M proc A) Q w :
  wp m (fun a p => Q a (set_proc p w)) (w_proc w) -> wlp (lift m) Q w.
Proof. unfold wp, wlp, lift. by destruct (m (w_proc w)). Qed.

Lemma set_proc_id w : set_proc (w_proc w) w = w.
Proof. by destruct w. Qed.

(** What [recv] delivers is taken from the front of the stream. *)
Lemma recv_stream space w a w' : recv space w = Done a w' ->
  exists d, w_received w' = w_received w ++ d /\ pending w = d ++ pending w' /\ answer_bytes a = d.
Proof.
  unfold recv, pending. destruct (w_recv w) as [|[e| |bs] rest]; intros H; simplify_eq; simpl.
  - by exists [].
  - by exists [].
  - exists (take space bs). split_and!; [done| |done].
    destruct (Nat.leb_spec (length bs) space); simpl.
    + by rewrite take_ge.
    + by rewrite app_assoc, take_drop.
Qed.
