(* ===== verification/Reader.v ===== *)
(** * The connection reader: http_reader.h and http_reader.c

    The accumulation buffer with its capacity, the extraction of one message,
    the two timeouts, and the loop around [poll] and [recv]. *)
From S2P Require Import Prelude CLib Proc Request Parser World.

Inductive http_read_result_t :=
| HTTP_READ_OK
| HTTP_READ_CLIENT_CLOSED
| HTTP_READ_TIMEOUT
| HTTP_READ_TOO_LARGE
| HTTP_READ_IO_ERROR
| HTTP_READ_BAD_REQUEST
| HTTP_READ_UNSUPPORTED_TRANSFER_ENCODING
| HTTP_READ_INVALID_CONTENT_LENGTH
| HTTP_READ_OUT_OF_MEMORY.

#[global] Instance http_read_result_eq_dec : EqDecision http_read_result_t.
Proof. solve_decision. Defined.

(** [rd_bytes] are the first [length] bytes of [data]. *)
Record http_reader_t := Reader {
  rd_data : option nat;
  rd_bytes : list byte;
  rd_capacity : Z;
}.

Definition rd_length (r : http_reader_t) : Z := zlen (rd_bytes r).

Definition HTTP_READER_INITIAL_CAPACITY : Z := 4096.
Definition HTTP_READER_RECV_CHUNK : Z := 4096.
Definition HTTP_READER_ONESHOT_TIMEOUT_SEC : Z := 30.

Definition map_framing_error (result : http_parse_result_t) : http_read_result_t :=
  match result with
  | HTTP_PARSE_OK => HTTP_READ_OK
  | HTTP_PARSE_TOO_LARGE => HTTP_READ_TOO_LARGE
  | HTTP_PARSE_UNSUPPORTED_TRANSFER_ENCODING => HTTP_READ_UNSUPPORTED_TRANSFER_ENCODING
  | HTTP_PARSE_INVALID_CONTENT_LENGTH => HTTP_READ_INVALID_CONTENT_LENGTH
  | HTTP_PARSE_OUT_OF_MEMORY => HTTP_READ_OUT_OF_MEMORY
  | _ => HTTP_READ_BAD_REQUEST
  end.

Definition http_reader_init : http_reader_t :=
  {| rd_data := None; rd_bytes := []; rd_capacity := 0 |}.

Definition http_reader_destroy (reader : http_reader_t) : M proc http_reader_t :=
  free (rd_data reader);; mret http_reader_init.

(** The doubling loop; 64 rounds are enough for any [size_t]. *)
Fixpoint grow_capacity (fuel : nat) (new_capacity needed : Z) : option Z :=
  match fuel with
  | O => None
  | S fuel =>
      if new_capacity <? needed then
        if HTTP_MAX_MESSAGE_BYTES / 2 <? new_capacity then Some HTTP_MAX_MESSAGE_BYTES
        else grow_capacity fuel (wrap64 (new_capacity * 2)) needed
      else Some new_capacity
  end.

Definition ensure_capacity (reader : http_reader_t) (needed : Z) : M proc (bool * http_reader_t) :=
  if needed <=? rd_capacity reader then mret (true, reader)
  else if HTTP_MAX_MESSAGE_BYTES <? needed then mret (false, reader)
  else
    match grow_capacity 64
            (if rd_capacity reader =? 0 then HTTP_READER_INITIAL_CAPACITY else rd_capacity reader)
            needed with
    | None => no_return
    | Some new_capacity =>
        if (new_capacity <? needed) || (HTTP_MAX_MESSAGE_BYTES <? new_capacity) then
          mret (false, reader)
        else
          grown ← realloc (rd_data reader);
          match grown with
          | None => mret (false, reader)
          | Some b =>
              mret (true, {| rd_data := Some b; rd_bytes := rd_bytes reader;
                             rd_capacity := new_capacity |})
          end
    end.

(** HTTP_READ_IO_ERROR here means that more data is needed. *)
Definition try_extract_length (reader : http_reader_t) : M proc (http_read_result_t * nat) :=
  if rd_length reader =? 0 then mret (HTTP_READ_IO_ERROR, 0%nat)
  else
    match http_find_header_terminator (rd_bytes reader) with
    | None =>
        if HTTP_MAX_HEADER_BYTES <=? rd_length reader then mret (HTTP_READ_TOO_LARGE, 0%nat)
        else mret (HTTP_READ_IO_ERROR, 0%nat)
    | Some header_end =>
        let header_bytes := (header_end + 4)%nat in
        if HTTP_MAX_HEADER_BYTES <? Z.of_nat header_bytes then mret (HTTP_READ_TOO_LARGE, 0%nat)
        else
          framing ← http_inspect_message_framing (rd_bytes reader) header_bytes;
          match framing with
          | inl e => mret (map_framing_error e, 0%nat)
          | inr body_length =>
              if HTTP_MAX_MESSAGE_BYTES - Z.of_nat header_bytes <? body_length then
                mret (HTTP_READ_TOO_LARGE, 0%nat)
              else
                let total := Z.of_nat header_bytes + body_length in
                if rd_length reader <? total then mret (HTTP_READ_IO_ERROR, 0%nat)
                else mret (HTTP_READ_OK, Z.to_nat total)
          end
    end.

(** A newly allocated copy of the first message; the rest moves to the front. *)
Definition take_message (reader : http_reader_t) (message_length : nat)
  : M proc (http_read_result_t * http_reader_t * option cstr) :=
  copy ← malloc;
  match copy with
  | None => mret (HTTP_READ_OUT_OF_MEMORY, reader, None)
  | Some b =>
      mret (HTTP_READ_OK,
            {| rd_data := rd_data reader; rd_bytes := drop message_length (rd_bytes reader);
               rd_capacity := rd_capacity reader |},
            Some (CStr (Some b) (take message_length (rd_bytes reader))))
  end.

Definition timespec_before (a b : timespec) : bool :=
  if negb (tv_sec a =? tv_sec b) then tv_sec a <? tv_sec b
  else tv_nsec a <? tv_nsec b.

(** Milliseconds from [now] to [deadline]. *)
Definition remaining_ms (now deadline : timespec) : Z :=
  if negb (timespec_before now deadline) then 0
  else
    let sec := tv_sec deadline - tv_sec now in
    let nsec := tv_nsec deadline - tv_nsec now in
    let '(sec, nsec) := if nsec <? 0 then (sec - 1, nsec + 1000000000) else (sec, nsec) in
    if 1000 <? sec then 1000 * 1000
    else
      let ms := sec * 1000 + Z.quot nsec 1000000 in
      if ms <=? 0 then 0
      else if 2147483647 <? ms then 2147483647
      else ms.

Definition remaining_timeout_ms (deadline : timespec) : M world Z :=
  now ← clock_gettime;
  mret (match now with None => 1000 | Some now => remaining_ms now deadline end).

(** The [for (;;)] around [poll]: 1 readable, 0 timeout, -1 error; each round
    takes one answer. *)
Fixpoint wait_readable_loop (fuel : nat) (timeout_ms : Z) : M world Z :=
  match fuel with
  | O => no_return
  | S fuel =>
      rc ← poll timeout_ms;
      match rc with
      | PollError EINTR => wait_readable_loop fuel timeout_ms
      | PollError _ => mret (-1)
      | PollTimeout => mret 0
      | PollReady true _ => mret 1
      | PollReady false true => mret 1
      | PollReady false false => mret (-1)
      end
  end.

Definition wait_readable (timeout_ms : Z) : M world Z := fun w =>
  wait_readable_loop (S (length (w_poll w))) timeout_ms w.

Definition clear_reader (reader : http_reader_t) : http_reader_t :=
  {| rd_data := rd_data reader; rd_bytes := []; rd_capacity := rd_capacity reader |}.

(** The number of bytes the buffer must be able to hold before [recv]:
    [inl] an error that empties the reader. *)
Definition bytes_needed (reader : http_reader_t) : M proc (http_read_result_t + Z) :=
  let need := wrap64 (rd_length reader + HTTP_READER_RECV_CHUNK) in
  match http_find_header_terminator (rd_bytes reader) with
  | None =>
      if HTTP_MAX_HEADER_BYTES <=? rd_length reader then mret (inl HTTP_READ_TOO_LARGE)
      else
        let need := if HTTP_MAX_HEADER_BYTES <? need then HTTP_MAX_HEADER_BYTES else need in
        if need <=? rd_length reader then mret (inl HTTP_READ_TOO_LARGE) else mret (inr need)
  | Some header_end =>
      let header_bytes := (header_end + 4)%nat in
      framing ← http_inspect_message_framing (rd_bytes reader) header_bytes;
      match framing with
      | inl e => mret (inl (map_framing_error e))
      | inr body_length =>
          if HTTP_MAX_MESSAGE_BYTES - Z.of_nat header_bytes <? body_length then
            mret (inl HTTP_READ_TOO_LARGE)
          else mret (inr (Z.of_nat header_bytes + body_length))
      end
  end.

Definition add_seconds (t : timespec) (s : Z) : timespec :=
  {| tv_sec := tv_sec t + s; tv_nsec := tv_nsec t |}.

(** [timeout_ms = keep_alive_timeout_sec * 1000], an [int], and the guard against
    its overflow. *)
Definition idle_timeout_ms (keep_alive_timeout_sec : Z) : Z :=
  let timeout_ms := wrap32 (keep_alive_timeout_sec * 1000) in
  if timeout_ms <? 0 then 1000 else timeout_ms.

(** The timeout of the next wait; [None] when the request deadline has passed. *)
Definition next_timeout (deadline : option timespec) (keep_alive_timeout_sec : Z)
  : M world (option Z) :=
  match deadline with
  | None => mret (Some (idle_timeout_ms keep_alive_timeout_sec))
  | Some d =>
      timeout_ms ← remaining_timeout_ms d;
      mret (if timeout_ms =? 0 then None else Some timeout_ms)
  end.

Definition read_result : Type := http_read_result_t * http_reader_t * option cstr.

(** One round of the [for (;;)] of [http_reader_next_request], in four parts;
    [again] is the next round, and [deadline] is [None] while
    [deadline_active] is 0.  Last, what follows [recv]: *)
Section round.
  Context (keep_alive_timeout_sec request_timeout_sec : Z).
  Context (again : http_reader_t -> option timespec -> M world read_result).

Definition after_recv (reader : http_reader_t) (deadline : option timespec) (n : recv_answer)
  : M world read_result :=
  match n with
  | RecvError EINTR => again reader deadline
  | RecvError EAGAIN => mret (HTTP_READ_TIMEOUT, reader, None)
  | RecvError _ => mret (HTTP_READ_IO_ERROR, reader, None)
  | RecvEof | RecvData [] => mret (HTTP_READ_CLIENT_CLOSED, clear_reader reader, None)
  | RecvData bs =>
      let grown :=
        {| rd_data := rd_data reader; rd_bytes := rd_bytes reader ++ bs;
           rd_capacity := rd_capacity reader |} in
      match deadline with
      | Some d => again grown deadline
      | None =>
          now ← clock_gettime;
          match now with
          | None => mret (HTTP_READ_IO_ERROR, reader, None)
          | Some t => again grown (Some (add_seconds t request_timeout_sec))
          end
      end
  end.

(** Before it, the wait for the socket. *)
Definition wait_and_recv (reader : http_reader_t) (deadline : option timespec) (space : Z)
  : M world read_result :=
  timeout ← next_timeout deadline keep_alive_timeout_sec;
  match timeout with
  | None => mret (HTTP_READ_TIMEOUT, reader, None)
  | Some timeout_ms =>
      wait_rc ← wait_readable timeout_ms;
      if wait_rc =? 0 then mret (HTTP_READ_TIMEOUT, reader, None)
      else if wait_rc <? 0 then mret (HTTP_READ_IO_ERROR, reader, None)
      else
        n ← recv (Z.to_nat space);
        after_recv reader deadline n
  end.

(** Before that, the room for more bytes. *)
Definition make_room (reader : http_reader_t) (deadline : option timespec)
  : M world read_result :=
  needed ← lift (bytes_needed reader);
  match needed with
  | inl e => mret (e, clear_reader reader, None)
  | inr need =>
      '(ok, reader) ← lift (ensure_capacity reader need);
      if negb ok then
        if HTTP_MAX_MESSAGE_BYTES <? need
        then mret (HTTP_READ_TOO_LARGE, clear_reader reader, None)
        else mret (HTTP_READ_OUT_OF_MEMORY, reader, None)
      else
        let space := rd_capacity reader - rd_length reader in
        if space =? 0 then mret (HTTP_READ_TOO_LARGE, clear_reader reader, None)
        else wait_and_recv reader deadline space
  end.

(** First, the attempt to extract a message. *)
Definition read_round (reader : http_reader_t) (deadline : option timespec)
  : M world read_result :=
  '(ready, message_length) ← lift (try_extract_length reader);
  match ready with
  | HTTP_READ_OK => lift (take_message reader message_length)
  | HTTP_READ_IO_ERROR => make_room reader deadline
  | e => mret (e, clear_reader reader, None)
  end.
End round.

(** The loop: every round that does not return takes at least one answer of
    [poll]. *)
Fixpoint reader_loop (fuel : nat) (keep_alive_timeout_sec request_timeout_sec : Z)
    (reader : http_reader_t) (deadline : option timespec) : M world read_result :=
  match fuel with
  | O => no_return
  | S fuel =>
      read_round keep_alive_timeout_sec request_timeout_sec
        (reader_loop fuel keep_alive_timeout_sec request_timeout_sec) reader deadline
  end.

Definition http_reader_next_request (reader : http_reader_t)
    (keep_alive_timeout_sec request_timeout_sec : Z) : M world read_result :=
  let keep_alive_timeout_sec := if keep_alive_timeout_sec <? 1 then 1 else keep_alive_timeout_sec in
  let request_timeout_sec := if request_timeout_sec <? 1 then 1 else request_timeout_sec in
  let run deadline : M world read_result := fun w =>
    reader_loop (S (length (w_poll w))) keep_alive_timeout_sec request_timeout_sec
      reader deadline w in
  if 0 <? rd_length reader then
    now ← clock_gettime;
    match now with
    | None => mret (HTTP_READ_IO_ERROR, reader, None)
    | Some t => run (Some (add_seconds t request_timeout_sec))
    end
  else run None.

Definition http_read_request : M world (http_read_result_t * option cstr) :=
  '(rc, reader, buffer) ← http_reader_next_request http_reader_init
                            HTTP_READER_ONESHOT_TIMEOUT_SEC HTTP_READER_ONESHOT_TIMEOUT_SEC;
  lift (http_reader_destroy reader);;
  mret (rc, buffer).
