(* ===== verification/Evidence.v ===== *)
(** * What went wrong between two states of the world

    The answers of the operating system that end a wait, a stream or a
    transmission, and the relation that says that one of them was taken between
    two states.  Specifications use it to demand a reason for every exit that is
    not the normal one.  [io_later] says that the scripts were only consumed, so
    that a reason found in a part of a run is one of the whole run. *)
From S2P Require Import Prelude CLib Proc World Reader.

(** ** Answers that end something *)

(** The stream is over: end of file, or an error that is not retried. *)
Definition recv_over (a : recv_answer) : bool :=
  match a with
  | RecvEof | RecvData [] => true
  | RecvError EINTR | RecvError EAGAIN => false
  | RecvError _ => true
  | RecvData _ => false
  end.

Definition recv_quiet (a : recv_answer) : bool :=
  match a with RecvError EAGAIN => true | _ => false end.

Definition poll_over (a : poll_answer) : bool :=
  match a with
  | PollError EINTR => false
  | PollError _ => true
  | PollReady false false => true
  | _ => false
  end.

Definition poll_quiet (a : poll_answer) : bool := match a with PollTimeout => true | _ => false end.

(** Nothing more can be sent: an error that is not retried, or no progress. *)
Definition send_over (a : send_answer) : bool :=
  match a with SendError EINTR => false | SendError _ => true | SendCount O => true | _ => false end.

(** [sendfile] is not available for this file: fatal once bytes went out, and
    otherwise the reason to copy by hand. *)
Definition sendfile_refused (a : send_answer) : bool :=
  match a with SendError EINVAL | SendError ENOSYS => true | _ => false end.

Definition sendfile_some (a : send_answer) : bool :=
  match a with SendCount (S _) => true | _ => false end.

Definition sendfile_over (a : send_answer) : bool := send_over a && negb (sendfile_refused a).

Definition read_over (a : errno + nat) : bool :=
  match a with inl EINTR => false | inl _ => true | inr O => true | inr _ => false end.

(** ** Scripts *)

Definition many {A} (f : A -> bool) (l : list A) : nat := length (List.filter f l).

(** An answer of the kind [f] was taken from the script. *)
Definition taken {A} (f : A -> bool) (l l' : list A) : Prop := (many f l' < many f l)%nat.

Lemma many_app {A} (f : A -> bool) l1 l2 : many f (l1 ++ l2) = (many f l1 + many f l2)%nat.
Proof. unfold many. by rewrite List.filter_app, length_app. Qed.

Lemma many_suffix {A} (f : A -> bool) l l' : l' `suffix_of` l -> (many f l' <= many f l)%nat.
Proof. intros [k ->]. rewrite many_app. lia. Qed.

Lemma taken_head {A} (f : A -> bool) a l : f a = true -> taken f (a :: l) l.
Proof. intros Ha. unfold taken, many. simpl. rewrite Ha. simpl. lia. Qed.

(** The scripts only shrink and the clock only advances. *)
Record io_later (w w' : world) : Prop := {
  io_clock : w_clock w' = w_clock w;
  io_ticks : (w_ticks w <= w_ticks w')%nat;
  io_poll : w_poll w' `suffix_of` w_poll w;
  io_over : (many recv_over (w_recv w') <= many recv_over (w_recv w))%nat;
  io_quiet : (many recv_quiet (w_recv w') <= many recv_quiet (w_recv w))%nat;
  io_send : w_send w' `suffix_of` w_send w;
  io_sendfile : f_sendfile (w_file w') `suffix_of` f_sendfile (w_file w);
  io_read : f_read (w_file w') `suffix_of` f_read (w_file w);
  io_lseek : f_lseek_ok (w_file w') = f_lseek_ok (w_file w);
}.

#[global] Instance io_later_refl : Reflexive io_later.
Proof. intros w. by split. Qed.

#[global] Instance io_later_trans : Transitive io_later.
Proof.
  intros w1 w2 w3 [] []. split; try congruence; try lia; by etrans.
Qed.

Lemma io_later_proc w p : io_later w (set_proc p w).
Proof. by split. Qed.

(** The same scripts. *)
Lemma io_later_same w w' : w_clock w' = w_clock w -> w_ticks w' = w_ticks w -> w_poll w' = w_poll w ->
  w_recv w' = w_recv w -> w_send w' = w_send w -> w_file w' = w_file w -> io_later w w'.
Proof. intros H1 H2 H3 H4 H5 H6. split; by rewrite ?H1, ?H2, ?H3, ?H4, ?H5, ?H6. Qed.

#[export] Hint Resolve io_later_refl io_later_proc : cinder.

(** ** Reasons *)

(** The peer closed the stream, or its socket failed. *)
Definition stream_over (w w' : world) : Prop :=
  taken recv_over (w_recv w) (w_recv w') \/ taken poll_over (w_poll w) (w_poll w').

(** A wait ran out. *)
Definition wait_over (w w' : world) : Prop :=
  taken poll_quiet (w_poll w) (w_poll w') \/ taken recv_quiet (w_recv w) (w_recv w').

Definition clock_over (w w' : world) : Prop :=
  exists k, (w_ticks w <= k < w_ticks w')%nat /\ w_clock w k = None.

(** A reading of the clock was past the deadline; without a deadline, past the
    one that an earlier reading set [rq] seconds ahead. *)
Definition late (rq : Z) (deadline : option timespec) (w w' : world) : Prop :=
  match deadline with
  | Some d => exists k now, (w_ticks w <= k < w_ticks w')%nat /\ w_clock w k = Some now /\
      remaining_ms now d = 0
  | None => exists k0 start k now, (w_ticks w <= k0 < k)%nat /\ (k < w_ticks w')%nat /\
      w_clock w k0 = Some start /\ w_clock w k = Some now /\ remaining_ms now (add_seconds start rq) = 0
  end.

(** A call that sends, or one that reads the file to be sent, failed. *)
Definition sending_over (w w' : world) : Prop :=
  taken send_over (w_send w) (w_send w') \/
  taken sendfile_over (f_sendfile (w_file w)) (f_sendfile (w_file w')) \/
  taken read_over (f_read (w_file w)) (f_read (w_file w')) \/
  taken sendfile_refused (f_sendfile (w_file w)) (f_sendfile (w_file w')) /\
    (taken sendfile_some (f_sendfile (w_file w)) (f_sendfile (w_file w')) \/
     f_lseek_ok (w_file w) = false).

Lemma stream_over_mono w w1 w2 w' : io_later w w1 -> io_later w2 w' ->
  stream_over w1 w2 -> stream_over w w'.
Proof.
  intros [] []. unfold stream_over, taken.
  pose proof (many_suffix poll_over _ _ io_poll0). pose proof (many_suffix poll_over _ _ io_poll1). lia.
Qed.

Lemma wait_over_mono w w1 w2 w' : io_later w w1 -> io_later w2 w' -> wait_over w1 w2 -> wait_over w w'.
Proof.
  intros [] []. unfold wait_over, taken.
  pose proof (many_suffix poll_quiet _ _ io_poll0). pose proof (many_suffix poll_quiet _ _ io_poll1). lia.
Qed.

Lemma clock_over_mono w w1 w2 w' : io_later w w1 -> io_later w2 w' -> clock_over w1 w2 -> clock_over w w'.
Proof. intros [Hc] [] (k & Hk & Hn). exists k. rewrite Hc in Hn. split; [lia|done]. Qed.

Lemma late_mono rq d w w1 w2 w' : io_later w w1 -> io_later w2 w' -> late rq d w1 w2 -> late rq d w w'.
Proof.
  intros [Hc] []. unfold late. rewrite Hc. destruct d as [d|].
  - intros (k & now & Hk & Hn & Hr). exists k, now. split_and!; [lia|lia|done|done].
  - intros (k0 & st & k & now & Hk & Hk' & Hs & Hn & Hr). exists k0, st, k, now. split_and!; [lia|lia|lia|done..].
Qed.

(** The first byte sets the deadline. *)
Lemma late_start rq start w w1 w' : io_later w w1 -> w_ticks w1 = S (w_ticks w) ->
  w_clock w (w_ticks w) = Some start -> late rq (Some (add_seconds start rq)) w1 w' -> late rq None w w'.
Proof.
  intros [Hc] Ht Hs (k & now & Hk & Hn & Hr). exists (w_ticks w), start, k, now.
  rewrite Hc in Hn. split_and!; [lia|lia|lia|done..].
Qed.

Lemma sending_over_mono w w1 w2 w' : io_later w w1 -> io_later w2 w' ->
  sending_over w1 w2 -> sending_over w w'.
Proof.
  intros [] []. unfold sending_over, taken.
  pose proof (fun f => many_suffix f _ _ io_send0). pose proof (fun f => many_suffix f _ _ io_send1) as Hs.
  pose proof (fun f => many_suffix f _ _ io_sendfile0) as F0.
  pose proof (fun f => many_suffix f _ _ io_sendfile1) as F1.
  pose proof (many_suffix read_over _ _ io_read0). pose proof (many_suffix read_over _ _ io_read1).
  rewrite io_lseek0. pose proof (H send_over). pose proof (Hs send_over).
  pose proof (F0 sendfile_over). pose proof (F1 sendfile_over). pose proof (F0 sendfile_refused).
  pose proof (F1 sendfile_refused). pose proof (F0 sendfile_some). pose proof (F1 sendfile_some).
  clear H Hs F0 F1. intuition lia.
Qed.

(** ** Calls *)

Lemma io_later_tick w : io_later w
  {| w_proc := w_proc w; w_clock := w_clock w; w_ticks := S (w_ticks w); w_poll := w_poll w;
     w_recv := w_recv w; w_send := w_send w; w_received := w_received w;
     w_sent := w_sent w; w_polled := w_polled w; w_file := w_file w |}.
Proof. split; simpl; try done. lia. Qed.

Lemma io_later_poll w a rest w' : w_poll w = a :: rest -> w_clock w' = w_clock w ->
  w_ticks w' = w_ticks w -> w_poll w' = rest -> w_recv w' = w_recv w -> w_send w' = w_send w ->
  w_file w' = w_file w -> io_later w w'.
Proof.
  intros H0 H1 H2 H3 H4 H5 H6. split; rewrite ?H1, ?H2, ?H3, ?H4, ?H5, ?H6, ?H0; try done. by exists [a].
Qed.

(** What [recv] takes from its script. *)
Lemma recv_later space w a w' : recv space w = Done a w' ->
  io_later w w' /\
  ((0 < space)%nat -> answer_bytes a = [] ->
   forall f, f a = true -> taken f (w_recv w) (w_recv w')).
Proof.
  unfold recv. destruct (w_recv w) as [|x rest] eqn:Er; [done|].
  destruct x as [e| |bs]; intros H; simplify_eq; simpl.
  - split; [split; simpl; rewrite ?Er; unfold many; simpl; try done; destruct e; simpl; lia|].
    intros _ _ f Hf. by apply taken_head.
  - split; [split; simpl; rewrite ?Er; unfold many; simpl; try done; lia|].
    intros _ _ f Hf. by apply taken_head.
  - destruct (Nat.leb_spec (length bs) space) as [Hl|Hl].
    + split; [split; simpl; rewrite ?Er; unfold many; simpl; try done; destruct bs; simpl; lia|].
      intros _ Hn f Hf. rewrite take_ge in Hf by done. by apply taken_head.
    + split.
      * assert (Hd : drop space bs <> []) by (intros Hd%(f_equal length); rewrite length_drop in Hd; simpl in Hd; lia).
        destruct bs as [|b bs]; [simpl in Hl; lia|].
        split; simpl; rewrite ?Er; try done; unfold many; simpl; by destruct (drop space (b :: bs)).
      * intros Hs Hn. exfalso. apply (f_equal length) in Hn. rewrite length_take in Hn. simpl in Hn. lia.
Qed.
