(* ===== verification/ReaderCorrect.v ===== *)
(** * Correctness of the connection reader

    The buffer invariant, the exact account of the bytes received, the
    justification of every result, and completeness under any segmentation of
    the byte stream. *)
From S2P Require Import Prelude CLib Proc Request Parser ParserSpec ParserRefine Framing.
From S2P Require Import World Reader Evidence.

(** ** Specification *)

(** What [try_extract_length] decides about the buffered bytes. *)
Definition extract_spec (bytes : list byte) : http_read_result_t * nat :=
  match http_find_header_terminator bytes with
  | None =>
      if HTTP_MAX_HEADER_BYTES <=? zlen bytes then (HTTP_READ_TOO_LARGE, 0%nat)
      else (HTTP_READ_IO_ERROR, 0%nat)
  | Some i =>
      if HTTP_MAX_HEADER_BYTES <? Z.of_nat (i + 4) then (HTTP_READ_TOO_LARGE, 0%nat)
      else
        match framing_spec bytes (i + 4) with
        | inl e => (map_framing_error e, 0%nat)
        | inr n =>
            if zlen bytes <? Z.of_nat (i + 4) + n then (HTTP_READ_IO_ERROR, 0%nat)
            else (HTTP_READ_OK, Z.to_nat (Z.of_nat (i + 4) + n))
        end
  end.

(** One complete message: a header section within the limit and exactly the
    body it declares. *)
Definition complete_frame (msg : list byte) : Prop :=
  exists hl n, frame msg hl n /\ zlen msg = Z.of_nat hl + n.

(** The buffer: no more bytes than its capacity, which never exceeds the
    message limit; no capacity without a block. *)
Record reader_inv (r : http_reader_t) : Prop := {
  ri_length : rd_length r <= rd_capacity r;
  ri_capacity : 0 <= rd_capacity r <= HTTP_MAX_MESSAGE_BYTES;
  ri_data : rd_data r = None -> rd_capacity r = 0;
}.

(** ** Extraction *)

Lemma extract_spec_OK bytes n :
  extract_spec bytes = (HTTP_READ_OK, n) <->
  exists hl b, frame bytes hl b /\ Z.of_nat n = Z.of_nat hl + b /\ (n <= length bytes)%nat.
Proof.
  unfold extract_spec, frame. split.
  - destruct (http_find_header_terminator bytes) as [i|] eqn:Ei; [|by case_match].
    case_bool; [done|]. destruct (framing_spec bytes (i + 4)) as [e|b] eqn:Ef.
    { pose proof (framing_spec_error _ _ _ Ef) as [? ?]. by destruct e. }
    case_bool; [done|]. intros [= <-].
    pose proof (framing_spec_range _ _ _ Ef).
    exists (i + 4)%nat, b. split_and!; eauto; [lia|]. unfold zlen in *. lia.
  - intros (hl & b & ((i & -> & ->) & Hm & Hf) & Hn & Hl).
    destruct (Z.ltb_spec HTTP_MAX_HEADER_BYTES (Z.of_nat (i + 4))); [lia|]. rewrite Hf.
    pose proof (framing_spec_range _ _ _ Hf).
    destruct (Z.ltb_spec (zlen bytes) (Z.of_nat (i + 4) + b)); [unfold zlen in *; lia|].
    f_equal. lia.
Qed.

Lemma extract_complete_frame bytes n :
  extract_spec bytes = (HTTP_READ_OK, n) -> complete_frame (take n bytes).
Proof.
  intros (hl & b & Hf & Hn & Hl)%extract_spec_OK.
  pose proof (frame_range _ _ _ Hf). exists hl, b. split.
  - apply frame_take; [done|lia].
  - unfold zlen. rewrite length_take. lia.
Qed.

(** A complete message at the front of a buffer is what is extracted. *)
Lemma extract_frame_app msg rest :
  complete_frame msg -> extract_spec (msg ++ rest) = (HTTP_READ_OK, length msg).
Proof.
  intros (hl & b & Hf & Hl). apply extract_spec_OK. exists hl, b.
  split; [by apply frame_app|]. unfold zlen in Hl. rewrite length_app. lia.
Qed.

(** The other results carry no length, and are never OUT_OF_MEMORY, TIMEOUT or
    CLIENT_CLOSED. *)
Lemma extract_spec_error bytes rc n :
  extract_spec bytes = (rc, n) -> rc <> HTTP_READ_OK ->
  n = 0%nat /\ rc <> HTTP_READ_OUT_OF_MEMORY /\ rc <> HTTP_READ_TIMEOUT /\
  rc <> HTTP_READ_CLIENT_CLOSED.
Proof.
  unfold extract_spec. intros Hx Hrc.
  destruct (http_find_header_terminator bytes); [|by case_match; simplify_eq].
  case_match; [by simplify_eq|]. destruct (framing_spec bytes _) as [e|] eqn:Ef.
  - pose proof (framing_spec_error _ _ _ Ef) as [? ?]. destruct e; by simplify_eq.
  - by case_match; simplify_eq.
Qed.

(** A proper prefix of a complete message asks for more. *)
Lemma extract_prefix a b : complete_frame (a ++ b) -> b <> [] ->
  extract_spec a = (HTTP_READ_IO_ERROR, 0%nat).
Proof.
  intros (hl & n & ((i & Hi & ->) & Hm & Hf) & Hl) Hb.
  rewrite zlen_app in Hl.
  assert (Hbl : 0 < zlen b) by (unfold zlen; destruct b; [done|simpl; lia]).
  pose proof (framing_spec_range _ _ _ Hf) as Hr.
  unfold extract_spec. destruct (http_find_header_terminator a) as [j|] eqn:Ej.
  - pose proof (find_terminator_app _ b _ Ej) as Ej'. rewrite Hi in Ej'. injection Ej' as <-.
    destruct (Z.ltb_spec HTTP_MAX_HEADER_BYTES (Z.of_nat (i + 4))); [lia|].
    rewrite framing_spec_app in Hf.
    + rewrite Hf. destruct (Z.ltb_spec (zlen a) (Z.of_nat (i + 4) + n)); [done|lia].
    + apply find_terminator_Some in Ej as (x & y & -> & <-). rewrite !length_app. simpl. lia.
  - pose proof (find_terminator_None _ _ _ Ej Hi).
    destruct (Z.leb_spec HTTP_MAX_HEADER_BYTES (zlen a)); [unfold zlen in *; lia|done].
Qed.

(** The ledger of a heap-only call from [p] to [p'] that gives up the blocks
    [lost] and gains [gained]. *)
Definition ledger_step (p p' : proc) (lost gained : gmultiset nat) : Prop :=
  heap_only p p' /\ p_live p' ⊎ lost = p_live p ⊎ gained.

Lemma wp_try_extract r p :
  wp (try_extract_length r) (fun res p' => heap_only p p' /\ p_live p' = p_live p /\
    (res = extract_spec (rd_bytes r) \/
     res = (HTTP_READ_OUT_OF_MEMORY, 0%nat) /\ alloc_failed p p')) p.
Proof.
  unfold try_extract_length, rd_length.
  destruct (Z.eqb_spec (zlen (rd_bytes r)) 0) as [H0|H0].
  { apply wp_ret. split_and!; [reflexivity|done|]. left. by destruct (rd_bytes r). }
  unfold extract_spec. destruct (http_find_header_terminator (rd_bytes r)) as [i|] eqn:Ei.
  2: { destruct (HTTP_MAX_HEADER_BYTES <=? _); apply wp_ret; eauto with cinder. }
  destruct (HTTP_MAX_HEADER_BYTES <? _) eqn:Em; [apply wp_ret; eauto with cinder|].
  apply wp_bind. eapply wp_mono; [apply wp_inspect_message_framing|].
  intros fr p1 (Hho & Hl & [Hfr|[-> Hf]]); [|apply wp_ret; by auto].
  rewrite <- Hfr. destruct fr as [e|n]; [apply wp_ret; by auto|].
  pose proof (framing_spec_range _ _ _ (eq_sym Hfr)). bool_simp.
  destruct (Z.ltb_spec (HTTP_MAX_MESSAGE_BYTES - Z.of_nat (i + 4)) n).
  { unfold HTTP_MAX_MESSAGE_BYTES in *. lia. }
  destruct (_ <? _); apply wp_ret; by auto.
Qed.

(** When more bytes are needed, the capacity asked for exceeds the bytes
    buffered and is within the limit. *)
Lemma wp_bytes_needed r p :
  extract_spec (rd_bytes r) = (HTTP_READ_IO_ERROR, 0%nat) ->
  wp (bytes_needed r) (fun res p' => heap_only p p' /\ p_live p' = p_live p /\
    match res with
    | inr need => rd_length r < need <= HTTP_MAX_MESSAGE_BYTES
    | inl e => e = HTTP_READ_OUT_OF_MEMORY /\ alloc_failed p p'
    end) p.
Proof.
  unfold extract_spec, bytes_needed, rd_length. intros Hx.
  pose proof (zlen_nonneg (rd_bytes r)) as Hnn.
  destruct (http_find_header_terminator (rd_bytes r)) as [i|] eqn:Ei.
  - destruct (Z.ltb_spec HTTP_MAX_HEADER_BYTES (Z.of_nat (i + 4))); [done|].
    apply wp_bind. eapply wp_mono; [apply wp_inspect_message_framing|].
    intros fr p1 (Hho & Hl & [Hfr|[-> Hf]]); [|apply wp_ret; by auto].
    rewrite <- Hfr in Hx. destruct fr as [e|n].
    { exfalso. pose proof (framing_spec_error _ _ _ (eq_sym Hfr)) as [? ?]. by destruct e. }
    pose proof (framing_spec_range _ _ _ (eq_sym Hfr)).
    destruct (Z.ltb_spec (HTTP_MAX_MESSAGE_BYTES - Z.of_nat (i + 4)) n).
    { unfold HTTP_MAX_MESSAGE_BYTES in *. lia. }
    apply wp_ret. split_and!; auto; [|lia].
    destruct (Z.ltb_spec (zlen (rd_bytes r)) (Z.of_nat (i + 4) + n)); [done|]. done.
  - destruct (Z.leb_spec HTTP_MAX_HEADER_BYTES (zlen (rd_bytes r))); [done|].
    rewrite wrap64_small by (unfold HTTP_MAX_HEADER_BYTES, HTTP_READER_RECV_CHUNK, SIZE_MAX in *; lia).
    destruct (Z.ltb_spec HTTP_MAX_HEADER_BYTES (zlen (rd_bytes r) + HTTP_READER_RECV_CHUNK)).
    + destruct (Z.leb_spec HTTP_MAX_HEADER_BYTES (zlen (rd_bytes r))); [lia|].
      apply wp_ret. split_and!; auto with cinder. unfold HTTP_MAX_MESSAGE_BYTES, HTTP_MAX_BODY_SIZE. lia.
    + destruct (Z.leb_spec (zlen (rd_bytes r) + HTTP_READER_RECV_CHUNK) (zlen (rd_bytes r))).
      { unfold HTTP_READER_RECV_CHUNK in *. lia. }
      apply wp_ret. split_and!; auto with cinder.
      unfold HTTP_MAX_MESSAGE_BYTES, HTTP_MAX_BODY_SIZE. lia.
Qed.

(** ** Capacity *)

(** The doubling loop reaches the size asked for, within the limit. *)
Lemma grow_capacity_spec fuel : forall cap needed,
  0 < cap <= HTTP_MAX_MESSAGE_BYTES -> needed <= HTTP_MAX_MESSAGE_BYTES ->
  needed <= cap * 2 ^ Z.of_nat fuel ->
  exists c, grow_capacity (S fuel) cap needed = Some c /\ needed <= c <= HTTP_MAX_MESSAGE_BYTES.
Proof.
  induction fuel as [|fuel IH]; intros cap needed Hc Hn Hp.
  - simpl in Hp. cbn [grow_capacity]. destruct (Z.ltb_spec cap needed); [lia|]. eauto with lia.
  - cbn [grow_capacity]. destruct (Z.ltb_spec cap needed); [|by eauto with lia].
    destruct (Z.ltb_spec (HTTP_MAX_MESSAGE_BYTES / 2) cap); [by eauto with lia|].
    assert (cap * 2 <= HTTP_MAX_MESSAGE_BYTES).
    { unfold HTTP_MAX_MESSAGE_BYTES, HTTP_MAX_HEADER_BYTES, HTTP_MAX_BODY_SIZE in *.
      change ((32768 + 1024 * 1024) / 2) with 540672 in *. lia. }
    rewrite wrap64_small by (unfold HTTP_MAX_MESSAGE_BYTES, HTTP_MAX_HEADER_BYTES,
      HTTP_MAX_BODY_SIZE, SIZE_MAX in *; lia).
    apply IH; [lia|done|]. rewrite Nat2Z.inj_succ, Z.pow_succ_r in Hp by lia. lia.
Qed.

Lemma wp_ensure_capacity r needed p :
  reader_inv r -> blk (rd_data r) ⊆ p_live p ->
  wp (ensure_capacity r needed) (fun '(ok, r') p' =>
    ledger_step p p' (blk (rd_data r)) (blk (rd_data r')) /\ reader_inv r' /\
    rd_bytes r' = rd_bytes r /\
    if ok then needed <= rd_capacity r'
    else r' = r /\ (HTTP_MAX_MESSAGE_BYTES < needed \/ alloc_failed p p')) p.
Proof.
  intros Hinv Hin. destruct Hinv as [Hlen Hcap Hdata]. unfold ensure_capacity, ledger_step.
  destruct (Z.leb_spec needed (rd_capacity r)).
  { apply wp_ret. split_and!; auto with cinder. by split. }
  destruct (Z.ltb_spec HTTP_MAX_MESSAGE_BYTES needed).
  { apply wp_ret. split_and!; auto with cinder. by split. }
  set (cap0 := if rd_capacity r =? 0 then _ else _).
  assert (Hc0 : 0 < cap0 <= HTTP_MAX_MESSAGE_BYTES).
  { unfold cap0. destruct (Z.eqb_spec (rd_capacity r) 0); [by vm_compute|lia]. }
  destruct (grow_capacity_spec 63 cap0 needed) as (c & -> & Hc); [done|done| |].
  { unfold HTTP_MAX_MESSAGE_BYTES, HTTP_MAX_HEADER_BYTES, HTTP_MAX_BODY_SIZE in *.
    change (2 ^ Z.of_nat 63) with 9223372036854775808. lia. }
  destruct (Z.ltb_spec c needed); [lia|].
  destruct (Z.ltb_spec HTTP_MAX_MESSAGE_BYTES c); [lia|]. cbn [orb].
  apply wp_bind. eapply wp_mono; [by apply wp_realloc|]. intros [b|] p1 [Hho Hl]; apply wp_ret.
  - split_and!; auto; simpl; try lia. split; simpl; [|lia|done]. unfold rd_length in *. simpl. lia.
  - destruct Hl as [Hl Hf]. split_and!; auto; [multiset_solver|]. by split.
Qed.

(** ** The loop *)

(** Between [w] and [w'] the bytes [d] were received, [poll] was called with
    the timeouts [ts], and nothing was sent. *)
Record reads (w w' : world) (d : list byte) (ts : list Z) : Prop := {
  rs_received : w_received w' = w_received w ++ d;
  rs_polled : w_polled w' = w_polled w ++ ts;
  rs_clock : w_clock w' = w_clock w;
  rs_send : w_send w' = w_send w;
  rs_sent : w_sent w' = w_sent w;
  rs_stream : pending w = d ++ pending w';
  rs_file : w_file w' = w_file w;
  rs_later : io_later w w';
}.

Lemma reads_refl w : reads w w [] [].
Proof. split; rewrite ?app_nil_r; auto with cinder. Qed.

Lemma reads_proc w p : reads w (set_proc p w) [] [].
Proof. split; simpl; rewrite ?app_nil_r; auto with cinder. Qed.

Lemma reads_trans w1 w2 w3 d1 d2 t1 t2 :
  reads w1 w2 d1 t1 -> reads w2 w3 d2 t2 -> reads w1 w3 (d1 ++ d2) (t1 ++ t2).
Proof.
  intros [R1 P1 C1 S1 E1 T1] [R2 P2 C2 S2 E2 T2]. split; try congruence; [..|by etrans];
    rewrite ?R2, ?R1, ?P2, ?P1, ?T1, ?T2; by rewrite app_assoc.
Qed.

Lemma wlp_recv space w :
  wlp (recv space) (fun a w' => reads w w' (answer_bytes a) [] /\ w_proc w' = w_proc w /\
    w_poll w' = w_poll w /\ w_ticks w' = w_ticks w /\ (length (answer_bytes a) <= space)%nat /\
    ((0 < space)%nat -> answer_bytes a = [] -> forall f, f a = true -> taken f (w_recv w) (w_recv w'))) w.
Proof.
  unfold wlp. destruct (recv space w) as [a w'| |] eqn:E; [|done|].
  - pose proof (recv_later _ _ _ _ E) as [Hio Ht].
    pose proof (recv_stream _ _ _ _ E) as (d & Hd & Hp & Ha). rewrite Ha in *. subst d. revert E.
    unfold recv. destruct (w_recv w) as [|[e| |bs] rest]; [done|..]; intros E; simplify_eq; simpl in *;
      (split_and!; [split; try exact Hio; simpl; by rewrite ?app_nil_r|done|done|done| |exact Ht]); rewrite ?length_take; lia.
  - revert E. unfold recv. by destruct (w_recv w) as [|[]].
Qed.

Lemma wp_clock_gettime w :
  wp clock_gettime (fun t w' => t = w_clock w (w_ticks w) /\ reads w w' [] [] /\
    w_proc w' = w_proc w /\ w_poll w' = w_poll w /\ w_recv w' = w_recv w /\
    w_ticks w' = S (w_ticks w)) w.
Proof. split_and!; [done| |done..]. split; simpl; rewrite ?app_nil_r; try done. apply io_later_tick. Qed.

Lemma ledger_step_refl p x : ledger_step p p x x.
Proof. split; [reflexivity|done]. Qed.

Lemma ledger_step_trans p1 p2 p3 x y z :
  ledger_step p1 p2 x y -> ledger_step p2 p3 y z -> ledger_step p1 p3 x z.
Proof. intros [? H1] [? H2]. split; [by etrans|]. multiset_solver. Qed.

Lemma ledger_step_live p p' x y : ledger_step p p' x y -> x ⊆ p_live p -> y ⊆ p_live p'.
Proof. intros [_ H1] H2. multiset_solver. Qed.

#[export] Hint Resolve reads_refl reads_proc ledger_step_refl : cinder.

(** A wait is an [int] and not negative; it is zero only if the keep-alive timeout
    in milliseconds wraps around to it. *)
Definition wait_ok (ka t : Z) : Prop := 0 <= t <= INT_MAX /\ (t = 0 -> wrap32 (ka * 1000) = 0).

(** What a call of the reader promises, from the reader [r] and the world [w]:
    the buffer invariant, the exact ledger, an account of every byte received,
    and the reason for the result.  [deadline] is that of a request already begun. *)
Definition reader_post (r : http_reader_t) (deadline : option timespec) (w : world) (ka rq : Z)
    (res : read_result) (w' : world) : Prop :=
  let '(rc, r', raw) := res in
  exists d ts, reads w w' d ts /\ Forall (wait_ok ka) ts /\
    ledger_step (w_proc w) (w_proc w') (blk (rd_data r)) (blk (rd_data r') ⊎ blk_str raw) /\
    reader_inv r' /\
    match rc with
    | HTTP_READ_OK =>
        exists b msg, raw = Some (CStr (Some b) msg) /\ complete_frame msg /\
          rd_bytes r ++ d = msg ++ rd_bytes r'
    | HTTP_READ_TIMEOUT =>
        raw = None /\ rd_bytes r' = rd_bytes r ++ d /\
        extract_spec (rd_bytes r') = (HTTP_READ_IO_ERROR, 0%nat) /\
        (wait_over w w' \/ (deadline = None -> rd_bytes r ++ d <> []) /\ late rq deadline w w')
    | HTTP_READ_CLIENT_CLOSED =>
        raw = None /\ rd_bytes r' = [] /\
        extract_spec (rd_bytes r ++ d) = (HTTP_READ_IO_ERROR, 0%nat) /\ stream_over w w'
    | HTTP_READ_IO_ERROR => raw = None /\ rd_bytes r' `prefix_of` rd_bytes r ++ d /\
        (clock_over w w' \/
         stream_over w w' /\ rd_bytes r' = rd_bytes r ++ d /\
           extract_spec (rd_bytes r') = (HTTP_READ_IO_ERROR, 0%nat))
    | HTTP_READ_OUT_OF_MEMORY => raw = None /\ alloc_failed (w_proc w) (w_proc w')
    | _ => raw = None /\ rd_bytes r' = [] /\ extract_spec (rd_bytes r ++ d) = (rc, 0%nat)
    end.

(** The deadline of a request that begins after a step: the first byte sets it. *)
Definition deadline_step (rq : Z) (deadline deadline1 : option timespec) (w w1 : world)
    (bytes : list byte) : Prop :=
  deadline1 = deadline \/
  deadline = None /\ bytes <> [] /\ exists w0 start, io_later w w0 /\ io_later w0 w1 /\
    w_ticks w1 = S (w_ticks w0) /\ w_clock w0 (w_ticks w0) = Some start /\
    deadline1 = Some (add_seconds start rq).

Lemma late_step rq deadline deadline1 w w1 w' bytes more : io_later w w1 ->
  deadline_step rq deadline deadline1 w w1 bytes ->
  (deadline1 = None -> bytes ++ more <> []) /\ late rq deadline1 w1 w' ->
  (deadline = None -> bytes ++ more <> []) /\ late rq deadline w w'.
Proof.
  intros Hio [->|(-> & Hb & w0 & start & H0 & H1 & Ht & Hs & ->)] [Hn Hl].
  - split; [done|]. by eapply late_mono; [exact Hio|reflexivity|].
  - split; [by destruct bytes|]. eapply late_mono; [exact H0|reflexivity|].
    by eapply late_start.
Qed.

(** A step in front of a run of the reader. *)
Lemma reader_post_step r deadline w r1 deadline1 w1 d ts ka rq res w' :
  reads w w1 d ts -> Forall (wait_ok ka) ts ->
  ledger_step (w_proc w) (w_proc w1) (blk (rd_data r)) (blk (rd_data r1)) ->
  rd_bytes r1 = rd_bytes r ++ d -> deadline_step rq deadline deadline1 w w1 (rd_bytes r ++ d) ->
  reader_post r1 deadline1 w1 ka rq res w' -> reader_post r deadline w ka rq res w'.
Proof.
  destruct res as [[rc r'] raw]. intros Hr Ht Hl Hb Hdl (d2 & ts2 & Hr2 & Ht2 & Hl2 & Hinv & Hm).
  pose proof (rs_later _ _ _ _ Hr) as Hio.
  exists (d ++ d2), (ts ++ ts2). split_and!; [by eapply reads_trans|by apply Forall_app|
    by eapply ledger_step_trans|done|].
  rewrite Hb in Hm. destruct rc; rewrite ?app_assoc; try done.
  - destruct Hm as (? & ? & ? & ?). split_and!; try done. by eapply stream_over_mono; [exact Hio|reflexivity|].
  - destruct Hm as (? & ? & ? & Hwhy). split_and!; try done. destruct Hwhy as [?|Hwhy].
    + left. by eapply wait_over_mono; [exact Hio|reflexivity|].
    + right. by eapply late_step.
  - destruct Hm as (? & ? & Hwhy). split_and!; try done. destruct Hwhy as [?|(? & ? & ?)].
    + left. by eapply clock_over_mono; [exact Hio|reflexivity|].
    + right. split_and!; try done. by eapply stream_over_mono; [exact Hio|reflexivity|].
  - destruct Hm as [? ?]. split; [done|]. eapply alloc_failed_r; [apply Hl|done].
Qed.

Lemma clear_reader_inv r : reader_inv r -> reader_inv (clear_reader r).
Proof.
  intros [Hl Hc Hd]. split; simpl; [unfold rd_length, zlen; simpl; lia|done|done].
Qed.

(** ** Timeouts *)

Definition nanoseconds (t : timespec) : Z := tv_sec t * 1000000000 + tv_nsec t.

(** The wait is never negative, never longer than the time left, and fits an
    [int]. *)
Lemma remaining_ms_bounds now deadline :
  0 <= tv_nsec now < 1000000000 -> 0 <= tv_nsec deadline < 1000000000 ->
  0 <= remaining_ms now deadline <= 1000999 /\
  (0 < remaining_ms now deadline ->
   nanoseconds now + remaining_ms now deadline * 1000000 <= nanoseconds deadline).
Proof.
  intros Hn Hd.
  assert (Htail : forall sec nsec, 0 <= nsec < 1000000000 ->
    let r := if 1000 <? sec then 1000 * 1000
             else let ms := sec * 1000 + Z.quot nsec 1000000 in
                  if ms <=? 0 then 0 else if 2147483647 <? ms then 2147483647 else ms in
    0 <= r <= 1000999 /\ (0 < r -> r * 1000000 <= sec * 1000000000 + nsec)).
  { intros sec nsec Hns. cbv zeta. rewrite Z.quot_div_nonneg by lia.
    pose proof (Z.div_mod nsec 1000000). pose proof (Z.mod_pos_bound nsec 1000000).
    destruct (Z.ltb_spec 1000 sec); [lia|].
    destruct (Z.leb_spec (sec * 1000 + nsec / 1000000) 0); [lia|].
    destruct (Z.ltb_spec 2147483647 (sec * 1000 + nsec / 1000000)); lia. }
  unfold remaining_ms, nanoseconds. destruct (negb _); [lia|].
  destruct (Z.ltb_spec (tv_nsec deadline - tv_nsec now) 0).
  - specialize (Htail (tv_sec deadline - tv_sec now - 1)
      (tv_nsec deadline - tv_nsec now + 1000000000) ltac:(lia)). cbv zeta in *. lia.
  - specialize (Htail (tv_sec deadline - tv_sec now)
      (tv_nsec deadline - tv_nsec now) ltac:(lia)). cbv zeta in *. lia.
Qed.

Lemma remaining_ms_int now deadline : 0 <= remaining_ms now deadline <= INT_MAX.
Proof.
  unfold remaining_ms, INT_MAX. destruct (negb _); [lia|].
  destruct (_ <? 0); cbv zeta; repeat (case_match; bool_simp; try lia).
Qed.

(** Only [poll] was called, at least once, always with the timeout [t]. *)
Definition polls_only (t : Z) (w w' : world) : Prop :=
  (exists n, reads w w' [] (replicate n t)) /\ w_proc w' = w_proc w /\
  w_recv w' = w_recv w /\ (length (w_poll w') < length (w_poll w))%nat.

(** The answer that ended a wait. *)
Definition wait_reason (rc : Z) (w w' : world) : Prop :=
  (rc = 0 -> wait_over w w') /\ (rc < 0 -> stream_over w w').

Lemma wlp_wait_readable_loop fuel t : forall w,
  wlp (wait_readable_loop fuel t) (fun rc w' => polls_only t w w' /\ wait_reason rc w w') w.
Proof.
  induction fuel as [|fuel IH]; intros w; [done|]. cbn [wait_readable_loop].
  apply wlp_bind. unfold wlp at 1, poll. destruct (w_poll w) as [|a rest] eqn:Ep; [done|].
  match goal with |- wlp _ _ ?x => set (w1 := x) end.
  assert (Hio : io_later w w1) by by eapply io_later_poll.
  assert (H1 : reads w w1 [] [t]) by (split; simpl; by rewrite ?app_nil_r).
  assert (Hstop : forall rc : Z, wait_reason rc w w1 ->
    wlp (mret rc) (fun rc w' => polls_only t w w' /\ wait_reason rc w w') w1).
  { intros rc Hrc. apply wlp_ret. split; [|done]. split_and!; [by exists 1%nat|done|done|]. rewrite Ep. simpl. lia. }
  assert (Htaken : forall f, f a = true -> taken f (w_poll w) (w_poll w1)).
  { intros f Hf. rewrite Ep. by apply taken_head. }
  assert (Hagain : wlp (wait_readable_loop fuel t) (fun rc w' => polls_only t w w' /\ wait_reason rc w w') w1).
  { eapply wlp_mono; [apply IH|]. intros rc w' [((n & Hn) & Hp & Hr & Hl) [Hq Ho]]. split; [split_and!; auto|].
    - exists (S n). exact (reads_trans _ _ _ [] [] [t] _ H1 Hn).
    - rewrite Ep. simpl in *. lia.
    - split; intros Hz; [eapply wait_over_mono; [exact Hio|reflexivity|auto]|
        eapply stream_over_mono; [exact Hio|reflexivity|auto]]. }
  destruct a as [[]| |[][]]; try exact Hagain; apply Hstop; split; try lia; intros _;
    solve [left; by apply Htaken|right; by apply Htaken].
Qed.

Lemma idle_timeout_ok ka : wait_ok ka (idle_timeout_ms ka).
Proof.
  unfold wait_ok, idle_timeout_ms, INT_MAX. pose proof (wrap32_range (ka * 1000)) as Hr. unfold INT_MAX in Hr.
  destruct (Z.ltb_spec (wrap32 (ka * 1000)) 0); lia.
Qed.

(** The next wait: the answer [None] means that the deadline has passed. *)
Lemma next_timeout_ok deadline ka rq w :
  wp (next_timeout deadline ka) (fun t w' => reads w w' [] [] /\ w_proc w' = w_proc w /\
    w_poll w' = w_poll w /\ w_recv w' = w_recv w /\
    match t with Some t => wait_ok ka t | None => is_Some deadline /\ late rq deadline w w' end) w.
Proof.
  destruct deadline as [d|]; simpl.
  - unfold remaining_timeout_ms. apply wp_bind, wp_bind. eapply wp_mono; [apply wp_clock_gettime|].
    intros now w1 (-> & Hr & Hp & Hpo & Hrc & Ht). apply wp_ret, wp_ret.
    destruct (w_clock w (w_ticks w)) as [now|] eqn:E; simpl.
    + pose proof (remaining_ms_int now d). unfold wait_ok.
      destruct (Z.eqb_spec (remaining_ms now d) 0); split_and!; eauto; try lia.
      exists (w_ticks w), now. split_and!; [lia|lia|done..].
    + split_and!; eauto; unfold wait_ok, INT_MAX; lia.
  - apply wp_ret. split_and!; auto with cinder. apply idle_timeout_ok.
Qed.

Lemma wp_take_message r deadline w ka rq n :
  reader_inv r -> extract_spec (rd_bytes r) = (HTTP_READ_OK, n) ->
  wp (lift (take_message r n)) (reader_post r deadline w ka rq) w.
Proof.
  intros Hinv Hx. pose proof (extract_complete_frame _ _ Hx) as Hcf.
  apply extract_spec_OK in Hx as (hl & bl & _ & _ & Hn).
  apply wp_lift. unfold take_message. apply wp_bind. eapply wp_mono; [apply wp_malloc|].
  intros [b|] p1 (Hho & Hl & Hf); apply wp_ret; exists [], []; split_and!; auto with cinder.
  - split; [done|]. simpl in *. multiset_solver.
  - destruct Hinv as [H1 H2 H3]. split; simpl; auto.
    unfold rd_length, zlen in *. simpl. rewrite length_drop. lia.
  - exists b, (take n (rd_bytes r)). rewrite app_nil_r. split_and!; auto. simpl.
    by rewrite take_drop.
  - split; [done|]. simpl in *. multiset_solver.
Qed.

(** Stopping without a message, after a wait: the result is justified by the bytes
    seen and by an answer taken. *)
Lemma reader_post_stop r deadline w w1 ts ka rq rc r' :
  reads w w1 [] ts -> Forall (wait_ok ka) ts -> w_proc w1 = w_proc w ->
  reader_inv r' -> rd_data r' = rd_data r ->
  match rc with
  | HTTP_READ_OK | HTTP_READ_OUT_OF_MEMORY => False
  | HTTP_READ_TIMEOUT => rd_bytes r' = rd_bytes r /\
      extract_spec (rd_bytes r) = (HTTP_READ_IO_ERROR, 0%nat) /\
      (wait_over w w1 \/ is_Some deadline /\ late rq deadline w w1)
  | HTTP_READ_CLIENT_CLOSED => rd_bytes r' = [] /\
      extract_spec (rd_bytes r) = (HTTP_READ_IO_ERROR, 0%nat) /\ stream_over w w1
  | HTTP_READ_IO_ERROR => rd_bytes r' = rd_bytes r /\ (clock_over w w1 \/
      stream_over w w1 /\ extract_spec (rd_bytes r) = (HTTP_READ_IO_ERROR, 0%nat))
  | _ => rd_bytes r' = [] /\ extract_spec (rd_bytes r) = (rc, 0%nat)
  end ->
  reader_post r deadline w ka rq (rc, r', None) w1.
Proof.
  intros Hr Hts Hp Hinv Hd Hm. exists [], ts. rewrite app_nil_r. split_and!; auto with cinder.
  - rewrite Hd, Hp. split; [reflexivity|]. simpl. multiset_solver.
  - destruct rc; try done; try (by destruct Hm as [? ?]).
    + destruct Hm as (Hb & Hx & Hwhy). rewrite Hb. split_and!; try done.
      destruct Hwhy as [?|[[d ->] ?]]; [by left|by right].
    + destruct Hm as (Hb & Hwhy). rewrite Hb. split_and!; try done. destruct Hwhy as [?|[? ?]]; [by left|right].
      by split_and!.
Qed.

(** One round, given that the next one keeps the promise. *)
Section round.
  Context (ka rq : Z) (again : http_reader_t -> option timespec -> M world read_result).
  Hypothesis IH : forall r deadline w,
    reader_inv r -> blk (rd_data r) ⊆ p_live (w_proc w) ->
    wlp (again r deadline) (reader_post r deadline w ka rq) w.

(** More bytes, and the next round. *)
Lemma wlp_again_grown r deadline dl bs w w2 :
  reader_inv r -> blk (rd_data r) ⊆ p_live (w_proc w) ->
  reads w w2 bs [] -> w_proc w2 = w_proc w ->
  (length bs <= Z.to_nat (rd_capacity r - rd_length r))%nat ->
  deadline_step rq deadline dl w w2 (rd_bytes r ++ bs) ->
  wlp (again {| rd_data := rd_data r; rd_bytes := rd_bytes r ++ bs;
                rd_capacity := rd_capacity r |} dl) (reader_post r deadline w ka rq) w2.
Proof.
  intros Hinv Hin Hr2 Hp2 Hl2 Hdl. eapply wlp_mono; [apply IH|].
  - destruct Hinv as [H1 H2 H3]. split; simpl; auto.
    unfold rd_length in *. simpl. rewrite zlen_app. unfold zlen in *. lia.
  - by rewrite Hp2.
  - intros res w3. apply (reader_post_step _ _ _ _ _ _ bs []); auto. simpl. rewrite Hp2.
    auto with cinder.
Qed.

Lemma wlp_after_recv r deadline w :
  reader_inv r -> blk (rd_data r) ⊆ p_live (w_proc w) -> rd_length r < rd_capacity r ->
  extract_spec (rd_bytes r) = (HTTP_READ_IO_ERROR, 0%nat) ->
  wlp (n ← recv (Z.to_nat (rd_capacity r - rd_length r)); after_recv rq again r deadline n)
    (reader_post r deadline w ka rq) w.
Proof.
  intros Hinv Hin Hspace Hx. apply wlp_bind. eapply wlp_mono; [apply wlp_recv|].
  intros a w1 (Hr & Hp & _ & _ & Hl & Htaken). specialize (Htaken ltac:(lia)).
  assert (Hover : answer_bytes a = [] -> recv_over a = true -> stream_over w w1).
  { intros Ha Hf. left. by apply Htaken. }
  destruct a as [e| |[|g gs]]; simpl in Hr.
  - destruct e; try (by apply wlp_ret, (reader_post_stop r deadline w w1 []); auto).
    + pose proof (wlp_again_grown r deadline deadline [] w w1 Hinv Hin Hr Hp) as Hgrown.
      destruct r. simpl in *. rewrite app_nil_r in Hgrown. apply Hgrown; [lia|by left].
    + apply wlp_ret, (reader_post_stop r deadline w w1 []); auto. split_and!; [done..|]. left. right. by apply Htaken.
  - apply wlp_ret, (reader_post_stop r deadline w w1 []); auto using clear_reader_inv.
  - apply wlp_ret, (reader_post_stop r deadline w w1 []); auto using clear_reader_inv.
  - unfold after_recv. destruct deadline as [d|]; [apply wlp_again_grown; auto; by left|].
    apply wlp_bind, wp_wlp. eapply wp_mono; [apply wp_clock_gettime|].
    intros t w2 (-> & Hr2 & Hp2 & _ & _ & Ht2).
    pose proof (reads_trans _ _ _ _ _ _ _ Hr Hr2) as Hr3. rewrite !app_nil_r in Hr3.
    destruct (w_clock w1 (w_ticks w1)) as [t|] eqn:Ec.
    + apply wlp_again_grown; auto; [congruence|]. right. split_and!; [done|by intros [_ ?]%app_nil|].
      exists w1, t. split_and!; auto; [apply Hr|apply Hr2].
    + apply wlp_ret. exists (g :: gs), []. split_and!; auto with cinder.
      * rewrite Hp2, Hp. split; [reflexivity|]. simpl. multiset_solver.
      * by apply prefix_app_r.
      * left. exists (w_ticks w1). rewrite <- (rs_clock _ _ _ _ Hr).
        pose proof (io_ticks _ _ (rs_later _ _ _ _ Hr)). split; [lia|done].
Qed.

Lemma wlp_wait_and_recv r deadline w :
  reader_inv r -> blk (rd_data r) ⊆ p_live (w_proc w) -> rd_length r < rd_capacity r ->
  extract_spec (rd_bytes r) = (HTTP_READ_IO_ERROR, 0%nat) ->
  wlp (wait_and_recv ka rq again r deadline (rd_capacity r - rd_length r))
    (reader_post r deadline w ka rq) w.
Proof.
  intros Hinv Hin Hspace Hx. unfold wait_and_recv. apply wlp_bind, wp_wlp.
  eapply wp_mono; [apply (next_timeout_ok deadline ka rq)|]. intros t w1 (Hr1 & Hp1 & _ & _ & Ht).
  destruct t as [t|].
  2: { apply wlp_ret, (reader_post_stop r deadline w w1 []); auto. }
  apply wlp_bind. eapply wlp_mono; [apply wlp_wait_readable_loop|].
  intros rc w2 [((n & Hr2) & Hp2 & _ & _) [Hquiet Hover]].
  assert (Hr : reads w w2 [] (replicate n t)) by exact (reads_trans _ _ _ [] [] [] _ Hr1 Hr2).
  assert (Hts : Forall (wait_ok ka) (replicate n t)) by by apply Forall_replicate.
  assert (Hp : w_proc w2 = w_proc w) by congruence. pose proof (rs_later _ _ _ _ Hr1) as Hio.
  destruct (Z.eqb_spec rc 0).
  { apply wlp_ret, (reader_post_stop r deadline w w2 (replicate n t)); auto. split_and!; [done..|].
    left. eapply wait_over_mono; [exact Hio|reflexivity|auto]. }
  destruct (Z.ltb_spec rc 0).
  { apply wlp_ret, (reader_post_stop r deadline w w2 (replicate n t)); auto. split_and!; [done..|].
    right. split; [|done]. eapply stream_over_mono; [exact Hio|reflexivity|auto]. }
  eapply wlp_mono; [apply wlp_after_recv; auto; by rewrite Hp|].
  intros res w'. eapply (reader_post_step _ _ _ _ _ _ [] (replicate n t)); rewrite ?app_nil_r, ?Hp; auto with cinder.
  by left.
Qed.

(** Heap-only work that keeps the buffer, in front of a run. *)
Lemma reader_post_heap r deadline w p1 res w' :
  heap_only (w_proc w) p1 -> p_live p1 = p_live (w_proc w) ->
  reader_post r deadline (set_proc p1 w) ka rq res w' -> reader_post r deadline w ka rq res w'.
Proof.
  intros Hho Hl. eapply (reader_post_step _ _ _ _ _ _ [] []); rewrite ?app_nil_r; auto with cinder; [|by left].
  split; [done|]. simpl. by rewrite Hl.
Qed.

Lemma reader_post_oom r deadline w p1 r' :
  heap_only (w_proc w) p1 -> p_live p1 = p_live (w_proc w) -> alloc_failed (w_proc w) p1 ->
  reader_inv r' -> rd_data r' = rd_data r ->
  reader_post r deadline w ka rq (HTTP_READ_OUT_OF_MEMORY, r', None) (set_proc p1 w).
Proof.
  intros Hho Hl Hf Hinv Hd. exists [], []. split_and!; auto with cinder.
  rewrite Hd. split; [done|]. simpl. rewrite Hl. multiset_solver.
Qed.

Lemma wlp_make_room r deadline w :
  reader_inv r -> blk (rd_data r) ⊆ p_live (w_proc w) ->
  extract_spec (rd_bytes r) = (HTTP_READ_IO_ERROR, 0%nat) ->
  wlp (make_room ka rq again r deadline) (reader_post r deadline w ka rq) w.
Proof.
  intros Hinv Hin Hx. unfold make_room. apply wlp_bind, wlp_lift.
  eapply wp_mono; [by apply wp_bytes_needed|]. intros [e|need] p1 (Hho1 & Hl1 & Hneed).
  { destruct Hneed as [-> Hf]. apply wlp_ret, reader_post_oom; auto using clear_reader_inv. }
  assert (Hin1 : blk (rd_data r) ⊆ p_live p1) by by rewrite Hl1.
  apply wlp_bind, wlp_lift. eapply wp_mono; [by apply wp_ensure_capacity|].
  intros [ok r1] p2 ([Hho2 Hl2] & Hinv1 & Hb1 & Hok). simpl in Hho2, Hl2.
  assert (Hlen : rd_length r1 = rd_length r) by (unfold rd_length; by rewrite Hb1).
  destruct ok; simpl.
  - destruct (Z.eqb_spec (rd_capacity r1 - rd_length r1) 0) as [|Hne]; [lia|].
    eapply wlp_mono; [apply wlp_wait_and_recv; [done| |lia|by rewrite Hb1]|].
    + simpl. multiset_solver.
    + intros res w'. eapply (reader_post_step _ _ _ _ _ _ [] []); rewrite ?app_nil_r; auto.
      * split; simpl; rewrite ?app_nil_r; try done; by split.
      * split; simpl; [by etrans|]. by rewrite <- Hl1.
      * by left.
  - destruct Hok as [-> Hok]. destruct (Z.ltb_spec HTTP_MAX_MESSAGE_BYTES need); [lia|].
    destruct Hok as [?|Hf]; [lia|]. apply wlp_ret.
    apply (reader_post_heap _ _ _ p1); [done|done|].
    apply (reader_post_oom r _ (set_proc p1 w)); auto. simpl. multiset_solver.
Qed.

Lemma wlp_read_round r deadline w :
  reader_inv r -> blk (rd_data r) ⊆ p_live (w_proc w) ->
  wlp (read_round ka rq again r deadline) (reader_post r deadline w ka rq) w.
Proof.
  intros Hinv Hin. unfold read_round. apply wlp_bind, wlp_lift.
  eapply wp_mono; [apply wp_try_extract|]. intros [ready n] p1 (Hho & Hl & [Hx|[[= -> ->] Hf]]).
  2: { apply wlp_ret, reader_post_oom; auto using clear_reader_inv. }
  assert (Hin1 : blk (rd_data r) ⊆ p_live p1) by by rewrite Hl.
  apply (wlp_mono _ (reader_post r deadline (set_proc p1 w) ka rq));
    [|intros res w'; by apply reader_post_heap].
  destruct (decide (ready = HTTP_READ_OK)) as [->|Hok].
  { by apply wp_wlp, wp_take_message. }
  pose proof (extract_spec_error _ _ _ (eq_sym Hx) Hok) as (-> & Hoom & Ht & Hc).
  destruct ready; try done; [|by apply wlp_make_room|..];
    (apply wlp_ret; eapply (reader_post_stop _ _ _ _ []); auto using clear_reader_inv with cinder).
Qed.
End round.

Lemma wlp_reader_loop fuel ka rq : forall r deadline w,
  reader_inv r -> blk (rd_data r) ⊆ p_live (w_proc w) ->
  wlp (reader_loop fuel ka rq r deadline) (reader_post r deadline w ka rq) w.
Proof.
  induction fuel as [|fuel IH]; intros r deadline w Hinv Hin; [done|].
  by apply wlp_read_round.
Qed.

Lemma wlp_next_request r ka rq w :
  reader_inv r -> blk (rd_data r) ⊆ p_live (w_proc w) ->
  wlp (http_reader_next_request r ka rq) (reader_post r None w (Z.max ka 1) (Z.max rq 1)) w.
Proof.
  intros Hinv Hin. unfold http_reader_next_request.
  replace (if ka <? 1 then 1 else ka) with (Z.max ka 1) by (case_bool; lia).
  replace (if rq <? 1 then 1 else rq) with (Z.max rq 1) by (case_bool; lia).
  destruct (Z.ltb_spec 0 (rd_length r)) as [Hlen|]; [|by apply wlp_reader_loop].
  apply wlp_bind, wp_wlp. eapply wp_mono; [apply wp_clock_gettime|]. intros t w1 (-> & Hr & Hp & _ & _ & Ht).
  destruct (w_clock w (w_ticks w)) as [t|] eqn:Ec.
  - eapply wlp_mono; [apply wlp_reader_loop; [done|by rewrite Hp]|]. intros res w'.
    eapply (reader_post_step _ _ _ _ _ _ [] []); rewrite ?app_nil_r, ?Hp; auto with cinder.
    right. split_and!; [done| |].
    + intros Hn. unfold rd_length in Hlen. by rewrite Hn in Hlen.
    + exists w, t. split_and!; auto with cinder. apply Hr.
  - apply wlp_ret. eapply (reader_post_stop _ _ _ _ []); auto. split; [done|]. left.
    exists (w_ticks w). split; [lia|done].
Qed.
