(* ===== verification/ReaderDeadline.v ===== *)
(** * The deadlines of the reader

    How long http_reader_next_request may wait: before the first byte of a
    request each wait is the keep-alive timeout; from then on each wait is what
    is left, at a fresh reading of the clock, of the request timeout after that
    byte, however slowly the rest of the request is sent. *)
From S2P Require Import Prelude CLib Proc Request Parser World Reader ReaderCorrect.

(** What holds of every run that returns. *)
Definition ends {S A} (m : M S A) (Q : A -> S -> Prop) (s : S) : Prop :=
  forall a s', m s = Done a s' -> Q a s'.

Lemma ends_bind {S A B} (m : M S A) (k : A -> M S B) Q s :
  ends m (fun a s' => ends (k a) Q s') s -> ends (m ≫= k) Q s.
Proof.
  intros H b s' Hb. unfold mbind, M_bind in Hb. destruct (m s) as [a s1| |] eqn:E; try done.
  exact (H a s1 E b s' Hb).
Qed.

Lemma ends_ret {S A} (a : A) (Q : A -> S -> Prop) s : Q a s -> ends (mret a) Q s.
Proof. intros H a' s' [= <- <-]. exact H. Qed.

Lemma ends_mono {S A} (m : M S A) (Q R : A -> S -> Prop) s :
  ends m Q s -> (forall a s', Q a s' -> R a s') -> ends m R s.
Proof. intros H HQR a s' Hm. by apply HQR, H. Qed.

(** Between two states the clock was read [n] times, [poll] was called with the
    timeouts [ts] and gave the answers [ans]. *)
Record waits (w w' : world) (n : nat) (ans : list poll_answer) (ts : list Z) : Prop := {
  wa_clock : w_clock w' = w_clock w;
  wa_ticks : w_ticks w' = (w_ticks w + n)%nat;
  wa_poll : w_poll w = ans ++ w_poll w';
  wa_polled : w_polled w' = w_polled w ++ ts;
}.

Lemma waits_refl w : waits w w 0 [] [].
Proof. split; [done|lia|done|by rewrite app_nil_r]. Qed.

Lemma waits_trans w1 w2 w3 n1 n2 a1 a2 ts1 ts2 : waits w1 w2 n1 a1 ts1 -> waits w2 w3 n2 a2 ts2 ->
  waits w1 w3 (n1 + n2) (a1 ++ a2) (ts1 ++ ts2).
Proof.
  intros [H1 H2 H3 H4] [H5 H6 H7 H8].
  split; [congruence|lia|by rewrite H3, H7, app_assoc|by rewrite H8, H4, app_assoc].
Qed.

(** Code on the process resources does not wait. *)
Lemma ends_lift {A} (m : M proc A) w : ends (lift m) (fun _ w' => waits w w' 0 [] []) w.
Proof.
  intros a w' H. unfold lift in H. destruct (m (w_proc w)) as [a' p| |]; simplify_eq.
  split; simpl; [done|lia|done|by rewrite app_nil_r].
Qed.

Lemma ends_recv space w : ends (recv space) (fun _ w' => waits w w' 0 [] []) w.
Proof.
  intros a w' H. unfold recv in H. destruct (w_recv w) as [|x rest]; [done|].
  destruct x; simplify_eq; split; simpl; try done; try lia; by rewrite app_nil_r.
Qed.

Lemma ends_clock w : ends clock_gettime (fun now w' =>
  now = w_clock w (w_ticks w) /\ waits w w' 1 [] []) w.
Proof.
  intros a w' [= <- <-]. split; [done|]. split; simpl; [done|lia|done|by rewrite app_nil_r].
Qed.

(** The answer after which [poll] is called again with the same timeout. *)
Definition restarts (a : poll_answer) : bool := match a with PollError EINTR => true | _ => false end.

(** The answers of one wait: interruptions, and the one that ends it. *)
Definition one_wait (ans : list poll_answer) : Prop :=
  exists rs fin, ans = rs ++ [fin] /\ Forall (fun a => restarts a = true) rs /\ restarts fin = false.

Lemma ends_wait_readable t w : ends (wait_readable t) (fun _ w' => exists ans, one_wait ans /\
  waits w w' 0 ans (replicate (length ans) t)) w.
Proof.
  unfold wait_readable, ends at 1. generalize (S (length (w_poll w))) as fuel. intros fuel. revert w.
  induction fuel as [|fuel IH]; intros w a w' H; [done|]. cbn [wait_readable_loop] in H.
  revert a w' H. apply ends_bind. intros x w1 Hp. unfold poll in Hp. destruct (w_poll w) as [|y rest] eqn:Ep; [done|].
  injection Hp as -> <-. match goal with |- ends _ _ ?u => set (w1 := u) end.
  assert (H1 : waits w w1 0 [x] [t]) by (split; simpl; [done|lia|done|done]).
  assert (Hagain : restarts x = true -> ends (wait_readable_loop fuel t) (fun _ w' => exists ans,
    one_wait ans /\ waits w w' 0 ans (replicate (length ans) t)) w1).
  { intros Hx a w' H. destruct (IH w1 a w' H) as (ans & (rs & fin & -> & Hrs & Hfin) & Hw).
    exists (x :: rs ++ [fin]). split; [exists (x :: rs), fin; split_and!; [done|by constructor|done]|].
    exact (waits_trans _ _ _ 0 0 [x] _ [t] _ H1 Hw). }
  assert (Hstop : forall rc, restarts x = false -> ends (mret rc : M world Z) (fun _ w' => exists ans,
    one_wait ans /\ waits w w' 0 ans (replicate (length ans) t)) w1).
  { intros rc Hx. apply ends_ret. exists [x]. split; [|exact H1]. exists [], x. by split_and!. }
  destruct x as [[]| |[][]]; try (by apply Hstop). by apply Hagain.
Qed.

(** ** What is left at a reading *)

(** The timeout computed from the reading [k]: what is left of the deadline, or one
    second when the clock fails. *)
Definition wait_at (clock : nat -> option timespec) (d : timespec) (k : nat) : Z :=
  match clock k with Some now => remaining_ms now d | None => 1000 end.

(** The timeouts of successive calls of [poll] that gave the answers [ans], when the
    clock is read anew before each wait, first as the reading [k]; only an
    interruption repeats a timeout. *)
Fixpoint deadline_waits (wait : nat -> Z) (k : nat) (ans : list poll_answer) : list Z :=
  match ans with
  | [] => []
  | a :: rest => wait k :: deadline_waits wait (if restarts a then k else S k) rest
  end.

Lemma deadline_waits_one wait k ans rest : one_wait ans ->
  deadline_waits wait k (ans ++ rest) = replicate (length ans) (wait k) ++ deadline_waits wait (S k) rest.
Proof.
  intros (rs & fin & -> & Hrs & Hfin). rewrite <- app_assoc.
  induction Hrs as [|a rs Ha _ IH]; simpl; [by rewrite Hfin|]. rewrite Ha. f_equal. exact IH.
Qed.

(** ** Rounds *)

(** The waits of a run that starts with the deadline [d]. *)
Definition timed (d : timespec) (w w' : world) : Prop :=
  exists n ans ts, waits w w' n ans ts /\
    ts = deadline_waits (wait_at (w_clock w) d) (w_ticks w) ans /\ Forall (fun t => 0 < t) ts.

Lemma timed_stop d w w' n : waits w w' n [] [] -> timed d w w'.
Proof. intros H. exists n, [], []. by split_and!. Qed.

Lemma timed_after d w w1 w' : waits w w1 0 [] [] -> timed d w1 w' -> timed d w w'.
Proof.
  intros H (n & ans & ts & Hw & Hts & Hp). exists n, ans, ts. destruct H as [Hc Ht Hpo Hpl].
  split_and!; [exact (waits_trans _ _ _ 0 _ [] _ [] _ (Build_waits _ _ _ _ _ Hc Ht Hpo Hpl) Hw)| |done].
  rewrite Hts, Hc, Ht. by rewrite Nat.add_0_r.
Qed.

(** A reading, a wait with what is left, and the rest. *)
Lemma timed_round d w w1 w2 w' ans t : waits w w1 1 [] [] -> t = wait_at (w_clock w) d (w_ticks w) -> 0 < t ->
  one_wait ans -> waits w1 w2 0 ans (replicate (length ans) t) -> timed d w2 w' -> timed d w w'.
Proof.
  intros H1 -> Hpos Ha H2 (n & ans' & ts & H3 & Hts & Hp).
  exists (1 + n)%nat, (ans ++ ans'), (replicate (length ans) (wait_at (w_clock w) d (w_ticks w)) ++ ts).
  pose proof (waits_trans _ _ _ _ _ _ _ _ _ H1 H2) as H12.
  split_and!; [exact (waits_trans _ _ _ _ _ _ _ _ _ H12 H3)| |apply Forall_app; split; [by apply Forall_replicate|done]].
  rewrite deadline_waits_one by done. rewrite Hts, (wa_clock _ _ _ _ _ H12), (wa_ticks _ _ _ _ _ H12).
  by replace (w_ticks w + (1 + 0))%nat with (S (w_ticks w)) by lia.
Qed.

(** The waits of a run that starts without a deadline: idle ones, without a reading of
    the clock, then those of a deadline [rq] seconds after the first reading. *)
Definition idle_then_timed (ka rq : Z) (w w' : world) : Prop :=
  exists idle w1, waits w w1 0 idle (map (fun _ => idle_timeout_ms ka) idle) /\
    ((exists n, waits w1 w' n [] []) \/
     exists w2 start, waits w1 w2 1 [] [] /\ w_clock w (w_ticks w) = Some start /\
       timed (add_seconds start rq) w2 w').

Definition round_waits (ka rq : Z) (deadline : option timespec) (w w' : world) : Prop :=
  match deadline with Some d => timed d w w' | None => idle_then_timed ka rq w w' end.

Lemma idle_after ka rq w w1 w' idle :
  waits w w1 0 idle (map (fun _ => idle_timeout_ms ka) idle) -> idle_then_timed ka rq w1 w' ->
  idle_then_timed ka rq w w'.
Proof.
  intros H (idle2 & w2 & Hw & Hend). exists (idle ++ idle2), w2. rewrite map_app.
  split; [exact (waits_trans _ _ _ 0 0 _ _ _ _ H Hw)|].
  destruct Hend as [He|(w3 & start & H3 & Hc & Ht)]; [by left|right]. exists w3, start.
  rewrite (wa_clock _ _ _ _ _ H), (wa_ticks _ _ _ _ _ H), Nat.add_0_r in Hc. by split_and!.
Qed.

Lemma round_waits_after ka rq deadline w w1 w' : waits w w1 0 [] [] ->
  round_waits ka rq deadline w1 w' -> round_waits ka rq deadline w w'.
Proof. destruct deadline as [d|]; simpl; [apply timed_after|apply (idle_after ka rq w w1 w' [])]. Qed.

Lemma round_waits_stop ka rq deadline w w' n : waits w w' n [] [] -> round_waits ka rq deadline w w'.
Proof.
  intros H. destruct deadline as [d|]; simpl; [by eapply timed_stop|].
  exists [], w. split; [apply waits_refl|]. left. by exists n.
Qed.

Section rounds.
  Context (ka rq : Z) (again : http_reader_t -> option timespec -> M world read_result).
  Context (Hagain : forall r deadline w,
    ends (again r deadline) (fun _ w' => round_waits ka rq deadline w w') w).

Lemma ends_after_recv r deadline n w :
  ends (after_recv rq again r deadline n) (fun _ w' => round_waits ka rq deadline w w') w.
Proof.
  assert (Hstop : forall res, ends (mret res) (fun (_ : read_result) w' => round_waits ka rq deadline w w') w).
  { intros res. eapply ends_ret, round_waits_stop, waits_refl. }
  destruct n as [[]| |[|b bs]]; simpl; try apply Hstop; try apply Hagain.
  destruct deadline as [d|]; [apply Hagain|].
  apply ends_bind. eapply ends_mono; [apply ends_clock|]. intros now w1 [-> Hw].
  destruct (w_clock w (w_ticks w)) as [t|] eqn:E.
  - eapply ends_mono; [apply Hagain|]. intros ? w' Ht. simpl in Ht.
    exists [], w. split; [apply waits_refl|]. right. by exists w1, t.
  - apply ends_ret. by apply (round_waits_stop ka rq None w w1 1).
Qed.

Lemma ends_wait_timed r d space w :
  ends (wait_and_recv ka rq again r (Some d) space) (fun _ w' => timed d w w') w.
Proof.
  unfold wait_and_recv, next_timeout, remaining_timeout_ms. do 3 apply ends_bind.
  eapply ends_mono; [apply ends_clock|]. intros now w1 [-> H1]. apply ends_ret, ends_ret.
  fold (wait_at (w_clock w) d (w_ticks w)).
  destruct (Z.eqb_spec (wait_at (w_clock w) d (w_ticks w)) 0) as [|Hne].
  { apply ends_ret. by eapply timed_stop. }
  assert (Hpos : 0 < wait_at (w_clock w) d (w_ticks w)).
  { unfold wait_at in *. destruct (w_clock w (w_ticks w)) as [now|]; [|lia].
    pose proof (remaining_ms_int now d). lia. }
  apply ends_bind. eapply ends_mono; [apply ends_wait_readable|]. intros rc w2 (ans & Ha & H2).
  assert (Hend : forall (m : M world read_result), ends m (fun _ w' => timed d w2 w') w2 ->
    ends m (fun _ w' => timed d w w') w2).
  { intros m Hm. eapply ends_mono; [exact Hm|]. intros ? w' Hw. by eapply timed_round. }
  assert (Hstop : forall res : read_result, ends (mret res) (fun _ w' => timed d w w') w2).
  { intros res. eapply Hend, ends_ret, timed_stop, waits_refl. }
  destruct (rc =? 0); [apply Hstop|]. destruct (rc <? 0); [apply Hstop|]. apply Hend.
  apply ends_bind. eapply ends_mono; [apply ends_recv|]. intros x w3 H3.
  eapply ends_mono; [apply (ends_after_recv _ (Some d))|]. intros ? w' Hw.
  by apply (timed_after d w2 w3).
Qed.

Lemma ends_wait_idle r space w :
  ends (wait_and_recv ka rq again r None space) (fun _ w' => idle_then_timed ka rq w w') w.
Proof.
  unfold wait_and_recv. apply ends_bind. simpl. apply ends_ret.
  apply ends_bind. eapply ends_mono; [apply ends_wait_readable|]. intros rc w2 (ans & _ & H2).
  assert (Hidle : forall w', idle_then_timed ka rq w2 w' -> idle_then_timed ka rq w w').
  { intros w'. apply (idle_after ka rq w w2 w' ans).
    replace (map _ ans) with (replicate (length ans) (idle_timeout_ms ka)); [done|].
    clear. induction ans as [|a ans IH]; [done|]. simpl. by rewrite IH. }
  assert (Hstop : forall res, ends (mret res) (fun (_ : read_result) w' => idle_then_timed ka rq w w') w2).
  { intros res. eapply ends_ret, Hidle, (round_waits_stop ka rq None), waits_refl. }
  destruct (rc =? 0); [apply Hstop|]. destruct (rc <? 0); [apply Hstop|].
  apply ends_bind. eapply ends_mono; [apply ends_recv|]. intros x w3 H3.
  eapply ends_mono; [apply (ends_after_recv _ None)|]. intros ? w' Hw. apply Hidle.
  by apply (round_waits_after ka rq None w2 w3).
Qed.

Lemma ends_read_round r deadline w :
  ends (read_round ka rq again r deadline) (fun _ w' => round_waits ka rq deadline w w') w.
Proof.
  assert (Hlift : forall {A} (m : M proc A) (k : A -> M world read_result) w0,
    (forall a w1, ends (k a) (fun _ w' => round_waits ka rq deadline w1 w') w1) ->
    ends (lift m ≫= k) (fun _ w' => round_waits ka rq deadline w0 w') w0).
  { intros A m k w0 Hk. apply ends_bind. eapply ends_mono; [apply ends_lift|]. intros a w1 H1.
    eapply ends_mono; [apply Hk|]. intros ? w'. by apply round_waits_after. }
  assert (Hstop : forall res w0, ends (mret res) (fun (_ : read_result) w' => round_waits ka rq deadline w0 w') w0).
  { intros res w0. eapply ends_ret, round_waits_stop, waits_refl. }
  unfold read_round. apply Hlift. intros [ready n] w1.
  assert (Hroom : ends (make_room ka rq again r deadline) (fun _ w' => round_waits ka rq deadline w1 w') w1).
  { unfold make_room. apply Hlift. intros [e|need] w2; [apply Hstop|]. apply Hlift. intros [ok r'] w3.
    destruct (negb ok); [case_match; apply Hstop|]. case_match; [apply Hstop|].
    destruct deadline as [d|]; [apply ends_wait_timed|apply ends_wait_idle]. }
  destruct ready; try apply Hstop; [|exact Hroom].
  eapply ends_mono; [apply ends_lift|]. intros ? w'. apply round_waits_stop.
Qed.
End rounds.

Lemma ends_reader_loop ka rq : forall fuel r deadline w,
  ends (reader_loop fuel ka rq r deadline) (fun _ w' => round_waits ka rq deadline w w') w.
Proof.
  intros fuel. induction fuel as [|fuel IH]; intros r deadline w; [done|].
  cbn [reader_loop]. by apply ends_read_round.
Qed.

(** ** The theorem *)

Definition clock_well_formed (w : world) : Prop :=
  forall k t, w_clock w k = Some t -> 0 <= tv_nsec t < 1000000000.

(** The configured idle wait, when it fits an [int]. *)
Lemma idle_timeout_exact ka : 1 <= ka -> ka * 1000 <= INT_MAX -> idle_timeout_ms ka = ka * 1000.
Proof.
  intros H1 H2. unfold idle_timeout_ms. rewrite wrap32_small by (unfold INT_MAX in *; lia).
  destruct (Z.ltb_spec (ka * 1000) 0); lia.
Qed.

(** The reader called with the deadline of the reading [w_ticks w], or without one. *)
Definition deadline_post (ka rq : Z) (idle : list poll_answer) (w w' : world) : Prop :=
  exists answers start,
    w_poll w = idle ++ answers ++ w_poll w' /\
    (answers <> [] -> w_clock w (w_ticks w) = Some start) /\
    w_polled w' = w_polled w ++ map (fun _ => idle_timeout_ms ka) idle ++
      deadline_waits (wait_at (w_clock w) (add_seconds start rq)) (S (w_ticks w)) answers /\
    Forall (fun t => 0 < t) (deadline_waits (wait_at (w_clock w) (add_seconds start rq)) (S (w_ticks w)) answers).

Lemma timed_deadline_post ka rq idle w w1 w2 w' start :
  waits w w1 0 idle (map (fun _ => idle_timeout_ms ka) idle) -> waits w1 w2 1 [] [] ->
  w_clock w (w_ticks w) = Some start -> timed (add_seconds start rq) w2 w' -> deadline_post ka rq idle w w'.
Proof.
  intros H1 H2 Hc (n & ans & ts & H3 & -> & Hp). exists ans, start.
  pose proof (waits_trans _ _ _ _ _ _ _ _ _ H1 H2) as H12. rewrite !app_nil_r in H12.
  pose proof (waits_trans _ _ _ _ _ _ _ _ _ H12 H3) as [_ _ Hpo Hpl].
  rewrite (wa_clock _ _ _ _ _ H12), (wa_ticks _ _ _ _ _ H12) in *.
  replace (w_ticks w + (0 + 1))%nat with (S (w_ticks w)) in * by lia.
  split_and!; [by rewrite Hpo, <- app_assoc|done|done|done].
Qed.

Lemma no_wait_deadline_post ka rq w w' n idle :
  waits w w' n idle (map (fun _ => idle_timeout_ms ka) idle) -> deadline_post ka rq idle w w'.
Proof.
  intros [_ _ Hpo Hpl]. exists [], (Timespec 0 0). split_and!; [done|done|by rewrite app_nil_r|constructor].
Qed.


(** An interrupted wait is restarted with the full timeout and without a new
    reading of the clock, so [n] signals in time make it [n + 1] times as long. *)
Theorem interrupted_wait_restarts n t w : w_poll w = replicate n (PollError EINTR) ++ [PollTimeout] ->
  exists w', wait_readable t w = Done 0 w' /\ w_polled w' = w_polled w ++ replicate (S n) t /\
    w_ticks w' = w_ticks w.
Proof.
  unfold wait_readable. intros Hp.
  assert (Hfuel : (n < S (length (w_poll w)))%nat) by (rewrite Hp, length_app, length_replicate; simpl; lia).
  revert Hfuel. generalize (S (length (w_poll w))) as fuel. revert w Hp.
  induction n as [|n IH]; intros w Hp [|fuel] Hfuel; try lia; cbn [wait_readable_loop];
    unfold mbind, M_bind, poll; rewrite Hp; cbn [replicate app].
  - eexists. split; [reflexivity|]. done.
  - match goal with |- context [wait_readable_loop fuel t ?u] => destruct (IH u eq_refl fuel) as (w' & -> & H1 & H2) end;
      [lia|]. exists w'. split_and!; [done| |exact H2]. rewrite H1. simpl. by rewrite <- app_assoc.
Qed.

(** A client that sends a byte or two a second: the deadline stays. *)
Definition slow_world : world :=
  {| w_proc := fresh_proc (fun _ => true); w_clock := fun k => Some (Timespec (10 + Z.of_nat k) 0);
     w_ticks := 0; w_poll := [PollReady false true; PollError EINTR; PollReady false true; PollTimeout];
     w_recv := [RecvData (lit "GE"); RecvData (lit "T")];
     w_send := []; w_received := []; w_sent := []; w_polled := []; w_file := no_files |}.

