(* ===== verification/ReaderLive.v ===== *)
(** * The reader returns what the stream carries

    The fuel of the loop is enough, and on a socket that keeps delivering the
    reader returns the messages of the stream one by one, whatever the
    segmentation of the bytes into [recv] results.  Then the theorems about the
    reader as a whole. *)
From S2P Require Import Prelude CLib Proc Request Parser ParserSpec ParserRefine Framing.
From S2P Require Import World Reader ReaderCorrect.

(** ** Fuel *)

Lemma bind_ext {S A B} (m : M S A) (k1 k2 : A -> M S B) s :
  (forall a s', m s = Done a s' -> k1 a s' = k2 a s') -> (m ≫= k1) s = (m ≫= k2) s.
Proof. unfold mbind, M_bind. destruct (m s); auto. Qed.

Lemma lift_Done {A} (m : M proc A) w a w' :
  lift m w = Done a w' -> exists p, w' = set_proc p w.
Proof. unfold lift. destruct (m (w_proc w)); intros [=]. eauto. Qed.

Lemma wlp_elim {S A} (m : M S A) Q s a s' : wlp m Q s -> m s = Done a s' -> Q a s'.
Proof. unfold wlp. intros H E. by rewrite E in H. Qed.

Lemma wp_elim {S A} (m : M S A) Q s a s' : wp m Q s -> m s = Done a s' -> Q a s'.
Proof. unfold wp. intros H E. by rewrite E in H. Qed.

(** A round calls the next one only after an answer of [poll]. *)
Lemma read_round_ext ka rq again1 again2 r deadline w :
  (forall r' dl w', (length (w_poll w') < length (w_poll w))%nat ->
     again1 r' dl w' = again2 r' dl w') ->
  read_round ka rq again1 r deadline w = read_round ka rq again2 r deadline w.
Proof.
  intros Hext. unfold read_round. apply bind_ext.
  intros [ready n] w1 (p1 & ->)%lift_Done. destruct ready; try done.
  unfold make_room. apply bind_ext. intros [e|need] w2 (p2 & ->)%lift_Done; [done|].
  apply bind_ext. intros [ok r1] w3 (p3 & ->)%lift_Done.
  destruct ok; simpl; [|done]. destruct (_ =? 0); [done|].
  unfold wait_and_recv. apply bind_ext. intros t w4 Ht.
  assert (Hp4 : w_poll w4 = w_poll w).
  { revert Ht. destruct deadline as [d|]; simpl; [|by intros [= _ <-]].
    unfold remaining_timeout_ms, mbind, M_bind, clock_gettime. simpl. by intros [= _ <-]. }
  destruct t as [t|]; [|done]. apply bind_ext. intros rc w5 Hw5.
  apply (wlp_elim _ _ _ _ _ (wlp_wait_readable_loop _ t w4)) in Hw5 as [(_ & _ & _ & Hlt) _].
  destruct (rc =? 0); [done|]. destruct (rc <? 0); [done|].
  apply bind_ext. intros a w6 Hw6.
  apply (wlp_elim _ _ _ _ _ (wlp_recv _ w5)) in Hw6 as (_ & _ & Hp6 & _).
  assert (Hlt6 : (length (w_poll w6) < length (w_poll w))%nat) by (rewrite Hp6, <- Hp4; done).
  destruct a as [[]| |[]]; simpl; auto. destruct deadline; auto.
  apply bind_ext. intros t' w7 Hw7. destruct t'; [|done]. apply Hext.
  apply (wp_elim _ _ _ _ _ (wp_clock_gettime w6)) in Hw7 as (_ & _ & _ & -> & _). done.
Qed.

Lemma reader_loop_fuel ka rq : forall n m r deadline w,
  (length (w_poll w) < n)%nat -> (length (w_poll w) < m)%nat ->
  reader_loop n ka rq r deadline w = reader_loop m ka rq r deadline w.
Proof.
  induction n as [|n IH]; intros [|m] r deadline w Hn Hm; [lia..|].
  cbn [reader_loop]. apply read_round_ext. intros r' dl w' Hlt. apply IH; lia.
Qed.

(** ** Completeness *)

(** A socket that keeps delivering: [poll] reports readable, every [recv] has some, memory is available, and the
    clock stays within the request timeout of any deadline it was used for. *)
Record serving (rq : Z) (w : world) : Prop := {
  sv_poll : Forall (eq (PollReady false true)) (w_poll w);
  sv_recv : Forall (fun a => exists b bs, a = RecvData (b :: bs)) (w_recv w);
  sv_clock : forall i j, (i <= j)%nat -> exists ti tj, w_clock w i = Some ti /\
    w_clock w j = Some tj /\ 0 < remaining_ms tj (add_seconds ti rq);
  sv_oom : no_oom (w_proc w);
}.

Definition deadline_ok (rq : Z) (deadline : option timespec) (w : world) : Prop :=
  match deadline with
  | None => True
  | Some d => exists i t, (i < w_ticks w)%nat /\ w_clock w i = Some t /\ d = add_seconds t rq
  end.

Lemma serving_proc rq w p :
  heap_only (w_proc w) p -> serving rq w -> serving rq (set_proc p w).
Proof. intros Hho [H1 H3 H4 H5]. split; auto. by eapply no_oom_ext. Qed.

Lemma wp_next_timeout_serving rq deadline ka w :
  1 <= ka -> serving rq w -> deadline_ok rq deadline w ->
  wp (next_timeout deadline ka) (fun t w' => is_Some t /\ serving rq w' /\
    deadline_ok rq deadline w' /\ w_proc w' = w_proc w /\ w_recv w' = w_recv w /\
    w_poll w' = w_poll w) w.
Proof.
  intros Hka Hs Hd. pose proof Hs as [H1 H3 H4 H5]. destruct deadline as [d|]; simpl.
  - destruct Hd as (i & t & Hi & Ht & ->). unfold remaining_timeout_ms.
    destruct (H4 i (w_ticks w)) as (ti & tj & Hti & Htj & Hpos); [lia|].
    unfold wp, mbind, M_bind, clock_gettime. simpl. rewrite Htj. simplify_eq/=.
    destruct (Z.eqb_spec (remaining_ms tj (add_seconds t rq)) 0); [lia|].
    split_and!; [eauto|by split| |done..]. exists i, t. simpl. split_and!; [lia|done..].
  - apply wp_ret. split_and!; eauto.
Qed.

(** [recv] from such a socket delivers a non-empty prefix of what is pending. *)
Lemma wp_recv_serving space w :
  (0 < space)%nat -> pending w <> [] ->
  Forall (fun a => exists b bs, a = RecvData (b :: bs)) (w_recv w) ->
  wp (recv space) (fun a w' => exists b bs, a = RecvData (b :: bs) /\
    pending w = (b :: bs) ++ pending w' /\ (length (b :: bs) <= space)%nat /\
    Forall (fun a => exists b bs, a = RecvData (b :: bs)) (w_recv w') /\
    w_poll w' = w_poll w /\ w_clock w' = w_clock w /\ w_ticks w' = w_ticks w /\
    w_proc w' = w_proc w) w.
Proof.
  intros Hsp Hne Hall. pose proof (wlp_recv space w) as Hw. revert Hw.
  unfold wp, wlp, recv. unfold pending in Hne.
  destruct (w_recv w) as [|a rest] eqn:Er; [done|].
  apply Forall_cons_1 in Hall as [(b & bs & ->) Hrest].
  destruct space as [|space]; [lia|]. simpl take. intros (Hr & Hp & Hpo & Ht & Hl & _).
  exists b, (take space bs). split_and!; [done|apply Hr|done| |done|done|done|done].
  simpl. destruct (Nat.leb_spec (length bs) space); [done|].
  apply Forall_cons_eqv. split; [|done]. simpl. destruct (drop space bs) eqn:Ed; [|eauto].
  apply (f_equal length) in Ed. rewrite length_drop in Ed. simpl in *. lia.
Qed.

Lemma wp_wait_readable_serving t w :
  w_poll w <> [] -> Forall (eq (PollReady false true)) (w_poll w) ->
  wp (wait_readable t) (fun rc w' => rc = 1 /\ w_poll w' = tail (w_poll w) /\
    w_recv w' = w_recv w /\ w_clock w' = w_clock w /\ w_ticks w' = w_ticks w /\
    w_proc w' = w_proc w) w.
Proof.
  intros Hne Hall. unfold wait_readable. destruct (w_poll w) as [|a rest] eqn:Ep; [done|].
  apply Forall_cons_1 in Hall as [<- _]. cbn [wait_readable_loop].
  unfold wp, mbind, M_bind, poll. rewrite Ep. by split_and!.
Qed.

(** A message is the shortest prefix of the stream that is one. *)
Lemma complete_frame_unique m1 m2 r1 r2 :
  complete_frame m1 -> complete_frame m2 -> m1 ++ r1 = m2 ++ r2 -> m1 = m2 /\ r1 = r2.
Proof.
  intros H1 H2 Heq. assert (Hl : length m1 = length m2).
  { pose proof (extract_frame_app m1 r1 H1) as E1. rewrite Heq, (extract_frame_app m2 r2 H2) in E1.
    congruence. }
  by apply app_inj_1.
Qed.

(** Memory never runs out on such a world. *)
Lemma wp_try_extract_serving rq r w : serving rq w ->
  wp (lift (try_extract_length r)) (fun res w' => res = extract_spec (rd_bytes r) /\
    exists p, w' = set_proc p w /\ p_live p = p_live (w_proc w) /\ serving rq w') w.
Proof.
  intros Hs. apply wp_lift. eapply wp_mono; [apply wp_try_extract|].
  intros res p (Hho & Hl & [Hx|[_ Hf]]); [|by apply no_oom_not_failed in Hf; [|apply Hs]].
  split; [done|]. exists p. eauto using serving_proc.
Qed.

(** The promise of the loop on a stream that starts with a message, followed
    by [rest]. *)
Definition delivers (rq : Z) (rest : list byte) (res : read_result) (w' : world) : Prop :=
  let '(rc, r', _) := res in
  rc = HTTP_READ_OK /\ rd_bytes r' ++ pending w' = rest /\ serving rq w' /\
  (length (pending w') <= length (w_poll w'))%nat.

Section complete.
  Context (ka rq : Z) (msg rest : list byte).
  Context (again : http_reader_t -> option timespec -> M world read_result).
  Context (bound : nat).
  Hypothesis Hka : 1 <= ka.
  Hypothesis Hmsg : complete_frame msg.
  Hypothesis IH : forall r deadline w,
    reader_inv r -> blk (rd_data r) ⊆ p_live (w_proc w) -> serving rq w ->
    deadline_ok rq deadline w -> (length (pending w) <= length (w_poll w))%nat ->
    (length (pending w) < bound)%nat -> rd_bytes r ++ pending w = msg ++ rest ->
    wp (again r deadline) (delivers rq rest) w.

Lemma wp_wait_and_recv_serving r deadline w :
  reader_inv r -> blk (rd_data r) ⊆ p_live (w_proc w) -> serving rq w ->
  deadline_ok rq deadline w -> (length (pending w) <= length (w_poll w))%nat ->
  (length (pending w) <= bound)%nat -> rd_bytes r ++ pending w = msg ++ rest ->
  pending w <> [] -> rd_length r < rd_capacity r ->
  wp (wait_and_recv ka rq again r deadline (rd_capacity r - rd_length r)) (delivers rq rest) w.
Proof.
  intros Hinv Hin Hs Hd Hen Hbound Hst Hne Hsp. unfold wait_and_recv.
  apply wp_bind. eapply wp_mono; [by apply wp_next_timeout_serving|].
  intros t w1 ([t' ->] & Hs1 & Hd1 & Hp1 & Hr1 & Hpo1).
  assert (Hpend1 : pending w1 = pending w) by (unfold pending; by rewrite Hr1).
  apply wp_bind. eapply wp_mono; [apply wp_wait_readable_serving; [|apply Hs1]|].
  { rewrite Hpo1. intros Hnil. rewrite Hnil in Hen. destruct (pending w); simpl in Hen; [done|lia]. }
  intros rc w2 (-> & Hpo2 & Hr2 & Hc2 & Ht2 & Hp2). simpl (1 =? 0). simpl (1 <? 0).
  assert (Hpend2 : pending w2 = pending w) by (unfold pending in *; by rewrite Hr2).
  apply wp_bind. eapply wp_mono; [apply wp_recv_serving|].
  { lia. } { by rewrite Hpend2. } { rewrite Hr2. apply Hs1. }
  intros a w3 (b & bs & -> & Hpend3 & Hl3 & Hall3 & Hpo3 & Hc3 & Ht3 & Hp3).
  rewrite Hpend2 in Hpend3. cbn [after_recv].
  assert (Hs3 : serving rq w3).
  { destruct Hs1 as [? ? Hclk ?]. split; [|done| |congruence].
    - rewrite Hpo3, Hpo2. destruct (w_poll w1); [done|]. by apply Forall_cons_1 in sv_poll0 as [_ ?].
    - by rewrite Hc3, Hc2. }
  assert (Hgo : forall dl w4, serving rq w4 -> deadline_ok rq dl w4 -> w_proc w4 = w_proc w3 ->
    pending w4 = pending w3 -> w_poll w4 = w_poll w3 ->
    wp (again {| rd_data := rd_data r; rd_bytes := rd_bytes r ++ b :: bs;
                 rd_capacity := rd_capacity r |} dl) (delivers rq rest) w4).
  { intros dl w4 Hs4 Hd4 Hp4 Hpend4 Hpo4. apply (f_equal length) in Hpend3 as Hlen.
    rewrite length_app in Hlen. simpl in Hlen. apply IH; auto; rewrite ?Hpend4, ?Hpo4.
    - destruct Hinv as [H1 H2 H3]. split; simpl; auto. unfold rd_length in *. simpl.
      rewrite zlen_app. unfold zlen in *. lia.
    - by rewrite Hp4, Hp3, Hp2, Hp1.
    - rewrite Hpo3, Hpo2, Hpo1. destruct (w_poll w); simpl in *; lia.
    - lia.
    - simpl. by rewrite <- app_assoc, <- Hst, Hpend3. }
  destruct deadline as [d|].
  { apply Hgo; auto. destruct Hd1 as (i & t & Hi & Ht & ->). exists i, t.
    rewrite Ht3, Ht2, Hc3, Hc2. auto. }
  apply wp_bind. eapply wp_mono; [apply wp_clock_gettime|].
  intros t w4 (-> & Hr4 & Hp4 & Hpo4 & Hrc4 & Ht4).
  destruct (sv_clock _ _ Hs3 (w_ticks w3) (w_ticks w3)) as (ti & _ & Hti & _); [lia|].
  rewrite Hti. apply Hgo; auto; [| |unfold pending; by rewrite Hrc4].
  - destruct Hs3. split; try congruence. by rewrite (rs_clock _ _ _ _ Hr4).
  - exists (w_ticks w3), ti. rewrite (rs_clock _ _ _ _ Hr4). split_and!; [lia|done|done].
Qed.

Lemma wp_make_room_serving r deadline w :
  reader_inv r -> blk (rd_data r) ⊆ p_live (w_proc w) -> serving rq w ->
  deadline_ok rq deadline w -> (length (pending w) <= length (w_poll w))%nat ->
  (length (pending w) <= bound)%nat -> rd_bytes r ++ pending w = msg ++ rest ->
  extract_spec (rd_bytes r) = (HTTP_READ_IO_ERROR, 0%nat) -> pending w <> [] ->
  wp (make_room ka rq again r deadline) (delivers rq rest) w.
Proof.
  intros Hinv Hin Hs Hd Hen Hbound Hst Hx Hne. unfold make_room.
  apply wp_bind, wp_lift. eapply wp_mono; [by apply wp_bytes_needed|].
  intros [e|need] p1 (Hho1 & Hl1 & Hneed).
  { destruct Hneed as [_ Hf]. by apply no_oom_not_failed in Hf; [|apply Hs]. }
  assert (Hin1 : blk (rd_data r) ⊆ p_live p1) by by rewrite Hl1.
  apply wp_bind, wp_lift. eapply wp_mono; [by apply wp_ensure_capacity|].
  intros [ok r1] p2 ([Hho2 Hl2] & Hinv1 & Hb1 & Hok). simpl in Hho2, Hl2.
  assert (Hs2 : serving rq (set_proc p2 (set_proc p1 w))).
  { apply serving_proc; [done|]. by apply serving_proc. }
  assert (Hlen : rd_length r1 = rd_length r) by (unfold rd_length; by rewrite Hb1).
  destruct ok; simpl.
  - destruct (Z.eqb_spec (rd_capacity r1 - rd_length r1) 0); [lia|].
    apply wp_wait_and_recv_serving; auto; [simpl; multiset_solver|by rewrite Hb1|lia].
  - destruct Hok as [_ [?|Hf]]; [lia|].
    apply no_oom_not_failed in Hf; [done|]. simpl. eapply no_oom_ext; [done|apply Hs].
Qed.

Lemma wp_read_round_serving r deadline w :
  reader_inv r -> blk (rd_data r) ⊆ p_live (w_proc w) -> serving rq w ->
  deadline_ok rq deadline w -> (length (pending w) <= length (w_poll w))%nat ->
  (length (pending w) <= bound)%nat -> rd_bytes r ++ pending w = msg ++ rest ->
  wp (read_round ka rq again r deadline) (delivers rq rest) w.
Proof.
  intros Hinv Hin Hs Hd Hen Hbound Hst. unfold read_round.
  apply wp_bind. eapply wp_mono; [by eapply wp_try_extract_serving|].
  intros res w1 (-> & p & -> & Hl & Hs1).
  assert (Hcase : (exists k, rd_bytes r = msg ++ k /\ rest = k ++ pending w) \/
                  (exists b k, msg = rd_bytes r ++ b :: k /\ pending w <> [])).
  { apply app_eq_inv in Hst as [?|([|b k] & Hm & Hp)]; [by left|left|right].
    - exists []. by rewrite !app_nil_r in *.
    - exists b, k. by rewrite Hp. }
  destruct Hcase as [(k & Hb & Hrest)|(b & k & Hm & Hne)].
  - rewrite Hb, (extract_frame_app msg k Hmsg). apply wp_lift. unfold take_message.
    apply wp_bind. eapply wp_mono; [apply wp_malloc|]. intros b p2 (Hho2 & _ & Hf).
    simpl in Hho2, Hf. destruct b as [b|].
    + apply wp_ret. split_and!; auto; [|by apply serving_proc].
      simpl. by rewrite Hb, drop_app_length, Hrest.
    + by destruct (no_oom_not_failed p p2 (sv_oom _ _ Hs1) (Hf eq_refl)).
  - assert (Hx : extract_spec (rd_bytes r) = (HTTP_READ_IO_ERROR, 0%nat)).
    { apply (extract_prefix _ (b :: k)); [by rewrite <- Hm|done]. }
    rewrite Hx. apply wp_make_room_serving; auto. simpl. by rewrite Hl.
Qed.
End complete.

Lemma wp_reader_loop_serving ka rq msg rest : 1 <= ka -> complete_frame msg ->
  forall fuel r deadline w,
  reader_inv r -> blk (rd_data r) ⊆ p_live (w_proc w) -> serving rq w ->
  deadline_ok rq deadline w -> (length (pending w) <= length (w_poll w))%nat ->
  (length (pending w) < fuel)%nat -> rd_bytes r ++ pending w = msg ++ rest ->
  wp (reader_loop fuel ka rq r deadline) (delivers rq rest) w.
Proof.
  intros Hka Hmsg. induction fuel as [|fuel IH]; intros; [lia|].
  eapply wp_read_round_serving with (bound := fuel); eauto. lia.
Qed.

Lemma wp_next_request_serving ka rq msg rest r w :
  complete_frame msg -> reader_inv r -> blk (rd_data r) ⊆ p_live (w_proc w) ->
  serving (Z.max rq 1) w -> (length (pending w) <= length (w_poll w))%nat ->
  rd_bytes r ++ pending w = msg ++ rest ->
  wp (http_reader_next_request r ka rq) (delivers (Z.max rq 1) rest) w.
Proof.
  intros Hmsg Hinv Hin Hs Hen Hst. unfold http_reader_next_request.
  replace (if ka <? 1 then 1 else ka) with (Z.max ka 1) by (case_bool; lia).
  replace (if rq <? 1 then 1 else rq) with (Z.max rq 1) by (case_bool; lia).
  destruct (0 <? rd_length r).
  2: { apply (wp_reader_loop_serving _ _ msg); auto; first [lia|done]. }
  apply wp_bind. eapply wp_mono; [apply wp_clock_gettime|].
  intros t w1 (-> & Hr1 & Hp1 & Hpo1 & Hrc1 & Ht1).
  destruct (sv_clock _ _ Hs (w_ticks w) (w_ticks w)) as (ti & _ & Hti & _); [lia|]. rewrite Hti.
  assert (Hpend : pending w1 = pending w) by (unfold pending; by rewrite Hrc1).
  apply (wp_reader_loop_serving _ _ msg); auto; rewrite ?Hpend, ?Hpo1, ?Hp1; auto; try lia.
  - destruct Hs. split; try congruence. by rewrite (rs_clock _ _ _ _ Hr1).
  - exists (w_ticks w), ti. rewrite (rs_clock _ _ _ _ Hr1). split_and!; [lia|done|done].
Qed.

(** ** The reader as a whole *)

Lemma wp_and_wlp {S A} (m : M S A) (Q R : A -> S -> Prop) s :
  wp m Q s -> wlp m R s -> wp m (fun a s' => Q a s' /\ R a s') s.
Proof. unfold wp, wlp. by destruct (m s). Qed.

(** The first message of a stream and where it ends, for one call. *)
Lemma wp_next_request_message ka rq msg rest r w :
  complete_frame msg -> reader_inv r -> blk (rd_data r) ⊆ p_live (w_proc w) ->
  serving (Z.max rq 1) w -> (length (pending w) <= length (w_poll w))%nat ->
  rd_bytes r ++ pending w = msg ++ rest ->
  wp (http_reader_next_request r ka rq) (fun '(rc, r', raw) w' =>
    rc = HTTP_READ_OK /\ (exists b, raw = Some (CStr (Some b) msg)) /\
    delivers (Z.max rq 1) rest (rc, r', raw) w' /\ reader_inv r' /\
    blk (rd_data r') ⊆ p_live (w_proc w')) w.
Proof.
  intros Hmsg Hinv Hin Hs Hen Hst.
  eapply wp_mono; [apply wp_and_wlp;
    [by eapply wp_next_request_serving|by apply wlp_next_request]|].
  intros [[rc r'] raw] w' [Hdel (d & ts & Hr & _ & Hls & Hinv' & Hm)].
  destruct Hdel as (-> & Hrest & Hs' & Hen'). destruct Hm as (b & m & -> & Hcf & Hsplit).
  assert (m = msg) as ->.
  { apply (complete_frame_unique m msg (rd_bytes r' ++ pending w') rest); auto.
    by rewrite <- Hst, (rs_stream _ _ _ _ Hr), !app_assoc, Hsplit. }
  split_and!; eauto; [by split_and!|].
  apply ledger_step_live in Hls; [|done]. multiset_solver.
Qed.

(** [n] calls in a row, as a connection makes them. *)
Fixpoint read_messages (n : nat) (r : http_reader_t) (ka rq : Z)
  : M world (list (http_read_result_t * option (list byte)) * http_reader_t) :=
  match n with
  | O => mret ([], r)
  | S n =>
      '(rc, r, raw) ← http_reader_next_request r ka rq;
      '(l, r) ← read_messages n r ka rq;
      mret ((rc, cs_bytes <$> raw) :: l, r)
  end.

(** C5. The reader refines the splitting of the byte stream into messages: however
    the kernel cuts the stream into [recv] results, pipelined messages
    included, successive calls return exactly the messages of the stream, in
    order, and keep what follows them.  This is for a connection that is being
    served: [poll] reports data while there is some, [recv] returns it, memory is
    there and the clock stays within the deadline. *)
Theorem reader_refines_stream ka rq msgs rest r w :
  Forall complete_frame msgs -> reader_inv r -> blk (rd_data r) ⊆ p_live (w_proc w) ->
  serving (Z.max rq 1) w -> (length (pending w) <= length (w_poll w))%nat ->
  rd_bytes r ++ pending w = concat msgs ++ rest ->
  wp (read_messages (length msgs) r ka rq) (fun '(l, r') w' =>
    l = map (fun m => (HTTP_READ_OK, Some m)) msgs /\ rd_bytes r' ++ pending w' = rest) w.
Proof.
  revert r w. induction msgs as [|msg msgs IH]; intros r w Hall Hinv Hin Hs Hen Hst.
  { by apply wp_ret. }
  apply Forall_cons_1 in Hall as [Hmsg Hall]. cbn [read_messages length].
  simpl in Hst. rewrite <- app_assoc in Hst. apply wp_bind.
  eapply wp_mono; [by eapply wp_next_request_message|].
  intros [[rc r1] raw] w1 (-> & (b & ->) & (_ & Hrest & Hs1 & Hen1) & Hinv1 & Hin1).
  apply wp_bind. eapply wp_mono; [by apply IH|]. intros [l r2] w2 [-> Hr2].
  by apply wp_ret.
Qed.

(** C20. The contract of one call, on every path: the buffer invariant holds again,
    the heap ledger is exact, every byte received is in the message returned or
    still buffered (a timeout keeps them all), each error is the verdict of
    [extract_spec] on the bytes seen, a timeout, an end of the stream and an I/O
    error each have an answer of [poll], [recv] or the clock taken in the call as
    their reason, nothing is sent, and [poll] is given a non-negative [int],
    never a wait without end. *)
Theorem http_reader_next_request_contract r ka rq w :
  reader_inv r -> blk (rd_data r) ⊆ p_live (w_proc w) ->
  wlp (http_reader_next_request r ka rq) (reader_post r None w (Z.max ka 1) (Z.max rq 1)) w.
Proof. apply wlp_next_request. Qed.

(** The fuel of the loop never decides its result. *)
Theorem reader_loop_fuel_enough ka rq r deadline w fuel :
  (length (w_poll w) < fuel)%nat ->
  reader_loop fuel ka rq r deadline w =
  reader_loop (S (length (w_poll w))) ka rq r deadline w.
Proof. intros H. apply reader_loop_fuel; lia. Qed.

(** A one-shot read leaves behind only the message it returns. *)
Theorem http_read_request_no_leak w :
  wlp http_read_request (fun '(rc, buffer) w' =>
    p_live (w_proc w') = p_live (w_proc w) ⊎ blk_str buffer /\
    (is_Some buffer <-> rc = HTTP_READ_OK)) w.
Proof.
  unfold http_read_request. apply wlp_bind.
  eapply wlp_mono; [apply (wlp_next_request http_reader_init)|].
  { by split. } { simpl. multiset_solver. }
  intros [[rc r'] raw] w' (d & ts & _ & _ & [_ Hl] & _ & Hm). simpl in Hl.
  apply wlp_bind, wlp_lift. unfold http_reader_destroy. apply wp_bind.
  eapply wp_mono; [apply wp_free; multiset_solver|]. intros _ p1 [_ Hl1].
  apply wp_ret, wlp_ret. simpl. split; [multiset_solver|].
  destruct rc; destruct raw; simpl in *; naive_solver.
Qed.

(** The wait asked of [poll] is never negative, fits an [int], and ends no
    later than the deadline. *)
Theorem wait_ends_by_deadline now deadline :
  0 <= tv_nsec now < 1000000000 -> 0 <= tv_nsec deadline < 1000000000 ->
  0 <= remaining_ms now deadline <= 1000999 /\
  (0 < remaining_ms now deadline ->
   nanoseconds now + remaining_ms now deadline * 1000000 <= nanoseconds deadline).
Proof. apply remaining_ms_bounds. Qed.

(** ** Examples *)

Definition example_message : list byte :=
  lit "GET /a HTTP/1.1" ++ CRLF ++ lit "Host: h" ++ CRLF ++ CRLF.

(** Two copies of the message and the start of a third, cut without regard to
    their limits. *)
Definition example_world : world :=
  {| w_proc := fresh_proc (fun _ => true); w_clock := fun _ => Some (Timespec 5 7);
     w_ticks := 0; w_poll := replicate 61 (PollReady false true);
     w_recv := [RecvData (take 20 example_message);
                RecvData (drop 20 example_message ++ take 3 example_message);
                RecvData (drop 3 example_message ++ lit "GE")];
     w_send := []; w_received := []; w_sent := []; w_polled := []; w_file := no_files |}.

Lemma example_complete : complete_frame example_message.
Proof.
  replace example_message with (take 28 example_message) by reflexivity.
  apply extract_complete_frame. vm_compute. reflexivity.
Qed.

Lemma reader_refines_stream_witness :
  wp (read_messages 2 http_reader_init 5 5) (fun '(l, r') w' =>
    l = [(HTTP_READ_OK, Some example_message); (HTTP_READ_OK, Some example_message)] /\
    rd_bytes r' ++ pending w' = lit "GE") example_world.
Proof.
  apply (reader_refines_stream 5 5 [example_message; example_message] (lit "GE")).
  - repeat constructor; apply example_complete.
  - split; vm_compute; done.
  - vm_compute. intros x. lia.
  - split.
    + repeat constructor.
    + repeat constructor; vm_compute; eauto.
    + intros i j _. exists (Timespec 5 7), (Timespec 5 7). split_and!; vm_compute; done.
    + intros k. reflexivity.
  - vm_compute. lia.
  - vm_compute. reflexivity.
Defined.

Lemma http_reader_next_request_contract_witness :
  wlp (http_reader_next_request http_reader_init 5 5)
    (reader_post http_reader_init None example_world (Z.max 5 1) (Z.max 5 1)) example_world.
Proof.
  apply http_reader_next_request_contract; [split; vm_compute; done|].
  vm_compute. intros x. lia.
Defined.

Lemma reader_loop_fuel_enough_witness :
  reader_loop 100 5 5 http_reader_init None example_world =
  reader_loop 62 5 5 http_reader_init None example_world.
Proof. apply (reader_loop_fuel_enough 5 5). vm_compute. lia. Defined.

Lemma wait_ends_by_deadline_witness :
  0 <= remaining_ms (Timespec 1 900000000) (Timespec 3 0) <= 1000999 /\
  (0 < remaining_ms (Timespec 1 900000000) (Timespec 3 0) ->
   nanoseconds (Timespec 1 900000000) + remaining_ms (Timespec 1 900000000) (Timespec 3 0) * 1000000
   <= nanoseconds (Timespec 3 0)).
Proof. apply wait_ends_by_deadline; simpl; lia. Defined.
