(* ===== verification/Response.v ===== *)
(** * Responses: http_response.h, http_response.c and utils.c

    The response record with the heap blocks and the descriptor it owns, its
    operations, serialization and sending.  The Linux build is modelled: file
    bodies go through [sendfile], with the portable loop as fallback. *)
From S2P Require Import Prelude CLib Proc Request World.

Inductive http_body_kind_t :=
| HTTP_BODY_NONE
| HTTP_BODY_MEMORY
| HTTP_BODY_FILE.

#[global] Instance http_body_kind_eq_dec : EqDecision http_body_kind_t.
Proof. solve_decision. Defined.

(** [rsp_array] is the block of the [headers] array; [rsp_file_fd] is [None]
    for -1.  The reason phrase is a static string. *)
Record http_response_t := Response {
  status_code : Z;
  reason_phrase : list byte;
  rsp_array : option nat;
  rsp_headers : list http_header_t;
  body_kind : http_body_kind_t;
  rsp_body : option cstr;
  body_length : Z;
  body_owned : bool;
  rsp_file_fd : option nat;
  suppress_auto_connection_close : bool;
}.

Definition set_rsp_headers (arr : option nat) (hs : list http_header_t) (r : http_response_t)
  : http_response_t :=
  {| status_code := status_code r; reason_phrase := reason_phrase r; rsp_array := arr;
     rsp_headers := hs; body_kind := body_kind r; rsp_body := rsp_body r;
     body_length := body_length r; body_owned := body_owned r; rsp_file_fd := rsp_file_fd r;
     suppress_auto_connection_close := suppress_auto_connection_close r |}.

Definition set_rsp_body (k : http_body_kind_t) (b : option cstr) (len : Z) (owned : bool)
    (fd : option nat) (r : http_response_t) : http_response_t :=
  {| status_code := status_code r; reason_phrase := reason_phrase r; rsp_array := rsp_array r;
     rsp_headers := rsp_headers r; body_kind := k; rsp_body := b; body_length := len;
     body_owned := owned; rsp_file_fd := fd;
     suppress_auto_connection_close := suppress_auto_connection_close r |}.

Definition set_suppress (b : bool) (r : http_response_t) : http_response_t :=
  {| status_code := status_code r; reason_phrase := reason_phrase r; rsp_array := rsp_array r;
     rsp_headers := rsp_headers r; body_kind := body_kind r; rsp_body := rsp_body r;
     body_length := body_length r; body_owned := body_owned r; rsp_file_fd := rsp_file_fd r;
     suppress_auto_connection_close := b |}.

Definition HTTP_STATIC_SEND_CHUNK : Z := 32768.

Definition http_reason_phrase (status_code : Z) : list byte :=
  if status_code =? 200 then lit "OK"
  else if status_code =? 201 then lit "Created"
  else if status_code =? 204 then lit "No Content"
  else if status_code =? 400 then lit "Bad Request"
  else if status_code =? 403 then lit "Forbidden"
  else if status_code =? 404 then lit "Not Found"
  else if status_code =? 405 then lit "Method Not Allowed"
  else if status_code =? 408 then lit "Request Timeout"
  else if status_code =? 413 then lit "Payload Too Large"
  else if status_code =? 500 then lit "Internal Server Error"
  else if status_code =? 501 then lit "Not Implemented"
  else if status_code =? 505 then lit "HTTP Version Not Supported"
  else lit "Unknown".

Definition http_response_init : http_response_t :=
  {| status_code := 500; reason_phrase := http_reason_phrase 500; rsp_array := None;
     rsp_headers := []; body_kind := HTTP_BODY_NONE; rsp_body := None; body_length := 0;
     body_owned := false; rsp_file_fd := None; suppress_auto_connection_close := false |}.

Definition clear_body (r : http_response_t) : M proc http_response_t :=
  (match body_kind r with
   | HTTP_BODY_MEMORY => if body_owned r then free_str (rsp_body r) else mret ()
   | _ => mret ()
   end);;
  (match body_kind r, rsp_file_fd r with
   | HTTP_BODY_FILE, Some fd => close fd
   | _, _ => mret ()
   end);;
  mret (set_rsp_body HTTP_BODY_NONE None 0 false None r).

Definition http_response_destroy (r : http_response_t) : M proc http_response_t :=
  (match rsp_array r with
   | None => mret ()
   | Some arr => free_headers (rsp_headers r);; free (Some arr)
   end);;
  clear_body r;;
  mret http_response_init.

Definition http_response_set_status (code : Z) (r : http_response_t) : http_response_t :=
  {| status_code := code; reason_phrase := http_reason_phrase code; rsp_array := rsp_array r;
     rsp_headers := rsp_headers r; body_kind := body_kind r; rsp_body := rsp_body r;
     body_length := body_length r; body_owned := body_owned r; rsp_file_fd := rsp_file_fd r;
     suppress_auto_connection_close := suppress_auto_connection_close r |}.

(** A copy of a C string. *)
Definition dup_string (s : list byte) : M proc (option cstr) := alloc_str s.

(** The result [true] stands for the return value 0, [false] for -1. *)
Definition http_response_add_header (r : http_response_t) (name value : list byte)
  : M proc (bool * http_response_t) :=
  name_copy ← dup_string name;
  value_copy ← dup_string value;
  match name_copy, value_copy with
  | Some n, Some v =>
      grown ← realloc (rsp_array r);
      match grown with
      | None => free_str name_copy;; free_str value_copy;; mret (false, r)
      | Some arr => mret (true, set_rsp_headers (Some arr) (rsp_headers r ++ [Header n v]) r)
      end
  | _, _ => free_str name_copy;; free_str value_copy;; mret (false, r)
  end.

(** The loop of [http_response_remove_header]: [hs] are the first
    [header_count] entries of the array, a removed entry is replaced by the
    last one.  Every round removes an entry or moves on. *)
Fixpoint remove_header_loop (fuel i : nat) (name : list byte) (hs : list http_header_t)
    (removed : Z) : M proc (Z * list http_header_t) :=
  match fuel with
  | O => no_return
  | S fuel =>
      match hs !! i with
      | None => mret (removed, hs)
      | Some h =>
          if header_name_equal (cs_string (hdr_name h)) name then
            free_str (Some (hdr_name h));;
            free_str (Some (hdr_value h));;
            let last := (length hs - 1)%nat in
            let hs' := match hs !! last with
                       | Some hl => if (i =? last)%nat then hs else <[i := hl]> hs
                       | None => hs
                       end in
            remove_header_loop fuel i name (take last hs') (removed + 1)
          else remove_header_loop fuel (S i) name hs removed
      end
  end.

Definition http_response_remove_header (r : http_response_t) (name : list byte)
  : M proc (Z * http_response_t) :=
  match rsp_array r with
  | None => mret (0, r)
  | Some _ =>
      '(removed, hs) ← remove_header_loop (S (length (rsp_headers r))) 0 name (rsp_headers r) 0;
      mret (removed, set_rsp_headers (rsp_array r) hs r)
  end.

Definition http_response_set_header (r : http_response_t) (name value : list byte)
  : M proc (bool * http_response_t) :=
  '(_, r) ← http_response_remove_header r name;
  http_response_add_header r name value.

Definition http_response_set_body_owned (r : http_response_t) (body : option cstr) (length : Z)
  : M proc (bool * http_response_t) :=
  r ← clear_body r;
  match body with
  | None =>
      if length =? 0 then mret (true, r)
      else mret (true, set_rsp_body HTTP_BODY_MEMORY None length false (rsp_file_fd r) r)
  | Some _ => mret (true, set_rsp_body HTTP_BODY_MEMORY body length true (rsp_file_fd r) r)
  end.

Definition http_response_set_body_text (r : http_response_t) (text : option (list byte))
  : M proc (bool * http_response_t) :=
  match text with
  | None => http_response_set_body_owned r None 0
  | Some text =>
      copy ← alloc_str text;
      match copy with
      | None => mret (false, r)
      | Some _ => http_response_set_body_owned r copy (zlen text)
      end
  end.

(** [body] holds the [length] bytes to copy. *)
Definition http_response_set_body_copy (r : http_response_t) (body : option (list byte))
    (length : Z) : M proc (bool * http_response_t) :=
  if length =? 0 then http_response_set_body_owned r None 0
  else
    match body with
    | None => mret (false, r)
    | Some bytes =>
        copy ← malloc;
        match copy with
        | None => mret (false, r)
        | Some b =>
            http_response_set_body_owned r
              (Some (CStr (Some b) (take (Z.to_nat length) bytes))) length
        end
    end.

Definition http_response_set_file_body (r : http_response_t) (fd : option nat) (size : Z)
  : M proc (bool * http_response_t) :=
  match fd with
  | None => mret (false, r)
  | Some _ =>
      if size <? 0 then mret (false, r)
      else if SIZE_MAX <? size then mret (false, r)
      else
        r ← clear_body r;
        mret (true, set_rsp_body HTTP_BODY_FILE None size false fd r)
  end.

Definition response_has_header (r : http_response_t) (name : list byte) : bool :=
  existsb (fun h => header_name_equal (cs_string (hdr_name h)) name) (rsp_headers r).

(** The common body of [http_response_build_text] and [..._build_json]. *)
Definition http_response_build (content_type : list byte) (r : http_response_t) (code : Z)
    (text : option (list byte)) : M proc (bool * http_response_t) :=
  r ← http_response_destroy r;
  let r := http_response_set_status code r in
  '(ok, r) ← match text with
             | None => mret (true, r)
             | Some _ => http_response_set_body_text r text
             end;
  if negb ok then mret (false, r)
  else http_response_add_header r (lit "Content-Type") content_type.

Definition http_response_build_text (r : http_response_t) (code : Z) (body_text : option (list byte))
  : M proc (bool * http_response_t) :=
  http_response_build (lit "text/plain; charset=utf-8") r code body_text.

Definition http_response_build_json (r : http_response_t) (code : Z) (json : option (list byte))
  : M proc (bool * http_response_t) :=
  http_response_build (lit "application/json") r code json.

(** ** Serialization *)

Definition header_line_bytes (h : http_header_t) : list byte :=
  cs_string (hdr_name h) ++ lit ": " ++ cs_string (hdr_value h) ++ CRLF.

Definition status_line (r : http_response_t) : list byte :=
  lit "HTTP/1.1 " ++ fmt_int (status_code r) ++ lit " " ++ reason_phrase r ++ CRLF.

Definition length_hdr (r : http_response_t) : list byte :=
  lit "Content-Length: " ++ fmt_unsigned (body_length r) ++ CRLF.

Definition server_hdr : list byte := lit "Server: CinderHTTP/1.0" ++ CRLF.
Definition connection_hdr : list byte := lit "Connection: close" ++ CRLF.

Definition need_server (r : http_response_t) : bool := negb (response_has_header r (lit "Server")).
Definition need_connection (r : http_response_t) : bool :=
  negb (response_has_header r (lit "Connection")) && negb (suppress_auto_connection_close r).
Definition need_content_length (r : http_response_t) : bool :=
  negb (response_has_header r (lit "Content-Length")).

(** [size_t] addition. *)
Definition size_add (a b : Z) : Z := wrap64 (a + b).

(** The first pass computes the size of the buffer. *)
Definition serialized_total (r : http_response_t) : Z :=
  let total := foldl (fun t h =>
      size_add (size_add t (zlen (cs_string (hdr_name h)) + 2)) (zlen (cs_string (hdr_value h)) + 2))
    (zlen (status_line r)) (rsp_headers r) in
  let total := if need_server r then size_add total (zlen server_hdr) else total in
  let total := if need_connection r then size_add total (zlen connection_hdr) else total in
  let total := if need_content_length r then size_add total (zlen (length_hdr r)) else total in
  size_add total 2.

(** The second pass writes it. *)
Definition serialized_head (r : http_response_t) : list byte :=
  status_line r ++ concat (map header_line_bytes (rsp_headers r)) ++
  (if need_server r then server_hdr else []) ++
  (if need_connection r then connection_hdr else []) ++
  (if need_content_length r then length_hdr r else []) ++ CRLF.

(** Both lines are formatted in buffers of fixed size. *)
Definition http_response_serialize_headers (r : http_response_t) : M proc (option cstr) :=
  if 128 <=? zlen (status_line r) then mret None
  else if 64 <=? zlen (length_hdr r) then mret None
  else
    buffer ← alloc_str (serialized_head r);
    match buffer with
    | None => mret None
    | Some _ =>
        if negb (zlen (serialized_head r) =? serialized_total r)
        then free_str buffer;; mret None
        else mret buffer
    end.

Definition http_response_serialize (r : http_response_t) (omit_body : bool)
  : M proc (option cstr) :=
  headers ← http_response_serialize_headers r;
  match headers with
  | None => mret None
  | Some head =>
      match body_kind r, rsp_body r with
      | HTTP_BODY_MEMORY, Some body =>
          if negb omit_body && (0 <? body_length r) then
            buffer ← alloc_str (cs_bytes head ++ take (Z.to_nat (body_length r)) (cs_bytes body));
            match buffer with
            | None => free_str headers;; mret None
            | Some _ => free_str headers;; mret buffer
            end
          else mret headers
      | _, _ => mret headers
      end
  end.

(** ** Sending *)

(** utils.c, for a buffer that is not NULL; [false] stands for -1.  Every round
    takes one answer of [send]. *)
Fixpoint send_all_loop (fuel : nat) (cursor : list byte) : M world bool :=
  match cursor with
  | [] => mret true
  | _ =>
      match fuel with
      | O => no_return
      | S fuel =>
          sent ← send cursor;
          match sent with
          | inl EINTR => send_all_loop fuel cursor
          | inl _ => mret false
          | inr O => mret false
          | inr n => send_all_loop fuel (drop n cursor)
          end
      end
  end.

Definition send_all (buffer : list byte) : M world bool :=
  fueled (fun w => length (w_send w)) (fun fuel => send_all_loop fuel buffer).

(** The [sendfile] loop, with the offset where it stopped: [inl] the value
    returned, [inr] the fallback. *)
Fixpoint sendfile_loop (fuel : nat) (fd length offset : nat) : M world (bool + nat) :=
  if (length <=? offset)%nat then mret (inl true)
  else
    match fuel with
    | O => no_return
    | S fuel =>
        n ← sendfile fd offset (length - offset);
        match n with
        | inl EINTR => sendfile_loop fuel fd length offset
        | inl e =>
            if (offset =? 0)%nat && (bool_decide (e = EINVAL) || bool_decide (e = ENOSYS))
            then mret (inr offset) else mret (inl false)
        | inr O => mret (inl false)
        | inr n => sendfile_loop fuel fd length (offset + n)
        end
    end.

(** [read] again while interrupted. *)
Fixpoint read_retry (fuel : nat) (fd want : nat) : M world (option (list byte)) :=
  match fuel with
  | O => no_return
  | S fuel =>
      nr ← read fd want;
      match nr with
      | inl EINTR => read_retry fuel fd want
      | inl _ => mret None
      | inr bs => mret (Some bs)
      end
  end.

(** The portable loop. *)
Fixpoint copy_loop (fuel : nat) (fd remaining : nat) : M world bool :=
  match remaining with
  | O => mret true
  | _ =>
      match fuel with
      | O => no_return
      | S fuel =>
          let want := if Z.of_nat remaining <? HTTP_STATIC_SEND_CHUNK then remaining
                      else Z.to_nat HTTP_STATIC_SEND_CHUNK in
          chunk ← fueled (fun w => length (f_read (w_file w)))
                    (fun fuel => read_retry fuel fd want);
          match chunk with
          | None => mret false
          | Some [] => mret false
          | Some bs =>
              ok ← send_all bs;
              if negb ok then mret false else copy_loop fuel fd (remaining - length bs)
          end
      end
  end.

Definition send_file_body (fd : nat) (length : Z) : M world bool :=
  if length =? 0 then mret true
  else
    let len := Z.to_nat length in
    stop ← fueled (fun w => List.length (f_sendfile (w_file w)))
             (fun fuel => sendfile_loop fuel fd len 0);
    match stop with
    | inl ok => mret ok
    | inr offset =>
        seek ← lseek_set fd offset;
        if negb seek then mret false
        else fueled (fun w => List.length (f_read (w_file w)))
               (fun fuel => copy_loop fuel fd (len - offset))
    end.

(** The last part of [http_response_send]: the body, when it is not omitted. *)
Definition send_body (r : http_response_t) : M world bool :=
  match body_kind r with
  | HTTP_BODY_MEMORY =>
      if body_length r =? 0 then mret true
      else
        match rsp_body r with
        | None => mret false
        | Some body => send_all (take (Z.to_nat (body_length r)) (cs_bytes body))
        end
  | HTTP_BODY_FILE =>
      match rsp_file_fd r with
      | None => mret false
      | Some fd => send_file_body fd (body_length r)
      end
  | HTTP_BODY_NONE => mret true
  end.

Definition http_response_send (r : http_response_t) (omit_body : bool) : M world bool :=
  headers ← lift (http_response_serialize_headers r);
  match headers with
  | None => mret false
  | Some head =>
      ok ← send_all (cs_bytes head);
      if negb ok then lift (free_str headers);; mret false
      else
        lift (free_str headers);;
        if omit_body then mret true else send_body r
  end.
