(* ===== verification/ResponseCorrect.v ===== *)
(** * Correctness of responses: ownership and headers

    A response owns its header array, the strings in it, a memory body and the
    descriptor of a file body.  Every operation is shown to keep the exact
    account of heap blocks and descriptors, on success and on failure, and to
    change the headers and the body as documented. *)
From S2P Require Import Prelude CLib Proc Request World Response.

(** ** Ownership *)

Definition blk_body (r : http_response_t) : gmultiset nat :=
  match body_kind r with
  | HTTP_BODY_MEMORY => if body_owned r then blk_str (rsp_body r) else ∅
  | _ => ∅
  end.

Definition blk_response (r : http_response_t) : gmultiset nat :=
  blk (rsp_array r) ⊎ blk_headers (rsp_headers r) ⊎ blk_body r.

Definition fd_response (r : http_response_t) : gmultiset nat :=
  match body_kind r with HTTP_BODY_FILE => blk (rsp_file_fd r) | _ => ∅ end.

(** What each body kind says about the other fields. *)
Definition body_wf (r : http_response_t) : Prop :=
  match body_kind r with
  | HTTP_BODY_NONE =>
      rsp_body r = None /\ body_length r = 0 /\ body_owned r = false /\ rsp_file_fd r = None
  | HTTP_BODY_MEMORY =>
      exists c, rsp_body r = Some c /\ is_Some (cs_block c) /\ body_length r = zlen (cs_bytes c) /\
        body_owned r = true /\ rsp_file_fd r = None
  | HTTP_BODY_FILE =>
      is_Some (rsp_file_fd r) /\ rsp_body r = None /\ 0 <= body_length r <= SIZE_MAX /\
      body_owned r = false
  end.

Record owned_response (r : http_response_t) : Prop := {
  or_headers : Forall owned_header (rsp_headers r);
  or_array : rsp_array r = None -> rsp_headers r = [];
  or_body : body_wf r;
}.

(** The response is well formed and the process holds what it owns. *)
Record held (p : proc) (r : http_response_t) : Prop := {
  h_owned : owned_response r;
  h_live : blk_response r ⊆ p_live p;
  h_fds : fd_response r ⊆ p_fds p;
}.

(** Only allocation requests were made between [p] and [p']. *)
Definition advances (p p' : proc) : Prop :=
  p_malloc_ok p' = p_malloc_ok p /\ (p_next p <= p_next p')%nat.

(** Between the two states the blocks and descriptors of [r] became those of
    [r'], and nothing else changed hands. *)
Record resp_step (p : proc) (r : http_response_t) (p' : proc) (r' : http_response_t) : Prop := {
  st_advances : advances p p';
  st_live : p_live p' ⊎ blk_response r = p_live p ⊎ blk_response r';
  st_fds : p_fds p' ⊎ fd_response r = p_fds p ⊎ fd_response r';
}.

#[global] Instance advances_refl : Reflexive advances.
Proof. intros p. split; auto. Qed.
#[global] Instance advances_trans : Transitive advances.
Proof. intros p q r [H1 H2] [H3 H4]. split; [congruence|lia]. Qed.

Lemma heap_only_advances p p' : heap_only p p' -> advances p p'.
Proof. by intros []. Qed.

Lemma advances_failed_l p q r : advances q r -> alloc_failed p q -> alloc_failed p r.
Proof. intros [_ ?] (k & ? & ?). exists k. split; [lia|done]. Qed.

Lemma advances_failed_r p q r : advances p q -> alloc_failed q r -> alloc_failed p r.
Proof. intros [Hok ?] (k & ? & Hk). rewrite Hok in Hk. exists k. split; [lia|done]. Qed.

Lemma advances_no_oom p p' : advances p p' -> no_oom p -> no_oom p'.
Proof. intros [Hok _] Hno k. by rewrite Hok. Qed.

Lemma resp_step_refl p r : resp_step p r p r.
Proof. by split. Qed.

Lemma resp_step_trans p r p1 r1 p2 r2 :
  resp_step p r p1 r1 -> resp_step p1 r1 p2 r2 -> resp_step p r p2 r2.
Proof. intros [? ? ?] [? ? ?]. split; [by etrans|multiset_solver|multiset_solver]. Qed.

Lemma held_step p r p' r' : held p r -> resp_step p r p' r' -> owned_response r' -> held p' r'.
Proof. intros [_ ? ?] [_ ? ?] Ho. split; [done|multiset_solver|multiset_solver]. Qed.

(** A heap-only step that leaves the descriptors alone. *)
Lemma resp_step_heap p r p' r' :
  heap_only p p' -> p_live p' ⊎ blk_response r = p_live p ⊎ blk_response r' ->
  fd_response r' = fd_response r -> resp_step p r p' r'.
Proof.
  intros Hho Hl Hf. split; [by apply heap_only_advances|done|].
  rewrite (ho_fds _ _ Hho), Hf. done.
Qed.

#[export] Hint Resolve advances_refl resp_step_refl heap_only_advances : cinder.

Lemma owned_response_init : owned_response http_response_init.
Proof. split; simpl; auto. by split_and!. Qed.

Lemma held_init p : held p http_response_init.
Proof. split; [apply owned_response_init|unfold blk_response; simpl; multiset_solver|simpl; multiset_solver]. Qed.

(** ** Bodies *)

Lemma wp_close fd p : {[+ fd +]} ⊆ p_fds p ->
  wp (close fd) (fun _ p' => advances p p' /\ p_live p' = p_live p /\
    p_fds p = p_fds p' ⊎ {[+ fd +]}) p.
Proof.
  intros Hin. unfold wp, close. rewrite decide_True by multiset_solver. simpl.
  split_and!; [by split|done|multiset_solver].
Qed.

Lemma clear_body_wp r p : held p r ->
  wp (clear_body r) (fun r' p' => resp_step p r p' r' /\ held p' r' /\
    r' = set_rsp_body HTTP_BODY_NONE None 0 false None r) p.
Proof.
  intros Hh. pose proof Hh as [[Hhd Harr Hb] Hl Hf]. unfold clear_body, body_wf in *.
  set (r' := set_rsp_body _ _ _ _ _ _).
  assert (Hown : owned_response r') by (split; [done|done|by split_and!]).
  assert (Hfin : forall p', resp_step p r p' r' ->
    resp_step p r p' r' /\ held p' r' /\ r' = r').
  { intros p' Hs. split_and!; [done|by eapply held_step|done]. }
  unfold blk_response, blk_body, fd_response in *.
  destruct (body_kind r) eqn:Ek.
  - apply wp_bind, wp_ret, wp_bind, wp_ret, wp_ret, Hfin.
    apply resp_step_heap; unfold blk_response, blk_body, fd_response; rewrite ?Ek; auto with cinder.
  - destruct Hb as (c & Hc & Hcb & _ & Ho & _). rewrite Ho in *.
    apply wp_bind. eapply wp_mono; [apply wp_free_str; [by rewrite Hc|multiset_solver]|].
    intros _ p1 [Hho1 Hl1]. apply wp_bind, wp_ret, wp_ret, Hfin.
    apply resp_step_heap; unfold blk_response, blk_body, fd_response; rewrite ?Ek, ?Ho; auto.
    simpl. multiset_solver.
  - destruct Hb as ([fd Hfd] & _). rewrite Hfd in *. apply wp_bind, wp_ret.
    apply wp_bind. eapply wp_mono; [apply wp_close; simpl in Hf; multiset_solver|].
    intros _ p1 (Hadv & Hl1 & Hf1). apply wp_ret, Hfin.
    split; unfold blk_response, blk_body, fd_response; rewrite ?Ek, ?Hfd; simpl; [done|multiset_solver|].
    multiset_solver.
Qed.

(** Destroying a response gives back exactly what it owns. *)
Lemma response_destroy_wp r p : held p r ->
  wp (http_response_destroy r) (fun r' p' => r' = http_response_init /\
    resp_step p r p' http_response_init) p.
Proof.
  intros Hh. pose proof Hh as [[Hhd Harr Hb] Hl Hf]. unfold http_response_destroy.
  set (r1 := set_rsp_headers None [] r).
  apply wp_bind. apply wp_mono with (Q := fun _ p1 => resp_step p r p1 r1).
  { destruct (rsp_array r) as [arr|] eqn:Earr.
    - unfold blk_response in Hl. rewrite Earr in Hl. apply wp_bind.
      eapply wp_mono; [apply wp_free_headers; [done|multiset_solver]|]. intros _ p1 [Hho1 Hl1].
      eapply wp_mono; [apply (wp_free (Some arr)); simpl in *; multiset_solver|].
      intros _ p2 [Hho2 Hl2]. apply resp_step_heap; [by etrans| |done].
      unfold blk_response, r1, blk_body in *. rewrite Earr. simpl in *. multiset_solver.
    - apply wp_ret. apply resp_step_heap; [reflexivity| |done].
      unfold blk_response, r1, blk_body. rewrite Earr, (Harr eq_refl). simpl. done. }
  intros _ p1 Hs1. assert (Hh1 : held p1 r1).
  { eapply held_step; [done|done|]. split; [by simpl|done|done]. }
  apply wp_bind. assert (Hc : forall Q, wp (clear_body r1) (fun _ => Q) p1 ->
    wp (clear_body r) (fun _ => Q) p1).
  { intros Q. unfold wp, clear_body, mbind, M_bind. simpl.
    destruct (body_kind r), (body_owned r), (rsp_file_fd r); simpl; try done;
      repeat match goal with |- context [match ?m p1 with _ => _ end] => destruct (m p1) end;
      try done. }
  apply Hc. eapply wp_mono; [by apply clear_body_wp|]. intros r2 p2 (Hs2 & Hh2 & ->).
  apply wp_ret. split; [done|]. eapply resp_step_trans; [done|]. destruct Hs2 as [Ha Hlv Hfd].
  split; [done|exact Hlv|exact Hfd].
Qed.

(** The response carries the bytes [bs] in a block of its own. *)
Definition memory_body (bs : list byte) (r r' : http_response_t) : Prop :=
  exists b, r' = set_rsp_body HTTP_BODY_MEMORY (Some (CStr (Some b) bs)) (zlen bs) true None r.

(** Taking over a block that the caller has just allocated. *)
Lemma set_body_owned_wp r b bs p0 p :
  held p0 r -> heap_only p0 p -> p_live p = p_live p0 ⊎ {[+ b +]} ->
  wp (http_response_set_body_owned r (Some (CStr (Some b) bs)) (zlen bs)) (fun '(ok, r') p' =>
    ok = true /\ memory_body bs r r' /\ resp_step p0 r p' r' /\ held p' r') p.
Proof.
  intros Hh Hho Hl. pose proof Hh as [Hown Hlv Hfd].
  assert (Hh1 : held p r).
  { split; [done|multiset_solver|]. by rewrite (ho_fds _ _ Hho). }
  unfold http_response_set_body_owned. apply wp_bind.
  eapply wp_mono; [by apply clear_body_wp|]. intros r1 p1 ([Ha1 Hl1 Hf1] & [[? ? ?] ? ?] & ->).
  apply wp_ret. cbn [rsp_file_fd set_rsp_body].
  match goal with |- _ /\ memory_body _ _ ?x /\ _ => set (r' := x) end.
  assert (Hs : resp_step p0 r p1 r').
  { split.
    - etrans; [by apply heap_only_advances|done].
    - unfold blk_response, blk_body in *. simpl in *. multiset_solver.
    - rewrite <- (ho_fds _ _ Hho). unfold fd_response in *. simpl in *. multiset_solver. }
  split_and!; [done|by exists b|done|]. eapply held_step; [exact Hh|done|].
  split; [done|done|]. exists (CStr (Some b) bs). split_and!; eauto.
Qed.

(** The outcome of an operation that can only fail for lack of memory, in which
    case the response is as it was. *)
Definition op_post (p : proc) (r : http_response_t) (Q : http_response_t -> Prop)
    (res : bool * http_response_t) (p' : proc) : Prop :=
  let '(ok, r') := res in
  resp_step p r p' r' /\ held p' r' /\
  if ok then Q r' else r' = r /\ alloc_failed p p'.

Lemma op_post_failed p r Q p' :
  held p r -> heap_only p p' -> p_live p' = p_live p -> alloc_failed p p' ->
  op_post p r Q (false, r) p'.
Proof.
  intros Hh Hho Hl Hf. assert (Hs : resp_step p r p' r).
  { apply resp_step_heap; [done|by rewrite Hl|done]. }
  split_and!; auto. eapply held_step; [done..|apply Hh].
Qed.

Lemma set_body_text_wp r text p : held p r ->
  wp (http_response_set_body_text r (Some text)) (op_post p r (memory_body text r)) p.
Proof.
  intros Hh. simpl. apply wp_alloc_then.
  - intros p' Hho Hl Hf. by apply wp_ret, op_post_failed.
  - intros b p' Hho Hl. eapply wp_mono; [by eapply set_body_owned_wp|].
    intros [ok r'] p2 (-> & Hm & Hs & Hh2). by split_and!.
Qed.

Lemma set_body_copy_wp r bs p : held p r -> bs <> [] ->
  wp (http_response_set_body_copy r (Some bs) (zlen bs)) (op_post p r (memory_body bs r)) p.
Proof.
  intros Hh Hne. unfold http_response_set_body_copy.
  destruct (Z.eqb_spec (zlen bs) 0) as [H0|_]; [unfold zlen in H0; by destruct bs|].
  apply wp_bind. eapply wp_mono; [apply wp_malloc|]. intros [b|] p1 (Hho & Hl & Hf); simpl in Hl.
  - rewrite (take_ge bs) by (unfold zlen; lia).
    eapply wp_mono; [by eapply set_body_owned_wp|].
    intros [ok r'] p2 (-> & Hm & Hs & Hh2). by split_and!.
  - apply wp_ret, op_post_failed; auto. multiset_solver.
Qed.

(** The descriptor changes hands on success only. *)
Lemma set_file_body_wp r fd size p : held p r -> 0 <= size <= SIZE_MAX ->
  fd_response r ⊎ {[+ fd +]} ⊆ p_fds p ->
  wp (http_response_set_file_body r (Some fd) size) (fun '(ok, r') p' => ok = true /\
    r' = set_rsp_body HTTP_BODY_FILE None size false (Some fd) r /\ advances p p' /\
    p_live p' ⊎ blk_response r = p_live p ⊎ blk_response r' /\
    p_fds p' ⊎ fd_response r ⊎ {[+ fd +]} = p_fds p ⊎ fd_response r' /\ held p' r') p.
Proof.
  intros Hh Hsz Hfd. unfold http_response_set_file_body.
  destruct (Z.ltb_spec size 0); [lia|]. destruct (Z.ltb_spec SIZE_MAX size); [lia|].
  apply wp_bind. eapply wp_mono; [by apply clear_body_wp|].
  intros r1 p1 ([Ha Hl1 Hf1] & [[Hhd Harr _] Hlv1 Hfd1] & ->). apply wp_ret.
  unfold fd_response, blk_response, blk_body in *. simpl in *. split_and!; auto; [multiset_solver|].
  split; unfold fd_response, blk_response, blk_body; simpl; [|done|multiset_solver].
  split; [done|done|]. simpl. split_and!; eauto.
Qed.

(** ** Headers *)

(** The headers as name-value pairs. *)
Definition pair_of (h : http_header_t) : list byte * list byte :=
  (cs_bytes (hdr_name h), cs_bytes (hdr_value h)).

Definition header_pairs (r : http_response_t) : list (list byte * list byte) :=
  map pair_of (rsp_headers r).

(** [r'] is [r] with one more header. *)
Definition header_added (name value : list byte) (r r' : http_response_t) : Prop :=
  exists arr h, r' = set_rsp_headers (Some arr) (rsp_headers r ++ [h]) r /\
    pair_of h = (name, value).

Lemma blk_body_headers arr hs r : blk_body (set_rsp_headers arr hs r) = blk_body r.
Proof. done. Qed.

Lemma add_header_wp r name value p : held p r ->
  wp (http_response_add_header r name value) (op_post p r (header_added name value r)) p.
Proof.
  intros Hh. pose proof Hh as [[Hhd Harr Hb] Hlv Hfd]. unfold http_response_add_header, dup_string.
  assert (Hfree : forall c d p', owned_str c -> owned_str d -> heap_only p p' ->
    p_live p' = p_live p ⊎ blk_str c ⊎ blk_str d -> alloc_failed p p' ->
    wp (free_str c;; free_str d;; mret (false, r)) (op_post p r (header_added name value r)) p').
  { intros c d p' Hc Hd Hho Hl Hf. apply wp_free_two; [done|done|multiset_solver|].
    intros p2 Hho2 Hl2. apply wp_ret, op_post_failed; [done|by etrans|multiset_solver|].
    by eapply alloc_failed_l. }
  apply wp_bind. eapply wp_mono; [apply wp_alloc_str|]. intros n p1 (Hho1 & Hl1 & Ho1 & Hn).
  apply wp_bind. eapply wp_mono; [apply wp_alloc_str|]. intros v p2 (Hho2 & Hl2 & Ho2 & Hv).
  assert (Hho12 : heap_only p p2) by by etrans.
  assert (Hl12 : p_live p2 = p_live p ⊎ blk_str n ⊎ blk_str v) by multiset_solver.
  destruct n as [n|]; [|by apply Hfree; eauto using alloc_failed_l].
  destruct v as [v|]; [|by apply Hfree; eauto using alloc_failed_r].
  unfold blk_response in Hlv.
  apply wp_bind. eapply wp_mono; [apply wp_realloc; multiset_solver|].
  intros [arr|] p3 [Hho3 Hl3].
  - apply wp_ret. assert (Hs : resp_step p r p3 (set_rsp_headers (Some arr) (rsp_headers r ++ [Header n v]) r)).
    { apply resp_step_heap; [by etrans| |done]. unfold blk_response.
      rewrite blk_body_headers. simpl. rewrite blk_headers_app. simpl in *. multiset_solver. }
    split_and!; [done| |].
    + eapply held_step; [done|done|]. split; [|done|done]. simpl.
      apply Forall_app. split; [done|]. by repeat constructor.
    + exists arr, (Header n v). split; [done|]. unfold pair_of. simpl. by rewrite Hn, Hv.
  - destruct Hl3 as [Hl3 Hf3]. apply Hfree; auto; [by etrans|by rewrite Hl3|].
    by eapply alloc_failed_r.
Qed.

Definition matches (name : list byte) (h : http_header_t) : bool :=
  header_name_equal (cs_string (hdr_name h)) name.

(** The array after one removal: entry [i] is gone, the rest is kept up to
    order, and the entries before [i] stay where they are. *)
Definition remove_at (i : nat) (hs : list http_header_t) : list http_header_t :=
  let last := (length hs - 1)%nat in
  take last (match hs !! last with
             | Some hl => if (i =? last)%nat then hs else <[i := hl]> hs
             | None => hs
             end).

Lemma remove_at_perm pre h post :
  exists post', remove_at (length pre) (pre ++ h :: post) = pre ++ post' /\ post' ≡ₚ post.
Proof.
  unfold remove_at. rewrite length_app. simpl.
  replace (length pre + S (length post) - 1)%nat with (length pre + length post)%nat by lia.
  destruct post as [|hl post1 _] using rev_ind.
  - exists []. simpl. rewrite Nat.add_0_r, list_lookup_middle by done.
    rewrite Nat.eqb_refl, take_app_length, app_nil_r; done.
  - rewrite length_app. simpl.
    assert ((pre ++ h :: post1 ++ [hl]) !! (length pre + (length post1 + 1))%nat = Some hl) as ->.
    { rewrite app_comm_cons, app_assoc. apply list_lookup_middle. rewrite length_app. simpl. lia. }
    rewrite (proj2 (Nat.eqb_neq _ _)) by lia.
    rewrite insert_app_r_alt by lia. rewrite Nat.sub_diag. cbn [insert list_insert].
    exists (hl :: post1). split; [|by rewrite Permutation_app_comm].
    rewrite app_comm_cons, app_assoc. rewrite take_app_le.
    + rewrite take_ge; [done|]. rewrite length_app. simpl. lia.
    + rewrite length_app. simpl. lia.
Qed.

Lemma remove_header_loop_eq fuel i name hs n h : hs !! i = Some h -> matches name h = true ->
  remove_header_loop (S fuel) i name hs n =
  (free_str (Some (hdr_name h));; free_str (Some (hdr_value h));;
   remove_header_loop fuel i name (remove_at i hs) (n + 1)).
Proof. intros Hi Hm. cbn [remove_header_loop]. rewrite Hi. unfold matches in Hm. by rewrite Hm. Qed.

(** The loop frees the matching entries and keeps the others. *)
Lemma remove_header_loop_wp name : forall fuel pre post n p,
  (length post < fuel)%nat -> Forall owned_header (pre ++ post) ->
  Forall (fun h => matches name h = false) pre -> blk_headers (pre ++ post) ⊆ p_live p ->
  wp (remove_header_loop fuel (length pre) name (pre ++ post) n) (fun '(k, hs) p' =>
    heap_only p p' /\ p_live p' ⊎ blk_headers (pre ++ post) = p_live p ⊎ blk_headers hs /\
    hs ≡ₚ pre ++ filter (fun h => matches name h = false) post /\
    k = n + zlen (filter (fun h => matches name h = true) post)) p.
Proof.
  induction fuel as [|fuel IH]; intros pre post n p Hf Hown Hpre Hin; [lia|].
  destruct post as [|h post].
  { cbn [remove_header_loop]. rewrite lookup_ge_None_2 by (rewrite app_nil_r; lia).
    apply wp_ret. split_and!; [reflexivity|done|done|unfold zlen; simpl; lia]. }
  assert (Hi : (pre ++ h :: post) !! length pre = Some h) by by apply list_lookup_middle.
  simpl in Hf. destruct (matches name h) eqn:Em.
  - rewrite (remove_header_loop_eq _ _ _ _ _ h) by done.
    destruct (remove_at_perm pre h post) as (post' & -> & Hperm).
    apply Forall_app in Hown as [Hown1 Hown2]. apply Forall_cons_1 in Hown2 as [[Hn Hv] Hown2].
    rewrite blk_headers_app in Hin. simpl in Hin.
    apply wp_free_two; [done|done|simpl; multiset_solver|]. intros p1 Hho1 Hl1. simpl in Hl1.
    assert (Hbp : blk_headers post' = blk_headers post).
    { clear -Hperm. induction Hperm; simpl; multiset_solver. }
    eapply wp_mono; [apply IH|].
    { rewrite Hperm. lia. } { apply Forall_app. by rewrite Hperm. } { done. }
    { rewrite blk_headers_app, Hbp. multiset_solver. }
    intros [k hs] p2 (Hho2 & Hl2 & Hhs & Hk). rewrite blk_headers_app, Hbp in Hl2.
    split_and!; [by etrans| | |].
    + rewrite blk_headers_app. simpl. multiset_solver.
    + rewrite Hhs, filter_cons_False by congruence. by rewrite Hperm.
    + rewrite Hk, filter_cons_True by done. unfold zlen. simpl. rewrite Hperm. lia.
  - cbn [remove_header_loop]. rewrite Hi. unfold matches in Em. rewrite Em.
    specialize (IH (pre ++ [h]) post n p). rewrite length_app, <- app_assoc in IH. simpl in IH.
    replace (length pre + 1)%nat with (S (length pre)) in IH by lia.
    eapply wp_mono; [apply IH; [lia|done| |done]|].
    { apply Forall_app. split; [done|]. by repeat constructor. }
    intros [k hs] p2 (Hho2 & Hl2 & Hhs & Hk). unfold matches in *.
    rewrite filter_cons_True by done. rewrite filter_cons_False by congruence.
    split_and!; auto. by rewrite <- app_assoc in Hhs.
Qed.

(** Only the headers differ. *)
Definition headers_only (r r' : http_response_t) : Prop :=
  exists arr hs, r' = set_rsp_headers arr hs r.

Lemma headers_only_trans r1 r2 r3 : headers_only r1 r2 -> headers_only r2 r3 -> headers_only r1 r3.
Proof. intros (a & h & ->) (a' & h' & ->). by exists a', h'. Qed.

Lemma header_added_only name value r r' : header_added name value r r' -> headers_only r r'.
Proof. intros (arr & h & -> & _). by eexists _, _. Qed.

Definition others (name : list byte) (hs : list http_header_t) : list http_header_t :=
  filter (fun h => matches name h = false) hs.

#[global] Instance others_proper name : Proper (Permutation ==> Permutation) (others name).
Proof. intros l k H. unfold others. by rewrite H. Qed.

Lemma others_app name l k : others name (l ++ k) = others name l ++ others name k.
Proof. apply filter_app. Qed.

Lemma remove_header_wp r name p : held p r ->
  wp (http_response_remove_header r name) (fun '(k, r') p' => resp_step p r p' r' /\ held p' r' /\
    headers_only r r' /\ rsp_headers r' ≡ₚ others name (rsp_headers r) /\
    k = zlen (filter (fun h => matches name h = true) (rsp_headers r))) p.
Proof.
  intros Hh. pose proof Hh as [[Hhd Harr Hb] Hlv Hfd]. unfold http_response_remove_header.
  destruct (rsp_array r) as [arr|] eqn:Earr.
  2: { apply wp_ret. rewrite (Harr eq_refl). split_and!; auto with cinder. destruct r.
       by eexists _, _. }
  apply wp_bind. eapply wp_mono; [apply (remove_header_loop_wp name _ [] (rsp_headers r))|].
  { simpl. lia. } { done. } { done. } { unfold blk_response in Hlv. simpl. multiset_solver. }
  intros [k hs] p1 (Hho & Hl & Hhs & ->). simpl in Hl, Hhs. apply wp_ret.
  assert (Hs : resp_step p r p1 (set_rsp_headers (Some arr) hs r)).
  { apply resp_step_heap; [done| |done]. unfold blk_response. rewrite blk_body_headers, Earr.
    simpl. multiset_solver. }
  split_and!; [done| |by eexists _, _|done|lia]. eapply held_step; [done..|].
  split; [|done|done]. simpl. rewrite Hhs. apply Forall_forall. intros h Hel.
  apply list_elem_of_filter in Hel as [_ Hel]. by rewrite Forall_forall in Hhd; apply Hhd.
Qed.

Lemma set_header_wp r name value p : held p r ->
  wp (http_response_set_header r name value) (fun '(ok, r') p' =>
    resp_step p r p' r' /\ held p' r' /\ headers_only r r' /\
    if ok then exists h, pair_of h = (name, value) /\
                 rsp_headers r' ≡ₚ others name (rsp_headers r) ++ [h]
    else rsp_headers r' ≡ₚ others name (rsp_headers r) /\ alloc_failed p p') p.
Proof.
  intros Hh. unfold http_response_set_header. apply wp_bind.
  eapply wp_mono; [by apply remove_header_wp|]. intros [k r1] p1 (Hs1 & Hh1 & Ho1 & Hp1 & _).
  eapply wp_mono; [by apply add_header_wp|]. intros [[] r2] p2 (Hs2 & Hh2 & Hr).
  - split_and!; [by eapply resp_step_trans|done| |].
    + eapply headers_only_trans; [done|]. by eapply header_added_only.
    + destruct Hr as (arr & h & -> & Hh'). exists h. split; [done|]. simpl. by rewrite Hp1.
  - destruct Hr as [-> Hf]. split_and!; [by eapply resp_step_trans|done|done|done|].
    eapply advances_failed_r; [apply Hs1|done].
Qed.

(** ** Building a response *)

Lemma held_status p r code : held p r -> held p (http_response_set_status code r).
Proof. intros [[? ? ?] ? ?]. split; [split|..]; done. Qed.

(** What the two builders produce: status, one Content-Type and the text. *)
Definition built (content_type : list byte) (code : Z) (text : option (list byte))
    (r' : http_response_t) : Prop :=
  status_code r' = code /\ reason_phrase r' = http_reason_phrase code /\
  header_pairs r' = [(lit "Content-Type", content_type)] /\
  suppress_auto_connection_close r' = false /\
  match text with
  | None => body_kind r' = HTTP_BODY_NONE
  | Some t => body_kind r' = HTTP_BODY_MEMORY /\ cs_bytes <$> rsp_body r' = Some t
  end.

Lemma build_wp ct r code text p : held p r ->
  wp (http_response_build ct r code text) (fun '(ok, r') p' => resp_step p r p' r' /\ held p' r' /\
    if ok then built ct code text r' else alloc_failed p p') p.
Proof.
  intros Hh. unfold http_response_build. apply wp_bind.
  eapply wp_mono; [by apply response_destroy_wp|]. intros r1 p1 [-> Hs1].
  set (r2 := http_response_set_status code http_response_init).
  assert (Hs2 : resp_step p r p1 r2) by (destruct Hs1; by split).
  assert (Hh2 : held p1 r2).
  { apply held_status. eapply held_step; [done..|]. apply owned_response_init. }
  apply wp_bind. apply wp_mono with (Q := fun (res : bool * http_response_t) p' =>
    let '(ok, r') := res in resp_step p r p' r' /\ held p' r' /\
    if ok then status_code r' = code /\ reason_phrase r' = http_reason_phrase code /\
      rsp_headers r' = [] /\ suppress_auto_connection_close r' = false /\
      match text with
      | None => body_kind r' = HTTP_BODY_NONE
      | Some t => body_kind r' = HTTP_BODY_MEMORY /\ cs_bytes <$> rsp_body r' = Some t
      end else alloc_failed p p').
  { destruct text as [t|]; [|by apply wp_ret].
    eapply wp_mono; [by apply set_body_text_wp|]. intros [[] r3] p3 (Hs3 & Hh3 & Hr).
    - destruct Hr as [b ->]. split_and!; [by eapply resp_step_trans|done|done..].
    - destruct Hr as [-> Hf]. split_and!; [by eapply resp_step_trans|done|].
      eapply advances_failed_r; [apply Hs2|done]. }
  intros [[] r3] p3 (Hs3 & Hh3 & Hr); [|by apply wp_ret]. simpl.
  eapply wp_mono; [by apply add_header_wp|]. intros [[] r4] p4 (Hs4 & Hh4 & Hr4).
  - split_and!; [by eapply resp_step_trans|done|]. destruct Hr4 as (arr & h & -> & Hp).
    destruct Hr as (? & ? & Hnil & ? & ?). split_and!; auto. unfold header_pairs. simpl.
    by rewrite Hnil, <- Hp.
  - split_and!; [by eapply resp_step_trans|done|]. destruct Hr4 as [_ Hf].
    eapply advances_failed_r; [apply Hs3|done].
Qed.
