(* ===== verification/ResponseWire.v ===== *)
(** * Responses on the wire

    The two passes of the serializer agree, its fixed buffers are large enough,
    and [http_response_send] puts exactly the head and the declared number of
    body bytes on the socket, whatever [send], [sendfile] and [read] answer. *)
From S2P Require Import Prelude CLib Proc Request Parser ParserSpec ParserRefine Framing ParserCorrect World Reader Evidence.
From S2P Require Import Response ResponseCorrect.

(** ** The two passes *)

Lemma size_add_small a b : 0 <= a + b <= SIZE_MAX -> size_add a b = a + b.
Proof. intros H. unfold size_add. by rewrite wrap64_small. Qed.

Lemma header_line_bytes_len h :
  zlen (header_line_bytes h) =
  zlen (cs_string (hdr_name h)) + 2 + (zlen (cs_string (hdr_value h)) + 2).
Proof. unfold header_line_bytes. rewrite !zlen_app. change (zlen (lit ": ")) with 2. change (zlen CRLF) with 2. lia. Qed.

Lemma headers_total hs : forall t, 0 <= t ->
  t + zlen (concat (map header_line_bytes hs)) <= SIZE_MAX ->
  foldl (fun t h =>
      size_add (size_add t (zlen (cs_string (hdr_name h)) + 2)) (zlen (cs_string (hdr_value h)) + 2))
    t hs = t + zlen (concat (map header_line_bytes hs)).
Proof.
  induction hs as [|h hs IH]; intros t Ht Hs; [unfold zlen; simpl; lia|].
  simpl in *. rewrite zlen_app, header_line_bytes_len in *.
  pose proof (zlen_nonneg (cs_string (hdr_name h))). pose proof (zlen_nonneg (cs_string (hdr_value h))).
  pose proof (zlen_nonneg (concat (map header_line_bytes hs))).
  rewrite !size_add_small by (rewrite ?size_add_small; lia).
  rewrite IH by lia. lia.
Qed.

(** An optional line adds its length. *)
Lemma optional_line (b : bool) t (l : list byte) : 0 <= t -> t + zlen l <= SIZE_MAX ->
  (if b then size_add t (zlen l) else t) = t + zlen (if b then l else []).
Proof.
  intros Ht Hs. pose proof (zlen_nonneg l). destruct b; [by apply size_add_small; lia|].
  unfold zlen; simpl; lia.
Qed.

Lemma serialized_total_exact r : zlen (serialized_head r) + 64 + 24 + 19 <= SIZE_MAX ->
  zlen (length_hdr r) < 64 -> serialized_total r = zlen (serialized_head r).
Proof.
  unfold serialized_total, serialized_head. rewrite !zlen_app. change (zlen CRLF) with 2.
  pose proof (zlen_nonneg (status_line r)). pose proof (zlen_nonneg (length_hdr r)).
  pose proof (zlen_nonneg (concat (map header_line_bytes (rsp_headers r)))).
  pose proof (zlen_nonneg (if need_server r then server_hdr else [])).
  pose proof (zlen_nonneg (if need_connection r then connection_hdr else [])).
  pose proof (zlen_nonneg (if need_content_length r then length_hdr r else [])).
  assert (zlen server_hdr = 24) by reflexivity. assert (zlen connection_hdr = 19) by reflexivity.
  intros Hs Hl. rewrite headers_total by lia. rewrite (optional_line (need_server r)) by lia.
  rewrite (optional_line (need_connection r)) by lia.
  rewrite (optional_line (need_content_length r)) by lia.
  rewrite size_add_small by lia. lia.
Qed.

(** ** The fixed buffers *)

Lemma dec_digits_length fuel : forall z acc, (length (dec_digits fuel z acc) <= fuel + length acc)%nat.
Proof.
  induction fuel as [|fuel IH]; intros z acc; simpl; [lia|].
  destruct (_ =? 0); simpl; [lia|]. etrans; [apply IH|]. simpl. lia.
Qed.

Lemma fmt_unsigned_length z : zlen (fmt_unsigned z) <= 20.
Proof. unfold zlen, fmt_unsigned. pose proof (dec_digits_length 20 z []) as H.
  cbn [length] in H. lia. Qed.

Lemma fmt_int_length z : zlen (fmt_int z) <= 21.
Proof.
  unfold fmt_int. case_bool; [|pose proof (fmt_unsigned_length z); lia].
  change ("-"%byte :: fmt_unsigned (- z)) with (["-"%byte] ++ fmt_unsigned (- z)).
  rewrite zlen_app. pose proof (fmt_unsigned_length (- z)). change (zlen ["-"%byte]) with 1. lia.
Qed.

Lemma reason_phrase_length code : zlen (http_reason_phrase code) <= 26.
Proof. unfold http_reason_phrase. repeat case_match; by vm_compute. Qed.

(** The reason phrase is the one of the status code, as [set_status] leaves it. *)
Definition reason_ok (r : http_response_t) : Prop :=
  reason_phrase r = http_reason_phrase (status_code r).

Lemma status_line_fits r : reason_ok r -> zlen (status_line r) < 128.
Proof.
  intros Hr. unfold status_line. rewrite Hr, !zlen_app.
  pose proof (fmt_int_length (status_code r)). pose proof (reason_phrase_length (status_code r)).
  change (zlen (lit "HTTP/1.1 ")) with 9. change (zlen (lit " ")) with 1. change (zlen CRLF) with 2. lia.
Qed.

Lemma length_hdr_fits r : zlen (length_hdr r) < 64.
Proof.
  unfold length_hdr. rewrite !zlen_app. pose proof (fmt_unsigned_length (body_length r)).
  change (zlen (lit "Content-Length: ")) with 16. change (zlen CRLF) with 2. lia.
Qed.

(** The head is within the address space, with room for the optional lines. *)
Definition fits_memory (r : http_response_t) : Prop :=
  zlen (serialized_head r) + 64 + 24 + 19 <= SIZE_MAX.

(** Serialization can only fail for lack of memory. *)
Lemma serialize_headers_wp r p : reason_ok r -> fits_memory r ->
  wp (http_response_serialize_headers r) (fun res p' => heap_only p p' /\
    p_live p' = p_live p ⊎ blk_str res /\ owned_str res /\
    match res with
    | Some c => cs_bytes c = serialized_head r
    | None => alloc_failed p p'
    end) p.
Proof.
  intros Hr Hs. unfold http_response_serialize_headers.
  destruct (Z.leb_spec 128 (zlen (status_line r))); [pose proof (status_line_fits r Hr); lia|].
  destruct (Z.leb_spec 64 (zlen (length_hdr r))); [pose proof (length_hdr_fits r); lia|].
  rewrite serialized_total_exact, Z.eqb_refl by (done || apply length_hdr_fits). simpl.
  apply wp_bind. eapply wp_mono; [apply wp_alloc_str|].
  intros [c|] p' (Hho & Hl & Ho & Hc); apply wp_ret; by split_and!.
Qed.

(** ** The socket *)

(** Between [w] and [w'] the bytes [d] were sent and nothing was received;
    the process and the contents of files are as they were. *)
Record sends (w w' : world) (d : list byte) : Prop := {
  sd_sent : w_sent w' = w_sent w ++ d;
  sd_proc : w_proc w' = w_proc w;
  sd_recv : w_recv w' = w_recv w;
  sd_received : w_received w' = w_received w;
  sd_poll : w_poll w' = w_poll w;
  sd_content : f_content (w_file w') = f_content (w_file w);
  sd_later : io_later w w';
}.

Lemma sends_refl w : sends w w [].
Proof. split; by rewrite ?app_nil_r. Qed.

Lemma sends_trans w1 w2 w3 d1 d2 : sends w1 w2 d1 -> sends w2 w3 d2 -> sends w1 w3 (d1 ++ d2).
Proof. intros [] []. split; try congruence; [|by etrans]. rewrite app_assoc. congruence. Qed.

#[export] Hint Resolve sends_refl : cinder.

(** A transmission of [full]: a prefix was sent, all of it on success; it fails when
    a call does, or when [short] holds. *)
Definition transmits (full : list byte) (short : Prop) (w : world) (ok : bool) (w' : world) : Prop :=
  exists d, sends w w' d /\ d `prefix_of` full /\ (ok = true -> d = full) /\
    (ok = false -> sending_over w w' \/ short).

Lemma transmits_step w w1 d full (short short' : Prop) ok w' : (short -> sending_over w w' \/ short') ->
  sends w w1 d -> transmits full short w1 ok w' -> transmits (d ++ full) short' w ok w'.
Proof.
  intros Hsh Hs (d' & Hs' & Hp & Hok & Hno). exists (d ++ d'). split_and!.
  - by eapply sends_trans.
  - by apply prefix_app.
  - intros Ht. by rewrite (Hok Ht).
  - intros Hf. destruct (Hno Hf) as [Ho|?]; [left|auto].
    eapply sending_over_mono; [apply Hs|reflexivity|done].
Qed.

Lemma transmits_weaken full (short short' : Prop) w ok w' : (short -> short') ->
  transmits full short w ok w' -> transmits full short' w ok w'.
Proof. intros Hs (d & ? & ? & ? & Hno). exists d. split_and!; try done. naive_solver. Qed.

Lemma transmits_stop w w1 full (short : Prop) : sends w w1 [] -> sending_over w w1 \/ short ->
  transmits full short w false w1.
Proof. intros Hs Hr. exists []. split_and!; [done|apply prefix_nil|done|done]. Qed.

Lemma transmits_all w full short : full = [] -> transmits full short w true w.
Proof. intros ->. exists []. by split_and!; auto with cinder. Qed.

Lemma io_later_files w w' : w_clock w' = w_clock w -> w_ticks w' = w_ticks w -> w_poll w' = w_poll w ->
  w_recv w' = w_recv w -> w_send w' = w_send w ->
  f_sendfile (w_file w') `suffix_of` f_sendfile (w_file w) ->
  f_read (w_file w') `suffix_of` f_read (w_file w) ->
  f_lseek_ok (w_file w') = f_lseek_ok (w_file w) -> io_later w w'.
Proof. intros H1 H2 H3 H4 H5. split; rewrite ?H1, ?H2, ?H3, ?H4, ?H5; done. Qed.

Lemma wlp_send bs w : wlp (send bs) (fun res w' => exists d, sends w w' d /\ d `prefix_of` bs /\
  match res with
  | inl e => d = [] /\ (e <> EINTR -> sending_over w w')
  | inr n => d = take n bs /\ n = length d /\ (bs <> [] -> n = 0%nat -> sending_over w w')
  end /\
  f_position (w_file w') = f_position (w_file w)) w.
Proof.
  unfold wlp, send. destruct (w_send w) as [|a rest] eqn:Ew; [done|].
  assert (Hio : forall w', w_clock w' = w_clock w -> w_ticks w' = w_ticks w -> w_poll w' = w_poll w ->
    w_recv w' = w_recv w -> w_send w' = rest -> w_file w' = w_file w -> io_later w w').
  { intros w' H1 H2 H3 H4 H5 H6. split; rewrite ?H1, ?H2, ?H3, ?H4, ?H5, ?H6, ?Ew; try done. by exists [a]. }
  assert (Hover : forall w', w_send w' = rest -> send_over a = true -> sending_over w w').
  { intros w' Hw Ha. left. rewrite Ew, Hw. by apply taken_head. }
  destruct a as [e|n]; simpl.
  - exists []. split_and!; [split; simpl; rewrite ?app_nil_r; try done; by apply Hio|apply prefix_nil|done| |done].
    intros He. apply Hover; [done|]. by destruct e.
  - exists (take n bs). split_and!; [split; simpl; try done; by apply Hio|apply prefix_take| |done| |done].
    + rewrite length_take. destruct (Nat.le_ge_cases n (length bs)).
      * by rewrite Nat.min_l.
      * rewrite Nat.min_r by done. by rewrite !take_ge.
    + rewrite length_take. intros Hne Hn. destruct bs as [|b bs]; [done|]. destruct n; [|simpl in Hn; lia].
      by apply Hover.
Qed.

Lemma wlp_send_all_loop fuel : forall bs w,
  wlp (send_all_loop fuel bs) (fun ok w' => transmits bs False w ok w' /\
    f_position (w_file w') = f_position (w_file w)) w.
Proof.
  induction fuel as [|fuel IH]; intros [|b bs] w; cbn [send_all_loop]; try done.
  1, 2: apply wlp_ret; split; [by apply transmits_all|done].
  apply wlp_bind. eapply wlp_mono; [apply wlp_send|].
  intros [e|n] w1 (d & Hs & Hp & Hd & Hpos).
  - destruct Hd as [-> Hover]. destruct (decide (e = EINTR)) as [->|Hne].
    + eapply wlp_mono; [apply IH|]. intros ok w' [Ht Hp'].
      split; [|congruence]. apply (transmits_step w w1 [] (b :: bs) False); auto.
    + assert (Hstop : wlp (mret false) (fun ok w' => transmits (b :: bs) False w ok w' /\
        f_position (w_file w') = f_position (w_file w)) w1).
      { apply wlp_ret. split; [|done]. apply transmits_stop; [done|]. left. auto. }
      by destruct e.
  - destruct Hd as (Hd & Hn & Hover). destruct n as [|n].
    { simpl in Hd. subst d. apply wlp_ret. split; [|done]. apply transmits_stop; [done|]. left. by apply Hover. }
    eapply wlp_mono; [apply IH|]. intros ok w' [Ht Hp']. split; [|congruence].
    rewrite <- (take_drop (S n) (b :: bs)). rewrite <- Hd. eapply (transmits_step w w1 _ _ False); auto.
Qed.

Lemma wlp_send_all bs w :
  wlp (send_all bs) (fun ok w' => transmits bs False w ok w' /\
    f_position (w_file w') = f_position (w_file w)) w.
Proof. apply wlp_send_all_loop. Qed.

(** ** File bodies *)

(** The bytes of the file from [offset], as many as declared. *)
Definition file_part (w : world) (fd offset count : nat) : list byte :=
  take count (drop offset (f_content (w_file w) fd)).

(** A transmission of a file part; success means that the file had them all. *)
Definition transmits_file (fd offset count : nat) (w : world) (ok : bool) (w' : world) : Prop :=
  transmits (file_part w fd offset count) (length (file_part w fd offset count) < count)%nat w ok w' /\
  (ok = true -> length (file_part w fd offset count) = count).

Lemma file_part_split w fd offset count n : (n <= count)%nat ->
  file_part w fd offset count = file_part w fd offset n ++ file_part w fd (offset + n) (count - n).
Proof.
  intros Hn. unfold file_part. replace count with (n + (count - n))%nat at 1 by lia.
  by rewrite <- take_take_drop, drop_drop.
Qed.

Lemma transmits_file_step w w1 fd offset count n ok w' :
  sends w w1 (file_part w fd offset n) -> length (file_part w fd offset n) = n -> (n <= count)%nat ->
  transmits_file fd (offset + n) (count - n) w1 ok w' -> transmits_file fd offset count w ok w'.
Proof.
  intros Hs Hl Hn [Ht Hok].
  assert (Hfp : file_part w1 fd (offset + n) (count - n) = file_part w fd (offset + n) (count - n)).
  { unfold file_part. by rewrite (sd_content _ _ _ Hs). }
  rewrite Hfp in Ht, Hok. split; rewrite (file_part_split _ _ _ _ n) by done.
  - eapply transmits_step; [|done|exact Ht]. rewrite length_app, Hl. intros ?. right. lia.
  - intros H. rewrite length_app, Hl, (Hok H). lia.
Qed.

Lemma transmits_file_stop w w1 fd offset count : sends w w1 [] ->
  sending_over w w1 \/ (length (file_part w fd offset count) < count)%nat ->
  transmits_file fd offset count w false w1.
Proof. intros Hs Hr. split; [|done]. by apply transmits_stop. Qed.

(** Nothing could be read at [offset]. *)
Lemma file_part_short w fd offset count n : (0 < count)%nat -> (0 < n)%nat ->
  take n (drop offset (f_content (w_file w) fd)) = [] -> (length (file_part w fd offset count) < count)%nat.
Proof.
  intros Hc Hn Ht. unfold file_part. destruct (drop offset (f_content (w_file w) fd)); [|destruct n; [lia|done]].
  by rewrite take_nil.
Qed.

Lemma transmits_file_skip w w1 fd offset count ok w' :
  sends w w1 [] -> transmits_file fd offset count w1 ok w' -> transmits_file fd offset count w ok w'.
Proof.
  intros Hs Ht. eapply (transmits_file_step w w1 fd offset count 0); [..|lia|].
  - by unfold file_part; rewrite take_0.
  - by unfold file_part; rewrite take_0.
  - by rewrite Nat.add_0_r, Nat.sub_0_r.
Qed.

Lemma transmits_file_zero w fd offset : transmits_file fd offset 0 w true w.
Proof.
  split; [|done]. apply transmits_all. apply take_0.
Qed.

Lemma file_part_take w fd offset n count :
  take (min n count) (drop offset (f_content (w_file w) fd)) =
  file_part w fd offset (length (take (min n count) (drop offset (f_content (w_file w) fd)))).
Proof.
  unfold file_part. rewrite length_take. set (l := drop _ _). generalize (min n count) as m.
  intros m. destruct (Nat.le_ge_cases m (length l)); [by rewrite Nat.min_l|].
  rewrite Nat.min_r by done. by rewrite !take_ge.
Qed.

(** [sendfile] was refused between two states. *)
Definition refused_between (w w' : world) : Prop :=
  taken sendfile_refused (f_sendfile (w_file w)) (f_sendfile (w_file w')).

Lemma refused_between_mono w w1 w' : io_later w w1 -> refused_between w1 w' -> refused_between w w'.
Proof.
  intros Hio H. unfold refused_between, taken in *.
  pose proof (many_suffix sendfile_refused _ _ (io_sendfile _ _ Hio)). lia.
Qed.

(** What the [sendfile] loop leaves: a transmission, which may also fail because the
    call is refused after some bytes; or the reason to copy by hand. *)
Definition sendfile_post (fd offset len : nat) (w : world) (res : bool + nat) (w' : world) : Prop :=
  let part := file_part w fd offset (len - offset) in
  match res with
  | inl ok => transmits part ((length part < len - offset)%nat \/ (0 < offset)%nat /\ refused_between w w') w ok w' /\
      (ok = true -> length part = (len - offset)%nat)
  | inr o => o = 0%nat /\ offset = 0%nat /\ sends w w' [] /\ refused_between w w'
  end.

(** After an interruption. *)
Lemma sendfile_post_again fd offset len w w1 res w' : sends w w1 [] ->
  sendfile_post fd offset len w1 res w' -> sendfile_post fd offset len w res w'.
Proof.
  intros Hs. pose proof (sd_later _ _ _ Hs) as Hio. unfold sendfile_post.
  assert (Hfp : file_part w1 fd offset (len - offset) = file_part w fd offset (len - offset)).
  { unfold file_part. by rewrite (sd_content _ _ _ Hs). }
  rewrite Hfp. destruct res as [ok|o].
  - intros [Ht Hl]. split; [|done]. eapply (transmits_step w w1 []); [|done|exact Ht].
    intros [?|[? Hr]]; right; [by left|right]. split; [done|]. by eapply refused_between_mono.
  - intros (-> & -> & Hs' & Hr). split_and!; [done..|by apply (sends_trans _ _ _ [] [] Hs)|].
    by eapply refused_between_mono.
Qed.

(** After [n] more bytes. *)
Lemma sendfile_post_some fd offset len w w1 n ok w' :
  sends w w1 (file_part w fd offset n) -> length (file_part w fd offset n) = n -> (0 < n)%nat ->
  (offset + n <= len)%nat -> taken sendfile_some (f_sendfile (w_file w)) (f_sendfile (w_file w1)) ->
  sendfile_post fd (offset + n) len w1 (inl ok) w' -> sendfile_post fd offset len w (inl ok) w'.
Proof.
  intros Hs Hl Hn Hle Hsome [Ht Hok]. pose proof (sd_later _ _ _ Hs) as Hio.
  assert (Hfp : file_part w1 fd (offset + n) (len - (offset + n)) =
    file_part w fd (offset + n) (len - offset - n)).
  { unfold file_part. rewrite (sd_content _ _ _ Hs). f_equal. lia. }
  rewrite Hfp in Ht, Hok. assert (Hio' : io_later w1 w') by (destruct Ht as (? & [] & _); done).
  unfold sendfile_post. cbv zeta. rewrite (file_part_split _ _ _ _ n) by lia. rewrite length_app, Hl. split.
  - eapply transmits_step; [|done|exact Ht]. intros [?|[_ Hr]]; [right; left; lia|left].
    right. right. right. split; [by eapply refused_between_mono|left]. unfold taken in *.
    pose proof (many_suffix sendfile_some _ _ (io_sendfile _ _ Hio')). lia.
  - intros H. rewrite (Hok H). lia.
Qed.

Lemma wlp_sendfile_loop fuel fd len : forall offset w, (offset <= len)%nat ->
  wlp (sendfile_loop fuel fd len offset) (sendfile_post fd offset len w) w.
Proof.
  induction fuel as [|fuel IH]; intros offset w Hle; cbn [sendfile_loop];
    (destruct (Nat.leb_spec len offset) as [|Hlt];
     [apply wlp_ret; unfold sendfile_post; replace (len - offset)%nat with 0%nat by lia;
      split; [apply transmits_all, take_0|done]|]).
  { done. }
  apply wlp_bind. unfold wlp at 1, sendfile.
  destruct (f_sendfile (w_file w)) as [|a rest] eqn:Ef; [done|].
  assert (Hio : forall pos got, io_later w (set_file {| f_content := f_content (w_file w);
    f_position := pos; f_sendfile := rest; f_read := f_read (w_file w);
    f_lseek_ok := f_lseek_ok (w_file w) |} got w)).
  { intros pos got. apply io_later_files; try done. rewrite Ef. by exists [a]. }
  assert (Htaken : forall f, f a = true -> taken f (f_sendfile (w_file w)) rest).
  { intros f Hf. rewrite Ef. by apply taken_head. }
  destruct a as [e|n].
  - match goal with |- wlp _ _ ?x => set (w1 := x) end.
    assert (Hs : sends w w1 []) by (split; try apply Hio; simpl; by rewrite ?app_nil_r).
    destruct (decide (e = EINTR)) as [->|Hne].
    { eapply wlp_mono; [by apply IH|]. intros res w'. by apply sendfile_post_again. }
    assert (Hstop : wlp (if (offset =? 0)%nat && (bool_decide (e = EINVAL) || bool_decide (e = ENOSYS))
      then mret (inr offset) else mret (inl false)) (sendfile_post fd offset len w) w1).
    { destruct (_ && _) eqn:Eb.
      - apply andb_true_iff in Eb as [Eb%Nat.eqb_eq Ee]. apply wlp_ret. subst offset. split_and!; [done..|].
        apply Htaken. apply orb_true_iff in Ee as [->%bool_decide_eq_true| ->%bool_decide_eq_true]; done.
      - apply wlp_ret. split; [|done]. apply transmits_stop; [done|].
        destruct (sendfile_refused (SendError e)) eqn:Er.
        + right. right. split; [|by apply Htaken].
          destruct offset; [|lia]. destruct e; try done.
        + left. right. left. apply Htaken. unfold sendfile_over. rewrite Er. by destruct e. }
    by destruct e.
  - set (got := take _ _). match goal with |- wlp _ _ ?x => set (w1 := x) end.
    assert (Hg : got = file_part w fd offset (length got)) by apply file_part_take.
    assert (Hs : sends w w1 (file_part w fd offset (length got))).
    { rewrite <- Hg. split; try apply Hio; done. }
    assert (Hl : length (file_part w fd offset (length got)) = length got) by by rewrite <- Hg.
    assert (Hgl : (length got <= len - offset)%nat) by (unfold got; rewrite length_take; lia).
    assert (H0 : length got = 0%nat -> n = 0%nat \/
      (length (file_part w fd offset (len - offset)) < len - offset)%nat).
    { intros Hz%nil_length_inv. destruct n as [|n]; [by left|right].
      apply (file_part_short _ _ _ _ (min (S n) (len - offset))); [lia|lia|done]. }
    assert (Hn : length got <> 0%nat -> n <> 0%nat) by (unfold got; rewrite length_take; lia).
    destruct (length got) as [|k].
    { apply wlp_ret. split; [|done]. apply transmits_stop.
      - unfold file_part in Hs. by rewrite take_0 in Hs.
      - destruct (H0 eq_refl) as [->|?]; [|by right; left]. left. right. left. by apply Htaken. }
    eapply wlp_mono; [apply IH; lia|]. intros [ok|o] w' Hr; [|destruct Hr as (_ & ? & _); lia].
    eapply sendfile_post_some; [done|done|lia|lia| |exact Hr]. apply Htaken. destruct n; [by destruct Hn|done].
Qed.

Lemma wlp_read_retry fuel fd want : (0 < want)%nat -> forall w,
  wlp (read_retry fuel fd want) (fun res w' => sends w w' [] /\
    match res with
    | None => sending_over w w'
    | Some bs =>
        bs = file_part w fd (f_position (w_file w) fd) (length bs) /\ (length bs <= want)%nat /\
        f_position (w_file w') fd = (f_position (w_file w) fd + length bs)%nat /\
        (bs = [] -> sending_over w w' \/ forall count, (0 < count)%nat ->
           (length (file_part w fd (f_position (w_file w) fd) count) < count)%nat)
    end) w.
Proof.
  intros Hwant. induction fuel as [|fuel IH]; intros w; [done|]. cbn [read_retry].
  apply wlp_bind. unfold wlp at 1, read.
  destruct (f_read (w_file w)) as [|a rest] eqn:Ef; [done|].
  match goal with |- wlp _ _ ?x => set (w1 := x) end.
  assert (Hs : sends w w1 []).
  { split; try done. apply io_later_files; try done. rewrite Ef. by exists [a]. }
  assert (Hover : read_over a = true -> sending_over w w1).
  { intros Ha. right. right. left. rewrite Ef. by apply taken_head. }
  destruct a as [e|n].
  - assert (Hpos : f_position (w_file w1) fd = f_position (w_file w) fd).
    { simpl. rewrite decide_True by done. lia. }
    destruct e; try (by apply wlp_ret; split; [|apply Hover]). eapply wlp_mono; [apply IH|].
    intros res w' [Hs' Hr]. split; [by apply (sends_trans _ _ _ [] [] Hs)|].
    assert (Hmono : sending_over w1 w' -> sending_over w w').
    { apply sending_over_mono; [apply Hs|reflexivity]. }
    destruct res as [bs|]; [|auto]. rewrite Hpos in Hr. unfold file_part in *.
    rewrite (sd_content _ _ _ Hs) in Hr. destruct Hr as (? & ? & ? & Hnil). split_and!; try done.
    intros Hb. destruct (Hnil Hb); auto.
  - apply wlp_ret. split; [done|].
    split_and!; [apply file_part_take|rewrite length_take; lia|simpl; by rewrite decide_True|].
    intros Hb. destruct n as [|n]; [left; by apply Hover|right]. intros count Hc.
    apply (file_part_short _ _ _ _ (min (S n) want)); [lia|lia|done].
Qed.

Lemma wlp_copy_loop fuel fd : forall remaining w,
  wlp (copy_loop fuel fd remaining)
    (transmits_file fd (f_position (w_file w) fd) remaining w) w.
Proof.
  induction fuel as [|fuel IH]; intros [|m] w; cbn [copy_loop]; try done.
  1, 2: apply wlp_ret, transmits_file_zero.
  set (want := if _ <? _ then _ else _).
  assert (Hwant : (want <= S m)%nat).
  { unfold want. destruct (Z.ltb_spec (Z.of_nat (S m)) HTTP_STATIC_SEND_CHUNK); lia. }
  assert (Hwant0 : (0 < want)%nat).
  { unfold want. destruct (Z.ltb_spec (Z.of_nat (S m)) HTTP_STATIC_SEND_CHUNK); [lia|].
    unfold HTTP_STATIC_SEND_CHUNK in *. lia. }
  clearbody want. apply wlp_bind. eapply wlp_mono; [by apply wlp_read_retry|].
  intros chunk w1 [Hs1 Hc]. destruct chunk as [[|b bs]|].
  1: { destruct Hc as (_ & _ & _ & Hnil). apply wlp_ret, transmits_file_stop; [done|].
       destruct (Hnil eq_refl) as [?|Hshort]; [by left|right]. apply Hshort. lia. }
  2: { by apply wlp_ret, transmits_file_stop; [|left]. }
  destruct Hc as (Hbs & Hlen & Hpos & _). remember (b :: bs) as chunk eqn:Ech.
  apply wlp_bind. eapply wlp_mono; [apply wlp_send_all|].
  intros ok w2 [(d & Hs2 & Hpre & Hok & Hno) Hpos2].
  pose proof (sends_trans _ _ _ _ _ Hs1 Hs2) as Hs. simpl in Hs.
  destruct ok; simpl.
  - rewrite (Hok eq_refl) in Hs. eapply wlp_mono; [apply IH|]. intros ok w3 Ht.
    apply (transmits_file_step w w2 _ _ _ (length chunk)); [by rewrite <- Hbs|by rewrite <- Hbs|lia|].
    by rewrite Hpos2, Hpos in Ht.
  - apply wlp_ret. split; [|done]. exists d. split_and!; [done| |done|].
    + etrans; [exact Hpre|]. rewrite (file_part_split _ _ _ (S m) (length chunk)) by lia.
      rewrite <- Hbs. by apply prefix_app_r.
    + intros _. left. destruct (Hno eq_refl) as [Ho|[]].
      eapply sending_over_mono; [apply Hs1|reflexivity|done].
Qed.

Lemma wlp_send_file_body fd len w : 0 <= len ->
  wlp (send_file_body fd len) (transmits_file fd 0 (Z.to_nat len) w) w.
Proof.
  intros Hlen. unfold send_file_body. destruct (Z.eqb_spec len 0) as [->|Hn].
  { apply wlp_ret, transmits_file_zero. }
  apply wlp_bind. eapply wlp_mono; [apply (wlp_sendfile_loop _ fd _ 0); lia|].
  intros [ok|o] w1 Hr.
  { apply wlp_ret. unfold sendfile_post in Hr. rewrite Nat.sub_0_r in Hr. destruct Hr as [Ht Hl]. split; [|done].
    eapply transmits_weaken; [|exact Ht]. intros [?|[? _]]; [done|lia]. }
  destruct Hr as (-> & _ & Hs & Hrefused). apply wlp_bind. unfold wlp at 1, lseek_set.
  destruct (f_lseek_ok (w_file w1)) eqn:El.
  2: { apply wlp_ret, transmits_file_stop; [done|]. left. right. right. right. split; [done|right].
       by rewrite <- (io_lseek _ _ (sd_later _ _ _ Hs)). }
  match goal with |- wlp _ _ ?x => set (w2 := x) end. simpl. rewrite Nat.sub_0_r.
  assert (Hs2 : sends w1 w2 []).
  { split; try (apply io_later_files; done); simpl; by rewrite ?app_nil_r. }
  assert (Hpos : f_position (w_file w2) fd = 0%nat) by (simpl; by rewrite decide_True).
  eapply wlp_mono; [apply wlp_copy_loop|]. intros ok w3 Ht. rewrite Hpos in Ht.
  eapply transmits_file_skip; [|done]. by apply (sends_trans _ _ _ [] []  Hs).
Qed.

(** ** Sending *)

(** The body bytes a response declares. *)
Definition body_bytes (r : http_response_t) (w : world) : list byte :=
  match body_kind r, rsp_body r, rsp_file_fd r with
  | HTTP_BODY_MEMORY, Some c, _ => cs_bytes c
  | HTTP_BODY_FILE, _, Some fd => take (Z.to_nat (body_length r)) (f_content (w_file w) fd)
  | _, _, _ => []
  end.

(** Everything a successful [http_response_send] puts on the socket. *)
Definition wire (r : http_response_t) (omit_body : bool) (w : world) : list byte :=
  serialized_head r ++ if omit_body then [] else body_bytes r w.

(** The same without the condition on the process state. *)
Record sends_io (w w' : world) (d : list byte) : Prop := {
  si_sent : w_sent w' = w_sent w ++ d;
  si_recv : w_recv w' = w_recv w;
  si_received : w_received w' = w_received w;
  si_poll : w_poll w' = w_poll w;
  si_content : f_content (w_file w') = f_content (w_file w);
  si_later : io_later w w';
}.

Lemma sends_sends_io w w' d : sends w w' d -> sends_io w w' d.
Proof. by intros []. Qed.

Lemma sends_io_proc w p : sends_io w (set_proc p w) [].
Proof. split; try apply io_later_proc; simpl; by rewrite ?app_nil_r. Qed.

Lemma sends_io_trans w1 w2 w3 d1 d2 :
  sends_io w1 w2 d1 -> sends_io w2 w3 d2 -> sends_io w1 w3 (d1 ++ d2).
Proof. intros [] []. split; try congruence; [|by etrans]. rewrite app_assoc. congruence. Qed.

Lemma wlp_send_body r w : body_wf r ->
  wlp (send_body r) (fun ok w' =>
    transmits (body_bytes r w) (zlen (body_bytes r w) < body_length r) w ok w' /\
    (ok = true -> zlen (body_bytes r w) = body_length r)) w.
Proof.
  unfold body_wf, send_body, body_bytes. intros Hwf. destruct (body_kind r).
  - destruct Hwf as (_ & -> & _). apply wlp_ret. split; [|done]. by apply transmits_all.
  - destruct Hwf as (c & -> & _ & Hlen & _). destruct (Z.eqb_spec (body_length r) 0) as [H0|_].
    + apply wlp_ret. split; [|done]. rewrite Hlen in H0. unfold zlen in H0.
      destruct (cs_bytes c); [|simpl in H0; lia]. by apply transmits_all.
    + rewrite take_ge by (rewrite Hlen; unfold zlen; lia).
      eapply wlp_mono; [apply wlp_send_all|]. intros ok w' [Ht _]. split; [|done].
      by eapply transmits_weaken; [|exact Ht].
  - destruct Hwf as ([fd ->] & _ & Hlen & _).
    eapply wlp_mono; [apply wlp_send_file_body; lia|]. intros ok w' [Ht Hl].
    unfold file_part in *. rewrite drop_0 in *. split.
    + eapply transmits_weaken; [|exact Ht]. unfold zlen. lia.
    + intros Hok. unfold zlen. rewrite (Hl Hok). lia.
Qed.

(** What [http_response_send] promises: no block is kept, a prefix of [wire] is
    sent, and on success all of it, with a body of the declared length; it fails
    when a call fails, memory runs out or, after the head, the file is shorter
    than declared. *)
Definition send_post (r : http_response_t) (omit_body : bool) (w : world) (ok : bool) (w' : world)
  : Prop :=
  heap_only (w_proc w) (w_proc w') /\ p_live (w_proc w') = p_live (w_proc w) /\
  exists d, sends_io w w' d /\ d `prefix_of` wire r omit_body w /\
    (ok = true -> d = wire r omit_body w /\
       (omit_body = false -> zlen (body_bytes r w) = body_length r)) /\
    (ok = false -> sending_over w w' \/ alloc_failed (w_proc w) (w_proc w') \/
       omit_body = false /\ zlen (body_bytes r w) < body_length r /\ serialized_head r `prefix_of` d).

Lemma wlp_response_send r omit_body w :
  body_wf r -> reason_ok r -> fits_memory r ->
  wlp (http_response_send r omit_body) (send_post r omit_body w) w.
Proof.
  intros Hwf Hr Hm. unfold http_response_send. apply wlp_bind, wlp_lift.
  eapply wp_mono; [by apply serialize_headers_wp|]. intros [c|] p1 (Hho1 & Hl1 & Ho & Hc).
  2: { apply wlp_ret. split_and!; [done|simpl in *; multiset_solver|]. exists [].
       split_and!; [apply sends_io_proc|apply prefix_nil|done|auto]. }
  apply wlp_bind. eapply wlp_mono; [apply wlp_send_all|]. intros ok w2 [(d & Hs & Hpre & Hok & Hno) _].
  rewrite Hc in *. assert (Hfree : forall (k : M world bool) Q, (forall p3, heap_only (w_proc w) p3 ->
      p_live p3 = p_live (w_proc w) -> wlp k Q (set_proc p3 w2)) ->
      wlp (lift (free_str (Some c));; k) Q w2).
  { intros k Q Hk. apply wlp_bind, wlp_lift. pose proof (sd_proc _ _ _ Hs) as Hp. simpl in Hp.
    eapply wp_mono; [apply wp_free_str; [done|rewrite Hp; multiset_solver]|].
    intros _ p3 [Hho3 Hl3]. rewrite Hp in *. apply Hk; [by etrans|multiset_solver]. }
  pose proof (sends_io_trans _ _ _ _ _ (sends_io_proc w p1) (sends_sends_io _ _ _ Hs)) as Hs2.
  simpl in Hs2. destruct ok; simpl; apply Hfree; intros p3 Hho3 Hl3.
  - rewrite (Hok eq_refl) in Hs2. pose proof (sends_io_trans _ _ _ _ _ Hs2 (sends_io_proc w2 p3)) as Hs3.
    rewrite app_nil_r in Hs3. unfold send_post, wire. destruct omit_body.
    + apply wlp_ret. split_and!; [done|done|]. exists (serialized_head r). by rewrite app_nil_r.
    + eapply wlp_mono; [by apply wlp_send_body|]. intros ok w4 [(d4 & Hs4 & Hp4 & Hok4 & Hno4) Hlen].
      assert (Hbb : body_bytes r (set_proc p3 w2) = body_bytes r w).
      { unfold body_bytes. by rewrite (si_content _ _ _ Hs3). }
      rewrite Hbb in *. pose proof (sd_proc _ _ _ Hs4) as Hp. simpl in Hp. rewrite Hp.
      split_and!; [done|done|]. exists (serialized_head r ++ d4). split_and!.
      * eapply sends_io_trans; [done|]. by apply sends_sends_io.
      * by apply prefix_app.
      * intros H. rewrite (Hok4 H). auto.
      * intros H. destruct (Hno4 H) as [Hov|?]; [left|right; right; split_and!; [done|done|by apply prefix_app_r]].
        eapply sending_over_mono; [apply Hs3|reflexivity|done].
  - apply wlp_ret. split_and!; [done|done|]. exists d. split_and!; [|by apply prefix_app_r|done|].
    + rewrite <- (app_nil_r d). eapply sends_io_trans; [done|]. apply sends_io_proc.
    + intros _. left. destruct (Hno eq_refl) as [Hov|[]].
      eapply sending_over_mono; [apply (io_later_proc w p1)|apply io_later_proc|done].
Qed.

(** ** Framing of the response *)

(** The header fields on the wire, the automatic ones included. *)
Definition string_pair (h : http_header_t) : list byte * list byte :=
  (cs_string (hdr_name h), cs_string (hdr_value h)).

Definition wire_headers (r : http_response_t) : list (list byte * list byte) :=
  map string_pair (rsp_headers r) ++
  (if need_server r then [(lit "Server", lit "CinderHTTP/1.0")] else []) ++
  (if need_connection r then [(lit "Connection", lit "close")] else []) ++
  (if need_content_length r then [(lit "Content-Length", fmt_unsigned (body_length r))] else []).

Definition status_text (r : http_response_t) : list byte :=
  lit "HTTP/1.1 " ++ fmt_int (status_code r) ++ lit " " ++ reason_phrase r.

Lemma serialized_head_lines r :
  serialized_head r =
  (crlf_line (status_text r) ++ unlines (map print_header (wire_headers r))) ++ CRLF.
Proof.
  assert (Hh : forall hs, concat (map header_line_bytes hs) =
    unlines (map print_header (map string_pair hs))).
  { induction hs as [|h hs IH]; [done|]. unfold unlines in *. simpl. rewrite IH. f_equal.
    unfold header_line_bytes, crlf_line, print_header. simpl. by rewrite <- !app_assoc. }
  assert (Ho : forall (b : bool) l nv, l = crlf_line (print_header nv) ->
    (if b then l else []) = unlines (map print_header (if b then [nv] else []))).
  { intros [] l nv ->; [|done]. unfold unlines. simpl. by rewrite app_nil_r. }
  unfold serialized_head, wire_headers. rewrite Hh, !map_app.
  rewrite (Ho _ server_hdr (lit "Server", lit "CinderHTTP/1.0")) by done.
  rewrite (Ho _ connection_hdr (lit "Connection", lit "close")) by done.
  rewrite (Ho _ (length_hdr r) (lit "Content-Length", fmt_unsigned (body_length r)))
    by done.
  unfold unlines. rewrite !map_app, !concat_app. unfold status_line, status_text, crlf_line.
  by rewrite <- !app_assoc.
Qed.

Lemma digits_printable z : 0 <= z <= SIZE_MAX ->
  printable_header (lit "Content-Length", fmt_unsigned z).
Proof.
  intros (Hne & _ & HF & _)%fmt_unsigned_spec. rewrite Forall_forall in HF.
  assert (Hd : forall c, c ∈ fmt_unsigned z -> c <> LF /\ c <> NUL /\ is_ows c = false).
  { intros c Hc%HF. clear -Hc. destruct c; split_and!; try done; vm_compute in Hc; done. }
  split_and!; try done.
  - by apply (bool_decide_unpack _).
  - by apply (bool_decide_unpack _).
  - by apply (bool_decide_unpack _).
  - intros Hc%Hd. naive_solver.
  - intros Hc%Hd. naive_solver.
  - simpl. intros c Hc. apply Hd. destruct (fmt_unsigned z); [done|]. simplify_eq/=. left.
  - simpl. intros c Hc. apply Hd. by apply last_Some_elem_of.
Qed.
