(* ===== verification/ResponseProps.v ===== *)
(** * Theorems about responses

    The life cycle of a response under every sequence of operations and every
    pattern of allocation failures, the replacement of headers, the head on
    the wire and the framing it declares, and the delivery of the bytes. *)
From S2P Require Import Prelude CLib Proc Request Parser ParserSpec ParserRefine Framing ParserCorrect.
From S2P Require Import World Evidence Response ResponseCorrect ResponseWire.

(** ** Life cycle *)

(** The operations of http_response.h as a client calls them.  A client that
    attaches a file has opened it, and closes it itself when that fails. *)
Inductive response_op :=
| OpStatus (code : Z)
| OpAddHeader (name value : list byte)
| OpSetHeader (name value : list byte)
| OpRemoveHeader (name : list byte)
| OpBodyText (text : option (list byte))
| OpBodyCopy (bytes : list byte)
| OpFile (size : Z)
| OpBuildText (code : Z) (text : option (list byte))
| OpBuildJson (code : Z) (json : option (list byte))
| OpDestroy.

Definition run_op (op : response_op) (r : http_response_t) : M proc http_response_t :=
  match op with
  | OpStatus code => mret (http_response_set_status code r)
  | OpAddHeader n v => '(_, r) ← http_response_add_header r n v; mret r
  | OpSetHeader n v => '(_, r) ← http_response_set_header r n v; mret r
  | OpRemoveHeader n => '(_, r) ← http_response_remove_header r n; mret r
  | OpBodyText t => '(_, r) ← http_response_set_body_text r t; mret r
  | OpBodyCopy bs => '(_, r) ← http_response_set_body_copy r (Some bs) (zlen bs); mret r
  | OpFile size =>
      fd ← fd_open;
      '(ok, r) ← http_response_set_file_body r (Some fd) size;
      if (ok : bool) then mret r else close fd;; mret r
  | OpBuildText code t => '(_, r) ← http_response_build_text r code t; mret r
  | OpBuildJson code t => '(_, r) ← http_response_build_json r code t; mret r
  | OpDestroy => http_response_destroy r
  end.

Fixpoint run_ops (ops : list response_op) (r : http_response_t) : M proc http_response_t :=
  match ops with
  | [] => mret r
  | op :: ops => r ← run_op op r; run_ops ops r
  end.

Definition op_ok (r : http_response_t) (p : proc) (r' : http_response_t) (p' : proc) : Prop :=
  resp_step p r p' r' /\ held p' r'.

Lemma op_ok_post p r Q res p' : op_post p r Q res p' -> op_ok r p res.2 p'.
Proof. destruct res as [ok r']. by intros (? & ? & _). Qed.

(** Dropping the first component of a result. *)
Lemma wp_snd {A} (m : M proc (A * http_response_t)) (Q : http_response_t -> proc -> Prop) p :
  wp m (fun res p' => Q res.2 p') p -> wp ('(_, r) ← m; mret r) Q p.
Proof. intros H. apply wp_bind. eapply wp_mono; [exact H|]. by intros [a r] p' Hq. Qed.

Lemma wp_op_file r size p : held p r -> wp (run_op (OpFile size) r) (op_ok r p) p.
Proof.
  intros Hh. pose proof Hh as [Hown Hlv Hfd]. cbn [run_op]. apply wp_bind.
  unfold wp at 1, fd_open. set (fd := p_next_fd p). set (p1 := set_fds _ _ _).
  assert (Hh1 : held p1 r) by (split; simpl; [done|done|multiset_solver]).
  assert (Ha : advances p p1) by by split.
  destruct (decide (0 <= size <= SIZE_MAX)) as [Hsz|Hsz].
  - apply wp_bind. eapply wp_mono; [apply set_file_body_wp; [done|done|simpl; multiset_solver]|].
    intros [ok r'] p2 (-> & _ & Ha2 & Hl2 & Hf2 & Hh2). apply wp_ret. split; [|done].
    split; [by etrans|done|]. simpl in Hf2. multiset_solver.
  - assert (Hfail : http_response_set_file_body r (Some fd) size = mret (false, r)).
    { unfold http_response_set_file_body. destruct (Z.ltb_spec size 0); [done|].
      destruct (Z.ltb_spec SIZE_MAX size); [done|lia]. }
    rewrite Hfail. apply wp_bind, wp_ret, wp_bind.
    eapply wp_mono; [apply wp_close; simpl; multiset_solver|].
    intros _ p2 (Ha2 & Hl2 & Hf2). apply wp_ret. simpl in *.
    assert (Hs : resp_step p r p2 r).
    { split; [by etrans|by rewrite Hl2|]. assert (p_fds p2 = p_fds p) as -> by multiset_solver. done. }
    split; [done|]. by apply (held_step p r).
Qed.

Lemma wp_body_none r p : held p r ->
  wp (http_response_set_body_owned r None 0) (fun res p' => op_ok r p res.2 p') p.
Proof.
  intros Hh. apply wp_bind. eapply wp_mono; [by apply clear_body_wp|].
  intros r' p' (Hs & Hh' & _). by apply wp_ret.
Qed.

Lemma wp_run_op op r p : held p r -> wp (run_op op r) (op_ok r p) p.
Proof.
  intros Hh. destruct op as [code|n v|n v|n|[t|]|[|b bs]|size|code t|code t|]; cbn [run_op].
  - apply wp_ret. split; [by split|by apply held_status].
  - apply wp_snd. eapply wp_mono; [by apply add_header_wp|]. intros ? ? H. by eapply op_ok_post.
  - apply wp_snd. eapply wp_mono; [by apply set_header_wp|]. intros [ok r'] p' (? & ? & _). by split.
  - apply wp_snd. eapply wp_mono; [by apply remove_header_wp|]. intros [k r'] p' (? & ? & _). by split.
  - apply wp_snd. eapply wp_mono; [by apply set_body_text_wp|]. intros ? ? H. by eapply op_ok_post.
  - apply wp_snd. by apply wp_body_none.
  - apply wp_snd. by apply wp_body_none.
  - apply wp_snd. eapply wp_mono; [by apply set_body_copy_wp|]. intros ? ? H. by eapply op_ok_post.
  - by apply wp_op_file.
  - apply wp_snd. eapply wp_mono; [by apply build_wp|]. intros [ok r'] p' (? & ? & _). by split.
  - apply wp_snd. eapply wp_mono; [by apply build_wp|]. intros [ok r'] p' (? & ? & _). by split.
  - eapply wp_mono; [by apply response_destroy_wp|]. intros r' p' [-> Hs]. split; [done|].
    eapply held_step; [done..|]. apply owned_response_init.
Qed.

Lemma wp_run_ops ops : forall r p, held p r -> wp (run_ops ops r) (op_ok r p) p.
Proof.
  induction ops as [|op ops IH]; intros r p Hh; simpl.
  { apply wp_ret. split; [apply resp_step_refl|done]. }
  apply wp_bind. eapply wp_mono; [by apply wp_run_op|]. intros r1 p1 [Hs1 Hh1].
  eapply wp_mono; [by apply IH|]. intros r2 p2 [Hs2 Hh2]. split; [|done].
  by eapply resp_step_trans.
Qed.

(** C19. Ownership.  Whatever operations are applied to a fresh response, in
    whatever order and whichever allocations fail, nothing is freed or closed
    twice, and [http_response_destroy] then gives back every heap block and
    every descriptor. *)
Theorem response_life_cycle ops p :
  wp (r ← run_ops ops http_response_init; http_response_destroy r)
    (fun r' p' => r' = http_response_init /\ p_live p' = p_live p /\ p_fds p' = p_fds p) p.
Proof.
  assert (Hh : held p http_response_init).
  { split; [apply owned_response_init|..]; unfold blk_response, fd_response; simpl; multiset_solver. }
  apply wp_bind. eapply wp_mono; [by apply wp_run_ops|]. intros r1 p1 [Hs1 Hh1].
  eapply wp_mono; [by apply response_destroy_wp|]. intros r2 p2 [-> Hs2].
  destruct (resp_step_trans _ _ _ _ _ _ Hs1 Hs2) as [_ Hl Hf].
  unfold blk_response, fd_response in *. simpl in *. split_and!; [done|multiset_solver..].
Qed.

(** ** Headers *)

(** [http_response_set_header] replaces: after success exactly one header has
    that name, compared without case, and it carries the value; the headers of
    other names are kept.  It fails only when memory runs out. *)
Theorem set_header_replaces r name value p :
  held p r -> NUL ∉ name ->
  wp (http_response_set_header r name value) (fun '(ok, r') p' =>
    headers_only r r' /\ others name (rsp_headers r') ≡ₚ others name (rsp_headers r) /\
    map pair_of (filter (fun h => matches name h = true) (rsp_headers r')) =
      (if ok then [(name, value)] else []) /\
    (ok = false -> alloc_failed p p')) p.
Proof.
  intros Hh Hnul. eapply wp_mono; [by apply set_header_wp|].
  intros [ok r'] p' (_ & _ & Ho & Hr). split; [done|].
  assert (Hoo : forall hs, others name (others name hs) = others name hs).
  { intros hs. by apply list_filter_filter_r. }
  assert (Hno : forall hs, filter (fun h => matches name h = true) (others name hs) = []).
  { induction hs as [|h hs IH]; [done|]. unfold others in *.
    destruct (matches name h) eqn:E.
    - by rewrite filter_cons_False by congruence.
    - rewrite filter_cons_True by done. by rewrite filter_cons_False by congruence. }
  destruct ok.
  - destruct Hr as (h & Hp & Hperm). assert (Hm : matches name h = true).
    { unfold pair_of in Hp. simplify_eq/=. unfold matches, cs_string.
      rewrite c_string_id by done. apply header_name_equal_refl. }
    split_and!; [| |done].
    + rewrite Hperm, others_app, Hoo. unfold others at 2. rewrite filter_cons_False by congruence.
      by rewrite filter_nil, app_nil_r.
    + assert (Hf : filter (fun h => matches name h = true) (rsp_headers r') ≡ₚ [h]).
      { rewrite Hperm, filter_app, Hno, filter_cons_True by done. done. }
      apply Permutation_singleton_r in Hf. by rewrite Hf; simpl; rewrite Hp.
  - destruct Hr as [Hperm Hf]. split_and!; [by rewrite Hperm, Hoo| |done].
    assert (Hf' : filter (fun h => matches name h = true) (rsp_headers r') ≡ₚ []) by by rewrite Hperm, Hno.
    apply Permutation_nil_r in Hf'. by rewrite Hf'.
Qed.

(** ** The head *)

(** The serializer.  The size computed by the first pass is the number of bytes
    the second pass writes, so the buffer is never overrun and the mismatch
    branch is dead; both fixed buffers are large enough; the only failure is
    memory exhaustion, and the caller owns the buffer on success. *)
Theorem serialize_headers_exact r p :
  reason_ok r -> fits_memory r ->
  serialized_total r = zlen (serialized_head r) /\
  wp (http_response_serialize_headers r) (fun res p' =>
    p_live p' = p_live p ⊎ blk_str res /\
    match res with
    | Some c => cs_bytes c = serialized_head r
    | None => alloc_failed p p'
    end) p.
Proof.
  intros Hr Hm. split; [apply serialized_total_exact; [done|apply length_hdr_fits]|].
  eapply wp_mono; [by apply serialize_headers_wp|]. naive_solver.
Qed.

(** What a recipient does with a head: it reads lines up to the empty one and
    splits them at the colon; the rest is the body. *)
Fixpoint read_fields (fuel : nat) (data : list byte) : option (list (list byte * list byte) * list byte) :=
  match fuel with
  | O => None
  | S fuel =>
      match next_line data with
      | None => None
      | Some ([], body) => Some ([], body)
      | Some (line, rest) =>
          match split_header line, read_fields fuel rest with
          | Some h, Some (hs, body) => Some (h :: hs, body)
          | _, _ => None
          end
      end
  end.

Definition recipient_reads (data : list byte) : option (list (list byte * list byte) * list byte) :=
  match next_line data with
  | None => None
  | Some (_, rest) => read_fields (S (length data)) rest
  end.

Lemma read_fields_unlines ls hs body :
  Forall2 (fun l h => (LF ∉ l) /\ header_line_spec l = Some h) ls hs ->
  forall fuel, (length ls < fuel)%nat -> read_fields fuel (unlines ls ++ CRLF ++ body) = Some (hs, body).
Proof.
  induction 1 as [|l h ls hs [Hlf Hl] _ IH]; intros [|fuel] Hf; simpl length in Hf; try lia; cbn [read_fields].
  - rewrite (proj2 (next_line_Some _ [] body)); [done|]. split; [done|set_solver].
  - rewrite unlines_cons. rewrite (proj2 (next_line_Some _ l (unlines ls ++ CRLF ++ body))).
    2: { split; [|done]. by rewrite <- ?app_assoc. }
    apply header_line_spec_split in Hl. pose proof (split_header_nonempty _ _ Hl). destruct l; [done|].
    rewrite Hl, IH by lia. done.
Qed.

(** A response whose fields can be written as header lines. *)
Record well_formed_head (r : http_response_t) : Prop := {
  wh_reason : reason_ok r;
  wh_headers : Forall printable_header (map string_pair (rsp_headers r));
  wh_length : Forall (fun h => is_content_length h = false) (map string_pair (rsp_headers r));
  wh_encoding : Forall (fun h => is_transfer_encoding h = false) (map string_pair (rsp_headers r));
  wh_body : 0 <= body_length r <= SIZE_MAX;
}.

Lemma no_content_length_header r :
  Forall (fun h => is_content_length h = false) (map string_pair (rsp_headers r)) ->
  need_content_length r = true.
Proof.
  unfold need_content_length, response_has_header. intros HF. apply negb_true_iff.
  induction (rsp_headers r) as [|h hs IH]; [done|]. apply Forall_cons_1 in HF as [Hh HF]. simpl.
  rewrite (IH HF), orb_false_r. unfold is_content_length in Hh. simpl in Hh.
  unfold cs_string in Hh. rewrite c_string_id in Hh by apply c_string_no_nul. exact Hh.
Qed.

Lemma wire_headers_fields r : well_formed_head r -> exists others,
  wire_headers r = others ++ [(lit "Content-Length", fmt_unsigned (body_length r))] /\
  Forall (fun h => is_content_length h = false) others /\
  Forall (fun h => is_transfer_encoding h = false) others /\ Forall printable_header (wire_headers r).
Proof.
  intros [_ Hh Hcl Hte Hb]. unfold wire_headers. rewrite (no_content_length_header r Hcl).
  eexists. split; [by rewrite !app_assoc|]. rewrite !Forall_app.
  split_and!; try done; try destruct (need_server r); try destruct (need_connection r);
    try (by repeat constructor); try (apply Forall_singleton; by apply digits_printable);
    apply Forall_singleton; split_and!; try done;
    solve [by apply (bool_decide_unpack _)|by intros c [= <-]].
Qed.

Lemma wire_headers_declare r : well_formed_head r -> body_length r <= HTTP_MAX_BODY_SIZE ->
  declares (wire_headers r) (body_length r).
Proof.
  intros Hw Hb. destruct (wire_headers_fields r Hw) as (others & -> & Hcl & Hte & _).
  destruct (fmt_unsigned_spec _ (wh_body _ Hw)) as (Hne & _ & HF & Hv).
  eapply (declares_one _ others (lit "Content-Length", fmt_unsigned (body_length r)) []); try done.
  - rewrite Forall_app. split; [done|]. by repeat constructor.
  - by rewrite app_nil_r.
  - simpl. rewrite c_string_id; [apply content_length_value_ok; by split_and!|].
    rewrite Forall_forall in HF. by intros Hn%HF.
Qed.

Lemma status_text_no_lf r : reason_ok r -> 0 <= status_code r <= SIZE_MAX -> LF ∉ status_text r.
Proof.
  intros Hr Hc. unfold status_text. rewrite Hr, !elem_of_app.
  assert (Hd : LF ∉ fmt_int (status_code r)).
  { unfold fmt_int. destruct (Z.ltb_spec (status_code r) 0); [lia|].
    destruct (fmt_unsigned_spec _ Hc) as (_ & _ & HF & _). rewrite Forall_forall in HF.
    by intros Hl%HF. }
  assert (Hp : LF ∉ http_reason_phrase (status_code r)).
  { unfold http_reason_phrase. repeat case_match; by apply (bool_decide_unpack _). }
  assert (H1 : LF ∉ lit "HTTP/1.1 ") by by apply (bool_decide_unpack _).
  assert (H2 : LF ∉ lit " ") by by apply (bool_decide_unpack _).
  naive_solver.
Qed.

(** C25. Framing of responses.  For a body of any length the server can hold, and
    headers that can be written as lines and of which none is a Content-Length or
    a Transfer-Encoding: the head ends at its own final CRLF CRLF; a recipient
    that reads it line by line finds the fields of the response, with the body
    after them; exactly one of them is a Content-Length, and it is the decimal
    numeral of the body length; and the framing rules of the server itself, up to
    the 1 MiB they accept, read back that length.  So a client cannot be
    desynchronised by the fields of a response. *)
Theorem response_frames_itself r body :
  well_formed_head r -> 0 <= status_code r <= SIZE_MAX ->
  http_find_header_terminator (serialized_head r ++ body) = Some (length (serialized_head r) - 4)%nat /\
  recipient_reads (serialized_head r ++ body) = Some (wire_headers r, body) /\
  (exists v, map snd (List.filter is_content_length (wire_headers r)) = [v] /\
     Forall (fun c => is_digit c = true) v /\ dec_value 0 v = body_length r) /\
  Forall (fun h => is_transfer_encoding h = false) (wire_headers r) /\
  (body_length r <= HTTP_MAX_BODY_SIZE ->
   framing_spec (serialized_head r ++ body) (length (serialized_head r)) = inr (body_length r)).
Proof.
  intros Hw Hc. destruct (wire_headers_fields r Hw) as (others & Heq & Hcl & Hte & Hp).
  destruct (fmt_unsigned_spec _ (wh_body _ Hw)) as (_ & _ & HF & Hv).
  pose proof (status_text_no_lf r (wh_reason _ Hw) Hc) as Hlf.
  apply printed_lines in Hp. apply header_lines_grammar in Hp. rewrite serialized_head_lines. split_and!.
  - rewrite (lines_terminator (status_text r) _ (wire_headers r) body Hlf Hp).
    f_equal. rewrite (length_app _ CRLF). simpl. lia.
  - unfold recipient_reads, crlf_line. rewrite <- !app_assoc.
    rewrite (proj2 (next_line_Some _ (status_text r)
      (unlines (map print_header (wire_headers r)) ++ CRLF ++ body))) by by split.
    apply read_fields_unlines; [done|]. rewrite !length_app. pose proof (unlines_length (map print_header (wire_headers r))). lia.
  - exists (fmt_unsigned (body_length r)). rewrite Heq, List.filter_app. split_and!; [|done..].
    by rewrite filter_none.
  - rewrite Heq, Forall_app. by split; [|repeat constructor].
  - intros Hb. by apply (lines_framing _ _ (wire_headers r)); [..|apply wire_headers_declare].
Qed.

(** [http_response_serialize] returns the head followed by a memory body, and
    frees its intermediate buffer on every path. *)
Theorem serialize_with_body r omit_body p :
  reason_ok r -> fits_memory r -> body_wf r ->
  wp (http_response_serialize r omit_body) (fun res p' =>
    p_live p' = p_live p ⊎ blk_str res /\
    match res with
    | Some c => cs_bytes c = serialized_head r ++
        match body_kind r, rsp_body r with
        | HTTP_BODY_MEMORY, Some b => if omit_body then [] else cs_bytes b
        | _, _ => []
        end
    | None => alloc_failed p p'
    end) p.
Proof.
  intros Hr Hm Hwf. unfold http_response_serialize. apply wp_bind.
  eapply wp_mono; [by apply serialize_headers_wp|]. intros [h|] p1 (Hho1 & Hl1 & Ho1 & Hh).
  2: { by apply wp_ret. }
  unfold body_wf in Hwf. destruct (body_kind r);
    [by apply wp_ret; rewrite app_nil_r| |by apply wp_ret; rewrite app_nil_r].
  destruct Hwf as (b & -> & _ & Hlen & _).
  destruct omit_body; cbn [negb andb]; [by apply wp_ret; rewrite app_nil_r|].
  destruct (Z.ltb_spec 0 (body_length r)) as [Hpos|H0].
  2: { apply wp_ret. rewrite Hlen in H0. pose proof (zlen_nonneg (cs_bytes b)). unfold zlen in *.
       destruct (cs_bytes b); [by rewrite app_nil_r|simpl in *; lia]. }
  apply wp_alloc_then.
  - intros p2 Hho2 Hl2 Hf2. apply wp_free_then; [done|multiset_solver|]. intros p3 Hho3 Hl3.
    apply wp_ret. split; [cbn [blk_str]; multiset_solver|]. eauto using alloc_failed_l, alloc_failed_r.
  - intros nb p2 Hho2 Hl2. apply wp_free_then; [done|multiset_solver|]. intros p3 Hho3 Hl3.
    apply wp_ret. split; [ledger|]. cbn [cs_bytes]. rewrite Hh.
    by rewrite take_ge by (rewrite Hlen; unfold zlen; lia).
Qed.

(** ** Delivery *)

(** C21. Whatever [send], [sendfile], [read] and [lseek] answer, a prefix of the head
    and the body goes out; on success all of it does, with exactly as many body
    bytes as the head declares, and the heap is as it was; it reports a failure
    only when a call has failed or made no progress, memory ran out, or the file
    is shorter than declared. *)
Theorem http_response_send_exact r omit_body w :
  body_wf r -> reason_ok r -> fits_memory r ->
  wlp (http_response_send r omit_body) (fun ok w' =>
    p_live (w_proc w') = p_live (w_proc w) /\
    exists d, w_sent w' = w_sent w ++ d /\ d `prefix_of` wire r omit_body w /\
      (ok = true -> d = wire r omit_body w /\
        (omit_body = false -> zlen (body_bytes r w) = body_length r)) /\
      (ok = false -> sending_over w w' \/ alloc_failed (w_proc w) (w_proc w') \/
        omit_body = false /\ zlen (body_bytes r w) < body_length r /\ serialized_head r `prefix_of` d)) w.
Proof.
  intros Hwf Hr Hm. eapply wlp_mono; [by apply wlp_response_send|].
  intros ok w' (_ & Hl & d & Hs & Hp & Hok & Hno). split; [done|].
  exists d. split_and!; [apply Hs|done|done|done].
Qed.

(** The answers of a peer that keeps reading. *)
Definition progress (a : send_answer) : bool :=
  match a with SendCount (S _) => true | SendError EINTR => true | _ => false end.

Definition counts (l : list send_answer) : nat :=
  length (List.filter (fun a => match a with SendCount _ => true | _ => false end) l).

Lemma take_drop_length {A} n (l : list A) : take n l ++ drop (length (take n l)) l = l.
Proof.
  rewrite length_take. destruct (Nat.le_ge_cases n (length l)).
  - by rewrite Nat.min_l, take_drop.
  - by rewrite Nat.min_r, take_ge, drop_all, app_nil_r by lia.
Qed.

(** Short writes and interruptions are retried until every byte is out. *)
Theorem send_all_complete bs w :
  Forall (fun a => progress a = true) (w_send w) -> (length bs <= counts (w_send w))%nat ->
  wp (send_all bs) (fun ok w' => ok = true /\ w_sent w' = w_sent w ++ bs) w.
Proof.
  unfold send_all, fueled. intros HF Hc.
  assert (Hg : forall fuel bs w, Forall (fun a => progress a = true) (w_send w) ->
    (length bs <= counts (w_send w))%nat -> (length (w_send w) < fuel)%nat ->
    wp (send_all_loop fuel bs) (fun ok w' => ok = true /\ w_sent w' = w_sent w ++ bs) w).
  { clear. induction fuel as [|fuel IH]; intros [|b bs] w HF Hc Hf; cbn [send_all_loop]; try lia;
      [by apply wp_ret; rewrite app_nil_r|].
    unfold wp at 1, mbind, M_bind, send.
    destruct (w_send w) as [|[e|n] rest]; [unfold counts in Hc; simpl in Hc; lia| |];
      apply Forall_cons_1 in HF as [Ha HF]; simpl in Ha, Hf.
    - destruct e; try done. match goal with |- match _ _ _ ?x with _ => _ end => set (w1 := x) end.
      specialize (IH (b :: bs) w1 HF Hc ltac:(simpl; lia)). simpl in IH. rewrite app_nil_r in IH.
      exact IH.
    - destruct n as [|n]; [done|]. cbn [take length].
      match goal with |- match _ _ _ ?x with _ => _ end => set (w1 := x) end.
      unfold counts in Hc. simpl in Hc.
      assert (Hc1 : (length (drop (length (take n bs)) bs) <= counts (w_send w1))%nat).
      { rewrite length_drop. unfold counts, w1. cbn [w_send]. lia. }
      specialize (IH _ w1 HF Hc1 ltac:(unfold w1; cbn [w_send]; lia)). simpl in IH. rewrite <- app_assoc in IH. simpl in IH.
      by rewrite take_drop_length in IH. }
  apply Hg; auto.
Qed.

(** ** Examples *)

Definition sample_response : http_response_t :=
  {| status_code := 404; reason_phrase := lit "Not Found"; rsp_array := Some 0%nat;
     rsp_headers := [Header (CStr (Some 1%nat) (lit "Content-Type")) (CStr (Some 2%nat) (lit "text/plain"))];
     body_kind := HTTP_BODY_MEMORY; rsp_body := Some (CStr (Some 3%nat) (lit "hi")); body_length := 2;
     body_owned := true; rsp_file_fd := None; suppress_auto_connection_close := false |}.

Definition sample_proc : proc :=
  {| p_malloc_ok := fun _ => true; p_next := 4;
     p_live := {[+ 0%nat +]} ⊎ {[+ 1%nat +]} ⊎ {[+ 2%nat +]} ⊎ {[+ 3%nat +]}; p_next_fd := 0; p_fds := ∅ |}.

Definition sample_world : world :=
  {| w_proc := sample_proc; w_clock := fun _ => None; w_ticks := 0; w_poll := []; w_recv := [];
     w_send := replicate 200 (SendCount 3); w_received := []; w_sent := []; w_polled := [];
     w_file := no_files |}.

Lemma sample_held : held sample_proc sample_response.
Proof.
  split; [split|..].
  - apply Forall_singleton. split; simpl; eauto.
  - done.
  - exists (CStr (Some 3%nat) (lit "hi")). split_and!; eauto.
  - unfold blk_response, blk_body. simpl. multiset_solver.
  - unfold fd_response. simpl. multiset_solver.
Qed.

Lemma set_header_replaces_witness :
  wp (http_response_set_header sample_response (lit "content-type") (lit "text/html"))
    (fun '(ok, r') p' =>
      headers_only sample_response r' /\
      others (lit "content-type") (rsp_headers r') ≡ₚ others (lit "content-type") (rsp_headers sample_response) /\
      map pair_of (filter (fun h => matches (lit "content-type") h = true) (rsp_headers r')) =
        (if ok then [(lit "content-type", lit "text/html")] else []) /\
      (ok = false -> alloc_failed sample_proc p')) sample_proc.
Proof.
  apply set_header_replaces; [apply sample_held|]. by apply (bool_decide_unpack _).
Defined.

Lemma serialize_headers_exact_witness :
  serialized_total sample_response = zlen (serialized_head sample_response) /\
  wp (http_response_serialize_headers sample_response) (fun res p' =>
    p_live p' = p_live sample_proc ⊎ blk_str res /\
    match res with
    | Some c => cs_bytes c = serialized_head sample_response
    | None => alloc_failed sample_proc p'
    end) sample_proc.
Proof. apply serialize_headers_exact; [reflexivity|by vm_compute]. Defined.

Lemma response_frames_itself_witness :
  http_find_header_terminator (serialized_head sample_response ++ lit "hi") =
    Some (length (serialized_head sample_response) - 4)%nat /\
  recipient_reads (serialized_head sample_response ++ lit "hi") =
    Some (wire_headers sample_response, lit "hi") /\
  (exists v, map snd (List.filter is_content_length (wire_headers sample_response)) = [v] /\
     Forall (fun c => is_digit c = true) v /\ dec_value 0 v = 2) /\
  Forall (fun h => is_transfer_encoding h = false) (wire_headers sample_response) /\
  (2 <= HTTP_MAX_BODY_SIZE -> framing_spec (serialized_head sample_response ++ lit "hi")
    (length (serialized_head sample_response)) = inr 2).
Proof.
  apply (response_frames_itself sample_response (lit "hi")); [split|by vm_compute].
  - reflexivity.
  - apply Forall_singleton. split_and!; try done; try (by apply (bool_decide_unpack _)).
    + by intros c [= <-].
    + by intros c [= <-].
  - by repeat constructor.
  - by repeat constructor.
  - by vm_compute.
Defined.

Lemma serialize_with_body_witness :
  wp (http_response_serialize sample_response false) (fun res p' =>
    p_live p' = p_live sample_proc ⊎ blk_str res /\
    match res with
    | Some c => cs_bytes c = serialized_head sample_response ++ lit "hi"
    | None => alloc_failed sample_proc p'
    end) sample_proc.
Proof.
  apply (serialize_with_body sample_response false); [reflexivity|by vm_compute|].
  apply sample_held.
Defined.

Lemma http_response_send_exact_witness :
  wlp (http_response_send sample_response false) (fun ok w' =>
    p_live (w_proc w') = p_live sample_proc /\
    exists d, w_sent w' = d /\ d `prefix_of` wire sample_response false sample_world /\
      (ok = true -> d = wire sample_response false sample_world /\
        (false = false -> zlen (body_bytes sample_response sample_world) = 2)) /\
      (ok = false -> sending_over sample_world w' \/ alloc_failed sample_proc (w_proc w') \/
        false = false /\ zlen (body_bytes sample_response sample_world) < 2 /\
          serialized_head sample_response `prefix_of` d)) sample_world.
Proof.
  apply (http_response_send_exact sample_response false sample_world);
    [apply sample_held|reflexivity|by vm_compute].
Defined.

Lemma send_all_complete_witness :
  wp (send_all (lit "hello")) (fun ok w' => ok = true /\ w_sent w' = lit "hello") sample_world.
Proof.
  apply (send_all_complete (lit "hello") sample_world); [|vm_compute; lia].
  apply Forall_replicate. reflexivity.
Defined.
