(* ===== verification/Connection.v ===== *)
(** * Connection persistence: http_connection.h and http_connection.c

    Tokens of the Connection header, the keep-alive decision, and the header
    that announces it, with their theorems. *)
From S2P Require Import Prelude CLib Proc Request Parser ParserSpec ParserRefine Framing ParserCorrect World.
From S2P Require Import Response ResponseCorrect ResponseWire.

Definition ascii_tolower_char (c : byte) : Z := ascii_tolower c.

(** [a] is the range of length [a_len]. *)
Definition token_equal_ci (a b : list byte) : bool :=
  if negb (zlen a =? zlen b) then false
  else forallb (fun '(x, y) => ascii_tolower_char x =? ascii_tolower_char y) (zip a b).

Definition not_comma (c : byte) : bool := negb (c =?b ",").

(** The [while] over the elements of a header value; every round consumes at
    least one byte. *)
Fixpoint has_token_loop (fuel : nat) (p token : list byte) : bool :=
  match fuel with
  | O => false
  | S fuel =>
      match p with
      | [] => false
      | _ =>
          match skip_ows p with
          | [] => false
          | start =>
              let '(range, rest) := span not_comma start in
              if token_equal_ci (trim_ows_end range) token then true
              else has_token_loop fuel (match rest with _ :: rest' => rest' | [] => [] end) token
          end
      end
  end.

Definition http_header_value_has_token (value token : option (list byte)) : bool :=
  match value, token with
  | Some value, Some ((_ :: _) as token) => has_token_loop (S (length value)) value token
  | _, _ => false
  end.

Definition http_request_wants_keep_alive (request : http_request_t) : bool :=
  match req_version request with
  | None => false
  | Some version =>
      let connection := cs_string <$> http_request_get_header request (Some (lit "Connection")) in
      let has_close := http_header_value_has_token connection (Some (lit "close")) in
      let has_keep_alive := http_header_value_has_token connection (Some (lit "keep-alive")) in
      if has_close then false
      else if strcmp_eq (cs_string version) (lit "HTTP/1.1") then true
      else if strcmp_eq (cs_string version) (lit "HTTP/1.0") then has_keep_alive
      else false
  end.

(** [true] stands for the return value 0. *)
Definition http_response_apply_connection_policy (response : http_response_t) (keep_alive : bool)
    (http_version : option (list byte)) : M proc (bool * http_response_t) :=
  if negb keep_alive then
    http_response_set_header (set_suppress false response) (lit "Connection") (lit "close")
  else if match http_version with Some v => strcmp_eq v (lit "HTTP/1.0") | None => false end then
    http_response_set_header (set_suppress false response) (lit "Connection") (lit "keep-alive")
  else
    '(_, response) ← http_response_remove_header response (lit "Connection");
    mret (true, set_suppress true response).

(** ** Tokens *)

(** The elements of a comma-separated value, without surrounding white space. *)
Definition elements (value : list byte) : list (list byte) :=
  map (fun e => trim_ows_end (skip_ows e)) (split_on not_comma value).

Lemma token_equal_ci_true a b :
  token_equal_ci a b = true <-> map ascii_tolower a = map ascii_tolower b.
Proof.
  unfold token_equal_ci, ascii_tolower_char, zlen.
  destruct (Z.eqb_spec (Z.of_nat (length a)) (Z.of_nat (length b))) as [Hl|Hl]; simpl.
  - apply Nat2Z.inj in Hl. revert b Hl.
    induction a as [|x a IH]; intros [|y b] Hl; simpl in *; try lia; [done|].
    rewrite andb_true_iff, IH, Z.eqb_eq by lia. split; [by intros [-> ->]|by intros [= -> ->]].
  - split; [done|]. intros H%(f_equal length). rewrite !length_map in H. lia.
Qed.

Lemma token_equal_ci_empty token : token <> [] -> token_equal_ci [] token = false.
Proof.
  intros H. apply not_true_is_false. rewrite token_equal_ci_true. by destruct token.
Qed.

Lemma span_length f l r rest : span f l = (r, rest) -> l = r ++ rest.
Proof. by intros [? _]%span_spec. Qed.

(** White space never crosses a comma. *)
Lemma skip_ows_elements l : exists es,
  split_on not_comma l = match split_on not_comma (skip_ows l) with e :: es' => es ++ e | [] => [] end
                   :: tail (split_on not_comma (skip_ows l)) /\ Forall (fun c => is_ows c = true) es.
Proof.
  induction l as [|c l (es & IH & HF)].
  { exists []. by split. }
  simpl. destruct (is_ows c) eqn:E.
  - assert (Hc : not_comma c = true) by (revert E; by destruct c).
    rewrite Hc, IH. exists (c :: es). split; [|by constructor].
    destruct (split_on not_comma (skip_ows l)) eqn:Es; [|done].
    exfalso. rewrite split_on_span in Es. destruct (span not_comma (skip_ows l)) as [? []]; done.
  - exists []. split; [|done]. cbn [split_on]. destruct (not_comma c); [|done].
    by destruct (split_on not_comma l).
Qed.

Lemma skip_ows_ows o l : Forall (fun c => is_ows c = true) o -> skip_ows (o ++ l) = skip_ows l.
Proof. induction 1 as [|x o Hx _ IH]; simpl; [done|]. by rewrite Hx. Qed.

(** Leading white space does not matter. *)
Lemma elements_skip p : elements p = elements (skip_ows p).
Proof.
  unfold elements. destruct (skip_ows_elements p) as (es & -> & HF).
  destruct (split_on not_comma (skip_ows p)) as [|e l] eqn:Es.
  { rewrite split_on_span in Es. destruct (span not_comma (skip_ows p)) as [? []]; done. }
  simpl. by rewrite skip_ows_ows.
Qed.

Lemma has_token_loop_spec token : token <> [] -> forall fuel p, (length p < fuel)%nat ->
  has_token_loop fuel p token = existsb (fun e => token_equal_ci e token) (elements p).
Proof.
  intros Ht. induction fuel as [|fuel IH]; intros p Hf; [lia|]. cbn [has_token_loop].
  destruct p as [|c0 p0] eqn:Ep; [simpl; by rewrite token_equal_ci_empty|]. rewrite <- Ep in *.
  rewrite elements_skip. destruct (skip_ows_spec p) as (o & Hp & _ & Hhd).
  destruct (skip_ows p) as [|c start] eqn:Es; [simpl; by rewrite token_equal_ci_empty|].
  unfold elements. rewrite split_on_span.
  destruct (span not_comma (c :: start)) as [range rest] eqn:Esp.
  assert (Hskip : skip_ows range = range).
  { destruct range as [|x range]; [done|]. apply span_length in Esp. simplify_eq/=.
    by rewrite (Hhd x). }
  apply span_length in Esp as Hlen. apply (f_equal length) in Hlen, Hp.
  rewrite length_app in Hlen, Hp. simpl in Hlen, Hp. destruct rest as [|x rest].
  - simpl. rewrite Hskip. destruct (token_equal_ci (trim_ows_end range) token); [done|].
    destruct fuel; done.
  - simpl. rewrite Hskip. destruct (token_equal_ci (trim_ows_end range) token); [done|].
    apply IH. simpl in Hlen. lia.
Qed.

Lemma has_token_true value token : token <> [] ->
  http_header_value_has_token (Some value) (Some token) = true <->
  exists e, e ∈ elements value /\ map ascii_tolower e = map ascii_tolower token.
Proof.
  intros Ht. destruct token as [|t token]; [done|]. cbn [http_header_value_has_token].
  rewrite (has_token_loop_spec (t :: token) Ht _ value) by apply Nat.lt_succ_diag_r.
  rewrite existsb_exists.
  setoid_rewrite <- list_elem_of_In. by setoid_rewrite token_equal_ci_true.
Qed.

(** A header value has a token exactly when one of its comma-separated elements
    is that token, compared without case and without surrounding white space. *)
Theorem has_token_iff value token : token <> [] ->
  http_header_value_has_token (Some value) (Some token) = true <->
  exists e, e ∈ elements value /\ map ascii_tolower e = map ascii_tolower token.
Proof. apply has_token_true. Qed.

Lemma has_token_iff_witness :
  http_header_value_has_token (Some (lit "Upgrade ,  Close")) (Some (lit "close")) = true <->
  exists e, e ∈ elements (lit "Upgrade ,  Close") /\ map ascii_tolower e = map ascii_tolower (lit "close").
Proof. apply has_token_iff. vm_compute. discriminate. Defined.

(** ** The keep-alive decision *)

(** The values of all Connection headers, in order. *)
Definition connection_values (r : http_request_t) : list (list byte) :=
  map (fun h => cs_string (hdr_value h))
    (filter (fun h => matches (lit "Connection") h = true) (req_headers r)).

(** Some Connection header has the token, whichever of them. *)
Definition has_connection_token (r : http_request_t) (token : list byte) : Prop :=
  exists v e, v ∈ connection_values r /\ e ∈ elements v /\
    map ascii_tolower e = map ascii_tolower token.

(** The rules of http_connection.h: HTTP/1.1 persists unless "close" appears,
    HTTP/1.0 persists when "keep-alive" appears, and close wins. *)
Definition documented_keep_alive (r : http_request_t) : Prop :=
  exists v, req_version r = Some v /\ ~ has_connection_token r (lit "close") /\
    (cs_string v = lit "HTTP/1.1" \/
     cs_string v = lit "HTTP/1.0" /\ has_connection_token r (lit "keep-alive")).

(** The code looks up the first Connection header. *)
Lemma first_connection_value r :
  cs_string <$> http_request_get_header r (Some (lit "Connection")) = head (connection_values r).
Proof.
  unfold connection_values. cbn [http_request_get_header].
  induction (req_headers r) as [|h hs IH]; [done|]. unfold matches in *. cbn [find_header].
  destruct (header_name_equal _ _) eqn:E; [by rewrite filter_cons_True|].
  by rewrite filter_cons_False by congruence.
Qed.

Lemma only_connection_token r token : token <> [] -> (length (connection_values r) <= 1)%nat ->
  http_header_value_has_token (head (connection_values r)) (Some token) = true <->
  has_connection_token r token.
Proof.
  intros Ht Hl. unfold has_connection_token. destruct (connection_values r) as [|v [|? ?]]; cbn [head].
  - split; [done|]. intros (v & e & Hv & _). by apply elem_of_nil in Hv.
  - rewrite has_token_true by done. setoid_rewrite list_elem_of_singleton. naive_solver.
  - simpl in Hl. lia.
Qed.

(** C31. The persistence rules of http_connection.h, for a request with at most one
    Connection header: it keeps its connection exactly when no close token
    appears and it is HTTP/1.1, or is HTTP/1.0 with a keep-alive token; close
    wins over keep-alive. *)
Theorem keep_alive_rules r : (length (connection_values r) <= 1)%nat ->
  http_request_wants_keep_alive r = true <-> documented_keep_alive r.
Proof.
  intros Hl. unfold http_request_wants_keep_alive, documented_keep_alive.
  destruct (req_version r) as [v|]; [|naive_solver].
  rewrite first_connection_value.
  pose proof (only_connection_token r (lit "close") ltac:(done) Hl) as Hc.
  pose proof (only_connection_token r (lit "keep-alive") ltac:(done) Hl) as Hk.
  destruct (http_header_value_has_token (head (connection_values r)) (Some (lit "close"))).
  { split; [done|]. intros (? & _ & Hn & _). by destruct Hn; apply Hc. }
  assert (Hc' : ~ has_connection_token r (lit "close")) by by intros ?%Hc.
  assert (Hne : lit "HTTP/1.0" <> lit "HTTP/1.1") by by vm_compute.
  unfold strcmp_eq. case_bool_decide as H1.
  { split; [|done]. intros _. exists v. auto. }
  case_bool_decide as H0; [|naive_solver]. rewrite Hk. naive_solver.
Qed.

(** A request of one version with the Connection headers [values]. *)
Definition connection_request (version : list byte) (values : list (list byte)) : http_request_t :=
  {| req_method := HTTP_METHOD_GET; req_target := Some (str_lit "/");
     req_version := Some (CStr None version); req_array := Some 1%nat;
     req_headers := map (fun v => Header (str_lit "connection") (CStr None v)) values;
     req_body := None; req_body_length := 0 |}.

Lemma keep_alive_rules_witness :
  let r := connection_request (lit "HTTP/1.0") [lit "x, Keep-Alive"] in
  (http_request_wants_keep_alive r = true <-> documented_keep_alive r) /\
  http_request_wants_keep_alive r = true.
Proof.
  split; [|by vm_compute].
  apply (keep_alive_rules (connection_request (lit "HTTP/1.0") [lit "x, Keep-Alive"])). by vm_compute.
Defined.

(** With a second Connection header the documented rule is not the code's:
    the parser accepts an HTTP/1.1 request with "Connection: keep-alive" and then
    "Connection: close", both tokens appear, and the connection is kept. *)
Theorem second_close_ignored : exists r p',
  http_parse_request (lit "GET / HTTP/1.1" ++ CRLF ++ lit "Host: a" ++ CRLF ++
    lit "Connection: keep-alive" ++ CRLF ++ lit "Connection: close" ++ CRLF ++ CRLF)
    (fresh_proc (fun _ => true)) = Done (HTTP_PARSE_OK, r) p' /\
  has_connection_token r (lit "close") /\ has_connection_token r (lit "keep-alive") /\
  http_request_wants_keep_alive r = true /\ ~ documented_keep_alive r.
Proof.
  eexists _, _. split; [vm_compute; reflexivity|].
  assert (Hc : forall r, connection_values r = [lit "keep-alive"; lit "close"] ->
    has_connection_token r (lit "close") /\ has_connection_token r (lit "keep-alive")).
  { intros r Hv. unfold has_connection_token. rewrite Hv.
    split; [exists (lit "close"), (lit "close")|exists (lit "keep-alive"), (lit "keep-alive")];
      by split_and!; repeat constructor. }
  match goal with |- has_connection_token ?r _ /\ _ => destruct (Hc r ltac:(by vm_compute)) as [H1 H2] end.
  split_and!; [exact H1|exact H2|by vm_compute|].
  by intros (? & _ & Hn & _).
Qed.

(** ** The announced policy *)

(** The Connection fields that go out. *)
Definition is_connection (h : list byte * list byte) : bool :=
  header_name_equal h.1 (lit "Connection").

Definition connection_fields (r : http_response_t) : list (list byte * list byte) :=
  List.filter is_connection (wire_headers r).

Lemma connection_fields_eq r :
  connection_fields r =
  List.filter is_connection (map string_pair (rsp_headers r)) ++
  (if need_connection r then [(lit "Connection", lit "close")] else []).
Proof.
  unfold connection_fields, wire_headers. rewrite !List.filter_app. f_equal.
  destruct (need_server r), (need_connection r), (need_content_length r); reflexivity.
Qed.

Lemma filter_connection_pairs hs :
  List.filter is_connection (map string_pair hs) =
  map string_pair (filter (fun h => matches (lit "Connection") h = true) hs).
Proof.
  induction hs as [|h hs IH]; [done|]. unfold matches in *. simpl.
  unfold is_connection at 1. simpl.
  destruct (header_name_equal (cs_string (hdr_name h)) (lit "Connection")) eqn:E.
  - rewrite filter_cons_True by done. simpl. by rewrite IH.
  - rewrite filter_cons_False by congruence. done.
Qed.

(** The Connection fields each policy announces. *)
Definition announced (keep_alive : bool) (http_version : option (list byte))
  : list (list byte * list byte) :=
  if negb keep_alive then [(lit "Connection", lit "close")]
  else if bool_decide (http_version = Some (lit "HTTP/1.0"))
  then [(lit "Connection", lit "keep-alive")]
  else [].

Lemma others_no_match name hs : filter (fun h => matches name h = true) (others name hs) = [].
Proof.
  induction hs as [|h hs IH]; [done|]. unfold others in *. destruct (matches name h) eqn:E.
  - by rewrite filter_cons_False by congruence.
  - rewrite filter_cons_True by done. by rewrite filter_cons_False by congruence.
Qed.

Lemma response_has_header_matches r name :
  response_has_header r name =
  negb (bool_decide (filter (fun h => matches name h = true) (rsp_headers r) = [])).
Proof.
  unfold response_has_header. induction (rsp_headers r) as [|h hs IH]; [done|]. simpl.
  unfold matches in *. destruct (header_name_equal (cs_string (hdr_name h)) name) eqn:E; simpl.
  - by rewrite filter_cons_True by done.
  - rewrite IH. by rewrite filter_cons_False by congruence.
Qed.

(** After a header was set, the Connection fields are that one. *)
Lemma set_connection_fields r' h v hs :
  pair_of h = (lit "Connection", v) -> NUL ∉ v -> rsp_headers r' ≡ₚ others (lit "Connection") hs ++ [h] ->
  connection_fields r' = [(lit "Connection", v)].
Proof.
  intros Hp Hv Hperm. unfold pair_of in Hp. injection Hp as Hn Hv'.
  assert (Hs : string_pair h = (lit "Connection", v)).
  { unfold string_pair, cs_string. rewrite Hn, Hv'. by rewrite (c_string_id v). }
  assert (Hm : matches (lit "Connection") h = true).
  { unfold matches, cs_string. by rewrite Hn. }
  assert (Hf : filter (fun h => matches (lit "Connection") h = true) (rsp_headers r') = [h]).
  { apply Permutation_singleton_r. by rewrite Hperm, filter_app, others_no_match, filter_cons_True. }
  rewrite connection_fields_eq, filter_connection_pairs, Hf. unfold need_connection.
  rewrite response_has_header_matches, Hf. simpl. by rewrite Hs.
Qed.

Lemma held_suppress p r b : held p r -> held p (set_suppress b r).
Proof. intros [[? ? ?] ? ?]. split; [split|..]; done. Qed.

Lemma resp_step_suppress p r b p' r' :
  resp_step p (set_suppress b r) p' r' -> resp_step p r p' r'.
Proof. intros [? ? ?]. by split. Qed.

(** At most one field is added. *)
Definition connection_extra (hs : list (list byte * list byte)) : Prop :=
  hs = [] \/ hs = [(lit "Connection", lit "close")] \/ hs = [(lit "Connection", lit "keep-alive")].

(** What the policy leaves, on every path: ownership is kept, nothing but the
    Connection headers and the suppress flag changes, and on success the Connection fields
    on the wire are the announced ones. *)
Definition policy_post (p : proc) (r : http_response_t) (keep_alive : bool)
    (http_version : option (list byte)) (res : bool * http_response_t) (p' : proc) : Prop :=
  let '(ok, r') := res in
  resp_step p r p' r' /\ held p' r' /\
  (exists b, headers_only (set_suppress b r) r') /\
  (exists extra, rsp_headers r' ≡ₚ others (lit "Connection") (rsp_headers r) ++ extra /\
     connection_extra (map pair_of extra)) /\
  if ok then connection_fields r' = announced keep_alive http_version
  else alloc_failed p p'.

Lemma policy_wp r keep_alive http_version p : held p r ->
  wp (http_response_apply_connection_policy r keep_alive http_version)
    (policy_post p r keep_alive http_version) p.
Proof.
  intros Hh. unfold http_response_apply_connection_policy, policy_post, announced.
  assert (Hset : forall v, (NUL ∉ v) -> connection_extra [(lit "Connection", v)] ->
    wp (http_response_set_header (set_suppress false r) (lit "Connection") v)
      (fun (res : bool * http_response_t) p' => let '(ok, r') := res in
      resp_step p r p' r' /\ held p' r' /\ (exists b, headers_only (set_suppress b r) r') /\
      (exists extra, rsp_headers r' ≡ₚ others (lit "Connection") (rsp_headers r) ++ extra /\
         connection_extra (map pair_of extra)) /\
      if ok then connection_fields r' = [(lit "Connection", v)] else alloc_failed p p') p).
  { intros v Hv Hx. eapply wp_mono; [by apply set_header_wp, held_suppress|].
    intros [ok r'] p' (Hs & Hh' & Ho & Hr).
    split_and!; [by eapply resp_step_suppress|done|by exists false| |].
    - destruct ok; [destruct Hr as (h & Hp & Hperm); exists [h]; simpl; by rewrite Hp|].
      exists []. rewrite app_nil_r. split; [apply Hr|by left].
    - destruct ok; [|apply Hr]. destruct Hr as (h & Hp & Hperm). by eapply set_connection_fields. }
  destruct keep_alive; simpl negb; cbv iota;
    [|apply (Hset (lit "close")); [by apply (bool_decide_unpack _)|right; by left]].
  assert (Hv : match http_version with Some v => strcmp_eq v (lit "HTTP/1.0") | None => false end =
    bool_decide (http_version = Some (lit "HTTP/1.0"))).
  { destruct http_version as [v|]; [|done]. unfold strcmp_eq. apply bool_decide_ext. naive_solver. }
  rewrite Hv. destruct (bool_decide _);
    [apply (Hset (lit "keep-alive")); [by apply (bool_decide_unpack _)|right; by right]|].
  apply wp_bind. eapply wp_mono; [by apply remove_header_wp|].
  intros [k r1] p1 (Hs & Hh1 & (arr & hs & ->) & Hperm & _). apply wp_ret.
  split_and!; [by destruct Hs|by apply held_suppress|exists true; by exists arr, hs| |].
  { exists []. rewrite app_nil_r. split; [done|by left]. }
  rewrite connection_fields_eq, filter_connection_pairs. unfold need_connection. simpl in *.
  rewrite andb_false_r, app_nil_r.
  assert (filter (fun h => matches (lit "Connection") h = true) hs = []) as ->; [|done].
  apply Permutation_nil_r. by rewrite Hperm, others_no_match.
Qed.

(** C30. The announced policy is the one on the wire: a response on which the policy
    was applied carries exactly one "Connection: close" when the connection
    ends, one "Connection: keep-alive" when an HTTP/1.0 connection persists, and
    none when a connection of another version persists; its body and status are
    untouched.  The version is the string of a request, or the connection
    ends. *)
Theorem connection_policy_announced r keep_alive http_version p : held p r ->
  (keep_alive = true -> is_Some http_version) ->
  wp (http_response_apply_connection_policy r keep_alive http_version) (fun '(ok, r') p' =>
    held p' r' /\ status_code r' = status_code r /\ body_kind r' = body_kind r /\
    rsp_body r' = rsp_body r /\ body_length r' = body_length r /\
    (if ok then connection_fields r' = announced keep_alive http_version
     else alloc_failed p p')) p.
Proof.
  intros Hh _. eapply wp_mono; [by apply policy_wp|].
  intros [ok r'] p' (_ & Hh' & (b & arr & hs & ->) & _ & Hr). by split_and!.
Qed.

Lemma connection_policy_announced_witness :
  wp (http_response_apply_connection_policy http_response_init true (Some (lit "HTTP/1.0")))
    (fun '(ok, r') p' =>
      held p' r' /\ status_code r' = 500 /\ body_kind r' = HTTP_BODY_NONE /\
      rsp_body r' = None /\ body_length r' = 0 /\
      (if ok then connection_fields r' = [(lit "Connection", lit "keep-alive")]
       else alloc_failed (fresh_proc (fun _ => true)) p')) (fresh_proc (fun _ => true)).
Proof.
  apply (connection_policy_announced http_response_init true (Some (lit "HTTP/1.0"))).
  - split; [apply owned_response_init|..]; vm_compute; intros x; lia.
  - by eexists.
Defined.

(** A NULL version with [keep_alive] set is not close-safe: no Connection field
    goes out, so the peer of an HTTP/1.1 response takes it as persistent. *)
Theorem null_version_persists :
  exists r' p', http_response_apply_connection_policy http_response_init true None
      (fresh_proc (fun _ => true)) = Done (true, r') p' /\ connection_fields r' = [].
Proof.
  exists (set_suppress true http_response_init), (fresh_proc (fun _ => true)).
  split; reflexivity.
Qed.
