(* ===== verification/Mime.v ===== *)
(** * Media types: mime.c

    The table, the search for the extension, and what the search computes. *)
From S2P Require Import Prelude CLib Request.

Definition octet_stream : list byte := lit "application/octet-stream".

Definition MIME_TABLE : list (list byte * list byte) :=
  [ (lit "html", lit "text/html; charset=utf-8");
    (lit "htm", lit "text/html; charset=utf-8");
    (lit "css", lit "text/css; charset=utf-8");
    (lit "js", lit "application/javascript");
    (lit "json", lit "application/json");
    (lit "txt", lit "text/plain; charset=utf-8");
    (lit "csv", lit "text/csv; charset=utf-8");
    (lit "xml", lit "application/xml");
    (lit "png", lit "image/png");
    (lit "jpg", lit "image/jpeg");
    (lit "jpeg", lit "image/jpeg");
    (lit "gif", lit "image/gif");
    (lit "svg", lit "image/svg+xml");
    (lit "ico", lit "image/x-icon");
    (lit "webp", lit "image/webp");
    (lit "pdf", lit "application/pdf");
    (lit "woff", lit "font/woff");
    (lit "woff2", lit "font/woff2") ].

(** mime.c has its own copy of the case-insensitive comparison. *)
Fixpoint extension_equal (ext key : list byte) : bool :=
  match ext, key with
  | x :: ext', y :: key' =>
      if ascii_tolower x =? ascii_tolower y then extension_equal ext' key' else false
  | [], [] => true
  | _, _ => false
  end.

(** The loop that moves [base] after every slash. *)
Fixpoint find_base (base p : list byte) : list byte :=
  match p with
  | [] => base
  | c :: p' => find_base (if c =?b "/" then p' else base) p'
  end.

(** The loop that moves [dot] to every dot; [dot] is the suffix it points to. *)
Fixpoint find_dot (dot : option (list byte)) (p : list byte) : option (list byte) :=
  match p with
  | [] => dot
  | c :: p' => find_dot (if c =?b "." then Some p else dot) p'
  end.

(** The loop over the table. *)
Fixpoint mime_lookup (ext : list byte) (table : list (list byte * list byte)) : list byte :=
  match table with
  | [] => octet_stream
  | (extension, mime_type) :: table' =>
      if extension_equal ext extension then mime_type else mime_lookup ext table'
  end.

Definition mime_type_from_path (path : option (list byte)) : list byte :=
  match path with
  | None | Some [] => octet_stream
  | Some path =>
      let base := find_base path path in
      match find_dot None base with
      | None => octet_stream
      | Some dot =>
          if (length dot =? length base)%nat then octet_stream
          else match dot with
               | [] | [_] => octet_stream
               | _ :: ext => mime_lookup ext MIME_TABLE
               end
      end
  end.

(** ** What it computes *)

(** [ext] is the extension of the last segment of [path]: what follows the last
    dot of that segment, when neither it nor what precedes the dot is empty. *)
Definition has_extension (path ext : list byte) : Prop :=
  exists dir stem, path = dir ++ stem ++ ("."%byte) :: ext /\
    (dir = [] \/ exists d, dir = d ++ ["/"%byte]) /\
    stem <> [] /\ ext <> [] /\ ("/"%byte ∉ stem) /\ ("/"%byte ∉ ext) /\ ("."%byte ∉ ext).

Lemma find_base_no_slash base p : "/"%byte ∉ p -> find_base base p = base.
Proof.
  revert base. induction p as [|c p IH]; intros base Hp; [done|]. simpl.
  rewrite (proj2 (eqb_neq_byte c "/")) by set_solver. apply IH. set_solver.
Qed.

Lemma find_base_app base d p : "/"%byte ∉ p -> find_base base ((d ++ ["/"%byte]) ++ p) = p.
Proof.
  intros Hp. revert base. induction d as [|c d IH]; intros base; simpl; [by apply find_base_no_slash|].
  apply IH.
Qed.

(** The last segment. *)
Lemma find_base_split p : exists dir, p = dir ++ find_base p p /\
  (dir = [] \/ exists d, dir = d ++ ["/"%byte]) /\ ("/"%byte ∉ find_base p p).
Proof.
  assert (H : "/"%byte ∉ p \/ exists d b, p = (d ++ ["/"%byte]) ++ b /\ ("/"%byte ∉ b)).
  { induction p as [|c p [IH|(d & b & -> & Hb)]].
    - left. set_solver.
    - destruct (decide (c = "/"%byte)) as [->|Hc]; [right; by exists [], p|left; set_solver].
    - right. by exists (c :: d), b. }
  destruct H as [Hn|(d & b & -> & Hb)].
  - exists []. rewrite find_base_no_slash by done. auto.
  - exists (d ++ ["/"%byte]). rewrite find_base_app by done. split_and!; eauto.
Qed.

Lemma find_dot_none dot p : "."%byte ∉ p -> find_dot dot p = dot.
Proof.
  revert dot. induction p as [|c p IH]; intros dot Hp; [done|]. simpl.
  rewrite (proj2 (eqb_neq_byte c ".")) by set_solver. apply IH. set_solver.
Qed.

Lemma find_dot_app dot stem ext : "."%byte ∉ ext ->
  find_dot dot (stem ++ ("."%byte) :: ext) = Some (("."%byte) :: ext).
Proof.
  intros He. revert dot. induction stem as [|c stem IH]; intros dot; simpl; [by apply find_dot_none|].
  apply IH.
Qed.

Lemma last_dot_split p : "."%byte ∉ p \/ exists stem ext, p = stem ++ ("."%byte) :: ext /\ ("."%byte ∉ ext).
Proof.
  induction p as [|c p [IH|(s & e & -> & He)]].
  - left. set_solver.
  - destruct (decide (c = "."%byte)) as [->|Hc]; [right; by exists [], p|left; set_solver].
  - right. by exists (c :: s), e.
Qed.

Lemma mime_type_found path ext :
  has_extension path ext -> mime_type_from_path (Some path) = mime_lookup ext MIME_TABLE.
Proof.
  intros (dir & stem & Hp & Hd & Hs & He & Hsl & Hel & Hdot).
  assert (Hb : find_base path path = stem ++ ("."%byte) :: ext).
  { assert (Hn : "/"%byte ∉ stem ++ ("."%byte) :: ext).
    { rewrite elem_of_app, elem_of_cons. naive_solver. }
    destruct Hd as [->|[d ->]]; rewrite Hp; [by apply find_base_no_slash|by apply find_base_app]. }
  unfold mime_type_from_path. destruct path as [|c path]; [by destruct dir, stem|].
  rewrite Hb, find_dot_app by done. rewrite length_app.
  destruct (Nat.eqb_spec (length (("."%byte) :: ext)) (length stem + length (("."%byte) :: ext))).
  { destruct stem; [done|]. simpl in *. lia. }
  by destruct ext.
Qed.

Lemma mime_type_default path :
  (forall ext, ~ has_extension path ext) -> mime_type_from_path (Some path) = octet_stream.
Proof.
  intros Hno. unfold mime_type_from_path. destruct path as [|c path0] eqn:Ep; [done|].
  rewrite <- Ep in *. destruct (find_base_split path) as (dir & Hp & Hd & Hn).
  set (base := find_base path path) in *.
  destruct (last_dot_split base) as [Hb|(stem & ext & Hb & He)].
  { by rewrite find_dot_none. }
  rewrite Hb, find_dot_app by done.
  destruct (Nat.eqb_spec (length (("."%byte) :: ext)) (length (stem ++ ("."%byte) :: ext))) as [|Hl]; [done|].
  destruct ext as [|e ext]; [done|]. exfalso. apply (Hno (e :: ext)). exists dir, stem.
  rewrite Hb, elem_of_app, elem_of_cons in Hn. rewrite <- Hb.
  split_and!; [done|done| |done|naive_solver|naive_solver|done]. by intros ->.
Qed.

(** C36. The media type of a path depends on the extension of its last segment only:
    the first table entry whose key equals it without case, and
    application/octet-stream without an extension (hidden files and names that
    end in a dot included). *)
Theorem mime_type_by_extension path :
  (forall ext, has_extension path ext -> mime_type_from_path (Some path) =
     default octet_stream (snd <$> List.find (fun e => header_name_equal ext e.1) MIME_TABLE)) /\
  ((forall ext, ~ has_extension path ext) -> mime_type_from_path (Some path) = octet_stream).
Proof.
  split; [|apply mime_type_default]. intros ext He. rewrite (mime_type_found _ _ He).
  assert (Heq : forall a b, extension_equal a b = header_name_equal a b).
  { induction a as [|x a IH]; intros [|y b]; simpl; [done..|]. by rewrite IH. }
  clear He. induction MIME_TABLE as [|[k v] t IH]; simpl; [done|].
  rewrite Heq. destruct (header_name_equal ext k); [done|exact IH].
Qed.
