(* ===== verification/Stats.v ===== *)
(** * Runtime counters: server_stats.h and server_stats.c

    Every operation locks the mutex of the object, so it is one atomic step; the
    counters are [uint64_t].  The theorems are about arbitrary sequences of
    steps, that is about every interleaving of the threads. *)
From S2P Require Import Prelude CLib.

Record server_stats_t := Stats {
  initialized : bool;
  connections_accepted : Z;
  requests_total : Z;
  responses_2xx : Z;
  responses_4xx : Z;
  responses_5xx : Z;
  active_connections : Z;
}.

Record server_stats_snapshot_t := Snapshot {
  snap_connections_accepted : Z;
  snap_requests_total : Z;
  snap_responses_2xx : Z;
  snap_responses_4xx : Z;
  snap_responses_5xx : Z;
  snap_active_connections : Z;
}.

Definition zero_stats (i : bool) : server_stats_t :=
  {| initialized := i; connections_accepted := 0; requests_total := 0; responses_2xx := 0;
     responses_4xx := 0; responses_5xx := 0; active_connections := 0 |}.

(** [mutex_ok]: [pthread_mutex_init] succeeds. *)
Definition server_stats_init (mutex_ok : bool) : bool * server_stats_t :=
  if mutex_ok then (true, zero_stats true) else (false, zero_stats false).

Definition server_stats_destroy (s : server_stats_t) : server_stats_t :=
  if negb (initialized s) then s
  else {| initialized := false; connections_accepted := connections_accepted s;
          requests_total := requests_total s; responses_2xx := responses_2xx s;
          responses_4xx := responses_4xx s; responses_5xx := responses_5xx s;
          active_connections := active_connections s |}.

(** [x++] on a [uint64_t]. *)
Definition incr64 (x : Z) : Z := wrap64 (x + 1).

Definition server_stats_connection_accepted (s : server_stats_t) : server_stats_t :=
  if negb (initialized s) then s
  else {| initialized := initialized s; connections_accepted := incr64 (connections_accepted s);
          requests_total := requests_total s; responses_2xx := responses_2xx s;
          responses_4xx := responses_4xx s; responses_5xx := responses_5xx s;
          active_connections := active_connections s |}.

Definition set_active (a : Z) (s : server_stats_t) : server_stats_t :=
  {| initialized := initialized s; connections_accepted := connections_accepted s;
     requests_total := requests_total s; responses_2xx := responses_2xx s;
     responses_4xx := responses_4xx s; responses_5xx := responses_5xx s; active_connections := a |}.

Definition server_stats_connection_started (s : server_stats_t) : server_stats_t :=
  if negb (initialized s) then s else set_active (incr64 (active_connections s)) s.

Definition server_stats_connection_finished (s : server_stats_t) : server_stats_t :=
  if negb (initialized s) then s
  else if 0 <? active_connections s then set_active (active_connections s - 1) s else s.

Definition server_stats_request_received (s : server_stats_t) : server_stats_t :=
  if negb (initialized s) then s
  else {| initialized := initialized s; connections_accepted := connections_accepted s;
          requests_total := incr64 (requests_total s); responses_2xx := responses_2xx s;
          responses_4xx := responses_4xx s; responses_5xx := responses_5xx s;
          active_connections := active_connections s |}.

Definition server_stats_response_sent (status : Z) (s : server_stats_t) : server_stats_t :=
  if negb (initialized s) then s
  else
    let set a b c :=
      {| initialized := initialized s; connections_accepted := connections_accepted s;
         requests_total := requests_total s; responses_2xx := a; responses_4xx := b;
         responses_5xx := c; active_connections := active_connections s |} in
    if (200 <=? status) && (status <=? 299)
    then set (incr64 (responses_2xx s)) (responses_4xx s) (responses_5xx s)
    else if (400 <=? status) && (status <=? 499)
    then set (responses_2xx s) (incr64 (responses_4xx s)) (responses_5xx s)
    else if (500 <=? status) && (status <=? 599)
    then set (responses_2xx s) (responses_4xx s) (incr64 (responses_5xx s))
    else s.

Definition server_stats_snapshot (s : server_stats_t) : server_stats_snapshot_t :=
  if negb (initialized s) then
    {| snap_connections_accepted := 0; snap_requests_total := 0; snap_responses_2xx := 0;
       snap_responses_4xx := 0; snap_responses_5xx := 0; snap_active_connections := 0 |}
  else
    {| snap_connections_accepted := connections_accepted s;
       snap_requests_total := requests_total s; snap_responses_2xx := responses_2xx s;
       snap_responses_4xx := responses_4xx s; snap_responses_5xx := responses_5xx s;
       snap_active_connections := active_connections s |}.

(** ** Steps of the threads *)

Inductive stats_event :=
| EvAccepted
| EvStarted
| EvFinished
| EvRequest
| EvResponse (status : Z).

Definition apply_event (s : server_stats_t) (e : stats_event) : server_stats_t :=
  match e with
  | EvAccepted => server_stats_connection_accepted s
  | EvStarted => server_stats_connection_started s
  | EvFinished => server_stats_connection_finished s
  | EvRequest => server_stats_request_received s
  | EvResponse status => server_stats_response_sent status s
  end.

Definition run_events (s : server_stats_t) (es : list stats_event) : server_stats_t :=
  foldl apply_event s es.

(** How many events satisfy [f]. *)
Definition count (f : stats_event -> bool) (es : list stats_event) : Z :=
  zlen (List.filter f es).

Definition is_accepted (e : stats_event) : bool := match e with EvAccepted => true | _ => false end.
Definition is_started (e : stats_event) : bool := match e with EvStarted => true | _ => false end.
Definition is_finished (e : stats_event) : bool := match e with EvFinished => true | _ => false end.
Definition is_request (e : stats_event) : bool := match e with EvRequest => true | _ => false end.
Definition is_status (lo hi : Z) (e : stats_event) : bool :=
  match e with EvResponse c => (lo <=? c) && (c <=? hi) | _ => false end.

(** ** Theorems *)

Lemma count_snoc f es e : count f (es ++ [e]) = count f es + (if f e then 1 else 0).
Proof.
  unfold count. rewrite List.filter_app, zlen_app. simpl.
  by destruct (f e); unfold zlen; simpl; lia.
Qed.

Lemma count_le f es : 0 <= count f es <= zlen es.
Proof.
  unfold count, zlen. induction es as [|e es IH]; simpl; [lia|].
  destruct (f e); simpl; lia.
Qed.

Lemma incr64_small x : 0 <= x < SIZE_MAX -> incr64 x = x + 1.
Proof. intros H. unfold incr64. apply wrap64_small. lia. Qed.

(** Every finish is preceded by its start. *)
Definition well_ordered (es : list stats_event) : Prop :=
  forall es1 es2, es = es1 ++ es2 -> count is_finished es1 <= count is_started es1.

(** What the counters hold. *)
Definition stats_ok (es : list stats_event) (s : server_stats_t) : Prop :=
  initialized s = true /\
  connections_accepted s = count is_accepted es /\
  requests_total s = count is_request es /\
  responses_2xx s = count (is_status 200 299) es /\
  responses_4xx s = count (is_status 400 499) es /\
  responses_5xx s = count (is_status 500 599) es.

Lemma stats_ok_step es e s : zlen es < SIZE_MAX ->
  stats_ok es s -> stats_ok (es ++ [e]) (apply_event s e).
Proof.
  intros Hl (Hi & Ha & Hq & H2 & H4 & H5). unfold stats_ok. rewrite !count_snoc.
  pose proof (count_le is_accepted es). pose proof (count_le is_request es).
  pose proof (count_le (is_status 200 299) es). pose proof (count_le (is_status 400 499) es).
  pose proof (count_le (is_status 500 599) es).
  destruct e; simpl; unfold server_stats_connection_accepted, server_stats_connection_started,
    server_stats_connection_finished, server_stats_request_received, server_stats_response_sent;
    rewrite Hi; simpl.
  - rewrite incr64_small by lia. split_and!; try done; lia.
  - split_and!; try done; lia.
  - destruct (0 <? active_connections s); simpl; split_and!; try done; lia.
  - rewrite incr64_small by lia. split_and!; try done; lia.
  - destruct (Z.leb_spec 200 status), (Z.leb_spec status 299); simpl;
      destruct (Z.leb_spec 400 status), (Z.leb_spec status 499); simpl;
      destruct (Z.leb_spec 500 status), (Z.leb_spec status 599); simpl; try lia;
      rewrite ?incr64_small by lia; split_and!; try done; lia.
Qed.

Lemma run_events_ok es : zlen es <= SIZE_MAX -> stats_ok es (run_events (zero_stats true) es).
Proof.
  induction es as [|e es IH] using rev_ind; intros Hl; [done|].
  unfold run_events. rewrite foldl_app. simpl. rewrite zlen_app in Hl. change (zlen [e]) with 1 in Hl.
  apply stats_ok_step; [lia|]. apply IH. lia.
Qed.

Lemma active_step es e s : zlen es < SIZE_MAX -> initialized s = true ->
  active_connections s = count is_started es - count is_finished es ->
  count is_finished es <= count is_started es ->
  count is_finished (es ++ [e]) <= count is_started (es ++ [e]) ->
  active_connections (apply_event s e) =
    count is_started (es ++ [e]) - count is_finished (es ++ [e]).
Proof.
  intros Hl Hi Ha Hle0. rewrite !count_snoc. pose proof (count_le is_started es).
  pose proof (count_le is_finished es).
  destruct e; simpl; unfold server_stats_connection_accepted, server_stats_connection_started,
    server_stats_connection_finished, server_stats_request_received, server_stats_response_sent;
    rewrite Hi; simpl; intros Hle; try lia.
  - rewrite incr64_small; lia.
  - destruct (Z.ltb_spec 0 (active_connections s)); simpl; lia.
  - repeat case_match; simpl; lia.
Qed.

Lemma well_ordered_app es1 es2 : well_ordered (es1 ++ es2) -> well_ordered es1.
Proof. intros Hw a b ->. apply (Hw a (b ++ es2)). by rewrite app_assoc. Qed.

Lemma well_ordered_le es : well_ordered es -> count is_finished es <= count is_started es.
Proof. intros Hw. apply (Hw es []). by rewrite app_nil_r. Qed.

Lemma active_exact es : zlen es <= SIZE_MAX -> well_ordered es ->
  active_connections (run_events (zero_stats true) es) =
  count is_started es - count is_finished es.
Proof.
  induction es as [|e es IH] using rev_ind; intros Hl Hw; [done|].
  rewrite zlen_app in Hl. change (zlen [e]) with 1 in Hl.
  pose proof (well_ordered_app _ _ Hw) as Hw'.
  unfold run_events. rewrite foldl_app. apply active_step.
  - lia.
  - apply run_events_ok. lia.
  - apply IH; [lia|done].
  - by apply well_ordered_le.
  - by apply well_ordered_le.
Qed.

Lemma active_above es : zlen es <= SIZE_MAX ->
  0 <= active_connections (run_events (zero_stats true) es) <= count is_started es /\
  count is_started es - count is_finished es <= active_connections (run_events (zero_stats true) es).
Proof.
  induction es as [|e es IH] using rev_ind; intros Hl; [done|].
  rewrite zlen_app in Hl. change (zlen [e]) with 1 in Hl. destruct (IH ltac:(lia)) as [Hb Ha].
  destruct (run_events_ok es ltac:(lia)) as (Hi & _). pose proof (count_le is_started es).
  unfold run_events. rewrite foldl_app. fold (run_events (zero_stats true) es).
  set (s := run_events (zero_stats true) es) in *. rewrite !count_snoc. destruct e; simpl;
    unfold server_stats_connection_accepted, server_stats_connection_started,
    server_stats_connection_finished, server_stats_request_received, server_stats_response_sent;
    rewrite Hi; simpl; try lia.
  - rewrite incr64_small; lia.
  - destruct (Z.ltb_spec 0 (active_connections s)); simpl; lia.
  - repeat case_match; simpl; lia.
Qed.

(** C32. Every interleaving of the threads leaves the exact number of events in
    the cumulative counters (fewer than 2^64 of them), and never too few active
    connections; and when each connection is reported started before it is
    reported finished, [active_connections] is exactly the number of connections
    in progress and the guarded decrement never hides one. *)
Theorem counters_exact es : zlen es <= SIZE_MAX ->
  let s := server_stats_snapshot (run_events (zero_stats true) es) in
  snap_connections_accepted s = count is_accepted es /\
  snap_requests_total s = count is_request es /\
  snap_responses_2xx s = count (is_status 200 299) es /\
  snap_responses_4xx s = count (is_status 400 499) es /\
  snap_responses_5xx s = count (is_status 500 599) es /\
  count is_started es - count is_finished es <= snap_active_connections s /\
  (well_ordered es -> snap_active_connections s = count is_started es - count is_finished es).
Proof.
  intros Hl. destruct (run_events_ok es Hl) as (Hi & Ha & Hq & H2 & H4 & H5).
  unfold server_stats_snapshot. rewrite Hi. simpl. split_and!; try done;
    [by apply active_above|by apply active_exact].
Qed.

Lemma counters_exact_witness :
  let es := [EvAccepted; EvFinished; EvStarted; EvRequest; EvResponse 404] in
  let s := server_stats_snapshot (run_events (zero_stats true) es) in
  snap_connections_accepted s = 1 /\ snap_requests_total s = 1 /\ snap_responses_2xx s = 0 /\
  snap_responses_4xx s = 1 /\ snap_responses_5xx s = 0 /\ 1 - 1 <= snap_active_connections s /\
  (well_ordered es -> snap_active_connections s = 1 - 1).
Proof.
  apply (counters_exact [EvAccepted; EvFinished; EvStarted; EvRequest; EvResponse 404]).
  by vm_compute.
Defined.

(** The accept thread reports a start only after the push that makes the
    connection available, so a worker may report the finish first; the guarded
    decrement then drops it and the gauge stays one too high for ever. *)
Theorem late_start_leaks_active es : zlen es < SIZE_MAX - 2 -> well_ordered es ->
  count is_started es = count is_finished es ->
  active_connections (run_events (zero_stats true) (es ++ [EvFinished; EvStarted])) = 1.
Proof.
  intros Hl Hw Hc. unfold run_events. rewrite foldl_app. fold (run_events (zero_stats true) es).
  pose proof (run_events_ok es ltac:(lia)) as (Hi & _).
  pose proof (active_exact es ltac:(lia) Hw) as Ha. rewrite Hc, Z.sub_diag in Ha. simpl.
  unfold server_stats_connection_finished. rewrite Hi, Ha. simpl.
  unfold server_stats_connection_started. rewrite Hi, Ha. reflexivity.
Qed.

Lemma late_start_leaks_active_witness :
  active_connections (run_events (zero_stats true) ([] ++ [EvFinished; EvStarted])) = 1.
Proof.
  apply (late_start_leaks_active []); [by vm_compute| |done].
  intros es1 es2 H. symmetry in H. apply app_nil in H as [-> _]. by vm_compute.
Defined.
