(* ===== verification/Config.v ===== *)
(** * Configuration: config.h and config.c

    Defaults and command-line parsing.  What is printed on the way is in
    ConfigOutput.v; [argv] is the list of arguments after the program name, each a C
    string. *)
From S2P Require Import Prelude CLib.

Definition PATH_MAX : Z := 4096.

Definition CONFIG_DEFAULT_PORT : Z := 8080.
Definition CONFIG_DEFAULT_WORKER_COUNT : Z := 4.
Definition CONFIG_DEFAULT_QUEUE_CAPACITY : Z := 64.
Definition CONFIG_DEFAULT_DOCUMENT_ROOT : list byte := lit "./public".
Definition CONFIG_DEFAULT_KEEP_ALIVE_TIMEOUT_SEC : Z := 5.
Definition CONFIG_DEFAULT_REQUEST_TIMEOUT_SEC : Z := 10.

Definition CONFIG_MIN_PORT : Z := 1.
Definition CONFIG_MAX_PORT : Z := 65535.
Definition CONFIG_MIN_WORKER_COUNT : Z := 1.
Definition CONFIG_MAX_WORKER_COUNT : Z := 256.
Definition CONFIG_MIN_QUEUE_CAPACITY : Z := 1.
Definition CONFIG_MAX_QUEUE_CAPACITY : Z := 4096.
Definition CONFIG_MIN_KEEP_ALIVE_TIMEOUT_SEC : Z := 1.
Definition CONFIG_MAX_KEEP_ALIVE_TIMEOUT_SEC : Z := 300.
Definition CONFIG_MIN_REQUEST_TIMEOUT_SEC : Z := 1.
Definition CONFIG_MAX_REQUEST_TIMEOUT_SEC : Z := 300.

(** [document_root] is the C string held by the array of PATH_MAX bytes. *)
Record server_config_t := Config {
  port : Z;
  worker_count : Z;
  queue_capacity : Z;
  document_root : list byte;
  verbose : bool;
  keep_alive_timeout_sec : Z;
  request_timeout_sec : Z;
}.

Inductive config_parse_result_t :=
| CONFIG_PARSE_OK
| CONFIG_PARSE_HELP
| CONFIG_PARSE_ERROR.

(** The value after a numeric option: [argv] is what follows the option. *)
Definition parse_long_arg (argv : list (list byte)) : option (Z * list (list byte)) :=
  match argv with
  | [] => None
  | value_str :: argv' =>
      let '(value, e, erange) := strtol value_str in
      if (e =? 0)%nat || negb (bool_decide (drop e value_str = [])) || erange then None
      else Some (value, argv')
  end.

(** [snprintf(config->document_root, PATH_MAX, "%s", s)]: what is stored, and
    whether it fits. *)
Definition store_root (s : list byte) : list byte * bool :=
  (take (Z.to_nat (PATH_MAX - 1)) s, zlen s <? PATH_MAX).

Definition config_defaults : server_config_t :=
  {| port := CONFIG_DEFAULT_PORT; worker_count := CONFIG_DEFAULT_WORKER_COUNT;
     queue_capacity := CONFIG_DEFAULT_QUEUE_CAPACITY;
     document_root := fst (store_root CONFIG_DEFAULT_DOCUMENT_ROOT); verbose := false;
     keep_alive_timeout_sec := CONFIG_DEFAULT_KEEP_ALIVE_TIMEOUT_SEC;
     request_timeout_sec := CONFIG_DEFAULT_REQUEST_TIMEOUT_SEC |}.

Definition config_set_defaults (config : server_config_t) : server_config_t := config_defaults.

Definition set_port (v : Z) (c : server_config_t) : server_config_t :=
  {| port := v; worker_count := worker_count c; queue_capacity := queue_capacity c;
     document_root := document_root c; verbose := verbose c;
     keep_alive_timeout_sec := keep_alive_timeout_sec c;
     request_timeout_sec := request_timeout_sec c |}.

Definition set_workers (v : Z) (c : server_config_t) : server_config_t :=
  {| port := port c; worker_count := v; queue_capacity := queue_capacity c;
     document_root := document_root c; verbose := verbose c;
     keep_alive_timeout_sec := keep_alive_timeout_sec c;
     request_timeout_sec := request_timeout_sec c |}.

Definition set_queue (v : Z) (c : server_config_t) : server_config_t :=
  {| port := port c; worker_count := worker_count c; queue_capacity := v;
     document_root := document_root c; verbose := verbose c;
     keep_alive_timeout_sec := keep_alive_timeout_sec c;
     request_timeout_sec := request_timeout_sec c |}.

Definition set_root (v : list byte) (c : server_config_t) : server_config_t :=
  {| port := port c; worker_count := worker_count c; queue_capacity := queue_capacity c;
     document_root := v; verbose := verbose c;
     keep_alive_timeout_sec := keep_alive_timeout_sec c;
     request_timeout_sec := request_timeout_sec c |}.

Definition set_verbose (v : bool) (c : server_config_t) : server_config_t :=
  {| port := port c; worker_count := worker_count c; queue_capacity := queue_capacity c;
     document_root := document_root c; verbose := v;
     keep_alive_timeout_sec := keep_alive_timeout_sec c;
     request_timeout_sec := request_timeout_sec c |}.

Definition set_keep_alive (v : Z) (c : server_config_t) : server_config_t :=
  {| port := port c; worker_count := worker_count c; queue_capacity := queue_capacity c;
     document_root := document_root c; verbose := verbose c; keep_alive_timeout_sec := v;
     request_timeout_sec := request_timeout_sec c |}.

Definition set_request_timeout (v : Z) (c : server_config_t) : server_config_t :=
  {| port := port c; worker_count := worker_count c; queue_capacity := queue_capacity c;
     document_root := document_root c; verbose := verbose c;
     keep_alive_timeout_sec := keep_alive_timeout_sec c; request_timeout_sec := v |}.

(** One pass of the [for] over the options: [inl] the result that ends it,
    [inr] the arguments left.  A numeric option parses its value, checks the
    bounds and stores it. *)
Definition config_parse_option (config : server_config_t) (arg : list byte)
    (argv : list (list byte))
  : server_config_t * (config_parse_result_t + list (list byte)) :=
  let numeric lo hi (store : Z -> server_config_t -> server_config_t) :=
    match parse_long_arg argv with
    | None => (config, inl CONFIG_PARSE_ERROR)
    | Some (value, argv') =>
        if (value <? lo) || (hi <? value) then (config, inl CONFIG_PARSE_ERROR)
        else (store value config, inr argv')
    end in
  if strcmp_eq arg (lit "--help") then (config, inl CONFIG_PARSE_HELP)
  else if strcmp_eq arg (lit "--verbose") then (set_verbose true config, inr argv)
  else if strcmp_eq arg (lit "--port") then numeric CONFIG_MIN_PORT CONFIG_MAX_PORT set_port
  else if strcmp_eq arg (lit "--workers") then
    numeric CONFIG_MIN_WORKER_COUNT CONFIG_MAX_WORKER_COUNT set_workers
  else if strcmp_eq arg (lit "--queue-size") then
    numeric CONFIG_MIN_QUEUE_CAPACITY CONFIG_MAX_QUEUE_CAPACITY set_queue
  else if strcmp_eq arg (lit "--root") then
    match argv with
    | [] => (config, inl CONFIG_PARSE_ERROR)
    | root :: argv' =>
        let '(stored, fits) := store_root root in
        (set_root stored config, if fits then inr argv' else inl CONFIG_PARSE_ERROR)
    end
  else if strcmp_eq arg (lit "--keep-alive-timeout") then
    numeric CONFIG_MIN_KEEP_ALIVE_TIMEOUT_SEC CONFIG_MAX_KEEP_ALIVE_TIMEOUT_SEC set_keep_alive
  else if strcmp_eq arg (lit "--request-timeout") then
    numeric CONFIG_MIN_REQUEST_TIMEOUT_SEC CONFIG_MAX_REQUEST_TIMEOUT_SEC set_request_timeout
  else (config, inl CONFIG_PARSE_ERROR).

(** The loop: every pass consumes at least one argument. *)
Fixpoint config_parse_loop (fuel : nat) (config : server_config_t) (argv : list (list byte))
  : server_config_t * config_parse_result_t :=
  match fuel with
  | O => (config, CONFIG_PARSE_OK)
  | S fuel =>
      match argv with
      | [] => (config, CONFIG_PARSE_OK)
      | arg :: argv' =>
          match config_parse_option config arg argv' with
          | (config, inl r) => (config, r)
          | (config, inr rest) => config_parse_loop fuel config rest
          end
      end
  end.

Definition config_parse_args (config : server_config_t) (argv : list (list byte))
  : server_config_t * config_parse_result_t :=
  config_parse_loop (S (length argv)) config argv.

(** ** Theorems *)

(** The bounds of config.h. *)
Record config_ok (c : server_config_t) : Prop := {
  co_port : CONFIG_MIN_PORT <= port c <= CONFIG_MAX_PORT;
  co_workers : CONFIG_MIN_WORKER_COUNT <= worker_count c <= CONFIG_MAX_WORKER_COUNT;
  co_queue : CONFIG_MIN_QUEUE_CAPACITY <= queue_capacity c <= CONFIG_MAX_QUEUE_CAPACITY;
  co_root : zlen (document_root c) < PATH_MAX;
  co_keep_alive : CONFIG_MIN_KEEP_ALIVE_TIMEOUT_SEC <= keep_alive_timeout_sec c
                  <= CONFIG_MAX_KEEP_ALIVE_TIMEOUT_SEC;
  co_request : CONFIG_MIN_REQUEST_TIMEOUT_SEC <= request_timeout_sec c
               <= CONFIG_MAX_REQUEST_TIMEOUT_SEC;
}.

Lemma config_defaults_ok : config_ok config_defaults.
Proof. split; by vm_compute. Qed.

Lemma store_root_fits s : zlen (fst (store_root s)) < PATH_MAX.
Proof. unfold store_root, zlen, PATH_MAX. simpl fst. rewrite length_take. lia. Qed.

Lemma config_parse_option_ok c arg argv : config_ok c ->
  config_ok (fst (config_parse_option c arg argv)) /\
  forall rest, snd (config_parse_option c arg argv) = inr rest ->
    (length rest <= length argv)%nat /\ exists k, argv = k ++ rest.
Proof.
  intros Hc. pose proof Hc as [H1 H2 H3 H4 H5 H6]. unfold config_parse_option.
  assert (Hnum : forall lo hi store, (forall v, lo <= v <= hi -> config_ok (store v c)) ->
    let res := match parse_long_arg argv with
      | None => (c, inl CONFIG_PARSE_ERROR)
      | Some (value, argv') =>
          if (value <? lo) || (hi <? value) then (c, inl CONFIG_PARSE_ERROR)
          else (store value c, inr argv')
      end in
    config_ok (fst res) /\ forall rest, snd res = inr rest ->
      (length rest <= length argv)%nat /\ exists k, argv = k ++ rest).
  { intros lo hi store Hs. cbv zeta. destruct (parse_long_arg argv) as [[v argv']|] eqn:Ep; [|by split].
    destruct (Z.ltb_spec v lo); [by split|]. destruct (Z.ltb_spec hi v); [by split|].
    split; [apply Hs; lia|]. simpl. intros rest [= <-]. unfold parse_long_arg in Ep.
    destruct argv as [|a argv0]; [done|]. destruct (strtol a) as [[? ?] ?].
    destruct (_ || _ || _); [done|]. simplify_eq. split; [simpl; lia|by exists [a]]. }
  repeat match goal with |- context [if strcmp_eq ?x ?y then _ else _] => destruct (strcmp_eq x y) end.
  1, 9: by split.
  1: split; [by split|]; simpl; intros rest [= <-]; split; [lia|by exists []].
  1, 2, 3, 5, 6: apply Hnum; intros v Hv; by split.
  destruct argv as [|root argv']; [by split|]. split.
  - split; try done. apply (store_root_fits root).
  - simpl. intros rest. destruct (zlen root <? PATH_MAX); [|done]. intros [= <-].
    split; [simpl; lia|by exists [root]].
Qed.

Lemma config_parse_loop_ok fuel : forall c argv, config_ok c ->
  config_ok (fst (config_parse_loop fuel c argv)).
Proof.
  induction fuel as [|fuel IH]; intros c argv Hc; [done|]. simpl. destruct argv as [|arg argv]; [done|].
  destruct (config_parse_option_ok c arg argv Hc) as [Ho _].
  destruct (config_parse_option c arg argv) as [c' [r|rest]]; [done|]. by apply IH.
Qed.

Lemma parse_long_arg_app argv v rest more :
  parse_long_arg argv = Some (v, rest) -> parse_long_arg (argv ++ more) = Some (v, rest ++ more).
Proof.
  unfold parse_long_arg. destruct argv as [|a argv]; [done|]. simpl.
  destruct (strtol a) as [[value e] erange]. destruct (_ || _ || _); naive_solver.
Qed.

(** An option that succeeds does not look beyond its own arguments. *)
Lemma config_parse_option_app c arg argv c' rest more :
  config_parse_option c arg argv = (c', inr rest) ->
  config_parse_option c arg (argv ++ more) = (c', inr (rest ++ more)).
Proof.
  unfold config_parse_option.
  repeat match goal with |- context [if strcmp_eq ?x ?y then _ else _] => destruct (strcmp_eq x y) end;
    try done; try (by intros [= <- <-]).
  4: { destruct argv as [|root argv]; [done|]. simpl. case_match; naive_solver. }
  all: destruct (parse_long_arg argv) as [[v argv']|] eqn:Ep; [|done];
    rewrite (parse_long_arg_app _ _ _ _ Ep); destruct (_ || _); naive_solver.
Qed.

Lemma config_parse_option_length c arg argv c' rest :
  config_parse_option c arg argv = (c', inr rest) -> (length rest <= length argv)%nat.
Proof.
  unfold config_parse_option.
  repeat match goal with |- context [if strcmp_eq ?x ?y then _ else _] => destruct (strcmp_eq x y) end;
    try done; try (by intros [= <- <-]).
  4: { destruct argv as [|root argv]; [done|]. simpl. case_match; [|done]. intros [= <- <-]. lia. }
  all: unfold parse_long_arg; destruct argv as [|a argv]; [done|];
    destruct (strtol a) as [[? ?] ?]; destruct (_ || _ || _); [done|];
    destruct (_ || _); [done|]; intros [= <- <-]; simpl; lia.
Qed.

(** The fuel is enough. *)
Lemma config_parse_loop_fuel n : forall m c argv, (length argv < n)%nat -> (length argv < m)%nat ->
  config_parse_loop n c argv = config_parse_loop m c argv.
Proof.
  induction n as [|n IH]; intros [|m] c argv Hn Hm; [lia..|]. simpl. destruct argv as [|a argv]; [done|].
  destruct (config_parse_option c a argv) as [c' [r|rest]] eqn:E; [done|].
  apply config_parse_option_length in E. simpl in *. apply IH; lia.
Qed.

Lemma config_parse_loop_app more : forall fuel c argv c', (length argv < fuel)%nat ->
  config_parse_loop fuel c argv = (c', CONFIG_PARSE_OK) ->
  config_parse_loop (fuel + length more) c (argv ++ more) =
  config_parse_loop (S (length more)) c' more.
Proof.
  induction fuel as [|fuel IH]; intros c argv c' Hf; [lia|]. destruct argv as [|a argv].
  { intros [= ->]. apply config_parse_loop_fuel; simpl; lia. }
  simpl in Hf. cbn [config_parse_loop app Nat.add].
  destruct (config_parse_option c a argv) as [c1 [r|rest]] eqn:E.
  - intros [= -> ->]. exfalso. revert E. unfold config_parse_option.
    repeat match goal with |- context [if strcmp_eq ?x ?y then _ else _] => destruct (strcmp_eq x y) end;
      repeat case_match; naive_solver.
  - intros H. rewrite (config_parse_option_app _ _ _ _ _ more E).
    apply config_parse_option_length in E. apply IH; [lia|done].
Qed.

(** What a numeric argument looks like: white space, a sign, digits and nothing
    after them, with a value in the range of [long]. *)
Definition number (s : list byte) (v : Z) : Prop :=
  exists ws sg ds, s = ws ++ sg ++ ds /\ Forall (fun c => is_space c = true) ws /\
    (sg = [] \/ sg = ["+"%byte] \/ sg = ["-"%byte]) /\ ds <> [] /\
    Forall (fun c => is_digit c = true) ds /\
    v = (if bool_decide (sg = ["-"%byte]) then - dec_value 0 ds else dec_value 0 ds) /\
    LONG_MIN <= v <= LONG_MAX.

Lemma span_app f l k : Forall (fun c => f c = true) l ->
  (forall c k', k = c :: k' -> f c = false) -> span f (l ++ k) = (l, k).
Proof.
  intros HF Hk. induction HF as [|x l Hx _ IH]; simpl; [|by rewrite Hx, IH].
  destruct k as [|c k]; [done|]. simpl. by rewrite (Hk c k).
Qed.

Lemma number_scan ws sg ds :
  Forall (fun c => is_space c = true) ws -> (sg = [] \/ sg = ["+"%byte] \/ sg = ["-"%byte]) ->
  ds <> [] -> Forall (fun c => is_digit c = true) ds ->
  scan_decimal (ws ++ sg ++ ds) =
    (bool_decide (sg = ["-"%byte]), ds, length (ws ++ sg ++ ds)).
Proof.
  intros Hws Hsg Hne Hds. unfold scan_decimal. destruct ds as [|d ds]; [done|].
  pose proof (Forall_inv Hds) as Hd. cbv beta in Hd.
  rewrite (span_app is_space ws (sg ++ d :: ds)) by
    (done || (destruct Hsg as [->|[->| ->]]; intros c k [= <- _]; [by apply is_digit_not_space|done..])).
  assert (Hsc : scan_sign (sg ++ d :: ds) = (bool_decide (sg = ["-"%byte]), d :: ds)).
  { destruct Hsg as [->|[->| ->]]; [|done..]. simpl. by destruct (is_digit_not_sign d Hd) as [-> ->]. }
  rewrite Hsc, (span_all _ _ Hds). f_equal. rewrite Nat.sub_0_r. done.
Qed.

Lemma scan_number s neg ds e : scan_decimal s = (neg, ds, e) -> e <> 0%nat -> drop e s = [] ->
  exists ws sg, s = ws ++ sg ++ ds /\ Forall (fun c => is_space c = true) ws /\
    (sg = [] \/ sg = ["+"%byte] \/ sg = ["-"%byte]) /\ ds <> [] /\
    Forall (fun c => is_digit c = true) ds /\ neg = bool_decide (sg = ["-"%byte]).
Proof.
  unfold scan_decimal. destruct (span is_space s) as [ws s1] eqn:E1.
  apply span_spec in E1 as (-> & Hws & _). destruct (scan_sign s1) as [neg' s2] eqn:E2.
  destruct (span is_digit s2) as [ds' rest] eqn:E3. apply span_spec in E3 as (-> & Hds & _).
  destruct ds' as [|d ds']; [by intros [= <- <- <-]|]. intros [= <- <- <-] He Hdrop.
  assert (Hs1 : exists sg, s1 = sg ++ (d :: ds') ++ rest /\
    (sg = [] \/ sg = ["+"%byte] \/ sg = ["-"%byte]) /\ neg' = bool_decide (sg = ["-"%byte])).
  { unfold scan_sign in E2. destruct s1 as [|c s1]; [by simplify_eq|].
    destruct (c =?b "-") eqn:Em; [apply eqb_eq_byte in Em; simplify_eq; by exists ["-"%byte]; auto|].
    destruct (c =?b "+") eqn:Ep; [apply eqb_eq_byte in Ep; simplify_eq; exists ["+"%byte]; auto|].
    simplify_eq. exists []. auto. }
  destruct Hs1 as (sg & -> & Hsg & ->).
  assert (rest = []) as ->.
  { apply (f_equal length) in Hdrop. rewrite length_drop, !length_app in Hdrop. simpl in Hdrop.
    destruct rest; [done|]. simpl in *. lia. }
  exists ws, sg. rewrite app_nil_r. split_and!; auto.
Qed.

Lemma parse_long_arg_number s argv v rest :
  parse_long_arg (s :: argv) = Some (v, rest) <-> number s v /\ rest = argv.
Proof.
  unfold parse_long_arg, strtol. split.
  - destruct (scan_decimal s) as [[neg ds] e] eqn:Es. intros H.
    assert (He : e <> 0%nat /\ drop e s = [] /\
      v = (if neg then - dec_value 0 ds else dec_value 0 ds) /\ LONG_MIN <= v <= LONG_MAX /\ rest = argv).
    { set (x := if neg then _ else _) in *. destruct (Z.ltb_spec LONG_MAX x).
      { rewrite orb_true_r in H. done. }
      destruct (Z.ltb_spec x LONG_MIN). { rewrite orb_true_r in H. done. }
      rewrite orb_false_r in H. destruct (Nat.eqb_spec e 0); [done|].
      case_bool_decide; [|done]. simplify_eq/=. split_and!; auto; lia. }
    destruct He as (He & Hd & Hv & Hr & ->). split; [|done].
    destruct (scan_number _ _ _ _ Es He Hd) as (ws & sg & -> & Hws & Hsg & Hne & Hds & ->).
    exists ws, sg, ds. split_and!; auto; lia.
  - intros [(ws & sg & ds & -> & Hws & Hsg & Hne & Hds & Hv & Hr) ->].
    rewrite number_scan by done. rewrite <- Hv.
    destruct (Z.ltb_spec LONG_MAX v); [lia|]. destruct (Z.ltb_spec v LONG_MIN); [lia|].
    rewrite drop_all, bool_decide_eq_true_2 by done.
    destruct (Nat.eqb_spec (length (ws ++ sg ++ ds)) 0) as [Hz|_]; [|done].
    rewrite !length_app in Hz. destruct ds; simpl in *; [done|lia].
Qed.

(** Numeric options are honest: an argument is accepted exactly when all of it
    is a decimal integer in the range of [long] (white space and a sign may
    precede the digits), and its value is the one stored. *)
Theorem numeric_argument_exact s argv v rest :
  parse_long_arg (s :: argv) = Some (v, rest) <-> number s v /\ rest = argv.
Proof. apply parse_long_arg_number. Qed.

(** C34. Whatever the command line, accepted or not, the configuration stays within
    the bounds of config.h, the document root is terminated inside its array,
    and the idle timeout in milliseconds fits an [int]. *)
Theorem config_within_bounds argv c r :
  config_parse_args (config_set_defaults c) argv = r ->
  config_ok (fst r) /\ 0 < keep_alive_timeout_sec (fst r) * 1000 <= INT_MAX.
Proof.
  intros <-. assert (H : config_ok (fst (config_parse_args config_defaults argv))).
  { apply config_parse_loop_ok, config_defaults_ok. }
  split; [exact H|]. destruct H as [_ _ _ _ Hk _]. unfold config_set_defaults.
  unfold CONFIG_MIN_KEEP_ALIVE_TIMEOUT_SEC, CONFIG_MAX_KEEP_ALIVE_TIMEOUT_SEC, INT_MAX in *. lia.
Qed.

Lemma config_within_bounds_witness :
  config_ok (fst (config_parse_args (config_set_defaults config_defaults) [lit "--port"; lit "9000"])) /\
  0 < keep_alive_timeout_sec
        (fst (config_parse_args (config_set_defaults config_defaults) [lit "--port"; lit "9000"])) * 1000
    <= INT_MAX.
Proof. apply (config_within_bounds [lit "--port"; lit "9000"] config_defaults). reflexivity. Defined.

(** Options are processed left to right, each on its own arguments: a command
    line that parses, followed by another, is the second parsed on top of the
    first, so the last occurrence of an option wins. *)
Theorem config_options_compose c argv1 argv2 c' :
  config_parse_args c argv1 = (c', CONFIG_PARSE_OK) ->
  config_parse_args c (argv1 ++ argv2) = config_parse_args c' argv2.
Proof.
  unfold config_parse_args. intros H. rewrite <- (config_parse_loop_app argv2 (S (length argv1)) c argv1 c' ltac:(lia) H).
  apply config_parse_loop_fuel; rewrite length_app; lia.
Qed.

Lemma config_options_compose_witness :
  config_parse_args config_defaults ([lit "--port"; lit "9000"] ++ [lit "--port"; lit "+81"]) =
  config_parse_args (set_port 9000 config_defaults) [lit "--port"; lit "+81"].
Proof. apply config_options_compose. vm_compute. reflexivity. Defined.
