(* ===== verification/ConnectionQueue.v ===== *)
(** * The bounded connection queue: connection_queue.h and connection_queue.c

    The ring buffer of descriptors.  All of [push] and [pop] runs under the
    mutex except the waits on the condition variables, so each is modelled by
    what one evaluation under the lock does: return, or wait and be evaluated
    again.  The theorems relate the ring to a list (FIFO), and follow the
    ownership of the descriptors. *)
From S2P Require Import Prelude CLib Proc ResponseCorrect.

(** [items] is the array with its block ([None] for NULL), -1 is [None]. *)
Record connection_queue_t := Queue {
  q_block : option nat;
  q_items : list (option nat);
  q_capacity : nat;
  q_head : nat;
  q_tail : nat;
  q_count : nat;
  q_shutting_down : bool;
  q_mutex_initialized : bool;
  q_not_empty_initialized : bool;
  q_not_full_initialized : bool;
}.

Inductive connection_queue_status_t :=
| CONNECTION_QUEUE_OK
| CONNECTION_QUEUE_SHUTDOWN
| CONNECTION_QUEUE_ERROR.

#[global] Instance queue_status_eq_dec : EqDecision connection_queue_status_t.
Proof. solve_decision. Defined.

(** All bytes zero. *)
Definition zero_queue : connection_queue_t :=
  {| q_block := None; q_items := []; q_capacity := 0; q_head := 0; q_tail := 0; q_count := 0;
     q_shutting_down := false; q_mutex_initialized := false; q_not_empty_initialized := false;
     q_not_full_initialized := false |}.

(** The loop of [connection_queue_destroy] over the entries in use. *)
Fixpoint close_entries (n i : nat) (q : connection_queue_t) : M proc (list (option nat)) :=
  match n with
  | O => mret (q_items q)
  | S n =>
      let idx := ((q_head q + i) mod q_capacity q)%nat in
      match q_items q !! idx with
      | Some (Some fd) =>
          close fd;;
          close_entries n (S i)
            {| q_block := q_block q; q_items := <[idx := None]> (q_items q);
               q_capacity := q_capacity q; q_head := q_head q; q_tail := q_tail q;
               q_count := q_count q; q_shutting_down := q_shutting_down q;
               q_mutex_initialized := q_mutex_initialized q;
               q_not_empty_initialized := q_not_empty_initialized q;
               q_not_full_initialized := q_not_full_initialized q |}
      | _ => close_entries n (S i) q
      end
  end.

Definition connection_queue_destroy (q : connection_queue_t) : M proc connection_queue_t :=
  (match q_block q with
   | Some _ => if (0 <? q_count q)%nat then close_entries (q_count q) 0 q else mret (q_items q)
   | None => mret (q_items q)
   end);;
  free (q_block q);;
  mret zero_queue.

Definition set_sync (m ne nf : bool) (q : connection_queue_t) : connection_queue_t :=
  {| q_block := q_block q; q_items := q_items q; q_capacity := q_capacity q; q_head := q_head q;
     q_tail := q_tail q; q_count := q_count q; q_shutting_down := q_shutting_down q;
     q_mutex_initialized := m; q_not_empty_initialized := ne; q_not_full_initialized := nf |}.

(** [mutex_ok], [not_empty_ok], [not_full_ok]: the results of the pthread
    initializers.  [calloc] leaves zeros, the descriptor 0, in the array. *)
Definition connection_queue_init (mutex_ok not_empty_ok not_full_ok : bool) (capacity : nat)
  : M proc (bool * connection_queue_t) :=
  if (capacity =? 0)%nat then mret (false, zero_queue)
  else
    items ← malloc;
    match items with
    | None => mret (false, zero_queue)
    | Some b =>
        let q :=
          {| q_block := Some b; q_items := replicate capacity (Some 0%nat);
             q_capacity := capacity; q_head := 0; q_tail := 0; q_count := 0;
             q_shutting_down := false; q_mutex_initialized := false;
             q_not_empty_initialized := false; q_not_full_initialized := false |} in
        if negb mutex_ok then
          free (Some b);;
          mret (false, {| q_block := None; q_items := []; q_capacity := capacity; q_head := 0;
                          q_tail := 0; q_count := 0; q_shutting_down := false;
                          q_mutex_initialized := false; q_not_empty_initialized := false;
                          q_not_full_initialized := false |})
        else if negb not_empty_ok then
          q ← connection_queue_destroy (set_sync true false false q); mret (false, q)
        else if negb not_full_ok then
          q ← connection_queue_destroy (set_sync true true false q); mret (false, q)
        else mret (true, set_sync true true true q)
    end.

(** The result of one evaluation under the lock. *)
Inductive attempt (A : Type) :=
| Return (a : A) (q : connection_queue_t)
| Wait.
Arguments Return {A} a q.
Arguments Wait {A}.

(** The ring operations. *)
Definition enqueue (client_fd : nat) (q : connection_queue_t) : connection_queue_t :=
  {| q_block := q_block q; q_items := <[q_tail q := Some client_fd]> (q_items q);
     q_capacity := q_capacity q; q_head := q_head q;
     q_tail := ((q_tail q + 1) mod q_capacity q)%nat; q_count := (q_count q + 1)%nat;
     q_shutting_down := q_shutting_down q; q_mutex_initialized := q_mutex_initialized q;
     q_not_empty_initialized := q_not_empty_initialized q;
     q_not_full_initialized := q_not_full_initialized q |}.

Definition dequeue (q : connection_queue_t) : connection_queue_t :=
  {| q_block := q_block q; q_items := q_items q; q_capacity := q_capacity q;
     q_head := ((q_head q + 1) mod q_capacity q)%nat; q_tail := q_tail q;
     q_count := (q_count q - 1)%nat; q_shutting_down := q_shutting_down q;
     q_mutex_initialized := q_mutex_initialized q;
     q_not_empty_initialized := q_not_empty_initialized q;
     q_not_full_initialized := q_not_full_initialized q |}.

(** [abort]: the flag is not NULL and set; [lock_ok]: the mutex is acquired;
    [clock_ok]: [clock_gettime] succeeds; [wait_ok]: the wait ends with a wake-up or ETIMEDOUT. *)
Definition connection_queue_push (q : connection_queue_t) (client_fd : option nat)
    (abort lock_ok clock_ok wait_ok : bool) : attempt connection_queue_status_t :=
  match client_fd with
  | None => Return CONNECTION_QUEUE_ERROR q
  | Some fd =>
      if negb lock_ok then Return CONNECTION_QUEUE_ERROR q
      else if (q_capacity q <=? q_count q)%nat && negb (q_shutting_down q) then
        if abort then Return CONNECTION_QUEUE_SHUTDOWN q
        else if negb clock_ok then Return CONNECTION_QUEUE_ERROR q
        else if negb wait_ok then Return CONNECTION_QUEUE_ERROR q
        else Wait
      else if q_shutting_down q then Return CONNECTION_QUEUE_SHUTDOWN q
      else Return CONNECTION_QUEUE_OK (enqueue fd q)
  end.

(** The descriptor is meaningful with CONNECTION_QUEUE_OK only. *)
Definition connection_queue_pop (q : connection_queue_t) (lock_ok wait_ok : bool)
  : attempt (connection_queue_status_t * option nat) :=
  if negb lock_ok then Return (CONNECTION_QUEUE_ERROR, None) q
  else if (q_count q =? 0)%nat && negb (q_shutting_down q) then
    if negb wait_ok then Return (CONNECTION_QUEUE_ERROR, None) q else Wait
  else if (q_count q =? 0)%nat && q_shutting_down q then
    Return (CONNECTION_QUEUE_SHUTDOWN, None) q
  else
    Return (CONNECTION_QUEUE_OK, match q_items q !! q_head q with Some x => x | None => None end)
      (dequeue q).

Definition connection_queue_shutdown (q : connection_queue_t) : connection_queue_t :=
  if negb (q_mutex_initialized q) then q
  else
    {| q_block := q_block q; q_items := q_items q; q_capacity := q_capacity q;
       q_head := q_head q; q_tail := q_tail q; q_count := q_count q; q_shutting_down := true;
       q_mutex_initialized := q_mutex_initialized q;
       q_not_empty_initialized := q_not_empty_initialized q;
       q_not_full_initialized := q_not_full_initialized q |}.

(** Absolute deadline of the timed wait of [push]. *)
Definition timespec_add_ms (sec nsec ms : Z) : Z * Z :=
  let sec := sec + Z.quot ms 1000 in
  let nsec := nsec + Z.rem ms 1000 * 1000000 in
  if 1000000000 <=? nsec then (sec + 1, nsec - 1000000000) else (sec, nsec).

(** ** The ring as a list *)

(** The queue holds [l], oldest first. *)
Record ring (q : connection_queue_t) (l : list nat) : Prop := {
  rg_capacity : (0 < q_capacity q)%nat;
  rg_items : length (q_items q) = q_capacity q;
  rg_head : (q_head q < q_capacity q)%nat;
  rg_count : q_count q = length l;
  rg_bound : (length l <= q_capacity q)%nat;
  rg_tail : q_tail q = ((q_head q + length l) mod q_capacity q)%nat;
  rg_entries : forall i fd, l !! i = Some fd ->
    q_items q !! ((q_head q + i) mod q_capacity q)%nat = Some (Some fd);
}.

(** An index that wraps at most once. *)
Lemma wrap_index h i c : (h < c)%nat -> (i <= c)%nat ->
  ((h + i) mod c)%nat = (if (h + i <? c)%nat then h + i else h + i - c)%nat.
Proof.
  intros Hh Hi. destruct (Nat.ltb_spec (h + i) c) as [Hlt|Hge].
  - by apply Nat.mod_small.
  - replace (h + i)%nat with ((h + i - c) + 1 * c)%nat at 1 by lia.
    rewrite Nat.Div0.mod_add. apply Nat.mod_small. lia.
Qed.

Ltac wrap := repeat (rewrite wrap_index in * by lia);
  repeat match goal with |- context [(?a <? ?b)%nat] => destruct (Nat.ltb_spec a b) end.

Lemma ring_enqueue q l fd : ring q l -> (length l < q_capacity q)%nat ->
  ring (enqueue fd q) (l ++ [fd]).
Proof.
  intros [Hc Hi Hh Hn Hb Ht He] Hlt. split; simpl.
  - done.
  - by rewrite length_insert.
  - done.
  - rewrite length_app. simpl. lia.
  - rewrite length_app. simpl. lia.
  - rewrite length_app. simpl. rewrite Ht. rewrite Nat.Div0.add_mod_idemp_l. f_equal. lia.
  - intros i x [Hx|[Hil [Hi0 <-]%list_lookup_singleton_Some]]%lookup_app_Some.
    + pose proof (lookup_lt_Some _ _ _ Hx). rewrite list_lookup_insert_ne; [by apply He|].
      rewrite Ht. wrap; lia.
    + replace i with (length l) by lia. rewrite <- Ht. apply list_lookup_insert_eq.
      rewrite Hi, Ht. apply Nat.mod_upper_bound. lia.
Qed.

Lemma ring_dequeue q fd l : ring q (fd :: l) ->
  q_items q !! q_head q = Some (Some fd) /\ ring (dequeue q) l.
Proof.
  intros [Hc Hi Hh Hn Hb Ht He]. simpl in *. split.
  - specialize (He 0%nat fd eq_refl). by rewrite Nat.add_0_r, Nat.mod_small in He.
  - split; simpl.
    + done.
    + done.
    + apply Nat.mod_upper_bound. lia.
    + lia.
    + lia.
    + rewrite Ht, Nat.Div0.add_mod_idemp_l. f_equal. lia.
    + intros i x Hx. rewrite Nat.Div0.add_mod_idemp_l, <- Nat.add_assoc. apply (He (S i)). done.
Qed.

Lemma ring_shutdown q l : ring q l -> ring (connection_queue_shutdown q) l.
Proof. intros [? ? ? ? ? ? ?]. unfold connection_queue_shutdown. destruct (negb _); by split. Qed.

(** ** The specification: a bounded FIFO *)

Record fifo := Fifo { ff_bound : nat; ff_list : list nat; ff_closed : bool }.

(** [broken]: the call fails at once; [fails]: it would fail instead of waiting. *)
Definition fifo_push (f : fifo) (fd : nat) (abort broken fails : bool)
  : option (connection_queue_status_t * fifo) :=
  if broken then Some (CONNECTION_QUEUE_ERROR, f)
  else if ff_closed f then Some (CONNECTION_QUEUE_SHUTDOWN, f)
  else if decide (length (ff_list f) < ff_bound f)%nat
  then Some (CONNECTION_QUEUE_OK, Fifo (ff_bound f) (ff_list f ++ [fd]) false)
  else if abort then Some (CONNECTION_QUEUE_SHUTDOWN, f)
  else if fails then Some (CONNECTION_QUEUE_ERROR, f)
  else None.

Definition fifo_pop (f : fifo) (broken fails : bool)
  : option (connection_queue_status_t * option nat * fifo) :=
  if broken then Some (CONNECTION_QUEUE_ERROR, None, f)
  else match ff_list f with
  | fd :: l => Some (CONNECTION_QUEUE_OK, Some fd, Fifo (ff_bound f) l (ff_closed f))
  | [] =>
      if ff_closed f then Some (CONNECTION_QUEUE_SHUTDOWN, None, f)
      else if fails then Some (CONNECTION_QUEUE_ERROR, None, f)
      else None
  end.

Definition fifo_close (f : fifo) : fifo := Fifo (ff_bound f) (ff_list f) true.

(** The queue implements the FIFO [f]. *)
Definition implements (q : connection_queue_t) (f : fifo) : Prop :=
  ring q (ff_list f) /\ q_capacity q = ff_bound f /\ q_shutting_down q = ff_closed f /\
  q_mutex_initialized q = true.

Lemma push_implements q f fd abort lock_ok clock_ok wait_ok : implements q f ->
  match connection_queue_push q (Some fd) abort lock_ok clock_ok wait_ok,
        fifo_push f fd abort (negb lock_ok) (negb (clock_ok && wait_ok)) with
  | Return st q', Some (st', f') => st = st' /\ implements q' f'
  | Wait, None => True
  | _, _ => False
  end.
Proof.
  intros Himp. pose proof Himp as (Hr & Hcap & Hs & Hm). pose proof Hr as [Hc Hi Hh Hn Hb Ht He].
  unfold connection_queue_push, fifo_push. destruct lock_ok; cbn [negb]; [|done]. rewrite <- Hs.
  destruct (q_shutting_down q) eqn:Es.
  { by rewrite andb_false_r. }
  rewrite andb_true_r. destruct (Nat.leb_spec (q_capacity q) (q_count q)).
  - rewrite decide_False by lia.
    destruct abort; [done|]. by destruct clock_ok, wait_ok.
  - rewrite decide_True by lia. split; [done|]. split_and!; simpl; auto.
    apply ring_enqueue; [done|lia].
Qed.

Lemma pop_implements q f lock_ok wait_ok : implements q f ->
  match connection_queue_pop q lock_ok wait_ok, fifo_pop f (negb lock_ok) (negb wait_ok) with
  | Return (st, fd) q', Some (st', fd', f') => st = st' /\ fd = fd' /\ implements q' f'
  | Wait, None => True
  | _, _ => False
  end.
Proof.
  intros Himp. pose proof Himp as (Hr & Hcap & Hs & Hm). pose proof Hr as [Hc Hi Hh Hn Hb Ht He].
  unfold connection_queue_pop, fifo_pop. destruct lock_ok; cbn [negb]; [|done]. rewrite <- Hs, Hn.
  destruct (ff_list f) as [|fd l] eqn:El; simpl.
  - destruct (q_shutting_down q) eqn:Es; simpl; [done|]. by destruct wait_ok.
  - destruct (ring_dequeue _ _ _ Hr) as [-> Hr']. split_and!; auto. by split_and!.
Qed.

Lemma shutdown_implements q f : implements q f ->
  implements (connection_queue_shutdown q) (fifo_close f).
Proof.
  intros (Hr & Hcap & Hs & Hm). split_and!; [by apply ring_shutdown|..];
    unfold connection_queue_shutdown; by rewrite Hm.
Qed.

(** ** Sequences of calls *)

Inductive queue_call :=
| CallPush (fd : nat) (abort lock_ok clock_ok wait_ok : bool)
| CallPop (lock_ok wait_ok : bool)
| CallShutdown.

Inductive reply :=
| Pushed (st : connection_queue_status_t)
| Popped (st : connection_queue_status_t) (fd : option nat)
| Shut
| Waits.

Definition queue_step (c : queue_call) (q : connection_queue_t) : reply * connection_queue_t :=
  match c with
  | CallPush fd abort lock_ok clock_ok wait_ok =>
      match connection_queue_push q (Some fd) abort lock_ok clock_ok wait_ok with
      | Return st q' => (Pushed st, q')
      | Wait => (Waits, q)
      end
  | CallPop lock_ok wait_ok =>
      match connection_queue_pop q lock_ok wait_ok with
      | Return (st, fd) q' => (Popped st fd, q')
      | Wait => (Waits, q)
      end
  | CallShutdown => (Shut, connection_queue_shutdown q)
  end.

Definition fifo_step (c : queue_call) (f : fifo) : reply * fifo :=
  match c with
  | CallPush fd abort lock_ok clock_ok wait_ok =>
      match fifo_push f fd abort (negb lock_ok) (negb (clock_ok && wait_ok)) with
      | Some (st, f') => (Pushed st, f')
      | None => (Waits, f)
      end
  | CallPop lock_ok wait_ok =>
      match fifo_pop f (negb lock_ok) (negb wait_ok) with
      | Some (st, fd, f') => (Popped st fd, f')
      | None => (Waits, f)
      end
  | CallShutdown => (Shut, fifo_close f)
  end.

Fixpoint run {S} (step : queue_call -> S -> reply * S) (cs : list queue_call) (s : S)
  : list reply * S :=
  match cs with
  | [] => ([], s)
  | c :: cs =>
      let '(r, s) := step c s in
      let '(rs, s) := run step cs s in
      (r :: rs, s)
  end.

Lemma step_implements c q f : implements q f ->
  fst (queue_step c q) = fst (fifo_step c f) /\
  implements (snd (queue_step c q)) (snd (fifo_step c f)).
Proof.
  intros Hi. destruct c as [fd abort lock_ok clock_ok wait_ok|lock_ok wait_ok|]; unfold queue_step, fifo_step.
  - pose proof (push_implements q f fd abort lock_ok clock_ok wait_ok Hi) as H.
    destruct (connection_queue_push _ _ _ _ _ _), (fifo_push _ _ _ _ _) as [[]|]; try done.
    by destruct H as [-> H].
  - pose proof (pop_implements q f lock_ok wait_ok Hi) as H.
    destruct (connection_queue_pop _ _ _) as [[]|], (fifo_pop _ _ _) as [[[] ]|]; try done.
    by destruct H as (-> & -> & H).
  - split; [done|]. by apply shutdown_implements.
Qed.

Lemma run_implements cs : forall q f, implements q f ->
  fst (run queue_step cs q) = fst (run fifo_step cs f) /\
  implements (snd (run queue_step cs q)) (snd (run fifo_step cs f)).
Proof.
  induction cs as [|c cs IH]; intros q f Hi; [done|]. simpl.
  destruct (step_implements c q f Hi) as [Hr Hi'].
  destruct (queue_step c q) as [r q'], (fifo_step c f) as [r' f']. simpl in *. subst r'.
  destruct (IH q' f' Hi') as [Hrs Hi2].
  destruct (run queue_step cs q'), (run fifo_step cs f'). simpl in *. by subst.
Qed.

(** C12. Refinement.  Any sequence of calls, by any threads, gets from the ring buffer
    the replies that a bounded FIFO gives: descriptors come out in the order they
    went in, nothing is lost or duplicated, a full queue makes [push] wait or
    give up without taking the descriptor, and after shutdown the rest is still
    handed out before [pop] reports the end. *)
Theorem queue_refines_fifo cs q f : implements q f ->
  fst (run queue_step cs q) = fst (run fifo_step cs f) /\
  implements (snd (run queue_step cs q)) (snd (run fifo_step cs f)).
Proof. apply run_implements. Qed.

(** ** Allocation and destruction *)

Lemma init_wp m ne nf capacity p :
  wp (connection_queue_init m ne nf capacity) (fun '(ok, q) p' => heap_only p p' /\
    if ok then implements q (Fifo capacity [] false) /\ is_Some (q_block q) /\
      p_live p' = p_live p ⊎ blk (q_block q)
    else p_live p' = p_live p) p.
Proof.
  unfold connection_queue_init. destruct (Nat.eqb_spec capacity 0); [by apply wp_ret|].
  apply wp_bind. eapply wp_mono; [apply wp_malloc|]. intros [b|] p1 (Hho & Hl & _); simpl in Hl.
  2: { apply wp_ret. split; [done|multiset_solver]. }
  assert (Hfree : forall q', wp (q ← connection_queue_destroy
      {| q_block := Some b; q_items := q_items q'; q_capacity := q_capacity q'; q_head := q_head q';
         q_tail := q_tail q'; q_count := 0; q_shutting_down := q_shutting_down q';
         q_mutex_initialized := q_mutex_initialized q';
         q_not_empty_initialized := q_not_empty_initialized q';
         q_not_full_initialized := q_not_full_initialized q' |}; mret (false, q))
    (fun '(ok, q) p' => heap_only p p' /\
      if ok then implements q (Fifo capacity [] false) /\ is_Some (q_block q) /\
        p_live p' = p_live p ⊎ blk (q_block q)
      else p_live p' = p_live p) p1).
  { intros q'. apply wp_bind. unfold connection_queue_destroy. simpl.
    apply wp_bind, wp_ret, wp_bind. eapply wp_mono; [apply (wp_free (Some b)); simpl; multiset_solver|].
    intros _ p2 [Hho2 Hl2]. apply wp_ret, wp_ret. split; [by etrans|simpl in *; multiset_solver]. }
  set (q0 := {| q_block := Some b; q_items := _ |}).
  destruct m; simpl negb; cbv iota.
  2: { apply wp_bind. eapply wp_mono; [apply (wp_free (Some b)); simpl; multiset_solver|].
       intros _ p2 [Hho2 Hl2]. apply wp_ret. split; [by etrans|simpl in *; multiset_solver]. }
  destruct ne; simpl negb; cbv iota; [|exact (Hfree (set_sync true false false q0))].
  destruct nf; simpl negb; cbv iota; [|exact (Hfree (set_sync true true false q0))].
  apply wp_ret. split; [done|]. split; [|split; [simpl; eauto|simpl; multiset_solver]].
  split_and!; try done.
  split; simpl; rewrite ?length_replicate, ?Nat.Div0.mod_0_l; (done || lia).
Qed.

(** The entries from [i] on are still in place. *)
Lemma close_entries_wp : forall l i q p,
  (0 < q_capacity q)%nat -> (q_head q < q_capacity q)%nat -> (i + length l <= q_capacity q)%nat ->
  (forall j fd, l !! j = Some fd ->
     q_items q !! ((q_head q + (i + j)) mod q_capacity q)%nat = Some (Some fd)) ->
  list_to_set_disj l ⊆ p_fds p ->
  wp (close_entries (length l) i q) (fun _ p' => advances p p' /\ p_live p' = p_live p /\
    p_fds p = p_fds p' ⊎ list_to_set_disj l) p.
Proof.
  induction l as [|fd l IH]; intros i q p Hc Hh Hl He Hin; simpl.
  { apply wp_ret. split_and!; [reflexivity|done|multiset_solver]. }
  pose proof (He 0%nat fd eq_refl) as H0. rewrite Nat.add_0_r in H0. rewrite H0.
  simpl in Hl, Hin. apply wp_bind. eapply wp_mono; [apply wp_close; multiset_solver|].
  intros _ p1 (Ha1 & Hl1 & Hf1). eapply wp_mono; [apply IH; simpl; auto; [lia| |multiset_solver]|].
  - intros j x Hx. pose proof (lookup_lt_Some _ _ _ Hx). rewrite list_lookup_insert_ne.
    + replace (S (i + j))%nat with (i + S j)%nat by lia. by apply He.
    + wrap; lia.
  - intros _ p2 (Ha2 & Hl2 & Hf2). split_and!; [by etrans|congruence|multiset_solver].
Qed.

Lemma destroy_wp q l p : ring q l -> is_Some (q_block q) ->
  blk (q_block q) ⊆ p_live p -> list_to_set_disj l ⊆ p_fds p ->
  wp (connection_queue_destroy q) (fun q' p' => q' = zero_queue /\ advances p p' /\
    p_live p = p_live p' ⊎ blk (q_block q) /\ p_fds p = p_fds p' ⊎ list_to_set_disj l) p.
Proof.
  intros [Hc Hi Hh Hn Hb Ht He] [b Hb'] Hin Hfd. unfold connection_queue_destroy. rewrite Hb', Hn.
  apply wp_bind. apply wp_mono with (Q := fun _ p1 => advances p p1 /\ p_live p1 = p_live p /\
    p_fds p = p_fds p1 ⊎ list_to_set_disj l).
  { destruct (Nat.ltb_spec 0 (length l)) as [Hpos|Hz].
    - apply close_entries_wp; auto.
    - apply wp_ret. destruct l; [|simpl in Hz; lia]. split_and!; [reflexivity|done|]. simpl. multiset_solver. }
  intros _ p1 (Ha1 & Hl1 & Hf1). rewrite Hb' in Hin. apply wp_bind.
  eapply wp_mono; [apply (wp_free (Some b)); by rewrite Hl1|]. intros _ p2 [Hho2 Hl2].
  apply wp_ret. split_and!; [done|by etrans; [|apply heap_only_advances]|by rewrite <- Hl1|].
  by rewrite (ho_fds _ _ Hho2).
Qed.

Lemma run_block cs : forall q, q_block (snd (run queue_step cs q)) = q_block q.
Proof.
  induction cs as [|c cs IH]; intros q; [done|]. simpl.
  destruct (queue_step c q) as [r q'] eqn:E. specialize (IH q').
  destruct (run queue_step cs q') as [rs q2]. simpl in *. rewrite IH. clear IH.
  destruct c as [fd abort lock_ok clock_ok wait_ok|lock_ok wait_ok|]; simpl in E;
    unfold connection_queue_pop, connection_queue_shutdown in E; repeat case_match; by simplify_eq/=.
Qed.

(** A queue from creation to destruction. *)
Definition queue_session (m ne nf : bool) (capacity : nat) (cs : list queue_call)
  : M proc (bool * connection_queue_t) :=
  '(ok, q) ← connection_queue_init m ne nf capacity;
  if (ok : bool) then
    q ← connection_queue_destroy (snd (run queue_step cs q));
    mret (true, q)
  else mret (false, q).

(** What a bounded FIFO still holds after the calls. *)
Definition leftover (capacity : nat) (cs : list queue_call) : list nat :=
  ff_list (snd (run fifo_step cs (Fifo capacity [] false))).

(** Destruction closes exactly the descriptors still queued, each once, and frees
    the ring; every failing path of the initializer frees what it allocated. *)
Theorem queue_session_exact m ne nf capacity cs p :
  list_to_set_disj (leftover capacity cs) ⊆ p_fds p ->
  wp (queue_session m ne nf capacity cs) (fun '(ok, _) p' =>
    p_live p' = p_live p /\
    p_fds p = p_fds p' ⊎ (if ok then list_to_set_disj (leftover capacity cs) else ∅)) p.
Proof.
  intros Hfd. unfold queue_session. apply wp_bind. eapply wp_mono; [apply init_wp|].
  intros [[] q] p1 [Hho H].
  - destruct H as (Hi & Hsome & Hl). pose proof (proj2 (run_implements cs _ _ Hi)) as Hi'.
    apply wp_bind. eapply wp_mono; [apply (destroy_wp _ (leftover capacity cs))|].
    + apply Hi'.
    + by rewrite run_block.
    + rewrite run_block. multiset_solver.
    + by rewrite (ho_fds _ _ Hho).
    + intros q' p2 (-> & Ha & Hl2 & Hf2). apply wp_ret. rewrite run_block in Hl2.
      rewrite (ho_fds _ _ Hho) in Hf2. split; [multiset_solver|done].
  - apply wp_ret. split; [done|]. rewrite (ho_fds _ _ Hho). multiset_solver.
Qed.

(** ** Examples *)

Definition sample_queue : connection_queue_t :=
  {| q_block := Some 0%nat; q_items := [Some 7%nat; Some 5%nat]; q_capacity := 2; q_head := 1;
     q_tail := 1; q_count := 2; q_shutting_down := false; q_mutex_initialized := true;
     q_not_empty_initialized := true; q_not_full_initialized := true |}.

Definition sample_calls : list queue_call :=
  [CallPush 9 false true true true; CallPop true true; CallPush 9 false true true true; CallShutdown; CallPop true true;
   CallPush 4 false true true true; CallPop true true; CallPop true true].

Lemma queue_refines_fifo_witness :
  fst (run queue_step sample_calls sample_queue) =
    fst (run fifo_step sample_calls (Fifo 2 [5%nat; 7%nat] false)) /\
  implements (snd (run queue_step sample_calls sample_queue))
    (snd (run fifo_step sample_calls (Fifo 2 [5%nat; 7%nat] false))).
Proof.
  apply queue_refines_fifo. split_and!; try reflexivity.
  split; try reflexivity; [vm_compute; lia..|].
  intros [|[|i]] fd H; simplify_eq/=; vm_compute; reflexivity.
Defined.

(** The replies of that run: the queue is full, then drains in order. *)
Example sample_replies :
  fst (run queue_step sample_calls sample_queue) =
  [Waits; Popped CONNECTION_QUEUE_OK (Some 5%nat); Pushed CONNECTION_QUEUE_OK; Shut;
   Popped CONNECTION_QUEUE_OK (Some 7%nat); Pushed CONNECTION_QUEUE_SHUTDOWN;
   Popped CONNECTION_QUEUE_OK (Some 9%nat); Popped CONNECTION_QUEUE_SHUTDOWN None].
Proof. vm_compute. reflexivity. Qed.

Lemma queue_session_exact_witness :
  wp (queue_session true true true 2 [CallPush 3 false true true true; CallPush 8 false true true true; CallPop true true])
    (fun '(ok, _) p' => p_live p' = ∅ /\
      {[+ 3%nat +]} ⊎ {[+ 8%nat +]} = p_fds p' ⊎ (if ok then {[+ 8%nat +]} else ∅))
    {| p_malloc_ok := fun _ => true; p_next := 0; p_live := ∅; p_next_fd := 9;
       p_fds := {[+ 3%nat +]} ⊎ {[+ 8%nat +]} |}.
Proof.
  pose proof (queue_session_exact true true true 2
    [CallPush 3 false true true true; CallPush 8 false true true true; CallPop true true]
    {| p_malloc_ok := fun _ => true; p_next := 0; p_live := ∅; p_next_fd := 9;
       p_fds := {[+ 3%nat +]} ⊎ {[+ 8%nat +]} |}) as H.
  eapply wp_mono; [apply H; simpl; multiset_solver|].
  intros [ok q] p' [Hl Hf]. split; [done|]. simpl in Hf. destruct ok; multiset_solver.
Defined.
