(* ===== verification/QueueThreads.v ===== *)
(** * Threads on the connection queue: the locking of connection_queue.c

    Any number of threads run push, pop and shutdown concurrently, at the
    granularity of the pthread calls: taking the mutex, going to sleep on a
    condition variable, signalling, broadcasting, unlocking.  A signal wakes one
    sleeper of the scheduler's choice; sleepers may also wake on their own
    (spurious wake-ups, the 100 ms time-out of push).  What a thread does to the
    queue under the mutex is one step here, an evaluation of ConnectionQueue.v;
    QueueAccess.v takes it apart into memory accesses and shows that the mutex
    makes it one.  The lemmas of this file are about histories: each call is
    decided once, with an answer that it then returns. *)
From S2P Require Import Prelude CLib Proc ConnectionQueue.

(** ** Threads *)

(** The calls; push with a descriptor, the rest of its guards is sequential. *)
Inductive op :=
| OpPush (fd : nat)
| OpPop
| OpShutdown.

(** The condition variables. *)
Inductive cond := NotEmpty | NotFull.

Definition cond_eqb (c c' : cond) : bool :=
  match c, c' with NotEmpty, NotEmpty | NotFull, NotFull => true | _, _ => false end.

(** Where a thread is.  From [Testing] on it holds the mutex, until it sleeps or
    has unlocked. *)
Inductive thread_pc :=
| Idle
| Locking (o : op)
| Testing (o : op)
| Asleep (o : op)
| Woken (o : op)
| Signalling (c : cond) (r : reply)
| Broadcasting (c : cond)
| Unlocking (r : reply)
| Returning (r : reply).

(** [t_abort] is the flag push polls, set by a signal handler. *)
Record threads := Threads {
  t_queue : connection_queue_t;
  t_owner : option nat;
  t_abort : bool;
  t_pcs : list thread_pc;
}.

Definition set_pc (i : nat) (pc : thread_pc) (s : threads) : threads :=
  Threads (t_queue s) (t_owner s) (t_abort s) (<[i := pc]> (t_pcs s)).

Definition set_owner (o : option nat) (s : threads) : threads :=
  Threads (t_queue s) o (t_abort s) (t_pcs s).

Definition with_queue (q : connection_queue_t) (s : threads) : threads :=
  Threads q (t_owner s) (t_abort s) (t_pcs s).

(** The variable a call sleeps on. *)
Definition sleeps_on (c : cond) (o : op) : bool :=
  match c, o with NotFull, OpPush _ | NotEmpty, OpPop => true | _, _ => false end.

Definition asleep_on (c : cond) (pc : thread_pc) : bool :=
  match pc with Asleep o => sleeps_on c o | _ => false end.

Definition wake (pc : thread_pc) : thread_pc :=
  match pc with Asleep o => Woken o | pc => pc end.

Definition cond_initialized (c : cond) (q : connection_queue_t) : bool :=
  match c with NotEmpty => q_not_empty_initialized q | NotFull => q_not_full_initialized q end.

(** ** Steps *)

(** What the scheduler chooses: who moves, and the results of the system calls. *)
Inductive action :=
| Call (i : nat) (o : op)
| Lock (i : nat) (ok : bool)
| Relock (i : nat)
| Evaluate (i : nat) (clock_ok wait_ok : bool)
| Signal (i : nat) (target : option nat)
| Broadcast (i : nat)
| Unlock (i : nat)
| Leave (i : nat)
| WakeUp (i : nat)
| SetAbort.

Inductive event :=
| EvCall (i : nat) (o : op)
| EvCommit (i : nat) (c : queue_call) (r : reply)
| EvReturn (i : nat) (r : reply).

(** A call as evaluated under the lock, or when the lock cannot be taken. *)
Definition queue_call_of (o : op) (abort lock_ok clock_ok wait_ok : bool) : queue_call :=
  match o with
  | OpPush fd => CallPush fd abort lock_ok clock_ok wait_ok
  | OpPop => CallPop lock_ok wait_ok
  | OpShutdown => CallShutdown
  end.

(** What follows the evaluation under the lock. *)
Definition after (r : reply) : thread_pc :=
  match r with
  | Pushed CONNECTION_QUEUE_OK => Signalling NotEmpty r
  | Popped CONNECTION_QUEUE_OK _ => Signalling NotFull r
  | Shut => Broadcasting NotEmpty
  | r => Unlocking r
  end.

(** The loop test and what it leads to: the wait releases the mutex and sleeps
    in one step. *)
Definition evaluate (i : nat) (o : op) (clock_ok wait_ok : bool) (s : threads)
  : threads * list event :=
  let c := queue_call_of o (t_abort s) true clock_ok wait_ok in
  match queue_step c (t_queue s) with
  | (Waits, _) => (set_owner None (set_pc i (Asleep o) s), [])
  | (r, q) => (set_pc i (after r) (with_queue q s), [EvCommit i c r])
  end.

(** [pthread_cond_signal]: one sleeper of [c], when there is one. *)
Definition cond_signal (c : cond) (target : option nat) (s : threads) : option threads :=
  match target with
  | Some j =>
      match t_pcs s !! j with
      | Some pc => if asleep_on c pc then Some (set_pc j (wake pc) s) else None
      | None => None
      end
  | None => if existsb (asleep_on c) (t_pcs s) then None else Some s
  end.

Definition wake_on (c : cond) (pc : thread_pc) : thread_pc :=
  if asleep_on c pc then wake pc else pc.

(** [pthread_cond_broadcast], called when the variable is initialized. *)
Definition cond_broadcast (c : cond) (s : threads) : threads :=
  if cond_initialized c (t_queue s)
  then Threads (t_queue s) (t_owner s) (t_abort s) (wake_on c <$> t_pcs s)
  else s.

(** The mutex is taken when nobody has it.  A failing lock makes push and pop
    return an error; shutdown does not look at the result and is given the lock. *)
Definition lock (i : nat) (pc : thread_pc) (s : threads) : option threads :=
  match t_owner s with
  | None => Some (set_owner (Some i) (set_pc i pc s))
  | Some _ => None
  end.

Definition act (a : action) (s : threads) : option (threads * list event) :=
  match a with
  | Call i o =>
      match t_pcs s !! i with
      | Some Idle => Some (set_pc i (Locking o) s, [EvCall i o])
      | _ => None
      end
  | Lock i true =>
      match t_pcs s !! i with
      | Some (Locking o) => (fun s => (s, [])) <$> lock i (Testing o) s
      | _ => None
      end
  | Lock i false =>
      match t_pcs s !! i with
      | Some (Locking OpShutdown) => None
      | Some (Locking o) =>
          let c := queue_call_of o (t_abort s) false true true in
          let r := fst (queue_step c (t_queue s)) in
          Some (set_pc i (Returning r) s, [EvCommit i c r])
      | _ => None
      end
  | Relock i =>
      match t_pcs s !! i with
      | Some (Woken o) => (fun s => (s, [])) <$> lock i (Testing o) s
      | _ => None
      end
  | Evaluate i clock_ok wait_ok =>
      match t_pcs s !! i with
      | Some (Testing o) => Some (evaluate i o clock_ok wait_ok s)
      | _ => None
      end
  | Signal i target =>
      match t_pcs s !! i with
      | Some (Signalling c r) =>
          (fun s => (set_pc i (Unlocking r) s, [])) <$> cond_signal c target s
      | _ => None
      end
  | Broadcast i =>
      match t_pcs s !! i with
      | Some (Broadcasting NotEmpty) => Some (set_pc i (Broadcasting NotFull) (cond_broadcast NotEmpty s), [])
      | Some (Broadcasting NotFull) => Some (set_pc i (Unlocking Shut) (cond_broadcast NotFull s), [])
      | _ => None
      end
  | Unlock i =>
      match t_pcs s !! i with
      | Some (Unlocking r) => Some (set_owner None (set_pc i (Returning r) s), [])
      | _ => None
      end
  | Leave i =>
      match t_pcs s !! i with
      | Some (Returning r) => Some (set_pc i Idle s, [EvReturn i r])
      | _ => None
      end
  | WakeUp i =>
      match t_pcs s !! i with
      | Some (Asleep o) => Some (set_pc i (Woken o) s, [])
      | _ => None
      end
  | SetAbort => Some (Threads (t_queue s) (t_owner s) true (t_pcs s), [])
  end.

(** A schedule. *)
Fixpoint schedule (al : list action) (s : threads) : option (threads * list event) :=
  match al with
  | [] => Some (s, [])
  | a :: al =>
      '(s, ev) ← act a s;
      '(s, evs) ← schedule al s;
      Some (s, ev ++ evs)
  end.

(** Steps of calls in progress: no new call, no wake-up without a signal. *)
Definition progress (a : action) : bool :=
  match a with Call _ _ | WakeUp _ | SetAbort => false | _ => true end.

(** All threads outside, the queue as [connection_queue_init] leaves it or later. *)
Record at_rest (s : threads) (f : fifo) : Prop := {
  ar_queue : implements (t_queue s) f;
  ar_conds : forall c, cond_initialized c (t_queue s) = true;
  ar_owner : t_owner s = None;
  ar_pcs : Forall (eq Idle) (t_pcs s);
}.

(** ** Histories *)

(** A call of a thread, seen from outside. *)
Inductive phase :=
| Outside
| Called (o : op)
| Done (r : reply).

Definition phase_of (pc : thread_pc) : phase :=
  match pc with
  | Idle => Outside
  | Locking o | Testing o | Asleep o | Woken o => Called o
  | Signalling _ r | Unlocking r | Returning r => Done r
  | Broadcasting _ => Done Shut
  end.

Definition event_thread (e : event) : nat :=
  match e with EvCall i _ | EvCommit i _ _ | EvReturn i _ => i end.

(** The events of thread [i]: calls, each committed once with an answer that it
    then returns. *)
Inductive history (i : nat) : phase -> list event -> phase -> Prop :=
| history_nil ph : history i ph [] ph
| history_other ph e evs ph' : event_thread e <> i -> history i ph evs ph' ->
    history i ph (e :: evs) ph'
| history_call o evs ph' : history i (Called o) evs ph' -> history i Outside (EvCall i o :: evs) ph'
| history_commit o a k c w r evs ph' : r <> Waits -> history i (Done r) evs ph' ->
    history i (Called o) (EvCommit i (queue_call_of o a k c w) r :: evs) ph'
| history_return r evs ph' : history i Outside evs ph' ->
    history i (Done r) (EvReturn i r :: evs) ph'.

Definition committed (evs : list event) : list queue_call :=
  omap (fun e => match e with EvCommit _ c _ => Some c | _ => None end) evs.

Definition answers (evs : list event) : list reply :=
  omap (fun e => match e with EvCommit _ _ r => Some r | _ => None end) evs.

Definition pc_of (i : nat) (s : threads) : thread_pc := default Idle (t_pcs s !! i).

Lemma history_app i ph evs ph' evs' ph'' : history i ph evs ph' -> history i ph' evs' ph'' ->
  history i ph (evs ++ evs') ph''.
Proof. intros H1 H2. induction H1; simpl; eauto using history. Qed.

Lemma run_app {S} (step : queue_call -> S -> reply * S) cs cs' s :
  run step (cs ++ cs') s =
    (fst (run step cs s) ++ fst (run step cs' (snd (run step cs s))),
     snd (run step cs' (snd (run step cs s)))).
Proof.
  revert s. induction cs as [|c cs IH]; intros s; simpl; [by destruct (run _ _ _)|].
  destruct (step c s) as [r s']. rewrite IH. by destruct (run step cs s').
Qed.

Lemma asleep_on_inv c pc : asleep_on c pc = true -> exists o, pc = Asleep o /\ sleeps_on c o = true.
Proof. destruct pc; simpl; try done. eauto. Qed.

Lemma cond_signal_inv c target s s' : cond_signal c target s = Some s' ->
  s' = s /\ target = None /\ existsb (asleep_on c) (t_pcs s) = false \/
  exists j o, target = Some j /\ t_pcs s !! j = Some (Asleep o) /\ sleeps_on c o = true /\
    s' = set_pc j (Woken o) s.
Proof.
  unfold cond_signal. destruct target as [j|].
  - destruct (t_pcs s !! j) as [pc|] eqn:Ej; [|done]. destruct (asleep_on c pc) eqn:E; [|done].
    apply asleep_on_inv in E as (o & -> & ?). intros [= <-]. right. by exists j, o.
  - destruct (existsb _ _); [done|]. intros [= <-]. by left.
Qed.

Lemma lock_inv i pc s s' : lock i pc s = Some s' ->
  t_owner s = None /\ s' = set_owner (Some i) (set_pc i pc s).
Proof. unfold lock. case_match; intros; by simplify_eq. Qed.

(** Case analysis on an action that was taken. *)
Ltac act_cases H :=
  match type of H with act ?a _ = _ => destruct a end; cbn [act] in H;
  repeat match type of H with
  | match ?x with _ => _ end = Some _ => let E := fresh "Epc" in destruct x eqn:E; try discriminate H
  | ?f <$> ?x = Some _ => let E := fresh "E" in destruct x eqn:E; cbn [fmap option_fmap option_map] in H; try discriminate H
  end; simplify_eq;
  try match goal with E : lock _ _ _ = Some _ |- _ => apply lock_inv in E as [? ->] end.

Lemma pc_of_set_eq i pc s x : t_pcs s !! i = Some x -> pc_of i (set_pc i pc s) = pc.
Proof. intros H%lookup_lt_Some. unfold pc_of. simpl. by rewrite list_lookup_insert_eq. Qed.

Lemma pc_of_set_ne i j pc s : i <> j -> pc_of j (set_pc i pc s) = pc_of j s.
Proof. intros H. unfold pc_of. simpl. by rewrite list_lookup_insert_ne. Qed.

Lemma pc_of_lookup i s x : t_pcs s !! i = Some x -> pc_of i s = x.
Proof. intros H. unfold pc_of. by rewrite H. Qed.

Lemma phase_wake c pc : phase_of (wake_on c pc) = phase_of pc.
Proof. unfold wake_on. destruct pc; simpl; try done. by case_match. Qed.

Lemma phase_broadcast c s i : phase_of (pc_of i (cond_broadcast c s)) = phase_of (pc_of i s).
Proof.
  unfold cond_broadcast. case_match; [|done]. unfold pc_of. simpl. rewrite list_lookup_fmap.
  destruct (t_pcs s !! i); simpl; [apply phase_wake|done].
Qed.

(** A thread that moves by events of its own; the others keep their phase. *)
Lemma history_set i pc pc' s s1 evs : t_pcs s !! i = Some pc ->
  (forall j, phase_of (pc_of j s1) = phase_of (pc_of j s)) -> length (t_pcs s1) = length (t_pcs s) ->
  Forall (fun e => event_thread e = i) evs ->
  history i (phase_of pc) evs (phase_of pc') ->
  forall j, history j (phase_of (pc_of j s)) evs (phase_of (pc_of j (set_pc i pc' s1))).
Proof.
  intros Hpc Hs Hl Hevs Hh j. destruct (decide (i = j)) as [<-|Hne].
  - pose proof (lookup_lt_Some _ _ _ Hpc) as Hlt. rewrite <- Hl in Hlt.
    apply lookup_lt_is_Some in Hlt as [x Hx]. by rewrite (pc_of_set_eq _ _ _ _ Hx), (pc_of_lookup _ _ _ Hpc).
  - rewrite pc_of_set_ne, Hs by done. clear Hh.
    induction Hevs as [|e evs He _ IH]; [constructor|]. apply history_other; [congruence|done].
Qed.

Lemma cond_signal_phases c target s s' : cond_signal c target s = Some s' ->
  (forall j, phase_of (pc_of j s') = phase_of (pc_of j s)) /\ length (t_pcs s') = length (t_pcs s) /\
  t_queue s' = t_queue s /\ t_owner s' = t_owner s /\ t_abort s' = t_abort s.
Proof.
  intros [(-> & _)|(j & o & -> & Hj & _ & ->)]%cond_signal_inv; [done|]. simpl.
  rewrite length_insert. split_and!; try done. intros i. destruct (decide (j = i)) as [<-|Hne].
  - by rewrite (pc_of_set_eq _ _ _ _ Hj), (pc_of_lookup _ _ _ Hj).
  - by rewrite pc_of_set_ne.
Qed.

Lemma cond_broadcast_same c s : length (t_pcs (cond_broadcast c s)) = length (t_pcs s) /\
  t_queue (cond_broadcast c s) = t_queue s /\ t_owner (cond_broadcast c s) = t_owner s.
Proof. unfold cond_broadcast. case_match; simpl; by rewrite ?length_fmap. Qed.

Lemma phase_after r : r <> Waits -> phase_of (after r) = Done r.
Proof. destruct r as [[]|[]| |]; done. Qed.

(** An evaluation that ends is the step of the sequential queue. *)
Lemma evaluate_inv i o ck wt s s' evs : evaluate i o ck wt s = (s', evs) ->
  let c := queue_call_of o (t_abort s) true ck wt in
  (fst (queue_step c (t_queue s)) = Waits /\ s' = set_owner None (set_pc i (Asleep o) s) /\ evs = []) \/
  (exists r q, queue_step c (t_queue s) = (r, q) /\ r <> Waits /\
    s' = set_pc i (after r) (with_queue q s) /\ evs = [EvCommit i c r]).
Proof.
  unfold evaluate. intros H. destruct (queue_step _ _) as [r q] eqn:E.
  destruct r; simplify_eq; [right; eauto 10..|by left].
Qed.

Lemma broken_step o a k w q : fst (queue_step (queue_call_of o a false k w) q) <> Waits.
Proof. by destruct o. Qed.

Lemma broken_queue o a k w q : o <> OpShutdown -> snd (queue_step (queue_call_of o a false k w) q) = q.
Proof. by destruct o. Qed.

Lemma act_history a s s' evs : act a s = Some (s', evs) ->
  forall j, history j (phase_of (pc_of j s)) evs (phase_of (pc_of j s')).
Proof.
  intros H. act_cases H.
  all: try (eapply (history_set _ _ _ s); [done..| |]; repeat constructor; fail).
  all: try (match goal with |- context [set_owner _ ?x] =>
      change (forall j, history j (phase_of (pc_of j s)) [] (phase_of (pc_of j x))) end;
      eapply (history_set _ _ _ s); [done..| |]; repeat constructor; fail).
  - eapply (history_set _ _ _ s); [done..|by repeat constructor|]. by apply (history_commit i _ _ _ _ _), history_nil.
  - eapply (history_set _ _ _ s); [done..|by repeat constructor|]. by apply (history_commit i _ _ _ _ _), history_nil.
  - destruct (evaluate_inv _ _ _ _ _ _ _ H) as [(_ & -> & ->)|(r & q & _ & Hr & -> & ->)].
    + change (forall j, history j (phase_of (pc_of j s)) [] (phase_of (pc_of j (set_pc i (Asleep o) s)))).
      eapply (history_set _ _ _ s); [done..| |]; constructor.
    + eapply (history_set _ _ _ s); [done..|by repeat constructor|].
      rewrite phase_after by done. by apply (history_commit i _ _ _ _ _), history_nil.
  - destruct (cond_signal_phases _ _ _ _ E) as (Hp & Hl & _).
    eapply (history_set _ _ _ s); [done..| |]; constructor.
  - eapply (history_set _ _ _ s); [done|intros; apply phase_broadcast|apply cond_broadcast_same|constructor..].
  - eapply (history_set _ _ _ s); [done|intros; apply phase_broadcast|apply cond_broadcast_same|constructor..].
  - intros j. constructor.
Qed.

Lemma act_run a s s' evs : act a s = Some (s', evs) ->
  run queue_step (committed evs) (t_queue s) = (answers evs, t_queue s').
Proof.
  intros H. act_cases H; try done.
  - destruct (evaluate_inv _ _ _ _ _ _ _ H) as [(_ & -> & ->)|(r & q & Hq & Hr & -> & ->)]; [done|].
    unfold committed, answers. cbn [omap list_omap run]. by rewrite Hq.
  - destruct (cond_signal_phases _ _ _ _ E) as (_ & _ & Hq & _). simpl. by rewrite Hq.
  - simpl. by destruct (cond_broadcast_same NotEmpty s) as (_ & -> & _).
  - simpl. by destruct (cond_broadcast_same NotFull s) as (_ & -> & _).
Qed.

Lemma schedule_history al : forall s s' evs, schedule al s = Some (s', evs) ->
  forall j, history j (phase_of (pc_of j s)) evs (phase_of (pc_of j s')).
Proof.
  induction al as [|a al IH]; intros s s' evs H j; simpl in H; [simplify_eq; constructor|].
  destruct (act a s) as [[s1 ev]|] eqn:Ea; [|done]. simpl in H.
  destruct (schedule al s1) as [[s2 evs']|] eqn:Es; [|done]. simplify_eq/=.
  eapply history_app; [by eapply act_history|by eapply IH].
Qed.

Lemma schedule_run al : forall s s' evs, schedule al s = Some (s', evs) ->
  run queue_step (committed evs) (t_queue s) = (answers evs, t_queue s').
Proof.
  induction al as [|a al IH]; intros s s' evs H; simpl in H; [by simplify_eq|].
  destruct (act a s) as [[s1 ev]|] eqn:Ea; [|done]. simpl in H.
  destruct (schedule al s1) as [[s2 evs']|] eqn:Es; [|done]. simplify_eq/=.
  unfold committed, answers. rewrite !omap_app, run_app. fold (committed ev) (committed evs').
  rewrite (act_run _ _ _ _ Ea). simpl. by rewrite (IH _ _ _ Es).
Qed.

Lemma phase_at_rest s f i : at_rest s f -> phase_of (pc_of i s) = Outside.
Proof.
  intros [_ _ _ Hp]. unfold pc_of. destruct (t_pcs s !! i) as [pc|] eqn:E; [|done].
  rewrite Forall_lookup in Hp. by rewrite <- (Hp _ _ E).
Qed.

(** ** Examples *)

(** Two consumers and a producer on an empty queue of one slot: both consumers sleep,
    a connection is pushed, the signal wakes the second one. *)
Definition empty_queue : connection_queue_t :=
  set_sync true true true
    {| q_block := Some 0%nat; q_items := [Some 0%nat]; q_capacity := 1; q_head := 0; q_tail := 0;
       q_count := 0; q_shutting_down := false; q_mutex_initialized := false;
       q_not_empty_initialized := false; q_not_full_initialized := false |}.

Definition sample_threads : threads := Threads empty_queue None false [Idle; Idle; Idle].

Definition sample_schedule : list action :=
  [Call 0 OpPop; Call 1 OpPop; Lock 0 true; Evaluate 0 true true; Lock 1 true; Evaluate 1 true true;
   Call 2 (OpPush 9); Lock 2 true; WakeUp 0; Evaluate 2 true true; Signal 2 (Some 1%nat); Unlock 2; Relock 0;
   Evaluate 0 true true; Signal 0 None; Unlock 0; Leave 0; Leave 2; Relock 1; Evaluate 1 true true].

Lemma sample_at_rest : at_rest sample_threads (Fifo 1 [] false).
Proof.
  split; [|by intros []|done|by repeat constructor]. split_and!; try done.
  split; simpl; try lia; done.
Qed.
