(* ===== verification/QueueWake.v ===== *)
(** * Wake-ups on the connection queue

    Invariants of the threads of QueueThreads.v: one owner of the mutex, and
    enough threads on their way for the connections (or free slots) that
    sleepers wait for.  From these: nobody sleeps without a reason, and the calls
    in progress come to rest within a bound. *)
From S2P Require Import Prelude CLib Proc ConnectionQueue QueueThreads.

(** ** Wake-ups *)

Definition total (w : thread_pc -> nat) (s : threads) : nat := sum_list_with w (t_pcs s).

Definition b2n (b : bool) : nat := if b then 1 else 0.

(** Sleepers on [c]. *)
Definition sleeper (c : cond) (pc : thread_pc) : nat :=
  match pc with Asleep o => b2n (sleeps_on c o) | _ => 0 end.

(** Threads that will look at the queue again for the sake of [c]: awake in the
    loop of a call that waits on [c], or about to signal [c]. *)
Definition coming (c : cond) (pc : thread_pc) : nat :=
  match pc with
  | Testing o | Woken o => b2n (sleeps_on c o)
  | Signalling c' _ => b2n (cond_eqb c' c)
  | _ => 0
  end.

(** Broadcasts of [c] still to be made. *)
Definition pending (c : cond) (pc : thread_pc) : nat :=
  match pc with
  | Broadcasting NotEmpty => 1
  | Broadcasting NotFull => b2n (cond_eqb c NotFull)
  | _ => 0
  end.

(** What the sleepers on [c] wait for: connections, or free slots. *)
Definition stock (c : cond) (q : connection_queue_t) : nat :=
  match c with NotEmpty => q_count q | NotFull => q_capacity q - q_count q end.

(** No wake-up is lost. *)
Definition wake_inv (s : threads) : Prop :=
  forall c, (0 < total (sleeper c) s)%nat ->
    if q_shutting_down (t_queue s) then (0 < total (pending c) s)%nat
    else (stock c (t_queue s) <= total (coming c) s)%nat.

(** The threads that have the mutex. *)
Definition holds (pc : thread_pc) : bool :=
  match pc with Testing _ | Signalling _ _ | Broadcasting _ | Unlocking _ => true | _ => false end.

Definition mutex_inv (s : threads) : Prop :=
  forall i, holds (pc_of i s) = true <-> t_owner s = Some i.

Record sync_inv (s : threads) : Prop := {
  si_queue : exists f, implements (t_queue s) f;
  si_conds : forall c, cond_initialized c (t_queue s) = true;
  si_mutex : mutex_inv s;
  si_wake : wake_inv s;
  si_sleepers : forall i, pc_of i s <> Asleep OpShutdown;
}.

Lemma sum_list_insert (w : thread_pc -> nat) l i x y : l !! i = Some x ->
  (sum_list_with w (<[i := y]> l) + w x = sum_list_with w l + w y)%nat.
Proof.
  revert i. induction l as [|z l IH]; intros [|i] H; simplify_eq/=; [lia|]. specialize (IH _ H). lia.
Qed.

Lemma total_set w s i x y : t_pcs s !! i = Some x ->
  (total w (set_pc i y s) + w x = total w s + w y)%nat.
Proof. apply sum_list_insert. Qed.

Lemma total_zero_lookup w s i pc : total w s = 0%nat -> t_pcs s !! i = Some pc -> w pc = 0%nat.
Proof.
  unfold total. revert i. induction (t_pcs s) as [|x l IH]; intros [|i] Ht Hi; simplify_eq/=; [lia|].
  eapply IH; [lia|done].
Qed.

(** What an evaluation under the lock does to the counters. *)
Lemma queue_step_effect o a ck wt q f r q' : implements q f ->
  queue_step (queue_call_of o a true ck wt) q = (r, q') ->
  q_capacity q' = q_capacity q /\
  match r with
  | Pushed CONNECTION_QUEUE_OK => sleeps_on NotFull o = true /\ q_shutting_down q = false /\
      q_shutting_down q' = false /\ (q_count q < q_capacity q)%nat /\ q_count q' = (q_count q + 1)%nat
  | Pushed _ => sleeps_on NotFull o = true /\ q' = q /\
      (q_shutting_down q = true \/ q_count q = q_capacity q)
  | Popped CONNECTION_QUEUE_OK _ => sleeps_on NotEmpty o = true /\
      q_shutting_down q' = q_shutting_down q /\ q_count q = (q_count q' + 1)%nat /\
      (q_count q <= q_capacity q)%nat
  | Popped _ _ => sleeps_on NotEmpty o = true /\ q' = q /\ q_count q = 0%nat
  | Shut => o = OpShutdown /\ q_shutting_down q' = true
  | Waits => q_shutting_down q = false /\ o <> OpShutdown /\
      forall c, sleeps_on c o = true -> stock c q = 0%nat
  end.
Proof.
  intros (Hr & _ & _ & Hm) H. pose proof Hr as [_ _ _ Hn Hb _ _]. rewrite <- Hn in Hb.
  destruct o as [fd| |]; simpl in H; unfold connection_queue_pop, connection_queue_shutdown in H.
  - destruct (q_shutting_down q) eqn:Es; rewrite ?andb_true_r, ?andb_false_r in H; [by simplify_eq; auto|].
    repeat case_match; simplify_eq; bool_simp; simpl; split_and!; auto; try lia.
    all: try (right; lia). all: intros []; simpl; intros; try done; lia.
  - destruct (q_shutting_down q) eqn:Es; rewrite ?andb_true_r, ?andb_false_r in H.
    all: repeat case_match; simplify_eq; bool_simp; simpl; split_and!; auto; try lia; try congruence.
    all: intros []; simpl; intros; try done; lia.
  - rewrite Hm in H. by simplify_eq/=.
Qed.

(** A thread that moves from [x] to [y]: the totals, seen as numbers. *)
Lemma wake_move s s' i x y : t_pcs s !! i = Some x -> t_pcs s' = <[i := y]> (t_pcs s) -> wake_inv s ->
  (forall c a k p, (0 < sleeper c x + a ->
       if q_shutting_down (t_queue s) then 0 < pending c x + p
       else stock c (t_queue s) <= coming c x + k)%nat ->
     (0 < sleeper c y + a ->
       if q_shutting_down (t_queue s') then 0 < pending c y + p
       else stock c (t_queue s') <= coming c y + k)%nat) -> wake_inv s'.
Proof.
  intros Hx Hp Hw Hstep c. specialize (Hw c). unfold total in *. rewrite Hp.
  assert (Hrest : forall w, exists n, sum_list_with w (t_pcs s) = (w x + n)%nat /\
    sum_list_with w (<[i := y]> (t_pcs s)) = (w y + n)%nat).
  { intros w. clear Hw Hstep Hp. revert i Hx. induction (t_pcs s) as [|z l IH]; intros [|i] Hx; simplify_eq/=.
    - by eexists.
    - destruct (IH _ Hx) as (n & -> & ->). exists (w z + n)%nat. lia. }
  destruct (Hrest (sleeper c)) as (a & Ha & ->), (Hrest (coming c)) as (k & Hk & ->),
    (Hrest (pending c)) as (p & Hpd & ->). rewrite Ha, Hk, Hpd in Hw. by apply Hstep.
Qed.

Lemma total_broadcast w c s : cond_initialized c (t_queue s) = true ->
  total w (cond_broadcast c s) = sum_list_with (fun pc => w (wake_on c pc)) (t_pcs s).
Proof.
  intros Hc. unfold total, cond_broadcast. rewrite Hc. simpl.
  induction (t_pcs s) as [|pc l IH]; csimpl; [done|]. by rewrite IH.
Qed.

Lemma sum_list_le (w w' : thread_pc -> nat) l : (forall pc, (w pc <= w' pc)%nat) ->
  (sum_list_with w l <= sum_list_with w' l)%nat.
Proof. intros H. induction l as [|pc l IH]; simpl; [done|]. specialize (H pc). lia. Qed.

Lemma sum_list_zero (w : thread_pc -> nat) l : (forall pc, w pc = 0%nat) -> sum_list_with w l = 0%nat.
Proof. intros H. induction l as [|pc l IH]; simpl; [done|]. by rewrite H. Qed.

(** After a broadcast nobody sleeps on the variable. *)
Lemma wake_broadcast c s : cond_initialized c (t_queue s) = true -> wake_inv s ->
  wake_inv (cond_broadcast c s) /\ total (sleeper c) (cond_broadcast c s) = 0%nat.
Proof.
  intros Hc Hw. assert (Hz : total (sleeper c) (cond_broadcast c s) = 0%nat).
  { rewrite total_broadcast by done. apply sum_list_zero. intros pc. unfold wake_on.
    destruct pc as [| | |o| | | | |]; try done. simpl. by destruct (sleeps_on c o) eqn:E; simpl; rewrite ?E. }
  split; [|done]. intros c' Hs. destruct (cond_broadcast_same c s) as (_ & -> & _). specialize (Hw c').
  rewrite total_broadcast in Hs |- * by done. unfold total in Hw.
  assert (Hmono : forall pc, (sleeper c' (wake_on c pc) <= sleeper c' pc)%nat /\
    (coming c' pc <= coming c' (wake_on c pc))%nat /\ (pending c' pc <= pending c' (wake_on c pc))%nat).
  { intros []; unfold wake_on; simpl; repeat case_match; simpl; lia. }
  pose proof (sum_list_le _ _ (t_pcs s) (fun pc => proj1 (Hmono pc))).
  pose proof (sum_list_le _ _ (t_pcs s) (fun pc => proj1 (proj2 (Hmono pc)))).
  pose proof (sum_list_le _ _ (t_pcs s) (fun pc => proj2 (proj2 (Hmono pc)))).
  rewrite total_broadcast by done. destruct (q_shutting_down _); lia.
Qed.

(** Moves that leave the queue: to be checked on numbers only. *)
Ltac numbers := intros [] a k p; simpl in *; repeat case_match; simpl in *; lia.

Lemma wake_evaluate i o ck wt s s' evs f : implements (t_queue s) f -> t_pcs s !! i = Some (Testing o) ->
  evaluate i o ck wt s = (s', evs) -> wake_inv s -> wake_inv s'.
Proof.
  intros Hi Hpc H Hw. destruct (evaluate_inv _ _ _ _ _ _ _ H) as [(Hq & -> & ->)|(r & q & Hq & Hr & -> & ->)].
  - destruct (queue_step _ _) as [r q] eqn:E. simpl in Hq. subst r.
    destruct (queue_step_effect _ _ _ _ _ _ _ _ Hi E) as (_ & Hs & Ho & Hst).
    eapply (wake_move s _ i (Testing o) (Asleep o)); [done..|]. intros c a k p Hb Ha. simpl. rewrite Hs in Hb |- *.
    simpl in *. destruct (sleeps_on c o) eqn:Ec; [rewrite (Hst c Ec)|]; simpl in *; lia.
  - destruct (queue_step_effect _ _ _ _ _ _ _ _ Hi Hq) as (Hc & He).
    eapply (wake_move s _ i (Testing o) (after r)); [done..|]. simpl.
    intros [] a k p; destruct o, r as [[]|[]| |]; simpl in He; destruct_and?; try done; simpl.
    all: simplify_eq; repeat match goal with H : q_shutting_down _ = _ |- _ => rewrite H end; try lia.
    all: destruct (q_shutting_down (t_queue s)); destruct_or?; try done; lia.
Qed.

Lemma wake_signal i c r target s s1 : t_pcs s !! i = Some (Signalling c r) ->
  cond_signal c target s = Some s1 -> wake_inv s -> wake_inv (set_pc i (Unlocking r) s1).
Proof.
  intros Hpc Hs Hw. apply cond_signal_inv in Hs as [(-> & -> & Hz)|(j & o & -> & Hj & Ho & ->)].
  - intros c'. specialize (Hw c'). pose proof (total_set (sleeper c') s i _ (Unlocking r) Hpc) as H1.
    pose proof (total_set (coming c') s i _ (Unlocking r) Hpc) as H2.
    pose proof (total_set (pending c') s i _ (Unlocking r) Hpc) as H3. simpl in *.
    destruct (cond_eqb c c') eqn:Ec; simpl in *; [|destruct (q_shutting_down _); lia].
    assert (c' = c) as -> by (by destruct c, c'). intros Hs.
    assert (total (sleeper c) s = 0%nat); [|lia]. unfold total. clear -Hz.
    induction (t_pcs s) as [|pc l IH]; simpl in *; [done|]. apply orb_false_elim in Hz as [Hp Hl].
    rewrite IH by done. destruct pc; simpl in *; try done. by rewrite Hp.
  - assert (Hne : i <> j) by congruence. assert (Hpc1 : t_pcs (set_pc j (Woken o) s) !! i = Some (Signalling c r)).
    { simpl. by rewrite list_lookup_insert_ne. }
    intros c'. specialize (Hw c'). pose proof (total_set (sleeper c') _ i _ (Unlocking r) Hpc1) as H1.
    pose proof (total_set (coming c') _ i _ (Unlocking r) Hpc1) as H2.
    pose proof (total_set (pending c') _ i _ (Unlocking r) Hpc1) as H3.
    pose proof (total_set (sleeper c') _ j _ (Woken o) Hj) as H4.
    pose proof (total_set (coming c') _ j _ (Woken o) Hj) as H5.
    pose proof (total_set (pending c') _ j _ (Woken o) Hj) as H6.
    simpl in *. destruct c, c', o; simpl in *; try done;
      destruct (q_shutting_down _); lia.
Qed.

Lemma broadcast_lookup i c c' s : t_pcs s !! i = Some (Broadcasting c) ->
  t_pcs (cond_broadcast c' s) !! i = Some (Broadcasting c).
Proof. intros H. unfold cond_broadcast. case_match; simpl; [by rewrite list_lookup_fmap, H|done]. Qed.

Definition after_broadcast (c : cond) : thread_pc :=
  match c with NotEmpty => Broadcasting NotFull | NotFull => Unlocking Shut end.

Lemma wake_after_broadcast i c s : t_pcs s !! i = Some (Broadcasting c) ->
  cond_initialized c (t_queue s) = true -> wake_inv s ->
  wake_inv (set_pc i (after_broadcast c) (cond_broadcast c s)).
Proof.
  intros Hpc Hc Hw. destruct (wake_broadcast c s Hc Hw) as [Hw' Hz].
  apply (broadcast_lookup _ _ c) in Hpc. intros c'. specialize (Hw' c').
  pose proof (total_set (sleeper c') _ i _ (after_broadcast c) Hpc) as H1.
  pose proof (total_set (coming c') _ i _ (after_broadcast c) Hpc) as H2.
  pose proof (total_set (pending c') _ i _ (after_broadcast c) Hpc) as H3.
  destruct c, c'; simpl in *; destruct (q_shutting_down _); lia.
Qed.

Lemma wake_act a s s' evs f : implements (t_queue s) f -> (forall c, cond_initialized c (t_queue s) = true) ->
  act a s = Some (s', evs) -> wake_inv s -> wake_inv s'.
Proof.
  intros Hi Hc H Hw. act_cases H.
  all: try (eapply (wake_move s); [done..|]; numbers).
  - by eapply wake_evaluate.
  - by eapply wake_signal.
  - by apply (wake_after_broadcast i NotEmpty).
  - by apply (wake_after_broadcast i NotFull).
  - exact Hw.
Qed.

Lemma queue_step_conds c q cv :
  cond_initialized cv (snd (queue_step c q)) = cond_initialized cv q.
Proof.
  destruct c as [fd a k ck wt|k wt|]; simpl; unfold connection_queue_pop, connection_queue_shutdown.
  all: repeat case_match; simplify_eq; by destruct cv.
Qed.

(** A thread that moves, and takes, keeps or gives up the mutex. *)
Lemma mutex_move s s' i x y : t_pcs s !! i = Some x -> t_pcs s' = <[i := y]> (t_pcs s) ->
  (t_owner s' = (if holds y then Some i else if holds x then None else t_owner s)) ->
  (holds y = true -> holds x = true \/ t_owner s = None) -> mutex_inv s -> mutex_inv s'.
Proof.
  intros Hx Hp Ho Hy Hm j. unfold pc_of. rewrite Hp, Ho. pose proof (Hm j) as Hj. pose proof (Hm i) as Hi.
  rewrite (pc_of_lookup _ _ _ Hx) in Hi.
  destruct (decide (i = j)) as [<-|Hne].
  - rewrite list_lookup_insert_eq by (by eapply lookup_lt_Some). simpl.
    destruct (holds y) eqn:E; [done|]. destruct (holds x) eqn:E'; [done|]. split; [done|].
    intros H. apply Hi in H. congruence.
  - rewrite list_lookup_insert_ne by done. fold (pc_of j s).
    destruct (holds y) eqn:E.
    + destruct (Hy eq_refl) as [H|H]; [apply Hi in H|]; rewrite Hj, H; split; congruence.
    + destruct (holds x) eqn:E'; [|done]. rewrite Hj. assert (t_owner s = Some i) as -> by (by apply Hi). split; congruence.
Qed.

Lemma holds_after r : r <> Waits -> holds (after r) = true.
Proof. destruct r as [[]|[]| |]; done. Qed.

(** A woken thread has not got the mutex yet. *)
Lemma mutex_wake s s' : (forall j, holds (pc_of j s') = holds (pc_of j s)) -> t_owner s' = t_owner s ->
  mutex_inv s -> mutex_inv s'.
Proof. intros Hh Ho Hm j. rewrite Hh, Ho. apply Hm. Qed.

Lemma cond_signal_holds c target s s' : cond_signal c target s = Some s' ->
  forall j, holds (pc_of j s') = holds (pc_of j s).
Proof.
  intros [(-> & _)|(j & o & -> & Hj & _ & ->)]%cond_signal_inv i; [done|].
  destruct (decide (j = i)) as [<-|Hne].
  - by rewrite (pc_of_set_eq _ _ _ _ Hj), (pc_of_lookup _ _ _ Hj).
  - by rewrite pc_of_set_ne.
Qed.

Lemma cond_broadcast_holds c s j : holds (pc_of j (cond_broadcast c s)) = holds (pc_of j s).
Proof.
  unfold cond_broadcast. case_match; [|done]. unfold pc_of. simpl. rewrite list_lookup_fmap.
  destruct (t_pcs s !! j) as [pc|]; simpl; [|done]. unfold wake_on. destruct pc; simpl; try done. by case_match.
Qed.

Lemma cond_signal_keeps c target s s' i pc : cond_signal c target s = Some s' ->
  t_pcs s !! i = Some pc -> (forall o, pc <> Asleep o) -> t_pcs s' !! i = Some pc.
Proof.
  intros [(-> & _)|(j & o & -> & Hj & _ & ->)]%cond_signal_inv Hi Hpc; [done|]. simpl.
  rewrite list_lookup_insert_ne; [done|]. intros ->. simplify_eq. by eapply Hpc.
Qed.

Lemma mutex_act a s s' evs : act a s = Some (s', evs) -> mutex_inv s -> mutex_inv s'.
Proof.
  intros H Hm.
  assert (Hown : forall i pc, t_pcs s !! i = Some pc -> holds pc = true -> t_owner s = Some i).
  { intros i pc Hpc Hh. apply Hm. by rewrite (pc_of_lookup _ _ _ Hpc). }
  act_cases H.
  all: try (eapply (mutex_move s); [done..|simpl; by eauto using eq_sym|simpl; by eauto|done]; fail).
  - destruct (evaluate_inv _ _ _ _ _ _ _ H) as [(_ & -> & _)|(r & q & _ & Hr & -> & _)].
    + by eapply (mutex_move s).
    + pose proof (holds_after r Hr) as Hh. eapply (mutex_move s); [done..| |by left|done].
      rewrite Hh. by eapply Hown.
  - assert (Hm1 : mutex_inv t0).
    { eapply mutex_wake; [by eapply cond_signal_holds| |done]. by eapply cond_signal_phases. }
    eapply (mutex_move t0); [by eapply cond_signal_keeps|done| |by left|done]. simpl.
    destruct (cond_signal_phases _ _ _ _ E) as (_ & _ & _ & -> & _). by eapply Hown.
  - eapply (mutex_move (cond_broadcast NotEmpty s)); [by apply broadcast_lookup|done| |by left|].
    + simpl. destruct (cond_broadcast_same NotEmpty s) as (_ & _ & ->). by eapply Hown.
    + eapply mutex_wake; [apply cond_broadcast_holds|apply cond_broadcast_same|done].
  - eapply (mutex_move (cond_broadcast NotFull s)); [by apply broadcast_lookup|done| |by left|].
    + simpl. destruct (cond_broadcast_same NotFull s) as (_ & _ & ->). by eapply Hown.
    + eapply mutex_wake; [apply cond_broadcast_holds|apply cond_broadcast_same|done].
  - exact Hm.
Qed.

(** Shutdown never waits. *)
Lemma sleepers_act a s s' evs f : implements (t_queue s) f -> act a s = Some (s', evs) ->
  (forall i, pc_of i s <> Asleep OpShutdown) -> forall i, pc_of i s' <> Asleep OpShutdown.
Proof.
  intros Hi H Hn. assert (Hset : forall i pc s1, pc <> Asleep OpShutdown ->
      (forall j, pc_of j s1 <> Asleep OpShutdown) -> forall j, pc_of j (set_pc i pc s1) <> Asleep OpShutdown).
  { intros i pc s1 Hpc H1 j. unfold pc_of. simpl. destruct (decide (i = j)) as [<-|Hne].
    - destruct (decide (i < length (t_pcs s1))%nat).
      + by rewrite list_lookup_insert_eq.
      + rewrite list_insert_ge by lia. apply H1.
    - rewrite list_lookup_insert_ne by done. apply H1. }
  assert (Hb : forall c j, pc_of j (cond_broadcast c s) <> Asleep OpShutdown).
  { intros c j. unfold cond_broadcast. case_match; [|apply Hn]. specialize (Hn j). unfold pc_of in *. simpl.
    rewrite list_lookup_fmap. destruct (t_pcs s !! j) as [[]|]; simpl in *; try done.
    unfold wake_on. by case_match. }
  act_cases H; try (by apply Hset); try (by apply (Hset _ _ s)); try (by apply Hset; [|intros j; apply Hb]).
  - destruct (evaluate_inv _ _ _ _ _ _ _ H) as [(Hq & -> & _)|(r & q & _ & Hr & -> & _)].
    + apply (Hset _ _ s); [|done]. destruct (queue_step _ _) as [r q] eqn:E. simpl in Hq. subst r.
      destruct (queue_step_effect _ _ _ _ _ _ _ _ Hi E) as (_ & _ & Ho & _). congruence.
    + apply (Hset _ _ (with_queue q s)); [by destruct r as [[]|[]| |]|done].
  - apply Hset; [done|]. destruct (cond_signal_inv _ _ _ _ E) as [(-> & _)|(j & o & _ & _ & _ & ->)]; [done|].
    by apply Hset.
  - exact Hn.
Qed.

Lemma committed_run_conds cs : forall q cv,
  cond_initialized cv (snd (run queue_step cs q)) = cond_initialized cv q.
Proof.
  induction cs as [|c cs IH]; intros q cv; simpl; [done|].
  pose proof (queue_step_conds c q cv) as Hc. destruct (queue_step c q) as [r q'].
  specialize (IH q' cv). destruct (run queue_step cs q'). simpl in *. congruence.
Qed.

Lemma sync_act a s s' evs : act a s = Some (s', evs) -> sync_inv s -> sync_inv s'.
Proof.
  intros H [[f Hi] Hc Hm Hw Hn]. pose proof (act_run _ _ _ _ H) as Hr. split.
  - pose proof (proj2 (run_implements (committed evs) _ _ Hi)) as Hi'. rewrite Hr in Hi'. eauto.
  - intros c. pose proof (committed_run_conds (committed evs) (t_queue s) c) as He.
    rewrite Hr in He. simpl in He. by rewrite He.
  - by eapply mutex_act.
  - by eapply wake_act.
  - by eapply sleepers_act.
Qed.

Lemma sync_schedule al : forall s s' evs, schedule al s = Some (s', evs) -> sync_inv s -> sync_inv s'.
Proof.
  induction al as [|a al IH]; intros s s' evs H Hi; simpl in H; [by simplify_eq|].
  destruct (act a s) as [[s1 ev]|] eqn:Ea; [|done]. simpl in H.
  destruct (schedule al s1) as [[s2 evs']|] eqn:Es; [|done]. simplify_eq/=. eauto using sync_act.
Qed.

Lemma sync_at_rest s f : at_rest s f -> sync_inv s.
Proof.
  intros [Hi Hc Ho Hp]. split; [eauto|done| | |].
  - intros i. rewrite Ho. unfold pc_of. split; [|done]. destruct (t_pcs s !! i) as [pc|] eqn:E; [|done].
    rewrite Forall_lookup in Hp. by rewrite <- (Hp _ _ E).
  - intros c H. exfalso. assert (Hz : total (sleeper c) s = 0%nat); [|lia].
    unfold total. clear H. induction Hp as [|pc l <- _ IH]; [done|]. by simpl.
  - intros i. unfold pc_of. destruct (t_pcs s !! i) as [pc|] eqn:E; [|done].
    rewrite Forall_lookup in Hp. by rewrite <- (Hp _ _ E).
Qed.

(** ** Rest *)

(** No call in progress can move unless a new call, a time-out or a spurious
    wake-up comes. *)
Definition quiescent (s : threads) : Prop := forall a, progress a = true -> act a s = None.

(** A thread that rests, and has a reason to. *)
Definition rests (q : connection_queue_t) (pc : thread_pc) : Prop :=
  match pc with
  | Idle => True
  | Asleep (OpPush _) => q_count q = q_capacity q /\ q_shutting_down q = false
  | Asleep OpPop => q_count q = 0%nat /\ q_shutting_down q = false
  | _ => False
  end.

(** A thread outside of [Idle] and [Asleep] can move, or waits for the mutex. *)
Definition next_action (i : nat) (pc : thread_pc) (s : threads) : option action :=
  match pc with
  | Idle | Asleep _ => None
  | Locking _ => match t_owner s with None => Some (Lock i true) | Some _ => None end
  | Woken _ => match t_owner s with None => Some (Relock i) | Some _ => None end
  | Testing _ => Some (Evaluate i true true)
  | Signalling c _ => Some (Signal i (fst <$> list_find (fun pc => asleep_on c pc = true) (t_pcs s)))
  | Broadcasting _ => Some (Broadcast i)
  | Unlocking _ => Some (Unlock i)
  | Returning _ => Some (Leave i)
  end.

Lemma next_action_act i pc s a : t_pcs s !! i = Some pc -> next_action i pc s = Some a ->
  progress a = true /\ is_Some (act a s).
Proof.
  intros Hpc Ha. destruct pc as [|o|o|o|o|c r|c|r|r]; simpl in Ha; try done.
  - destruct (t_owner s) eqn:E; simplify_eq. simpl. rewrite Hpc. unfold lock. rewrite E. by eauto.
  - simplify_eq. simpl. rewrite Hpc. by eauto.
  - destruct (t_owner s) eqn:E; simplify_eq. simpl. rewrite Hpc. unfold lock. rewrite E. by eauto.
  - simplify_eq. simpl. rewrite Hpc. split; [done|]. apply fmap_is_Some. unfold cond_signal.
    destruct (list_find _ _) as [[j pc]|] eqn:E; simpl.
    + apply list_find_Some in E as (-> & -> & _). by eauto.
    + apply list_find_None in E. assert (existsb (asleep_on c) (t_pcs s) = false) as ->; [|by eauto].
      clear -E. induction E as [|pc l Hn _ IH]; simpl; [done|]. apply not_true_is_false in Hn. by rewrite Hn.
  - simplify_eq. simpl. rewrite Hpc. by destruct c; eauto.
  - simplify_eq. simpl. rewrite Hpc. by eauto.
  - simplify_eq. simpl. rewrite Hpc. by eauto.
Qed.

(** In a state where no thread can move, each rests for a reason. *)
Lemma stuck_rests s : sync_inv s ->
  (forall i pc, t_pcs s !! i = Some pc -> next_action i pc s = None) ->
  t_owner s = None /\ Forall (rests (t_queue s)) (t_pcs s).
Proof.
  intros [[f Hi] Hc Hm Hw Hn] Hs.
  assert (Ho : t_owner s = None).
  { destruct (t_owner s) as [i|] eqn:E; [|done]. pose proof (proj2 (Hm i) E) as Hh. unfold pc_of in Hh.
    destruct (t_pcs s !! i) as [pc|] eqn:Ei; [|done]. specialize (Hs i pc Ei).
    destruct pc; simpl in Hs; done. }
  assert (Hpc : forall i pc, t_pcs s !! i = Some pc -> pc = Idle \/ exists o, pc = Asleep o).
  { intros i pc H. specialize (Hs i pc H). destruct pc; simpl in Hs; rewrite ?Ho in Hs; eauto; done. }
  assert (Hz : forall w, (forall o, w (Asleep o) = 0%nat) -> w Idle = 0%nat -> total w s = 0%nat).
  { intros w Ha Hi0. unfold total. apply Forall_lookup in Hpc. clear -Hpc Ha Hi0.
    induction Hpc as [|pc l [->|[o ->]] _ IH]; simpl; rewrite ?IH, ?Ha, ?Hi0; done. }
  split; [done|]. apply Forall_lookup. intros i pc H.
  destruct (Hpc i pc H) as [->|[o ->]]; [done|].
  assert (Hsl : forall c, sleeps_on c o = true -> q_shutting_down (t_queue s) = false /\ stock c (t_queue s) = 0%nat).
  { intros c Hco. specialize (Hw c). rewrite (Hz (coming c)), (Hz (pending c)) in Hw by done.
    assert (0 < total (sleeper c) s)%nat as Hp.
    { destruct (total (sleeper c) s) eqn:E; [|lia]. pose proof (total_zero_lookup _ _ _ _ E H) as Hsz.
      simpl in Hsz. by rewrite Hco in Hsz. }
    specialize (Hw Hp). destruct (q_shutting_down _); lia. }
  pose proof (rg_count _ _ (proj1 Hi)). pose proof (rg_bound _ _ (proj1 Hi)).
  destruct o; simpl.
  - destruct (Hsl NotFull eq_refl) as [? Hst]. simpl in Hst. split; [lia|done].
  - by destruct (Hsl NotEmpty eq_refl).
  - by eapply Hn, pc_of_lookup.
Qed.

(** C14. No lost wake-up.  Whenever the calls in progress cannot move any more without a
    new call, a time-out or a spurious wake-up, the mutex is free and each thread is
    outside or asleep for a reason that holds: a consumer only on an empty queue, a
    producer only on a full one, and nobody once shutdown has begun. *)
Theorem no_lost_wakeup s f al s' evs : at_rest s f -> schedule al s = Some (s', evs) ->
  quiescent s' -> t_owner s' = None /\ Forall (rests (t_queue s')) (t_pcs s').
Proof.
  intros Hr Hs Hq. apply stuck_rests; [by eapply sync_schedule, sync_at_rest|]. intros i pc Hpc.
  destruct (next_action i pc s') as [a|] eqn:E; [|done].
  destruct (next_action_act _ _ _ _ Hpc E) as [Hp [r Ha]]. by rewrite Hq in Ha.
Qed.

(** ** Termination *)

(** Steps a thread may still cause, among [n] threads: a call that is not yet
    decided may end with two broadcasts, each waking every thread. *)
Definition weight (n : nat) (pc : thread_pc) : nat :=
  match pc with
  | Idle => 0
  | Asleep _ => 4 * n + 8
  | Testing _ => 4 * n + 9
  | Locking _ | Woken _ => 4 * n + 10
  | Signalling _ _ => 5
  | Broadcasting NotEmpty => 4 * n + 4
  | Broadcasting NotFull => 2 * n + 3
  | Unlocking _ => 2
  | Returning _ => 1
  end.

Definition effort (s : threads) : nat := total (weight (length (t_pcs s))) s.

Lemma weight_after n r : (weight n (after r) < 4 * n + 9)%nat.
Proof. destruct r as [[]|[]| |]; simpl; lia. Qed.

Lemma effort_broadcast c s :
  (effort (cond_broadcast c s) <= effort s + 2 * length (t_pcs s))%nat.
Proof.
  unfold effort. rewrite (proj1 (cond_broadcast_same c s)). generalize (length (t_pcs s)) at 1 2 as n.
  intros n. unfold total, cond_broadcast. case_match; [|lia]. simpl.
  induction (t_pcs s) as [|pc l IH]; csimpl; [lia|].
  assert (weight n (wake_on c pc) <= weight n pc + 2)%nat; [|lia].
  destruct pc; unfold wake_on; simpl; repeat case_match; simpl; lia.
Qed.

Lemma effort_set s i x y : t_pcs s !! i = Some x ->
  (effort (set_pc i y s) + weight (length (t_pcs s)) x = effort s + weight (length (t_pcs s)) y)%nat.
Proof. intros H. unfold effort. simpl. rewrite length_insert. by apply total_set. Qed.

Lemma act_length a s s' evs : act a s = Some (s', evs) -> length (t_pcs s') = length (t_pcs s).
Proof.
  intros H. act_cases H; simpl; rewrite ?length_insert; try done.
  - destruct (evaluate_inv _ _ _ _ _ _ _ H) as [(_ & -> & _)|(r & q & _ & Hr & -> & _)]; simpl; by rewrite length_insert.
  - by eapply cond_signal_phases.
  - apply cond_broadcast_same.
  - apply cond_broadcast_same.
Qed.

Lemma effort_act a s s' evs : progress a = true -> act a s = Some (s', evs) -> (effort s' < effort s)%nat.
Proof.
  intros Hp H. act_cases H; try done.
  all: try (match goal with Hpc : t_pcs ?t !! ?i = Some ?x |- (effort ?u < _)%nat =>
    match u with context [set_pc i ?y t] =>
      pose proof (effort_set t i x y Hpc) as He; change (effort u) with (effort (set_pc i y t)); cbn [weight] in He; lia
    end end).
  - destruct (evaluate_inv _ _ _ _ _ _ _ H) as [(_ & -> & _)|(r & q & _ & Hr & -> & _)].
    + pose proof (effort_set s i _ (Asleep o) Epc) as He. cbn [weight] in He.
      change (effort (set_pc i (Asleep o) s) < effort s)%nat. lia.
    + pose proof (effort_set s i _ (after r) Epc) as He. pose proof (weight_after (length (t_pcs s)) r).
      cbn [weight] in He. change (effort (set_pc i (after r) s) < effort s)%nat. lia.
  - pose proof (cond_signal_keeps _ _ _ _ _ _ E Epc ltac:(done)) as Hk.
    pose proof (effort_set _ i _ (Unlocking r) Hk) as He. cbn [weight] in He.
    destruct (cond_signal_inv _ _ _ _ E) as [(-> & _)|(j & o & _ & Hj & _ & ->)]; [lia|].
    pose proof (effort_set _ j _ (Woken o) Hj) as He2. cbn [weight] in He2. lia.
  - pose proof (effort_set _ i _ (Broadcasting NotFull) (broadcast_lookup _ _ NotEmpty _ Epc)) as He.
    pose proof (effort_broadcast NotEmpty s). rewrite (proj1 (cond_broadcast_same _ _)) in He. cbn [weight] in He. lia.
  - pose proof (effort_set _ i _ (Unlocking Shut) (broadcast_lookup _ _ NotFull _ Epc)) as He.
    pose proof (effort_broadcast NotFull s). rewrite (proj1 (cond_broadcast_same _ _)) in He. cbn [weight] in He. lia.
Qed.

Lemma schedule_effort al : forall s s' evs, Forall (fun a => progress a = true) al ->
  schedule al s = Some (s', evs) -> (length al + effort s' <= effort s)%nat.
Proof.
  induction al as [|a al IH]; intros s s' evs Hp H; simpl in H; [simplify_eq; simpl; lia|].
  apply Forall_cons in Hp as [Ha Hp]. destruct (act a s) as [[s1 ev]|] eqn:Ea; [|done]. simpl in H.
  destruct (schedule al s1) as [[s2 evs']|] eqn:Es; [|done]. simplify_eq/=.
  pose proof (effort_act _ _ _ _ Ha Ea). specialize (IH _ _ _ Hp Es). lia.
Qed.

(** Some thread can move, or all rest. *)
Lemma can_move s : (exists i pc a, t_pcs s !! i = Some pc /\ next_action i pc s = Some a) \/
  (forall i pc, t_pcs s !! i = Some pc -> next_action i pc s = None).
Proof.
  destruct (list_find (fun x => is_Some (next_action x.1 x.2 s)) (imap pair (t_pcs s))) as [[j [i pc]]|] eqn:E.
  - apply list_find_Some in E as (Hl & [a Ha] & _). rewrite list_lookup_imap in Hl.
    destruct (t_pcs s !! j) eqn:Ej; simplify_eq/=. left. eauto.
  - right. intros i pc Hi. apply list_find_None in E. rewrite Forall_lookup in E.
    destruct (next_action i pc s) eqn:En; [|done]. exfalso. apply (E i (i, pc)).
    + by rewrite list_lookup_imap, Hi.
    + simpl. rewrite En. eauto.
Qed.

Lemma settles n : forall s, (effort s <= n)%nat -> sync_inv s ->
  exists al s' evs, Forall (fun a => progress a = true) al /\ schedule al s = Some (s', evs) /\
    t_owner s' = None /\ Forall (rests (t_queue s')) (t_pcs s').
Proof.
  induction n as [n IH] using lt_wf_ind. intros s Hn Hi.
  destruct (can_move s) as [(i & pc & a & Hpc & Ha)|Hs].
  - destruct (next_action_act _ _ _ _ Hpc Ha) as [Hp [[s1 ev] He]]. pose proof (effort_act _ _ _ _ Hp He).
    destruct (IH (effort s1)) with (s := s1) as (al & s' & evs & Hal & Hsch & Hrest);
      [lia|done|by eapply sync_act|].
    exists (a :: al), s', (ev ++ evs). split_and!; [by constructor| |apply Hrest..].
    simpl. rewrite He. simpl. by rewrite Hsch.
  - exists [], s, []. split_and!; [constructor|done|by apply stuck_rests..].
Qed.

(** C15. Termination of the calls.  From every state that threads can reach, the calls
    in progress take at most [effort s'] steps, whatever the schedule, unless new calls,
    time-outs or spurious wake-ups come; and there is such a schedule to a state where
    each has returned or sleeps for a reason that holds. *)
Theorem calls_settle s f al s' evs : at_rest s f -> schedule al s = Some (s', evs) ->
  (forall bl s2 evs2, Forall (fun a => progress a = true) bl -> schedule bl s' = Some (s2, evs2) ->
    (length bl <= effort s')%nat) /\
  exists bl s2 evs2, Forall (fun a => progress a = true) bl /\ schedule bl s' = Some (s2, evs2) /\
    t_owner s2 = None /\ Forall (rests (t_queue s2)) (t_pcs s2).
Proof.
  intros Hr Hs. split.
  - intros bl s2 evs2 Hb Hsch. pose proof (schedule_effort _ _ _ _ Hb Hsch). lia.
  - eapply settles; [done|]. by eapply sync_schedule, sync_at_rest.
Qed.

(** ** Examples *)

Lemma no_lost_wakeup_witness : exists s' evs, schedule sample_schedule sample_threads = Some (s', evs) /\
  t_pcs s' = [Idle; Asleep OpPop; Idle] /\ Forall (rests (t_queue s')) (t_pcs s').
Proof.
  destruct (schedule sample_schedule sample_threads) as [[s' evs]|] eqn:E; [|by vm_compute in E].
  pose proof (no_lost_wakeup _ _ _ _ _ sample_at_rest E) as H.
  vm_compute in E. injection E as <- <-. eexists _, _. split; [done|]. split; [done|]. apply H.
  intros [i o|i []|i|i ck wt|i t|i|i|i|i|] Hp; try done; destruct i as [|[|[|i]]]; done.
Defined.

Lemma calls_settle_witness : exists s' evs,
  schedule (take 9 sample_schedule) sample_threads = Some (s', evs) /\
  exists bl s2 evs2, Forall (fun a => progress a = true) bl /\ schedule bl s' = Some (s2, evs2) /\
    t_owner s2 = None /\ Forall (rests (t_queue s2)) (t_pcs s2).
Proof.
  destruct (schedule (take 9 sample_schedule) sample_threads) as [[s' evs]|] eqn:E; [|by vm_compute in E].
  exists s', evs. split; [done|]. apply (calls_settle _ _ _ _ _ sample_at_rest E).
Defined.
