(* ===== verification/QueueAccess.v ===== *)
(** * The critical sections of connection_queue.c, one memory access at a time

    QueueThreads.v runs what a thread does under the mutex as one step.  Here the
    sections are written as the code has them, a load or a store of one field at a
    time, on a queue in memory that every thread can touch at any time: nothing
    but the mutex keeps two threads apart.  Everything else, the locking and the
    condition variables, is as in QueueThreads.v.  The theorems: only the owner of
    the mutex touches the queue, and the system refines that of QueueThreads.v, so
    that its histories are those of the bounded FIFO. *)
From S2P Require Import Prelude CLib Proc ConnectionQueue QueueThreads QueueWake.

(** ** Memory accesses *)

(** The fields read or written under the mutex, besides [items]. *)
Inductive location := Count | Head | Tail | Capacity | ShuttingDown.

Definition load (l : location) (q : connection_queue_t) : nat :=
  match l with
  | Count => q_count q
  | Head => q_head q
  | Tail => q_tail q
  | Capacity => q_capacity q
  | ShuttingDown => if q_shutting_down q then 1 else 0
  end.

Definition store (l : location) (v : nat) (q : connection_queue_t) : connection_queue_t :=
  {| q_block := q_block q; q_items := q_items q;
     q_capacity := (if l is Capacity then v else q_capacity q);
     q_head := (if l is Head then v else q_head q);
     q_tail := (if l is Tail then v else q_tail q);
     q_count := (if l is Count then v else q_count q);
     q_shutting_down := (if l is ShuttingDown then negb (v =? 0)%nat else q_shutting_down q);
     q_mutex_initialized := q_mutex_initialized q;
     q_not_empty_initialized := q_not_empty_initialized q;
     q_not_full_initialized := q_not_full_initialized q |}.

Definition load_item (i : nat) (q : connection_queue_t) : option nat :=
  match q_items q !! i with Some x => x | None => None end.

Definition store_item (i fd : nat) (q : connection_queue_t) : connection_queue_t :=
  {| q_block := q_block q; q_items := <[i := Some fd]> (q_items q); q_capacity := q_capacity q;
     q_head := q_head q; q_tail := q_tail q; q_count := q_count q;
     q_shutting_down := q_shutting_down q; q_mutex_initialized := q_mutex_initialized q;
     q_not_empty_initialized := q_not_empty_initialized q;
     q_not_full_initialized := q_not_full_initialized q |}.

(** What remains of a pass through a critical section, until the call has its
    answer or the body of the waiting loop is entered. *)
Inductive critical :=
| Load (l : location) (k : nat -> critical)
| Store (l : location) (v : nat) (k : critical)
| LoadItem (i : nat) (k : option nat -> critical)
| StoreItem (i fd : nat) (k : critical)
| Finish (r : reply)
| WaitLoop.

(** The statements after the loop of [connection_queue_push]. *)
Definition push_rest (client_fd : nat) : critical :=
  Load ShuttingDown (fun sd =>
  if negb (sd =? 0)%nat then Finish (Pushed CONNECTION_QUEUE_SHUTDOWN) else
  (* queue->items[queue->tail] = client_fd *)
  Load Tail (fun t => StoreItem t client_fd (
  (* queue->tail = (queue->tail + 1) % queue->capacity *)
  Load Tail (fun t => Load Capacity (fun cap => Store Tail ((t + 1) mod cap) (
  (* queue->count++ *)
  Load Count (fun n => Store Count (n + 1) (
  Finish (Pushed CONNECTION_QUEUE_OK))))))))).

(** From the test of the loop on. *)
Definition push_section (client_fd : nat) : critical :=
  Load Count (fun n => Load Capacity (fun cap =>
  if (cap <=? n)%nat
  then Load ShuttingDown (fun sd => if (sd =? 0)%nat then WaitLoop else push_rest client_fd)
  else push_rest client_fd)).

Definition pop_take : critical :=
  (* *client_fd = queue->items[queue->head] *)
  Load Head (fun h => LoadItem h (fun fd =>
  (* queue->head = (queue->head + 1) % queue->capacity *)
  Load Head (fun h => Load Capacity (fun cap => Store Head ((h + 1) mod cap) (
  (* queue->count-- *)
  Load Count (fun n => Store Count (n - 1) (
  Finish (Popped CONNECTION_QUEUE_OK fd)))))))).

(** The statements after the loop of [connection_queue_pop]. *)
Definition pop_rest : critical :=
  Load Count (fun n =>
  if (n =? 0)%nat
  then Load ShuttingDown (fun sd =>
    if negb (sd =? 0)%nat then Finish (Popped CONNECTION_QUEUE_SHUTDOWN None) else pop_take)
  else pop_take).

Definition pop_section : critical :=
  Load Count (fun n =>
  if (n =? 0)%nat
  then Load ShuttingDown (fun sd => if (sd =? 0)%nat then WaitLoop else pop_rest)
  else pop_rest).

Definition shutdown_section : critical := Store ShuttingDown 1 (Finish Shut).

Definition section (o : op) : critical :=
  match o with
  | OpPush fd => push_section fd
  | OpPop => pop_section
  | OpShutdown => shutdown_section
  end.

(** The body of the waiting loop: the answer that ends the call, or [Waits]. *)
Definition wait_body (o : op) (abort clock_ok wait_ok : bool) : reply :=
  match o with
  | OpPush _ =>
      if abort then Pushed CONNECTION_QUEUE_SHUTDOWN
      else if negb clock_ok then Pushed CONNECTION_QUEUE_ERROR
      else if negb wait_ok then Pushed CONNECTION_QUEUE_ERROR
      else Waits
  | OpPop => if negb wait_ok then Popped CONNECTION_QUEUE_ERROR None else Waits
  | OpShutdown => Shut
  end.

(** ** Threads *)

(** A thread is somewhere in QueueThreads.v, or has [c] left to do of a section. *)
Inductive access_pc :=
| At (pc : thread_pc)
| Inside (o : op) (c : critical).

(** [ac_queue] is the memory as it is, in the middle of an update too. *)
Record accesses := Accesses {
  ac_queue : connection_queue_t;
  ac_owner : option nat;
  ac_abort : bool;
  ac_pcs : list access_pc;
}.

Definition coarse_pc (pc : access_pc) : thread_pc :=
  match pc with At pc => pc | Inside o _ => Testing o end.

Definition coarse (s : accesses) : threads :=
  Threads (ac_queue s) (ac_owner s) (ac_abort s) (coarse_pc <$> ac_pcs s).

Definition put (i : nat) (pc : access_pc) (s : accesses) : accesses :=
  Accesses (ac_queue s) (ac_owner s) (ac_abort s) (<[i := pc]> (ac_pcs s)).

Definition memory (q : connection_queue_t) (s : accesses) : accesses :=
  Accesses q (ac_owner s) (ac_abort s) (ac_pcs s).

Definition release (s : accesses) : accesses :=
  Accesses (ac_queue s) None (ac_abort s) (ac_pcs s).

(** The threads in a section stay where they are when another one moves. *)
Definition keep_inside (old : access_pc) (new : thread_pc) : access_pc :=
  match old with Inside o c => Inside o c | At _ => At new end.

(** [OtherStep a]: a step of QueueThreads.v other than an evaluation.  A section is
    entered, goes on by one access, and ends. *)
Inductive access_action :=
| OtherStep (a : action)
| Enter (i : nat)
| Access (i : nat)
| Decide (i : nat) (clock_ok wait_ok : bool).

Definition is_evaluate (a : action) : bool :=
  match a with Evaluate _ _ _ => true | _ => false end.

Definition inside_action (a : access_action) : bool :=
  match a with OtherStep _ => false | _ => true end.

(** One access: the memory after it, and what remains. *)
Definition access (c : critical) (q : connection_queue_t) : option (connection_queue_t * critical) :=
  match c with
  | Load l k => Some (q, k (load l q))
  | Store l v k => Some (store l v q, k)
  | LoadItem i k => Some (q, k (load_item i q))
  | StoreItem i fd k => Some (store_item i fd q, k)
  | Finish _ | WaitLoop => None
  end.

(** The answer at the end of a section. *)
Definition decision (o : op) (c : critical) (abort clock_ok wait_ok : bool) : option reply :=
  match c with
  | Finish r => Some r
  | WaitLoop => Some (wait_body o abort clock_ok wait_ok)
  | _ => None
  end.

Definition access_act (a : access_action) (s : accesses) : option (accesses * list event) :=
  match a with
  | OtherStep a =>
      if is_evaluate a then None
      else
        '(v, ev) ← act a (coarse s);
        Some (Accesses (t_queue v) (t_owner v) (t_abort v) (zip_with keep_inside (ac_pcs s) (t_pcs v)), ev)
  | Enter i =>
      match ac_pcs s !! i with
      | Some (At (Testing o)) => Some (put i (Inside o (section o)) s, [])
      | _ => None
      end
  | Access i =>
      match ac_pcs s !! i with
      | Some (Inside o c) =>
          '(q, c) ← access c (ac_queue s);
          Some (put i (Inside o c) (memory q s), [])
      | _ => None
      end
  | Decide i clock_ok wait_ok =>
      match ac_pcs s !! i with
      | Some (Inside o c) =>
          r ← decision o c (ac_abort s) clock_ok wait_ok;
          match r with
          | Waits => Some (release (put i (At (Asleep o)) s), [])
          | r => Some (put i (At (after r)) s,
                       [EvCommit i (queue_call_of o (ac_abort s) true clock_ok wait_ok) r])
          end
      | _ => None
      end
  end.

Fixpoint run_accesses (al : list access_action) (s : accesses) : option (accesses * list event) :=
  match al with
  | [] => Some (s, [])
  | a :: al =>
      '(s, ev) ← access_act a s;
      '(s, evs) ← run_accesses al s;
      Some (s, ev ++ evs)
  end.

(** Nobody is in a section. *)
Definition nobody_inside (pcs : list access_pc) : Prop := forall i o c, pcs !! i <> Some (Inside o c).

Definition accesses_at_rest (s : accesses) (f : fifo) : Prop :=
  nobody_inside (ac_pcs s) /\ at_rest (coarse s) f.

(** ** Sections without interference *)

Fixpoint exec (c : critical) (q : connection_queue_t) : option reply * connection_queue_t :=
  match c with
  | Load l k => exec (k (load l q)) q
  | Store l v k => exec k (store l v q)
  | LoadItem i k => exec (k (load_item i q)) q
  | StoreItem i fd k => exec k (store_item i fd q)
  | Finish r => (Some r, q)
  | WaitLoop => (None, q)
  end.

Lemma access_exec c q q' c' : access c q = Some (q', c') -> exec c' q' = exec c q.
Proof. destruct c; simpl; intros; by simplify_eq. Qed.

(** The fields a section cannot change. *)
Lemma access_keeps c q q' c' cv : access c q = Some (q', c') ->
  cond_initialized cv q' = cond_initialized cv q.
Proof. destruct c; simpl; intros; simplify_eq; by destruct cv. Qed.

Lemma load_shutting_down q : (load ShuttingDown q =? 0)%nat = negb (q_shutting_down q).
Proof. simpl. by destruct (q_shutting_down q). Qed.

Lemma exec_push_rest fd q : exec (push_rest fd) q =
  if q_shutting_down q then (Some (Pushed CONNECTION_QUEUE_SHUTDOWN), q)
  else (Some (Pushed CONNECTION_QUEUE_OK), enqueue fd q).
Proof.
  unfold push_rest. cbn [exec]. rewrite load_shutting_down, negb_involutive.
  destruct (q_shutting_down q); by destruct q.
Qed.

Lemma exec_pop_take q :
  exec pop_take q = (Some (Popped CONNECTION_QUEUE_OK (load_item (q_head q) q)), dequeue q).
Proof. by destruct q. Qed.

Lemma exec_pop_rest q : exec pop_rest q =
  if (q_count q =? 0)%nat && q_shutting_down q then (Some (Popped CONNECTION_QUEUE_SHUTDOWN None), q)
  else exec pop_take q.
Proof.
  unfold pop_rest. cbn [exec]. change (load Count q) with (q_count q).
  destruct (q_count q =? 0)%nat; cbn [andb exec]; [|done]. rewrite load_shutting_down, negb_involutive.
  by destruct (q_shutting_down q).
Qed.

(** A section run alone is the evaluation of ConnectionQueue.v. *)
Lemma section_step o a ck wt q : q_mutex_initialized q = true ->
  queue_step (queue_call_of o a true ck wt) q =
    (default (wait_body o a ck wt) (fst (exec (section o) q)), snd (exec (section o) q)) /\
  (fst (exec (section o) q) = None -> snd (exec (section o) q) = q) /\
  fst (exec (section o) q) <> Some Waits.
Proof.
  intros Hm. destruct o as [fd| |]; cbn [queue_call_of queue_step section].
  - unfold connection_queue_push, push_section. cbn [exec negb].
    cbn [load].
    destruct (q_capacity q <=? q_count q)%nat; cbn [andb exec]; rewrite ?load_shutting_down, ?exec_push_rest.
    all: destruct (q_shutting_down q) eqn:Es; cbn [negb]; rewrite ?exec_push_rest, ?Es; try done.
    simpl. by destruct a, ck, wt.
  - unfold connection_queue_pop, pop_section. cbn [exec negb].
    change (load Count q) with (q_count q). destruct (q_count q =? 0)%nat eqn:Ec; cbn [andb exec]; rewrite ?load_shutting_down, ?exec_pop_rest, ?Ec, ?exec_pop_take; try done.
    destruct (q_shutting_down q) eqn:Es; cbn [negb]; rewrite ?exec_pop_rest, ?Ec, ?Es; try done.
    simpl. by destruct wt.
  - unfold connection_queue_shutdown. rewrite Hm. by destruct q; simpl in *; subst.
Qed.

(** ** Steps that are not evaluations *)

Lemma with_queue_twice q q' v : with_queue q (with_queue q' v) = with_queue q v.
Proof. done. Qed.

Lemma broadcast_frame c q v : cond_initialized c q = cond_initialized c (t_queue v) ->
  cond_broadcast c (with_queue q v) = with_queue q (cond_broadcast c v).
Proof. intros Hc. unfold cond_broadcast. cbn [with_queue t_queue]. rewrite Hc. by destruct (cond_initialized c (t_queue v)). Qed.

Lemma signal_frame c target q v v' : cond_signal c target v = Some v' ->
  cond_signal c target (with_queue q v) = Some (with_queue q v').
Proof. unfold cond_signal. simpl. repeat case_match; intros; by simplify_eq. Qed.

Lemma lock_frame i pc q v v' : lock i pc v = Some v' -> lock i pc (with_queue q v) = Some (with_queue q v').
Proof. intros [Ho ->]%lock_inv. unfold lock. simpl. by rewrite Ho. Qed.

(** They do not look at the contents of the queue. *)
Lemma act_frame a q v v' evs : act a v = Some (v', evs) -> is_evaluate a = false ->
  (forall c, cond_initialized c q = cond_initialized c (t_queue v)) ->
  act a (with_queue q v) = Some (with_queue q v', evs) /\ t_queue v' = t_queue v.
Proof.
  intros H He Hc. destruct a; try done; cbn [act] in H |- *; change (t_pcs (with_queue q v)) with (t_pcs v).
  - repeat case_match; by simplify_eq.
  - destruct ok, (t_pcs v !! i) as [[| [| |] | | | | | | |]|]; try done.
    all: try (destruct (lock _ _ v) as [v1|] eqn:El; [|done]; simpl in H; simplify_eq;
      rewrite (lock_frame _ _ q _ _ El); by apply lock_inv in El as [_ ->]).
    all: by simplify_eq/=.
  - destruct (t_pcs v !! i) as [[]|]; try done.
    destruct (lock _ _ v) as [v1|] eqn:El; [|done]; simpl in H; simplify_eq.
    rewrite (lock_frame _ _ q _ _ El). by apply lock_inv in El as [_ ->].
  - destruct (t_pcs v !! i) as [[]|]; try done.
    destruct (cond_signal _ _ v) as [v1|] eqn:El; [|done]; simpl in H; simplify_eq.
    rewrite (signal_frame _ _ q _ _ El). by apply cond_signal_phases in El as (_ & _ & El & _).
  - destruct (t_pcs v !! i) as [[| | | | | |[]| |]|]; try done; simplify_eq.
    all: rewrite broadcast_frame by apply Hc; split; [done|]; apply cond_broadcast_same.
  - repeat case_match; by simplify_eq.
  - repeat case_match; by simplify_eq.
  - repeat case_match; by simplify_eq.
  - by simplify_eq.
Qed.

(** They leave a thread that is in its section there. *)
Lemma act_keeps_testing a v v' evs j o : act a v = Some (v', evs) -> is_evaluate a = false ->
  t_pcs v !! j = Some (Testing o) -> t_pcs v' !! j = Some (Testing o).
Proof.
  intros H He Hj.
  assert (Hne : forall i pc w, t_pcs v !! i = Some pc -> (forall o, pc <> Testing o) ->
    t_pcs w !! j = Some (Testing o) -> forall pc', <[i := pc']> (t_pcs w) !! j = Some (Testing o)).
  { intros i pc w Hi Hpc Hw. assert (i <> j) by (intros ->; simplify_eq; by eapply Hpc).
    intros pc'. by rewrite list_lookup_insert_ne. }
  act_cases H; try done; simpl.
  all: try (eapply Hne; [done..|]; done).
  - eapply Hne; [done..|]. by eapply cond_signal_keeps.
  - eapply Hne; [done..|]. unfold cond_broadcast. case_match; simpl; [|done]. by rewrite list_lookup_fmap, Hj.
  - eapply Hne; [done..|]. unfold cond_broadcast. case_match; simpl; [|done]. by rewrite list_lookup_fmap, Hj.
Qed.

(** ** The queue between the sections *)

(** The threads of QueueThreads.v, when the section in progress has not begun and
    the queue is [q]. *)
Definition saved (q : connection_queue_t) (s : accesses) : threads := with_queue q (coarse s).

(** What remains of a section leads where the whole section leads from [q]. *)
Record agrees (q : connection_queue_t) (s : accesses) : Prop := {
  ag_conds : forall c, cond_initialized c (ac_queue s) = cond_initialized c q;
  ag_inside : forall i o c, ac_pcs s !! i = Some (Inside o c) -> exec c (ac_queue s) = exec (section o) q;
  ag_outside : nobody_inside (ac_pcs s) -> ac_queue s = q;
}.

(** The mutex: whoever is in a section owns it. *)
Lemma inside_owner q s i pc : sync_inv (saved q s) -> ac_pcs s !! i = Some pc ->
  holds (coarse_pc pc) = true -> ac_owner s = Some i.
Proof.
  intros Hs Hi Hh. apply (si_mutex _ Hs i). unfold pc_of. simpl. by rewrite list_lookup_fmap, Hi.
Qed.

Lemma only_inside q s i pc j o c : sync_inv (saved q s) -> ac_pcs s !! i = Some pc ->
  holds (coarse_pc pc) = true -> ac_pcs s !! j = Some (Inside o c) -> i = j.
Proof.
  intros Hs Hi Hh Hj. pose proof (inside_owner _ _ _ _ Hs Hi Hh) as H1.
  pose proof (inside_owner _ _ _ _ Hs Hj eq_refl) as H2. congruence.
Qed.

Lemma coarse_put i pc s : coarse_pc <$> ac_pcs (put i pc s) = <[i := coarse_pc pc]> (coarse_pc <$> ac_pcs s).
Proof. apply list_fmap_insert. Qed.

(** A move inside a section changes nothing of what QueueThreads.v sees. *)
Lemma saved_put q i pc pc' s m : ac_pcs s !! i = Some pc -> coarse_pc pc' = coarse_pc pc ->
  saved q (put i pc' (memory m s)) = saved q s.
Proof.
  intros Hi Hc. unfold saved, coarse, with_queue. simpl. f_equal. rewrite list_fmap_insert, Hc.
  apply list_insert_id. by rewrite list_lookup_fmap, Hi.
Qed.

Lemma agrees_enter q s i o : agrees q s -> sync_inv (saved q s) -> ac_pcs s !! i = Some (At (Testing o)) ->
  agrees q (put i (Inside o (section o)) s).
Proof.
  intros [Hc Hin Hout] Hs Hi. assert (Hno : nobody_inside (ac_pcs s)).
  { intros j o' c Hj. pose proof (only_inside _ _ _ _ _ _ _ Hs Hi eq_refl Hj) as ->. by simplify_eq. }
  split; simpl.
  - done.
  - intros j o' c. destruct (decide (i = j)) as [<-|Hne].
    + rewrite list_lookup_insert_eq by (by eapply lookup_lt_Some). intros [= <- <-]. by rewrite Hout.
    + rewrite list_lookup_insert_ne by done. intros Hj. by apply Hno in Hj.
  - intros Hn. exfalso. eapply Hn. apply list_lookup_insert_eq. by eapply lookup_lt_Some.
Qed.

Lemma agrees_access q s i o c m c' : agrees q s -> sync_inv (saved q s) ->
  ac_pcs s !! i = Some (Inside o c) -> access c (ac_queue s) = Some (m, c') ->
  agrees q (put i (Inside o c') (memory m s)).
Proof.
  intros [Hc Hin Hout] Hs Hi Ha. split; simpl.
  - intros cv. by rewrite (access_keeps _ _ _ _ cv Ha).
  - intros j o' c1. destruct (decide (i = j)) as [<-|Hne].
    + rewrite list_lookup_insert_eq by (by eapply lookup_lt_Some). intros [= <- <-].
      rewrite (access_exec _ _ _ _ Ha). by eapply Hin.
    + rewrite list_lookup_insert_ne by done. intros Hj. by eapply only_inside in Hj.
  - intros Hn. exfalso. eapply Hn. apply list_lookup_insert_eq. by eapply lookup_lt_Some.
Qed.

(** A section that ends is the evaluation of QueueThreads.v. *)
Lemma section_decided q s i o c ck wt r : agrees q s -> sync_inv (saved q s) ->
  ac_pcs s !! i = Some (Inside o c) -> decision o c (ac_abort s) ck wt = Some r ->
  queue_step (queue_call_of o (ac_abort s) true ck wt) q = (r, ac_queue s) /\ (r = Waits -> ac_queue s = q).
Proof.
  intros Hag Hs Hi Hd. destruct (si_queue _ Hs) as [f Hf]. pose proof Hf as (_ & _ & _ & Hm). simpl in Hm.
  destruct (section_step o (ac_abort s) ck wt q Hm) as (Hq & Hn & Hw).
  rewrite <- (ag_inside _ _ Hag _ _ _ Hi) in Hq, Hn, Hw.
  destruct c; simpl in Hd, Hq, Hn, Hw; simplify_eq; rewrite Hq; (split; [done|]); [intros ->; done|auto].
Qed.

(** The thread has left its section, the others were not in one. *)
Lemma agrees_leave q s s' i o c pc : sync_inv (saved q s) -> ac_pcs s !! i = Some (Inside o c) ->
  ac_pcs s' = <[i := At pc]> (ac_pcs s) -> agrees (ac_queue s') s'.
Proof.
  intros Hs Hi Hp. split; [done| |done]. intros j o' c'. rewrite Hp. destruct (decide (i = j)) as [<-|Hne].
  - by rewrite list_lookup_insert_eq by (by eapply lookup_lt_Some).
  - rewrite list_lookup_insert_ne by done. intros Hj. by eapply only_inside in Hj.
Qed.

Lemma decide_simulated q s i o c ck wt s' evs : agrees q s -> sync_inv (saved q s) ->
  ac_pcs s !! i = Some (Inside o c) -> access_act (Decide i ck wt) s = Some (s', evs) ->
  agrees (ac_queue s') s' /\ act (Evaluate i ck wt) (saved q s) = Some (saved (ac_queue s') s', evs).
Proof.
  intros Hag Hs Hi H. cbn [access_act] in H. rewrite Hi in H.
  destruct (decision o c (ac_abort s) ck wt) as [r|] eqn:Hd; [|done]. simpl in H.
  destruct (section_decided _ _ _ _ _ _ _ _ Hag Hs Hi Hd) as [Hq Hw].
  cbn [act]. assert (t_pcs (saved q s) !! i = Some (Testing o)) as -> by (simpl; by rewrite list_lookup_fmap, Hi).
  unfold evaluate. change (t_abort (saved q s)) with (ac_abort s). change (t_queue (saved q s)) with q. rewrite Hq.
  destruct r; simplify_eq; (split; [by eapply agrees_leave|]); f_equal; f_equal.
  all: unfold saved, coarse, with_queue, set_pc, set_owner; simpl; rewrite list_fmap_insert; simpl.
  4: by rewrite Hw. all: done.
Qed.

(** The other threads move. *)
Lemma keep_lookup pcs pcs' i o c : length pcs' = length pcs ->
  zip_with keep_inside pcs pcs' !! i = Some (Inside o c) <-> pcs !! i = Some (Inside o c).
Proof.
  intros Hl. rewrite lookup_zip_with. split.
  - destruct (pcs !! i) as [[]|], (pcs' !! i); simpl; intros; by simplify_eq.
  - intros Hi. rewrite Hi. simpl. pose proof (lookup_lt_Some _ _ _ Hi) as Hlt. rewrite <- Hl in Hlt.
    by apply lookup_lt_is_Some in Hlt as [x ->].
Qed.

Lemma keep_coarse pcs pcs' : length pcs' = length pcs ->
  (forall i o c, pcs !! i = Some (Inside o c) -> pcs' !! i = Some (Testing o)) ->
  coarse_pc <$> zip_with keep_inside pcs pcs' = pcs'.
Proof.
  intros Hl Hk. apply list_eq. intros i. rewrite list_lookup_fmap, lookup_zip_with.
  destruct (pcs !! i) as [[pc|o c]|] eqn:Ei; simpl.
  - by destruct (pcs' !! i).
  - by rewrite (Hk _ _ _ Ei).
  - symmetry. apply lookup_ge_None. apply lookup_ge_None in Ei. lia.
Qed.

Lemma agrees_other q s s' pcs : agrees q s -> ac_queue s' = ac_queue s ->
  ac_pcs s' = zip_with keep_inside (ac_pcs s) pcs -> length pcs = length (ac_pcs s) -> agrees q s'.
Proof.
  intros [Hc Hin Hout] Hq Hp Hl. split; rewrite Hq; [done| |].
  - intros i o c. rewrite Hp, keep_lookup by done. apply Hin.
  - intros Hn. apply Hout. intros i o c Hi. apply (Hn i o c). by rewrite Hp, keep_lookup.
Qed.

Lemma coarse_inside s i o c : ac_pcs s !! i = Some (Inside o c) -> t_pcs (coarse s) !! i = Some (Testing o).
Proof. intros Hi. simpl. by rewrite list_lookup_fmap, Hi. Qed.

Lemma other_simulated q s a s' evs : agrees q s -> access_act (OtherStep a) s = Some (s', evs) ->
  agrees q s' /\ act a (saved q s) = Some (saved q s', evs).
Proof.
  intros Hag H. cbn [access_act] in H. destruct (is_evaluate a) eqn:He; [done|].
  destruct (act a (coarse s)) as [[v ev]|] eqn:Ha; [|done]. simpl in H. simplify_eq.
  assert (Hl : length (t_pcs v) = length (ac_pcs s)) by (rewrite (act_length _ _ _ _ Ha); simpl; by rewrite length_fmap).
  destruct (act_frame a q _ _ _ Ha He) as [Hf Hq]; [intros c; symmetry; apply (ag_conds _ _ Hag)|].
  split; [by eapply agrees_other|]. unfold saved at 1. rewrite Hf. unfold saved, coarse. simpl.
  rewrite keep_coarse; [done..|]. intros i o c Hi. eapply act_keeps_testing; [done..|]. by eapply coarse_inside.
Qed.

(** One step: nothing for QueueThreads.v, or one step of it. *)
Lemma access_simulated q s a s' evs : agrees q s -> sync_inv (saved q s) -> access_act a s = Some (s', evs) ->
  exists q', agrees q' s' /\
    (evs = [] /\ saved q' s' = saved q s \/
     exists b, (inside_action a = true -> is_evaluate b = true) /\ act b (saved q s) = Some (saved q' s', evs)).
Proof.
  intros Hag Hs H. destruct a as [a|i|i|i ck wt].
  - destruct (other_simulated _ _ _ _ _ Hag H). exists q. split; [done|]. right. by exists a.
  - cbn [access_act] in H. destruct (ac_pcs s !! i) as [[[]|]|] eqn:Hi; simplify_eq. exists q.
    split; [by apply agrees_enter|]. left. split; [done|]. exact (saved_put q i _ (Inside o (section o)) s (ac_queue s) Hi eq_refl).
  - cbn [access_act] in H. destruct (ac_pcs s !! i) as [[|o c]|] eqn:Hi; simplify_eq.
    destruct (access c (ac_queue s)) as [[m c']|] eqn:Ha; [|done]. simpl in H. simplify_eq. exists q.
    split; [by eapply agrees_access|]. left. split; [done|]. by eapply saved_put.
  - assert (Hi : exists o c, ac_pcs s !! i = Some (Inside o c)).
    { cbn [access_act] in H. destruct (ac_pcs s !! i) as [[]|]; try done. eauto. }
    destruct Hi as (o & c & Hi). destruct (decide_simulated _ _ _ _ _ _ _ _ _ Hag Hs Hi H) as [Hag' Hact].
    exists (ac_queue s'). split; [done|]. right. by exists (Evaluate i ck wt).
Qed.

Lemma accesses_simulated al : forall q s s' evs, agrees q s -> sync_inv (saved q s) ->
  run_accesses al s = Some (s', evs) -> exists q' bl, agrees q' s' /\ sync_inv (saved q' s') /\
    schedule bl (saved q s) = Some (saved q' s', evs).
Proof.
  induction al as [|a al IH]; intros q s s' evs Hag Hs H; simpl in H; [simplify_eq; by exists q, []|].
  destruct (access_act a s) as [[s1 ev]|] eqn:Ea; [|done]. simpl in H.
  destruct (run_accesses al s1) as [[s2 evs']|] eqn:Er; [|done]. simplify_eq/=.
  destruct (access_simulated _ _ _ _ _ Hag Hs Ea) as (q1 & Hag1 & [[-> Heq]|(b & _ & Hb)]).
  - rewrite <- Heq in Hs |- *. destruct (IH _ _ _ _ Hag1 Hs Er) as (q' & bl & ?). by exists q', bl.
  - assert (Hs1 : sync_inv (saved q1 s1)) by (by eapply sync_act).
    destruct (IH _ _ _ _ Hag1 Hs1 Er) as (q' & bl & Hag' & Hs' & Hb'). exists q', (b :: bl).
    split_and!; [done..|]. simpl. rewrite Hb. simpl. by rewrite Hb'.
Qed.

Lemma agrees_at_rest s f : accesses_at_rest s f ->
  saved (ac_queue s) s = coarse s /\ agrees (ac_queue s) s /\ sync_inv (coarse s).
Proof.
  intros [Hn Hr]. split_and!; [by destruct s|split; [done| |done]|by eapply sync_at_rest].
  intros i o c Hi. by apply Hn in Hi.
Qed.

(** C13. Linearizability, with the critical sections run one memory access at a time.
    Any number of threads load and store the fields of one queue in memory, in any
    interleaving, with every choice of the thread a signal wakes, spurious wake-ups,
    time-outs and failing pthread calls; only the mutex keeps them apart.  Whoever is in a
    critical section owns it, so at most one thread is.  The queue answers as the bounded
    FIFO does: each call takes effect once, between its invocation and its return, and
    returns the answer the FIFO gives when the calls run one after the other in that
    order; whenever no section is in progress, the memory is a ring that holds the
    FIFO. *)
Theorem accesses_linearizable s f al s' evs : accesses_at_rest s f -> run_accesses al s = Some (s', evs) ->
  (forall i o c, ac_pcs s' !! i = Some (Inside o c) -> ac_owner s' = Some i) /\
  fst (run fifo_step (committed evs) f) = answers evs /\
  (nobody_inside (ac_pcs s') -> implements (ac_queue s') (snd (run fifo_step (committed evs) f))) /\
  forall i, history i Outside evs (phase_of (pc_of i (coarse s'))).
Proof.
  intros Hr H. destruct (agrees_at_rest _ _ Hr) as (Heq & Hag & Hs). rewrite <- Heq in Hs.
  destruct (accesses_simulated _ _ _ _ _ Hag Hs H) as (q' & bl & Hag' & Hs' & Hb). rewrite Heq in Hb.
  destruct Hr as [_ Hr]. pose proof (schedule_run _ _ _ _ Hb) as Hrun.
  destruct (run_implements (committed evs) _ _ (ar_queue _ _ Hr)) as [Ha Hi]. rewrite Hrun in Ha, Hi.
  split_and!.
  - intros i o c Hin. by eapply (inside_owner q' s').
  - done.
  - intros Hn. by rewrite (ag_outside _ _ Hag' Hn).
  - intros i. rewrite <- (phase_at_rest _ f i Hr). exact (schedule_history _ _ _ _ Hb i).
Qed.

(** ** Examples *)

(** Two threads and an empty queue of two slots. *)
Definition two_slots : connection_queue_t :=
  set_sync true true true
    {| q_block := Some 0%nat; q_items := [Some 0%nat; Some 0%nat]; q_capacity := 2; q_head := 0; q_tail := 0;
       q_count := 0; q_shutting_down := false; q_mutex_initialized := false;
       q_not_empty_initialized := false; q_not_full_initialized := false |}.

(** Without the mutex the accesses do interfere: from a state in which two pushes are
    in their sections at once, both answer OK and one connection is lost. *)
Example lost_update :
  match run_accesses
    (replicate 9 (Access 0) ++ replicate 9 (Access 1) ++ [Access 0; Access 1; Decide 0 true true; Decide 1 true true])
    (Accesses two_slots None false [Inside (OpPush 7) (push_section 7); Inside (OpPush 8) (push_section 8)])
  with
  | Some (s, evs) => answers evs = replicate 2 (Pushed CONNECTION_QUEUE_OK) /\ q_count (ac_queue s) = 1%nat
  | None => False
  end.
Proof. by vm_compute. Qed.

Definition idle_accesses : accesses := Accesses two_slots None false [At Idle; At Idle; At Idle].

Lemma idle_at_rest : accesses_at_rest idle_accesses (Fifo 2 [] false).
Proof.
  split; [by intros [|[|[|i]]] o c|]. split; [|by intros []|done|by repeat constructor].
  split_and!; try done. split; simpl; try lia; done.
Qed.

(** A push is in the middle of its section, another one waits for the mutex, and the
    consumer, asleep, wakes on its own. *)
Definition access_schedule : list access_action :=
  [OtherStep (Call 2 OpPop); OtherStep (Lock 2 true); Enter 2; Access 2; Access 2; Decide 2 true true;
   OtherStep (Call 0 (OpPush 7)); OtherStep (Call 1 (OpPush 8)); OtherStep (Lock 0 true); Enter 0;
   Access 0; Access 0; Access 0; Access 0; Access 0; OtherStep (WakeUp 2); Access 0; Access 0; Access 0;
   Access 0; Access 0; Decide 0 true true; OtherStep (Signal 0 None); OtherStep (Unlock 0);
   OtherStep (Leave 0); OtherStep (Relock 2); Enter 2; Access 2; Access 2; Access 2; Access 2; Access 2].

Lemma accesses_linearizable_witness : exists s' evs o c,
  run_accesses access_schedule idle_accesses = Some (s', evs) /\
  ac_pcs s' !! 2%nat = Some (Inside o c) /\ ac_owner s' = Some 2%nat /\
  answers evs = [Pushed CONNECTION_QUEUE_OK] /\ history 0 Outside evs Outside.
Proof.
  destruct (run_accesses access_schedule idle_accesses) as [[s' evs]|] eqn:E; [|by vm_compute in E].
  pose proof (accesses_linearizable _ _ _ _ _ idle_at_rest E) as (Ho & Ha & Hi & Hh).
  specialize (Hh 0%nat). specialize (Ho 2%nat). vm_compute in E. injection E as <- <-.
  eexists _, _, _, _. split; [done|]. split; [done|]. split; [by eapply Ho|]. split; [done|exact Hh].
Defined.
