(* ===== verification/StaticFiles.v ===== *)
(** * Static files: static_files.h and static_files.c

    From a request target to an open file: path extraction, percent-decoding,
    normalization, resolution under the document root, and the response.  The
    file system calls are an interface, [FileSystem]; nothing is assumed about
    how [stat], [open] and [fstat] agree, so a file may change between them. *)
From S2P Require Import Prelude CLib Proc Request World Response Mime Config.

Inductive static_file_result_t :=
| STATIC_FILE_OK
| STATIC_FILE_NOT_FOUND
| STATIC_FILE_FORBIDDEN
| STATIC_FILE_BAD_TARGET
| STATIC_FILE_TOO_LARGE
| STATIC_FILE_IO_ERROR
| STATIC_FILE_OUT_OF_MEMORY.

#[global] Instance static_file_result_eq_dec : EqDecision static_file_result_t.
Proof. solve_decision. Defined.

(** ** The file system *)

Inductive file_kind := KindRegular | KindDirectory | KindOther.

#[global] Instance file_kind_eq_dec : EqDecision file_kind.
Proof. solve_decision. Defined.

(** [st_mode] and [st_size]. *)
Record file_stat := Stat { st_kind : file_kind; st_size : Z }.

(** What [realpath], [stat], [open] and then [fstat] answer for a path. *)
Class FileSystem := {
  fs_realpath : list byte -> errno + list byte;
  fs_stat : list byte -> errno + file_stat;
  fs_open : list byte -> option errno;
  fs_fstat : list byte -> errno + file_stat;
}.

(** [open(path, O_RDONLY | O_CLOEXEC)]. *)
Definition open_file `{FileSystem} (path : list byte) : M proc (errno + nat) :=
  match fs_open path with
  | Some e => mret (inl e)
  | None => fd ← fd_open; mret (inr fd)
  end.

(** ** Paths *)

Definition is_hex (c : byte) : bool :=
  in_range "0" "9" c || in_range "a" "f" c || in_range "A" "F" c.

Definition hex_value (c : byte) : Z :=
  if in_range "0" "9" c then bz c - bz "0"
  else if in_range "a" "f" c then bz c - bz "a" + 10
  else if in_range "A" "F" c then bz c - bz "A" + 10
  else -1.

(** A byte of the path portion: not the start of a query or a fragment. *)
Definition in_path (c : byte) : bool := negb ((c =?b "?") || (c =?b "#")).

Definition path_portion (target : option (list byte)) : static_file_result_t + list byte :=
  match target with
  | None | Some [] => inl STATIC_FILE_BAD_TARGET
  | Some ((c :: _) as target) =>
      if negb (c =?b "/") then inl STATIC_FILE_BAD_TARGET
      else inr (fst (span in_path target))
  end.

Definition static_files_extract_path (request_target : option (list byte))
  : M proc (static_file_result_t * option cstr) :=
  match path_portion request_target with
  | inl rc => mret (rc, None)
  | inr path =>
      copy ← alloc_str path;
      match copy with
      | None => mret (STATIC_FILE_OUT_OF_MEMORY, None)
      | Some _ => mret (STATIC_FILE_OK, copy)
      end
  end.

(** [(unsigned char)((hi << 4) | lo)]. *)
Definition byte_of_hex (hi lo : Z) : byte :=
  match Byte.of_N (Z.to_N (Z.lor (Z.shiftl hi 4) lo mod 256)) with Some b => b | None => NUL end.

(** The decoding loop: [None] for a malformed escape or an encoded NUL. *)
Fixpoint url_decode_loop (input : list byte) : option (list byte) :=
  match input with
  | [] => Some []
  | c :: rest =>
      if c =?b "%" then
        match rest with
        | h :: l :: rest' =>
            if is_hex h && is_hex l then
              let decoded := byte_of_hex (hex_value h) (hex_value l) in
              if decoded =?b NUL then None
              else (fun out => decoded :: out) <$> url_decode_loop rest'
            else None
        | _ => None
        end
      else (fun out => c :: out) <$> url_decode_loop rest
  end.

Definition static_files_url_decode (input : option (list byte))
  : M proc (static_file_result_t * option cstr) :=
  match input with
  | None => mret (STATIC_FILE_BAD_TARGET, None)
  | Some input =>
      out ← malloc;
      match out with
      | None => mret (STATIC_FILE_OUT_OF_MEMORY, None)
      | Some b =>
          match url_decode_loop input with
          | None => free (Some b);; mret (STATIC_FILE_BAD_TARGET, None)
          | Some decoded => mret (STATIC_FILE_OK, Some (CStr (Some b) decoded))
          end
      end
  end.

(** ** Normalization *)

(** The stack of segments: the array, its capacity, and the segments, the last
    one first. *)
Record seg_stack := SegStack {
  ss_array : option nat;
  ss_capacity : nat;
  ss_segs : list cstr;
}.

Fixpoint free_segments (segs : list cstr) : M proc () :=
  match segs with
  | [] => mret ()
  | s :: segs => free_str (Some s);; free_segments segs
  end.

(** Giving up: every segment (in array order) and the array are freed. *)
Definition drop_stack (st : seg_stack) : M proc () :=
  free_segments (rev (ss_segs st));; free (ss_array st).

Definition push_segment (seg : list byte) (st : seg_stack)
  : M proc (static_file_result_t + seg_stack) :=
  grown ← (if (length (ss_segs st) =? ss_capacity st)%nat then
             let new_cap := if (ss_capacity st =? 0)%nat then 8%nat else (ss_capacity st * 2)%nat in
             arr ← realloc (ss_array st);
             match arr with
             | None => drop_stack st;; mret None
             | Some b => mret (Some (SegStack (Some b) new_cap (ss_segs st)))
             end
           else mret (Some st));
  match grown with
  | None => mret (inl STATIC_FILE_OUT_OF_MEMORY)
  | Some st =>
      copy ← alloc_str seg;
      match copy with
      | None => drop_stack st;; mret (inl STATIC_FILE_OUT_OF_MEMORY)
      | Some c => mret (inr (SegStack (ss_array st) (ss_capacity st) (c :: ss_segs st)))
      end
  end.

Definition not_slash (c : byte) : bool := negb (c =?b "/").

(** The [while] over the segments; every round consumes at least one byte. *)
Fixpoint normalize_loop (fuel : nat) (p : list byte) (st : seg_stack)
  : M proc (static_file_result_t + seg_stack) :=
  match fuel with
  | O => no_return
  | S fuel =>
      match p with
      | [] => mret (inr st)
      | _ =>
          let '(seg, rest) := span not_slash p in
          let next := match rest with _ :: rest' => rest' | [] => [] end in
          if bool_decide (seg = []) then normalize_loop fuel next st
          else if bool_decide (seg = lit ".") then normalize_loop fuel next st
          else if bool_decide (seg = lit "..") then
            match ss_segs st with
            | [] => drop_stack st;; mret (inl STATIC_FILE_FORBIDDEN)
            | s :: segs =>
                free_str (Some s);;
                normalize_loop fuel next (SegStack (ss_array st) (ss_capacity st) segs)
            end
          else
            pushed ← push_segment seg st;
            match pushed with
            | inl rc => mret (inl rc)
            | inr st => normalize_loop fuel next st
            end
      end
  end.

(** Segments joined by slashes. *)
Fixpoint join_slash (segs : list (list byte)) : list byte :=
  match segs with
  | [] => []
  | [s] => s
  | s :: segs => s ++ ("/"%byte) :: join_slash segs
  end.

Definition static_files_normalize_path (decoded_path : option (list byte))
  : M proc (static_file_result_t * option cstr) :=
  match decoded_path with
  | Some (c :: p) =>
      if negb (c =?b "/") then mret (STATIC_FILE_BAD_TARGET, None)
      else
        looped ← normalize_loop (S (length p)) p (SegStack None 0 []);
        match looped with
        | inl rc => mret (rc, None)
        | inr st =>
            relative ← alloc_str (join_slash (map cs_string (rev (ss_segs st))));
            match relative with
            | None => drop_stack st;; mret (STATIC_FILE_OUT_OF_MEMORY, None)
            | Some _ => drop_stack st;; mret (STATIC_FILE_OK, relative)
            end
        end
  | _ => mret (STATIC_FILE_BAD_TARGET, None)
  end.

(** ** Resolution under the document root *)

Definition path_is_within_root (path root : list byte) : bool :=
  if (length path <? length root)%nat then false
  else if negb (has_prefix root path) then false
  else if (length path =? length root)%nat then true
  else match path !! length root with Some c => c =?b "/" | None => false end.

(** [snprintf] into an array of PATH_MAX bytes; [None] when it does not fit. *)
Definition path_buffer (s : list byte) : option (list byte) :=
  if PATH_MAX <=? zlen s then None else Some s.

Definition join_root_relative (root relative : list byte) : static_file_result_t + list byte :=
  match path_buffer (match relative with [] => root | _ => root ++ ("/"%byte) :: relative end) with
  | None => inl STATIC_FILE_BAD_TARGET
  | Some joined => inr joined
  end.

Section serve.
  Context `{FileSystem}.

(** The outputs of [resolve_under_root]: the copy of the canonical path, the
    size, and whether it is a directory. *)
Record resolved_path := Resolved { rp_path : option cstr; rp_size : Z; rp_is_dir : bool }.

Definition unresolved : resolved_path := Resolved None 0 false.

(** The checks on what [stat] reported: [inr] the size and the directory flag. *)
Definition classify_stat (st : file_stat) : static_file_result_t + (Z * bool) :=
  match st_kind st with
  | KindDirectory => inr (0, true)
  | KindOther => inl STATIC_FILE_FORBIDDEN
  | KindRegular =>
      if st_size st <? 0 then inl STATIC_FILE_IO_ERROR
      else if HTTP_MAX_STATIC_FILE_SIZE <? st_size st then inl STATIC_FILE_TOO_LARGE
      else if SIZE_MAX <? st_size st then inl STATIC_FILE_TOO_LARGE
      else inr (st_size st, false)
  end.

Definition resolve_under_root (canonical_root relative : list byte)
  : M proc (static_file_result_t * resolved_path) :=
  match join_root_relative canonical_root relative with
  | inl rc => mret (rc, unresolved)
  | inr joined =>
      match fs_realpath joined with
      | inl ENOENT => mret (STATIC_FILE_NOT_FOUND, unresolved)
      | inl EACCES => mret (STATIC_FILE_FORBIDDEN, unresolved)
      | inl _ => mret (STATIC_FILE_NOT_FOUND, unresolved)
      | inr resolved =>
          if negb (path_is_within_root resolved canonical_root)
          then mret (STATIC_FILE_FORBIDDEN, unresolved)
          else
            match fs_stat resolved with
            | inl ENOENT => mret (STATIC_FILE_NOT_FOUND, unresolved)
            | inl EACCES => mret (STATIC_FILE_FORBIDDEN, unresolved)
            | inl _ => mret (STATIC_FILE_IO_ERROR, unresolved)
            | inr st =>
                match classify_stat st with
                | inl rc => mret (rc, unresolved)
                | inr (size, is_dir) =>
                    copy ← alloc_str resolved;
                    match copy with
                    | None => mret (STATIC_FILE_OUT_OF_MEMORY, Resolved None size is_dir)
                    | Some _ => mret (STATIC_FILE_OK, Resolved copy size is_dir)
                    end
                end
            end
      end
  end.

Definition try_index (canonical_root dir_relative : list byte)
  : M proc (static_file_result_t * resolved_path) :=
  match path_buffer (match dir_relative with
                     | [] => lit "index.html"
                     | _ => dir_relative ++ lit "/index.html"
                     end) with
  | None => mret (STATIC_FILE_BAD_TARGET, unresolved)
  | Some index_rel =>
      '(rc, rp) ← resolve_under_root canonical_root index_rel;
      if bool_decide (rc = STATIC_FILE_OK) && rp_is_dir rp then
        free_str (rp_path rp);;
        mret (STATIC_FILE_FORBIDDEN, Resolved None (rp_size rp) true)
      else mret (rc, rp)
  end.

(** ** The response *)

(** Closing the descriptor and emptying the response on an error. *)
Definition fill_fail (rc : static_file_result_t) (fd : nat) (response : http_response_t)
  : M proc (static_file_result_t * http_response_t) :=
  close fd;;
  response ← http_response_destroy response;
  mret (rc, response).

Definition fill_file_response (response : http_response_t) (fs_path : list byte)
  : M proc (static_file_result_t * http_response_t) :=
  response ← http_response_destroy response;
  let response := http_response_set_status 200 response in
  let mime := mime_type_from_path (Some fs_path) in
  '(ok, response) ← http_response_add_header response (lit "Content-Type") mime;
  if negb ok then mret (STATIC_FILE_OUT_OF_MEMORY, response)
  else
    opened ← open_file fs_path;
    match opened with
    | inl e =>
        response ← http_response_destroy response;
        mret (match e with
              | EACCES => STATIC_FILE_FORBIDDEN
              | ENOENT => STATIC_FILE_NOT_FOUND
              | _ => STATIC_FILE_IO_ERROR
              end, response)
    | inr fd =>
        match fs_fstat fs_path with
        | inl _ => fill_fail STATIC_FILE_IO_ERROR fd response
        | inr st =>
            if negb (bool_decide (st_kind st = KindRegular))
            then fill_fail STATIC_FILE_FORBIDDEN fd response
            else if st_size st <? 0 then fill_fail STATIC_FILE_IO_ERROR fd response
            else if HTTP_MAX_STATIC_FILE_SIZE <? st_size st
            then fill_fail STATIC_FILE_TOO_LARGE fd response
            else if SIZE_MAX <? st_size st then fill_fail STATIC_FILE_TOO_LARGE fd response
            else
              '(ok, response) ← http_response_set_file_body response (Some fd) (st_size st);
              if negb ok then fill_fail STATIC_FILE_OUT_OF_MEMORY fd response
              else mret (STATIC_FILE_OK, response)
        end
    end.

(** The part of [static_files_serve] that has the relative path: the root, the
    resolution and the index file.  The result carries [resolved]. *)
Definition locate_file (document_root relative : list byte)
  : M proc (static_file_result_t * option cstr) :=
  match fs_realpath document_root with
  | inl _ => mret (STATIC_FILE_IO_ERROR, None)
  | inr canonical_root =>
      match fs_stat canonical_root with
      | inl _ => mret (STATIC_FILE_IO_ERROR, None)
      | inr root_st =>
          if negb (bool_decide (st_kind root_st = KindDirectory))
          then mret (STATIC_FILE_IO_ERROR, None)
          else
            '(rc, rp) ← resolve_under_root canonical_root relative;
            if bool_decide (rc = STATIC_FILE_OK) && rp_is_dir rp then
              free_str (rp_path rp);;
              '(rc, rp) ← try_index canonical_root relative;
              mret (if bool_decide (rc = STATIC_FILE_NOT_FOUND) then STATIC_FILE_FORBIDDEN else rc,
                    rp_path rp)
            else mret (rc, rp_path rp)
      end
  end.

(** The exit at [done]: the four strings are freed. *)
Definition serve_done (result : static_file_result_t) (response : http_response_t)
    (path_only decoded relative resolved : option cstr)
  : M proc (static_file_result_t * http_response_t) :=
  free_str path_only;;
  free_str decoded;;
  free_str relative;;
  free_str resolved;;
  mret (result, response).

Definition static_files_serve (document_root : list byte) (target : option (list byte))
    (response : http_response_t) : M proc (static_file_result_t * http_response_t) :=
  match target with
  | None => mret (STATIC_FILE_BAD_TARGET, response)
  | Some _ =>
      response ← http_response_destroy response;
      '(result, path_only) ← static_files_extract_path target;
      if negb (bool_decide (result = STATIC_FILE_OK))
      then serve_done result response path_only None None None
      else
        '(result, decoded) ← static_files_url_decode (cs_string <$> path_only);
        if negb (bool_decide (result = STATIC_FILE_OK))
        then serve_done result response path_only decoded None None
        else
          '(result, relative) ← static_files_normalize_path (cs_string <$> decoded);
          if negb (bool_decide (result = STATIC_FILE_OK))
          then serve_done result response path_only decoded relative None
          else
            match relative with
            | None => fault
            | Some rel =>
                '(result, resolved) ← locate_file document_root (cs_string rel);
                if negb (bool_decide (result = STATIC_FILE_OK))
                then serve_done result response path_only decoded relative resolved
                else
                  match resolved with
                  | None => fault
                  | Some path =>
                      '(result, response) ← fill_file_response response (cs_string path);
                      if negb (bool_decide (result = STATIC_FILE_OK)) then
                        response ← http_response_destroy response;
                        serve_done result response path_only decoded relative resolved
                      else serve_done result response path_only decoded relative resolved
                  end
            end
  end.

(** The HTML page of an error. *)
Definition error_page (status_code : Z) (heading : list byte) : list byte :=
  lit "<!doctype html>" ++ [LF] ++
  lit "<html><head><title>" ++ fmt_int status_code ++ [SP] ++ heading ++
  lit "</title></head><body><h1>" ++ fmt_int status_code ++ [SP] ++ heading ++
  lit "</h1></body></html>" ++ [LF].

(** The result [true] stands for 0. *)
Definition static_files_build_error (response : http_response_t) (status_code : Z)
    (heading : option (list byte)) : M proc (bool * http_response_t) :=
  match heading with
  | None => mret (false, response)
  | Some heading =>
      let body := error_page status_code heading in
      if 512 <=? zlen body then mret (false, response)
      else
        response ← http_response_destroy response;
        let response := http_response_set_status status_code response in
        '(ok, response) ← http_response_set_body_text response (Some body);
        if negb ok then mret (false, response)
        else http_response_add_header response (lit "Content-Type") (lit "text/html; charset=utf-8")
  end.

Definition static_files_build_not_found (document_root : option (list byte))
    (response : http_response_t) : M proc (bool * http_response_t) :=
  match document_root with
  | None => static_files_build_error response 404 (Some (lit "Not Found"))
  | Some root =>
      '(rc, page) ← static_files_serve root (Some (lit "/404.html")) http_response_init;
      if bool_decide (rc = STATIC_FILE_OK) then
        http_response_destroy response;;
        mret (true, http_response_set_status 404 page)
      else
        http_response_destroy page;;
        static_files_build_error response 404 (Some (lit "Not Found"))
  end.
End serve.
