(* ===== verification/StaticPaths.v ===== *)
(** * Correctness of the path functions of static_files.c

    Percent-decoding inverts encoding and never produces NUL; normalization
    computes the resolution of dot segments, frees everything it allocates and
    lets no dot segment through; the containment test is a component prefix. *)
From S2P Require Import Prelude CLib Proc Request World Response Mime Config StaticFiles.

(** ** Percent-decoding *)

Definition hex_digit (z : Z) : byte :=
  if z <? 10 then digit_char z
  else match Byte.of_N (Z.to_N (55 + z)) with Some b => b | None => NUL end.

(** A byte written as an escape. *)
Definition percent (c : byte) : list byte := ["%"%byte; hex_digit (bz c / 16); hex_digit (bz c mod 16)].

(** Encoding with any choice of bytes left as they are. *)
Definition url_encode (keep : byte -> bool) (s : list byte) : list byte :=
  concat (map (fun c => if keep c && negb (c =?b "%") then [c] else percent c) s).

Lemma percent_byte c :
  is_hex (hex_digit (bz c / 16)) = true /\ is_hex (hex_digit (bz c mod 16)) = true /\
  byte_of_hex (hex_value (hex_digit (bz c / 16))) (hex_value (hex_digit (bz c mod 16))) = c.
Proof. destruct c; vm_compute; auto. Qed.

Lemma url_decode_encode keep s : NUL ∉ s -> url_decode_loop (url_encode keep s) = Some s.
Proof.
  induction s as [|c s IH]; intros Hn; [done|]. unfold url_encode in *. simpl.
  assert (Hc : (c =?b NUL) = false) by (apply eqb_neq_byte; set_solver).
  rewrite not_elem_of_cons in Hn. destruct Hn as [_ Hn].
  destruct (keep c && negb (c =?b "%")) eqn:E; simpl.
  - apply andb_true_iff in E as [_ E%negb_true_iff]. rewrite E, IH by done. done.
  - destruct (percent_byte c) as (Hh & Hl & Hb). rewrite Hh, Hl, Hb. simpl. rewrite Hc, IH by done. done.
Qed.

Lemma url_decode_no_nul : forall n input out, (length input <= n)%nat -> NUL ∉ input ->
  url_decode_loop input = Some out -> (NUL ∉ out) /\ (length out <= length input)%nat.
Proof.
  induction n as [|n IH]; intros input out Hl Hn Hd.
  { destruct input; [|simpl in Hl; lia]. simplify_eq/=. split; [set_solver|done]. }
  destruct input as [|c rest]; [simplify_eq/=; split; [set_solver|done]|].
  rewrite not_elem_of_cons in Hn. destruct Hn as [Hc Hn]. simpl in Hl. cbn [url_decode_loop] in Hd.
  destruct (c =?b "%").
  - destruct rest as [|h [|l rest']]; try done. destruct (is_hex h && is_hex l); [|done].
    destruct (byte_of_hex _ _ =?b NUL) eqn:En; [done|]. apply fmap_Some in Hd as (o & Ho & ->).
    apply eqb_neq_byte in En. simpl in Hl.
    apply IH in Ho as [? ?]; [|lia|set_solver]. split; [set_solver|simpl; lia].
  - apply fmap_Some in Hd as (o & Ho & ->). apply IH in Ho as [? ?]; [|lia|done].
    split; [set_solver|simpl; lia].
Qed.

(** C27. Decoding inverts encoding, whichever bytes the client chose to escape; the
    decoded path has no NUL and fits the buffer sized by the input, so nothing
    is hidden from the checks that follow. *)
Theorem url_decode_round_trip keep s input :
  NUL ∉ s -> NUL ∉ input ->
  url_decode_loop (url_encode keep s) = Some s /\
  forall out, url_decode_loop input = Some out -> (NUL ∉ out) /\ (length out <= length input)%nat.
Proof.
  intros Hs Hi. split; [by apply url_decode_encode|]. intros out. by apply (url_decode_no_nul (length input)).
Qed.

Lemma url_decode_round_trip_witness :
  url_decode_loop (url_encode (fun c => c =?b "a") (lit "/a b%")) = Some (lit "/a b%") /\
  forall out, url_decode_loop (lit "/%2e%2E/%252e") = Some out ->
    (NUL ∉ out) /\ (length out <= length (lit "/%2e%2E/%252e"))%nat.
Proof. apply url_decode_round_trip; by apply (bool_decide_unpack _). Defined.

(** Decoding is done once: an escaped percent sign stays in the path. *)
Example decode_once : url_decode_loop (lit "/%2e%2E/%252e") = Some (lit "/../%2e").
Proof. vm_compute. reflexivity. Qed.

Lemma wp_extract_path target p :
  wp (static_files_extract_path target) (fun '(rc, out) p' => heap_only p p' /\
    p_live p' = p_live p ⊎ blk_str out /\ owned_str out /\
    match path_portion target with
    | inl e => rc = e /\ out = None /\ rc <> STATIC_FILE_OK
    | inr path =>
        rc = STATIC_FILE_OK /\ cs_bytes <$> out = Some path \/
        rc = STATIC_FILE_OUT_OF_MEMORY /\ out = None /\ alloc_failed p p'
    end) p.
Proof.
  unfold static_files_extract_path. destruct (path_portion target) as [e|path] eqn:Ep.
  - apply wp_ret. split_and!; [reflexivity|simpl; multiset_solver|done|done|done|].
    unfold path_portion in Ep. repeat case_match; by simplify_eq.
  - apply wp_bind. eapply wp_mono; [apply wp_alloc_str|].
    intros [c|] p' (Hho & Hl & Ho & Hc); apply wp_ret; split_and!; auto. left. simpl. by rewrite Hc.
Qed.

Lemma wp_url_decode input p :
  wp (static_files_url_decode (Some input)) (fun '(rc, out) p' => heap_only p p' /\
    p_live p' = p_live p ⊎ blk_str out /\ owned_str out /\
    (rc = STATIC_FILE_OUT_OF_MEMORY /\ out = None /\ alloc_failed p p' \/
     match url_decode_loop input with
     | None => rc = STATIC_FILE_BAD_TARGET /\ out = None
     | Some d => rc = STATIC_FILE_OK /\ cs_bytes <$> out = Some d
     end)) p.
Proof.
  unfold static_files_url_decode. apply wp_bind. eapply wp_mono; [apply wp_malloc|].
  intros [b|] p1 (Hho & Hl & Hf); simpl in Hl.
  2: { apply wp_ret. split_and!; [done|simpl; multiset_solver|done|]. left. auto. }
  destruct (url_decode_loop input) as [d|].
  - apply wp_ret. split_and!; [done|done|simpl; eauto|]. by right.
  - apply wp_bind. eapply wp_mono; [apply (wp_free (Some b)); simpl; multiset_solver|].
    intros _ p2 [Hho2 Hl2]. apply wp_ret.
    split_and!; [by etrans|simpl in *; multiset_solver|done|]. by right.
Qed.

(** ** Normalization *)

(** Resolution of dot segments on a stack; [None] when it would leave the root. *)
Fixpoint resolve (segs stack : list (list byte)) : option (list (list byte)) :=
  match segs with
  | [] => Some stack
  | s :: segs =>
      if bool_decide (s = []) || bool_decide (s = lit ".") then resolve segs stack
      else if bool_decide (s = lit "..") then
        match stack with [] => None | _ :: stack' => resolve segs stack' end
      else resolve segs (s :: stack)
  end.

(** The components of the path below the root that [p] (after its leading slash)
    names. *)
Definition components (p : list byte) : option (list (list byte)) :=
  (fun stack => rev stack) <$> resolve (split_on not_slash p) [].

Definition blk_segs (segs : list cstr) : gmultiset nat :=
  foldr (fun s acc => blk_str (Some s) ⊎ acc) ∅ segs.

Definition blk_stack (st : seg_stack) : gmultiset nat := blk (ss_array st) ⊎ blk_segs (ss_segs st).

Definition owned_segs (segs : list cstr) : Prop :=
  Forall (fun s => is_Some (cs_block s)) segs.

Lemma blk_segs_app l k : blk_segs (l ++ k) = blk_segs l ⊎ blk_segs k.
Proof. induction l; simpl; multiset_solver. Qed.

Lemma blk_segs_rev l : blk_segs (rev l) = blk_segs l.
Proof. induction l as [|s l IH]; simpl; [done|]. rewrite blk_segs_app, IH. simpl. multiset_solver. Qed.

Lemma wp_free_segments segs : forall p, owned_segs segs -> blk_segs segs ⊆ p_live p ->
  wp (free_segments segs) (fun _ p' => heap_only p p' /\ p_live p = p_live p' ⊎ blk_segs segs) p.
Proof.
  induction segs as [|s segs IH]; intros p Ho Hin; simpl in *.
  { apply wp_ret. split; [reflexivity|multiset_solver]. }
  apply Forall_cons_1 in Ho as [Hs Ho].
  apply (wp_free_then (Some s)); [done|simpl; multiset_solver|]. intros p1 Hho1 Hl1. simpl in Hl1.
  eapply wp_mono; [apply IH; [done|multiset_solver]|]. intros _ p2 [Hho2 Hl2].
  split; [by etrans|multiset_solver].
Qed.

Lemma wp_drop_stack st p : owned_segs (ss_segs st) -> blk_stack st ⊆ p_live p ->
  wp (drop_stack st) (fun _ p' => heap_only p p' /\ p_live p = p_live p' ⊎ blk_stack st) p.
Proof.
  intros Ho Hin. unfold drop_stack, blk_stack in *. apply wp_bind.
  eapply wp_mono; [apply wp_free_segments|].
  { by apply Forall_rev. } { rewrite blk_segs_rev. multiset_solver. }
  intros _ p1 [Hho1 Hl1]. rewrite blk_segs_rev in Hl1.
  eapply wp_mono; [apply wp_free; multiset_solver|]. intros _ p2 [Hho2 Hl2].
  split; [by etrans|multiset_solver].
Qed.

(** From the stack [st] the blocks became those of [st'], or were all freed. *)
Definition stack_step (p p' : proc) (st : seg_stack) (st' : option seg_stack) : Prop :=
  heap_only p p' /\
  p_live p' ⊎ blk_stack st = p_live p ⊎ match st' with Some s => blk_stack s | None => ∅ end.

Lemma wp_drop_stop {A} st (res : A) (Q : A -> proc -> Prop) p :
  owned_segs (ss_segs st) -> blk_stack st ⊆ p_live p ->
  (forall p', heap_only p p' -> p_live p = p_live p' ⊎ blk_stack st -> Q res p') ->
  wp (drop_stack st;; mret res) Q p.
Proof.
  intros Ho Hin HQ. apply wp_bind. eapply wp_mono; [by apply wp_drop_stack|].
  intros _ p' [? ?]. apply wp_ret. auto.
Qed.

Lemma wp_push_segment seg st p : owned_segs (ss_segs st) -> blk_stack st ⊆ p_live p ->
  wp (push_segment seg st) (fun res p' =>
    match res with
    | inl rc => stack_step p p' st None /\ rc = STATIC_FILE_OUT_OF_MEMORY /\ alloc_failed p p'
    | inr st' => stack_step p p' st (Some st') /\ owned_segs (ss_segs st') /\
        exists c, ss_segs st' = c :: ss_segs st /\ cs_bytes c = seg
    end) p.
Proof.
  intros Ho Hin. unfold push_segment. apply wp_bind.
  apply wp_mono with (Q := fun res p1 =>
    match res with
    | None => stack_step p p1 st None /\ alloc_failed p p1
    | Some st1 => stack_step p p1 st (Some st1) /\ ss_segs st1 = ss_segs st
    end).
  { destruct (length (ss_segs st) =? ss_capacity st)%nat.
    - apply wp_bind. unfold blk_stack in Hin.
      eapply wp_mono; [apply wp_realloc; multiset_solver|]. intros [b|] p1 [Hho1 Hl1].
      + apply wp_ret. split; [|done]. split; [done|]. unfold blk_stack. simpl in *. multiset_solver.
      + destruct Hl1 as [Hl1 Hf1]. apply wp_drop_stop; [done|rewrite Hl1; done|].
        intros p2 Hho2 Hl2. split; [split; [by etrans|multiset_solver]|]. by eapply alloc_failed_l.
    - apply wp_ret. split; [|done]. split; [reflexivity|done]. }
  intros [st1|] p1 Hs; [|by apply wp_ret; destruct Hs]. destruct Hs as [[Hho1 Hl1] Hsegs].
  apply wp_alloc_then.
  - intros p2 Hho2 Hl2 Hf2. apply wp_drop_stop; [by rewrite Hsegs|rewrite Hl2; multiset_solver|].
    intros p3 Hho3 Hl3. split; [split; [by repeat (etrans; [done|])|multiset_solver]|].
    split; [done|]. eapply alloc_failed_r; [done|]. by eapply alloc_failed_l.
  - intros b p2 Hho2 Hl2. apply wp_ret. split; [split; [by etrans|]|split].
    + unfold blk_stack in *. simpl. rewrite Hsegs in *. simpl. multiset_solver.
    + simpl. rewrite Hsegs. constructor; [simpl; eauto|done].
    + eexists. split; [simpl; by rewrite Hsegs|done].
Qed.

(** What the loop promises, on every path. *)
Definition loop_post (p : proc) (st : seg_stack) (path : list byte)
    (res : static_file_result_t + seg_stack) (p' : proc) : Prop :=
  match res with
  | inl rc => stack_step p p' st None /\
      (rc = STATIC_FILE_FORBIDDEN /\
         resolve (split_on not_slash path) (map cs_bytes (ss_segs st)) = None \/
       rc = STATIC_FILE_OUT_OF_MEMORY /\ alloc_failed p p')
  | inr st' => stack_step p p' st (Some st') /\ owned_segs (ss_segs st') /\
      resolve (split_on not_slash path) (map cs_bytes (ss_segs st)) =
        Some (map cs_bytes (ss_segs st'))
  end.

Lemma loop_post_step p p1 st st1 path path1 res p' :
  stack_step p p1 st (Some st1) ->
  resolve (split_on not_slash path) (map cs_bytes (ss_segs st)) =
    resolve (split_on not_slash path1) (map cs_bytes (ss_segs st1)) ->
  loop_post p1 st1 path1 res p' -> loop_post p st path res p'.
Proof.
  intros [Hho Hl] Hr. unfold loop_post. rewrite Hr. destruct res as [rc|st'].
  - intros [[Hho2 Hl2] H]. split; [split; [by etrans|multiset_solver]|].
    destruct H as [?|[? ?]]; [by left|right]. split; [done|]. by eapply alloc_failed_r.
  - intros ([Hho2 Hl2] & Ho & H). split_and!; [split; [by etrans|multiset_solver]|done|done].
Qed.

(** The last segment may or may not be followed by an empty one. *)
Lemma resolve_trailing r rest stack :
  resolve (match rest with [] => [r] | _ :: rest' => r :: split_on not_slash rest' end) stack =
  resolve (r :: split_on not_slash (match rest with _ :: rest' => rest' | [] => [] end)) stack.
Proof.
  destruct rest as [|x rest]; [|done]. simpl.
  destruct (bool_decide (r = []) || _); [done|]. destruct (bool_decide _); [by destruct stack|done].
Qed.

Lemma wp_normalize_loop : forall fuel path st p,
  (length path < fuel)%nat -> owned_segs (ss_segs st) -> blk_stack st ⊆ p_live p ->
  wp (normalize_loop fuel path st) (loop_post p st path) p.
Proof.
  induction fuel as [|fuel IH]; intros path st p Hf Ho Hin; [lia|]. cbn [normalize_loop].
  destruct path as [|c path0] eqn:Epath.
  { apply wp_ret. split_and!; [split; [reflexivity|done]|done|done]. }
  rewrite <- Epath in *. destruct (span not_slash path) as [seg rest] eqn:Esp.
  set (next := match rest with _ :: rest' => rest' | [] => [] end).
  assert (Hlen : (length next < fuel)%nat).
  { destruct (span_spec _ _ _ _ Esp) as (Hp & _ & Hr). apply (f_equal length) in Hp.
    rewrite length_app in Hp. unfold next. rewrite Epath in *. destruct rest as [|x rest]; simpl in *; [|lia].
    lia. }
  assert (Hres : forall stack, resolve (split_on not_slash path) stack =
    resolve (seg :: split_on not_slash next) stack).
  { intros stack. rewrite split_on_span, Esp. apply resolve_trailing. }
  assert (Hskip : bool_decide (seg = []) || bool_decide (seg = lit ".") = true ->
    wp (normalize_loop fuel next st) (loop_post p st path) p).
  { intros Hs. eapply wp_mono; [by apply IH|]. intros res p'. apply loop_post_step.
    - split; [reflexivity|done].
    - rewrite Hres. cbn [resolve]. by rewrite Hs. }
  destruct (bool_decide (seg = [])) eqn:E0; [by apply Hskip|].
  destruct (bool_decide (seg = lit ".")) eqn:E1; [by apply Hskip|]. clear Hskip.
  destruct (bool_decide (seg = lit "..")) eqn:E2.
  - destruct (ss_segs st) as [|s segs] eqn:Est.
    + apply wp_drop_stop; [by rewrite Est|done|]. intros p' Hho Hl. split.
      { split; [done|multiset_solver]. }
      left. split; [done|]. rewrite Hres, Est. cbn [resolve map]. by rewrite E0, E1, E2.
    + apply Forall_cons_1 in Ho as [Hs Ho]. unfold blk_stack in Hin. rewrite Est in Hin. simpl in Hin.
      apply (wp_free_then (Some s)); [done|simpl; multiset_solver|]. intros p1 Hho1 Hl1. simpl in Hl1.
      set (st1 := SegStack (ss_array st) (ss_capacity st) segs).
      eapply wp_mono; [apply (IH next st1); [done|done|unfold blk_stack; simpl; multiset_solver]|].
      intros res p'. apply loop_post_step.
      * split; [done|]. unfold blk_stack. rewrite Est. simpl. multiset_solver.
      * rewrite Hres, Est. cbn [resolve map]. by rewrite E0, E1, E2.
  - apply wp_bind. eapply wp_mono; [by apply wp_push_segment|]. intros [rc|st1] p1 Hs.
    + destruct Hs as (Hs & -> & Hf1). apply wp_ret. split; [done|]. by right.
    + destruct Hs as (Hs & Ho1 & c1 & Hseg & Hc1). pose proof Hs as [_ Hl1].
      eapply wp_mono; [apply (IH next st1); [done|done|multiset_solver]|].
      intros res p'. apply loop_post_step; [done|].
      rewrite Hres, Hseg. cbn [resolve map]. by rewrite E0, E1, E2, Hc1.
Qed.

Lemma resolve_ok segs : forall stack out, resolve segs stack = Some out ->
  forall s, s ∈ out -> s ∈ stack \/ (s ∈ segs /\ s <> [] /\ s <> lit "." /\ s <> lit "..").
Proof.
  induction segs as [|s0 segs IH]; intros stack out Hr s Hs; simpl in Hr; [simplify_eq; by left|].
  destruct (bool_decide (s0 = []) || bool_decide (s0 = lit ".")) eqn:E.
  { destruct (IH _ _ Hr s Hs) as [?|[? ?]]; [by left|right]. split; [by right|done]. }
  apply orb_false_iff in E as [E0 E1]. apply bool_decide_eq_false in E0, E1.
  destruct (bool_decide (s0 = lit "..")) eqn:E2.
  { destruct stack as [|x stack]; [done|]. destruct (IH _ _ Hr s Hs) as [?|[? ?]].
    - left. by right.
    - right. split; [by right|done]. }
  apply bool_decide_eq_false in E2.
  destruct (IH _ _ Hr s Hs) as [[->|?]%elem_of_cons|[? ?]].
  - right. split; [by left|done].
  - by left.
  - right. split; [by right|done].
Qed.

(** The components of a path below the root are proper names. *)
Definition proper_name (s : list byte) : Prop :=
  s <> [] /\ s <> lit "." /\ s <> lit ".." /\ ("/"%byte ∉ s).

Lemma components_proper p cs : components p = Some cs -> Forall proper_name cs.
Proof.
  unfold components. intros (stack & Hr & ->)%fmap_Some. apply Forall_forall. intros s Hs.
  apply list_elem_of_In, in_rev, list_elem_of_In in Hs.
  destruct (resolve_ok _ _ _ Hr s Hs) as [?|(Hin & ? & ? & ?)]; [set_solver|]. split_and!; auto.
  pose proof (split_on_ok not_slash p) as HF. rewrite Forall_forall in HF. specialize (HF s Hin).
  intros Hsl. rewrite Forall_forall in HF. by specialize (HF _ Hsl).
Qed.

Lemma split_on_elem f l s x : s ∈ split_on f l -> x ∈ s -> x ∈ l.
Proof.
  revert s. induction l as [|c l IH]; intros s Hs Hx; simpl in Hs.
  { apply list_elem_of_singleton in Hs as ->. set_solver. }
  destruct (f c).
  - destruct (split_on f l) as [|e es] eqn:E.
    + apply list_elem_of_singleton in Hs as ->. set_solver.
    + apply elem_of_cons in Hs as [->|Hs].
      * apply elem_of_cons in Hx as [->|Hx]; [by left|]. right. apply (IH e); [by left|done].
      * right. apply (IH s); [by right|done].
  - apply elem_of_cons in Hs as [->|Hs]; [set_solver|]. right. by apply (IH s).
Qed.

Lemma resolve_no_nul path stack : NUL ∉ path ->
  resolve (split_on not_slash path) [] = Some stack -> Forall (fun s => NUL ∉ s) stack.
Proof.
  intros Hn Hr. apply Forall_forall. intros s Hs Hx.
  destruct (resolve_ok _ _ _ Hr s Hs) as [?|[Hin _]]; [set_solver|].
  by apply Hn, (split_on_elem not_slash _ s).
Qed.

Lemma wp_normalize_path path p : NUL ∉ path ->
  wp (static_files_normalize_path (Some (("/"%byte) :: path))) (fun '(rc, out) p' =>
    heap_only p p' /\ p_live p' = p_live p ⊎ blk_str out /\ owned_str out /\
    (rc = STATIC_FILE_OUT_OF_MEMORY /\ out = None /\ alloc_failed p p' \/
     match components path with
     | None => rc = STATIC_FILE_FORBIDDEN /\ out = None
     | Some cs => rc = STATIC_FILE_OK /\ cs_bytes <$> out = Some (join_slash cs)
     end)) p.
Proof.
  intros Hn. cbn [static_files_normalize_path]. rewrite eqb_refl_byte. cbn [negb].
  apply wp_bind. eapply wp_mono; [apply wp_normalize_loop; [lia|by constructor|]|].
  { unfold blk_stack. simpl. multiset_solver. }
  unfold components. intros [rc|st] p1 Hpost; simpl in Hpost.
  - destruct Hpost as [[Hho Hl] H]. unfold blk_stack in Hl. simpl in Hl. apply wp_ret.
    split_and!; [done|simpl; multiset_solver|done|].
    destruct H as [[-> Hr]|[-> Hf]]; [|by left]. rewrite Hr. by right.
  - destruct Hpost as ([Hho Hl] & Ho & Hr). unfold blk_stack at 1 in Hl. simpl in Hl. rewrite Hr.
    pose proof (resolve_no_nul _ _ Hn Hr) as Hnn.
    assert (Hcs : map cs_string (rev (ss_segs st)) = rev (map cs_bytes (ss_segs st))).
    { rewrite <- map_rev. apply map_ext_in. intros c Hc. apply c_string_id.
      rewrite Forall_forall in Hnn. apply Hnn, list_elem_of_In, in_map. by apply in_rev. }
    rewrite Hcs. apply wp_alloc_then.
    + intros p2 Hho2 Hl2 Hf2. apply wp_drop_stop; [done|rewrite Hl2; multiset_solver|].
      intros p3 Hho3 Hl3. split_and!; [by repeat (etrans; [done|])|simpl; multiset_solver|done|].
      left. split_and!; [done..|]. eapply alloc_failed_r; [done|]. by eapply alloc_failed_l.
    + intros b p2 Hho2 Hl2. apply wp_drop_stop; [done|rewrite Hl2; multiset_solver|].
      intros p3 Hho3 Hl3. split_and!; [by repeat (etrans; [done|])|simpl; multiset_solver|simpl; eauto|].
      by right.
Qed.

Lemma proper_not_slash s : proper_name s -> Forall (fun c => not_slash c = true) s.
Proof.
  intros (_ & _ & _ & Hs). apply Forall_forall. intros c Hc. unfold not_slash.
  apply negb_true_iff, eqb_neq_byte. set_solver.
Qed.

Lemma split_join cs : cs <> [] -> Forall proper_name cs -> split_on not_slash (join_slash cs) = cs.
Proof.
  intros Hne HF. pose proof proper_not_slash as Hall. induction HF as [|s cs Hs HF IH]; [done|]. destruct cs as [|s2 cs].
  - apply split_on_all. auto.
  - change (join_slash (s :: s2 :: cs)) with (s ++ ("/"%byte) :: join_slash (s2 :: cs)).
    rewrite split_on_app by auto. by rewrite IH.
Qed.

Lemma resolve_proper cs stack : Forall proper_name cs -> resolve cs stack = Some (rev cs ++ stack).
Proof.
  intros HF. revert stack. induction HF as [|s cs (H0 & H1 & H2 & _) _ IH]; intros stack; [done|].
  cbn [resolve]. rewrite !bool_decide_eq_false_2 by done. simpl. by rewrite IH, <- app_assoc.
Qed.

Lemma components_join cs : Forall proper_name cs -> components (join_slash cs) = Some cs.
Proof.
  intros HF. unfold components. destruct cs as [|s cs]; [done|].
  rewrite split_join by done. rewrite resolve_proper, app_nil_r by done.
  change (Some (rev (rev (s :: cs))) = Some (s :: cs)). by rewrite rev_involutive.
Qed.

(** C23. Normalization.  [static_files_normalize_path] computes the resolution of dot
    segments below the root: FORBIDDEN exactly when they would leave it; on
    success every component is a proper name (no empty, dot or dot-dot segment,
    no slash), and normalizing the result again changes nothing.  On every path
    all segments are freed. *)
Theorem normalize_path_resolves path p : NUL ∉ path ->
  wp (static_files_normalize_path (Some (("/"%byte) :: path))) (fun '(rc, out) p' =>
    p_live p' = p_live p ⊎ blk_str out /\
    (rc = STATIC_FILE_OUT_OF_MEMORY /\ out = None /\ alloc_failed p p' \/
     match components path with
     | None => rc = STATIC_FILE_FORBIDDEN /\ out = None
     | Some cs => rc = STATIC_FILE_OK /\ cs_bytes <$> out = Some (join_slash cs) /\
         Forall proper_name cs /\ components (join_slash cs) = Some cs
     end)) p.
Proof.
  intros Hn. eapply wp_mono; [by apply wp_normalize_path|].
  intros [rc out] p' (_ & Hl & _ & H). split; [done|]. destruct H as [?|H]; [by left|right].
  destruct (components path) as [cs|] eqn:E; [|done]. destruct H as [-> ->].
  pose proof (components_proper _ _ E). split_and!; auto using components_join.
Qed.

Lemma normalize_path_resolves_witness :
  wp (static_files_normalize_path (Some (("/"%byte) :: lit "a//./b/../c"))) (fun '(rc, out) p' =>
    p_live p' = ∅ ⊎ blk_str out /\
    (rc = STATIC_FILE_OUT_OF_MEMORY /\ out = None /\ alloc_failed (fresh_proc (fun _ => true)) p' \/
     match components (lit "a//./b/../c") with
     | None => rc = STATIC_FILE_FORBIDDEN /\ out = None
     | Some cs => rc = STATIC_FILE_OK /\ cs_bytes <$> out = Some (join_slash cs) /\
         Forall proper_name cs /\ components (join_slash cs) = Some cs
     end)) (fresh_proc (fun _ => true)).
Proof. apply (normalize_path_resolves (lit "a//./b/../c")). by apply (bool_decide_unpack _). Defined.

Example components_example :
  components (lit "a//./b/../c") = Some [lit "a"; lit "c"] /\ components (lit "a/../../c") = None.
Proof. split; vm_compute; reflexivity. Qed.

(** ** Containment *)

Lemma within_root_true path root :
  path_is_within_root path root = true <->
  path = root \/ exists rest, path = root ++ ("/"%byte) :: rest.
Proof.
  unfold path_is_within_root. split.
  - destruct (Nat.ltb_spec (length path) (length root)); [done|].
    destruct (has_prefix root path) eqn:Ep; [|done]. simpl.
    apply has_prefix_true in Ep as [rest ->]. destruct rest as [|c rest]; [intros _; left; by rewrite app_nil_r|].
    rewrite length_app. destruct (Nat.eqb_spec (length root + length (c :: rest)) (length root)); [simpl in *; lia|].
    rewrite list_lookup_middle by done. intros Hc%eqb_eq_byte. right. exists rest. by rewrite Hc.
  - intros [->|[rest ->]].
    + rewrite Nat.ltb_irrefl, Nat.eqb_refl. assert (has_prefix root root = true) as ->; [|done].
      apply has_prefix_true. exists []. by rewrite app_nil_r.
    + rewrite length_app. destruct (Nat.ltb_spec (length root + length (("/"%byte) :: rest)) (length root)); [lia|].
      assert (has_prefix root (root ++ ("/"%byte) :: rest) = true) as -> by (apply has_prefix_true; eauto).
      destruct (Nat.eqb_spec (length root + length (("/"%byte) :: rest)) (length root)); [done|].
      rewrite list_lookup_middle by done. apply eqb_refl_byte.
Qed.

(** A canonical root that is the root directory itself contains only itself for
    this test, since the byte after its slash is not a slash. *)
Lemma within_slash path : path_is_within_root path (lit "/") = true <->
  path = lit "/" \/ exists rest, path = lit "//" ++ rest.
Proof. rewrite within_root_true. split; (intros [?|[rest ->]]; [by left|right; by exists rest]). Qed.
