(* ===== verification/StaticServe.v ===== *)
(** * Correctness of static_files_serve

    A reference lookup, without memory, says which file a target names and which
    error it gives otherwise; [static_files_serve] refines it and keeps the exact
    account of blocks and descriptors on every path.  Under what POSIX says of
    [realpath], a served file lies below the document root. *)
From S2P Require Import Prelude CLib Proc Request World Response ResponseCorrect Mime Config.
From S2P Require Import StaticFiles StaticPaths.

(** ** The reference lookup *)

(** Sequencing of lookups that may give an error. *)
Definition try {E A B} (x : E + A) (k : A -> E + B) : E + B :=
  match x with inl e => inl e | inr a => k a end.
Notation "'let?' a ':=' x 'in' k" := (try x (fun a => k))
  (at level 10, a name, x at level 100, k at level 200) : cinder_scope.

(** Percent-decoding, and the path below the root without dot segments. *)
Definition decode_ref (path : list byte) : static_file_result_t + list byte :=
  match url_decode_loop path with Some d => inr d | None => inl STATIC_FILE_BAD_TARGET end.

Definition normal_ref (decoded : list byte) : static_file_result_t + list byte :=
  match components (drop 1 decoded) with
  | Some cs => inr (join_slash cs)
  | None => inl STATIC_FILE_FORBIDDEN
  end.

Section reference.
  Context `{FileSystem}.

(** Canonical path under the root, with its size and directory flag. *)
Definition resolve_ref (root relative : list byte)
  : static_file_result_t + (list byte * (Z * bool)) :=
  let? joined := join_root_relative root relative in
  match fs_realpath joined with
  | inl EACCES => inl STATIC_FILE_FORBIDDEN
  | inl _ => inl STATIC_FILE_NOT_FOUND
  | inr resolved =>
      if negb (path_is_within_root resolved root) then inl STATIC_FILE_FORBIDDEN
      else
        match fs_stat resolved with
        | inl ENOENT => inl STATIC_FILE_NOT_FOUND
        | inl EACCES => inl STATIC_FILE_FORBIDDEN
        | inl _ => inl STATIC_FILE_IO_ERROR
        | inr st => let? found := classify_stat st in inr (resolved, found)
        end
  end.

(** The index file of a directory, which must be a file. *)
Definition index_ref (root relative : list byte) : static_file_result_t + list byte :=
  match path_buffer (match relative with
                     | [] => lit "index.html"
                     | _ => relative ++ lit "/index.html"
                     end) with
  | None => inl STATIC_FILE_BAD_TARGET
  | Some index =>
      let? found := resolve_ref root index in
      if snd (snd found) then inl STATIC_FILE_FORBIDDEN else inr (fst found)
  end.

(** A directory without an index file is forbidden, not missing. *)
Definition hide_missing {A} (x : static_file_result_t + A) : static_file_result_t + A :=
  match x with inl STATIC_FILE_NOT_FOUND => inl STATIC_FILE_FORBIDDEN | _ => x end.

Definition root_ref (document_root : list byte) : static_file_result_t + list byte :=
  match fs_realpath document_root with
  | inl _ => inl STATIC_FILE_IO_ERROR
  | inr root =>
      match fs_stat root with
      | inr st => if bool_decide (st_kind st = KindDirectory) then inr root else inl STATIC_FILE_IO_ERROR
      | inl _ => inl STATIC_FILE_IO_ERROR
      end
  end.

Definition locate_ref (document_root relative : list byte) : static_file_result_t + list byte :=
  let? root := root_ref document_root in
  let? found := resolve_ref root relative in
  if snd (snd found) then hide_missing (index_ref root relative) else inr (fst found).

(** Opening the file: its size, by the descriptor. *)
Definition open_ref (path : list byte) : static_file_result_t + Z :=
  match fs_open path with
  | Some EACCES => inl STATIC_FILE_FORBIDDEN
  | Some ENOENT => inl STATIC_FILE_NOT_FOUND
  | Some _ => inl STATIC_FILE_IO_ERROR
  | None =>
      match fs_fstat path with
      | inl _ => inl STATIC_FILE_IO_ERROR
      | inr st =>
          if negb (bool_decide (st_kind st = KindRegular)) then inl STATIC_FILE_FORBIDDEN
          else if st_size st <? 0 then inl STATIC_FILE_IO_ERROR
          else if HTTP_MAX_STATIC_FILE_SIZE <? st_size st then inl STATIC_FILE_TOO_LARGE
          else inr (st_size st)
      end
  end.

(** The file served for a target: its canonical path and its size. *)
Definition serve_ref (document_root target : list byte) : static_file_result_t + (list byte * Z) :=
  let? path := path_portion (Some target) in
  let? decoded := decode_ref path in
  let? relative := normal_ref decoded in
  let? path := locate_ref document_root relative in
  let? size := open_ref (c_string path) in
  inr (c_string path, size).
End reference.

(** ** Refinement *)

(** A call that computes [ref]: it returns what [ref] gives, unless memory ran
    out. *)
Definition computes {A} (ref : static_file_result_t + A) (p p' : proc)
    (rc : static_file_result_t) (got : option A) : Prop :=
  (exists a, ref = inr a /\ rc = STATIC_FILE_OK /\ got = Some a) \/
  got = None /\ rc <> STATIC_FILE_OK /\
  (ref = inl rc \/ rc = STATIC_FILE_OUT_OF_MEMORY /\ alloc_failed p p').

(** The only block that changed hands is that of the string returned. *)
Definition gives (out : option cstr) (p p' : proc) : Prop :=
  heap_only p p' /\ p_live p' = p_live p ⊎ blk_str out /\ owned_str out.

Lemma gives_none p : gives None p p.
Proof. split_and!; [reflexivity|simpl; multiset_solver|done]. Qed.

Lemma gives_trans out p p1 p2 : gives None p p1 -> gives out p1 p2 -> gives out p p2.
Proof.
  intros (Hho & Hl & _) (Hho2 & Hl2 & Ho). split_and!; [by etrans| |done].
  simpl in Hl. rewrite Hl2, Hl. multiset_solver.
Qed.

Lemma gives_free out p p1 p2 : gives out p p1 -> heap_only p1 p2 ->
  p_live p1 = p_live p2 ⊎ blk_str out -> gives None p p2.
Proof. intros (Hho & Hl & _) Hho2 Hl2. split_and!; [by etrans| |done]. simpl. multiset_solver. Qed.

Lemma computes_err {A} (ref : static_file_result_t + A) p p' e :
  ref = inl e -> e <> STATIC_FILE_OK -> computes ref p p' e None.
Proof. intros -> ?. right. auto. Qed.

Lemma computes_ok {A} (ref : static_file_result_t + A) p p' a :
  ref = inr a -> computes ref p p' STATIC_FILE_OK (Some a).
Proof. intros ->. left. eauto. Qed.

Lemma computes_oom {A} (ref : static_file_result_t + A) p p' :
  alloc_failed p p' -> computes ref p p' STATIC_FILE_OUT_OF_MEMORY None.
Proof. right. auto. Qed.

Lemma computes_not_ok {A} (ref : static_file_result_t + A) p p' rc got :
  computes ref p p' rc got -> rc <> STATIC_FILE_OK -> got = None.
Proof. intros [(a & _ & -> & _)|[? _]]; done. Qed.

(** An error of a step is an error of the sequence. *)
Lemma computes_stop {A B} (ref : static_file_result_t + A) (k : A -> static_file_result_t + B) p p' p0 p1 rc got :
  computes ref p p' rc got -> rc <> STATIC_FILE_OK -> advances p0 p -> advances p' p1 ->
  computes (try ref k) p0 p1 rc None.
Proof.
  intros [(a & _ & -> & _)|(_ & Hne & [->|[-> Hf]])] Hrc Ha Hb; [done|by apply computes_err|].
  apply computes_oom. eapply advances_failed_r; [done|]. by eapply advances_failed_l.
Qed.

(** The path functions in this form. *)
Lemma extract_path_computes target p :
  wp (static_files_extract_path target) (fun '(rc, out) p' => gives out p p' /\
    computes (path_portion target) p p' rc (cs_bytes <$> out)) p.
Proof.
  eapply wp_mono; [apply wp_extract_path|]. intros [rc out] p' (Hho & Hl & Ho & H).
  split; [by split_and!|]. destruct (path_portion target) as [e|path].
  - destruct H as (-> & -> & ?). by apply computes_err.
  - destruct H as [[-> ->]|(-> & -> & ?)]; [by apply computes_ok|by apply computes_oom].
Qed.

Lemma url_decode_computes input p :
  wp (static_files_url_decode (Some input)) (fun '(rc, out) p' => gives out p p' /\
    computes (decode_ref input) p p' rc (cs_bytes <$> out)) p.
Proof.
  eapply wp_mono; [apply wp_url_decode|]. intros [rc out] p' (Hho & Hl & Ho & H).
  split; [by split_and!|]. destruct H as [(-> & -> & ?)|H]; [by apply computes_oom|].
  unfold decode_ref. destruct (url_decode_loop input) as [d|].
  - destruct H as [-> ->]. by apply computes_ok.
  - destruct H as [-> ->]. by apply computes_err.
Qed.

Lemma normalize_path_computes path p : NUL ∉ path ->
  wp (static_files_normalize_path (Some (("/"%byte) :: path))) (fun '(rc, out) p' => gives out p p' /\
    computes (normal_ref (("/"%byte) :: path)) p p' rc (cs_bytes <$> out)) p.
Proof.
  intros Hn. eapply wp_mono; [by apply wp_normalize_path|]. intros [rc out] p' (Hho & Hl & Ho & H).
  split; [by split_and!|]. destruct H as [(-> & -> & ?)|H]; [by apply computes_oom|].
  unfold normal_ref. change (drop 1 _) with path. destruct (components path) as [cs|].
  - destruct H as [-> ->]. by apply computes_ok.
  - destruct H as [-> ->]. by apply computes_err.
Qed.

(** The paths have no NUL, so the strings are read in full. *)
Lemma path_portion_shape target path : NUL ∉ target -> path_portion (Some target) = inr path ->
  (NUL ∉ path) /\ exists rest, path = ("/"%byte) :: rest.
Proof.
  intros Hn. destruct target as [|c target]; [done|]. unfold path_portion.
  destruct (c =?b "/") eqn:Ec; [|done]. apply eqb_eq_byte in Ec as ->. cbn [negb].
  intros [= <-]. destruct (span in_path _) as [a b] eqn:Es.
  pose proof (span_spec _ _ _ _ Es) as Hs. cbn [span] in Es. cbn in Es.
  destruct (span in_path target) as [a' b']. injection Es as <- <-.
  cbn [fst]. split; [|by exists a']. destruct Hs as (Heq & _). rewrite Heq in Hn. set_solver.
Qed.

Lemma decode_shape path d : NUL ∉ path -> decode_ref (("/"%byte) :: path) = inr d ->
  exists rest, d = ("/"%byte) :: rest /\ (NUL ∉ rest).
Proof.
  intros Hn. unfold decode_ref. cbn [url_decode_loop]. cbn.
  destruct (url_decode_loop path) as [o|] eqn:E; cbn; [|done]. intros [= <-].
  exists o. split; [done|]. by apply (url_decode_no_nul (length path)) in E as [? _].
Qed.

Lemma join_slash_elem cs x : x ∈ join_slash cs -> x = "/"%byte \/ exists s, s ∈ cs /\ x ∈ s.
Proof.
  induction cs as [|s cs IH]; [set_solver|]. destruct cs as [|s' cs].
  - intros Hx. right. exists s. split; [by left|done].
  - change (join_slash (s :: s' :: cs)) with (s ++ ("/"%byte) :: join_slash (s' :: cs)).
    intros [Hx|[->|Hx]%elem_of_cons]%elem_of_app; [|by left|].
    + right. exists s. split; [by left|done].
    + destruct (IH Hx) as [?|(s0 & ? & ?)]; [by left|right]. exists s0. split; [by right|done].
Qed.

Lemma normal_no_nul rest rel : NUL ∉ rest -> normal_ref (("/"%byte) :: rest) = inr rel -> NUL ∉ rel.
Proof.
  intros Hn. unfold normal_ref, components. change (drop 1 _) with rest.
  destruct (resolve _ []) as [stack|] eqn:E; [|done]. intros [= <-].
  pose proof (resolve_no_nul _ _ Hn E) as HF. intros [?|(s & Hs & Hx)]%join_slash_elem; [done|].
  rewrite Forall_forall in HF. apply (HF s); [|done]. by apply list_elem_of_In, in_rev, list_elem_of_In.
Qed.

Section refinement.
  Context `{FileSystem}.

Definition rp_result (rp : resolved_path) : option (list byte * (Z * bool)) :=
  (fun c => (cs_bytes c, (rp_size rp, rp_is_dir rp))) <$> rp_path rp.

Lemma wp_resolve_under_root root relative p :
  wp (resolve_under_root root relative) (fun '(rc, rp) p' => gives (rp_path rp) p p' /\
    computes (resolve_ref root relative) p p' rc (rp_result rp)) p.
Proof.
  unfold resolve_under_root, resolve_ref.
  assert (Herr : forall e, e <> STATIC_FILE_OK -> gives (rp_path unresolved) p p /\
    computes (@inl _ (list byte * (Z * bool)) e) p p e (rp_result unresolved)).
  { intros e He. split; [apply gives_none|]. by apply computes_err. }
  unfold join_root_relative, try. destruct (path_buffer _) as [joined|]; [|by apply wp_ret, Herr].
  destruct (fs_realpath joined) as [e|resolved]; [by destruct e; apply wp_ret, Herr|].
  destruct (path_is_within_root resolved root); simpl; [|by apply wp_ret, Herr].
  destruct (fs_stat resolved) as [e|st]; [by destruct e; apply wp_ret, Herr|].
  destruct (classify_stat st) as [rc|[size is_dir]] eqn:Ec.
  { apply wp_ret, Herr. unfold classify_stat in Ec. repeat case_match; by simplify_eq. }
  apply wp_alloc_then.
  - intros p' Hho Hl Hf. apply wp_ret. split; [|by apply computes_oom].
    split_and!; [done|simpl; multiset_solver|done].
  - intros b p' Hho Hl. apply wp_ret. split; [split_and!; simpl; eauto|]. by apply computes_ok.
Qed.

Lemma wp_try_index root relative p :
  wp (try_index root relative) (fun '(rc, rp) p' => gives (rp_path rp) p p' /\
    computes (index_ref root relative) p p' rc (cs_bytes <$> rp_path rp)) p.
Proof.
  unfold try_index, index_ref. destruct (path_buffer _) as [index|].
  2: { apply wp_ret. split; [apply gives_none|]. by apply computes_err. }
  apply wp_bind. eapply wp_mono; [apply wp_resolve_under_root|]. intros [rc rp] p1 [Hg Hc].
  destruct (bool_decide_reflect (rc = STATIC_FILE_OK)) as [->|Hne]; simpl.
  - destruct Hc as [([path [size d]] & Hr & _ & Hrp)|(_ & ? & _)]; [|done].
    unfold rp_result in Hrp. apply fmap_Some in Hrp as (c & Hc & [= -> -> ->]).
    rewrite Hr. simpl. destruct (rp_is_dir rp).
    + destruct Hg as (Hho & Hl & Ho). apply wp_free_then; [done|multiset_solver|].
      intros p2 Hho2 Hl2. apply wp_ret. simpl. split; [|by apply computes_err].
      split_and!; [by etrans|simpl; multiset_solver|done].
    + apply wp_ret. split; [done|]. rewrite Hc. by apply computes_ok.
  - apply wp_ret. split; [done|]. pose proof (computes_not_ok _ _ _ _ _ Hc Hne) as Hn.
    unfold rp_result in Hn. apply fmap_None in Hn. rewrite Hn. by eapply computes_stop.
Qed.

Lemma wp_locate_file droot relative p :
  wp (locate_file droot relative) (fun '(rc, out) p' => gives out p p' /\
    computes (locate_ref droot relative) p p' rc (cs_bytes <$> out)) p.
Proof.
  unfold locate_file, locate_ref, root_ref.
  assert (Hio : gives None p p /\ computes (@inl _ (list byte) STATIC_FILE_IO_ERROR) p p
    STATIC_FILE_IO_ERROR (cs_bytes <$> None)).
  { split; [apply gives_none|by apply computes_err]. }
  destruct (fs_realpath droot) as [e|root]; [by apply wp_ret|].
  destruct (fs_stat root) as [e|st]; [by apply wp_ret|].
  destruct (bool_decide (st_kind st = KindDirectory)); [|by apply wp_ret].
  cbn [negb try]. apply wp_bind. eapply wp_mono; [apply wp_resolve_under_root|].
  intros [rc rp] p1 [Hg Hc]. destruct (bool_decide_reflect (rc = STATIC_FILE_OK)) as [->|Hne]; simpl.
  2: { apply wp_ret. split; [done|]. pose proof (computes_not_ok _ _ _ _ _ Hc Hne) as Hn.
    unfold rp_result in Hn. apply fmap_None in Hn. rewrite Hn. by eapply computes_stop. }
  destruct Hc as [([path [size d]] & Hr & _ & Hrp)|(_ & ? & _)]; [|done].
  unfold rp_result in Hrp. apply fmap_Some in Hrp as (c & Hcc & [= -> -> ->]). rewrite Hr. simpl.
  destruct (rp_is_dir rp).
  2: { apply wp_ret. split; [done|]. rewrite Hcc. by apply computes_ok. }
  pose proof Hg as (_ & Hl & Ho). apply wp_free_then; [done|multiset_solver|].
  intros p2 Hho2 Hl2. assert (Hg2 : gives None p p2) by by eapply gives_free.
  apply wp_bind. eapply wp_mono; [apply wp_try_index|]. intros [rc rp'] p3 [Hg3 Hc3].
  apply wp_ret. split; [by eapply gives_trans|].
  destruct Hc3 as [(a & -> & -> & ->)|(-> & Hne & H3)]; [by apply computes_ok|].
  destruct H3 as [->|[-> Hf]].
  - apply computes_err; [by destruct rc|by destruct rc].
  - apply computes_oom. eapply alloc_failed_r; [apply Hg2|done].
Qed.

(** The response of a served file. *)
Definition file_response (path : list byte) (size : Z) (r : http_response_t) : Prop :=
  status_code r = 200 /\ reason_phrase r = http_reason_phrase 200 /\
  header_pairs r = [(lit "Content-Type", mime_type_from_path (Some path))] /\
  suppress_auto_connection_close r = false /\
  body_kind r = HTTP_BODY_FILE /\ body_length r = size.

(** Giving up with a descriptor just opened. *)
Lemma wp_fill_fail rc fd r p0 p : held p0 r -> advances p0 p -> p_live p = p_live p0 ->
  p_fds p = {[+ fd +]} ⊎ p_fds p0 ->
  wp (fill_fail rc fd r) (fun '(rc', r') p' => resp_step p0 r p' r' /\ rc' = rc /\
    r' = http_response_init) p.
Proof.
  intros [Ho Hl Hf] Ha Hlp Hfp. unfold fill_fail. apply wp_bind.
  eapply wp_mono; [apply wp_close; multiset_solver|]. intros _ p1 (Ha1 & Hl1 & Hf1).
  apply wp_bind. eapply wp_mono; [apply response_destroy_wp|].
  { split; [done|by rewrite Hl1, Hlp|multiset_solver]. }
  intros r' p2 [-> [Ha2 Hl2 Hf2]]. apply wp_ret. split_and!; [split|done|done].
  - by repeat (etrans; [done|]).
  - by rewrite Hl2, Hl1, Hlp.
  - multiset_solver.
Qed.

Lemma open_ref_size path size : open_ref path = inr size -> 0 <= size <= HTTP_MAX_STATIC_FILE_SIZE.
Proof. unfold open_ref. repeat case_match; intros; simplify_eq; bool_simp; lia. Qed.

Lemma open_ref_err path e : open_ref path = inl e -> e <> STATIC_FILE_OK.
Proof. unfold open_ref. repeat case_match; intros; by simplify_eq. Qed.

Definition fill_post (p : proc) (r : http_response_t) (path : list byte)
    (res : static_file_result_t * http_response_t) (p' : proc) : Prop :=
  let '(rc, r') := res in resp_step p r p' r' /\ held p' r' /\
  match open_ref path with
  | inr size => rc = STATIC_FILE_OK /\ file_response path size r' \/
      rc = STATIC_FILE_OUT_OF_MEMORY /\ alloc_failed p p'
  | inl e => rc = e \/ rc = STATIC_FILE_OUT_OF_MEMORY /\ alloc_failed p p'
  end.

(** From the open descriptor on. *)
Lemma wp_fill_opened r path fd p0 p : held p0 r -> advances p0 p -> p_live p = p_live p0 ->
  p_fds p = {[+ fd +]} ⊎ p_fds p0 -> body_kind r = HTTP_BODY_NONE -> fs_open path = None ->
  wp (match fs_fstat path with
      | inl _ => fill_fail STATIC_FILE_IO_ERROR fd r
      | inr st =>
          if negb (bool_decide (st_kind st = KindRegular))
          then fill_fail STATIC_FILE_FORBIDDEN fd r
          else if st_size st <? 0 then fill_fail STATIC_FILE_IO_ERROR fd r
          else if HTTP_MAX_STATIC_FILE_SIZE <? st_size st
          then fill_fail STATIC_FILE_TOO_LARGE fd r
          else if SIZE_MAX <? st_size st then fill_fail STATIC_FILE_TOO_LARGE fd r
          else
            '(ok, r) ← http_response_set_file_body r (Some fd) (st_size st);
            if negb ok then fill_fail STATIC_FILE_OUT_OF_MEMORY fd r
            else mret (STATIC_FILE_OK, r)
      end) (fun res p' => let '(rc, r') := res in resp_step p0 r p' r' /\ held p' r' /\
        match open_ref path with
        | inr size => rc = STATIC_FILE_OK /\
            r' = set_rsp_body HTTP_BODY_FILE None size false (Some fd) r
        | inl e => rc = e
        end) p.
Proof.
  intros Hh Ha Hl Hf Hk Ho. unfold open_ref. rewrite Ho.
  assert (Hfail : forall rc, wp (fill_fail rc fd r) (fun res p' => let '(rc', r') := res in
    resp_step p0 r p' r' /\ held p' r' /\ rc' = rc) p).
  { intros rc. eapply wp_mono; [by eapply wp_fill_fail|]. intros [rc' r'] p' (Hs & -> & ->).
    split_and!; [done| |done]. eapply held_step; [done..|]. apply owned_response_init. }
  destruct (fs_fstat path) as [e|st]; [by apply Hfail|].
  destruct (negb _); [by apply Hfail|]. destruct (Z.ltb_spec (st_size st) 0); [by apply Hfail|].
  destruct (Z.ltb_spec HTTP_MAX_STATIC_FILE_SIZE (st_size st)); [by apply Hfail|].
  unfold HTTP_MAX_STATIC_FILE_SIZE, SIZE_MAX in *.
  destruct (Z.ltb_spec (2 ^ 64 - 1) (st_size st)); [lia|].
  pose proof Hh as [Hown Hlv Hfd]. apply wp_bind.
  eapply wp_mono; [apply set_file_body_wp|].
  { split; [done|by rewrite Hl|multiset_solver]. } { unfold SIZE_MAX. lia. }
  { rewrite Hf. unfold fd_response. rewrite Hk. multiset_solver. }
  intros [ok r'] p' (-> & -> & Ha' & Hl' & Hf' & Hh'). apply wp_ret. split_and!; [|done|done|done].
  split; [by etrans|by rewrite Hl', Hl|]. rewrite Hf in Hf'.
  unfold fd_response in *. rewrite Hk in *. simpl in *. multiset_solver.
Qed.

Lemma wp_fill_file_response r path p : held p r ->
  wp (fill_file_response r path) (fill_post p r path) p.
Proof.
  intros Hh. unfold fill_file_response. apply wp_bind.
  eapply wp_mono; [by apply response_destroy_wp|]. intros r1 p1 [-> Hs1].
  set (r2 := http_response_set_status 200 http_response_init).
  assert (Hs2 : resp_step p r p1 r2) by (destruct Hs1; by split).
  assert (Hh2 : held p1 r2).
  { apply held_status. eapply held_step; [done..|]. apply owned_response_init. }
  apply wp_bind. eapply wp_mono; [by apply add_header_wp|]. intros [[] r3] p3 (Hs3 & Hh3 & Hr).
  2: { apply wp_ret. destruct Hr as [-> Hf].
    assert (alloc_failed p p3) by (eapply advances_failed_r; [apply Hs2|done]).
    split_and!; [by eapply resp_step_trans|done|]. destruct (open_ref path); auto. }
  destruct Hr as (arr & h & -> & Hp). set (r3 := set_rsp_headers _ _ _) in *.
  assert (Hs : resp_step p r p3 r3) by by eapply resp_step_trans.
  cbn [negb]. unfold open_file. destruct (fs_open path) as [e|] eqn:Eo.
  - apply wp_bind, wp_ret, wp_bind. eapply wp_mono; [by apply response_destroy_wp|].
    intros r4 p4 [-> Hs4]. apply wp_ret. assert (Hs5 : resp_step p r p4 http_response_init) by by eapply resp_step_trans.
    split_and!; [done|eapply held_step; [done..|]; apply owned_response_init|].
    unfold open_ref. rewrite Eo. by destruct e; left.
  - apply wp_bind, wp_bind. unfold wp at 1, fd_open. apply wp_ret.
    eapply wp_mono; [by eapply wp_fill_opened|]. intros [rc r4] p4 (Hs4 & Hh4 & H4).
    split_and!; [by eapply resp_step_trans|done|]. destruct (open_ref path) as [e|size]; [by left|].
    destruct H4 as [-> ->]. left. split; [done|].
    assert (header_pairs r3 = [(lit "Content-Type", mime_type_from_path (Some path))]).
    { unfold header_pairs. simpl. by rewrite Hp. }
    by split_and!.
Qed.

(** Between [p] and [q] the blocks of [resp] became those of [r] and [strs]. *)
Record borrowed (p : proc) (resp : http_response_t) (strs : gmultiset nat) (q : proc)
    (r : http_response_t) : Prop := {
  bw_advances : advances p q;
  bw_live : p_live q ⊎ blk_response resp = p_live p ⊎ blk_response r ⊎ strs;
  bw_fds : p_fds q ⊎ fd_response resp = p_fds p ⊎ fd_response r;
}.

Lemma borrowed_held p resp strs q r :
  held p resp -> borrowed p resp strs q r -> owned_response r -> held q r.
Proof. intros [_ ? ?] [_ ? ?] Ho. split; [done|multiset_solver|multiset_solver]. Qed.

Lemma borrowed_strs p resp strs q r : held p resp -> borrowed p resp strs q r -> strs ⊆ p_live q.
Proof. intros [_ ? ?] [_ ? ?]. multiset_solver. Qed.

Lemma borrowed_gives p resp strs q r out q' :
  borrowed p resp strs q r -> gives out q q' -> borrowed p resp (strs ⊎ blk_str out) q' r.
Proof.
  intros [Ha Hl Hf] (Hho & Hl' & _). split.
  - etrans; [done|]. by apply heap_only_advances.
  - multiset_solver.
  - by rewrite (ho_fds _ _ Hho).
Qed.

Lemma borrowed_step p resp strs q r q' r' :
  borrowed p resp strs q r -> resp_step q r q' r' -> borrowed p resp strs q' r'.
Proof. intros [Ha Hl Hf] [Ha' Hl' Hf']. split; [by etrans|multiset_solver|multiset_solver]. Qed.

Lemma wp_serve_done rc r a b c d p resp q (Q : static_file_result_t * http_response_t -> proc -> Prop) :
  held p resp -> owned_str a -> owned_str b -> owned_str c -> owned_str d -> owned_response r ->
  borrowed p resp (∅ ⊎ blk_str a ⊎ blk_str b ⊎ blk_str c ⊎ blk_str d) q r ->
  (forall p', resp_step p resp p' r -> held p' r -> advances q p' -> Q (rc, r) p') ->
  wp (serve_done rc r a b c d) Q q.
Proof.
  intros Hh Ha Hb Hc Hd Hor Hbw HQ. pose proof (borrowed_strs _ _ _ _ _ Hh Hbw) as Hin.
  unfold serve_done. apply wp_free_two; [done|done|multiset_solver|]. intros p1 Hho1 Hl1.
  apply wp_free_two; [done|done|multiset_solver|]. intros p2 Hho2 Hl2. apply wp_ret.
  assert (Hho : heap_only q p2) by by etrans. destruct Hbw as [Hadv Hlv Hfd].
  assert (Hs : resp_step p resp p2 r).
  { split; [etrans; [done|by apply heap_only_advances]|multiset_solver|]. by rewrite (ho_fds _ _ Hho). }
  apply HQ; [done|by eapply held_step|by apply heap_only_advances].
Qed.

Definition serve_post (p : proc) (resp : http_response_t) (ref : static_file_result_t + (list byte * Z))
    (res : static_file_result_t * http_response_t) (p' : proc) : Prop :=
  let '(rc, r') := res in resp_step p resp p' r' /\ held p' r' /\
  ((exists path size, ref = inr (path, size) /\ rc = STATIC_FILE_OK /\ file_response path size r') \/
   r' = http_response_init /\ rc <> STATIC_FILE_OK /\
   (ref = inl rc \/ rc = STATIC_FILE_OUT_OF_MEMORY /\ alloc_failed p p')).

(** An error of one of the lookups ends in an empty response. *)
Lemma wp_serve_error {A} (ref : static_file_result_t + A) k q0 q1 rc got a b c d p resp q :
  held p resp -> owned_str a -> owned_str b -> owned_str c -> owned_str d ->
  borrowed p resp (∅ ⊎ blk_str a ⊎ blk_str b ⊎ blk_str c ⊎ blk_str d) q http_response_init ->
  computes ref q0 q1 rc got -> rc <> STATIC_FILE_OK -> advances p q0 -> advances q1 q ->
  wp (serve_done rc http_response_init a b c d) (serve_post p resp (try ref k)) q.
Proof.
  intros Hh Ha Hb Hc Hd Hbw Hcomp Hne Hpq Hqq. eapply wp_serve_done; [done..| |done|].
  { apply owned_response_init. }
  intros p' Hs Hh' Hadv. split_and!; [done|done|]. right. split_and!; [done|done|].
  eapply (computes_stop _ k) in Hcomp; [|done|exact Hpq|by etrans].
  destruct Hcomp as [(? & _ & -> & _)|(_ & _ & ?)]; [done|]. done.
Qed.

(** The value a lookup returned. *)
Lemma computes_inv {A} (ref : static_file_result_t + A) p p' (f : cstr -> A) out :
  computes ref p p' STATIC_FILE_OK (f <$> out) -> exists c, out = Some c /\ ref = inr (f c).
Proof.
  intros [(a & -> & _ & Ho)|(_ & ? & _)]; [|done]. apply fmap_Some in Ho as (c & -> & ->). eauto.
Qed.

(** From the located file on. *)
Lemma wp_serve_file a b c path_c p resp q :
  held p resp -> owned_str a -> owned_str b -> owned_str c -> is_Some (cs_block path_c) ->
  borrowed p resp (∅ ⊎ blk_str a ⊎ blk_str b ⊎ blk_str c ⊎ blk_str (Some path_c)) q http_response_init ->
  wp ('(result, response) ← fill_file_response http_response_init (cs_string path_c);
      if negb (bool_decide (result = STATIC_FILE_OK)) then
        response ← http_response_destroy response;
        serve_done result response a b c (Some path_c)
      else serve_done result response a b c (Some path_c))
    (serve_post p resp (let? size := open_ref (cs_string path_c) in inr (cs_string path_c, size))) q.
Proof.
  intros Hh Ha Hb Hc Hd Hbw.
  assert (Hhq : held q http_response_init) by (eapply borrowed_held; [done..|]; apply owned_response_init).
  apply wp_bind. eapply wp_mono; [by apply wp_fill_file_response|].
  intros [rc r] q1 (Hs & Hh1 & Hr). assert (Hbw1 := borrowed_step _ _ _ _ _ _ _ Hbw Hs).
  destruct (bool_decide_reflect (rc = STATIC_FILE_OK)) as [->|Hne]; cbn [negb].
  - eapply (wp_serve_done _ _ _ _ _ _ p resp); [done..|apply Hh1|done|]. intros p' Hs' Hh' _. split_and!; [done|done|left].
    destruct (open_ref (cs_string path_c)) as [e|size] eqn:Eo.
    + exfalso. destruct Hr as [<-|[? _]]; [by eapply open_ref_err|done].
    + destruct Hr as [[_ Hr]|[? _]]; [|done]. by exists (cs_string path_c), size.
  - apply wp_bind. eapply wp_mono; [by apply response_destroy_wp|]. intros r2 q2 [-> Hs2].
    assert (Hbw2 := borrowed_step _ _ _ _ _ _ _ Hbw1 Hs2).
    assert (Hcomp : computes (open_ref (cs_string path_c)) q q1 rc None).
    { destruct (open_ref (cs_string path_c)) as [e|size]; destruct Hr as [Hr|[-> ?]];
        try by apply computes_oom.
      - subst. by apply computes_err.
      - by destruct Hr as [-> _]. }
    eapply wp_serve_error; [done..|apply Hbw|apply Hs2].
Qed.

(** An early exit of the lookup [C], made with the strings of [B] at hand. *)
Ltac serve_stop C B :=
  eapply wp_serve_error; [done..| |exact C|done|apply B|done];
  cbn [blk_str]; by rewrite ?gmultiset_disj_union_right_id.

Lemma static_files_serve_wp droot target resp p : held p resp -> NUL ∉ target ->
  wp (static_files_serve droot (Some target) resp) (serve_post p resp (serve_ref droot target)) p.
Proof.
  intros Hh Hnul. unfold static_files_serve, serve_ref. apply wp_bind.
  eapply wp_mono; [by apply response_destroy_wp|]. intros r p0 [-> Hs0].
  assert (Hb0 : borrowed p resp ∅ p0 http_response_init).
  { destruct Hs0. split; [done|multiset_solver|done]. }
  apply wp_bind. eapply wp_mono; [apply extract_path_computes|]. intros [rc a] p1 [Ga Ca].
  assert (Hb1 := borrowed_gives _ _ _ _ _ _ _ Hb0 Ga). pose proof Ga as (_ & _ & Oa).
  destruct (bool_decide_reflect (rc = STATIC_FILE_OK)) as [->|Hne]; cbn [negb].
  2: serve_stop Ca Hb0.
  apply computes_inv in Ca as (ca & -> & Ea). rewrite Ea. cbn [try].
  destruct (path_portion_shape _ _ Hnul Ea) as [Hna [ra Hra]]. rewrite Hra in *.
  change (cs_string <$> Some ca) with (Some (c_string (cs_bytes ca))).
  rewrite Hra, c_string_id by done. apply wp_bind.
  eapply wp_mono; [apply url_decode_computes|]. intros [rc b] p2 [Gb Cb].
  assert (Hb2 := borrowed_gives _ _ _ _ _ _ _ Hb1 Gb). pose proof Gb as (_ & _ & Ob).
  destruct (bool_decide_reflect (rc = STATIC_FILE_OK)) as [->|Hne]; cbn [negb].
  2: serve_stop Cb Hb1.
  apply computes_inv in Cb as (cb & -> & Eb). rewrite Eb. cbn [try].
  apply decode_shape in Eb as (rb & Hrb & Hnb); [|set_solver]. rewrite Hrb.
  change (cs_string <$> Some cb) with (Some (c_string (cs_bytes cb))).
  rewrite Hrb, c_string_id by set_solver. apply wp_bind.
  eapply wp_mono; [by apply normalize_path_computes|]. intros [rc c] p3 [Gc Cc].
  assert (Hb3 := borrowed_gives _ _ _ _ _ _ _ Hb2 Gc). pose proof Gc as (_ & _ & Oc).
  destruct (bool_decide_reflect (rc = STATIC_FILE_OK)) as [->|Hne]; cbn [negb].
  2: serve_stop Cc Hb2.
  apply computes_inv in Cc as (cc & -> & Ec). rewrite Ec. cbn [try].
  apply normal_no_nul in Ec; [|done]. replace (cs_string cc) with (cs_bytes cc) by (symmetry; by apply c_string_id).
  apply wp_bind. eapply wp_mono; [apply wp_locate_file|]. intros [rc d] p4 [Gd Cd].
  assert (Hb4 := borrowed_gives _ _ _ _ _ _ _ Hb3 Gd). pose proof Gd as (_ & _ & Od).
  destruct (bool_decide_reflect (rc = STATIC_FILE_OK)) as [->|Hne]; cbn [negb].
  2: serve_stop Cd Hb3.
  apply computes_inv in Cd as (cd & -> & Ed). rewrite Ed. cbn [try].
  by apply wp_serve_file.
Qed.
End refinement.

(** ** Containment *)

(** An absolute path by its components. *)
Definition absolute (cs : list (list byte)) : list byte := ("/"%byte) :: join_slash cs.

Definition canonical_name (s : list byte) : Prop := proper_name s /\ (NUL ∉ s).

(** What POSIX says of [realpath]: the result is absolute, without dot segments,
    empty segments or symbolic links. *)
Class PosixPaths `{FileSystem} : Prop :=
  realpath_canonical : forall path r, fs_realpath path = inr r ->
    exists cs, r = absolute cs /\ Forall canonical_name cs.

Lemma canonical_proper cs : Forall canonical_name cs -> Forall proper_name cs.
Proof. intros HF. eapply Forall_impl; [exact HF|]. by intros s [? _]. Qed.

Lemma absolute_no_nul cs : Forall canonical_name cs -> NUL ∉ absolute cs.
Proof.
  intros HF. unfold absolute. rewrite not_elem_of_cons. split; [done|].
  intros [?|(s & Hs & Hx)]%join_slash_elem; [done|]. rewrite Forall_forall in HF.
  by destruct (HF s Hs) as [_ ?].
Qed.

Lemma split_join_app cs rest : cs <> [] -> Forall proper_name cs ->
  split_on not_slash (join_slash cs ++ ("/"%byte) :: rest) = cs ++ split_on not_slash rest.
Proof.
  intros Hne HF. induction HF as [|s cs Hs HF IH]; [done|].
  assert (Hns : Forall (fun c => not_slash c = true) s) by by apply proper_not_slash.
  destruct cs as [|s2 cs]; [by apply split_on_app|].
  change (join_slash (s :: s2 :: cs)) with (s ++ ("/"%byte) :: join_slash (s2 :: cs)).
  rewrite <- app_assoc, <- app_comm_cons. rewrite split_on_app by done. by rewrite IH.
Qed.

(** On canonical paths the containment test is the prefix order of components. *)
Lemma within_components root path :
  Forall proper_name root -> Forall proper_name path ->
  path_is_within_root (absolute path) (absolute root) = true -> exists rest, path = root ++ rest.
Proof.
  intros HR HP Hw%within_root_true. unfold absolute in Hw.
  destruct Hw as [[= Heq]|[rest [= Heq]]].
  - exists []. rewrite app_nil_r. pose proof (components_join _ HP) as H1.
    rewrite Heq, components_join in H1 by done. by injection H1.
  - destruct root as [|s root]; [by exists path|]. exists (split_on not_slash rest).
    rewrite <- split_join_app, <- Heq by done. symmetry. apply split_join; [|done].
    intros ->. symmetry in Heq. by apply app_nil in Heq as [_ ?].
Qed.

Section containment.
  Context `{PosixPaths}.

Lemma resolve_ref_within root relative path info :
  resolve_ref root relative = inr (path, info) ->
  path_is_within_root path root = true /\
  (exists joined, join_root_relative root relative = inr joined /\ fs_realpath joined = inr path) /\
  exists st, fs_stat path = inr st /\ classify_stat st = inr info.
Proof.
  unfold resolve_ref, try. destruct (join_root_relative root relative) as [|joined]; [done|].
  destruct (fs_realpath joined) as [e|resolved] eqn:Er; [by destruct e|].
  destruct (path_is_within_root resolved root) eqn:Ew; [|done]. simpl.
  destruct (fs_stat resolved) as [e|st] eqn:Es; [by destruct e|].
  destruct (classify_stat st) as [|i] eqn:Ec; [done|]. intros [= <- <-]. eauto 8.
Qed.

Lemma root_ref_inv droot root : root_ref droot = inr root ->
  fs_realpath droot = inr root /\ exists st, fs_stat root = inr st /\ st_kind st = KindDirectory.
Proof.
  unfold root_ref. destruct (fs_realpath droot) as [|r]; [done|].
  destruct (fs_stat r) as [|st] eqn:Es; [done|]. case_bool_decide; [|done].
  intros [= <-]. eauto.
Qed.

(** The index file of a directory. *)
Definition index_of (relative : list byte) : list byte :=
  match relative with [] => lit "index.html" | _ => relative ++ lit "/index.html" end.

Lemma path_buffer_same s s' : path_buffer s = Some s' -> s' = s.
Proof. unfold path_buffer. by case_match; intros [= <-]. Qed.

(** The paths below the root that a target names: the one it normalises to, or
    the index file of that directory. *)
Definition names_below_root (target below : list byte) : Prop :=
  exists portion decoded relative, path_portion (Some target) = inr portion /\
    decode_ref portion = inr decoded /\ normal_ref decoded = inr relative /\
    below ∈ [relative; index_of relative].

(** What is located is not a directory, lies under the canonical root, and is
    what [realpath] makes of the root joined with the path or with its index. *)
Lemma locate_ref_within droot relative path : locate_ref droot relative = inr path ->
  exists root st below joined, root_ref droot = inr root /\ path_is_within_root path root = true /\
    below ∈ [relative; index_of relative] /\
    join_root_relative root below = inr joined /\ fs_realpath joined = inr path /\
    fs_stat path = inr st /\ st_kind st = KindRegular.
Proof.
  unfold locate_ref. destruct (root_ref droot) as [|root] eqn:Er; [done|]. simpl.
  assert (Hfin : forall rel info, resolve_ref root rel = inr (path, info) -> snd info = false ->
    rel ∈ [relative; index_of relative] ->
    exists root' st below joined, inr root = @inr static_file_result_t _ root' /\
      path_is_within_root path root' = true /\
      below ∈ [relative; index_of relative] /\
      join_root_relative root' below = inr joined /\ fs_realpath joined = inr path /\
      fs_stat path = inr st /\ st_kind st = KindRegular).
  { intros rel info (Hw & (j & Hj & Hrp) & st & Hst & Hc)%resolve_ref_within Hd Hin.
    exists root, st, rel, j. split_and!; auto.
    unfold classify_stat in Hc. destruct (st_kind st); [done|by simplify_eq|done]. }
  destruct (resolve_ref root relative) as [|[p0 [sz d]]] eqn:Ef; [done|]. simpl. destruct d.
  - unfold index_ref. destruct (path_buffer _) as [index|] eqn:Eb; [|done].
    apply path_buffer_same in Eb as ->. change (match relative with [] => _ | _ => _ end) with (index_of relative).
    destruct (resolve_ref root (index_of relative)) as [e|[p1 [sz1 d1]]] eqn:Ei; [by destruct e|]. simpl.
    destruct d1; [done|]. simpl. intros [= ->]. apply (Hfin (index_of relative) (sz1, false)); [done..|]. right. by left.
  - intros [= ->]. apply (Hfin relative (sz, false)); [done..|]. by left.
Qed.

Lemma serve_ref_inv droot target path size : serve_ref droot target = inr (path, size) ->
  exists portion decoded relative, path_portion (Some target) = inr portion /\
    decode_ref portion = inr decoded /\ normal_ref decoded = inr relative /\
    locate_ref droot relative = inr path /\ open_ref path = inr size.
Proof.
  unfold serve_ref, try.
  destruct (path_portion (Some target)) as [|p1]; [done|]. destruct (decode_ref p1) as [|p2] eqn:Ed; [done|].
  destruct (normal_ref p2) as [|rel] eqn:En; [done|]. destruct (locate_ref droot rel) as [|p3] eqn:El; [done|].
  destruct (open_ref (c_string p3)) as [|sz] eqn:Eo; [done|]. intros [= <- <-]. exists p1, p2, rel.
  destruct (locate_ref_within _ _ _ El) as (? & ? & ? & ? & _ & _ & _ & _ & Hj & _).
  apply realpath_canonical in Hj as (cs & -> & HF). rewrite c_string_id in * by by apply absolute_no_nul.
  done.
Qed.

Lemma open_ref_inv path size : open_ref path = inr size ->
  fs_open path = None /\ exists st, fs_fstat path = inr st /\ st_kind st = KindRegular /\ st_size st = size.
Proof.
  unfold open_ref. destruct (fs_open path) as [e|]; [by destruct e|].
  destruct (fs_fstat path) as [|st]; [done|]. case_bool_decide; [|done]. simpl.
  repeat case_match; intros; simplify_eq. eauto.
Qed.
End containment.

(** C9. Refinement.  For every target and every pattern of memory exhaustion,
    [static_files_serve] does not fault, returns the file or the error of the
    reference lookup (or OUT_OF_MEMORY after a failed allocation), leaves an
    empty response on every error, and gives back every block and descriptor
    that the response does not carry. *)
Theorem static_files_serve_refines `{FileSystem} droot target resp p :
  held p resp -> NUL ∉ target ->
  wp (static_files_serve droot (Some target) resp) (fun '(rc, r') p' =>
    resp_step p resp p' r' /\ held p' r' /\
    ((exists path size, serve_ref droot target = inr (path, size) /\ rc = STATIC_FILE_OK /\
        file_response path size r') \/
     r' = http_response_init /\ rc <> STATIC_FILE_OK /\
     (serve_ref droot target = inl rc \/ rc = STATIC_FILE_OUT_OF_MEMORY /\ alloc_failed p p'))) p.
Proof.
  intros Hh Hn. eapply wp_mono; [by apply static_files_serve_wp|]. by intros [rc r'] p'.
Qed.

(** C3. Containment.  Whatever the target, its escapes and its dot segments, and
    whatever symbolic links the tree has, a file is only served when the path
    that is opened is what [realpath] made of the document root joined with the
    path that the target names (or with its index file), so that no link is left
    in it; it extends the components of the canonical document root; the open
    descriptor is of a regular file, and its size is the body length and at most
    64 MiB. *)
Theorem static_files_serve_contained `{PosixPaths} droot target resp p :
  held p resp -> NUL ∉ target ->
  wp (static_files_serve droot (Some target) resp) (fun '(rc, r') _ => rc = STATIC_FILE_OK ->
    exists root below joined rest st,
      fs_realpath droot = inr (absolute root) /\ names_below_root target below /\
      join_root_relative (absolute root) below = inr joined /\
      fs_realpath joined = inr (absolute (root ++ rest)) /\ Forall proper_name (root ++ rest) /\
      fs_open (absolute (root ++ rest)) = None /\ fs_fstat (absolute (root ++ rest)) = inr st /\
      st_kind st = KindRegular /\ 0 <= st_size st <= HTTP_MAX_STATIC_FILE_SIZE /\
      file_response (absolute (root ++ rest)) (st_size st) r') p.
Proof.
  intros Hh Hn. eapply wp_mono; [by apply static_files_serve_wp|]. intros [rc r'] p' (_ & _ & Hr) ->.
  destruct Hr as [(path & size & Hs & _ & Hfile)|(_ & ? & _)]; [|done].
  apply serve_ref_inv in Hs as (portion & decoded & rel & Hp & Hde & Hn' & Hl & Ho).
  apply locate_ref_within in Hl as (root & _ & below & j & Hroot & Hw & Hb & Hjoin & Hj & _).
  apply root_ref_inv in Hroot as [Hd _].
  destruct (realpath_canonical _ _ Hd) as (rc & -> & HR).
  destruct (realpath_canonical _ _ Hj) as (pc & -> & HP).
  apply canonical_proper in HR, HP. apply within_components in Hw as [rest ->]; [|done..].
  pose proof (open_ref_size _ _ Ho). apply open_ref_inv in Ho as (Hopen & st & Hst & Hk & <-).
  exists rc, below, j, rest, st. split_and!; try done; [by exists portion, decoded, rel|lia..].
Qed.

(** A server whose document root is the root directory serves nothing: the
    containment test asks for a slash after the root, and the root ends in one,
    so every file below it is refused. *)
Theorem root_directory_serves_nothing `{PosixPaths} droot target resp p :
  held p resp -> NUL ∉ target -> fs_realpath droot = inr (lit "/") ->
  wp (static_files_serve droot (Some target) resp) (fun '(rc, r') _ =>
    rc <> STATIC_FILE_OK /\ r' = http_response_init) p.
Proof.
  intros Hh Hn Hroot. eapply wp_mono; [by apply static_files_serve_wp|].
  intros [rc r'] p' (_ & _ & [(path & size & Hs & _)|(-> & ? & _)]); [|done]. exfalso.
  apply serve_ref_inv in Hs as (_ & _ & rel & _ & _ & _ & Hl & _).
  apply locate_ref_within in Hl as (root & st & _ & j & Hr & Hw & _ & _ & Hj & Hst & Hk).
  apply root_ref_inv in Hr as (Hr & st' & Hst' & Hk'). rewrite Hroot in Hr. injection Hr as <-.
  apply within_slash in Hw as [->|[rest ->]]; [congruence|].
  apply realpath_canonical in Hj as (cs & Heq & HF). unfold absolute in Heq. injection Heq as Heq.
  destruct HF as [|s cs [(Hs & _ & _ & Hsl) _] _]; [done|].
  destruct s as [|c s]; [done|]. destruct cs; simpl in Heq; injection Heq as <- _; set_solver.
Qed.

(** ** A small site *)

(** A document root with an index file, a text file and a link that leaves it. *)
Definition site_files : list (list byte * file_stat) :=
  [(lit "/srv", Stat KindDirectory 4096); (lit "/srv/index.html", Stat KindRegular 12);
   (lit "/srv/a.txt", Stat KindRegular 5); (lit "/etc/passwd", Stat KindRegular 100)].

Definition site_stat (path : list byte) : errno + file_stat :=
  match find (fun e => bool_decide (fst e = path)) site_files with
  | Some (_, st) => inr st
  | None => inl ENOENT
  end.

Definition site_links (path : list byte) : list byte :=
  if bool_decide (path = lit "./public") then lit "/srv"
  else if bool_decide (path = lit "/srv/out") then lit "/etc/passwd"
  else path.

Definition site : FileSystem :=
  {| fs_realpath := fun path => try (site_stat (site_links path)) (fun _ => inr (site_links path));
     fs_stat := site_stat;
     fs_open := fun path => match site_stat path with inl e => Some e | inr _ => None end;
     fs_fstat := site_stat |}.

Lemma site_posix : @PosixPaths site.
Proof.
  intros path r. cbn [site fs_realpath]. unfold site_stat.
  destruct (find _ site_files) as [[p st]|] eqn:E; cbn; [|done]. intros [= <-].
  apply find_some in E as [Hin Hp%bool_decide_eq_true]. cbn [fst] in Hp. rewrite <- Hp. clear Hp.
  assert (Hcs : exists cs, p = absolute cs /\ forallb (fun s => negb (bool_decide (s = [])) &&
    negb (bool_decide (s = lit ".")) && negb (bool_decide (s = lit "..")) &&
    negb (bool_decide ("/"%byte ∈ s)) && negb (bool_decide (NUL ∈ s))) cs = true).
  { repeat destruct Hin as [[= <- <-]|Hin]; [exists [lit "srv"]|exists [lit "srv"; lit "index.html"]|
      exists [lit "srv"; lit "a.txt"]|exists [lit "etc"; lit "passwd"]|done]; by vm_compute. }
  destruct Hcs as (cs & -> & Hf). exists cs. split; [done|]. apply Forall_forall. intros s Hs.
  rewrite forallb_forall in Hf. specialize (Hf s (proj1 (list_elem_of_In _ _) Hs)). bool_simp.
  repeat match goal with H : bool_decide _ = false |- _ => apply bool_decide_eq_false in H end.
  by split_and!.
Qed.

Example site_lookups :
  @serve_ref site (lit "./public") (lit "/") = inr (lit "/srv/index.html", 12) /\
  @serve_ref site (lit "./public") (lit "/x/../%61.txt?v=1") = inr (lit "/srv/a.txt", 5) /\
  @serve_ref site (lit "./public") (lit "/out") = inl STATIC_FILE_FORBIDDEN /\
  @serve_ref site (lit "./public") (lit "/%2e%2e/etc/passwd") = inl STATIC_FILE_FORBIDDEN /\
  @serve_ref site (lit "./public") (lit "/b.txt") = inl STATIC_FILE_NOT_FOUND /\
  @serve_ref site (lit "./public") (lit "/a%00.txt") = inl STATIC_FILE_BAD_TARGET.
Proof. split_and!; vm_compute; reflexivity. Qed.

Lemma static_files_serve_refines_witness : let p := fresh_proc (fun _ => true) in
  wp (@static_files_serve site (lit "./public") (Some (lit "/a.txt")) http_response_init)
    (fun '(rc, r') p' => resp_step p http_response_init p' r' /\ held p' r' /\
    ((exists path size, @serve_ref site (lit "./public") (lit "/a.txt") = inr (path, size) /\
        rc = STATIC_FILE_OK /\ file_response path size r') \/
     r' = http_response_init /\ rc <> STATIC_FILE_OK /\
     (@serve_ref site (lit "./public") (lit "/a.txt") = inl rc \/
      rc = STATIC_FILE_OUT_OF_MEMORY /\ alloc_failed p p'))) p.
Proof.
  intros p. apply (@static_files_serve_refines site); [apply held_init|].
  by apply (bool_decide_unpack _).
Defined.

Lemma static_files_serve_contained_witness :
  wp (@static_files_serve site (lit "./public") (Some (lit "/a.txt")) http_response_init)
    (fun '(rc, r') _ => rc = STATIC_FILE_OK ->
    exists root below joined rest st,
      @fs_realpath site (lit "./public") = inr (absolute root) /\ names_below_root (lit "/a.txt") below /\
      join_root_relative (absolute root) below = inr joined /\
      @fs_realpath site joined = inr (absolute (root ++ rest)) /\ Forall proper_name (root ++ rest) /\
      @fs_open site (absolute (root ++ rest)) = None /\
      @fs_fstat site (absolute (root ++ rest)) = inr st /\
      st_kind st = KindRegular /\ 0 <= st_size st <= HTTP_MAX_STATIC_FILE_SIZE /\
      file_response (absolute (root ++ rest)) (st_size st) r') (fresh_proc (fun _ => true)).
Proof.
  apply (@static_files_serve_contained site site_posix); [apply held_init|].
  by apply (bool_decide_unpack _).
Defined.

(** The root directory and one file in it. *)
Definition tiny : FileSystem :=
  {| fs_realpath := fun path => if bool_decide (path = lit "/") then inr (lit "/")
       else if bool_decide (path = lit "//a") then inr (lit "/a") else inl ENOENT;
     fs_stat := fun path => if bool_decide (path = lit "/") then inr (Stat KindDirectory 0)
       else if bool_decide (path = lit "/a") then inr (Stat KindRegular 1) else inl ENOENT;
     fs_open := fun path => if bool_decide (path = lit "/a") then None else Some ENOENT;
     fs_fstat := fun _ => inr (Stat KindRegular 1) |}.

Lemma tiny_posix : @PosixPaths tiny.
Proof.
  intros path r. cbn [tiny fs_realpath]. case_bool_decide; [intros [= <-]; by exists []|].
  case_bool_decide; intros [= <-]. exists [lit "a"]. split; [done|]. repeat constructor; try done.
  all: by apply (bool_decide_unpack _).
Qed.

Lemma root_directory_serves_nothing_witness :
  wp (@static_files_serve tiny (lit "/") (Some (lit "/a")) http_response_init)
    (fun '(rc, r') _ => rc <> STATIC_FILE_OK /\ r' = http_response_init) (fresh_proc (fun _ => true)).
Proof.
  apply (@root_directory_serves_nothing tiny tiny_posix);
    [apply held_init|by apply (bool_decide_unpack _)|vm_compute; reflexivity].
Defined.
