(* ===== verification/Router.v ===== *)
(** * The API router: router.h and router.c

    Route matching and the three handlers under /api.  The shared counters are
    passed as the value they have when the handler takes its snapshot. *)
From S2P Require Import Prelude CLib Proc Request World Response Stats.

(** [router_context_t]; the configuration is not used by any handler. *)
Record router_context_t := RouterContext { ctx_stats : option server_stats_t }.

Inductive router_result_t := ROUTER_HANDLED | ROUTER_ERROR.

#[global] Instance router_result_eq_dec : EqDecision router_result_t.
Proof. solve_decision. Defined.

(** ** Matching *)

(** The comparison loop and the two tests that follow it. *)
Fixpoint path_equals_loop (target route_path : list byte) : bool :=
  match target, route_path with
  | c :: target', r :: route_path' =>
      if c =?b "?" then false
      else if negb (c =?b r) then false
      else path_equals_loop target' route_path'
  | [], _ :: _ => false
  | [], [] => true
  | c :: _, [] => c =?b "?"
  end.

Definition path_equals (target route_path : option (list byte)) : bool :=
  match target, route_path with
  | Some target, Some route_path => path_equals_loop target route_path
  | _, _ => false
  end.

Fixpoint api_prefix_loop (target prefix : list byte) : bool :=
  match prefix with
  | [] => true
  | x :: prefix' =>
      match target with
      | [] => false
      | c :: target' => if (c =?b "?") || negb (c =?b x) then false else api_prefix_loop target' prefix'
      end
  end.

Definition path_has_api_prefix (target : option (list byte)) : bool :=
  match target with
  | None => false
  | Some t => if path_equals target (Some (lit "/api")) then true else api_prefix_loop t (lit "/api/")
  end.

Definition router_is_api_request (request : http_request_t) : bool :=
  path_has_api_prefix (cs_string <$> req_target request).

Definition method_compatible (route_method request_method : http_method_t) : bool :=
  if bool_decide (route_method = request_method) then true
  else bool_decide (route_method = HTTP_METHOD_GET) && bool_decide (request_method = HTTP_METHOD_HEAD).

(** ** Handlers *)

(** A handler returns whether it succeeded (0 in the source). *)
Definition route_handler_fn : Type :=
  router_context_t -> http_request_t -> http_response_t -> M proc (bool * http_response_t).

Definition DQ : list byte := [x22].
Definition quoted (s : list byte) : list byte := DQ ++ s ++ DQ.

Definition health_json : list byte :=
  lit "{" ++ quoted (lit "status") ++ lit ":" ++ quoted (lit "ok") ++ lit "}".

Definition handle_health : route_handler_fn := fun _ _ response =>
  http_response_build_json response 200 (Some health_json).

Definition handle_echo : route_handler_fn := fun _ request response =>
  response ← http_response_destroy response;
  let response := http_response_set_status 200 response in
  '(ok, response) ← http_response_set_body_copy response (cs_bytes <$> req_body request)
                      (req_body_length request);
  if negb ok then mret (false, response)
  else
    let content_type :=
      match cs_string <$> http_request_get_header request (Some (lit "Content-Type")) with
      | None | Some [] => lit "application/octet-stream"
      | Some ct => ct
      end in
    http_response_add_header response (lit "Content-Type") content_type.

Definition json_field (name : list byte) (value : Z) : list byte :=
  quoted name ++ lit ":" ++ fmt_unsigned value.

(** What [snprintf] formats. *)
Definition stats_json (snap : server_stats_snapshot_t) : list byte :=
  lit "{" ++ json_field (lit "connections_accepted") (snap_connections_accepted snap) ++
  lit "," ++ json_field (lit "requests_total") (snap_requests_total snap) ++
  lit "," ++ json_field (lit "responses_2xx") (snap_responses_2xx snap) ++
  lit "," ++ json_field (lit "responses_4xx") (snap_responses_4xx snap) ++
  lit "," ++ json_field (lit "responses_5xx") (snap_responses_5xx snap) ++
  lit "," ++ json_field (lit "active_connections") (snap_active_connections snap) ++ lit "}".

Definition handle_stats : route_handler_fn := fun ctx _ response =>
  match ctx_stats ctx with
  | None => mret (false, response)
  | Some stats =>
      let json := stats_json (server_stats_snapshot stats) in
      if 512 <=? zlen json then mret (false, response)
      else http_response_build_json response 200 (Some json)
  end.

(** ** Routes *)

Record route_t := Route {
  rt_method : http_method_t;
  rt_path : list byte;
  rt_handler : route_handler_fn;
}.

Definition ROUTES : list route_t :=
  [Route HTTP_METHOD_GET (lit "/api/health") handle_health;
   Route HTTP_METHOD_POST (lit "/api/echo") handle_echo;
   Route HTTP_METHOD_GET (lit "/api/stats") handle_stats].

(** [None] stands for -1; [out_size] is the size of the buffer. *)
Definition build_allow_header (path : list byte) (out_size : Z) : option (list byte) :=
  let here m := existsb (fun r => strcmp_eq (rt_path r) path && bool_decide (rt_method r = m)) ROUTES in
  if out_size =? 0 then None
  else
    let get := if here HTTP_METHOD_GET then lit "GET, HEAD" else [] in
    if out_size <=? zlen get then None
    else
      let post := if here HTTP_METHOD_POST
                  then (if 0 <? zlen get then lit ", " else []) ++ lit "POST" else [] in
      if here HTTP_METHOD_POST && (out_size - zlen get <=? zlen post) then None
      else match get ++ post with [] => None | out => Some out end.

Definition build_api_error (response : http_response_t) (status : Z) (json_error : list byte)
    (allow : option (list byte)) : M proc (bool * http_response_t) :=
  '(ok, response) ← http_response_build_json response status (Some json_error);
  if negb ok then mret (false, response)
  else
    match allow with
    | Some ((_ :: _) as allow) => http_response_add_header response (lit "Allow") allow
    | _ => mret (true, response)
    end.

Definition error_json (what : list byte) : list byte :=
  lit "{" ++ quoted (lit "error") ++ lit ":" ++ quoted what ++ lit "}".

(** The loop over the routes: the first compatible one, and the last path that
    matched. *)
Fixpoint find_route (routes : list route_t) (target : list byte) (method : http_method_t)
    (matched_path : option (list byte)) : option (list byte) * option route_handler_fn :=
  match routes with
  | [] => (matched_path, None)
  | r :: routes =>
      if negb (path_equals (Some target) (Some (rt_path r))) then
        find_route routes target method matched_path
      else if method_compatible (rt_method r) method then (Some (rt_path r), Some (rt_handler r))
      else find_route routes target method (Some (rt_path r))
  end.

(** From 0 / -1 to the result. *)
Definition routed (res : bool * http_response_t) : router_result_t * http_response_t :=
  (if fst res then ROUTER_HANDLED else ROUTER_ERROR, snd res).

Definition router_dispatch (ctx : router_context_t) (request : http_request_t)
    (response : http_response_t) : M proc (router_result_t * http_response_t) :=
  match req_target request with
  | None => mret (ROUTER_ERROR, response)
  | Some target =>
      let '(matched_path, handler) := find_route ROUTES (cs_string target) (req_method request) None in
      match handler with
      | Some h => res ← h ctx request response; mret (routed res)
      | None =>
          match matched_path with
          | Some path =>
              res ← build_api_error response 405 (error_json (lit "method not allowed"))
                      (build_allow_header path 64);
              mret (routed res)
          | None =>
              res ← build_api_error response 404 (error_json (lit "not found")) None;
              mret (routed res)
          end
      end
  end.
