(* ===== verification/RouterCorrect.v ===== *)
(** * Correctness of the router

    The path before the query decides; the answer of [router_dispatch] is given
    by a table of the API, on every method and path. *)
From S2P Require Import Prelude CLib Proc Request Parser ParserSpec World Response ResponseCorrect Stats Router.

(** ** Matching *)

Definition not_query (c : byte) : bool := negb (c =?b "?").

(** The path of a target: what precedes the query. *)
Definition path_of (target : list byte) : list byte := fst (span not_query target).

Lemma path_of_cons c target : path_of (c :: target) = if not_query c then c :: path_of target else [].
Proof. unfold path_of. simpl. destruct (not_query c); [|done]. by destruct (span not_query target). Qed.

Lemma path_equals_loop_true target route :
  Forall (fun c => not_query c = true) route ->
  path_equals_loop target route = true <-> path_of target = route.
Proof.
  intros HF. revert target. induction HF as [|r route Hr HF IH]; intros [|c target]; simpl; try done.
  - rewrite path_of_cons. unfold not_query. by destruct (c =?b "?").
  - rewrite path_of_cons. unfold not_query in *. destruct (c =?b "?") eqn:Eq; simpl; [done|].
    destruct (c =?b r) eqn:Er; simpl.
    + apply eqb_eq_byte in Er as ->. rewrite IH. split; [by intros ->|by intros [= ->]].
    + apply eqb_neq_byte in Er. split; [done|]. by intros [= ? _].
Qed.

Lemma api_prefix_loop_true target prefix :
  Forall (fun c => not_query c = true) prefix ->
  api_prefix_loop target prefix = true <-> prefix `prefix_of` path_of target.
Proof.
  intros HF. revert target. induction HF as [|r prefix Hr HF IH]; intros target.
  { split; [intros _; apply prefix_nil|by destruct target]. }
  destruct target as [|c target]; simpl.
  { split; [done|]. intros [k Hk]. done. }
  rewrite path_of_cons. unfold not_query in *. destruct (c =?b "?") eqn:Eq; simpl.
  { split; [done|]. intros [k Hk]. done. }
  destruct (c =?b r) eqn:Er; simpl.
  - apply eqb_eq_byte in Er as ->. rewrite IH. split; [by apply prefix_cons|by apply prefix_cons_inv_2].
  - apply eqb_neq_byte in Er. split; [done|]. intros Hp. by apply prefix_cons_inv_1 in Hp.
Qed.

(** The API namespace: the path is /api or lies below it; the query does not
    count, and a longer first segment such as /apix is not in it. *)
Theorem api_namespace request target : req_target request = Some target ->
  router_is_api_request request = true <->
  path_of (cs_string target) = lit "/api" \/ lit "/api/" `prefix_of` path_of (cs_string target).
Proof.
  intros Ht. unfold router_is_api_request. rewrite Ht.
  change (cs_string <$> Some target) with (Some (cs_string target)).
  unfold path_has_api_prefix, path_equals.
  destruct (path_equals_loop (cs_string target) (lit "/api")) eqn:E.
  - apply path_equals_loop_true in E; [|by repeat constructor]. split; [by left|done].
  - rewrite api_prefix_loop_true by by repeat constructor. split; [by right|]. intros [H|]; [|done].
    apply path_equals_loop_true in H; [congruence|by repeat constructor].
Qed.

Lemma api_namespace_witness :
  let r := {| req_method := HTTP_METHOD_GET; req_target := Some (CStr (Some 0%nat) (lit "/api?x"));
              req_version := None; req_array := None; req_headers := []; req_body := None;
              req_body_length := 0 |} in
  router_is_api_request r = true <->
  path_of (lit "/api?x") = lit "/api" \/ lit "/api/" `prefix_of` path_of (lit "/api?x").
Proof. intros r. apply (api_namespace r (CStr (Some 0%nat) (lit "/api?x"))). reflexivity. Defined.

(** ** The table of the API *)

Record answer := Answer {
  an_status : Z;
  an_type : list byte;
  an_allow : list (list byte * list byte);
  an_body : list byte;
}.

Definition json_answer (status : Z) (json : list byte) : answer :=
  Answer status (lit "application/json") [] json.

Definition not_allowed (methods : list byte) : answer :=
  Answer 405 (lit "application/json") [(lit "Allow", methods)] (error_json (lit "method not allowed")).

Definition is_get_or_head (m : http_method_t) : bool :=
  match m with HTTP_METHOD_GET | HTTP_METHOD_HEAD => true | _ => false end.

(** The media type of an echoed body. *)
Definition echo_type (content_type : option (list byte)) : list byte :=
  match content_type with None | Some [] => lit "application/octet-stream" | Some ct => ct end.

Definition api_table (stats : server_stats_t) (content_type : option (list byte)) (m : http_method_t)
    (path body : list byte) : answer :=
  if bool_decide (path = lit "/api/health") then
    if is_get_or_head m then json_answer 200 health_json else not_allowed (lit "GET, HEAD")
  else if bool_decide (path = lit "/api/echo") then
    if bool_decide (m = HTTP_METHOD_POST) then Answer 200 (echo_type content_type) [] body
    else not_allowed (lit "POST")
  else if bool_decide (path = lit "/api/stats") then
    if is_get_or_head m then json_answer 200 (stats_json (server_stats_snapshot stats))
    else not_allowed (lit "GET, HEAD")
  else json_answer 404 (error_json (lit "not found")).

Definition answers (a : answer) (r : http_response_t) : Prop :=
  status_code r = an_status a /\ reason_phrase r = http_reason_phrase (an_status a) /\
  header_pairs r = (lit "Content-Type", an_type a) :: an_allow a /\
  suppress_auto_connection_close r = false /\
  match an_body a with
  | [] => body_kind r = HTTP_BODY_NONE
  | b => body_kind r = HTTP_BODY_MEMORY /\ cs_bytes <$> rsp_body r = Some b
  end.

(** An API call either gives the answer or ran out of memory. *)
Definition call_post (p : proc) (r : http_response_t) (a : answer)
    (res : bool * http_response_t) (p' : proc) : Prop :=
  let '(ok, r') := res in
  resp_step p r p' r' /\ held p' r' /\ if (ok : bool) then answers a r' else alloc_failed p p'.

Lemma build_json_call r code json p : held p r -> json <> [] ->
  wp (http_response_build_json r code (Some json)) (call_post p r (json_answer code json)) p.
Proof.
  intros Hh Hne. eapply wp_mono; [by apply build_wp|]. intros [[] r'] p' (Hs & Hh' & Hr); [|done].
  destruct Hr as (H1 & H2 & H3 & H4 & H5). split_and!; auto. unfold answers. split_and!; auto.
  simpl. by destruct json.
Qed.

Lemma build_api_error_call r status json methods p : held p r -> json <> [] ->
  wp (build_api_error r status json methods)
    (call_post p r (Answer status (lit "application/json")
      (match methods with Some ((_ :: _) as v) => [(lit "Allow", v)] | _ => [] end) json)) p.
Proof.
  intros Hh Hne. unfold build_api_error. apply wp_bind.
  eapply wp_mono; [by apply build_json_call|]. intros [[] r1] p1 (Hs & Hh1 & Hr); simpl negb; cbv iota.
  2: by apply wp_ret.
  destruct methods as [[|c v]|]; [by apply wp_ret| |by apply wp_ret].
  eapply wp_mono; [by apply add_header_wp|]. intros [[] r2] p2 (Hs2 & Hh2 & Hr2).
  - split_and!; [by eapply resp_step_trans|done|]. destruct Hr2 as (arr & h & -> & Hp).
    destruct Hr as (H1 & H2 & H3 & H4 & H5). split_and!; auto.
    unfold header_pairs in *. simpl in *. rewrite map_app, H3. simpl. by rewrite Hp.
  - split_and!; [by eapply resp_step_trans|done|]. destruct Hr2 as [_ Hf].
    eapply advances_failed_r; [apply Hs|done].
Qed.

(** The body of the echoed request. *)
Lemma set_echo_body_wp r body len bytes p : held p r -> len = zlen bytes ->
  body = match bytes with [] => None | x :: l => Some (x :: l) end ->
  wp (http_response_set_body_copy r body len) (op_post p r (fun r' =>
    match bytes with
    | [] => r' = set_rsp_body HTTP_BODY_NONE None 0 false None r
    | b => memory_body b r r'
    end)) p.
Proof.
  intros Hh -> ->. destruct bytes as [|c bytes]; [|by apply set_body_copy_wp].
  unfold http_response_set_body_copy. simpl. apply wp_bind.
  eapply wp_mono; [by apply clear_body_wp|]. intros r' p' (Hs & Hh' & ->). by apply wp_ret.
Qed.

Lemma handle_echo_call ctx request a r p : held p r -> shows request a ->
  wp (handle_echo ctx request r) (call_post p r (Answer 200
    (echo_type (cs_string <$> http_request_get_header request (Some (lit "Content-Type")))) []
    (rq_body a))) p.
Proof.
  intros Hh Hsh. unfold handle_echo. apply wp_bind.
  eapply wp_mono; [by apply response_destroy_wp|]. intros r1 p1 [-> Hs1].
  set (r2 := http_response_set_status 200 http_response_init).
  assert (Hs2 : resp_step p r p1 r2) by (destruct Hs1; by split).
  assert (Hh2 : held p1 r2).
  { apply held_status. eapply held_step; [done..|]. apply owned_response_init. }
  apply wp_bind. eapply wp_mono; [apply set_echo_body_wp; [done|apply (sh_body_length _ _ Hsh)|apply (sh_body _ _ Hsh)]|].
  intros [[] r3] p3 (Hs3 & Hh3 & Hr3); simpl negb; cbv iota.
  2: { apply wp_ret. destruct Hr3 as [-> Hf]. split_and!; [by eapply resp_step_trans|done|].
    eapply advances_failed_r; [apply Hs2|done]. }
  assert (Hs : resp_step p r p3 r3) by by eapply resp_step_trans.
  eapply wp_mono; [by apply add_header_wp|]. intros [[] r4] p4 (Hs4 & Hh4 & Hr4).
  - split_and!; [by eapply resp_step_trans|done|]. destruct Hr4 as (arr & h & -> & Hp).
    unfold answers. simpl. destruct (rq_body a) as [|c b]; [|destruct Hr3 as [blk0 Hr3]]; subst r3;
      split_and!; auto; unfold header_pairs; simpl; by rewrite Hp.
  - split_and!; [by eapply resp_step_trans|done|]. destruct Hr4 as [_ Hf].
    eapply advances_failed_r; [apply Hs|done].
Qed.

(** ** The statistics fit their buffer *)

(** Counters are [uint64_t]. *)
Definition counters_in_range (s : server_stats_t) : Prop :=
  Forall (fun z => 0 <= z <= SIZE_MAX)
    [connections_accepted s; requests_total s; responses_2xx s; responses_4xx s; responses_5xx s;
     active_connections s].

Lemma json_field_length name value : 0 <= value <= SIZE_MAX ->
  zlen (json_field name value) <= zlen name + 23.
Proof.
  intros (_ & Hl & _)%fmt_unsigned_spec. unfold json_field, quoted, DQ, zlen.
  rewrite !length_app. change (length (lit ":")) with 1%nat. change (length [x22]) with 1%nat. lia.
Qed.

Lemma stats_json_fits s : counters_in_range s -> zlen (stats_json (server_stats_snapshot s)) < 512.
Proof.
  unfold counters_in_range. rewrite !Forall_cons_eqv. intros (H1 & H2 & H3 & H4 & H5 & H6 & _).
  assert (Hz : 0 <= 0 <= SIZE_MAX) by (unfold SIZE_MAX; lia).
  assert (Hall : forall a b c d e f, 0 <= a <= SIZE_MAX -> 0 <= b <= SIZE_MAX -> 0 <= c <= SIZE_MAX ->
    0 <= d <= SIZE_MAX -> 0 <= e <= SIZE_MAX -> 0 <= f <= SIZE_MAX ->
    zlen (stats_json (Snapshot a b c d e f)) < 512).
  { intros a b c d e f Ha Hb Hc Hd He Hf. unfold stats_json. rewrite !zlen_app.
    pose proof (json_field_length (lit "connections_accepted") a Ha).
    pose proof (json_field_length (lit "requests_total") b Hb).
    pose proof (json_field_length (lit "responses_2xx") c Hc).
    pose proof (json_field_length (lit "responses_4xx") d Hd).
    pose proof (json_field_length (lit "responses_5xx") e He).
    pose proof (json_field_length (lit "active_connections") f Hf).
    repeat match goal with H : context [zlen (lit ?s)] |- _ =>
      let n := eval vm_compute in (zlen (lit s)) in change (zlen (lit s)) with n in H end.
    change (zlen (lit "{")) with 1. change (zlen (lit ",")) with 1. change (zlen (lit "}")) with 1.
    cbn [snap_connections_accepted snap_requests_total snap_responses_2xx snap_responses_4xx
      snap_responses_5xx snap_active_connections]. lia. }
  unfold server_stats_snapshot. destruct (initialized s); simpl; by apply Hall.
Qed.

Lemma stats_json_nonempty s : stats_json (server_stats_snapshot s) <> [].
Proof. done. Qed.

(** ** Dispatch *)

Lemma path_equals_decide target route : Forall (fun c => not_query c = true) route ->
  path_equals (Some target) (Some route) = bool_decide (path_of target = route).
Proof.
  intros HF. apply eq_true_iff_eq. rewrite bool_decide_eq_true. by apply path_equals_loop_true.
Qed.

(** The handler or the error that the loop over the routes ends in. *)
Lemma find_route_cases target m :
  find_route ROUTES target m None =
  if bool_decide (path_of target = lit "/api/health") then
    (Some (lit "/api/health"), if is_get_or_head m then Some handle_health else None)
  else if bool_decide (path_of target = lit "/api/echo") then
    (Some (lit "/api/echo"), if bool_decide (m = HTTP_METHOD_POST) then Some handle_echo else None)
  else if bool_decide (path_of target = lit "/api/stats") then
    (Some (lit "/api/stats"), if is_get_or_head m then Some handle_stats else None)
  else (None, None).
Proof.
  unfold ROUTES. cbn [find_route rt_path rt_method rt_handler].
  rewrite !path_equals_decide by by repeat constructor.
  destruct (decide (path_of target = lit "/api/health")) as [->|H1];
    [by rewrite bool_decide_eq_true_2 by done; destruct m|rewrite (bool_decide_eq_false_2 _ H1)].
  destruct (decide (path_of target = lit "/api/echo")) as [->|H2];
    [by rewrite bool_decide_eq_true_2 by done; destruct m|rewrite (bool_decide_eq_false_2 _ H2)].
  destruct (decide (path_of target = lit "/api/stats")) as [->|H3];
    [by rewrite bool_decide_eq_true_2 by done; destruct m|by rewrite (bool_decide_eq_false_2 _ H3)].
Qed.

Definition dispatch_post (p : proc) (r : http_response_t) (a : answer)
    (res : router_result_t * http_response_t) (p' : proc) : Prop :=
  let '(rc, r') := res in resp_step p r p' r' /\ held p' r' /\
  match rc with ROUTER_HANDLED => answers a r' | ROUTER_ERROR => alloc_failed p p' end.

Lemma wp_routed m p r a : wp m (call_post p r a) p ->
  wp (res ← m; mret (routed res)) (dispatch_post p r a) p.
Proof.
  intros Hm. apply wp_bind. eapply wp_mono; [done|]. intros [[] r'] p' (Hs & Hh & Hr); by apply wp_ret.
Qed.

Lemma router_dispatch_wp stats request a r p :
  held p r -> shows request a -> NUL ∉ rq_target a -> counters_in_range stats ->
  wp (router_dispatch (RouterContext (Some stats)) request r)
    (dispatch_post p r (api_table stats
       (cs_string <$> http_request_get_header request (Some (lit "Content-Type")))
       (rq_method a) (path_of (rq_target a)) (rq_body a))) p.
Proof.
  intros Hh Hsh Hn Hst. unfold router_dispatch. pose proof (sh_target _ _ Hsh) as Ht.
  apply fmap_Some in Ht as (t & -> & Ht). unfold cs_string at 1. rewrite <- Ht, c_string_id by done.
  rewrite (sh_method _ _ Hsh), find_route_cases. unfold api_table.
  assert (Hno : forall path methods, build_allow_header path 64 = Some methods -> methods <> [] ->
    wp (res ← build_api_error r 405 (error_json (lit "method not allowed")) (build_allow_header path 64);
        mret (routed res)) (dispatch_post p r (not_allowed methods)) p).
  { intros path methods -> Hne. apply wp_routed. eapply wp_mono; [by apply build_api_error_call|].
    intros res p'. by destruct methods. }
  destruct (bool_decide (path_of (rq_target a) = lit "/api/health")).
  { destruct (is_get_or_head (rq_method a)); [by apply wp_routed, build_json_call|by apply Hno]. }
  destruct (bool_decide (path_of (rq_target a) = lit "/api/echo")).
  { destruct (bool_decide _); [by apply wp_routed, handle_echo_call|by apply Hno]. }
  destruct (bool_decide (path_of (rq_target a) = lit "/api/stats")).
  { destruct (is_get_or_head (rq_method a)); [|by apply Hno]. apply wp_routed. unfold handle_stats.
    cbn [ctx_stats]. pose proof (stats_json_fits stats Hst). destruct (Z.leb_spec 512 (zlen (stats_json (server_stats_snapshot stats)))); [lia|].
    by apply build_json_call. }
  by apply wp_routed, build_api_error_call.
Qed.

(** C10. The API.  For every request that parsed and every state of the counters,
    [router_dispatch] builds the answer of the API table: 404 off the table, 405
    with the methods of the path in Allow, the health and statistics documents
    for GET and HEAD, and for POST /api/echo the body byte for byte under the
    media type it came with; it fails only after a failed allocation, and never
    keeps a block the response does not own. *)
Theorem router_dispatch_table stats request a r p :
  held p r -> shows request a -> NUL ∉ rq_target a -> counters_in_range stats ->
  wp (router_dispatch (RouterContext (Some stats)) request r) (fun '(rc, r') p' =>
    resp_step p r p' r' /\ held p' r' /\
    match rc with
    | ROUTER_HANDLED => answers (api_table stats
        (cs_string <$> http_request_get_header request (Some (lit "Content-Type")))
        (rq_method a) (path_of (rq_target a)) (rq_body a)) r'
    | ROUTER_ERROR => alloc_failed p p'
    end) p.
Proof. intros. eapply wp_mono; [by apply router_dispatch_wp|]. by intros [rc r'] p'. Qed.

(** A POST to the echo route, with a query. *)
Definition echo_contents : ParserSpec.request :=
  Req HTTP_METHOD_POST (lit "/api/echo?x=1") (lit "HTTP/1.1") [(lit "content-type", lit "text/csv")]
    (lit "a,b").

Definition echo_request : http_request_t :=
  {| req_method := HTTP_METHOD_POST; req_target := Some (CStr (Some 0%nat) (lit "/api/echo?x=1"));
     req_version := Some (CStr (Some 1%nat) (lit "HTTP/1.1")); req_array := Some 2%nat;
     req_headers := [Header (CStr (Some 3%nat) (lit "content-type")) (CStr (Some 4%nat) (lit "text/csv"))];
     req_body := Some (CStr (Some 5%nat) (lit "a,b")); req_body_length := 3 |}.

Example echo_answer :
  api_table (zero_stats true) (cs_string <$> http_request_get_header echo_request (Some (lit "Content-Type")))
    HTTP_METHOD_POST (path_of (lit "/api/echo?x=1")) (lit "a,b") =
  Answer 200 (lit "text/csv") [] (lit "a,b").
Proof. vm_compute. reflexivity. Qed.

Lemma router_dispatch_table_witness : let p := fresh_proc (fun _ => true) in
  wp (router_dispatch (RouterContext (Some (zero_stats true))) echo_request http_response_init)
    (fun '(rc, r') p' => resp_step p http_response_init p' r' /\ held p' r' /\
    match rc with
    | ROUTER_HANDLED => answers (api_table (zero_stats true)
        (cs_string <$> http_request_get_header echo_request (Some (lit "Content-Type")))
        HTTP_METHOD_POST (path_of (lit "/api/echo?x=1")) (lit "a,b")) r'
    | ROUTER_ERROR => alloc_failed p p'
    end) p.
Proof.
  intros p. apply (router_dispatch_table (zero_stats true) echo_request echo_contents).
  - apply held_init.
  - by split.
  - by apply (bool_decide_unpack _).
  - repeat constructor; by vm_compute.
Defined.
