(* ===== verification/Logger.v ===== *)
(** * The logger: logger.h and logger.c

    One call writes one line under the mutex, so a call is one step and a run of
    several threads is a sequence of calls; LoggerThreads.v has the mutex, and
    threads that write a byte at a time.  [vfprintf] is modelled for the
    directives that the program uses. *)
From S2P Require Import Prelude CLib.

(** [g_logger_ready], and what has been written to [stderr]. *)
Record logger_t := Logger { lg_ready : bool; lg_stderr : list byte }.

(** ** Formatting *)

(** The arguments of a call: a string, an [int], an [unsigned] or [size_t]. *)
Inductive arg := ArgString (s : list byte) | ArgInt (n : Z) | ArgUnsigned (n : Z).

(** Formats with %s, %d, %u and %zu; [None] when a directive is another one or
    does not fit its argument, which C leaves undefined. *)
Fixpoint vformat (format : list byte) (args : list arg) : option (list byte) :=
  match format with
  | [] => Some []
  | c :: rest =>
      if c =?b "%" then
        match rest with
        | d :: rest' =>
            if d =?b "s" then
              match args with
              | ArgString s :: args => (fun out => s ++ out) <$> vformat rest' args
              | _ => None
              end
            else if d =?b "d" then
              match args with
              | ArgInt n :: args => (fun out => fmt_int n ++ out) <$> vformat rest' args
              | _ => None
              end
            else if d =?b "u" then
              match args with
              | ArgUnsigned n :: args => (fun out => fmt_unsigned n ++ out) <$> vformat rest' args
              | _ => None
              end
            else if d =?b "z" then
              match rest' with
              | u :: rest'' =>
                  if u =?b "u" then
                    match args with
                    | ArgUnsigned n :: args => (fun out => fmt_unsigned n ++ out) <$> vformat rest'' args
                    | _ => None
                    end
                  else None
              | [] => None
              end
            else None
        | [] => None
        end
      else (fun out => c :: out) <$> vformat rest args
  end.

(** ** Operations *)

Definition logger_init (lg : logger_t) : bool * logger_t := (true, Logger true (lg_stderr lg)).

Definition logger_destroy (lg : logger_t) : logger_t := Logger false (lg_stderr lg).

(** [len == 0 || format[len - 1] != '\n'] *)
Definition needs_newline (format : list byte) : bool :=
  match last format with None => true | Some c => negb (c =?b LF) end.

(** The critical section; [None] for an undefined format. *)
Definition emit (prefix format : list byte) (args : list arg) (lg : logger_t) : option logger_t :=
  if lg_ready lg then
    text ← vformat format args;
    Some (Logger true (lg_stderr lg ++ prefix ++ text ++ if needs_newline format then [LF] else []))
  else Some lg.

Definition logger_log (format : option (list byte)) (args : list arg) (lg : logger_t) : option logger_t :=
  match format with None => Some lg | Some format => emit [] format args lg end.

Definition logger_verbose (verbose : bool) (format : option (list byte)) (args : list arg) (lg : logger_t)
  : option logger_t :=
  match format with
  | Some format => if negb verbose then Some lg else emit (lit "[verbose] ") format args lg
  | None => Some lg
  end.

(** ** Theorems *)

(** A call, by whichever thread. *)
Inductive log_call :=
| CallLog (format : list byte) (args : list arg)
| CallVerbose (verbose : bool) (format : list byte) (args : list arg).

Definition run_call (c : log_call) (lg : logger_t) : option logger_t :=
  match c with
  | CallLog format args => logger_log (Some format) args lg
  | CallVerbose verbose format args => logger_verbose verbose (Some format) args lg
  end.

Fixpoint run_calls (cs : list log_call) (lg : logger_t) : option logger_t :=
  match cs with [] => Some lg | c :: cs => lg ← run_call c lg; run_calls cs lg end.

Definition defined (c : log_call) : Prop :=
  match c with CallLog format args | CallVerbose _ format args => is_Some (vformat format args) end.

Definition writes (c : log_call) : bool :=
  match c with CallLog _ _ => true | CallVerbose verbose _ _ => verbose end.

(** The line of a call: its prefix, its text, and a newline unless the format
    has one. *)
Definition line_of (c : log_call) : list byte :=
  match c with
  | CallLog format args => default [] (vformat format args) ++ if needs_newline format then [LF] else []
  | CallVerbose _ format args =>
      lit "[verbose] " ++ default [] (vformat format args) ++ if needs_newline format then [LF] else []
  end.

Lemma last_app_some {A} (l k : list A) x : last k = Some x -> last (l ++ k) = Some x.
Proof. intros Hk. rewrite last_app. by rewrite Hk. Qed.

Lemma last_cons_some {A} (a : A) l x : last l = Some x -> last (a :: l) = Some x.
Proof. intros Hl. exact (last_app_some [a] l x Hl). Qed.

(** No directive ends in a newline, so a newline at the end of the format is one
    at the end of the text. *)
Lemma vformat_last : forall n format args out, (length format <= n)%nat ->
  vformat format args = Some out -> last format = Some LF -> last out = Some LF.
Proof.
  induction n as [|n IH]; intros [|c rest] args out Hn Hv Hl; simpl in Hn; try done; [lia|].
  assert (Hnext : forall pre rest' args' text, vformat rest' args' = Some text -> last rest' = Some LF ->
    (length rest' <= n)%nat -> last (pre ++ text) = Some LF).
  { intros pre rest' args' text Hv' Hl' Hn'. by eapply last_app_some, IH. }
  simpl in Hv. destruct (c =?b "%")%byte eqn:Ec.
  - apply Byte.byte_dec_bl in Ec as ->. destruct rest as [|d rest]; [done|].
    assert (Hd : forall rest', last (d :: rest') = Some LF -> d <> LF -> last rest' = Some LF).
    { intros [|x rest'] Hx Hne; [by injection Hx as ->|done]. }
    change (last (d :: rest) = Some LF) in Hl. simpl in Hn.
    destruct (d =?b "s")%byte eqn:E1; [|destruct (d =?b "d")%byte eqn:E2; [|destruct (d =?b "u")%byte eqn:E3;
      [|destruct (d =?b "z")%byte eqn:E4; [|done]]]].
    1-3: match goal with E : (_ =?b _) = true |- _ => apply Byte.byte_dec_bl in E as -> end;
      apply Hd in Hl; [|done]; destruct args as [|[]]; try done;
      apply fmap_Some in Hv as (text & Hv & ->); eapply Hnext; eauto; lia.
    apply Byte.byte_dec_bl in E4 as ->. apply Hd in Hl; [|done]. destruct rest as [|u rest]; [done|].
    destruct (u =?b "u")%byte eqn:E5; [|done]. apply Byte.byte_dec_bl in E5 as ->.
    destruct args as [|[]]; try done. apply fmap_Some in Hv as (text & Hv & ->).
    eapply Hnext; [done| |simpl in *; lia]. destruct rest; [done|exact Hl].
  - apply fmap_Some in Hv as (text & Hv & ->). destruct rest as [|d rest].
    + simpl in Hv. by injection Hv as <-.
    + eapply (Hnext [c]); [done|exact Hl|simpl in *; lia].
Qed.

Lemma line_ends format args text : vformat format args = Some text ->
  last (text ++ if needs_newline format then [LF] else []) = Some LF.
Proof.
  intros Hv. unfold needs_newline. destruct (last format) as [c|] eqn:El; [|by apply last_app_some].
  destruct (c =?b LF) eqn:Ec; simpl; [|by apply last_app_some].
  apply Byte.byte_dec_bl in Ec as ->. rewrite app_nil_r. by eapply vformat_last.
Qed.

Lemma run_call_line c lg : defined c -> lg_ready lg = true ->
  run_call c lg = Some (Logger true (lg_stderr lg ++ if writes c then line_of c else [])) /\
  (writes c = true -> last (line_of c) = Some LF).
Proof.
  intros Hd Hr. destruct c as [format args|[] format args]; destruct Hd as [text Ht]; simpl; unfold emit;
    rewrite ?Hr, ?Ht; simpl.
  - split; [done|]. intros _. by eapply line_ends.
  - split; [done|]. intros _. repeat apply last_cons_some. by eapply line_ends.
  - split; [|done]. destruct lg. simpl in *. by rewrite Hr, app_nil_r.
Qed.

(** Log lines are whole.  Whatever calls the threads make and in whichever order,
    what reaches [stderr] is one line per call that is meant to write, in that
    order, each ending in a newline and none cut by another; after
    [logger_destroy] nothing is written. *)
Theorem logger_writes_lines cs lg : Forall defined cs -> lg_ready lg = true ->
  run_calls cs lg = Some (Logger true (lg_stderr lg ++ concat (map line_of (List.filter writes cs)))) /\
  Forall (fun l => last l = Some LF) (map line_of (List.filter writes cs)) /\
  run_calls cs (logger_destroy lg) = Some (logger_destroy lg).
Proof.
  intros Hd. revert lg. induction Hd as [|c cs Hc Hd IH]; intros lg Hr.
  { split_and!; [|done|done]. destruct lg. simpl in *. by rewrite Hr, app_nil_r. }
  destruct (run_call_line c lg Hc Hr) as [Hrun Hlast].
  destruct (IH (Logger true (lg_stderr lg ++ if writes c then line_of c else []))) as (H1 & H2 & _); [done|].
  destruct (IH lg Hr) as (_ & _ & H3). cbn [run_calls List.filter]. rewrite Hrun. simpl. rewrite H1. split_and!.
  - destruct (writes c); simpl; by rewrite ?app_nil_r, <- ?app_assoc.
  - destruct (writes c); simpl; [constructor; auto|done].
  - replace (run_call c (logger_destroy lg)) with (Some (logger_destroy lg)); [done|].
    by destruct c as [|[]].
Qed.

Lemma logger_writes_lines_witness :
  let cs := [CallLog (lit "accepted %s:%u") [ArgString (lit "::1"); ArgUnsigned 80];
             CallVerbose false (lit "fd %d") [ArgInt 4]; CallVerbose true (lit "fd %d") [ArgInt 4]] in
  Forall defined cs /\
  run_calls cs (Logger true []) =
    Some (Logger true (lit "accepted ::1:80" ++ [LF] ++ lit "[verbose] fd 4" ++ [LF])).
Proof.
  assert (Hd : Forall defined [CallLog (lit "accepted %s:%u") [ArgString (lit "::1"); ArgUnsigned 80];
             CallVerbose false (lit "fd %d") [ArgInt 4]; CallVerbose true (lit "fd %d") [ArgInt 4]]).
  { repeat constructor; by eexists. }
  split; [exact Hd|]. exact (proj1 (logger_writes_lines _ (Logger true []) Hd eq_refl)).
Defined.
