(* ===== verification/LoggerThreads.v ===== *)
(** * Threads in the logger: the mutex of logger.c

    Logger.v takes a call as one step.  Here any number of threads call
    [logger_log] and [logger_verbose], and what a call writes reaches [stderr] a
    byte at a time, so that two calls would mix but for [g_log_mutex].  The
    theorem: they do not, and the log is the one of the calls made one after the
    other, in the order in which they took the mutex. *)
From S2P Require Import Prelude CLib Logger.

(** Where a thread is: out of the logger, about to lock the mutex, or holding it
    with these bytes still to be written. *)
Inductive log_pc :=
| LogIdle
| LogLocking (c : log_call)
| LogWriting (rest : list byte).

Record log_threads := LogThreads {
  lt_logger : logger_t;
  lt_owner : option nat;
  lt_pcs : list log_pc;
}.

Definition set_log_pc (i : nat) (pc : log_pc) (s : log_threads) : log_threads :=
  LogThreads (lt_logger s) (lt_owner s) (<[i := pc]> (lt_pcs s)).

Inductive log_action :=
| LogCall (i : nat) (c : log_call)
| LogLock (i : nat)
| LogWrite (i : nat)
| LogUnlock (i : nat).

(** The text of a section that begins: [fputs] of the prefix, [vfprintf] and
    [fputc], if the logger is ready. *)
Definition section_text (c : log_call) (lg : logger_t) : list byte :=
  if lg_ready lg then line_of c else [].

(** A step, and the call that has taken the mutex.  [pthread_mutex_lock] waits
    while another thread has it. *)
Definition log_act (a : log_action) (s : log_threads) : option (log_threads * list log_call) :=
  match a with
  | LogCall i c =>
      match lt_pcs s !! i with
      | Some LogIdle => Some (if writes c then set_log_pc i (LogLocking c) s else s, [])
      | _ => None
      end
  | LogLock i =>
      match lt_pcs s !! i, lt_owner s with
      | Some (LogLocking c), None =>
          Some (LogThreads (lt_logger s) (Some i)
                  (<[i := LogWriting (section_text c (lt_logger s))]> (lt_pcs s)), [c])
      | _, _ => None
      end
  | LogWrite i =>
      match lt_pcs s !! i with
      | Some (LogWriting (b :: rest)) =>
          Some (LogThreads (Logger (lg_ready (lt_logger s)) (lg_stderr (lt_logger s) ++ [b])) (lt_owner s)
                  (<[i := LogWriting rest]> (lt_pcs s)), [])
      | _ => None
      end
  | LogUnlock i =>
      match lt_pcs s !! i with
      | Some (LogWriting []) => Some (LogThreads (lt_logger s) None (<[i := LogIdle]> (lt_pcs s)), [])
      | _ => None
      end
  end.

Fixpoint log_schedule (al : list log_action) (s : log_threads) : option (log_threads * list log_call) :=
  match al with
  | [] => Some (s, [])
  | a :: al =>
      '(s, cs) ← log_act a s;
      '(s, cs') ← log_schedule al s;
      Some (s, cs ++ cs')
  end.

(** What the owner of the mutex still has to write. *)
Definition unwritten (s : log_threads) : list byte :=
  match lt_owner s with
  | Some i => match lt_pcs s !! i with Some (LogWriting rest) => rest | _ => [] end
  | None => []
  end.

(** The owner is the one thread that writes; [lg] is the logger when it is done. *)
Record log_inv (lg : logger_t) (s : log_threads) : Prop := {
  li_writer : forall i rest, lt_pcs s !! i = Some (LogWriting rest) -> lt_owner s = Some i;
  li_owner : forall i, lt_owner s = Some i -> exists rest, lt_pcs s !! i = Some (LogWriting rest);
  li_calls : forall i c, lt_pcs s !! i = Some (LogLocking c) -> writes c = true;
  li_ready : lg_ready lg = lg_ready (lt_logger s);
  li_text : lg_stderr lg = lg_stderr (lt_logger s) ++ unwritten s;
}.

(** A thread moves; the others stay. *)
Ltac other_pcs i j := destruct (decide (i = j)) as [<-|];
  [rewrite list_lookup_insert_eq by (by eapply lookup_lt_Some)|rewrite list_lookup_insert_ne by done].

Lemma log_call_inv lg s i c : log_inv lg s -> lt_pcs s !! i = Some LogIdle -> writes c = true ->
  log_inv lg (set_log_pc i (LogLocking c) s).
Proof.
  intros [Hw Ho Hc Hr Ht] Hi Hwr. split; simpl; [| | |done|].
  - intros j rest. other_pcs i j; [done|]. apply Hw.
  - intros j Hj. destruct (Ho j Hj) as [rest Hrest]. exists rest. other_pcs i j; [congruence|done].
  - intros j c'. other_pcs i j; [by intros [= <-]|]. apply Hc.
  - rewrite Ht. f_equal. unfold unwritten. simpl. destruct (lt_owner s) as [j|] eqn:Ej; [|done].
    destruct (Ho j eq_refl) as [rest Hrest]. other_pcs i j; [congruence|done].
Qed.

Lemma log_lock_inv lg s i c : log_inv lg s -> lt_pcs s !! i = Some (LogLocking c) -> lt_owner s = None ->
  lt_logger s = lg /\
  log_inv (Logger (lg_ready lg) (lg_stderr lg ++ section_text c lg))
    (LogThreads (lt_logger s) (Some i) (<[i := LogWriting (section_text c (lt_logger s))]> (lt_pcs s))).
Proof.
  intros [Hw Ho Hc Hr Ht] Hi Hn. assert (Hlg : lt_logger s = lg).
  { unfold unwritten in Ht. rewrite Hn, app_nil_r in Ht. destruct lg, (lt_logger s). simpl in *. by subst. }
  split; [done|]. rewrite Hlg. split; simpl; [| | |done|].
  - intros j rest. other_pcs i j; [done|]. intros Hj. apply Hw in Hj. congruence.
  - intros j [= <-]. eexists. by rewrite list_lookup_insert_eq by (by eapply lookup_lt_Some).
  - intros j c'. other_pcs i j; [done|]. apply Hc.
  - unfold unwritten. simpl. by rewrite list_lookup_insert_eq by (by eapply lookup_lt_Some).
Qed.

Lemma log_write_inv lg s i b rest : log_inv lg s -> lt_pcs s !! i = Some (LogWriting (b :: rest)) ->
  log_inv lg (LogThreads (Logger (lg_ready (lt_logger s)) (lg_stderr (lt_logger s) ++ [b])) (lt_owner s)
    (<[i := LogWriting rest]> (lt_pcs s))).
Proof.
  intros [Hw Ho Hc Hr Ht] Hi. pose proof (Hw _ _ Hi) as Hown. split; simpl; [| | |done|].
  - intros j rest'. other_pcs i j; [done|]. apply Hw.
  - intros j Hj. rewrite Hown in Hj. injection Hj as <-. eexists.
    by rewrite list_lookup_insert_eq by (by eapply lookup_lt_Some).
  - intros j c. other_pcs i j; [done|]. apply Hc.
  - rewrite Ht, <- app_assoc. f_equal. unfold unwritten. simpl. rewrite Hown, Hi.
    by rewrite list_lookup_insert_eq by (by eapply lookup_lt_Some).
Qed.

Lemma log_unlock_inv lg s i : log_inv lg s -> lt_pcs s !! i = Some (LogWriting []) ->
  log_inv lg (LogThreads (lt_logger s) None (<[i := LogIdle]> (lt_pcs s))).
Proof.
  intros [Hw Ho Hc Hr Ht] Hi. pose proof (Hw _ _ Hi) as Hown. split; simpl; [|done| |done|].
  - intros j rest. other_pcs i j; [done|]. intros Hj. apply Hw in Hj. congruence.
  - intros j c. other_pcs i j; [done|]. apply Hc.
  - rewrite Ht. unfold unwritten at 1. by rewrite Hown, Hi.
Qed.

(** A call that takes the mutex is a step of Logger.v. *)
Lemma section_run c lg : defined c -> writes c = true ->
  run_call c lg = Some (Logger (lg_ready lg) (lg_stderr lg ++ section_text c lg)).
Proof.
  intros Hd Hw. unfold section_text. destruct (lg_ready lg) eqn:Hr.
  - destruct (run_call_line c lg Hd Hr) as [-> _]. by rewrite Hw.
  - destruct lg as [rd err]. simpl in *. subst rd. rewrite app_nil_r. by destruct c as [|[]].
Qed.

Lemma log_act_run lg s a s' cs : log_inv lg s -> log_act a s = Some (s', cs) -> Forall defined cs ->
  exists lg', run_calls cs lg = Some lg' /\ log_inv lg' s'.
Proof.
  intros Hi H Hd. destruct a as [i c|i|i|i]; cbn [log_act] in H; destruct (lt_pcs s !! i) as [[|c'|rest]|] eqn:E;
    try done.
  - injection H as <- <-. exists lg. split; [done|]. destruct (writes c) eqn:Ew; [by apply log_call_inv|done].
  - destruct (lt_owner s) eqn:Eo; [done|]. simplify_eq. apply Forall_cons_1 in Hd as [Hd _].
    destruct (log_lock_inv _ _ _ _ Hi E Eo) as [_ Hi']. eexists. split; [|exact Hi'].
    simpl. by rewrite (section_run _ _ Hd (li_calls _ _ Hi _ _ E)).
  - destruct rest as [|b rest]; simplify_eq. exists lg. split; [done|]. by apply log_write_inv.
  - destruct rest as [|b rest]; simplify_eq. exists lg. split; [done|]. by apply log_unlock_inv.
Qed.

Lemma log_schedule_run al : forall lg s s' cs, log_inv lg s -> log_schedule al s = Some (s', cs) ->
  Forall defined cs -> exists lg', run_calls cs lg = Some lg' /\ log_inv lg' s'.
Proof.
  induction al as [|a al IH]; intros lg s s' cs Hi H Hd; simpl in H; [simplify_eq; by exists lg|].
  destruct (log_act a s) as [[s1 c1]|] eqn:Ea; [|done]. simpl in H.
  destruct (log_schedule al s1) as [[s2 c2]|] eqn:Es; [|done]. simplify_eq/=.
  apply Forall_app in Hd as [Hd1 Hd2]. destruct (log_act_run _ _ _ _ _ Hi Ea Hd1) as (lg1 & H1 & Hi1).
  destruct (IH _ _ _ _ Hi1 Es Hd2) as (lg2 & H2 & Hi2). exists lg2. split; [|done].
  clear -H1 H2. revert lg H1. induction c1 as [|c c1 IH]; intros lg H1; simpl in *; [by simplify_eq|].
  destruct (run_call c lg) as [lg'|]; [|done]. by apply IH.
Qed.

(** C11. Calls of the logger are atomic.  Any number of threads log at once and their
    text goes out byte by byte.  At most one thread writes, the owner of the mutex;
    and [stderr] holds, with what the owner has not written yet, exactly what the
    calls write that are made one at a time in the order in which they took the
    mutex.  Whenever nobody is writing, the log is that of the calls in sequence. *)
Theorem logger_calls_atomic lg n al s cs : log_schedule al (LogThreads lg None (replicate n LogIdle)) = Some (s, cs) ->
  Forall defined cs ->
  (forall i rest, lt_pcs s !! i = Some (LogWriting rest) -> lt_owner s = Some i) /\
  exists lg', run_calls cs lg = Some lg' /\ lg_stderr lg' = lg_stderr (lt_logger s) ++ unwritten s /\
    ((forall i rest, lt_pcs s !! i <> Some (LogWriting rest)) -> lt_logger s = lg').
Proof.
  intros H Hd. assert (Hi : log_inv lg (LogThreads lg None (replicate n LogIdle))).
  { split; simpl; [|done| |done|by rewrite app_nil_r].
    - intros i rest Hl. by apply lookup_replicate_1 in Hl as [? _].
    - intros i c Hl. by apply lookup_replicate_1 in Hl as [? _]. }
  destruct (log_schedule_run _ _ _ _ _ Hi H Hd) as (lg' & Hr & [Hw Ho Hc Hrd Ht]). split; [done|].
  exists lg'. split_and!; [done|done|]. intros Hn. assert (Hown : lt_owner s = None).
  { destruct (lt_owner s) as [i|]; [|done]. destruct (Ho i eq_refl) as [rest Hrest]. by apply Hn in Hrest. }
  unfold unwritten in Ht. rewrite Hown, app_nil_r in Ht. destruct lg', (lt_logger s). simpl in *. by subst.
Qed.

(** Two threads; the second one calls while the first is writing, and has to wait. *)
Lemma logger_calls_atomic_witness :
  let hi := CallLog (lit "hi %d") [ArgInt 1] in let ho := CallVerbose true (lit "ho") [] in
  exists s, log_schedule [LogCall 0 hi; LogLock 0; LogWrite 0; LogCall 1 ho; LogWrite 0]
      (LogThreads (Logger true []) None (replicate 2 LogIdle)) = Some (s, [hi]) /\
    lg_stderr (lt_logger s) = lit "hi" /\ log_act (LogLock 1) s = None /\
    (lt_pcs s !! 0%nat = Some (LogWriting (lit " 1" ++ [LF])) -> lt_owner s = Some 0%nat) /\
    exists lg', run_calls [hi] (Logger true []) = Some lg' /\ lg_stderr lg' = lg_stderr (lt_logger s) ++ unwritten s.
Proof.
  intros hi ho. destruct (log_schedule [LogCall 0 hi; LogLock 0; LogWrite 0; LogCall 1 ho; LogWrite 0]
      (LogThreads (Logger true []) None (replicate 2 LogIdle))) as [[s cs]|] eqn:E; [|by vm_compute in E].
  assert (Hcs : cs = [hi]) by by (vm_compute in E; injection E as <- <-). subst cs. exists s.
  destruct (logger_calls_atomic (Logger true []) 2 _ s [hi] E) as (Hw & lg' & Hr & Ht & _).
  { repeat constructor. by eexists. }
  split; [done|]. split; [vm_compute in E; by injection E as <-|]. split; [vm_compute in E; by injection E as <-|].
  split; [apply Hw|]. by exists lg'.
Defined.
