(* ===== verification/ConfigOutput.v ===== *)
(** * What config.c prints

    The usage text and the diagnostics of the command line, next to the results of
    Config.v: nothing is printed exactly when the command line is accepted. *)
From S2P Require Import Prelude CLib Config Logger.

(** What a call writes to [stdout] and to [stderr]. *)
Record output := Output { to_stdout : list byte; to_stderr : list byte }.

Definition silent : output := Output [] [].

Definition also (o o' : output) : output :=
  Output (to_stdout o ++ to_stdout o') (to_stderr o ++ to_stderr o').

(** A line of a string literal, with its newline. *)
Definition line (s : String.string) : list byte := lit s ++ [LF].
Arguments line s%_string_scope.

Definition usage_format : list byte :=
  line "Usage: cinderhttp [OPTIONS]" ++
  line "" ++
  line "CinderHTTP is a multithreaded HTTP/1.0–1.1 server written from scratch in C." ++
  line "" ++
  line "Options:" ++
  line "  --port <port>                 TCP port to listen on (default: %d)" ++
  line "  --workers <count>             Worker thread pool size (default: %d)" ++
  line "  --queue-size <count>          Bounded connection queue capacity (default: %d)" ++
  line "  --root <path>                 Document root for static files (default: %s)" ++
  line "  --keep-alive-timeout <sec>    Idle wait for next request to begin (default: %d)" ++
  line "  --request-timeout <sec>       Max time to finish framing one request (default: %d)" ++
  line "  --verbose                     Enable verbose diagnostic logging" ++
  line "  --help                        Show this help message and exit" ++
  line "" ++
  line "Examples:" ++
  line "  cinderhttp" ++
  line "  cinderhttp --port 9000" ++
  line "  cinderhttp --workers 8 --root ./public" ++
  line "  cinderhttp --queue-size 128 --keep-alive-timeout 5 --request-timeout 10 --verbose" ++
  line "" ++
  line "Concurrency: the accept thread enqueues client sockets into a bounded queue;" ++
  line "--workers sets the fixed pthread worker-pool size and --queue-size sets the" ++
  line "queue capacity (backpressure when full). A worker may handle multiple sequential" ++
  line "requests on one persistent connection until close/timeout/max-requests.".

(** [None] would be a directive that does not fit its argument. *)
Definition config_print_usage : option (list byte) :=
  vformat usage_format
    [ArgInt CONFIG_DEFAULT_PORT; ArgInt CONFIG_DEFAULT_WORKER_COUNT; ArgInt CONFIG_DEFAULT_QUEUE_CAPACITY;
     ArgString CONFIG_DEFAULT_DOCUMENT_ROOT; ArgInt CONFIG_DEFAULT_KEEP_ALIVE_TIMEOUT_SEC;
     ArgInt CONFIG_DEFAULT_REQUEST_TIMEOUT_SEC].

(** The diagnostics of [parse_long_arg]. *)
Definition parse_long_output (option_name : list byte) (argv : list (list byte)) : list byte :=
  match argv with
  | [] => lit "cinderhttp: option '" ++ option_name ++ line "' requires a value"
  | value_str :: _ =>
      let '(_, e, erange) := strtol value_str in
      if (e =? 0)%nat || negb (bool_decide (drop e value_str = [])) || erange then
        lit "cinderhttp: option '" ++ option_name ++ lit "' expects an integer, got '" ++ value_str ++ line "'"
      else []
  end.

(** Those of a numeric option. *)
Definition numeric_output (option_name : list byte) (lo hi : Z) (argv : list (list byte)) : output :=
  Output []
    match parse_long_arg argv with
    | None => parse_long_output option_name argv
    | Some (value, _) =>
        if (value <? lo) || (hi <? value) then
          lit "cinderhttp: " ++ option_name ++ lit " must be between " ++ fmt_int lo ++ lit " and " ++
          fmt_int hi ++ lit " (got " ++ fmt_int value ++ line ")"
        else []
    end.

(** One pass of the loop of [config_parse_args]. *)
Definition option_output (arg : list byte) (argv : list (list byte)) : output :=
  let numeric name lo hi := numeric_output name lo hi argv in
  if strcmp_eq arg (lit "--help") then Output (default [] config_print_usage) []
  else if strcmp_eq arg (lit "--verbose") then silent
  else if strcmp_eq arg (lit "--port") then numeric (lit "--port") CONFIG_MIN_PORT CONFIG_MAX_PORT
  else if strcmp_eq arg (lit "--workers") then
    numeric (lit "--workers") CONFIG_MIN_WORKER_COUNT CONFIG_MAX_WORKER_COUNT
  else if strcmp_eq arg (lit "--queue-size") then
    numeric (lit "--queue-size") CONFIG_MIN_QUEUE_CAPACITY CONFIG_MAX_QUEUE_CAPACITY
  else if strcmp_eq arg (lit "--root") then
    Output []
      match argv with
      | [] => line "cinderhttp: option '--root' requires a value"
      | root :: _ =>
          if snd (store_root root) then []
          else lit "cinderhttp: --root path is too long (max " ++ fmt_unsigned (PATH_MAX - 1) ++
               line " characters)"
      end
  else if strcmp_eq arg (lit "--keep-alive-timeout") then
    numeric (lit "--keep-alive-timeout") CONFIG_MIN_KEEP_ALIVE_TIMEOUT_SEC CONFIG_MAX_KEEP_ALIVE_TIMEOUT_SEC
  else if strcmp_eq arg (lit "--request-timeout") then
    numeric (lit "--request-timeout") CONFIG_MIN_REQUEST_TIMEOUT_SEC CONFIG_MAX_REQUEST_TIMEOUT_SEC
  else
    Output [] (lit "cinderhttp: unrecognized option '" ++ arg ++ line "'" ++
               line "Try 'cinderhttp --help' for usage information.").

(** The passes that [config_parse_loop] makes. *)
Fixpoint config_output (fuel : nat) (config : server_config_t) (argv : list (list byte)) : output :=
  match fuel, argv with
  | S fuel, arg :: argv' =>
      match config_parse_option config arg argv' with
      | (_, inl _) => option_output arg argv'
      | (config, inr rest) => also (option_output arg argv') (config_output fuel config rest)
      end
  | _, _ => silent
  end.

(** ** Theorems *)

(** Some text that ends in a newline. *)
Definition diagnosed (l : list byte) : Prop := exists text, l = text ++ [LF].

Lemma diagnosed_app l k : diagnosed k -> diagnosed (l ++ k).
Proof. intros [t ->]. exists (l ++ t). by rewrite app_assoc. Qed.

Lemma diagnosed_line s : diagnosed (line s).
Proof. by exists (lit s). Qed.

#[local] Hint Resolve diagnosed_app diagnosed_line : cinder.

Lemma numeric_diagnosed name lo hi argv c store :
  match match parse_long_arg argv with
        | None => (c, inl CONFIG_PARSE_ERROR)
        | Some (value, argv') =>
            if (value <? lo) || (hi <? value) then (c, inl CONFIG_PARSE_ERROR)
            else (store value c, inr argv')
        end : server_config_t * (config_parse_result_t + list (list byte)) with
  | (_, inr _) => numeric_output name lo hi argv = silent
  | (_, inl r) => r = CONFIG_PARSE_ERROR /\ to_stdout (numeric_output name lo hi argv) = [] /\
      diagnosed (to_stderr (numeric_output name lo hi argv))
  end.
Proof.
  unfold numeric_output. destruct (parse_long_arg argv) as [[v argv']|] eqn:Ep.
  - destruct (_ || _); [|done]. split_and!; [done|done|]. cbn [to_stderr]. auto 20 with cinder.
  - split_and!; [done|done|]. cbn [to_stderr]. unfold parse_long_output. unfold parse_long_arg in Ep.
    destruct argv as [|a argv]; [auto 20 with cinder|]. destruct (strtol a) as [[v e] er].
    destruct (_ || _ || _); [auto 20 with cinder|done].
Qed.

(** What one pass prints, by its result. *)
Lemma option_diagnosed c arg argv :
  match config_parse_option c arg argv with
  | (_, inr _) => option_output arg argv = silent
  | (_, inl CONFIG_PARSE_HELP) => Some (to_stdout (option_output arg argv)) = config_print_usage /\
      to_stderr (option_output arg argv) = []
  | (_, inl r) => r = CONFIG_PARSE_ERROR /\ to_stdout (option_output arg argv) = [] /\
      diagnosed (to_stderr (option_output arg argv))
  end.
Proof.
  assert (Hnum : forall name lo hi store, match match parse_long_arg argv with
        | None => (c, inl CONFIG_PARSE_ERROR)
        | Some (value, argv') =>
            if (value <? lo) || (hi <? value) then (c, inl CONFIG_PARSE_ERROR)
            else (store value c, inr argv')
        end : server_config_t * (config_parse_result_t + list (list byte)) with
    | (_, inr _) => numeric_output name lo hi argv = silent
    | (_, inl CONFIG_PARSE_HELP) => Some (to_stdout (numeric_output name lo hi argv)) = config_print_usage /\
        to_stderr (numeric_output name lo hi argv) = []
    | (_, inl r) => r = CONFIG_PARSE_ERROR /\ to_stdout (numeric_output name lo hi argv) = [] /\
        diagnosed (to_stderr (numeric_output name lo hi argv))
    end).
  { intros name lo hi store. pose proof (numeric_diagnosed name lo hi argv c store) as Hd.
    destruct (match parse_long_arg argv with Some _ => _ | None => _ end) as [c' [[]|rest]]; try done. by destruct Hd. }
  unfold config_parse_option, option_output.
  repeat match goal with |- context [if strcmp_eq ?x ?y then _ else _] => destruct (strcmp_eq x y) end;
    try apply Hnum; try done.
  - destruct argv as [|root argv']; [split_and!; [done|done|apply diagnosed_line]|]. unfold store_root. cbn [snd].
    destruct (zlen root <? PATH_MAX); [done|]. split_and!; [done|done|]. cbn [to_stderr]. auto 20 with cinder.
  - split_and!; [done|done|]. cbn [to_stderr]. auto 20 with cinder.
Qed.

(** C35. The command line is answered.  An accepted command line prints nothing; [--help]
    prints the usage text, with the defaults of [config_set_defaults], to [stdout]
    and nothing to [stderr]; every error prints a diagnostic to [stderr] only. *)
Theorem command_line_diagnosed config argv :
  let o := config_output (S (length argv)) config argv in
  match snd (config_parse_args config argv) with
  | CONFIG_PARSE_OK => o = silent
  | CONFIG_PARSE_HELP => Some (to_stdout o) = config_print_usage /\ to_stderr o = []
  | CONFIG_PARSE_ERROR => to_stdout o = [] /\ diagnosed (to_stderr o)
  end.
Proof.
  cbv zeta. unfold config_parse_args. generalize (S (length argv)) as fuel. intros fuel. revert config argv.
  induction fuel as [|fuel IH]; intros config argv; [done|]. destruct argv as [|arg argv]; [done|].
  cbn [config_parse_loop config_output]. pose proof (option_diagnosed config arg argv) as Ho.
  destruct (config_parse_option config arg argv) as [c [r|rest]]; [by destruct r, Ho|].
  rewrite Ho. specialize (IH c rest). unfold also, silent. simpl. by destruct (config_output fuel c rest).
Qed.

(** The usage text shows the defaults. *)
Example usage_defined : match config_print_usage with
  | Some text => (0 <? zlen text) && strstr text (lit "(default: 8080)")
  | None => false
  end = true.
Proof. vm_compute. reflexivity. Qed.
