(* ===== verification/LogLines.v ===== *)
(** * What the server logs

    The calls of the logger in server.c and client_handler.c, with their
    formats.  A client chooses the target that is logged; it cannot break or forge
    a line of the log. *)
From S2P Require Import Prelude CLib Proc Request Parser RequestType Response Config Logger.

(** An IPv4 peer: the address and the port in network order. *)
Record sockaddr_in := SockAddr { sin_addr : list byte; sin_port : byte * byte }.

Definition ntohs (p : byte * byte) : Z := bz p.1 * 256 + bz p.2.

(** [inet_ntop] for AF_INET: the dotted decimal form. *)
Fixpoint inet_ntop (addr : list byte) : list byte :=
  match addr with
  | [] => []
  | [b] => fmt_unsigned (bz b)
  | b :: addr => fmt_unsigned (bz b) ++ lit "." ++ inet_ntop addr
  end.

(** [ntop_ok]: [inet_ntop] did not return NULL. *)
Definition log_connection_if_verbose (config : server_config_t) (addr : sockaddr_in) (ntop_ok : bool)
    (lg : logger_t) : option logger_t :=
  if negb (verbose config) then Some lg
  else
    let ip := if ntop_ok then inet_ntop (sin_addr addr) else lit "?" in
    logger_verbose true (Some (lit "accepted connection from %s:%u"))
      [ArgString ip; ArgUnsigned (ntohs (sin_port addr))] lg.

Definition log_target (request : http_request_t) : list byte :=
  match req_target request with Some target => cs_string target | None => lit "?" end.

Definition log_request_if_verbose (config : server_config_t) (request : option http_request_t)
    (response : option http_response_t) (status : Z) (lg : logger_t) : option logger_t :=
  if negb (verbose config) then Some lg
  else
    match request with
    | None => Some lg
    | Some request =>
        let plain :=
          logger_verbose true (Some (lit "%s %s -> %d"))
            [ArgString (http_method_to_string (req_method request)); ArgString (log_target request);
             ArgInt status] lg in
        match response with
        | Some response =>
            if bool_decide (body_kind response = HTTP_BODY_FILE) then
              logger_verbose true (Some (lit "%s %s -> %d (file, %zu bytes)"))
                [ArgString (http_method_to_string (req_method request));
                 ArgString (log_target request); ArgInt status;
                 ArgUnsigned (body_length response)] lg
            else plain
        | None => plain
        end
    end.

(** The other messages of client_handle and handle_static_get_head. *)
Inductive note :=
| NoteHandling (worker_id client_fd : Z)
| NoteClientClosed (client_fd : Z)
| NoteIdleTimeout (client_fd : Z)
| NoteParseError (status : Z)
| NoteStaticResolve (status : Z)
| NoteMaxRequests (client_fd : Z)
| NoteDisconnected (client_fd : Z)
| NoteClosePolicy (client_fd : Z).

Definition note_format (n : note) : list byte * list arg :=
  match n with
  | NoteHandling w fd => (lit "worker %d handling fd %d", [ArgInt w; ArgInt fd])
  | NoteClientClosed fd => (lit "fd %d closed: client closed", [ArgInt fd])
  | NoteIdleTimeout fd => (lit "fd %d closed: idle timeout", [ArgInt fd])
  | NoteParseError st => (lit "parse error -> %d", [ArgInt st])
  | NoteStaticResolve st => (lit "static resolve -> %d", [ArgInt st])
  | NoteMaxRequests fd => (lit "fd %d: max requests reached", [ArgInt fd])
  | NoteDisconnected fd => (lit "fd %d: client disconnected during send", [ArgInt fd])
  | NoteClosePolicy fd => (lit "fd %d closed: connection close policy", [ArgInt fd])
  end.

Definition log_note (config : server_config_t) (n : note) (lg : logger_t) : option logger_t :=
  logger_verbose (verbose config) (Some (note_format n).1) (note_format n).2 lg.

(** An entry, by whichever thread. *)
Inductive entry :=
| Connected (addr : sockaddr_in) (ntop_ok : bool)
| Answered (request : http_request_t) (response : http_response_t) (status : Z)
| Noted (n : note)
| NotQueued.

Definition log_entry (config : server_config_t) (e : entry) (lg : logger_t) : option logger_t :=
  match e with
  | Connected addr ok => log_connection_if_verbose config addr ok lg
  | Answered request response status =>
      log_request_if_verbose config (Some request) (Some response) status lg
  | Noted n => log_note config n lg
  | NotQueued => logger_log (Some (lit "cinderhttp: failed to enqueue client connection")) [] lg
  end.

Fixpoint log_entries (config : server_config_t) (es : list entry) (lg : logger_t) : option logger_t :=
  match es with
  | [] => Some lg
  | e :: es => lg ← log_entry config e lg; log_entries config es lg
  end.

(** ** Lines *)

(** A request comes from the parser, or is the initial one when parsing failed. *)
Definition entry_ok (e : entry) : Prop :=
  match e with
  | Answered request _ _ => http_request_typed request \/ request = http_request_init
  | _ => True
  end.

(** The line an entry is meant to be. *)
Definition entry_line (e : entry) : list byte :=
  match e with
  | Connected addr ok =>
      lit "[verbose] accepted connection from " ++
      (if ok then inet_ntop (sin_addr addr) else lit "?") ++ lit ":" ++ fmt_unsigned (ntohs (sin_port addr))
  | Answered request response status =>
      lit "[verbose] " ++ http_method_to_string (req_method request) ++ lit " " ++ log_target request ++
      lit " -> " ++ fmt_int status ++
      (if bool_decide (body_kind response = HTTP_BODY_FILE)
       then lit " (file, " ++ fmt_unsigned (body_length response) ++ lit " bytes)" else [])
  | Noted n => lit "[verbose] " ++ default [] (vformat (note_format n).1 (note_format n).2)
  | NotQueued => lit "cinderhttp: failed to enqueue client connection"
  end.

Definition entry_written (config : server_config_t) (e : entry) : bool :=
  match e with NotQueued => true | _ => verbose config end.

Lemma dec_digits_no_lf fuel : forall z acc, LF ∉ acc -> LF ∉ dec_digits fuel z acc.
Proof.
  induction fuel as [|fuel IH]; intros z acc Ha; [done|]. cbn [dec_digits].
  assert (Hd : LF ∉ digit_char (z mod 10) :: acc).
  { apply not_elem_of_cons. split; [|done]. intros Heq. apply (f_equal is_digit) in Heq.
    rewrite is_digit_digit_char in Heq by (pose proof (Z.mod_pos_bound z 10); lia). done. }
  destruct (_ =? _); [done|by apply IH].
Qed.

Lemma fmt_unsigned_no_lf z : LF ∉ fmt_unsigned z.
Proof. apply dec_digits_no_lf, not_elem_of_nil. Qed.

Lemma fmt_int_no_lf z : LF ∉ fmt_int z.
Proof.
  unfold fmt_int. destruct (z <? 0); [|apply fmt_unsigned_no_lf]. apply not_elem_of_cons.
  split; [done|apply fmt_unsigned_no_lf].
Qed.

Lemma inet_ntop_no_lf addr : LF ∉ inet_ntop addr.
Proof.
  induction addr as [|b [|b' addr] IH]; [apply not_elem_of_nil|apply fmt_unsigned_no_lf|].
  cbn [inet_ntop]. rewrite !not_elem_of_app. split_and!; [apply fmt_unsigned_no_lf|by apply (bool_decide_unpack _)|exact IH].
Qed.

Lemma log_target_no_lf r : http_request_typed r \/ r = http_request_init -> LF ∉ log_target r.
Proof.
  intros [[_ (t & (b & Ht & Hn & Hl) & _) _ _ _ _ _ _]| ->]; [|by apply (bool_decide_unpack _)].
  unfold log_target, cs_string. rewrite Ht. simpl. by rewrite c_string_id.
Qed.

Lemma method_no_lf m : LF ∉ http_method_to_string m.
Proof. destruct m; by apply (bool_decide_unpack _). Qed.

(** The text a directive writes. *)
Definition arg_text (a : arg) : list byte :=
  match a with ArgString s => s | ArgInt n => fmt_int n | ArgUnsigned n => fmt_unsigned n end.

Lemma vformat_no_lf : forall n format args out, (length format <= n)%nat ->
  vformat format args = Some out -> LF ∉ format -> Forall (fun a => LF ∉ arg_text a) args -> LF ∉ out.
Proof.
  induction n as [|n IH]; intros [|c rest] args out Hn Hv Hf Ha; simpl in Hn, Hv; simplify_eq;
    try apply not_elem_of_nil; [lia|].
  apply not_elem_of_cons in Hf as [Hc Hf].
  assert (Hnext : forall a args' rest', args = a :: args' -> (length rest' <= n)%nat -> LF ∉ rest' ->
    forall text, vformat rest' args' = Some text -> LF ∉ arg_text a ++ text).
  { intros a args' rest' -> Hl Hlf text Ht. apply Forall_cons in Ha as [Ha Has].
    apply not_elem_of_app. split; [done|]. by eapply IH. }
  destruct (c =?b "%")%byte eqn:Ec.
  2: { apply fmap_Some in Hv as (text & Hv & ->). apply not_elem_of_cons. split; [done|].
       eapply IH; [|done..]. lia. }
  destruct rest as [|d rest]; [done|]. simpl in Hn. apply not_elem_of_cons in Hf as [_ Hf].
  destruct (d =?b "s")%byte; [|destruct (d =?b "d")%byte; [|destruct (d =?b "u")%byte;
    [|destruct (d =?b "z")%byte; [|done]]]].
  1-3: destruct args as [|[] args]; try done; apply fmap_Some in Hv as (text & Hv & ->);
    eapply (Hnext _ _ _ eq_refl); [|done..]; lia.
  destruct rest as [|u rest]; [done|]. apply not_elem_of_cons in Hf as [_ Hf]. simpl in Hn.
  destruct (u =?b "u")%byte; [|done]. destruct args as [|[] args]; try done.
  apply fmap_Some in Hv as (text & Hv & ->). eapply (Hnext _ _ _ eq_refl); [|done..]. lia.
Qed.

(** A note is a defined format without line feed, with integers only. *)
Lemma note_text n : exists text,
  vformat (note_format n).1 (note_format n).2 = Some text /\ (LF ∉ text) /\ needs_newline (note_format n).1 = true.
Proof.
  assert (Hv : is_Some (vformat (note_format n).1 (note_format n).2)) by (by destruct n; eexists).
  destruct Hv as [text Ht]. exists text. split_and!; [done| |by destruct n].
  eapply vformat_no_lf; [done|done|by destruct n; apply (bool_decide_unpack _)|].
  destruct n; repeat constructor; apply fmt_int_no_lf.
Qed.

Lemma entry_line_no_lf e : entry_ok e -> LF ∉ entry_line e.
Proof.
  destruct e as [addr ok|r rsp st|n|]; intros He; cbn [entry_line].
  - rewrite !not_elem_of_app. split_and!; try by apply (bool_decide_unpack _).
    + destruct ok; [apply inet_ntop_no_lf|by apply (bool_decide_unpack _)].
    + apply fmt_unsigned_no_lf.
  - rewrite !not_elem_of_app. split_and!; try by apply (bool_decide_unpack _).
    + apply method_no_lf.
    + by apply log_target_no_lf.
    + apply fmt_int_no_lf.
    + case_bool_decide; [|apply not_elem_of_nil].
      rewrite !not_elem_of_app. split_and!; try by apply (bool_decide_unpack _). apply fmt_unsigned_no_lf.
  - destruct (note_text n) as (text & -> & Hl & _). apply not_elem_of_app.
    split; [by apply (bool_decide_unpack _)|done].
  - by apply (bool_decide_unpack _).
Qed.

(** Texts that agree up to the grouping of their parts. *)
Ltac same_text := simpl; repeat (rewrite <- !app_assoc || rewrite app_nil_r; simpl); done.

(** One entry, one line. *)
Lemma log_entry_line config e lg : lg_ready lg = true ->
  log_entry config e lg = Some (Logger true (lg_stderr lg ++
    if entry_written config e then entry_line e ++ [LF] else [])).
Proof.
  intros Hr.
  assert (Hskip : Some lg = Some (Logger true (lg_stderr lg ++ []))).
  { rewrite app_nil_r. destruct lg. simpl in *. by subst. }
  destruct e as [addr ok|r rsp st|n|]; cbn [log_entry entry_written entry_line].
  - unfold log_connection_if_verbose. destruct (verbose config); [|done]. cbn [negb logger_verbose].
    unfold emit. rewrite Hr. cbv zeta. generalize (if ok then inet_ntop (sin_addr addr) else lit "?") as ip.
    intros ip. same_text.
  - unfold log_request_if_verbose. destruct (verbose config); [|done]. cbn [negb logger_verbose].
    unfold emit. rewrite Hr. cbv zeta. generalize (http_method_to_string (req_method r)) as m, (log_target r) as t.
    intros m t. case_bool_decide; same_text.
  - destruct (note_text n) as (text & Ht & _ & Hnl). unfold log_note.
    destruct (verbose config); [|done]. cbn [logger_verbose negb]. unfold emit. rewrite Hr, Ht, Hnl. same_text.
  - unfold logger_log, emit. rewrite Hr. same_text.
Qed.

(** The log gets exactly one line per entry that is meant to be written, with that
    entry's text; no line contains a line feed of its own. *)
Lemma log_entries_lines config es lg : Forall entry_ok es -> lg_ready lg = true ->
  let lines := map entry_line (List.filter (entry_written config) es) in
  log_entries config es lg = Some (Logger true (lg_stderr lg ++ concat (map (fun l => l ++ [LF]) lines))) /\
  Forall (fun l => LF ∉ l) lines.
Proof.
  intros He. revert lg. induction He as [|e es He _ IH]; intros lg Hr.
  { split; [|constructor]. simpl. rewrite app_nil_r. destruct lg. simpl in *. by subst. }
  cbn [log_entries]. rewrite (log_entry_line _ _ _ Hr).
  destruct (IH (Logger true (lg_stderr lg ++
    if entry_written config e then entry_line e ++ [LF] else []))) as [Hes Hl]; [done|].
  cbn [List.filter] in *. destruct (entry_written config e).
  - split; [|constructor; [by apply entry_line_no_lf|done]]. etrans; [exact Hes|].
    by simpl; rewrite <- !app_assoc.
  - split; [|done]. etrans; [exact Hes|]. by rewrite app_nil_r.
Qed.

Definition sample_entries : list entry :=
  [Connected (SockAddr [x7f; x00; x00; x01] (x1f, x90)) true;
   Answered http_request_init http_response_init 400;
   Noted (NoteClosePolicy 5); NotQueued].

Example sample_entries_lines :
  log_entries (set_verbose true config_defaults) sample_entries (Logger true []) =
    Some (Logger true
      (lit "[verbose] accepted connection from 127.0.0.1:8080" ++ [LF] ++
       lit "[verbose] UNKNOWN ? -> 400" ++ [LF] ++
       lit "[verbose] fd 5 closed: connection close policy" ++ [LF] ++
       lit "cinderhttp: failed to enqueue client connection" ++ [LF])).
Proof. vm_compute. reflexivity. Qed.
