(* ===== verification/ClientHandler.v ===== *)
(** * One connection: client_handler.h and client_handler.c

    The loop that reads a request, parses it, routes it, applies the connection
    policy, sends the response and decides whether to go on.  The counters are
    shared with other threads, so the session records the events this
    connection reports and takes the values it reads from an oracle.  Calls of
    the logger are recorded in the same way (LogLines.v has what they write). *)
From S2P Require Import Prelude CLib Proc Request Parser World Reader Response Connection Stats Config.
From S2P Require Import StaticFiles Router Logger LogLines.

(** [ss_counters k]: the counters at the k-th dispatch to the router by this
    connection (only the statistics handler looks at them).  [ss_rcvtimeo]: the
    receive timeout of the socket, once set.  [ss_peer_gone]: whether [errno] is
    EPIPE or ECONNRESET when sending fails, which ends the connection. *)
Record session := Session {
  ss_world : world;
  ss_events : list stats_event;
  ss_counters : nat -> server_stats_t;
  ss_reads : nat;
  ss_setsockopt_ok : bool;
  ss_rcvtimeo : option Z;
  ss_log : list entry;
  ss_peer_gone : bool;
}.

Definition set_world (w : world) (s : session) : session :=
  Session w (ss_events s) (ss_counters s) (ss_reads s) (ss_setsockopt_ok s) (ss_rcvtimeo s) (ss_log s)
    (ss_peer_gone s).

Definition on_world {A} (m : M world A) : M session A := fun s =>
  match m (ss_world s) with
  | Done a w => Done a (set_world w s)
  | NoReturn => NoReturn
  | Fault => Fault
  end.

Definition on_proc {A} (m : M proc A) : M session A := on_world (lift m).

(** A call of one of the [server_stats_*] functions. *)
Definition report (e : stats_event) : M session () := fun s =>
  Done () (Session (ss_world s) (ss_events s ++ [e]) (ss_counters s) (ss_reads s) (ss_setsockopt_ok s)
             (ss_rcvtimeo s) (ss_log s) (ss_peer_gone s)).

(** A call of [logger_verbose] or of [log_request_if_verbose]. *)
Definition add_log (e : entry) (s : session) : session :=
  Session (ss_world s) (ss_events s) (ss_counters s) (ss_reads s) (ss_setsockopt_ok s) (ss_rcvtimeo s)
    (ss_log s ++ [e]) (ss_peer_gone s).

Definition log (e : entry) : M session () := fun s => Done () (add_log e s).

(** The notes that are made only for a worker. *)
Definition log_worker (worker_id : Z) (n : note) : M session () :=
  if 0 <=? worker_id then log (Noted n) else mret ().

Definition peer_gone : M session bool := fun s => Done (ss_peer_gone s) s.

Definition read_counters : M session server_stats_t := fun s =>
  Done (ss_counters s (ss_reads s))
    (Session (ss_world s) (ss_events s) (ss_counters s) (S (ss_reads s)) (ss_setsockopt_ok s)
       (ss_rcvtimeo s) (ss_log s) (ss_peer_gone s)).

(** The result [true] stands for 0. *)
Definition set_recv_timeout (timeout_sec : Z) : M session bool := fun s =>
  if ss_setsockopt_ok s then
    Done true (Session (ss_world s) (ss_events s) (ss_counters s) (ss_reads s) (ss_setsockopt_ok s)
                 (Some timeout_sec) (ss_log s) (ss_peer_gone s))
  else Done false s.

(** ** Statuses *)

Definition status_for_read_result (result : http_read_result_t) : Z :=
  match result with
  | HTTP_READ_TOO_LARGE => 413
  | HTTP_READ_UNSUPPORTED_TRANSFER_ENCODING => 501
  | HTTP_READ_TIMEOUT => 408
  | HTTP_READ_INVALID_CONTENT_LENGTH | HTTP_READ_BAD_REQUEST => 400
  | HTTP_READ_OUT_OF_MEMORY => 500
  | _ => 400
  end.

Definition status_for_parse_result (result : http_parse_result_t) : Z :=
  match result with
  | HTTP_PARSE_OK => 200
  | HTTP_PARSE_UNSUPPORTED_METHOD => 405
  | HTTP_PARSE_UNSUPPORTED_VERSION => 505
  | HTTP_PARSE_TOO_LARGE => 413
  | HTTP_PARSE_TOO_MANY_HEADERS => 400
  | HTTP_PARSE_INVALID_CONTENT_LENGTH => 400
  | HTTP_PARSE_UNSUPPORTED_TRANSFER_ENCODING => 501
  | HTTP_PARSE_OUT_OF_MEMORY => 500
  | _ => 400
  end.

Definition status_for_static_result (result : static_file_result_t) : Z :=
  match result with
  | STATIC_FILE_OK => 200
  | STATIC_FILE_NOT_FOUND => 404
  | STATIC_FILE_FORBIDDEN => 403
  | STATIC_FILE_BAD_TARGET => 400
  | STATIC_FILE_TOO_LARGE => 413
  | STATIC_FILE_OUT_OF_MEMORY | STATIC_FILE_IO_ERROR => 500
  end.

Definition error_heading_for_status (status : Z) : list byte :=
  if status =? 400 then lit "Bad Request"
  else if status =? 403 then lit "Forbidden"
  else if status =? 404 then lit "Not Found"
  else if status =? 405 then lit "Method Not Allowed"
  else if status =? 408 then lit "Request Timeout"
  else if status =? 413 then lit "Payload Too Large"
  else if status =? 501 then lit "Not Implemented"
  else if status =? 505 then lit "HTTP Version Not Supported"
  else lit "Internal Server Error".

Definition status_requires_close (status : Z) : bool :=
  (status =? 400) || (status =? 408) || (status =? 413) || (status =? 501) || (status =? 505) ||
  (status =? 500).

Section handler.
  Context `{FileSystem} (config : server_config_t) (client_fd : nat) (worker_id : Z).

(** ** Error responses and static files *)

(** The status, or -1. *)
Definition build_static_error_response (response : http_response_t) (status : Z)
  : M proc (Z * http_response_t) :=
  response ← http_response_destroy response;
  '(built, response) ←
    (if status =? 404 then static_files_build_not_found (Some (document_root config)) response
     else static_files_build_error response status (Some (error_heading_for_status status)));
  if negb built then
    response ← http_response_destroy response;
    '(ok, response) ← http_response_build_text response status (Some (error_heading_for_status status));
    mret (if negb ok then -1 else status, response)
  else mret (status, response).

Definition handle_static_get_head (request : http_request_t) (response : http_response_t)
  : M session (Z * http_response_t) :=
  '(result, response) ← on_proc (static_files_serve (document_root config)
                          (cs_string <$> req_target request) response);
  if bool_decide (result = STATIC_FILE_OK) then mret (200, response)
  else
    let status := status_for_static_result result in
    log (Noted (NoteStaticResolve status));;
    on_proc (build_static_error_response response status).

(** ** One round of the loop *)

(** The local variables at [send_one]. *)
Record turn := Turn {
  tn_request : http_request_t;
  tn_response : http_response_t;
  tn_omit_body : bool;
  tn_status : Z;
  tn_ready : bool;       (* response_ready *)
  tn_keep_alive : bool;
  tn_force_close : bool;
}.

(** The two error exits before parsing: a partial request that timed out, and
    the other results of the reader. *)
Definition refuse_message (code : Z) : M session turn :=
  '(status, response) ← on_proc (build_static_error_response http_response_init code);
  mret (Turn http_request_init response false status (0 <=? status) false (0 <=? status)).

(** Dispatch of a parsed request: the status, the response, whether it is ready
    and whether the connection must close. *)
Definition dispatch (request : http_request_t) : M session (Z * http_response_t * bool * bool) :=
  let response := http_response_init in
  if router_is_api_request request then
    counters ← read_counters;
    '(result, response) ← on_proc (router_dispatch (RouterContext (Some counters)) request response);
    if negb (bool_decide (result = ROUTER_HANDLED)) then
      '(status, response) ← on_proc (build_static_error_response response 500);
      mret (if 0 <=? status then status else -1, response, 0 <=? status, true)
    else mret (status_code response, response, true, false)
  else if bool_decide (req_method request = HTTP_METHOD_GET) || bool_decide (req_method request = HTTP_METHOD_HEAD)
  then
    '(status, response) ← handle_static_get_head request response;
    mret (status, response, 0 <=? status, false)
  else
    '(status, response) ← on_proc (build_static_error_response response 405);
    mret (if 0 <=? status then status else -1, response, 0 <=? status, false).

(** A framed message: parse, dispatch, and the closing statuses. *)
Definition answer_message (raw : list byte) : M session turn :=
  report EvRequest;;
  '(parse_result, request) ← on_proc (http_parse_request raw);
  if negb (bool_decide (parse_result = HTTP_PARSE_OK)) then
    let status := status_for_parse_result parse_result in
    log (Noted (NoteParseError status));;
    '(built, response) ← on_proc (build_static_error_response http_response_init status);
    if 0 <=? built then mret (Turn request response false status true false true)
    else mret (Turn request response false (-1) false false true)
  else
    let omit_body := bool_decide (req_method request = HTTP_METHOD_HEAD) in
    let keep_alive := http_request_wants_keep_alive request in
    '(status, response, ready, force_close) ← dispatch request;
    if (0 <=? status) && status_requires_close status
    then mret (Turn request response omit_body status ready false true)
    else mret (Turn request response omit_body status ready keep_alive force_close).

(** The tail of a round, from [send_one], in three parts.  The connection policy;
    when it fails the connection is closed instead. *)
Definition announce (response : http_response_t) (persist force_close : bool)
    (version : option (list byte)) : M session (bool * http_response_t) :=
  '(applied, response) ← on_proc (http_response_apply_connection_policy response persist version);
  if negb applied then
    '(_, response) ← on_proc (http_response_apply_connection_policy response false version);
    mret (true, response)
  else mret (force_close, response).

(** Sending a response that is ready, and counting it. *)
Definition transmit (t : turn) (keep_alive force_close : bool) : M session (bool * http_response_t) :=
  if tn_ready t && (0 <=? tn_status t) then
    let persist := keep_alive && negb force_close in
    '(force_close, response) ← announce (tn_response t) persist force_close
                                 (cs_string <$> req_version (tn_request t));
    log (Answered (tn_request t) response (tn_status t));;
    sent ← on_world (http_response_send response (tn_omit_body t));
    if negb sent then
      gone ← peer_gone;
      (if (gone : bool) then log_worker worker_id (NoteDisconnected (Z.of_nat client_fd)) else mret ());;
      mret (true, response)
    else report (EvResponse (tn_status t));; mret (force_close, response)
  else mret (true, tn_response t).

(** [requests] includes this one; the result tells whether the connection ends. *)
Definition send_one (t : turn) (requests : Z) (raw : option cstr) : M session bool :=
  let limit := HTTP_MAX_REQUESTS_PER_CONNECTION <=? requests in
  let force_close := tn_force_close t || limit in
  let keep_alive := tn_keep_alive t && negb limit in
  (if limit then log_worker worker_id (NoteMaxRequests (Z.of_nat client_fd)) else mret ());;
  '(force_close, response) ← transmit t keep_alive force_close;
  on_proc (http_response_destroy response);;
  on_proc (http_request_destroy (tn_request t));;
  on_proc (free_str raw);;
  (if (force_close : bool) then log_worker worker_id (NoteClosePolicy (Z.of_nat client_fd)) else mret ());;
  mret (force_close || negb keep_alive).

(** The three silent exits. *)
Definition abandon (raw : option cstr) : M session () :=
  on_proc (http_response_destroy http_response_init);;
  on_proc (http_request_destroy http_request_init);;
  on_proc (free_str raw).

(** The [for (;;)]; at most HTTP_MAX_REQUESTS_PER_CONNECTION rounds. *)
Fixpoint connection_loop (fuel : nat) (reader : http_reader_t) (requests_on_connection : Z)
  : M session http_reader_t :=
  match fuel with
  | O => no_return
  | S fuel =>
      let buffered_before := rd_length reader in
      '(result, reader, raw) ← on_world (http_reader_next_request reader
                                 (keep_alive_timeout_sec config) (request_timeout_sec config));
      let finish (make : M session turn) : M session http_reader_t :=
        t ← make;
        let requests := requests_on_connection + 1 in
        stop ← send_one t requests raw;
        if (stop : bool) then mret reader else connection_loop fuel reader requests in
      match result with
      | HTTP_READ_CLIENT_CLOSED =>
          log_worker worker_id (NoteClientClosed (Z.of_nat client_fd));; abandon raw;; mret reader
      | HTTP_READ_TIMEOUT =>
          if (buffered_before =? 0) && (rd_length reader =? 0) then
            log_worker worker_id (NoteIdleTimeout (Z.of_nat client_fd));; abandon raw;; mret reader
          else finish (refuse_message 408)
      | HTTP_READ_IO_ERROR => abandon raw;; mret reader
      | HTTP_READ_OK =>
          match raw with
          | None => fault
          | Some c => finish (answer_message (cs_bytes c))
          end
      | e => finish (refuse_message (status_for_read_result e))
      end
  end.

Definition client_handle : M session () :=
  log_worker worker_id (NoteHandling worker_id (Z.of_nat client_fd));;
  let backstop := if keep_alive_timeout_sec config <? request_timeout_sec config
                  then request_timeout_sec config else keep_alive_timeout_sec config in
  set_recv_timeout backstop;;
  reader ← connection_loop (Z.to_nat HTTP_MAX_REQUESTS_PER_CONNECTION) http_reader_init 0;
  on_proc (http_reader_destroy reader);;
  on_proc (close client_fd);;
  report EvFinished.
End handler.
