(* ===== verification/HandlerSpec.v ===== *)
(** * What a connection promises: error responses

    The forms of an error response, and that [build_static_error_response] and
    the functions it calls build one of them or run out of memory. *)
From S2P Require Import Prelude CLib Proc Request Parser ParserSpec World Reader ReaderCorrect.
From S2P Require Import Response ResponseCorrect ResponseWire Connection Stats Config.
From S2P Require Import StaticFiles StaticPaths StaticServe Router RouterCorrect ClientHandler.

(** ** Error responses *)

Lemma heading_length status : zlen (error_heading_for_status status) <= 26.
Proof. unfold error_heading_for_status. repeat case_match; by vm_compute. Qed.

Lemma error_page_fits status heading : zlen heading <= 26 -> zlen (error_page status heading) < 512.
Proof.
  intros Hh. unfold error_page. rewrite !zlen_app. pose proof (fmt_int_length status).
  repeat match goal with |- context [zlen (lit ?s)] =>
    let n := eval vm_compute in (zlen (lit s)) in change (zlen (lit s)) with n end.
  change (zlen [LF]) with 1. change (zlen [SP]) with 1. lia.
Qed.

(** The two forms of an error response without a file. *)
Definition html_error (status : Z) (heading : list byte) (r : http_response_t) : Prop :=
  built (lit "text/html; charset=utf-8") status (Some (error_page status heading)) r.

Definition text_error (status : Z) (heading : list byte) (r : http_response_t) : Prop :=
  built (lit "text/plain; charset=utf-8") status (Some heading) r.

(** A builder that can only fail for lack of memory. *)
Definition build_post (p : proc) (r : http_response_t) (Q : http_response_t -> Prop)
    (res : bool * http_response_t) (p' : proc) : Prop :=
  let '(ok, r') := res in
  resp_step p r p' r' /\ held p' r' /\ if (ok : bool) then Q r' else alloc_failed p p'.

Lemma build_error_wp r status heading p : held p r -> zlen heading <= 26 ->
  wp (static_files_build_error r status (Some heading)) (build_post p r (html_error status heading)) p.
Proof.
  intros Hh Hlen. unfold static_files_build_error.
  pose proof (error_page_fits status heading Hlen).
  destruct (Z.leb_spec 512 (zlen (error_page status heading))); [lia|].
  pose proof (build_wp (lit "text/html; charset=utf-8") r status (Some (error_page status heading)) p Hh)
    as Hb. eapply wp_mono; [exact Hb|]. by intros [ok r'] p'.
Qed.

Section replies.
  Context `{FileSystem} (config : server_config_t).

(** The page of the site for missing files. *)
Definition site_404 (r : http_response_t) : Prop :=
  exists path size r0, serve_ref (document_root config) (lit "/404.html") = inr (path, size) /\
    file_response path size r0 /\ r = http_response_set_status 404 r0.

Lemma build_not_found_wp r p : held p r ->
  wp (static_files_build_not_found (Some (document_root config)) r)
    (build_post p r (fun r' => site_404 r' \/ html_error 404 (lit "Not Found") r')) p.
Proof.
  intros Hh. unfold static_files_build_not_found. apply wp_bind.
  eapply wp_mono; [apply static_files_serve_wp; [apply held_init|by apply (bool_decide_unpack _)]|].
  intros [rc page] p1 (Hs & Hh1 & Hr). destruct Hh as [Hown Hl Hf].
  assert (Hadd : p_live p1 = p_live p ⊎ blk_response page /\ p_fds p1 = p_fds p ⊎ fd_response page).
  { destruct Hs as [_ Hl1 Hf1]. unfold blk_response in Hl1 at 1. simpl in Hl1, Hf1.
    split; multiset_solver. }
  destruct Hadd as [Hl1 Hf1].
  destruct (bool_decide_reflect (rc = STATIC_FILE_OK)) as [->|Hne].
  - destruct Hr as [(path & size & Href & _ & Hfile)|(_ & ? & _)]; [|done].
    apply wp_bind. eapply wp_mono; [apply response_destroy_wp; split; [done|multiset_solver..]|].
    intros r1 p2 [-> [Ha2 Hl2 Hf2]]. apply wp_ret. destruct Hh1 as [[] ? ?].
    assert (Hstep : resp_step p r p2 (http_response_set_status 404 page)).
    { unfold blk_response in Hl2 at 2. simpl in Hl2, Hf2. split; [etrans; [apply Hs|done]| |].
      - change (blk_response (http_response_set_status 404 page)) with (blk_response page). multiset_solver.
      - change (fd_response (http_response_set_status 404 page)) with (fd_response page). multiset_solver. }
    split_and!; [done| |left; by exists path, size, page].
    eapply held_step; [by split|done|]. by split.
  - apply wp_bind. eapply wp_mono; [by apply response_destroy_wp|]. intros r1 p2 [-> [Ha2 Hl2 Hf2]].
    unfold blk_response in Hl2 at 2. simpl in Hl2, Hf2.
    assert (Hp2 : advances p p2 /\ p_live p2 = p_live p /\ p_fds p2 = p_fds p).
    { split_and!; [etrans; [apply Hs|done]|multiset_solver|multiset_solver]. }
    destruct Hp2 as (Hadv & Hlp & Hfp).
    eapply wp_mono; [apply build_error_wp; [split; [done|by rewrite Hlp|by rewrite Hfp]|by vm_compute]|].
    intros [ok r2] p3 ([Ha3 Hl3 Hf3] & Hh3 & Hr3). rewrite Hlp in Hl3. rewrite Hfp in Hf3.
    split_and!; [split; [by etrans|done|done]|done|]. destruct ok; [by right|].
    by eapply advances_failed_r.
Qed.

(** An error response: the HTML page, the text fallback, or the page of the
    site for 404. *)
Definition error_reply (status : Z) (r : http_response_t) : Prop :=
  html_error status (error_heading_for_status status) r \/
  text_error status (error_heading_for_status status) r \/
  status = 404 /\ site_404 r.

Definition error_post (p : proc) (r : http_response_t) (status : Z)
    (res : Z * http_response_t) (p' : proc) : Prop :=
  let '(code, r') := res in resp_step p r p' r' /\ held p' r' /\
  (code = status /\ error_reply status r' \/ code = -1 /\ alloc_failed p p').

Lemma build_static_error_wp r status p : held p r ->
  wp (build_static_error_response config r status) (error_post p r status) p.
Proof.
  intros Hh. unfold build_static_error_response. apply wp_bind.
  eapply wp_mono; [by apply response_destroy_wp|]. intros r0 p0 [-> Hs0].
  assert (Hh0 : held p0 http_response_init) by apply held_init. pose proof (heading_length status) as Hlen.
  apply wp_bind. eapply wp_mono with (Q := build_post p0 http_response_init (error_reply status)).
  { destruct (Z.eqb_spec status 404) as [->|Hne].
    - eapply wp_mono; [by apply build_not_found_wp|]. intros [[] r1] p1 (Hs & Hh1 & Hr); [|done].
      split_and!; [done|done|]. destruct Hr as [Hr|Hr]; [right; right; done|by left].
    - eapply wp_mono; [by apply build_error_wp|]. intros [[] r1] p1 (Hs & Hh1 & Hr); [|done].
      split_and!; [done|done|by left]. }
  intros [[] r1] p1 (Hs1 & Hh1 & Hr); simpl negb; cbv iota.
  { apply wp_ret. split_and!; [by eapply resp_step_trans|done|by left]. }
  apply wp_bind. eapply wp_mono; [by apply response_destroy_wp|]. intros r2 p2 [-> Hs2].
  assert (Hh2 : held p2 http_response_init) by apply held_init.
  apply wp_bind. eapply wp_mono; [by apply build_wp|]. intros [[] r3] p3 (Hs3 & Hh3 & Hr3).
  all: assert (Hs : resp_step p r p3 r3) by (do 3 (eapply resp_step_trans; [done|]); done).
  all: apply wp_ret; split_and!; [done|done|].
  - left. split; [done|]. right. by left.
  - right. split; [done|]. eapply advances_failed_r; [apply Hs0|].
    eapply advances_failed_l; [|done]. etrans; [apply Hs2|apply Hs3].
Qed.
End replies.
