(* ===== verification/HandlerSize.v ===== *)
(** * Sizes of responses

    Every response the server builds has a head far smaller than the address
    space, so that serialization can only fail for lack of memory. *)
From S2P Require Import Prelude CLib Proc Request Parser ParserSpec ParserRefine ParserCorrect World.
From S2P Require Import Response ResponseCorrect ResponseWire Connection Mime Config.
From S2P Require Import StaticFiles StaticServe Router RouterCorrect ClientHandler HandlerSpec.

(** Bytes of the header lines, by their names and values. *)
Fixpoint pairs_size (hs : list (list byte * list byte)) : Z :=
  match hs with [] => 0 | (n, v) :: hs => zlen n + zlen v + 4 + pairs_size hs end.

Lemma pairs_size_app l k : pairs_size (l ++ k) = pairs_size l + pairs_size k.
Proof. induction l as [|[n v] l IH]; simpl; lia. Qed.

#[global] Instance pairs_size_proper : Proper (Permutation ==> eq) pairs_size.
Proof. intros l k H. induction H as [|[n v] l k _ IH|[n v] [n' v'] l|l k m _ IH1 _ IH2]; simpl; lia. Qed.

Lemma c_string_length l : zlen (c_string l) <= zlen l.
Proof. unfold zlen. induction l as [|x l IH]; simpl; [lia|]. destruct (x =?b NUL); simpl; lia. Qed.

Lemma header_lines_size hs :
  zlen (concat (map header_line_bytes hs)) <= pairs_size (map pair_of hs).
Proof.
  induction hs as [|h hs IH]; simpl; [done|]. rewrite zlen_app, header_line_bytes_len.
  pose proof (c_string_length (cs_bytes (hdr_name h))). pose proof (c_string_length (cs_bytes (hdr_value h))).
  unfold cs_string. lia.
Qed.

Lemma pairs_size_nonneg hs : 0 <= pairs_size hs.
Proof. induction hs as [|[n v] hs IH]; simpl; [lia|]. pose proof (zlen_nonneg n). pose proof (zlen_nonneg v). lia. Qed.

Lemma others_size name hs : pairs_size (map pair_of (others name hs)) <= pairs_size (map pair_of hs).
Proof.
  unfold others. induction hs as [|h hs IH]; [done|]. pose proof (pairs_size_nonneg [pair_of h]) as Hp.
  destruct (decide (matches name h = false)).
  - rewrite filter_cons_True by done. simpl. lia.
  - rewrite filter_cons_False by done. simpl in *. lia.
Qed.

(** Headers of a response before the policy, and what it may add. *)
Definition modest (r : http_response_t) : Prop := pairs_size (header_pairs r) <= HTTP_MAX_HEADER_BYTES + 256.

Lemma modest_fits r extra hs : modest r -> rsp_headers hs ≡ₚ others (lit "Connection") (rsp_headers r) ++ extra ->
  connection_extra (map pair_of extra) -> reason_ok hs -> fits_memory hs.
Proof.
  intros Hm Hp Hx Hr. unfold fits_memory, serialized_head. rewrite !zlen_app.
  pose proof (status_line_fits hs Hr). pose proof (length_hdr_fits hs).
  assert (pairs_size (map pair_of extra) <= 24) by (destruct Hx as [->|[->| ->]]; by vm_compute).
  assert (Hl : zlen (concat (map header_line_bytes (rsp_headers hs))) <= HTTP_MAX_HEADER_BYTES + 280).
  { etrans; [apply header_lines_size|]. rewrite Hp, map_app, pairs_size_app.
    pose proof (others_size (lit "Connection") (rsp_headers r)). unfold modest, header_pairs in Hm. lia. }
  change (zlen CRLF) with 2. unfold SIZE_MAX, HTTP_MAX_HEADER_BYTES in *.
  assert (zlen (if need_server hs then server_hdr else []) <= 24) by by destruct (need_server hs).
  assert (zlen (if need_connection hs then connection_hdr else []) <= 19) by by destruct (need_connection hs).
  assert (zlen (if need_content_length hs then length_hdr hs else []) <= 64).
  { destruct (need_content_length hs); [lia|by vm_compute]. }
  lia.
Qed.

(** ** The headers of the replies *)

Lemma mime_length path : zlen (mime_type_from_path path) <= 64.
Proof.
  assert (Hl : forall ext, zlen (mime_lookup ext MIME_TABLE) <= 64).
  { assert (HF : forallb (fun e => zlen e.2 <=? 64) MIME_TABLE = true) by by vm_compute.
    intros ext. induction MIME_TABLE as [|[k v] t IH]; [by vm_compute|]. simpl in *.
    apply andb_true_iff in HF as [?%Z.leb_le ?]. case_match; auto. }
  unfold mime_type_from_path. repeat case_match; auto; by vm_compute.
Qed.

(** The value of a field, by name. *)
Fixpoint header_value (name : list byte) (hs : list (list byte * list byte)) : option (list byte) :=
  match hs with
  | [] => None
  | (n, v) :: hs => if header_name_equal (c_string n) name then Some (c_string v) else header_value name hs
  end.

Lemma find_header_value name hs : cs_string <$> find_header name hs = header_value name (map view_header hs).
Proof. induction hs as [|h hs IH]; [done|]. simpl. by destruct (header_name_equal _ _). Qed.

Lemma header_value_size name hs v : header_value name hs = Some v ->
  exists h, h ∈ hs /\ zlen v <= zlen h.2.
Proof.
  induction hs as [|[n x] hs IH]; [done|]. simpl. destruct (header_name_equal _ _).
  - intros [= <-]. exists (n, x). split; [by left|]. apply c_string_length.
  - intros (h & ? & ?)%IH. exists h. split; [by right|done].
Qed.

Lemma split_header_length line n v : split_header line = Some (n, v) -> zlen v <= zlen line.
Proof.
  unfold split_header. destruct (memchr ":" line) as [[|k]|]; [done| |done]. intros [= _ <-].
  destruct (trim_ows_end_spec (skip_ows (drop (S (S k)) line))) as (o & Ho & _).
  destruct (skip_ows_spec (drop (S (S k)) line)) as (o' & Ho' & _).
  apply (f_equal length) in Ho, Ho'. rewrite length_app in Ho, Ho'. rewrite length_drop in Ho'.
  unfold zlen. lia.
Qed.

Lemma header_lines_bound bound : forall fuel cursor acc hs,
  header_lines_spec fuel cursor acc = inr hs -> zlen cursor <= bound ->
  Forall (fun h => zlen h.2 <= bound) acc -> Forall (fun h => zlen h.2 <= bound) hs.
Proof.
  induction fuel as [|fuel IH]; intros cursor acc hs; [done|]. cbn [header_lines_spec].
  case_bool_decide; [by intros [= <-]|].
  destruct (next_line cursor) as [[line rest]|] eqn:En; [|done].
  destruct (header_line_spec line) as [[n v]|] eqn:Eh; [|done].
  destruct (HTTP_MAX_HEADERS <=? zlen acc); [done|]. intros Hs Hb Hacc.
  apply next_line_Some in En as [Hc _]. apply (f_equal zlen) in Hc. rewrite zlen_app in Hc.
  assert (zlen (CR :: LF :: rest) = 2 + zlen rest) by (unfold zlen; simpl; lia).
  pose proof (zlen_nonneg line). pose proof (zlen_nonneg rest).
  apply header_line_spec_split, split_header_length in Eh.
  eapply IH; [done|lia|]. apply Forall_app. split; [done|]. constructor; [simpl; lia|done].
Qed.

Lemma parsed_headers_bound data a : parse_spec data = inr a ->
  Forall (fun h => zlen h.2 <= HTTP_MAX_HEADER_BYTES) (rq_headers a).
Proof.
  unfold parse_spec. destruct (http_find_header_terminator data) as [term|]; [|done].
  destruct (Z.ltb_spec HTTP_MAX_HEADER_BYTES (Z.of_nat (term + 4))); [done|].
  destruct (framing_spec data (term + 4)); [done|]. destruct (negb _); [done|].
  destruct (next_line (take (term + 2) data)) as [[line cursor]|] eqn:En; [|done].
  destruct (request_line_spec line) as [|[[m t] v]]; [done|].
  destruct (header_lines_spec _ cursor []) as [|hs] eqn:Eh; [done|]. intros [= <-]. simpl.
  eapply header_lines_bound; [done| |done]. apply next_line_Some in En as [Hc _].
  apply (f_equal zlen) in Hc. rewrite zlen_app in Hc. unfold zlen in *. rewrite length_take in Hc.
  simpl in Hc. lia.
Qed.

Lemma built_modest ct status text r : built ct status text r -> zlen ct <= 64 -> modest r /\ reason_ok r.
Proof.
  intros (Hs & Hr & Hh & _) Hl. unfold modest, reason_ok. rewrite Hh, Hs. simpl pairs_size.
  change (zlen (lit "Content-Type")) with 12. unfold HTTP_MAX_HEADER_BYTES.
  split; [lia|]. done.
Qed.

Section sizes.
  Context `{FileSystem} (config : server_config_t).

Lemma file_response_modest path size r : file_response path size r -> modest r /\ reason_ok r.
Proof.
  intros (Hs & Hr & Hh & _). unfold modest, reason_ok. rewrite Hh, Hs. cbn [pairs_size].
  pose proof (mime_length (Some path)). change (zlen (lit "Content-Type")) with 12.
  unfold HTTP_MAX_HEADER_BYTES. split; [lia|done].
Qed.

Lemma error_reply_modest status r : error_reply config status r ->
  status_code r = status /\ modest r /\ reason_ok r.
Proof.
  intros [Hr|[Hr|(-> & path & size & r0 & _ & Hf & ->)]].
  - split; [apply Hr|]. by eapply built_modest.
  - split; [apply Hr|]. by eapply built_modest.
  - split; [done|]. apply file_response_modest in Hf as [? _]. done.
Qed.

Lemma answers_modest counters a r data : parse_spec data = inr a ->
  answers (api_table counters (header_value (lit "Content-Type") (rq_headers a)) (rq_method a)
    (path_of (rq_target a)) (rq_body a)) r -> modest r /\ reason_ok r.
Proof.
  intros Hp%parsed_headers_bound (Hs & Hr & Hh & _). unfold reason_ok. rewrite Hs, Hr. split; [|done].
  assert (Ht : forall v, zlen (echo_type v) <= Z.max 24 (zlen (default [] v))).
  { intros [[|c v]|]; simpl; [by vm_compute|lia|by vm_compute]. }
  specialize (Ht (header_value (lit "Content-Type") (rq_headers a))).
  assert (Hv : zlen (default [] (header_value (lit "Content-Type") (rq_headers a))) <= HTTP_MAX_HEADER_BYTES).
  { destruct (header_value _ _) as [v|] eqn:Ev; simpl; [|by vm_compute].
    apply header_value_size in Ev as (h & Hin & ?). rewrite Forall_forall in Hp. specialize (Hp h Hin). lia. }
  unfold modest. rewrite Hh. unfold api_table. unfold HTTP_MAX_HEADER_BYTES in *.
  repeat case_match; cbn [an_type an_allow pairs_size json_answer not_allowed]; try by vm_compute.
  change (zlen (lit "Content-Type")) with 12. lia.
Qed.
End sizes.
