(* ===== verification/Conversation.v ===== *)
(** * Conversations

    The reply that each message deserves, and the conversations a connection may
    have: an inductive relation between the number of requests served before,
    the bytes received from there on, the bytes sent and the events reported.
    Whatever departs from the normal course has its reason in an answer that the
    operating system gave during the conversation. *)
From S2P Require Import Prelude CLib Proc Request Parser ParserSpec World Reader Evidence ReaderCorrect.
From S2P Require Import Response ResponseCorrect ResponseWire Connection Stats Config.
From S2P Require Import StaticFiles StaticServe Router RouterCorrect ClientHandler HandlerSpec HandlerSize.

(** ** Reasons *)

(** What happened during a part of a run: an allocation failed; the stream ended or
    its socket failed; a wait ran out; a request missed its deadline; the clock
    failed; a call that sends failed. *)
Record reasons := Reasons {
  no_memory : Prop;
  stream_ended : Prop;
  wait_ended : Prop;
  deadline_missed : Prop;
  clock_failed : Prop;
  sending_failed : Prop;
}.

(** What happened between two states of the world, with [rq] seconds for a request. *)
Definition reasons_between (rq : Z) (w w' : world) : reasons :=
  {| no_memory := alloc_failed (w_proc w) (w_proc w');
     stream_ended := stream_over w w';
     wait_ended := wait_over w w';
     deadline_missed := late rq None w w';
     clock_failed := clock_over w w';
     sending_failed := sending_over w w' |}.

(** Fewer things happened in a part. *)
Record within_reason (R R' : reasons) : Prop := {
  wr_memory : no_memory R -> no_memory R';
  wr_stream : stream_ended R -> stream_ended R';
  wr_wait : wait_ended R -> wait_ended R';
  wr_deadline : deadline_missed R -> deadline_missed R';
  wr_clock : clock_failed R -> clock_failed R';
  wr_sending : sending_failed R -> sending_failed R';
}.

(** Time passed and allocations were made. *)
Record later (w w' : world) : Prop := {
  lt_io : io_later w w';
  lt_proc : advances (w_proc w) (w_proc w');
}.

#[global] Instance later_refl : Reflexive later.
Proof. by split. Qed.

#[global] Instance later_trans : Transitive later.
Proof. intros w1 w2 w3 [] []. split; by etrans. Qed.

Lemma later_proc w p : advances (w_proc w) p -> later w (set_proc p w).
Proof. intros Ha. split; [apply io_later_proc|exact Ha]. Qed.

Lemma reasons_part rq w w1 w2 w' : later w w1 -> later w2 w' ->
  within_reason (reasons_between rq w1 w2) (reasons_between rq w w').
Proof.
  intros [Hio1 Ha1] [Hio2 Ha2]. split; simpl.
  - intros Hf. eapply advances_failed_r; [exact Ha1|]. by eapply advances_failed_l.
  - by apply stream_over_mono.
  - by apply wait_over_mono.
  - by apply (late_mono rq None).
  - by apply clock_over_mono.
  - by apply sending_over_mono.
Qed.

Section conversation.
  Context `{FileSystem} (config : server_config_t).
  (** The counters that other threads also change, and the contents of files. *)
  Context (counters : nat -> server_stats_t) (w0 : world).

Section replies.
  (** Whether an allocation fails. *)
  Context (oom : Prop).

(** A GET or HEAD outside the API. *)
Definition static_reply (target : list byte) (status : Z) (r : http_response_t) : Prop :=
  match serve_ref (document_root config) target with
  | inr (path, size) => status = 200 /\ file_response path size r
  | inl e => status = status_for_static_result e /\ error_reply config status r
  end.

(** The reply to a request. *)
Definition reply (a : request) (status : Z) (r : http_response_t) : Prop :=
  if path_has_api_prefix (Some (rq_target a)) then
    status = status_code r /\ exists k,
    answers (api_table (counters k) (header_value (lit "Content-Type") (rq_headers a)) (rq_method a)
      (path_of (rq_target a)) (rq_body a)) r
  else if is_get_or_head (rq_method a) then static_reply (rq_target a) status r
  else status = 405 /\ error_reply config 405 r.

(** The reply to a message, which may fail to parse. *)
Definition message_reply (msg : list byte) (status : Z) (r : http_response_t) : Prop :=
  match parse_spec msg with
  | inl e => status = status_for_parse_result e /\ error_reply config status r
  | inr a => reply a status r
  end \/ oom /\ status = 500 /\ error_reply config 500 r.

(** [r'] is [r] as it goes out, after the connection policy. *)
Record delivered (persist : bool) (version : option (list byte)) (r r' : http_response_t) : Prop := {
  dl_kept : exists b, headers_only (set_suppress b r) r';
  dl_headers : exists extra, rsp_headers r' ≡ₚ others (lit "Connection") (rsp_headers r) ++ extra /\
    connection_extra (map pair_of extra);
  dl_announced : connection_fields r' = announced persist version \/ oom;
}.

(** The version and the method that a reply takes from the message. *)
Definition framed_as (msg : list byte) (version : option (list byte)) (omit : bool) : Prop :=
  (version, omit) = match parse_spec msg with
                    | inr a => (Some (rq_version a), bool_decide (rq_method a = HTTP_METHOD_HEAD))
                    | inl _ => (None, false)
                    end \/
  oom /\ (version, omit) = (None, false).

(** The reasons to end a connection after a reply. *)
Definition must_close (n : Z) (msg : list byte) (status : Z) : Prop :=
  (exists e, parse_spec msg = inl e) \/
  (exists a request, parse_spec msg = inr a /\ shows request a /\
     http_request_wants_keep_alive request = false) \/
  status_requires_close status = true \/ HTTP_MAX_REQUESTS_PER_CONNECTION <= n + 1 \/ oom.

End replies.

Section talk.
  (** What happened during the conversation. *)
  Context (R : reasons).
  Abbreviation oom := (no_memory R).

(** All of it was sent and counted; or a prefix was sent and nothing counted, because
    sending failed, memory ran out or the file is shorter than declared. *)
Definition transmitted (r : http_response_t) (omit : bool) (status : Z) (d : list byte)
    (evs : list stats_event) : Prop :=
  d = wire r omit w0 /\ evs = [EvResponse status] /\
    (omit = false -> zlen (body_bytes r w0) = body_length r) \/
  d `prefix_of` wire r omit w0 /\ evs = [] /\
    (sending_failed R \/ oom \/
     omit = false /\ zlen (body_bytes r w0) < body_length r /\ serialized_head r `prefix_of` d).

(** Why a connection ends without a reply: the stream ended before another message
    was complete; nothing came in the time allowed between requests; or the clock
    failed. *)
Definition silence (rest : list byte) : Prop :=
  stream_ended R /\ extract_spec rest = (HTTP_READ_IO_ERROR, 0%nat) \/
  wait_ended R /\ rest = [] \/
  clock_failed R.

(** Why a stream has no further message: it is incomplete when a wait runs out or
    the deadline passes, or the reader rejects it. *)
Definition refusal (rest : list byte) (code : Z) : Prop :=
  code = 408 /\ rest <> [] /\ extract_spec rest = (HTTP_READ_IO_ERROR, 0%nat) /\
    (wait_ended R \/ deadline_missed R) \/
  (exists rc, extract_spec rest = (rc, 0%nat) /\ rc <> HTTP_READ_IO_ERROR /\ rc <> HTTP_READ_OK /\
     code = status_for_read_result rc) \/
  code = 500 /\ oom.

Inductive talk : Z -> list byte -> list byte -> list stats_event -> Prop :=
(** No further message, and no reply. *)
| talk_end n rest : silence rest -> talk n rest [] []
(** Memory ran out before there was a response. *)
| talk_unanswered n rest evs : oom -> evs = [] \/ evs = [EvRequest] -> talk n rest [] evs
(** The stream has no further message: one error response, and the end. *)
| talk_refused n rest code r r' d evs :
    refusal rest code -> error_reply config code r -> delivered oom false None r r' ->
    transmitted r' false code d evs -> talk n rest d evs
(** The last reply, cut short or followed by the end. *)
| talk_last n msg rest version omit persist status r r' d evs :
    complete_frame msg -> message_reply oom msg status r -> framed_as oom msg version omit ->
    delivered oom persist version r r' -> transmitted r' omit status d evs ->
    (if (persist : bool) then evs = [] else must_close oom n msg status) ->
    talk n (msg ++ rest) d (EvRequest :: evs)
(** A reply after which the connection goes on. *)
| talk_next n msg a request rest status r r' d sent evs :
    complete_frame msg -> parse_spec msg = inr a -> shows request a -> reply a status r ->
    http_request_wants_keep_alive request = true -> status_requires_close status = false ->
    n + 1 < HTTP_MAX_REQUESTS_PER_CONNECTION ->
    delivered oom true (Some (rq_version a)) r r' ->
    transmitted r' (bool_decide (rq_method a = HTTP_METHOD_HEAD)) status d [EvResponse status] ->
    talk (n + 1) rest sent evs ->
    talk n (msg ++ rest) (d ++ sent) (EvRequest :: EvResponse status :: evs).
End talk.

(** ** More reasons allow more *)

Lemma message_reply_mono (O O' : Prop) msg status r : (O -> O') ->
  message_reply O msg status r -> message_reply O' msg status r.
Proof. intros HO [?|(? & ?)]; [by left|right; auto]. Qed.

Lemma framed_as_mono (O O' : Prop) msg v omit : (O -> O') ->
  framed_as O msg v omit -> framed_as O' msg v omit.
Proof. intros HO [?|[? ?]]; [by left|right; auto]. Qed.

Lemma delivered_mono (O O' : Prop) b v r r' : (O -> O') -> delivered O b v r r' -> delivered O' b v r r'.
Proof. intros HO [? ? [?|?]]; split; auto. Qed.

Lemma must_close_mono (O O' : Prop) n msg status : (O -> O') ->
  must_close O n msg status -> must_close O' n msg status.
Proof. unfold must_close. tauto. Qed.

Lemma transmitted_mono R R' r omit status d evs : within_reason R R' ->
  transmitted R r omit status d evs -> transmitted R' r omit status d evs.
Proof. intros [] [?|(? & ? & ?)]; [by left|right]. tauto. Qed.

Lemma silence_mono R R' rest : within_reason R R' -> silence R rest -> silence R' rest.
Proof. intros []. unfold silence. tauto. Qed.

Lemma refusal_mono R R' rest code : within_reason R R' -> refusal R rest code -> refusal R' rest code.
Proof. intros [] [?|[?|?]]; [left|right; by left|right; right]; tauto. Qed.

Lemma talk_mono R R' n received sent evs : within_reason R R' ->
  talk R n received sent evs -> talk R' n received sent evs.
Proof.
  intros HR Ht. pose proof (wr_memory _ _ HR) as HO. induction Ht.
  - apply talk_end. by eapply silence_mono.
  - apply talk_unanswered; auto.
  - eapply talk_refused; [by eapply refusal_mono|done|by eapply delivered_mono|by eapply transmitted_mono].
  - eapply talk_last; [done|by eapply message_reply_mono|by eapply framed_as_mono|by eapply delivered_mono|
      by eapply transmitted_mono|]. destruct persist; [done|by eapply must_close_mono].
  - eapply talk_next; [done..|by eapply delivered_mono|by eapply transmitted_mono|done].
Qed.

(** ** What every conversation has *)

Lemma transmitted_events R r omit status d evs : transmitted R r omit status d evs ->
  evs = [EvResponse status] \/ evs = [].
Proof. intros [(_ & -> & _)|(_ & -> & _)]; auto. Qed.

(** Without a failure a message is never left without a reply. *)
Lemma talk_replies R n msg rest sent evs : complete_frame msg ->
  talk R n (msg ++ rest) sent evs -> sent = [] -> no_memory R \/ clock_failed R \/ sending_failed R.
Proof.
  intros Hcf Ht Hnil.
  assert (Hempty : extract_spec [] = (HTTP_READ_IO_ERROR, 0%nat)) by done.
  assert (Hhead : forall r, serialized_head r <> []) by (intros r; rewrite serialized_head_lines; by destruct (reason_phrase r)).
  assert (Htr : forall r omit status evs, transmitted R r omit status [] evs -> no_memory R \/ sending_failed R).
  { intros r omit status e [(Hw & _)|(_ & _ & Hwhy)].
    - unfold wire in Hw. symmetry in Hw. apply app_nil in Hw as [Hw _]. by destruct (Hhead r).
    - destruct Hwhy as [?|[?|(_ & _ & [k Hk])]]; [by right|by left|]. symmetry in Hk.
      apply app_nil in Hk as [Hk _]. by destruct (Hhead r). }
  pose proof (extract_frame_app msg rest Hcf) as Hx. remember (msg ++ rest) as stream eqn:E.
  destruct Ht as [n rest' Hsil|n rest' evs Ho _|n rest' code r r' d evs _ _ _ Hd|
    n m rest' v o ps st r r' d evs _ _ _ _ Hd _|n m a rq rest' st r r' d snt evs _ _ _ _ _ _ _ _ Hd _].
  - destruct Hsil as [[_ Hi]|[[_ ->]|?]]; [congruence|by rewrite Hx in Hempty|auto].
  - auto.
  - subst d. apply Htr in Hd. tauto.
  - subst d. apply Htr in Hd. tauto.
  - apply app_nil in Hnil as [-> _]. apply Htr in Hd. tauto.
Qed.

Lemma count_cons f e es : count f (e :: es) = (if f e then 1 else 0) + count f es.
Proof. unfold count. simpl. destruct (f e); unfold zlen; simpl; lia. Qed.

Definition is_response (e : stats_event) : bool := match e with EvResponse _ => true | _ => false end.

(** At most one response per request read, but one final refusal, and at most as
    many requests as the limit allows. *)
Lemma talk_bounds R n received sent evs : talk R n received sent evs -> 0 <= n < HTTP_MAX_REQUESTS_PER_CONNECTION ->
  count is_response evs <= count is_request evs + 1 /\
  n + count is_request evs <= HTTP_MAX_REQUESTS_PER_CONNECTION /\
  n + count is_response evs <= HTTP_MAX_REQUESTS_PER_CONNECTION /\
  count is_started evs = 0 /\ count is_finished evs = 0 /\ count is_accepted evs = 0.
Proof.
  intros Ht. induction Ht as [n rest _|n rest evs _ Hev|n rest code r r' d evs _ _ _ Hx|
    n msg rest v o ps st r r' d evs _ _ _ _ Hx _|n msg a rq rest st r r' d snt evs _ _ _ _ _ _ Hlt _ _ _ IH];
    intros Hn.
  - unfold count, zlen; simpl; lia.
  - destruct Hev as [->| ->]; unfold count, zlen; simpl; lia.
  - apply transmitted_events in Hx as [->| ->]; unfold count, zlen; simpl; lia.
  - apply transmitted_events in Hx as [->| ->]; unfold count, zlen; simpl; lia.
  - rewrite !count_cons. simpl. destruct IH as (? & ? & ? & ? & ? & ?); [lia|]. split_and!; lia.
Qed.
End conversation.
