(* ===== verification/HandlerCorrect.v ===== *)
(** * Correctness of the connection handler, one round

    Every round builds the reply that the message deserves, applies the policy,
    sends, and gives back all it allocated and opened. *)
From S2P Require Import Prelude CLib Proc Request Parser ParserSpec ParserRefine Framing ParserCorrect.
From S2P Require Import World Reader ReaderCorrect Response ResponseCorrect ResponseWire Connection.
From S2P Require Import Stats Config StaticFiles StaticServe Router RouterCorrect RequestType.
From S2P Require Import Logger LogLines ClientHandler HandlerSpec HandlerSize Conversation.

(** ** Rules *)

Lemma wlp_on_world {A} (m : M world A) Q s :
  wlp m (fun a w => Q a (set_world w s)) (ss_world s) -> wlp (on_world m) Q s.
Proof. unfold wlp, on_world. by destruct (m (ss_world s)). Qed.

Lemma wlp_on_proc {A} (m : M proc A) Q s :
  wp m (fun a p => Q a (set_world (set_proc p (ss_world s)) s)) (w_proc (ss_world s)) ->
  wlp (on_proc m) Q s.
Proof. intros Hm. by apply wlp_on_world, wlp_lift. Qed.

(** The process of a session. *)
Definition sp (s : session) : proc := w_proc (ss_world s).

(** The statuses of the answers in the log. *)
Definition answered (es : list entry) : list Z :=
  omap (fun e => match e with Answered _ _ status => Some status | _ => None end) es.

(** Between [s] and [s'] answers with the statuses [sts] were logged, and notes. *)
Definition logs (s s' : session) (sts : list Z) : Prop :=
  exists es, ss_log s' = ss_log s ++ es /\ Forall entry_ok es /\ answered es = sts.

Lemma logs_nothing s s' : ss_log s' = ss_log s -> logs s s' [].
Proof. intros Hl. exists []. by rewrite app_nil_r. Qed.

Lemma logs_one s e : entry_ok e -> logs s (add_log e s) (answered [e]).
Proof. intros He. exists [e]. split_and!; [done|by constructor|done]. Qed.

Lemma logs_trans s1 s2 s3 a b : logs s1 s2 a -> logs s2 s3 b -> logs s1 s3 (a ++ b).
Proof.
  intros (es & E1 & F1 & <-) (es' & E2 & F2 & <-). exists (es ++ es').
  split_and!; [by rewrite E2, E1, app_assoc|by apply Forall_app|]. unfold answered. by rewrite omap_app.
Qed.

(** Between [s] and [s'] only the process moved, [evs] were reported and notes
    were logged. *)
Record internal (s s' : session) (evs : list stats_event) : Prop := {
  in_world : ss_world s' = set_proc (sp s') (ss_world s);
  in_events : ss_events s' = ss_events s ++ evs;
  in_counters : ss_counters s' = ss_counters s;
  in_log : logs s s' [];
}.

Lemma internal_trans s1 s2 s3 e1 e2 : internal s1 s2 e1 -> internal s2 s3 e2 -> internal s1 s3 (e1 ++ e2).
Proof.
  intros [W1 E1 C1 L1] [W2 E2 C2 L2]. split; [|by rewrite E2, E1, app_assoc|congruence|exact (logs_trans _ _ _ _ _ L1 L2)].
  rewrite W2, W1. done.
Qed.

(** Nothing happened to the operating system. *)
Lemma internal_still s s' evs : ss_world s' = ss_world s -> ss_events s' = ss_events s ++ evs ->
  ss_counters s' = ss_counters s -> logs s s' [] -> internal s s' evs.
Proof. intros Hw. split; [|done..]. unfold sp. rewrite Hw. symmetry. apply set_proc_id. Qed.

Lemma internal_note s n : internal s (add_log (Noted n) s) [].
Proof. apply internal_still; [done|simpl; by rewrite app_nil_r|done|by apply (logs_one s (Noted n))]. Qed.

Lemma wlp_log e Q s : Q () (add_log e s) -> wlp (log e) Q s.
Proof. done. Qed.

Lemma wlp_log_worker id n Q s : (forall s', internal s s' [] -> ss_world s' = ss_world s -> Q () s') ->
  wlp (log_worker id n) Q s.
Proof.
  intros HQ. unfold log_worker. destruct (_ <=? _); [apply wlp_log|apply wlp_ret]; apply HQ; try done.
  - apply internal_note.
  - apply internal_still; [done|by rewrite app_nil_r|done|by apply logs_nothing].
Qed.

(** A note that depends on a test. *)
Lemma wlp_note_if (b : bool) id n Q s : (forall s', internal s s' [] -> ss_world s' = ss_world s -> Q () s') ->
  wlp (if b then log_worker id n else mret ()) Q s.
Proof.
  intros HQ. destruct b; [by apply wlp_log_worker|]. apply wlp_ret, HQ; [|done].
  apply internal_still; [done|by rewrite app_nil_r|done|by apply logs_nothing].
Qed.

Lemma internal_proc s p : internal s (set_world (set_proc p (ss_world s)) s) [].
Proof. split; [done|by rewrite app_nil_r|done|by apply logs_nothing]. Qed.

(** Some allocation between two states failed. *)
Definition oom (s s' : session) : Prop := alloc_failed (sp s) (sp s').

Lemma oom_part s s1 s2 s' : advances (sp s) (sp s1) -> advances (sp s2) (sp s') -> oom s1 s2 -> oom s s'.
Proof. intros H1 H2 Hf. eapply advances_failed_r; [exact H1|]. by eapply advances_failed_l. Qed.

(** From [p] to [q] the request and the response were acquired. *)
Record holds (p q : proc) (request : http_request_t) (response : http_response_t) : Prop := {
  hd_advances : advances p q;
  hd_live : p_live q = p_live p ⊎ blk_request request ⊎ blk_response response;
  hd_fds : p_fds q = p_fds p ⊎ fd_response response;
  hd_request : owned_request request;
  hd_response : owned_response response;
}.

Lemma holds_held p q request response : holds p q request response -> held q response.
Proof. intros []. split; [done|multiset_solver|multiset_solver]. Qed.

Lemma blk_response_init : blk_response http_response_init = ∅.
Proof. unfold blk_response. simpl. multiset_solver. Qed.

Lemma holds_step p q request r q' r' :
  holds p q request r -> resp_step q r q' r' -> owned_response r' -> holds p q' request r'.
Proof. intros [] [] Ho. split; [by etrans|multiset_solver|multiset_solver|done|done]. Qed.

Lemma holds_init p : holds p p http_request_init http_response_init.
Proof.
  split; [done| | |apply owned_request_init|apply owned_response_init].
  - rewrite blk_request_init, blk_response_init. multiset_solver.
  - simpl. multiset_solver.
Qed.

Lemma holds_parsed p q request : heap_only p q -> owned_request request ->
  p_live q = p_live p ⊎ blk_request request -> holds p q request http_response_init.
Proof.
  intros Hho Ho Hl. split; [by apply heap_only_advances| | |done|apply owned_response_init].
  - rewrite blk_response_init, Hl. multiset_solver.
  - rewrite (ho_fds _ _ Hho). simpl. multiset_solver.
Qed.

Section round.
  Context `{FileSystem} (config : server_config_t) (counters : nat -> server_stats_t) (w0 : world).
  Hypothesis Hcounters : forall k, counters_in_range (counters k).

(** The files and the counters are those of the start. *)
Record agrees (s : session) : Prop := {
  ag_content : f_content (w_file (ss_world s)) = f_content (w_file w0);
  ag_counters : ss_counters s = counters;
}.

Lemma agrees_internal s s' evs : agrees s -> internal s s' evs -> agrees s'.
Proof. intros [A1 A2] [W E C _]. split; [by rewrite W|congruence]. Qed.

(** Building an error response inside a round. *)
Lemma wlp_error_response s0 s request r status (Q : Z * http_response_t -> session -> Prop) :
  agrees s -> holds (sp s0) (sp s) request r ->
  (forall code r' s', internal s s' [] -> holds (sp s0) (sp s') request r' -> advances (sp s) (sp s') ->
     (code = status /\ error_reply config status r' \/ code = -1 /\ oom s s') -> Q (code, r') s') ->
  wlp (on_proc (build_static_error_response config r status)) Q s.
Proof.
  intros Hag Hh HQ. apply wlp_on_proc.
  eapply wp_mono; [apply build_static_error_wp; by eapply holds_held|].
  intros [code r'] p' (Hs & Hh' & Hr). apply HQ; [apply internal_proc|eapply holds_step; [done..|apply Hh']|apply Hs|].
  destruct Hr as [?|[-> Hf]]; [by left|by right].
Qed.

(** ** The variables at send_one *)

(** A turn that has a response to send. *)
Definition ready (t : turn) : bool := tn_ready t && (0 <=? tn_status t).

(** A turn whose response can be sent and logged. *)
Record sendable (t : turn) : Prop := {
  sa_modest : modest (tn_response t);
  sa_reason : reason_ok (tn_response t);
  sa_request : http_request_typed (tn_request t) \/ tn_request t = http_request_init;
}.

(** The reply to [msg], with [O] if memory ran out. *)
Record good_turn (msg : list byte) (O : Prop) (t : turn) : Prop := {
  gt_reply : message_reply config counters O msg (tn_status t) (tn_response t);
  gt_framed : framed_as O msg (cs_string <$> req_version (tn_request t)) (tn_omit_body t);
  gt_sendable : sendable t;
  gt_persist :
    if tn_keep_alive t && negb (tn_force_close t) then
      exists a, parse_spec msg = inr a /\ shows (tn_request t) a /\
        reply config counters a (tn_status t) (tn_response t) /\
        http_request_wants_keep_alive (tn_request t) = true /\
        status_requires_close (tn_status t) = false /\
        cs_string <$> req_version (tn_request t) = Some (rq_version a) /\
        tn_omit_body t = bool_decide (rq_method a = HTTP_METHOD_HEAD)
    else forall n, must_close O n msg (tn_status t);
}.

(** What the part of a round before the sending leaves. *)
Definition turn_post (s : session) (evs : list stats_event) (G : Prop -> turn -> Prop) (t : turn) (s' : session)
  : Prop :=
  internal s s' evs /\ holds (sp s) (sp s') (tn_request t) (tn_response t) /\
  if ready t then G (oom s s') t else oom s s'.

(** A stream that was refused. *)
Record refused_turn (code : Z) (O : Prop) (t : turn) : Prop := {
  rt_reply : error_reply config code (tn_response t);
  rt_request : tn_request t = http_request_init;
  rt_omit : tn_omit_body t = false;
  rt_status : tn_status t = code;
  rt_close : tn_force_close t = true;
}.

Lemma wlp_refuse_message code s : agrees s -> 0 <= code ->
  wlp (refuse_message config code) (turn_post s [] (refused_turn code)) s.
Proof.
  intros Hag Hc. unfold refuse_message. apply wlp_bind.
  eapply (wlp_error_response s s); [done|apply holds_init|].
  intros st r' s' Hin Hh _ Hr. apply wlp_ret. split_and!; [done|done|].
  destruct Hr as [[-> Hr]|[-> Ho]]; unfold ready; simpl.
  - destruct (Z.leb_spec 0 code); [|lia]. simpl. by split.
  - done.
Qed.

(** ** Dispatch *)

Lemma static_status_range e : 0 <= status_for_static_result e.
Proof. by destruct e. Qed.

Lemma parse_status_range e : 0 <= status_for_parse_result e.
Proof. by destruct e. Qed.

Lemma wlp_handle_static s0 s request target r : agrees s -> holds (sp s0) (sp s) request r ->
  cs_string <$> req_target request = Some target -> NUL ∉ target ->
  wlp (handle_static_get_head config request r) (fun '(status, r') s' =>
    internal s s' [] /\ holds (sp s0) (sp s') request r' /\ advances (sp s) (sp s') /\
    (0 <= status /\ static_reply config target status r' \/
     oom s s' /\ (status = -1 \/ status = 500 /\ error_reply config 500 r'))) s.
Proof.
  intros Hag Hh Ht Hn. unfold handle_static_get_head. rewrite Ht. apply wlp_bind, wlp_on_proc.
  eapply wp_mono; [apply static_files_serve_wp; [by eapply holds_held|done]|]. intros [rc r1] p1 (Hs1 & Hh1 & Hr).
  pose proof (internal_proc s p1) as Hin1. set (s1 := set_world _ s) in *.
  assert (Hh2 : holds (sp s0) (sp s1) request r1) by (eapply holds_step; [exact Hh|exact Hs1|apply Hh1]).
  unfold static_reply. destruct (bool_decide_reflect (rc = STATIC_FILE_OK)) as [->|Hne].
  { destruct Hr as [(path & size & -> & _ & Hfile)|(_ & ? & _)]; [|done].
    apply wlp_ret. split_and!; [done|done|apply Hs1|]. by left. }
  destruct Hr as [(? & ? & _ & -> & _)|(-> & _ & Hr)]; [done|].
  assert (Hag1 : agrees s1) by by eapply agrees_internal.
  apply wlp_bind, wlp_log. pose proof (internal_note s1 (NoteStaticResolve (status_for_static_result rc))) as Hin2.
  set (s2 := add_log _ s1) in *. eapply (wlp_error_response s0 s2); [by eapply agrees_internal|done|].
  intros code r2 s3 Hin3 Hh3 Ha3 Hr3. assert (Ha1 : advances (sp s) (sp s2)) by apply Hs1.
  pose proof (internal_trans _ _ _ _ _ Hin1 (internal_trans _ _ _ _ _ Hin2 Hin3)) as Hin.
  split_and!; [done|done|by etrans|].
  destruct Hr3 as [[-> Hr3]|[-> Ho]].
  2: { right. split; [|by left]. eapply (oom_part s s2 s3); [done|reflexivity|done]. }
  destruct Hr as [->|[-> Hf]]; [left; split; [apply static_status_range|done]|right].
  split; [|by right]. eapply (oom_part s s s1); [reflexivity|exact Ha3|exact Hf].
Qed.

(** What the dispatch of the request [a] leaves. *)
Definition dispatch_ok (O : Prop) (a : request) (status : Z) (r : http_response_t) (rdy force : bool) : Prop :=
  rdy = true /\ 0 <= status /\ reply config counters a status r /\ force = false \/
  rdy = true /\ status = 500 /\ O /\ error_reply config 500 r \/
  rdy && (0 <=? status) = false /\ O.

Lemma answers_status stats ct a r : answers (api_table stats ct (rq_method a) (path_of (rq_target a)) (rq_body a)) r ->
  0 <= status_code r.
Proof. intros (-> & _). unfold api_table. repeat case_match; simpl; lia. Qed.

Lemma wlp_dispatch s0 s request a : agrees s -> holds (sp s0) (sp s) request http_response_init ->
  shows request a -> NUL ∉ rq_target a ->
  wlp (dispatch config request) (fun '(status, r, rdy, force) s' =>
    internal s s' [] /\ holds (sp s0) (sp s') request r /\ advances (sp s) (sp s') /\
    dispatch_ok (oom s s') a status r rdy force) s.
Proof.
  intros Hag Hh Hsh Hn. unfold dispatch, dispatch_ok, reply.
  assert (Ht : cs_string <$> req_target request = Some (rq_target a)).
  { pose proof (sh_target _ _ Hsh) as Ht. apply fmap_Some in Ht as (c & -> & Hc). simpl.
    unfold cs_string. by rewrite <- Hc, c_string_id. }
  unfold router_is_api_request. rewrite Ht. destruct (path_has_api_prefix (Some (rq_target a))).
  - apply wlp_bind. unfold wlp at 1, read_counters.
    match goal with |- wlp _ _ ?x => set (s1 := x) end.
    assert (Hin1 : internal s s1 []).
    { apply internal_still; [done|simpl; by rewrite app_nil_r|done|by apply logs_nothing]. }
    assert (Hag1 : agrees s1) by by eapply agrees_internal.
    set (k := ss_reads s). rewrite (ag_counters _ Hag). apply wlp_bind, wlp_on_proc.
    eapply wp_mono; [apply router_dispatch_wp; [by eapply holds_held|done|done|apply Hcounters]|].
    intros [rc r1] p1 (Hs1 & Hh1 & Hr). pose proof (internal_proc s1 p1) as Hin2.
    set (s2 := set_world _ s1) in *. assert (Hh2 : holds (sp s0) (sp s2) request r1).
    { eapply holds_step; [exact Hh|done|apply Hh1]. }
    pose proof (internal_trans _ _ _ _ _ Hin1 Hin2) as Hin. simpl in Hin.
    destruct rc; simpl bool_decide; cbn [negb].
    + apply wlp_ret. split_and!; [done|done|apply Hs1|]. left. unfold http_request_get_header in Hr.
      rewrite find_header_value, (sh_headers _ _ Hsh) in Hr.
      split_and!; [done|by eapply answers_status|done|by exists k|done].
    + apply wlp_bind. eapply (wlp_error_response s0 s2); [|done|].
      { by eapply agrees_internal. }
      intros code r2 s3 Hin3 Hh3 Ha3 Hr3. apply wlp_ret.
      pose proof (internal_trans _ _ _ _ _ Hin Hin3) as Hin'. simpl in Hin'.
      assert (Ho : oom s s3) by (eapply (oom_part s s1 s2); [reflexivity|exact Ha3|exact Hr]).
      split_and!; [done|done|etrans; [apply Hs1|exact Ha3]|]. destruct Hr3 as [[-> Hr3]|[-> _]]; [right; left; done|by right; right].
  - assert (Hm : bool_decide (req_method request = HTTP_METHOD_GET) ||
                 bool_decide (req_method request = HTTP_METHOD_HEAD) = is_get_or_head (rq_method a)).
    { rewrite (sh_method _ _ Hsh). by destruct (rq_method a). }
    rewrite Hm. destruct (is_get_or_head (rq_method a)).
    + apply wlp_bind. eapply wlp_mono; [by apply (wlp_handle_static s0)|].
      intros [st r1] s1 (Hin1 & Hh1 & Ha1 & Hr). apply wlp_ret. split_and!; [done|done|done|].
      destruct Hr as [[Hst Hr]|[Hf Hr]].
      * left. destruct (Z.leb_spec 0 st); [|lia]. done.
      * right. destruct Hr as [->|[-> Hr]]; [by right|by left].
    + apply wlp_bind. eapply (wlp_error_response s0 s); [done|done|].
      intros code r2 s3 Hin3 Hh3 Ha3 Hr3. apply wlp_ret. split_and!; [done|done|done|].
      destruct Hr3 as [[-> Hr3]|[-> Ho]]; [by left|by right; right].
Qed.

(** ** A framed message *)

Lemma parsed_no_nul data a : parse_spec data = inr a -> (NUL ∉ rq_target a) /\ (NUL ∉ rq_version a).
Proof.
  unfold parse_spec. destruct (http_find_header_terminator data) as [term|]; [|done].
  destruct (HTTP_MAX_HEADER_BYTES <? _); [done|]. destruct (framing_spec _ _); [done|].
  destruct (negb _); [done|]. destruct (next_line _) as [[line cursor]|]; [|done].
  destruct (request_line_spec line) as [|[[m t] v]] eqn:El; [done|].
  destruct (header_lines_spec _ _ _); [done|]. intros [= <-]. simpl. clear -El.
  unfold request_line_spec in El. destruct (_ || _); [done|].
  destruct (memchr SP line) as [[|k]|]; [done| |done]. destruct (_ || _); [done|].
  destruct (memchr SP (drop (S (S k)) line)) as [[|j]|]; [done| |done].
  destruct (_ || _) eqn:E; [done|]. bool_simp. destruct (negb _); [done|].
  destruct (check_version _); simplify_eq.
  repeat match goal with Hb : bool_decide (is_Some (memchr NUL _)) = false |- _ =>
    apply bool_decide_eq_false in Hb; rewrite <- eq_None_not_Some in Hb; apply memchr_None in Hb end.
  done.
Qed.

Lemma dispatch_modest O data a status r rdy force : parse_spec data = inr a ->
  dispatch_ok O a status r rdy force -> rdy && (0 <=? status) = true -> modest r /\ reason_ok r.
Proof.
  intros Hp [(_ & _ & Hr & _)|[(_ & _ & _ & Hr)|[Hz _]]] Hrdy; [| |congruence].
  - unfold reply in Hr. destruct (path_has_api_prefix _).
    { destruct Hr as (_ & k & Hr). by eapply answers_modest. }
    destruct (is_get_or_head _); [|by destruct Hr as [_ Hr]; apply error_reply_modest in Hr as (_ & ?)].
    unfold static_reply in Hr. destruct (serve_ref _ _) as [e|[path size]].
    + destruct Hr as [_ Hr]. by apply error_reply_modest in Hr as (_ & ?).
    + by eapply file_response_modest, Hr.
  - by apply error_reply_modest in Hr as (_ & ?).
Qed.

(** A message that parsed. *)
Lemma good_turn_parsed (O : Prop) data a request r status rdy force : parse_spec data = inr a -> shows request a ->
  owned_request request ->
  dispatch_ok O a status r rdy force -> rdy && (0 <=? status) = true ->
  let close := (0 <=? status) && status_requires_close status in
  good_turn data O (Turn request r (bool_decide (req_method request = HTTP_METHOD_HEAD)) status rdy
    (if close then false else http_request_wants_keep_alive request) (if close then true else force)).
Proof.
  intros Hp Hsh Hown Hd Hrdy close. destruct (dispatch_modest _ _ _ _ _ _ _ Hp Hd Hrdy) as [Hm Hr].
  apply andb_true_iff in Hrdy as [-> Hst].
  assert (Hver : cs_string <$> req_version request = Some (rq_version a)).
  { pose proof (sh_version _ _ Hsh) as Hv. apply fmap_Some in Hv as (c & -> & Hc). simpl.
    unfold cs_string. destruct (parsed_no_nul _ _ Hp). by rewrite <- Hc, c_string_id. }
  split; cbn [tn_request tn_response tn_omit_body tn_status tn_ready tn_keep_alive tn_force_close]; auto.
  - unfold message_reply. rewrite Hp. destruct Hd as [(_ & _ & Hr' & _)|[(_ & -> & Ho & Hr')|[? _]]];
      [by left|by right|simpl in *; congruence].
  - left. rewrite Hp, Hver. by rewrite (sh_method _ _ Hsh).
  - split; [done|done|]. left. by eapply shows_typed, parse_spec_message.
  - unfold close. rewrite Hst. destruct (status_requires_close status) eqn:Ec.
    { simpl. intros n. right. right. by left. }
    destruct Hd as [(_ & _ & Hr' & ->)|[(_ & -> & _ & _)|[? _]]]; [|done|simpl in *; congruence].
    simpl. rewrite andb_true_r. destruct (http_request_wants_keep_alive request) eqn:Ew.
    + exists a. rewrite (sh_method _ _ Hsh). by split_and!.
    + intros n. right. left. by exists a, request.
Qed.

(** A message that did not parse. *)
Lemma good_turn_unparsed (O : Prop) msg res r :
  parse_spec msg = inl res \/ res = HTTP_PARSE_OUT_OF_MEMORY /\ O ->
  error_reply config (status_for_parse_result res) r ->
  good_turn msg O (Turn http_request_init r false (status_for_parse_result res) true false true).
Proof.
  intros Hcase Hr. destruct (error_reply_modest _ _ _ Hr) as (_ & Hm & Hre). split; simpl; auto.
  - destruct Hcase as [Hp|[-> Hoom]]; [left; by rewrite Hp|by right].
  - destruct Hcase as [Hp|[-> Hoom]]; [left; by rewrite Hp|by right].
  - split; [done|done|by right].
  - intros n. destruct Hcase as [Hp|[-> Hoom]]; [left; eauto|by do 4 right].
Qed.

Lemma wlp_parse_failed s0 s msg res : agrees s -> internal s0 s [EvRequest] ->
  holds (sp s0) (sp s) http_request_init http_response_init ->
  parse_spec msg = inl res \/ res = HTTP_PARSE_OUT_OF_MEMORY /\ oom s0 s ->
  wlp (log (Noted (NoteParseError (status_for_parse_result res)));;
       '(built, response) ← on_proc (build_static_error_response config http_response_init
         (status_for_parse_result res));
       if 0 <=? built
       then mret (Turn http_request_init response false (status_for_parse_result res) true false true)
       else mret (Turn http_request_init response false (-1) false false true))
    (turn_post s0 [EvRequest] (good_turn msg)) s.
Proof.
  intros Hag Hin0 Hh Hcase. apply wlp_bind, wlp_log.
  pose proof (internal_note s (NoteParseError (status_for_parse_result res))) as Hn.
  pose proof (internal_trans _ _ _ _ _ Hin0 Hn) as Hin. simpl in Hin. set (s1 := add_log _ s) in *.
  apply wlp_bind. eapply (wlp_error_response s0 s1); [by eapply agrees_internal|done|].
  intros built r s3 Hin3 Hh3 Ha3 Hr. pose proof (internal_trans _ _ _ _ _ Hin Hin3) as Hin4. simpl in Hin4.
  pose proof (parse_status_range res) as Hrange. destruct Hr as [[-> Hr]|[-> Hoom]].
  - destruct (Z.leb_spec 0 (status_for_parse_result res)) as [Hz|]; [|lia].
    apply wlp_ret. split_and!; [done|done|]. unfold ready. cbn [tn_ready tn_status].
    apply Z.leb_le in Hz. rewrite Hz. apply good_turn_unparsed; [|done].
    destruct Hcase as [?|[-> Ho]]; [by left|right]. split; [done|].
    eapply (oom_part s0 s0 s); [reflexivity|exact Ha3|exact Ho].
  - apply wlp_ret. split_and!; [done|done|]. unfold ready. cbn [tn_ready tn_status andb].
    eapply (oom_part s0 s1 s3); [apply Hh|reflexivity|exact Hoom].
Qed.

Lemma wlp_answer_message msg s : agrees s ->
  wlp (answer_message config msg) (turn_post s [EvRequest] (good_turn msg)) s.
Proof.
  intros Hag. unfold answer_message. apply wlp_bind. unfold wlp at 1, report.
  match goal with |- wlp _ _ ?x => set (s1 := x) end.
  assert (Hin1 : internal s s1 [EvRequest]).
  { apply internal_still; [done|done|done|by apply logs_nothing]. }
  assert (Hag1 : agrees s1) by by eapply agrees_internal.
  apply wlp_bind, wlp_on_proc. eapply wp_mono; [apply wp_http_parse_request|].
  intros [res request] p2 (Hho & Ho & Hl & HP). cbn [fst snd] in *.
  pose proof (internal_proc s1 p2) as Hin2. set (s2 := set_world _ s1) in *.
  pose proof (internal_trans _ _ _ _ _ Hin1 Hin2) as Hin. simpl in Hin.
  assert (Hag2 : agrees s2) by by eapply agrees_internal.
  assert (Hh2 : holds (sp s) (sp s2) request http_response_init) by by apply holds_parsed.
  destruct (bool_decide_reflect (res = HTTP_PARSE_OK)) as [->|Hne]; cbn [negb].
  - destruct HP as [[[=] _]|HP]. destruct (parse_spec msg) as [e|a] eqn:Ep.
    { by destruct HP as [[= <- _] [? _]]. }
    destruct HP as [_ Hsh]. destruct (parsed_no_nul _ _ Ep) as [Hn _].
    apply wlp_bind. eapply wlp_mono; [by eapply (wlp_dispatch s)|].
    intros [[[status r] rdy] force] s3 (Hin3 & Hh3 & Ha3 & Hd).
    assert (Hd' : dispatch_ok (oom s s3) a status r rdy force).
    { assert (HO : oom s2 s3 -> oom s s3) by (apply oom_part; [by apply heap_only_advances|reflexivity]).
      destruct Hd as [?|[(? & ? & ? & ?)|[? ?]]]; [by left|right; left|right; right]; auto. }
    clear Hd. rename Hd' into Hd.
    pose proof (internal_trans _ _ _ _ _ Hin Hin3) as Hin4. simpl in Hin4.
    pose proof (good_turn_parsed (oom s s3) msg a request r status rdy force Ep Hsh Ho Hd) as Hgood.
    assert (Hoom : rdy && (0 <=? status) = false -> oom s s3).
    { intros Hf. destruct Hd as [(-> & Hst & _)|[(-> & -> & ?)|[_ ?]]]; [|done|done].
      simpl in Hf. apply Z.leb_gt in Hf. lia. }
    destruct ((0 <=? status) && status_requires_close status); apply wlp_ret; (split_and!; [done|done|]);
      unfold ready; cbn [tn_ready tn_status]; destruct (rdy && (0 <=? status)); auto.
  - destruct HP as [[[= -> ->] Hf]|HP].
    + apply wlp_parse_failed; [done..|]. right. by split.
    + destruct (parse_spec msg) as [e|a] eqn:Ep; [|by destruct HP]. destruct HP as [[= -> ->] _].
      apply wlp_parse_failed; auto.
Qed.
End round.
