(* ===== verification/HandlerSend.v ===== *)
(** * Correctness of the connection handler: the tail of a round

    What [send_one] puts on the socket, and that it gives back what the round
    holds. *)
From S2P Require Import Prelude CLib Proc Request Parser ParserSpec World Reader Evidence.
From S2P Require Import Response ResponseCorrect ResponseWire Connection Stats Config.
From S2P Require Import StaticFiles RequestType Logger LogLines ClientHandler HandlerSpec HandlerSize Conversation HandlerCorrect.

Lemma others_idem name hs : others name (others name hs) = others name hs.
Proof.
  induction hs as [|h hs IH]; [done|]. unfold others in *. destruct (decide (matches name h = false)).
  - rewrite !filter_cons_True by done. by rewrite IH.
  - by rewrite !filter_cons_False by done.
Qed.

Lemma others_extra extra : connection_extra (map pair_of extra) -> others (lit "Connection") extra = [].
Proof.
  intros Hx. assert (HF : Forall (fun h => cs_bytes (hdr_name h) = lit "Connection") extra).
  { destruct extra as [|h [|h' extra]]; [done|..]; destruct Hx as [Hx|[Hx|Hx]]; try done;
      unfold pair_of in Hx; simpl in Hx; injection Hx as Hn _; by repeat constructor. }
  clear Hx. induction HF as [|h extra Hn _ IH]; [done|]. unfold others in *. rewrite filter_cons_False; [done|].
  unfold matches, cs_string. by rewrite Hn.
Qed.

Section send.
  Context `{FileSystem} (config : server_config_t) (counters : nat -> server_stats_t) (w0 : world).
  Context (client_fd : nat) (worker_id rq : Z).
  Abbreviation agrees := (agrees counters w0).

(** What happened between two states of a session. *)
Definition happened (s s' : session) : reasons := reasons_between rq (ss_world s) (ss_world s').

Lemma delivered_again (O : Prop) b v r r1 r2 : delivered O b v r r1 ->
  (exists c, headers_only (set_suppress c r1) r2) ->
  (exists extra, rsp_headers r2 ≡ₚ others (lit "Connection") (rsp_headers r1) ++ extra /\
     connection_extra (map pair_of extra)) -> O -> delivered O false v r r2.
Proof.
  intros [(b1 & arr1 & hs1 & ->) (x1 & Hx1 & Hc1) _] (c & arr2 & hs2 & ->) (x2 & Hx2 & Hc2) Ho.
  split; [exists c; by exists arr2, hs2| |by right]. exists x2. split; [|done]. simpl in *.
  rewrite Hx2, Hx1, others_app, others_idem, (others_extra x1) by done. by rewrite app_nil_r.
Qed.

Lemma wlp_announce p0 s request r persist force version : agrees s -> holds p0 (sp s) request r ->
  wlp (announce r persist force version) (fun '(fc, r') s' =>
    internal s s' [] /\ holds p0 (sp s') request r' /\ advances (sp s) (sp s') /\ exists persist',
    delivered (oom s s') persist' version r r' /\
    (persist' = persist /\ fc = force \/ persist' = false /\ fc = true /\ oom s s')) s.
Proof.
  intros Hag Hh. unfold announce. apply wlp_bind, wlp_on_proc.
  eapply wp_mono; [apply policy_wp; by eapply holds_held|]. intros [ok r1] p1 (Hs1 & Hh1 & Hk1 & Hx1 & Hr1).
  pose proof (internal_proc s p1) as Hin1. set (s1 := set_world _ s) in *.
  assert (Hh2 : holds p0 (sp s1) request r1) by (eapply holds_step; [done|exact Hs1|apply Hh1]).
  destruct ok; cbn [negb].
  - apply wlp_ret. split_and!; [done|done|apply Hs1|]. exists persist. split; [|by left]. split; auto.
  - apply wlp_bind, wlp_on_proc. eapply wp_mono; [apply policy_wp; by eapply holds_held|].
    intros [ok2 r2] p2 (Hs2 & Hh3 & Hk2 & Hx2 & _). apply wlp_ret.
    match goal with |- context [oom s ?u] => assert (Ho : oom s u) end.
    { eapply (oom_part s s s1); [reflexivity|apply Hs2|exact Hr1]. }
    pose proof (internal_trans _ _ _ _ _ Hin1 (internal_proc s1 p2)) as Hin. simpl in Hin.
    split_and!; [done|eapply holds_step; [done|exact Hs2|apply Hh3]|etrans; [apply Hs1|apply Hs2]|].
    exists false. split; [|by right]. eapply (delivered_again _ persist); [|done|done|done]. split; auto.
Qed.

Lemma wire_ext r omit w w' : f_content (w_file w) = f_content (w_file w') ->
  wire r omit w = wire r omit w' /\ body_bytes r w = body_bytes r w'.
Proof. intros Hc. unfold wire, body_bytes. by rewrite Hc. Qed.

Lemma delivered_sendable O b v r r' : delivered O b v r r' -> modest r -> reason_ok r ->
  reason_ok r' /\ fits_memory r'.
Proof.
  intros [(c & arr & hs & ->) (x & Hx & Hc) _] Hm Hr. split; [done|]. by eapply modest_fits.
Qed.

(** What is logged as answered. *)
Definition turn_answers (t : turn) : list Z := if ready t then [tn_status t] else [].

(** What [transmit] leaves, for a turn that is ready. *)
Definition sent_as (R : reasons) (t : turn) (ka fc fc' : bool) (r' : http_response_t) (d : list byte)
    (evs : list stats_event) : Prop :=
  exists persist,
    delivered (no_memory R) persist (cs_string <$> req_version (tn_request t)) (tn_response t) r' /\
    transmitted w0 R r' (tn_omit_body t) (tn_status t) d evs /\
    (persist = false /\ fc' = true /\ no_memory R \/
     persist = ka && negb fc /\
     (evs = [EvResponse (tn_status t)] /\ fc' = fc \/ evs = [] /\ fc' = true)).

Definition transmit_post (p0 : proc) (s : session) (t : turn) (ka fc : bool)
    (res : bool * http_response_t) (s' : session) : Prop :=
  let '(fc', r') := res in
  holds p0 (sp s') (tn_request t) r' /\ later (ss_world s) (ss_world s') /\ ss_counters s' = ss_counters s /\
  logs s s' (turn_answers t) /\
  exists d evs, sends_io (ss_world s) (ss_world s') d /\ ss_events s' = ss_events s ++ evs /\
  if ready t then sent_as (happened s s') t ka fc fc' r' d evs else fc' = true /\ d = [] /\ evs = [].

Lemma wlp_transmit p0 s t ka fc : agrees s -> holds p0 (sp s) (tn_request t) (tn_response t) ->
  (ready t = true -> sendable t) ->
  wlp (transmit client_fd worker_id t ka fc) (transmit_post p0 s t ka fc) s.
Proof.
  intros Hag Hh Hrdy. unfold transmit, transmit_post, turn_answers. fold (ready t). destruct (ready t).
  2: { apply wlp_ret. split_and!; [done|done|done|by apply logs_nothing|]. exists [], [].
       split_and!; [by split; rewrite ?app_nil_r|by rewrite app_nil_r|done..]. }
  destruct (Hrdy eq_refl) as [Hm Hr Hty]. apply wlp_bind. eapply wlp_mono; [by eapply wlp_announce|].
  intros [fc1 r1] s1 (Hin1 & Hh1 & Ha1 & persist & Hdel & Hp).
  destruct (delivered_sendable _ _ _ _ _ Hdel Hm Hr) as [Hr1 Hf1].
  apply wlp_bind, wlp_log. pose proof (logs_one s1 (Answered (tn_request t) r1 (tn_status t)) Hty) as Hlog1.
  apply (logs_trans _ _ _ _ _ (in_log _ _ _ Hin1)) in Hlog1. set (s2 := add_log _ s1) in *.
  apply wlp_bind, wlp_on_world.
  eapply wlp_mono; [apply wlp_response_send; [apply Hh1|done|done]|].
  intros sent w2 (Hho & Hl & d & Hio & Hpre & Hok & Hno). change (ss_world s2) with (ss_world s1) in *.
  assert (Hag1 : agrees s1) by by eapply agrees_internal.
  destruct (wire_ext r1 (tn_omit_body t) (ss_world s1) w0) as [Hw Hb]; [apply Hag1|].
  rewrite Hw in Hpre, Hok. rewrite Hb in Hok, Hno.
  pose proof (in_world _ _ _ Hin1) as Hw1. assert (Hlater1 : later (ss_world s) (ss_world s1)).
  { rewrite Hw1. by apply later_proc. }
  assert (Hlater2 : later (ss_world s1) w2) by (split; [apply Hio|by apply heap_only_advances]).
  assert (Hlater : later (ss_world s) w2) by by etrans.
  assert (Hio2 : sends_io (ss_world s) w2 d).
  { destruct Hio. rewrite Hw1 in *. split; try done. apply Hlater. }
  assert (Hh2 : holds p0 (w_proc w2) (tn_request t) r1).
  { destruct Hh1. unfold sp in *. split; [etrans; [done|by apply heap_only_advances]|by rewrite Hl| |done|done].
    by rewrite (ho_fds _ _ Hho). }
  pose proof (in_events _ _ _ Hin1) as He1. rewrite app_nil_r in He1.
  pose proof (in_counters _ _ _ Hin1) as Hc1.
  assert (Ho : oom s s1 -> alloc_failed (w_proc (ss_world s)) (w_proc w2)).
  { apply advances_failed_l. apply Hlater2. }
  apply (delivered_mono _ _ _ _ _ _ Ho) in Hdel.
  destruct sent; cbn [negb].
  - destruct (Hok eq_refl) as [-> Hbody]. apply wlp_bind. unfold wlp at 1, report. apply wlp_ret.
    split_and!; [done|done|done|exact Hlog1|]. exists (wire r1 (tn_omit_body t) w0), [EvResponse (tn_status t)].
    split_and!; [done|simpl; by rewrite He1|]. exists persist. split_and!; [done|by left|].
    destruct Hp as [[-> ->]|(-> & -> & Hom)]; [right; split; [done|by left]|left; split_and!; [done|done|exact (Ho Hom)]].
  - apply wlp_bind. unfold wlp at 1, peer_gone. apply wlp_bind, wlp_note_if. intros s4 [_ He4 Hc4 Hl4] Hw4.
    apply wlp_ret. unfold sp, happened. rewrite Hw4, Hc4. rewrite app_nil_r in He4. rewrite He4.
    split_and!; [done|done|done|exact (logs_trans _ _ _ _ _ Hlog1 Hl4)|]. exists d, [].
    split_and!; [done|simpl; by rewrite He1, app_nil_r|]. exists persist. split_and!; [done| |].
    + right. split_and!; [done|done|]. pose proof (reasons_part rq _ _ _ _ Hlater1 (reflexivity w2)) as HR.
      destruct (Hno eq_refl) as [?|[?|?]]; [left; by apply (wr_sending _ _ HR)|right; left; by apply (wr_memory _ _ HR)|by right; right].
    + destruct Hp as [[-> _]|(-> & _ & Hom)]; [right; split; [done|by right]|left; split_and!; [done|done|exact (Ho Hom)]].
Qed.

(** What [send_one] leaves.  A turn that is not ready, or that asked for it, ends the
    connection. *)
Definition send_post_turn (p0 : proc) (s : session) (t : turn) (n : Z) (raw : option cstr) (stop : bool)
    (s' : session) : Prop :=
  let want := tn_keep_alive t && negb (tn_force_close t) && (n <? HTTP_MAX_REQUESTS_PER_CONNECTION) in
  later (ss_world s) (ss_world s') /\ p_live p0 = p_live (sp s') ⊎ blk_str raw /\ p_fds (sp s') = p_fds p0 /\
  ss_counters s' = ss_counters s /\ logs s s' (turn_answers t) /\
  exists d evs, sends_io (ss_world s) (ss_world s') d /\ ss_events s' = ss_events s ++ evs /\
  if ready t then exists persist r',
    delivered (oom s s') persist (cs_string <$> req_version (tn_request t)) (tn_response t) r' /\
    transmitted w0 (happened s s') r' (tn_omit_body t) (tn_status t) d evs /\
    (persist = want \/ persist = false /\ oom s s') /\
    (if stop then persist = true -> evs = []
     else persist = true /\ want = true /\ evs = [EvResponse (tn_status t)])
  else stop = true /\ d = [] /\ evs = [].

Lemma sends_io_set_proc w w' d p : sends_io w w' d -> sends_io w (set_proc p w') d.
Proof. intros []. split; try done. etrans; [done|apply io_later_proc]. Qed.

Lemma wlp_send_one p0 s t n raw : agrees s -> holds p0 (sp s) (tn_request t) (tn_response t) ->
  owned_str raw -> blk_str raw ⊆ p_live p0 -> (ready t = true -> sendable t) ->
  wlp (send_one client_fd worker_id t n raw) (send_post_turn p0 s t n raw) s.
Proof.
  intros Hag Hh Hraw Hin Hrdy. unfold send_one. cbv zeta. apply wlp_bind, wlp_note_if.
  set (limit := HTTP_MAX_REQUESTS_PER_CONNECTION <=? n). intros s0 Hi0 Hw0.
  assert (Hsp0 : sp s0 = sp s) by (unfold sp; by rewrite Hw0).
  assert (Hag0 : agrees s0) by by eapply agrees_internal.
  apply wlp_bind. eapply wlp_mono; [apply wlp_transmit; [done|by rewrite Hsp0|done]|].
  intros [fc' r1] s1 (Hh1 & Ha1 & Hc1 & Hlog1 & d & evs & Hio & Hev & Hsent).
  unfold happened in Hsent. rewrite Hw0 in Hio, Ha1, Hsent.
  destruct Hi0 as [_ He0 Hc0 Hlog0]. rewrite app_nil_r in He0. rewrite He0 in Hev. rewrite Hc0 in Hc1.
  apply (logs_trans _ _ _ _ _ Hlog0) in Hlog1. clear Hlog0.
  apply wlp_bind, wlp_on_proc. eapply wp_mono; [apply response_destroy_wp; by eapply holds_held|].
  intros r2 p2 [-> [Ha2 Hl2 Hf2]]. apply wlp_bind, wlp_on_proc.
  destruct Hh1 as [_ Hl1 Hf1 Ho1 _]. rewrite blk_response_init in Hl2. simpl in Hf2.
  eapply wp_mono; [apply wp_request_destroy; [done|unfold sp in *; simpl; multiset_solver]|].
  intros r3 p3 (_ & Hho3 & Hl3). simpl in Hho3, Hl3. apply wlp_bind, wlp_on_proc.
  eapply wp_mono; [apply wp_free_str; [done|unfold sp in *; simpl; multiset_solver]|].
  intros _ p4 [Hho4 Hl4]. simpl in Hho4, Hl4. apply wlp_bind, wlp_note_if. intros s5 [_ He5 Hc5 Hlog5] Hw5.
  apply wlp_ret. rewrite app_nil_r in He5. unfold send_post_turn, oom, happened, sp in *. rewrite Hw5, He5, Hc5. simpl.
  assert (Ha4 : later (ss_world s1) (set_proc p4 (ss_world s1))).
  { apply later_proc. etrans; [exact Ha2|]. etrans; by apply heap_only_advances. }
  split_and!.
  - etrans; [exact Ha1|exact Ha4].
  - multiset_solver.
  - rewrite (ho_fds _ _ Hho4), (ho_fds _ _ Hho3). multiset_solver.
  - done.
  - rewrite <- (app_nil_r (turn_answers t)). exact (logs_trans _ _ _ _ _ Hlog1 Hlog5).
  - exists d, evs. split_and!; [by do 3 apply sends_io_set_proc|done|].
    assert (Hlim : (n <? HTTP_MAX_REQUESTS_PER_CONNECTION) = negb limit).
    { unfold limit. by rewrite Z.ltb_antisym. }
    rewrite Hlim. clearbody limit. destruct (ready t).
    2: { destruct Hsent as (-> & -> & ->). done. }
    pose proof (reasons_part rq _ _ _ _ (reflexivity (ss_world s)) Ha4) as HR.
    pose proof (wr_memory _ _ HR) as HO. simpl in HO.
    destruct Hsent as (persist & Hdel & Htr & Hv). exists persist, r1.
    split_and!; [by eapply delivered_mono|by eapply transmitted_mono| |].
    + destruct Hv as [(-> & _ & Ho)|[-> _]]; [right; auto|left].
      by destruct (tn_keep_alive t), (tn_force_close t), limit.
    + destruct Hv as [(-> & -> & Ho)|[-> [[-> ->]|[-> ->]]]]; simpl; [done| |done].
      by destruct (tn_keep_alive t), (tn_force_close t), limit.
Qed.
End send.
