(* ===== verification/HandlerLoop.v ===== *)
(** * Correctness of the connection handler: the loop

    Every run of the loop is a conversation, and the whole handler gives back
    every block and closes its socket exactly once. *)
From S2P Require Import Prelude CLib Proc Request Parser ParserSpec World Reader Evidence ReaderCorrect ReaderLive.
From S2P Require Import Response ResponseCorrect ResponseWire Connection Stats Config.
From S2P Require Import StaticFiles StaticServe Router RouterCorrect.
From S2P Require Import Logger LogLines ClientHandler HandlerSpec HandlerSize Conversation HandlerCorrect HandlerSend.

(** The statuses of the responses that were counted. *)
Definition responded (evs : list stats_event) : list Z :=
  omap (fun e => match e with EvResponse status => Some status | _ => None end) evs.

(** The answers logged are the responses counted, but that the last one may not
    have been sent. *)
Definition accounted (sts : list Z) (evs : list stats_event) : Prop :=
  sts = responded evs \/ exists status, sts = responded evs ++ [status].

Lemma accounted_app evs sts evs' : accounted sts evs' -> accounted (responded evs ++ sts) (evs ++ evs').
Proof.
  unfold accounted, responded. rewrite omap_app. intros [->|[st ->]]; [by left|right].
  exists st. by rewrite app_assoc.
Qed.

Section loop.
  Context `{FileSystem} (config : server_config_t) (counters : nat -> server_stats_t) (w0 : world).
  Context (client_fd : nat) (worker_id : Z).
  Hypothesis Hcounters : forall k, counters_in_range (counters k).
  Abbreviation agrees := (agrees counters w0).
  Abbreviation talk := (talk config counters w0).

(** The request timeout that the reader uses, and what happened. *)
Definition request_seconds : Z := Z.max (request_timeout_sec config) 1.
Abbreviation happened := (happened request_seconds).

Lemma happened_part s s1 s2 s' : later (ss_world s) (ss_world s1) -> later (ss_world s2) (ss_world s') ->
  within_reason (happened s1 s2) (happened s s').
Proof. apply reasons_part. Qed.

(** After a round: [raw] was freed, [d] sent and [evs] reported. *)
Record round_done (s s' : session) (raw : option cstr) (d : list byte) (evs : list stats_event) : Prop := {
  rd_later : later (ss_world s) (ss_world s');
  rd_live : p_live (sp s) = p_live (sp s') ⊎ blk_str raw;
  rd_fds : p_fds (sp s') = p_fds (sp s);
  rd_counters : ss_counters s' = ss_counters s;
  rd_io : sends_io (ss_world s) (ss_world s') d;
  rd_events : ss_events s' = ss_events s ++ evs;
}.

Lemma agrees_round s s' raw d evs : agrees s -> round_done s s' raw d evs -> agrees s'.
Proof.
  intros [A1 A2] [_ _ _ Hc Hio _]. split; [by rewrite (si_content _ _ _ Hio)|congruence].
Qed.

(** The verdict on a turn, at the [n]-th request, when [R] happened. *)
Definition verdict (G : Prop -> turn -> Prop) (R : reasons) (t : turn) (n : Z) (stop : bool) (d : list byte)
    (evs : list stats_event) : Prop :=
  let want := tn_keep_alive t && negb (tn_force_close t) && (n <? HTTP_MAX_REQUESTS_PER_CONNECTION) in
  if ready t then G (no_memory R) t /\ exists persist r',
    delivered (no_memory R) persist (cs_string <$> req_version (tn_request t)) (tn_response t) r' /\
    transmitted w0 R r' (tn_omit_body t) (tn_status t) d evs /\
    (persist = want \/ persist = false /\ no_memory R) /\
    (if stop then persist = true -> evs = []
     else persist = true /\ want = true /\ evs = [EvResponse (tn_status t)])
  else no_memory R /\ stop = true /\ d = [] /\ evs = [].

(** The common end of the branches that send. *)
Lemma wlp_finish {A} (make : M session turn) G evs0 raw n (k : bool -> M session A) Q s :
  agrees s -> owned_str raw -> blk_str raw ⊆ p_live (sp s) ->
  wlp make (turn_post s evs0 G) s ->
  (forall O t, G O t -> sendable t) -> (forall (O O' : Prop) t, (O -> O') -> G O t -> G O' t) ->
  (forall t stop s' d evs, round_done s s' raw d (evs0 ++ evs) -> logs s s' (turn_answers t) ->
     verdict G (happened s s') t n stop d evs -> wlp (k stop) Q s') ->
  wlp (t ← make; stop ← send_one client_fd worker_id t n raw; k stop) Q s.
Proof.
  intros Hag Ho Hin Hmake HG Hmono Hk. apply wlp_bind. eapply wlp_mono; [done|].
  intros t s1 (Hi1 & Hh1 & Hr1). assert (Hag1 : agrees s1) by by eapply agrees_internal.
  apply wlp_bind. eapply wlp_mono;
    [eapply (wlp_send_one counters w0 client_fd worker_id request_seconds (sp s)); [done|done|done|done|]|].
  { intros Hr. rewrite Hr in Hr1. eauto. }
  intros stop s2 (Hl2' & Hl2 & Hf2 & Hc2 & Hlog & d & evs & Hio2 & Hev2 & Hv).
  pose proof (in_world _ _ _ Hi1) as Hw1. assert (Hlater1 : later (ss_world s) (ss_world s1)).
  { rewrite Hw1. apply later_proc, Hh1. }
  eapply (Hk t stop _ d evs).
  - split; [by etrans|done|done|rewrite Hc2; apply Hi1| |].
    + assert (Hio1 : sends_io (ss_world s) (ss_world s1) []) by (rewrite Hw1; apply sends_io_proc).
      exact (sends_io_trans _ _ _ [] d Hio1 Hio2).
    + by rewrite Hev2, (in_events _ _ _ Hi1), app_assoc.
  - exact (logs_trans _ _ _ _ _ (in_log _ _ _ Hi1) Hlog).
  - pose proof (happened_part s s1 s2 s2 Hlater1 (reflexivity _)) as HR.
    assert (HO1 : oom s s1 -> no_memory (happened s s2)) by (apply advances_failed_l; apply Hl2').
    pose proof (wr_memory _ _ HR) as HO2. unfold verdict. destruct (ready t); [|split; [auto|exact Hv]].
    split; [exact (Hmono _ _ t HO1 Hr1)|]. destruct Hv as (persist & r' & Hdel & Htr & Hp & Hst). exists persist, r'.
    split_and!; [by eapply delivered_mono|by eapply transmitted_mono| |done]. destruct Hp as [?|[? ?]]; auto.
Qed.

(** The log of a round agrees with what it reported. *)
Lemma verdict_accounted G R t n stop d evs : verdict G R t n stop d evs ->
  accounted (turn_answers t) evs /\ (stop = false -> turn_answers t = responded evs).
Proof.
  unfold verdict, turn_answers, accounted. destruct (ready t).
  - intros (_ & persist & r' & _ & Htr & _ & Hst). split.
    + apply transmitted_events in Htr as [->| ->]; [by left|right]. by eexists.
    + intros ->. by destruct Hst as (_ & _ & ->).
  - intros (_ & -> & _ & ->). split; [by left|done].
Qed.

(** What the loop promises from the state [s], with [n] requests served. *)
Definition loop_post (reader : http_reader_t) (n : Z) (s : session) (reader' : http_reader_t)
    (s' : session) : Prop :=
  later (ss_world s) (ss_world s') /\
  p_live (sp s') ⊎ blk (rd_data reader) = p_live (sp s) ⊎ blk (rd_data reader') /\
  p_fds (sp s') = p_fds (sp s) /\
  exists received sent evs,
    w_received (ss_world s') = w_received (ss_world s) ++ received /\
    w_sent (ss_world s') = w_sent (ss_world s) ++ sent /\
    ss_events s' = ss_events s ++ evs /\
    talk (happened s s') n (rd_bytes reader ++ received) sent evs /\
    exists sts, logs s s' sts /\ accounted sts evs.

(** One message was read: the state [s1], the reader [r1] and the message [raw]. *)
Record after_read (reader : http_reader_t) (s s1 : session) (r1 : http_reader_t) (raw : option cstr)
    (d : list byte) : Prop := {
  ar_agrees : agrees s1;
  ar_inv : reader_inv r1;
  ar_later : later (ss_world s) (ss_world s1);
  ar_live : p_live (sp s1) ⊎ blk (rd_data reader) = p_live (sp s) ⊎ blk (rd_data r1) ⊎ blk_str raw;
  ar_reader : blk (rd_data reader) ⊆ p_live (sp s);
  ar_fds : p_fds (sp s1) = p_fds (sp s);
  ar_received : w_received (ss_world s1) = w_received (ss_world s) ++ d;
  ar_sent : w_sent (ss_world s1) = w_sent (ss_world s);
  ar_events : ss_events s1 = ss_events s;
  ar_log : logs s s1 [];
}.

Lemma after_read_note reader s s1 s2 r1 raw d : after_read reader s s1 r1 raw d -> internal s1 s2 [] ->
  ss_world s2 = ss_world s1 -> after_read reader s s2 r1 raw d.
Proof.
  intros [[] ? ? ? ? ? ? ? ? Hlog] [_ He Hc Hl] Hw. rewrite app_nil_r in He. unfold sp in *.
  split; [split; unfold sp|..]; unfold sp; rewrite ?Hw, ?He, ?Hc; try done. exact (logs_trans _ _ _ _ _ Hlog Hl).
Qed.

(** Why the reader returned. *)
Definition read_reason (R : reasons) (r : http_reader_t) (d : list byte) (rc : http_read_result_t) (r' : http_reader_t)
    (raw : option cstr) : Prop :=
  match rc with
  | HTTP_READ_OK => exists b msg, raw = Some (CStr (Some b) msg) /\ complete_frame msg /\
      rd_bytes r ++ d = msg ++ rd_bytes r'
  | HTTP_READ_TIMEOUT => raw = None /\ rd_bytes r' = rd_bytes r ++ d /\
      extract_spec (rd_bytes r') = (HTTP_READ_IO_ERROR, 0%nat) /\
      (wait_ended R \/ rd_bytes r' <> [] /\ deadline_missed R)
  | HTTP_READ_CLIENT_CLOSED | HTTP_READ_IO_ERROR => raw = None /\ silence R (rd_bytes r ++ d)
  | HTTP_READ_OUT_OF_MEMORY => raw = None /\ no_memory R
  | _ => raw = None /\ extract_spec (rd_bytes r ++ d) = (rc, 0%nat)
  end.

Lemma wlp_read reader s : agrees s -> reader_inv reader -> blk (rd_data reader) ⊆ p_live (sp s) ->
  wlp (on_world (http_reader_next_request reader (keep_alive_timeout_sec config)
         (request_timeout_sec config)))
    (fun '(rc, r1, raw) s1 => exists d, after_read reader s s1 r1 raw d /\
      read_reason (happened s s1) reader d rc r1 raw) s.
Proof.
  intros Hag Hinv Hin. apply wlp_on_world. eapply wlp_mono; [by apply wlp_next_request|].
  intros [[rc r1] raw] w1 (d & ts & Hr & _ & [Hho Hl] & Hinv1 & Hwhy). exists d. split.
  - assert (Hlater : later (ss_world s) w1) by (split; [apply Hr|by apply heap_only_advances]).
    destruct Hr, Hag as [A1 A2]. unfold sp in *. split; unfold sp; simpl; auto.
    + split; simpl; [by rewrite rs_file|done].
    + multiset_solver.
    + by apply Hho.
    + by apply logs_nothing.
  - unfold read_reason. destruct rc; try naive_solver.
    + destruct Hwhy as (-> & _ & Hx & Hover). split; [done|]. by left.
    + destruct Hwhy as (-> & Hb & Hx & Hover). rewrite Hb in *. split_and!; try done.
      destruct Hover as [?|[Hne ?]]; [by left|right]. auto.
    + destruct Hwhy as (-> & Hpre & Hover). split; [done|].
      destruct Hover as [?|(Hover & Hb & Hx)]; [by right; right|left]. by rewrite <- Hb.
Qed.

(** The silent exits. *)
Lemma wlp_abandon reader n s s1 r1 d : after_read reader s s1 r1 None d ->
  silence (happened s s1) (rd_bytes reader ++ d) ->
  wlp (abandon None;; mret r1) (loop_post reader n s) s1.
Proof.
  intros [? ? Ha Hl ? Hf Hrc Hst Hev Hlog] Hsil. apply wlp_bind. unfold abandon. apply wlp_bind, wlp_on_proc.
  eapply wp_mono; [apply response_destroy_wp, held_init|]. intros _ p2 [_ [Ha2 Hl2 Hf2]].
  rewrite blk_response_init in Hl2. simpl in Hf2. apply wlp_bind, wlp_on_proc.
  eapply wp_mono; [apply wp_request_destroy; [apply owned_request_init|rewrite blk_request_init; multiset_solver]|].
  intros _ p3 (_ & Hho3 & Hl3). rewrite blk_request_init in Hl3. simpl in Hho3, Hl3.
  apply wlp_on_proc, wp_ret, wlp_ret. unfold loop_post.
  match goal with |- later _ (ss_world ?u) /\ _ => set (s' := u) end.
  assert (Ha3 : later (ss_world s1) (ss_world s')).
  { apply (later_proc (ss_world s1)). etrans; [exact Ha2|]. by apply heap_only_advances. }
  unfold sp in *. split_and!; simpl.
  - etrans; [exact Ha|exact Ha3].
  - multiset_solver.
  - rewrite (ho_fds _ _ Hho3). multiset_solver.
  - exists d, [], []. rewrite !app_nil_r. split_and!; auto; [|exists []; split; [exact Hlog|by left]].
    apply talk_end. eapply silence_mono; [|exact Hsil]. apply happened_part; [reflexivity|exact Ha3].
Qed.

(** The same after a note. *)
Lemma wlp_abandon_noted reader n s s1 r1 d note : after_read reader s s1 r1 None d ->
  silence (happened s s1) (rd_bytes reader ++ d) ->
  wlp (log_worker worker_id note;; abandon None;; mret r1) (loop_post reader n s) s1.
Proof.
  intros Har Hsil. apply wlp_bind, wlp_log_worker. intros s2 Hi Hw. eapply wlp_abandon; [by eapply after_read_note|].
  unfold HandlerSend.happened. by rewrite Hw.
Qed.

(** A finished round that ends the connection. *)
Lemma loop_post_stop reader n s s1 r1 raw d s2 snt evs :
  after_read reader s s1 r1 raw d -> round_done s1 s2 raw snt evs ->
  talk (happened s s2) n (rd_bytes reader ++ d) snt evs -> (exists sts, logs s1 s2 sts /\ accounted sts evs) ->
  loop_post reader n s r1 s2.
Proof.
  intros [] [? ? ? ? Hio He] Ht (sts & Hlog & Hacc). split_and!; [etrans; eassumption|multiset_solver|congruence|].
  exists d, snt, evs. destruct Hio. split_and!; try congruence. exists sts. split; [|done].
  exact (logs_trans _ _ _ _ _ ar_log0 Hlog).
Qed.

(** A finished round after which the loop goes on. *)
Lemma loop_post_next reader n s s1 r1 raw d s2 snt evs msg r' s' :
  after_read reader s s1 r1 raw d -> round_done s1 s2 raw snt evs ->
  rd_bytes reader ++ d = msg ++ rd_bytes r1 -> logs s1 s2 (responded evs) ->
  (forall R rest snt' evs', within_reason (happened s1 s2) R -> talk R (n + 1) rest snt' evs' ->
     talk R n (msg ++ rest) (snt ++ snt') (evs ++ evs')) ->
  loop_post r1 (n + 1) s2 r' s' -> loop_post reader n s r' s'.
Proof.
  intros [] [? ? ? ? Hio He] Hsplit Hlog Hstep (Ha & Hl & Hf & rcv & snt' & evs' & Hr & Hs & He' & Ht & sts & Hlog' & Hacc).
  split_and!; [etrans; [eassumption|]; etrans; eassumption|multiset_solver|congruence|].
  exists (d ++ rcv), (snt ++ snt'), (evs ++ evs'). destruct Hio. split_and!.
  - rewrite Hr, si_received, ar_received0. by rewrite app_assoc.
  - rewrite Hs, si_sent, ar_sent0. by rewrite app_assoc.
  - rewrite He', He, ar_events0. by rewrite app_assoc.
  - rewrite app_assoc, Hsplit, <- app_assoc. apply Hstep; [by apply happened_part|].
    eapply talk_mono; [|exact Ht]. apply happened_part; [etrans; eassumption|reflexivity].
  - exists (responded evs ++ sts). split; [|by apply accounted_app].
    exact (logs_trans _ _ _ _ _ ar_log0 (logs_trans _ _ _ _ _ Hlog Hlog')).
Qed.

(** ** From verdicts to conversations *)

Lemma verdict_refused code R R' t n m stop rest d evs : refusal R rest code -> within_reason R' R ->
  verdict (refused_turn config code) R' t m stop d evs -> stop = true /\ talk R n rest d evs.
Proof.
  intros Hrf HR. unfold verdict. destruct (ready t).
  - intros ([Hr Hq Ho Hs Hc] & persist & r' & Hdel & Htr & Hp & Hst). rewrite Hc in *. simpl in *.
    rewrite andb_false_r in *. simpl in *. assert (persist = false) as -> by naive_solver.
    rewrite Hq, Ho, Hs in *. destruct stop; [|by destruct Hst]. split; [done|].
    eapply talk_refused; [done|done|eapply delivered_mono; [apply HR|done]|by eapply transmitted_mono].
  - intros (Hoom & -> & -> & ->). split; [done|]. apply talk_unanswered; [by apply HR|by left].
Qed.

Lemma good_turn_mono (O O' : Prop) msg t : (O -> O') ->
  good_turn config counters msg O t -> good_turn config counters msg O' t.
Proof.
  intros HO [Hr Hf Hs Hp]. split; [by eapply message_reply_mono|by eapply framed_as_mono|done|].
  destruct (_ && _); [done|]. intros n. by eapply must_close_mono.
Qed.

Lemma verdict_stop msg R t n rest d evs : complete_frame msg ->
  verdict (good_turn config counters msg) R t (n + 1) true d evs ->
  talk R n (msg ++ rest) d (EvRequest :: evs).
Proof.
  intros Hcf. unfold verdict. destruct (ready t).
  - intros ([Hr Hfr _ Hg] & persist & r' & Hdel & Htr & Hp & Hst).
    eapply talk_last; [done..|]. destruct persist; [by apply Hst|].
    destruct (tn_keep_alive t && negb (tn_force_close t)); [|by apply Hg].
    destruct Hp as [Hp|[_ ?]]; [|by do 4 right]. simpl in Hp. right. right. right. left.
    symmetry in Hp. apply Z.ltb_ge in Hp. lia.
  - intros (Hoom & _ & -> & ->). apply talk_unanswered; auto.
Qed.

Lemma verdict_next msg R0 t n d evs : complete_frame msg ->
  verdict (good_turn config counters msg) R0 t (n + 1) false d evs ->
  forall R rest snt' evs', within_reason R0 R -> talk R (n + 1) rest snt' evs' ->
  talk R n (msg ++ rest) (d ++ snt') ((EvRequest :: evs) ++ evs').
Proof.
  intros Hcf. unfold verdict. destruct (ready t); [|naive_solver].
  intros ([Hr Hfr _ Hg] & persist & r' & Hdel & Htr & Hp & -> & Hw & ->) R rest snt' evs' HR Ht.
  apply andb_true_iff in Hw as [Hw Hlt]. rewrite Hw in Hg. apply Z.ltb_lt in Hlt.
  destruct Hg as (a & Hpa & Hsh & Hrep & Hka & Hsc & Hv & Ho). rewrite Hv in Hdel. rewrite Ho in Htr.
  simpl. eapply talk_next; [done..|eapply delivered_mono; [apply HR|done]|by eapply transmitted_mono|done].
Qed.

Lemma good_turn_sendable msg O t : good_turn config counters msg O t -> sendable t.
Proof. intros []. done. Qed.

Lemma refused_turn_sendable code O t : refused_turn config code O t -> sendable t.
Proof. intros [Hr Hq _ _ _]. apply error_reply_modest in Hr as (_ & ? & ?). split; [done|done|by right]. Qed.

Lemma refused_turn_mono code (O O' : Prop) t : refused_turn config code O t -> refused_turn config code O' t.
Proof. intros []. by split. Qed.

(** The branches that refuse the stream. *)
Lemma wlp_refused code reader n s s1 r1 d (again : M session http_reader_t) :
  after_read reader s s1 r1 None d -> refusal (happened s s1) (rd_bytes reader ++ d) code -> 0 <= code ->
  wlp (t ← refuse_message config code; stop ← send_one client_fd worker_id t (n + 1) None;
       if (stop : bool) then mret r1 else again) (loop_post reader n s) s1.
Proof.
  intros Har Hrf Hc. eapply wlp_finish; [apply Har|done|simpl; multiset_solver|
    by eapply wlp_refuse_message; [apply Har|]|apply refused_turn_sendable|
    intros ? ? ? _; apply refused_turn_mono|].
  intros t stop s2 snt evs Hdone Hlog Hv. pose proof (verdict_accounted _ _ _ _ _ _ _ Hv) as [Hacc _].
  assert (Hrf2 : refusal (happened s s2) (rd_bytes reader ++ d) code).
  { eapply refusal_mono; [|exact Hrf]. apply happened_part; [reflexivity|apply Hdone]. }
  eapply verdict_refused in Hv as [-> Ht]; [|exact Hrf2|apply happened_part; [apply Har|reflexivity]].
  apply wlp_ret. eapply loop_post_stop; eauto.
Qed.

Lemma wlp_connection_loop fuel : forall reader n s,
  agrees s -> reader_inv reader -> blk (rd_data reader) ⊆ p_live (sp s) ->
  wlp (connection_loop config client_fd worker_id fuel reader n) (loop_post reader n s) s.
Proof.
  induction fuel as [|fuel IH]; intros reader n s Hag Hinv Hin; [done|].
  cbn [connection_loop]. apply wlp_bind. eapply wlp_mono; [by apply wlp_read|].
  intros [[rc r1] raw] s1 (d & Har & Hwhy).
  assert (Hrej : forall e, rc = e -> extract_spec (rd_bytes reader ++ d) = (e, 0%nat) ->
    e <> HTTP_READ_IO_ERROR -> e <> HTTP_READ_OK ->
    refusal (happened s s1) (rd_bytes reader ++ d) (status_for_read_result e)).
  { intros e -> He ? ?. right. left. eauto. }
  destruct rc; cbn [read_reason] in Hwhy;
    try (destruct Hwhy as [-> Hx]; apply wlp_refused with (d := d); [done|by apply Hrej|done]).
  - destruct Hwhy as (b & msg & -> & Hcf & Hsplit).
    eapply wlp_finish; [apply Har|simpl; eauto| |by eapply wlp_answer_message; [|apply Har]|
      apply good_turn_sendable|apply (fun O O' t HO => good_turn_mono O O' msg t HO)|].
    { pose proof (ar_live _ _ _ _ _ _ Har). pose proof (ar_reader _ _ _ _ _ _ Har). multiset_solver. }
    intros t stop s2 snt evs Hdone Hlog Hv. pose proof (verdict_accounted _ _ _ _ _ _ _ Hv) as [Hacc Hsent].
    destruct stop.
    + apply wlp_ret. eapply loop_post_stop; [done|done| |by exists (turn_answers t)].
      rewrite Hsplit. eapply talk_mono; [|by eapply verdict_stop].
      apply happened_part; [apply Har|reflexivity].
    + eapply wlp_mono; [apply IH; [eapply agrees_round; [apply Har|done]|apply Har|]|].
      { pose proof (ar_live _ _ _ _ _ _ Har). pose proof (ar_reader _ _ _ _ _ _ Har).
        pose proof (rd_live _ _ _ _ _ Hdone). multiset_solver. }
      rewrite (Hsent eq_refl) in Hlog. intros r' s' Hpost. eapply loop_post_next; [done|done|done|exact Hlog| |exact Hpost].
      by eapply verdict_next.
  - destruct Hwhy as [-> Hsil]. by eapply wlp_abandon_noted.
  - destruct Hwhy as (-> & Hb & Hx & Hover). destruct (_ && _) eqn:Eidle.
    + apply andb_true_iff in Eidle as [_ Hz%Z.eqb_eq]. unfold rd_length in Hz.
      assert (Hnil : rd_bytes r1 = []) by (unfold zlen in Hz; destruct (rd_bytes r1); [done|simpl in Hz; lia]).
      eapply wlp_abandon_noted; [done|]. rewrite <- Hb. right. left.
      destruct Hover as [?|[? _]]; [done|congruence].
    + apply wlp_refused with (d := d); [done| |lia]. left. rewrite <- Hb. split_and!; [done| |done|naive_solver].
      intros Hnil. rewrite Hnil in Hb. symmetry in Hb. apply app_nil in Hb as [Hb _].
      unfold rd_length in Eidle. by rewrite Hnil, Hb in Eidle.
  - destruct Hwhy as [-> Hsil]. by eapply wlp_abandon.
  - destruct Hwhy as [-> Hoom]. apply wlp_refused with (d := d); [done| |done]. by right; right.
Qed.
End loop.
