(* ===== verification/HandlerProps.v ===== *)
(** * Theorems about the connection handler

    The partial correctness of [client_handle], for every environment, the
    number of rounds of its loop, and an executed example.  That it returns is
    shown in HandlerLive.v. *)
From S2P Require Import Prelude CLib Proc Request Parser ParserSpec World Reader ReaderCorrect ReaderLive.
From S2P Require Import Response ResponseCorrect ResponseWire Connection Stats Config.
From S2P Require Import StaticFiles StaticServe Router RouterCorrect.
From S2P Require Import Logger LogLines ClientHandler HandlerSpec HandlerSize Conversation HandlerCorrect HandlerSend HandlerLoop.

(** ** Fuel *)

Lemma bind_done {S A B} (m : M S A) (k : A -> M S B) s b s' : mbind k m s = Done b s' ->
  exists a s1, m s = Done a s1 /\ k a s1 = Done b s'.
Proof. unfold mbind, M_bind. destruct (m s) as [a s1| |]; [eauto|done..]. Qed.

(** After the last request allowed the connection ends. *)
Lemma send_one_limit fd id t n raw s s' : send_one fd id t n raw s = Done false s' ->
  n < HTTP_MAX_REQUESTS_PER_CONNECTION.
Proof.
  intros Hs. unfold send_one in Hs. cbv zeta in Hs. apply bind_done in Hs as (_ & s0 & _ & Hs).
  apply bind_done in Hs as ([fc r] & s1 & _ & Hs). do 4 apply bind_done in Hs as (? & ? & _ & Hs).
  injection Hs as Hstop _. apply orb_false_iff in Hstop as [_ Hk]. apply negb_false_iff in Hk.
  apply andb_true_iff in Hk as [_ Hl]. apply negb_true_iff in Hl. by apply Z.leb_gt in Hl.
Qed.

Section fuel.
  Context `{FileSystem} (config : server_config_t) (client_fd : nat) (worker_id : Z).

Lemma finish_ext (make : M session turn) n raw r (k1 k2 : M session http_reader_t) s :
  (n < HTTP_MAX_REQUESTS_PER_CONNECTION -> forall s', k1 s' = k2 s') ->
  (t ← make; stop ← send_one client_fd worker_id t n raw; if (stop : bool) then mret r else k1) s =
  (t ← make; stop ← send_one client_fd worker_id t n raw; if (stop : bool) then mret r else k2) s.
Proof.
  intros Hk. apply bind_ext. intros t s1 _. apply bind_ext. intros [] s2 Hs; [done|].
  by eapply Hk, send_one_limit.
Qed.

Lemma connection_loop_fuel : forall f1 f2 reader n s,
  HTTP_MAX_REQUESTS_PER_CONNECTION - n <= Z.of_nat f1 -> HTTP_MAX_REQUESTS_PER_CONNECTION - n <= Z.of_nat f2 ->
  n < HTTP_MAX_REQUESTS_PER_CONNECTION ->
  connection_loop config client_fd worker_id f1 reader n s = connection_loop config client_fd worker_id f2 reader n s.
Proof.
  induction f1 as [|f1 IH]; intros [|f2] reader n s H1 H2 Hn; [lia..|]. cbn [connection_loop].
  apply bind_ext. intros [[rc r1] raw] s1 _.
  assert (Hk : n + 1 < HTTP_MAX_REQUESTS_PER_CONNECTION -> forall s',
    connection_loop config client_fd worker_id f1 r1 (n + 1) s' = connection_loop config client_fd worker_id f2 r1 (n + 1) s').
  { intros Hlt s'. apply IH; lia. }
  destruct rc; try done; try (by apply finish_ext).
  - destruct raw; [by apply finish_ext|done].
  - destruct (_ && _); [done|by apply finish_ext].
Qed.
End fuel.

(** The loop needs no more rounds than requests are allowed: whatever the peer
    sends, a larger number of rounds gives the same run. *)
Theorem connection_loop_enough `{FileSystem} config client_fd worker_id k reader s :
  connection_loop config client_fd worker_id (Z.to_nat HTTP_MAX_REQUESTS_PER_CONNECTION + k) reader 0 s =
  connection_loop config client_fd worker_id (Z.to_nat HTTP_MAX_REQUESTS_PER_CONNECTION) reader 0 s.
Proof. apply connection_loop_fuel; unfold HTTP_MAX_REQUESTS_PER_CONNECTION; lia. Qed.

(** ** The whole handler *)

Definition handle_post `{FileSystem} config (client_fd : nat) (s s' : session) : Prop :=
  p_live (sp s') = p_live (sp s) /\ p_fds (sp s) = p_fds (sp s') ⊎ {[+ client_fd +]} /\
  exists received sent evs,
    w_received (ss_world s') = w_received (ss_world s) ++ received /\
    w_sent (ss_world s') = w_sent (ss_world s) ++ sent /\
    ss_events s' = ss_events s ++ evs ++ [EvFinished] /\
    talk config (ss_counters s) (ss_world s)
      (reasons_between (request_seconds config) (ss_world s) (ss_world s')) 0 received sent evs /\
    exists sts, logs s s' sts /\ accounted sts evs.

Lemma wlp_client_handle `{FileSystem} config client_fd worker_id s :
  (forall k, counters_in_range (ss_counters s k)) -> client_fd ∈ p_fds (sp s) ->
  wlp (client_handle config client_fd worker_id) (fun _ s' => handle_post config client_fd s s') s.
Proof.
  intros Hc Hfd. unfold client_handle. apply wlp_bind, wlp_log_worker. intros s0 [_ He0 Hc0 Hlog0] Hw0.
  rewrite app_nil_r in He0. apply wlp_bind.
  apply wlp_mono with (Q := fun _ s1 => ss_world s1 = ss_world s /\ ss_events s1 = ss_events s /\
    ss_counters s1 = ss_counters s /\ ss_log s1 = ss_log s0).
  { unfold wlp, set_recv_timeout. by destruct (ss_setsockopt_ok s0). }
  intros _ s1 (Hw & He & Hcs & Hlog1). apply wlp_bind.
  eapply wlp_mono; [apply (wlp_connection_loop config (ss_counters s) (ss_world s) client_fd worker_id Hc)|].
  { by split; unfold sp; rewrite ?Hw. }
  { split; unfold rd_length; simpl; unfold zlen, HTTP_MAX_MESSAGE_BYTES; simpl; [lia| |done]. by vm_compute. }
  { simpl. multiset_solver. }
  intros reader' s2 (Ha & Hl & Hf & rcv & snt & evs & Hr & Hs & Hev & Ht & sts & Hlog & Hacc).
  simpl in Hl, Ht. unfold happened, sp in *. rewrite Hw in *.
  apply wlp_bind, wlp_on_proc. unfold http_reader_destroy. apply wp_bind.
  eapply wp_mono; [apply wp_free; multiset_solver|]. intros _ p3 [Hho3 Hl3]. apply wp_ret.
  apply wlp_bind, wlp_on_proc. eapply wp_mono; [apply wp_close; simpl; rewrite (ho_fds _ _ Hho3), Hf; multiset_solver|].
  intros _ p4 (Ha4 & Hl4 & Hf4). simpl in Hl4, Hf4. unfold wlp, report, handle_post, sp. simpl.
  split_and!; [multiset_solver|by rewrite <- Hf4, (ho_fds _ _ Hho3)|].
  exists rcv, snt, evs. split_and!; [done|done|by rewrite Hev, He, app_assoc| |].
  { eapply talk_mono; [|exact Ht]. apply reasons_part; [reflexivity|].
    apply (later_proc (ss_world s2)). etrans; [by apply heap_only_advances|exact Ha4]. }
  exists sts. split; [|done]. exact (logs_trans _ _ _ _ _ Hlog0 (logs_trans _ _ _ _ _ (logs_nothing _ _ Hlog1) Hlog)).
Qed.

(** Ownership.  On every path the handler closes its socket exactly once, closes
    every file it opened, frees every block it allocated, and reports exactly
    one finish, after everything else. *)
Theorem client_handle_releases `{FileSystem} config client_fd worker_id s :
  (forall k, counters_in_range (ss_counters s k)) -> client_fd ∈ p_fds (sp s) ->
  wlp (client_handle config client_fd worker_id) (fun _ s' =>
    p_live (sp s') = p_live (sp s) /\ p_fds (sp s) = p_fds (sp s') ⊎ {[+ client_fd +]} /\
    exists evs, ss_events s' = ss_events s ++ evs ++ [EvFinished] /\ count is_finished evs = 0) s.
Proof.
  intros Hc Hfd. eapply wlp_mono; [by apply wlp_client_handle|].
  intros _ s' (Hl & Hf & rcv & snt & evs & _ & _ & He & Ht & _). split_and!; [done|done|].
  exists evs. split; [done|]. by apply talk_bounds in Ht as (_ & _ & _ & _ & ? & _).
Qed.

(** C26. Limits.  A connection serves at most 100 requests and sends at most 100
    responses; it never counts more responses than requests but one, the
    refusal of a stream that is not a request. *)
Theorem client_handle_limits `{FileSystem} config client_fd worker_id s :
  (forall k, counters_in_range (ss_counters s k)) -> client_fd ∈ p_fds (sp s) ->
  wlp (client_handle config client_fd worker_id) (fun _ s' => exists evs, ss_events s' = ss_events s ++ evs /\
    count is_request evs <= HTTP_MAX_REQUESTS_PER_CONNECTION /\
    count is_response evs <= HTTP_MAX_REQUESTS_PER_CONNECTION /\
    count is_response evs <= count is_request evs + 1 /\
    count is_started evs = 0 /\ count is_accepted evs = 0) s.
Proof.
  intros Hc Hfd. eapply wlp_mono; [by apply wlp_client_handle|].
  intros _ s' (_ & _ & rcv & snt & evs & _ & _ & He & Ht & _). exists (evs ++ [EvFinished]). split; [done|].
  apply talk_bounds in Ht as (? & ? & ? & ? & ? & ?); [|by vm_compute]. rewrite !count_snoc. simpl. lia.
Qed.

(** ** A run *)

(** Two pipelined requests, cut in the middle, then the peer closes. *)
Definition hello : list byte :=
  lit "GET /api/health HTTP/1.1" ++ CRLF ++ lit "Host: a" ++ CRLF ++ CRLF ++
  lit "HEAD /a.txt HTTP/1.0" ++ CRLF ++ CRLF.

Definition sample_session : session :=
  {| ss_world :=
       {| w_proc := {| p_malloc_ok := fun _ => true; p_next := 0; p_live := ∅; p_next_fd := 8;
                       p_fds := {[+ 7%nat +]} |};
          w_clock := fun _ => Some (Timespec 0 0); w_ticks := 0;
          w_poll := repeat (PollReady false true) 5;
          w_recv := [RecvData (take 30 hello); RecvData (drop 30 hello); RecvEof];
          w_send := repeat (SendCount 100) 20; w_received := []; w_sent := []; w_polled := [];
          w_file := no_files |};
     ss_events := []; ss_counters := fun _ => zero_stats true; ss_reads := 0;
     ss_setsockopt_ok := true; ss_rcvtimeo := None; ss_log := []; ss_peer_gone := false |}.

Definition sample_config : server_config_t := config_defaults.

Definition sample_sent : list byte :=
  lit "HTTP/1.1 200 OK" ++ CRLF ++ lit "Content-Type: application/json" ++ CRLF ++
  lit "Server: CinderHTTP/1.0" ++ CRLF ++ lit "Content-Length: 15" ++ CRLF ++ CRLF ++ health_json ++
  lit "HTTP/1.1 200 OK" ++ CRLF ++ lit "Content-Type: text/plain; charset=utf-8" ++ CRLF ++
  lit "Connection: close" ++ CRLF ++
  lit "Server: CinderHTTP/1.0" ++ CRLF ++ lit "Content-Length: 5" ++ CRLF ++ CRLF.

(** The call returned, in a state that satisfies [P]. *)
Definition ended (P : session -> Prop) (o : outcome session ()) : Prop :=
  match o with Done _ s' => P s' | _ => False end.

Lemma ended_inv P o : ended P o -> exists s', o = Done () s' /\ P s'.
Proof. destruct o as [[] s'| |]; [eauto|done..]. Qed.

Definition sample_end (s' : session) : Prop :=
  w_sent (ss_world s') = sample_sent /\
  ss_events s' = [EvRequest; EvResponse 200; EvRequest; EvResponse 200; EvFinished] /\
  p_live (sp s') = ∅ /\ p_fds (sp s') = ∅.

Example sample_run : ended sample_end (@client_handle site sample_config 7 0 sample_session).
Proof. vm_compute. split_and!; reflexivity. Qed.

Lemma zero_in_range : counters_in_range (zero_stats true).
Proof. repeat constructor; by vm_compute. Qed.

Lemma client_handle_releases_witness :
  wlp (@client_handle site sample_config 7 0) (fun _ s' =>
    p_live (sp s') = p_live (sp sample_session) /\
    p_fds (sp sample_session) = p_fds (sp s') ⊎ {[+ 7%nat +]} /\
    exists evs, ss_events s' = [] ++ evs ++ [EvFinished] /\ count is_finished evs = 0) sample_session.
Proof.
  apply (@client_handle_releases site sample_config 7 0 sample_session).
  - intros k. apply zero_in_range.
  - by apply (bool_decide_unpack _).
Defined.

Lemma client_handle_limits_witness :
  wlp (@client_handle site sample_config 7 0) (fun _ s' => exists evs, ss_events s' = [] ++ evs /\
    count is_request evs <= 100 /\ count is_response evs <= 100 /\
    count is_response evs <= count is_request evs + 1 /\
    count is_started evs = 0 /\ count is_accepted evs = 0) sample_session.
Proof.
  apply (@client_handle_limits site sample_config 7 0 sample_session).
  - intros k. apply zero_in_range.
  - by apply (bool_decide_unpack _).
Defined.
