(* ===== verification/Returns.v ===== *)
(** * Calls that return

    The functions that only compute, allocate and free always come back (with a
    value or a fault, which the other files exclude): their loops have enough
    fuel.  This file shows it for everything the connection handler calls, so
    that only the waits of the operating system are left for HandlerLive.v. *)
From S2P Require Import Prelude CLib Proc Request Parser ParserSpec ParserCorrect World.
From S2P Require Import Response Connection Stats Config StaticFiles Router.
From S2P Require Import Logger LogLines ClientHandler.

(** The call does not wait for ever, in any state. *)
Class Returns {S A} (m : M S A) : Prop := returns : forall s, m s <> NoReturn.

#[global] Instance returns_ret {S A} (a : A) : Returns (S := S) (mret a).
Proof. done. Qed.

#[global] Instance returns_fault {S A} : Returns (S := S) (A := A) fault.
Proof. done. Qed.

Lemma returns_bind {S A B} (m : M S A) (k : A -> M S B) :
  Returns m -> (forall a, Returns (k a)) -> Returns (mbind k m).
Proof.
  intros Hm Hk s. unfold mbind, M_bind. specialize (Hm s). destruct (m s) as [a s'| |]; [apply Hk|done..].
Qed.

(** A total specification implies it. *)
Lemma returns_wp {S A} (m : M S A) Q : (forall s, wp m (Q s) s) -> Returns m.
Proof. intros Hm s E. specialize (Hm s). unfold wp in Hm. by rewrite E in Hm. Qed.

Ltac returns_step :=
  match goal with
  | |- forall _, _ => intros ?
  | |- Returns (mret _) => apply returns_ret
  | |- Returns (mbind _ _) => apply returns_bind; [|intros ?]
  | |- Returns (let _ := _ in _) => cbv zeta
  | |- Returns (match ?x with _ => _ end) => destruct x
  | |- Returns _ => solve [typeclasses eauto]
  end.
Ltac returns := repeat returns_step.

#[global] Instance returns_malloc : Returns malloc.
Proof. intros p. unfold malloc. by destruct (p_malloc_ok _ _). Qed.
#[global] Instance returns_free_block b : Returns (free_block b).
Proof. intros p. unfold free_block. by destruct (decide _). Qed.
#[global] Instance returns_free b : Returns (free b).
Proof. unfold free. returns. Qed.
#[global] Instance returns_realloc b : Returns (realloc b).
Proof. unfold realloc. returns. Qed.
#[global] Instance returns_fd_open : Returns fd_open.
Proof. done. Qed.
#[global] Instance returns_close fd : Returns (close fd).
Proof. intros p. unfold close. by destruct (decide _). Qed.
#[global] Instance returns_free_str c : Returns (free_str c).
Proof. unfold free_str. returns. Qed.
#[global] Instance returns_alloc_str l : Returns (alloc_str l).
Proof. unfold alloc_str. returns. Qed.

(** ** Requests and the parser *)

#[global] Instance returns_free_headers hs : Returns (free_headers hs).
Proof. induction hs as [|h hs IH]; simpl; returns. Qed.
#[global] Instance returns_request_destroy r : Returns (http_request_destroy r).
Proof. unfold http_request_destroy. returns. Qed.
#[global] Instance returns_framing data n : Returns (http_inspect_message_framing data n).
Proof. eapply returns_wp. intros p. apply wp_inspect_message_framing. Qed.
#[global] Instance returns_parse data : Returns (http_parse_request data).
Proof. eapply returns_wp. intros p. apply wp_http_parse_request. Qed.

(** ** Responses *)

#[global] Instance returns_clear_body r : Returns (clear_body r).
Proof. unfold clear_body. returns. Qed.
#[global] Instance returns_response_destroy r : Returns (http_response_destroy r).
Proof. unfold http_response_destroy. returns. Qed.
#[global] Instance returns_add_header r n v : Returns (http_response_add_header r n v).
Proof. unfold http_response_add_header, dup_string. returns. Qed.
#[global] Instance returns_body_owned r b n : Returns (http_response_set_body_owned r b n).
Proof. unfold http_response_set_body_owned. returns. Qed.
#[global] Instance returns_body_text r t : Returns (http_response_set_body_text r t).
Proof. unfold http_response_set_body_text. returns. Qed.
#[global] Instance returns_body_copy r b n : Returns (http_response_set_body_copy r b n).
Proof. unfold http_response_set_body_copy. returns. Qed.
#[global] Instance returns_file_body r fd n : Returns (http_response_set_file_body r fd n).
Proof. unfold http_response_set_file_body. returns. Qed.
#[global] Instance returns_build ct r c t : Returns (http_response_build ct r c t).
Proof. unfold http_response_build. returns. Qed.
#[global] Instance returns_build_text r c t : Returns (http_response_build_text r c t).
Proof. unfold http_response_build_text. returns. Qed.
#[global] Instance returns_build_json r c t : Returns (http_response_build_json r c t).
Proof. unfold http_response_build_json. returns. Qed.
#[global] Instance returns_serialize_headers r : Returns (http_response_serialize_headers r).
Proof. unfold http_response_serialize_headers. returns. Qed.

(** Every round of the removal shortens what is left to look at. *)
Lemma returns_remove_loop name : forall fuel i hs removed, (length hs - i < fuel)%nat ->
  Returns (remove_header_loop fuel i name hs removed).
Proof.
  induction fuel as [|fuel IH]; intros i hs removed Hf; [lia|]. cbn [remove_header_loop].
  destruct (hs !! i) as [h|] eqn:E; [|returns]. apply lookup_lt_Some in E.
  destruct (header_name_equal _ _); [|apply IH; lia].
  returns. all: apply IH; rewrite length_take, ?length_insert; lia.
Qed.

#[global] Instance returns_remove_header r n : Returns (http_response_remove_header r n).
Proof.
  unfold http_response_remove_header. destruct (rsp_array r); [|returns].
  apply returns_bind; [apply returns_remove_loop; lia|intros []; returns].
Qed.
#[global] Instance returns_set_header r n v : Returns (http_response_set_header r n v).
Proof. unfold http_response_set_header. returns. Qed.
#[global] Instance returns_policy r k v : Returns (http_response_apply_connection_policy r k v).
Proof. unfold http_response_apply_connection_policy. returns. Qed.

(** ** Static files and the router *)

#[global] Instance returns_extract t : Returns (static_files_extract_path t).
Proof. unfold static_files_extract_path. returns. Qed.
#[global] Instance returns_decode t : Returns (static_files_url_decode t).
Proof. unfold static_files_url_decode. returns. Qed.
#[global] Instance returns_free_segments segs : Returns (free_segments segs).
Proof. induction segs; simpl; returns. Qed.
#[global] Instance returns_drop_stack st : Returns (drop_stack st).
Proof. unfold drop_stack. returns. Qed.
#[global] Instance returns_push_segment seg st : Returns (push_segment seg st).
Proof. unfold push_segment. returns. Qed.

(** Every round of the normalization consumes at least one byte. *)
Lemma returns_normalize_loop : forall fuel p st, (length p < fuel)%nat ->
  Returns (normalize_loop fuel p st).
Proof.
  induction fuel as [|fuel IH]; intros p st Hf; [lia|]. cbn [normalize_loop].
  destruct p as [|c p]; [returns|]. destruct (span not_slash (c :: p)) as [seg rest] eqn:E.
  assert (Hn : (length (match rest with _ :: rest' => rest' | [] => [] end) < fuel)%nat).
  { destruct (span_spec _ _ _ _ E) as (Hp & _). apply (f_equal length) in Hp.
    rewrite length_app in Hp. destruct rest; simpl in *; lia. }
  returns; by apply IH.
Qed.

#[global] Instance returns_normalize d : Returns (static_files_normalize_path d).
Proof.
  unfold static_files_normalize_path. destruct d as [[|c p]|]; [returns| |returns].
  destruct (negb _); [returns|]. apply returns_bind; [apply returns_normalize_loop; lia|]. returns.
Qed.

Section site.
  Context `{FileSystem} (config : server_config_t).

#[global] Instance returns_open_file p : Returns (open_file p).
Proof. unfold open_file. returns. Qed.
#[global] Instance returns_resolve root rel : Returns (resolve_under_root root rel).
Proof. unfold resolve_under_root. returns. Qed.
#[global] Instance returns_try_index root rel : Returns (try_index root rel).
Proof. unfold try_index. returns. Qed.
#[global] Instance returns_locate root rel : Returns (locate_file root rel).
Proof. unfold locate_file. returns. Qed.
#[global] Instance returns_fill_fail rc fd r : Returns (fill_fail rc fd r).
Proof. unfold fill_fail. returns. Qed.
#[global] Instance returns_fill r p : Returns (fill_file_response r p).
Proof. unfold fill_file_response. returns. Qed.
#[global] Instance returns_serve_done rc r a b c d : Returns (serve_done rc r a b c d).
Proof. unfold serve_done. returns. Qed.
#[global] Instance returns_serve root t r : Returns (static_files_serve root t r).
Proof. unfold static_files_serve. returns. Qed.
#[global] Instance returns_build_error r c h : Returns (static_files_build_error r c h).
Proof. unfold static_files_build_error. returns. Qed.
#[global] Instance returns_not_found root r : Returns (static_files_build_not_found root r).
Proof. unfold static_files_build_not_found. returns. Qed.
#[global] Instance returns_api_error r c j a : Returns (build_api_error r c j a).
Proof. unfold build_api_error. returns. Qed.

Lemma returns_routes : Forall (fun rt => forall ctx rq r, Returns (rt_handler rt ctx rq r)) ROUTES.
Proof.
  repeat constructor; intros ctx rq r; simpl; unfold handle_health, handle_echo, handle_stats; returns.
Qed.

Lemma find_route_handler target m h path : forall routes start,
  find_route routes target m start = (path, Some h) -> exists rt, rt ∈ routes /\ rt_handler rt = h.
Proof.
  induction routes as [|rt routes IH]; intros start; simpl; [done|].
  destruct (negb _); [|destruct (method_compatible _ _)].
  1,3: intros Hf; apply IH in Hf as (rt' & ? & ?); exists rt'; by rewrite elem_of_cons; auto.
  intros [= <- <-]. exists rt. rewrite elem_of_cons. auto.
Qed.

#[global] Instance returns_dispatch ctx rq r : Returns (router_dispatch ctx rq r).
Proof.
  unfold router_dispatch. destruct (req_target rq) as [t|]; [|returns].
  destruct (find_route _ _ _ _) as [path [h|]] eqn:E; [|returns].
  apply find_route_handler in E as (rt & Hin & <-). apply returns_bind; [|returns].
  pose proof returns_routes as HF. rewrite Forall_forall in HF. by apply HF.
Qed.

#[global] Instance returns_error_response r c : Returns (build_static_error_response config r c).
Proof. unfold build_static_error_response. returns. Qed.

(** ** The parts of the handler that do not touch the socket *)

#[global] Instance returns_on_proc {A} (m : M proc A) : Returns m -> Returns (on_proc m).
Proof.
  intros Hm s. unfold on_proc, on_world, lift. specialize (Hm (w_proc (ss_world s))).
  by destruct (m (w_proc (ss_world s))).
Qed.
#[global] Instance returns_report e : Returns (report e).
Proof. done. Qed.
#[global] Instance returns_read_counters : Returns read_counters.
Proof. done. Qed.
#[global] Instance returns_set_recv_timeout t : Returns (set_recv_timeout t).
Proof. intros s. unfold set_recv_timeout. by destruct (ss_setsockopt_ok s). Qed.
#[global] Instance returns_log e : Returns (log e).
Proof. done. Qed.
#[global] Instance returns_log_worker id n : Returns (log_worker id n).
Proof. unfold log_worker. returns. Qed.
#[global] Instance returns_peer_gone : Returns peer_gone.
Proof. done. Qed.
#[global] Instance returns_static rq r : Returns (handle_static_get_head config rq r).
Proof. unfold handle_static_get_head. returns. Qed.
#[global] Instance returns_refuse c : Returns (refuse_message config c).
Proof. unfold refuse_message. returns. Qed.
#[global] Instance returns_handler_dispatch rq : Returns (dispatch config rq).
Proof. unfold dispatch. returns. Qed.
#[global] Instance returns_answer raw : Returns (answer_message config raw).
Proof. unfold answer_message. returns. Qed.
#[global] Instance returns_announce r p f v : Returns (announce r p f v).
Proof. unfold announce. returns. Qed.
#[global] Instance returns_abandon raw : Returns (abandon raw).
Proof. unfold abandon. returns. Qed.
End site.
