(* ===== verification/HandlerLive.v ===== *)
(** * The connection handler returns

    [client_handle] waits only in [poll], [recv], [send], [sendfile] and [read].
    When each of them gives up at some point, however late, the handler returns;
    with the partial correctness of HandlerProps.v this is total correctness. *)
From S2P Require Import Prelude CLib Proc Request Parser World Reader ReaderCorrect ReaderLive.
From S2P Require Import Response Connection Stats Config StaticFiles Router RouterCorrect StaticServe.
From S2P Require Import Logger LogLines ClientHandler HandlerCorrect HandlerProps Conversation Returns.

(** ** Returning, up to faults *)

(** The call comes back, and a value it returns satisfies the postcondition. *)
Definition wrp {S A} (m : M S A) (Q : A -> S -> Prop) (s : S) : Prop :=
  match m s with Done a s' => Q a s' | NoReturn => False | Fault => True end.

Lemma wrp_ret {S A} (a : A) (Q : A -> S -> Prop) s : Q a s -> wrp (mret a) Q s.
Proof. done. Qed.

Lemma wrp_bind {S A B} (m : M S A) (k : A -> M S B) Q s :
  wrp m (fun a s' => wrp (k a) Q s') s -> wrp (mbind k m) Q s.
Proof. unfold wrp, mbind, M_bind. by destruct (m s). Qed.

Lemma wrp_mono {S A} (m : M S A) (Q Q' : A -> S -> Prop) s :
  wrp m Q s -> (forall a s', Q a s' -> Q' a s') -> wrp m Q' s.
Proof. unfold wrp. destruct (m s); auto. Qed.

Lemma wrp_lift {A} (m : M proc A) `{!Returns m} (Q : A -> world -> Prop) w :
  (forall a p, Q a (set_proc p w)) -> wrp (lift m) Q w.
Proof.
  intros HQ. unfold wrp, lift. pose proof (returns (m := m) (w_proc w)).
  by destruct (m (w_proc w)).
Qed.

(** A fault is excluded by partial correctness. *)
Lemma wrp_wlp {S A} (m : M S A) (Q R : A -> S -> Prop) s : wrp m Q s -> wlp m R s -> wp m R s.
Proof. unfold wrp, wlp, wp. by destruct (m s). Qed.

(** ** Answers that end a wait for good *)

Definition ends_poll (a : poll_answer) : Prop :=
  match a with
  | PollTimeout | PollReady false false => True
  | PollError e => e <> EINTR
  | _ => False
  end.

Definition ends_recv (a : recv_answer) : Prop :=
  match a with RecvEof | RecvData [] => True | RecvError e => e <> EINTR | _ => False end.

Definition ends_send (a : send_answer) : Prop :=
  match a with SendCount 0 => True | SendError e => e <> EINTR | _ => False end.

(** The errors of [sendfile] that lead to the portable loop do not end it. *)
Definition ends_sendfile (a : send_answer) : Prop :=
  match a with
  | SendCount 0 => True
  | SendError e => e <> EINTR /\ e <> EINVAL /\ e <> ENOSYS
  | _ => False
  end.

Definition ends_read (a : errno + nat) : Prop :=
  match a with inr O => True | inl e => e <> EINTR | _ => False end.

(** The peer is heard to the end; what is sent to it is taken or refused. *)
Record hears (w : world) : Prop := {
  he_poll : Exists ends_poll (w_poll w);
  he_recv : Exists ends_recv (w_recv w);
}.

Record speaks (w : world) : Prop := {
  sp_send : Exists ends_send (w_send w);
  sp_sendfile : Exists ends_sendfile (f_sendfile (w_file w));
  sp_read : Exists ends_read (f_read (w_file w));
}.

Definition same_in (w w' : world) : Prop := w_poll w' = w_poll w /\ w_recv w' = w_recv w.
Definition same_out (w w' : world) : Prop := w_send w' = w_send w /\ w_file w' = w_file w.

Lemma hears_same w w' : same_in w w' -> hears w -> hears w'.
Proof. intros [Hp Hr] []. split; by rewrite ?Hp, ?Hr. Qed.

Lemma speaks_same w w' : same_out w w' -> speaks w -> speaks w'.
Proof. intros [Hs Hf] []. split; by rewrite ?Hs, ?Hf. Qed.

Lemma same_out_trans w1 w2 w3 : same_out w1 w2 -> same_out w2 w3 -> same_out w1 w3.
Proof. intros [] []. split; congruence. Qed.

Lemma same_in_trans w1 w2 w3 : same_in w1 w2 -> same_in w2 w3 -> same_in w1 w3.
Proof. intros [] []. split; congruence. Qed.

(** After an answer that does not end the wait, one that does is still to come. *)
Lemma Exists_later {A} (P : A -> Prop) a l : Exists P (a :: l) -> ~ P a -> Exists P l.
Proof. rewrite Exists_cons. tauto. Qed.

(** ** The reader *)

Definition capacity_ok (r : http_reader_t) : Prop := 0 <= rd_capacity r <= HTTP_MAX_MESSAGE_BYTES.

Lemma wrp_wait_readable_loop t : forall fuel w, (length (w_poll w) < fuel)%nat ->
  Exists ends_poll (w_poll w) ->
  wrp (wait_readable_loop fuel t) (fun rc w' => same_out w w' /\ w_recv w' = w_recv w /\
    (length (w_poll w') < length (w_poll w))%nat /\ (0 < rc -> Exists ends_poll (w_poll w'))) w.
Proof.
  induction fuel as [|fuel IH]; intros w Hf Hex; [lia|]. cbn [wait_readable_loop]. apply wrp_bind.
  unfold wrp at 1, poll. destruct (w_poll w) as [|a rest] eqn:Ep; [by apply Exists_nil in Hex|].
  simpl in Hf.
  assert (Hstop : forall rc, (0 < rc -> ~ ends_poll a) -> same_out w w /\ w_recv w = w_recv w /\
    (length rest < length (a :: rest))%nat /\ (0 < rc -> Exists ends_poll rest)).
  { intros rc Hrc. split_and!; [by split|done|simpl; lia|]. intros Hp. eapply Exists_later; eauto. }
  destruct a as [e| |[] pollin]; [destruct (decide (e = EINTR)) as [->|He]| | |].
  - eapply wrp_mono; [apply IH; simpl; [lia|]|].
    { eapply Exists_later; [exact Hex|]. simpl. congruence. }
    intros rc w' (Hs & Hr & Hl & Hx). simpl in *. split_and!; [done|done|lia|done].
  - destruct e; try done; by (apply wrp_ret, (Hstop (-1)); lia).
  - apply wrp_ret, (Hstop 0). lia.
  - apply wrp_ret, (Hstop 1). by intros _ [].
  - destruct pollin; apply wrp_ret; [apply (Hstop 1); by intros _ []|apply (Hstop (-1)); lia].
Qed.

Lemma wrp_recv space w : Exists ends_recv (w_recv w) ->
  wrp (recv space) (fun a w' => same_out w w' /\ w_poll w' = w_poll w /\
    (~ ends_recv a -> Exists ends_recv (w_recv w'))) w.
Proof.
  intros Hex. unfold wrp, recv. destruct (w_recv w) as [|a rest] eqn:Er; [by apply Exists_nil in Hex|].
  destruct a as [e| |bs]; simpl.
  1,2: split_and!; [done..|]; intros Hn; eapply Exists_later; eauto.
  split_and!; [done..|]. intros Hn.
  assert (Hrest : Exists ends_recv rest).
  { eapply Exists_later; [exact Hex|]. destruct bs; [by rewrite take_nil in Hn|by intros []]. }
  destruct (_ <=? _)%nat; [done|]. by constructor 2.
Qed.

Definition heard (w : world) (res : read_result) (w' : world) : Prop :=
  let '(rc, r', _) := res in same_out w w' /\ capacity_ok r' /\ (rc = HTTP_READ_OK -> hears w').

Lemma heard_from w w1 res w' : same_out w w1 -> heard w1 res w' -> heard w res w'.
Proof. destruct res as [[rc r'] raw]. intros Hs (? & ? & ?). split_and!; [by eapply same_out_trans|done..]. Qed.

Lemma wrp_ensure_capacity r needed w : capacity_ok r ->
  wrp (lift (ensure_capacity r needed)) (fun '(_, r') w' => capacity_ok r' /\ exists p, w' = set_proc p w) w.
Proof.
  intros Hc. assert (Hid : exists p, w = set_proc p w) by (exists (w_proc w); by rewrite set_proc_id).
  unfold ensure_capacity. destruct (Z.leb_spec needed (rd_capacity r)).
  { unfold wrp, lift. simpl. by eauto. }
  destruct (Z.ltb_spec HTTP_MAX_MESSAGE_BYTES needed); [unfold wrp, lift; simpl; by eauto|].
  set (cap0 := if rd_capacity r =? 0 then _ else _).
  assert (Hc0 : 0 < cap0 <= HTTP_MAX_MESSAGE_BYTES).
  { unfold cap0, capacity_ok in *. destruct (Z.eqb_spec (rd_capacity r) 0); [by vm_compute|lia]. }
  destruct (grow_capacity_spec 63 cap0 needed) as (c & -> & Hb); [done|done| |].
  { unfold HTTP_MAX_MESSAGE_BYTES, HTTP_MAX_HEADER_BYTES, HTTP_MAX_BODY_SIZE in *.
    change (2 ^ Z.of_nat 63) with 9223372036854775808. lia. }
  destruct (_ || _); [unfold wrp, lift; simpl; by eauto|].
  unfold wrp, lift, mbind, M_bind. pose proof (returns (m := realloc (rd_data r)) (w_proc w)).
  destruct (realloc (rd_data r) (w_proc w)) as [[b|] p| |]; simpl; [|by eauto|done..].
  split; [|eauto]. unfold capacity_ok in *. simpl. lia.
Qed.

#[global] Instance returns_try_extract r : Returns (try_extract_length r).
Proof. unfold try_extract_length. returns. Qed.
#[global] Instance returns_bytes_needed r : Returns (bytes_needed r).
Proof. unfold bytes_needed. returns. Qed.
#[global] Instance returns_take_message r n : Returns (take_message r n).
Proof. unfold take_message. returns. Qed.

#[global] Instance returns_reader_destroy r : Returns (http_reader_destroy r).
Proof. unfold http_reader_destroy. returns. Qed.

Section round.
  Context (ka rq : Z) (again : http_reader_t -> option timespec -> M world read_result) (w : world).
  (** The next round, once [poll] has answered. *)
  Context (Hagain : forall r deadline w', capacity_ok r -> hears w' ->
    (length (w_poll w') < length (w_poll w))%nat -> wrp (again r deadline) (heard w') w').

Lemma wrp_next r deadline w' : capacity_ok r -> hears w' -> same_out w w' ->
  (length (w_poll w') < length (w_poll w))%nat -> wrp (again r deadline) (heard w) w'.
Proof.
  intros Hc Hh Hs Hl. eapply wrp_mono; [by apply Hagain|]. intros res w''. by apply heard_from.
Qed.

Lemma wrp_after_recv r deadline a w' : capacity_ok r -> same_out w w' ->
  (length (w_poll w') < length (w_poll w))%nat -> (~ ends_recv a -> hears w') ->
  wrp (after_recv rq again r deadline a) (heard w) w'.
Proof.
  intros Hc Hs Hl Hh. unfold after_recv.
  assert (Hstop : forall rc r', rc <> HTTP_READ_OK -> capacity_ok r' ->
    wrp (mret (rc, r', None)) (heard w) w') by by intros.
  destruct a as [e| |[|b bs]]; try by apply Hstop.
  - destruct e; try by apply Hstop. apply wrp_next; auto.
  - specialize (Hh ltac:(by intros [])). destruct deadline; [by apply wrp_next|].
    apply wrp_bind. unfold wrp at 1, clock_gettime. destruct (w_clock w' _); [|by apply wrp_ret].
    apply wrp_next; [done| |done|done]. by apply (hears_same w').
Qed.

Lemma wrp_wait_and_recv r deadline space w' : capacity_ok r -> same_out w w' -> same_in w w' ->
  hears w -> wrp (wait_and_recv ka rq again r deadline space) (heard w) w'.
Proof.
  intros Hc Hs Hi Hh. unfold wait_and_recv. apply wrp_bind.
  assert (Hstop : forall rc w'', rc <> HTTP_READ_OK -> same_out w w'' ->
    wrp (mret (rc, r, None)) (heard w) w'') by by intros.
  apply wrp_mono with (Q := fun _ w1 => same_out w w1 /\ same_in w w1).
  { destruct deadline as [d|]; [|by apply wrp_ret]. simpl. unfold remaining_timeout_ms.
    apply wrp_bind, wrp_bind. by unfold wrp, clock_gettime. }
  intros [t|] w1 [Hs1 Hi1]; [|by apply Hstop]. apply wrp_bind. unfold wait_readable.
  destruct Hh as [Hp Hr]. destruct Hi1 as [Hp1 Hr1].
  eapply wrp_mono; [apply wrp_wait_readable_loop; [lia|by rewrite Hp1]|].
  intros rc w2 (Hs2 & Hr2 & Hl2 & Hx2). assert (Hs12 : same_out w w2) by by eapply same_out_trans.
  destruct (Z.eqb_spec rc 0); [by apply Hstop|]. destruct (Z.ltb_spec rc 0); [by apply Hstop|].
  apply wrp_bind. eapply wrp_mono; [apply wrp_recv; by rewrite Hr2, Hr1|].
  intros a w3 (Hs3 & Hp3 & Hx3). apply wrp_after_recv; [done|by eapply same_out_trans| |].
  - rewrite Hp3, <- Hp1. done.
  - intros Hn. split; [rewrite Hp3; apply Hx2; lia|by apply Hx3].
Qed.

Lemma wrp_read_round r deadline : capacity_ok r -> hears w ->
  wrp (read_round ka rq again r deadline) (heard w) w.
Proof.
  intros Hc Hh. unfold read_round. apply wrp_bind, wrp_lift; [apply _|]. intros [ready n] p.
  destruct ready; try by apply wrp_ret.
  - unfold wrp, lift, take_message, mbind, M_bind. pose proof (returns (m := malloc) (w_proc (set_proc p w))).
    destruct (malloc _) as [[b|] p'| |]; try done; split_and!; try done; intros _; by apply (hears_same w).
  - unfold make_room. apply wrp_bind, wrp_lift; [apply _|]. intros [e|need] p1; [apply wrp_ret; split_and!; [done|done|intros _; by apply (hears_same w)]|].
    apply wrp_bind. eapply wrp_mono; [by apply wrp_ensure_capacity|]. intros [ok r1] w2 [Hc1 [p2 ->]].
    destruct ok; cbn [negb]; [|by destruct (_ <? _)]. cbv zeta.
    destruct (_ =? 0); [by apply wrp_ret|]. by apply wrp_wait_and_recv.
Qed.
End round.

Lemma wrp_reader_loop ka rq : forall fuel r deadline w, (length (w_poll w) < fuel)%nat ->
  capacity_ok r -> hears w -> wrp (reader_loop fuel ka rq r deadline) (heard w) w.
Proof.
  induction fuel as [|fuel IH]; intros r deadline w Hf Hc Hh; [lia|]. cbn [reader_loop].
  apply wrp_read_round; [|done|done]. intros r' dl w' Hc' Hh' Hl. apply IH; [lia|done|done].
Qed.

Lemma wrp_next_request r ka rq w : capacity_ok r -> hears w ->
  wrp (http_reader_next_request r ka rq) (heard w) w.
Proof.
  intros Hc Hh. unfold http_reader_next_request. cbv zeta.
  destruct (0 <? rd_length r).
  - apply wrp_bind. unfold wrp at 1, clock_gettime. destruct (w_clock w _); [|by apply wrp_ret].
    set (w1 := {| w_proc := _ |}). apply (wrp_mono _ (heard w1)); [|intros res w'; by apply heard_from].
    unfold wrp. apply wrp_reader_loop; [lia|done|]. by apply (hears_same w).
  - unfold wrp. apply wrp_reader_loop; [lia|done|done].
Qed.

(** ** Sending *)

Lemma wrp_send_all_loop : forall fuel bs w, (length (w_send w) < fuel)%nat -> Exists ends_send (w_send w) ->
  wrp (send_all_loop fuel bs) (fun ok w' => same_in w w' /\ w_file w' = w_file w /\
    (ok = true -> Exists ends_send (w_send w'))) w.
Proof.
  induction fuel as [|fuel IH]; intros bs w Hf Hex; [lia|]. destruct bs as [|b bs]; [by apply wrp_ret|].
  cbn [send_all_loop]. apply wrp_bind. unfold wrp at 1, send.
  destruct (w_send w) as [|a rest] eqn:Es; [by apply Exists_nil in Hex|]. simpl in Hf.
  destruct a as [e|n].
  - destruct (decide (e = EINTR)) as [->|He]; [|by destruct e].
    eapply wrp_mono; [apply IH; simpl; [lia|]|].
    { eapply Exists_later; [exact Hex|]. simpl. tauto. }
    intros ok w' (Hi & Hfl & Hx). by split_and!.
  - destruct n as [|n]; simpl; [done|]. eapply wrp_mono; [apply IH; simpl; [lia|]|].
    { eapply Exists_later; [exact Hex|]. by intros []. }
    intros ok w' (Hi & Hfl & Hx). by split_and!.
Qed.

Lemma wrp_send_all bs w : Exists ends_send (w_send w) ->
  wrp (send_all bs) (fun ok w' => same_in w w' /\ w_file w' = w_file w /\
    (ok = true -> Exists ends_send (w_send w'))) w.
Proof. intros Hex. unfold wrp, send_all, fueled. apply wrp_send_all_loop; [lia|done]. Qed.

(** [sendfile] leaves the other scripts alone. *)
Definition file_step (w w' : world) : Prop :=
  same_in w w' /\ w_send w' = w_send w /\ f_read (w_file w') = f_read (w_file w).

Lemma wrp_sendfile_loop fd len : forall fuel offset w,
  (length (f_sendfile (w_file w)) < fuel)%nat -> Exists ends_sendfile (f_sendfile (w_file w)) ->
  wrp (sendfile_loop fuel fd len offset) (fun stop w' => file_step w w' /\
    (stop <> inl false -> Exists ends_sendfile (f_sendfile (w_file w')))) w.
Proof.
  induction fuel as [|fuel IH]; intros offset w Hf Hex; [lia|]. cbn [sendfile_loop].
  destruct (len <=? offset)%nat; [by apply wrp_ret|]. apply wrp_bind. unfold wrp at 1, sendfile.
  destruct (f_sendfile (w_file w)) as [|a rest] eqn:Es; [by apply Exists_nil in Hex|]. simpl in Hf.
  destruct a as [e|n].
  - assert (Hlater : e = EINTR \/ e = EINVAL \/ e = ENOSYS -> Exists ends_sendfile rest).
    { intros He. eapply Exists_later; [exact Hex|]. simpl. tauto. }
    destruct (decide (e = EINTR)) as [->|He].
    { eapply wrp_mono; [apply IH; simpl; [lia|auto]|]. intros stop w' [Hst Hx]. by split. }
    destruct e; try done; destruct (offset =? 0)%nat; simpl; (apply wrp_ret; split; [done|]; intros; auto).
    all: by simplify_eq.
  - destruct (length (take _ _)) as [|n'] eqn:El; [by apply wrp_ret|].
    eapply wrp_mono; [apply IH; simpl; [lia|]|].
    { eapply Exists_later; [exact Hex|]. destruct n; [by rewrite take_0 in El|by intros []]. }
    intros stop w' [(Hi & Hsn & Hr) Hx]. simpl in *. by split.
Qed.

Lemma wrp_read_retry fd want : forall fuel w,
  (length (f_read (w_file w)) < fuel)%nat -> Exists ends_read (f_read (w_file w)) ->
  wrp (read_retry fuel fd want) (fun chunk w' => same_in w w' /\ w_send w' = w_send w /\
    f_sendfile (w_file w') = f_sendfile (w_file w) /\
    (length (f_read (w_file w')) < length (f_read (w_file w)))%nat /\
    (chunk <> None -> chunk <> Some [] -> Exists ends_read (f_read (w_file w')))) w.
Proof.
  induction fuel as [|fuel IH]; intros w Hf Hex; [lia|]. cbn [read_retry]. apply wrp_bind.
  unfold wrp at 1, read. destruct (f_read (w_file w)) as [|a rest] eqn:Er; [by apply Exists_nil in Hex|].
  simpl in Hf. destruct a as [e|n].
  - destruct (decide (e = EINTR)) as [->|He].
    { eapply wrp_mono; [apply IH; simpl; [lia|]|].
      { eapply Exists_later; [exact Hex|]. simpl. tauto. }
      intros chunk w' (? & ? & ? & ? & ?). simpl in *. split_and!; [done..|lia|done]. }
    destruct e; try done; apply wrp_ret; simpl; by split_and!; try lia.
  - apply wrp_ret. simpl. split_and!; try done; [lia|]. intros _ Hne.
    eapply Exists_later; [exact Hex|]. destruct n; [by rewrite take_0 in Hne|by intros []].
Qed.

Definition read_on (w w' : world) : Prop :=
  same_in w w' /\ f_sendfile (w_file w') = f_sendfile (w_file w).

Lemma wrp_copy_loop fd : forall fuel remaining w,
  (length (f_read (w_file w)) < fuel)%nat -> Exists ends_read (f_read (w_file w)) ->
  Exists ends_send (w_send w) ->
  wrp (copy_loop fuel fd remaining) (fun ok w' => read_on w w' /\
    (ok = true -> Exists ends_read (f_read (w_file w')) /\ Exists ends_send (w_send w'))) w.
Proof.
  induction fuel as [|fuel IH]; intros remaining w Hf Hr Hs; [lia|]. cbn [copy_loop].
  destruct remaining as [|k]; [by apply wrp_ret|]. cbv zeta. apply wrp_bind.
  set (want := if _ : bool then _ else _).
  apply (wrp_mono _ _ _ _ (wrp_read_retry fd want _ w (Nat.lt_succ_diag_r _) Hr)).
  intros [[|b bs]|] w1 (Hi & Hsn & Hsf & Hl & Hx); try by apply wrp_ret.
  specialize (Hx ltac:(done) ltac:(done)). apply wrp_bind.
  eapply wrp_mono; [apply wrp_send_all; by rewrite Hsn|]. intros ok w2 (Hi2 & Hf2 & Hx2).
  assert (Hst : read_on w w2) by (split; [by eapply same_in_trans|by rewrite Hf2]).
  destruct ok; cbn [negb]; [|by apply wrp_ret].
  eapply wrp_mono; [apply IH; [rewrite Hf2; lia|by rewrite Hf2|by apply Hx2]|].
  intros ok w' [[Hi3 Hsf3] Hx3]. destruct Hst. split; [|done]. split; [by eapply same_in_trans|congruence].
Qed.

(** What a send leaves: when it succeeds, later ones come back too. *)
Definition spoken (w : world) (ok : bool) (w' : world) : Prop := same_in w w' /\ (ok = true -> speaks w').

Lemma wrp_send_file_body fd len w : speaks w -> wrp (send_file_body fd len) (spoken w) w.
Proof.
  intros [Hs Hsf Hr]. unfold send_file_body. destruct (len =? 0); [by apply wrp_ret|]. cbv zeta.
  apply wrp_bind. apply (wrp_mono _ _ _ _ (wrp_sendfile_loop fd _ _ 0 w (Nat.lt_succ_diag_r _) Hsf)).
  intros [[]|offset] w1 [(Hi & Hs1 & Hr1) Hx]; [apply wrp_ret; split; [done|]..|].
  - intros _. split; [by rewrite Hs1|by apply Hx|by rewrite Hr1].
  - done.
  - apply wrp_bind. unfold wrp at 1, lseek_set. destruct (f_lseek_ok _); [|by apply wrp_ret]. cbn [negb].
    set (w2 := set_file _ _ w1). specialize (Hx ltac:(done)).
    refine (wrp_mono _ _ _ _ (wrp_copy_loop fd _ _ w2 (Nat.lt_succ_diag_r _) _ _) _); simpl.
    + by rewrite Hr1.
    + by rewrite Hs1.
    + intros ok w' [[Hi2 Hsf2] Hok]. split; [by eapply same_in_trans|]. intros ->.
      destruct (Hok eq_refl). split; [done|by rewrite Hsf2|done].
Qed.

Lemma wrp_send_all_speaks bs w : speaks w -> wrp (send_all bs) (spoken w) w.
Proof.
  intros [Hs Hsf Hr]. eapply wrp_mono; [by apply wrp_send_all|]. intros ok w' (Hi & Hf & Hx).
  split; [done|]. intros ->. split; rewrite ?Hf; auto.
Qed.

Lemma wrp_response_send r omit w : speaks w -> wrp (http_response_send r omit) (spoken w) w.
Proof.
  intros Hs. unfold http_response_send. apply wrp_bind, wrp_lift; [apply _|]. intros [head|] p; [|by apply wrp_ret].
  apply wrp_bind. eapply wrp_mono; [apply wrp_send_all_speaks; by apply (speaks_same w)|].
  intros ok w1 [Hi Hx]. destruct ok; cbn [negb]; apply wrp_bind, wrp_lift; try apply _; intros _ p1;
    [|by apply wrp_ret].
  specialize (Hx eq_refl). assert (Hdone : spoken w true (set_proc p1 w1)) by 
    (split; [done|intros _; by apply (speaks_same w1)]).
  destruct omit; [by apply wrp_ret|].
  assert (Hm : forall m, wrp m (spoken (set_proc p1 w1)) (set_proc p1 w1) -> wrp m (spoken w) (set_proc p1 w1)).
  { intros m Hw. eapply wrp_mono; [exact Hw|]. intros ok w' [Hi' Hx']. split; [by eapply same_in_trans|done]. }
  assert (Hs1 : speaks (set_proc p1 w1)) by apply Hdone, eq_refl.
  unfold send_body. destruct (body_kind r).
  - by apply wrp_ret.
  - destruct (_ =? 0); [by apply wrp_ret|]. destruct (rsp_body r); [|by apply wrp_ret].
    by apply Hm, wrp_send_all_speaks.
  - destruct (rsp_file_fd r); [|by apply wrp_ret]. by apply Hm, wrp_send_file_body.
Qed.

(** ** The handler *)

Lemma wrp_on_world {A} (m : M world A) (Q : A -> session -> Prop) s :
  wrp m (fun a w => Q a (set_world w s)) (ss_world s) -> wrp (on_world m) Q s.
Proof. unfold wrp, on_world. by destruct (m (ss_world s)). Qed.

(** Calls that leave the scripts alone. *)
Definition quiet {A} (m : M session A) : Prop := forall s a s', m s = Done a s' ->
  same_in (ss_world s) (ss_world s') /\ same_out (ss_world s) (ss_world s').

Lemma wrp_quiet {A} (m : M session A) (Q : A -> session -> Prop) s : Returns m -> quiet m ->
  (forall a s', m s = Done a s' -> same_in (ss_world s) (ss_world s') ->
     same_out (ss_world s) (ss_world s') -> Q a s') -> wrp m Q s.
Proof.
  intros Hm Hq HQ. unfold wrp. specialize (Hm s). specialize (Hq s). specialize (HQ).
  destruct (m s) as [a s'| |] eqn:E; [|done..]. destruct (Hq a s' eq_refl). by apply HQ.
Qed.

Lemma quiet_ret {A} (a : A) : quiet (mret a).
Proof. by intros s a' s' [= <- <-]. Qed.

Lemma quiet_bind {A B} (m : M session A) (k : A -> M session B) :
  quiet m -> (forall a, quiet (k a)) -> quiet (mbind k m).
Proof.
  intros Hm Hk s b s'. unfold mbind, M_bind. destruct (m s) as [a s1| |] eqn:E; [|done..].
  intros Hs. destruct (Hm _ _ _ E), (Hk _ _ _ _ Hs). split; [by eapply same_in_trans|by eapply same_out_trans].
Qed.

Lemma quiet_on_proc {A} (m : M proc A) : quiet (on_proc m).
Proof.
  intros s a s'. unfold on_proc, on_world, lift. by destruct (m _); intros [= <- <-].
Qed.

Lemma quiet_report e : quiet (report e).
Proof. by intros s a s' [= <- <-]. Qed.

Lemma quiet_read_counters : quiet read_counters.
Proof. by intros s a s' [= <- <-]. Qed.

Lemma quiet_log e : quiet (log e).
Proof. by intros s a s' [= <- <-]. Qed.

Lemma quiet_peer_gone : quiet peer_gone.
Proof. by intros s a s' [= <- <-]. Qed.

Lemma quiet_log_worker id n : quiet (log_worker id n).
Proof. unfold log_worker. destruct (_ <=? _); [apply quiet_log|apply quiet_ret]. Qed.

Ltac quiet :=
  repeat match goal with
  | |- quiet (mret _) => apply quiet_ret
  | |- quiet (mbind _ _) => apply quiet_bind; [|intros ?]
  | |- quiet (on_proc _) => apply quiet_on_proc
  | |- quiet (report _) => apply quiet_report
  | |- quiet read_counters => apply quiet_read_counters
  | |- quiet (log _) => apply quiet_log
  | |- quiet (log_worker _ _) => apply quiet_log_worker
  | |- quiet peer_gone => apply quiet_peer_gone
  | |- quiet (let _ := _ in _) => cbv zeta
  | |- quiet (match ?x with _ => _ end) => destruct x
  end.

Section handler.
  Context `{FileSystem} (config : server_config_t) (client_fd : nat) (worker_id : Z).

Lemma quiet_refuse code : quiet (refuse_message config code).
Proof. unfold refuse_message. quiet. Qed.

Lemma quiet_answer raw : quiet (answer_message config raw).
Proof. unfold answer_message, dispatch, handle_static_get_head. quiet. Qed.

Lemma quiet_announce r p f v : quiet (announce r p f v).
Proof. unfold announce. quiet. Qed.

Lemma quiet_abandon raw : quiet (abandon raw).
Proof. unfold abandon. quiet. Qed.

(** What follows [send_one]: when the connection goes on, it can. *)
Definition went (s : session) (n : Z) (stop : bool) (s' : session) : Prop :=
  same_in (ss_world s) (ss_world s') /\
  (stop = false -> speaks (ss_world s') /\ n < HTTP_MAX_REQUESTS_PER_CONNECTION).

(** A note changes nothing that matters here. *)
Lemma wrp_note {A} (m : M session ()) (k : M session A) Q s : Returns m -> quiet m ->
  (forall s', same_in (ss_world s) (ss_world s') -> same_out (ss_world s) (ss_world s') -> wrp k Q s') ->
  wrp (m;; k) Q s.
Proof. intros Hm Hq Hk. apply wrp_bind, wrp_quiet; [done|done|]. intros _ s' _. apply Hk. Qed.

Lemma wrp_transmit t ka fc s : speaks (ss_world s) ->
  wrp (transmit client_fd worker_id t ka fc) (fun '(fc', _) s' => same_in (ss_world s) (ss_world s') /\
    (fc' = false -> speaks (ss_world s'))) s.
Proof.
  intros Hs. unfold transmit. destruct (_ && _); [|by apply wrp_ret]. cbv zeta. apply wrp_bind, wrp_quiet;
    [apply _|apply quiet_announce|]. intros [fc1 r1] s0 _ Hi0 Ho0. apply wrp_note; [apply _|apply quiet_log|].
  intros s1 Hi1 Ho1. apply wrp_bind, wrp_on_world.
  eapply wrp_mono; [apply wrp_response_send; apply (speaks_same (ss_world s)); [by eapply same_out_trans|done]|].
  intros ok w2 [Hi2 Hx].
  assert (Hi : same_in (ss_world s) w2) by by do 2 (eapply same_in_trans; [done|]).
  destruct ok; cbn [negb].
  - apply wrp_bind. unfold wrp at 1, report. apply wrp_ret. split; [done|]. intros _. by apply Hx.
  - apply wrp_bind. unfold wrp at 1, peer_gone. apply wrp_note; [returns|quiet|]. intros s4 Hi4 Ho4.
    apply wrp_ret. split; [|done]. by eapply same_in_trans.
Qed.

Lemma wrp_send_one t n raw s : speaks (ss_world s) -> wrp (send_one client_fd worker_id t n raw) (went s n) s.
Proof.
  intros Hs. unfold send_one. cbv zeta. apply wrp_note; [returns|quiet|]. intros s0 Hi0 Ho0.
  apply wrp_bind. eapply wrp_mono; [apply wrp_transmit; by eapply speaks_same|].
  intros [fc r] s1 [Hi1 Hx]. apply wrp_bind, wrp_quiet; [apply _|apply quiet_on_proc|]. intros r2 s2 _ Hi2 Ho2.
  apply wrp_bind, wrp_quiet; [apply _|apply quiet_on_proc|]. intros r3 s3 _ Hi3 Ho3.
  apply wrp_note; [apply _|apply quiet_on_proc|]. intros s4 Hi4 Ho4.
  apply wrp_note; [returns|quiet|]. intros s5 Hi5 Ho5. apply wrp_ret. split.
  - by do 5 (eapply same_in_trans; [done|]).
  - intros [Hfc Hk]%orb_false_iff. apply negb_false_iff, andb_true_iff in Hk as [_ Hl].
    apply negb_true_iff, Z.leb_gt in Hl. split; [|done].
    eapply speaks_same; [|by apply Hx]. by do 3 (eapply same_out_trans; [done|]).
Qed.

(** A turn that is not ready, or that closes, ends the connection. *)
Lemma transmit_closes t ka fc s fc' r s' : (tn_ready t = true -> fc = true) ->
  transmit client_fd worker_id t ka fc s = Done (fc', r) s' -> fc' = true.
Proof.
  intros Hr. unfold transmit. destruct (tn_ready t); [|by intros [= <-]]. rewrite (Hr eq_refl).
  destruct (_ && _); [|by intros [= <-]]. cbv zeta. intros Ht.
  apply bind_done in Ht as ([fc1 r1] & s1 & Ha & Ht).
  assert (fc1 = true) as ->.
  { unfold announce in Ha. apply bind_done in Ha as ([ok r0] & s0 & _ & Ha). destruct ok; [by injection Ha|].
    by apply bind_done in Ha as ([? ?] & ? & _ & [= <- _ _]). }
  apply bind_done in Ht as (_ & s2 & _ & Ht). apply bind_done in Ht as (ok & s3 & _ & Ht).
  destruct ok; [by apply bind_done in Ht as (? & ? & _ & [= <- _ _])|].
  apply bind_done in Ht as (g & s4 & _ & Ht). by apply bind_done in Ht as (? & ? & _ & [= <- _ _]).
Qed.

Lemma send_one_closes t n raw s stop s' : (tn_ready t = true -> tn_force_close t = true) ->
  send_one client_fd worker_id t n raw s = Done stop s' -> stop = true.
Proof.
  intros Hfc Hs. unfold send_one in Hs. cbv zeta in Hs. apply bind_done in Hs as (_ & s0 & _ & Hs).
  apply bind_done in Hs as ([fc r] & s1 & Ht & Hs). apply transmit_closes in Ht as ->.
  2: { intros Hr. by rewrite (Hfc Hr). }
  do 4 apply bind_done in Hs as (? & ? & _ & Hs). by injection Hs as <-.
Qed.

Lemma refuse_closes code s t s' : refuse_message config code s = Done t s' ->
  tn_ready t = true -> tn_force_close t = true.
Proof.
  unfold refuse_message, mbind, M_bind. destruct (on_proc _ s) as [[status r] s1| |]; [|done..].
  by intros [= <- _].
Qed.

(** A round whose message was refused ends the connection. *)
Lemma wrp_refused code raw n r (again : M session http_reader_t) s : speaks (ss_world s) ->
  wrp (t ← refuse_message config code; stop ← send_one client_fd worker_id t n raw;
       if (stop : bool) then mret r else again) (fun _ _ => True) s.
Proof.
  intros Hs. apply wrp_bind, wrp_quiet; [apply _|apply quiet_refuse|]. intros t s1 Ht _ Ho.
  assert (Hs1 : speaks (ss_world s1)) by by eapply speaks_same.
  apply wrp_bind. pose proof (wrp_send_one t n raw s1 Hs1) as Hw. revert Hw. unfold wrp at 1 2.
  destruct (send_one _ _ t n raw s1) as [stop s2| |] eqn:E; [|done..]. intros _.
  apply send_one_closes in E as ->; [done|by eapply refuse_closes].
Qed.

Lemma wrp_abandon raw (r : http_reader_t) s : wrp (abandon raw;; mret r) (fun _ _ => True) s.
Proof. apply wrp_bind, wrp_quiet; [apply _|apply quiet_abandon|]. by intros. Qed.

Lemma wrp_abandon_noted note raw (r : http_reader_t) s :
  wrp (log_worker worker_id note;; abandon raw;; mret r) (fun _ _ => True) s.
Proof. apply wrp_note; [apply _|apply quiet_log_worker|]. intros s' _ _. apply wrp_abandon. Qed.

Lemma wrp_connection_loop : forall fuel reader n s,
  HTTP_MAX_REQUESTS_PER_CONNECTION - n <= Z.of_nat fuel -> n < HTTP_MAX_REQUESTS_PER_CONNECTION ->
  capacity_ok reader -> hears (ss_world s) -> speaks (ss_world s) ->
  wrp (connection_loop config client_fd worker_id fuel reader n) (fun _ _ => True) s.
Proof.
  induction fuel as [|fuel IH]; intros reader n s Hf Hn Hc Hh Hs; [lia|]. cbn [connection_loop]. cbv zeta.
  apply wrp_bind, wrp_on_world. eapply wrp_mono; [by apply wrp_next_request|].
  intros [[rc r1] raw] w1 (Ho & Hc1 & Hh1).
  assert (Hs1 : speaks (ss_world (set_world w1 s))) by by eapply speaks_same.
  destruct rc; try by apply wrp_refused.
  - specialize (Hh1 eq_refl). destruct raw as [c|]; [|done].
    apply wrp_bind, wrp_quiet; [apply _|apply quiet_answer|]. intros t s2 _ Hi2 Ho2.
    apply wrp_bind. eapply wrp_mono; [apply wrp_send_one; by eapply speaks_same|].
    intros stop s3 [Hi3 Hx]. destruct stop; [done|]. destruct (Hx eq_refl) as [Hs3 Hlt].
    apply IH; [lia|lia|done| |done].
    eapply hears_same; [|exact Hh1]. by eapply same_in_trans.
  - apply wrp_abandon_noted.
  - destruct (_ && _); [apply wrp_abandon_noted|by apply wrp_refused].
  - apply wrp_abandon.
Qed.

Lemma wrp_client_handle s : hears (ss_world s) -> speaks (ss_world s) ->
  wrp (client_handle config client_fd worker_id) (fun _ _ => True) s.
Proof.
  intros Hh Hs. unfold client_handle. apply wrp_note; [apply _|apply quiet_log_worker|].
  intros s0 Hi0 Ho0. apply wrp_bind, wrp_quiet; [apply _| |].
  { intros s1 a s2. unfold set_recv_timeout. destruct (ss_setsockopt_ok s1); by intros [= <- <-]. }
  intros _ s1 _ Hi Ho. apply wrp_bind.
  eapply wrp_mono; [apply wrp_connection_loop|].
  1,2: unfold HTTP_MAX_REQUESTS_PER_CONNECTION; lia.
  { unfold capacity_ok. simpl. by vm_compute. }
  { eapply hears_same; [|exact Hh]. by eapply same_in_trans. }
  { eapply speaks_same; [|exact Hs]. by eapply same_out_trans. }
  intros r s2 _. apply wrp_bind, wrp_quiet; [apply _|apply quiet_on_proc|].
  intros _ s3 _ _ _. apply wrp_bind, wrp_quiet; [apply _|apply quiet_on_proc|]. by intros.
Qed.
End handler.

(** C1. Total correctness of a connection.  When [poll], [recv], [send], [sendfile] and
    [read] each give up eventually (a timeout, the end of the stream, an error
    that is not an interruption), [client_handle] returns; then it has freed
    every block, closed every file and its socket, and its whole exchange with
    the peer is a conversation, reported to the counters as it was: messages are
    taken from the stream in order, each gets the reply it deserves with its
    connection policy, and the connection goes on exactly when it may.  Every
    other course has its reason among the answers taken during the call: it ends
    in silence only if the stream ended or failed within a message, or nothing
    came in the time between requests, or the clock failed; a stream is refused
    only for what its bytes are, for a wait or a deadline that ran out within a
    message, or for memory; a reply is cut short only if a call that sends it
    failed, or memory, or a file shorter than it was. *)
Theorem client_handle_total `{FileSystem} config client_fd worker_id s :
  (forall k, counters_in_range (ss_counters s k)) -> client_fd ∈ p_fds (sp s) ->
  hears (ss_world s) -> speaks (ss_world s) ->
  wp (client_handle config client_fd worker_id) (fun _ s' => handle_post config client_fd s s') s.
Proof.
  intros Hc Hfd Hh Hs. eapply wrp_wlp; [by apply wrp_client_handle|by apply wlp_client_handle].
Qed.

(** The session of HandlerProps.v with a peer that goes away in the end. *)
Definition attended_session : session :=
  set_world
    {| w_proc := sp sample_session; w_clock := fun _ => Some (Timespec 0 0); w_ticks := 0;
       w_poll := repeat (PollReady false true) 5 ++ [PollTimeout];
       w_recv := w_recv (ss_world sample_session);
       w_send := repeat (SendCount 100) 20 ++ [SendError EPIPE];
       w_received := []; w_sent := []; w_polled := [];
       w_file := {| f_content := fun _ => []; f_position := fun _ => 0%nat; f_sendfile := [SendCount 0];
                    f_read := [inr 0%nat]; f_lseek_ok := true |} |} sample_session.

Lemma client_handle_total_witness :
  wp (@client_handle site sample_config 7 0)
    (fun _ s' => @handle_post site sample_config 7 attended_session s') attended_session.
Proof.
  apply (@client_handle_total site sample_config 7 0 attended_session).
  - intros k. apply zero_in_range.
  - by apply (bool_decide_unpack _).
  - split; simpl; repeat first [by constructor 1|constructor 2].
  - split; simpl; repeat first [by constructor 1|constructor 2].
Defined.
