(* ===== verification/HandlerLog.v ===== *)
(** * What a connection logs

    The calls of the logger that [client_handle] makes, against the events it
    reports, and the lines they become among those of the other threads. *)
From S2P Require Import Prelude CLib Proc Request Parser World Response Stats Config StaticFiles StaticServe.
From S2P Require Import RouterCorrect RequestType Logger LogLines ClientHandler HandlerCorrect HandlerSend.
From S2P Require Import Conversation HandlerLoop HandlerProps.

(** C37. The log of a connection.  Whatever the peer sends, the answers that
    [client_handle] logs are, in order and with their statuses, the responses it
    counts, but that the last one may be logged and then not sent.  However the other
    threads log in between, a call being one step as LoggerThreads.v shows, the log gets one line per entry that is meant to be
    written, with the entry's text and without a line feed of its own: what a client
    sends cannot break or forge a line. *)
Theorem client_handle_logged `{FileSystem} config client_fd worker_id s :
  (forall k, counters_in_range (ss_counters s k)) -> client_fd ∈ p_fds (sp s) ->
  wlp (client_handle config client_fd worker_id) (fun _ s' => exists es evs,
    ss_log s' = ss_log s ++ es /\ ss_events s' = ss_events s ++ evs ++ [EvFinished] /\
    accounted (answered es) evs /\
    forall all lg, Forall (fun e => e ∈ es \/ entry_ok e) all -> lg_ready lg = true ->
      let lines := map entry_line (List.filter (entry_written config) all) in
      log_entries config all lg = Some (Logger true (lg_stderr lg ++ concat (map (fun l => l ++ [LF]) lines))) /\
      Forall (fun l => LF ∉ l) lines) s.
Proof.
  intros Hc Hfd. eapply wlp_mono; [by apply wlp_client_handle|].
  intros _ s' (_ & _ & rcv & snt & evs & _ & _ & He & _ & sts & (es & Hl & Hok & <-) & Hacc).
  exists es, evs. split_and!; [done|done|done|]. intros all lg Hall Hr. apply log_entries_lines; [|done].
  rewrite Forall_forall in Hok. eapply Forall_impl; [exact Hall|]. intros e [Hin|He']; [by apply Hok|done].
Qed.

Lemma client_handle_logged_witness :
  wlp (@client_handle site sample_config 7 0) (fun _ s' => exists es evs,
    ss_log s' = [] ++ es /\ ss_events s' = [] ++ evs ++ [EvFinished] /\
    accounted (answered es) evs /\
    forall all lg, Forall (fun e => e ∈ es \/ entry_ok e) all -> lg_ready lg = true ->
      let lines := map entry_line (List.filter (entry_written sample_config) all) in
      log_entries sample_config all lg =
        Some (Logger true (lg_stderr lg ++ concat (map (fun l => l ++ [LF]) lines))) /\
      Forall (fun l => LF ∉ l) lines) sample_session.
Proof.
  apply (@client_handle_logged site sample_config 7 0 sample_session).
  - intros k. apply zero_in_range.
  - by apply (bool_decide_unpack _).
Defined.

(** The log of the run of HandlerProps.v, by worker 0 on descriptor 7. *)
Definition run_lines (o : outcome session ()) : list (list byte) :=
  match o with Done _ s' => map entry_line (ss_log s') | _ => [] end.

Example sample_run_log : run_lines (@client_handle site sample_config 7 0 sample_session) =
  [lit "[verbose] worker 0 handling fd 7";
   lit "[verbose] GET /api/health -> 200";
   lit "[verbose] HEAD /a.txt -> 200 (file, 5 bytes)"].
Proof. vm_compute. reflexivity. Qed.
