(* ===== verification/ThreadPool.v ===== *)
(** * Workers and start-up: thread_pool.h, thread_pool.c and the first and last
    parts of server_run in server.c

    Allocation of the pool, creation of the workers with their failures, and the
    reverse clean-up of [server_run].  The queue and the workers in operation are
    in Server.v. *)
From S2P Require Import Prelude CLib Proc Stats Config ResponseCorrect ConnectionQueue.

(** [tp_threads] is the block of the handle array; queue, configuration and
    counters are borrowed. *)
Record thread_pool_t := Pool {
  tp_threads : option nat;
  tp_worker_count : nat;
  tp_started_count : nat;
}.

Definition zero_pool : thread_pool_t := Pool None 0 0.

Definition thread_pool_init (worker_count : nat) : M proc (bool * thread_pool_t) :=
  if (worker_count =? 0)%nat then mret (false, zero_pool)
  else
    threads ← malloc;
    match threads with
    | None => mret (false, zero_pool)
    | Some b => mret (true, Pool (Some b) worker_count 0)
    end.

(** The loop of [thread_pool_start]: one [worker_arg_t] per thread, which the
    thread frees.  [create_ok i]: does [pthread_create] succeed for worker [i]?
    The result lists the arguments of the workers started. *)
Fixpoint start_workers (create_ok : nat -> bool) (n i : nat) (wargs : list nat)
  : M proc (bool * list nat) :=
  match n with
  | O => mret (true, wargs)
  | S n =>
      warg ← malloc;
      match warg with
      | None => mret (false, wargs)
      | Some b =>
          if create_ok i then start_workers create_ok n (S i) (wargs ++ [b])
          else free (Some b);; mret (false, wargs)
      end
  end.

(** [worker_main] up to its loop. *)
Definition worker_enter (warg : nat) : M proc () := free (Some warg).

Fixpoint enter_all (wargs : list nat) : M proc () :=
  match wargs with [] => mret () | b :: wargs => worker_enter b;; enter_all wargs end.

(** On a partial failure the queue is shut and the workers started so far are
    joined: they have entered, and found the queue shut and empty. *)
Definition thread_pool_start (create_ok : nat -> bool) (pool : thread_pool_t) (q : connection_queue_t)
  : M proc (bool * thread_pool_t * connection_queue_t * list nat) :=
  match tp_threads pool with
  | None => mret (false, pool, q, [])
  | Some _ =>
      '(ok, wargs) ← start_workers create_ok (tp_worker_count pool) 0 [];
      if (ok : bool) then
        mret (true, Pool (tp_threads pool) (tp_worker_count pool) (length wargs), q, wargs)
      else
        enter_all wargs;;
        mret (false, Pool (tp_threads pool) (tp_worker_count pool) 0, connection_queue_shutdown q, [])
  end.

Definition thread_pool_join (pool : thread_pool_t) : thread_pool_t :=
  match tp_threads pool with
  | None => pool
  | Some _ => Pool (tp_threads pool) (tp_worker_count pool) 0
  end.

Definition thread_pool_destroy (pool : thread_pool_t) : M proc thread_pool_t :=
  free (tp_threads pool);;
  mret (Pool None 0 (tp_started_count pool)).

(** ** server_run: start-up and clean-up *)

(** The flags and objects of [server_run]. *)
Record server_t := Server {
  sv_logger_ready : bool;
  sv_stats_ready : bool;
  sv_queue_ready : bool;
  sv_pool_ready : bool;
  sv_workers_running : bool;
  sv_stats : server_stats_t;
  sv_queue : connection_queue_t;
  sv_pool : thread_pool_t;
}.

(** The label [cleanup]; the join has nothing to wait for unless workers run,
    which Server.v covers. *)
Definition server_cleanup (s : server_t) : M proc server_t :=
  let stop := sv_workers_running s || (sv_pool_ready s && sv_queue_ready s) in
  let queue := if stop && sv_queue_ready s then connection_queue_shutdown (sv_queue s) else sv_queue s in
  let pool := if stop && sv_pool_ready s then thread_pool_join (sv_pool s) else sv_pool s in
  pool ← (if sv_pool_ready s then thread_pool_destroy pool else mret pool);
  queue ← (if sv_queue_ready s then connection_queue_destroy queue else mret queue);
  let stats := if sv_stats_ready s then server_stats_destroy (sv_stats s) else sv_stats s in
  mret (Server false false false false
          (sv_workers_running s && negb (stop && sv_pool_ready s)) stats queue pool).

(** What the environment answers during start-up. *)
Record startup := Startup {
  su_logger_ok : bool;
  su_stats_ok : bool;
  su_mutex_ok : bool;
  su_not_empty_ok : bool;
  su_not_full_ok : bool;
  su_create_ok : nat -> bool;
}.

(** Up to the accept loop: [inr] the objects and the arguments of the workers, or
    [inl] after clean-up. *)
Definition server_start (e : startup) (config : server_config_t)
  : M proc (() + server_t * list nat) :=
  let s0 := Server false false false false false (zero_stats false) zero_queue zero_pool in
  if negb (su_logger_ok e) then server_cleanup s0;; mret (inl ())
  else
    let '(stats_ok, stats) := server_stats_init (su_stats_ok e) in
    if negb stats_ok
    then server_cleanup (Server true false false false false stats zero_queue zero_pool);; mret (inl ())
    else
      '(queue_ok, queue) ← connection_queue_init (su_mutex_ok e) (su_not_empty_ok e) (su_not_full_ok e)
                             (Z.to_nat (queue_capacity config));
      if negb queue_ok
      then server_cleanup (Server true true false false false stats queue zero_pool);; mret (inl ())
      else
        '(pool_ok, pool) ← thread_pool_init (Z.to_nat (worker_count config));
        if negb pool_ok
        then server_cleanup (Server true true true false false stats queue pool);; mret (inl ())
        else
          '(started, pool, queue, wargs) ← thread_pool_start (su_create_ok e) pool queue;
          if negb started
          then server_cleanup (Server true true true true false stats queue pool);; mret (inl ())
          else mret (inr (Server true true true true true stats queue pool, wargs)).

(** ** The listening socket *)

(** [server_create_listening_socket]; the flags tell which calls succeed. *)
Definition server_create_listening_socket (socket_ok reuse_ok bind_ok listen_ok : bool)
  : M proc (option nat) :=
  if negb socket_ok then mret None
  else
    listen_fd ← fd_open;
    if negb reuse_ok then close listen_fd;; mret None
    else if negb bind_ok then close listen_fd;; mret None
    else if negb listen_ok then close listen_fd;; mret None
    else mret (Some listen_fd).

Definition server_close_listening_socket (listen_fd : option nat) : M proc () :=
  match listen_fd with Some fd => close fd | None => mret () end.

(** ** Lemmas *)

Lemma wp_enter_all wargs : forall p, list_to_set_disj wargs ⊆ p_live p ->
  wp (enter_all wargs) (fun _ p' => heap_only p p' /\ p_live p = p_live p' ⊎ list_to_set_disj wargs) p.
Proof.
  induction wargs as [|b wargs IH]; intros p Hin; simpl in *.
  { apply wp_ret. split; [reflexivity|multiset_solver]. }
  apply wp_bind. eapply wp_mono; [apply (wp_free (Some b)); simpl; multiset_solver|].
  intros _ p1 [Hho1 Hl1]. simpl in Hl1. eapply wp_mono; [apply IH; multiset_solver|].
  intros _ p2 [Hho2 Hl2]. split; [by etrans|multiset_solver].
Qed.

Lemma wp_start_workers create_ok : forall n i wargs p,
  wp (start_workers create_ok n i wargs) (fun '(ok, wargs') p' => heap_only p p' /\
    p_live p' ⊎ list_to_set_disj wargs = p_live p ⊎ list_to_set_disj wargs' /\
    (ok = true -> length wargs' = (length wargs + n)%nat)) p.
Proof.
  induction n as [|n IH]; intros i wargs p; cbn [start_workers].
  { apply wp_ret. split_and!; [reflexivity|done|lia]. }
  apply wp_bind. eapply wp_mono; [apply wp_malloc|]. intros [b|] p1 (Hho1 & Hl1 & _); simpl in Hl1.
  2: { apply wp_ret. split_and!; [done|multiset_solver|done]. }
  destruct (create_ok i).
  - eapply wp_mono; [apply IH|]. intros [ok wargs'] p2 (Hho2 & Hl2 & Hlen).
    rewrite list_to_set_disj_app in Hl2. simpl in Hl2. rewrite length_app in Hlen. simpl in Hlen.
    split_and!; [by etrans|multiset_solver|]. intros Hok. specialize (Hlen Hok). lia.
  - apply wp_bind. eapply wp_mono; [apply (wp_free (Some b)); simpl; multiset_solver|].
    intros _ p2 [Hho2 Hl2]. simpl in Hl2. apply wp_ret. split_and!; [by etrans|multiset_solver|done].
Qed.

(** The pool of a server, as a ledger entry. *)
Lemma wp_cleanup_started s l p :
  sv_queue_ready s = true -> ring (sv_queue s) l -> is_Some (q_block (sv_queue s)) ->
  blk (q_block (sv_queue s)) ⊎ (if sv_pool_ready s then blk (tp_threads (sv_pool s)) else ∅) ⊆ p_live p ->
  list_to_set_disj l ⊆ p_fds p ->
  wp (server_cleanup s) (fun _ p' => advances p p' /\
    p_live p = p_live p' ⊎ blk (q_block (sv_queue s)) ⊎
      (if sv_pool_ready s then blk (tp_threads (sv_pool s)) else ∅) /\
    p_fds p = p_fds p' ⊎ list_to_set_disj l) p.
Proof.
  intros Hq Hr Hb Hin Hfd. unfold server_cleanup. cbv zeta. rewrite Hq, !andb_true_r.
  set (q := if sv_workers_running s || sv_pool_ready s then connection_queue_shutdown (sv_queue s)
            else sv_queue s).
  assert (Hq' : ring q l /\ q_block q = q_block (sv_queue s)).
  { unfold q. destruct (_ || _); [|done]. split; [by apply ring_shutdown|].
    unfold connection_queue_shutdown. by destruct (negb _). }
  destruct Hq' as [Hrq Hbq]. 
  set (pool := if (sv_workers_running s || sv_pool_ready s) && sv_pool_ready s
               then thread_pool_join (sv_pool s) else sv_pool s).
  assert (Hp : tp_threads pool = tp_threads (sv_pool s)).
  { unfold pool, thread_pool_join. by destruct (_ && _), (tp_threads (sv_pool s)) eqn:E. }
  apply wp_bind. apply wp_mono with (Q := fun _ p1 => heap_only p p1 /\
    p_live p = p_live p1 ⊎ (if sv_pool_ready s then blk (tp_threads (sv_pool s)) else ∅)).
  { destruct (sv_pool_ready s); [|apply wp_ret; split; [reflexivity|multiset_solver]].
    unfold thread_pool_destroy. apply wp_bind. rewrite Hp.
    eapply wp_mono; [apply wp_free; multiset_solver|]. intros _ p1 [? ?]. by apply wp_ret. }
  intros pool1 p1 [Hho1 Hl1]. apply wp_bind.
  eapply wp_mono; [apply (destroy_wp q l)|]; [done|by rewrite Hbq|rewrite Hbq; multiset_solver|
    by rewrite (ho_fds _ _ Hho1)|].
  intros q' p2 (_ & Ha2 & Hl2 & Hf2). apply wp_ret. rewrite Hbq in Hl2. rewrite (ho_fds _ _ Hho1) in Hf2.
  split_and!; [etrans; [by apply heap_only_advances|done]|multiset_solver|done].
Qed.

Lemma wp_cleanup_bare s p : sv_queue_ready s = false -> sv_pool_ready s = false ->
  wp (server_cleanup s) (fun _ p' => p' = p) p.
Proof. intros Hq Hp. unfold server_cleanup. rewrite Hq, Hp. by repeat (apply wp_bind, wp_ret || apply wp_ret). Qed.

Lemma wp_pool_init n p :
  wp (thread_pool_init n) (fun '(ok, pool) p' => heap_only p p' /\
    if (ok : bool) then tp_worker_count pool = n /\ is_Some (tp_threads pool) /\
      p_live p' = p_live p ⊎ blk (tp_threads pool)
    else p_live p' = p_live p) p.
Proof.
  unfold thread_pool_init. destruct (n =? 0)%nat; [by apply wp_ret|]. apply wp_bind.
  eapply wp_mono; [apply wp_malloc|]. intros [b|] p' (Hho & Hl & _); simpl in Hl; apply wp_ret.
  - split_and!; eauto.
  - split; [done|]. multiset_solver.
Qed.

Lemma wp_pool_start create_ok pool q p : is_Some (tp_threads pool) ->
  wp (thread_pool_start create_ok pool q) (fun '(ok, pool', q', wargs) p' => heap_only p p' /\
    tp_threads pool' = tp_threads pool /\
    p_live p' = p_live p ⊎ list_to_set_disj wargs /\
    if (ok : bool) then q' = q /\ length wargs = tp_worker_count pool /\
      tp_started_count pool' = tp_worker_count pool
    else q' = connection_queue_shutdown q /\ wargs = []) p.
Proof.
  intros [b Hb]. unfold thread_pool_start. rewrite Hb. apply wp_bind.
  eapply wp_mono; [apply wp_start_workers|]. intros [[] wargs] p1 (Hho1 & Hl1 & Hlen); simpl in Hl1, Hlen.
  - apply wp_ret. specialize (Hlen eq_refl). split_and!; [done|done|multiset_solver|done|done|done].
  - apply wp_bind. eapply wp_mono; [apply wp_enter_all; multiset_solver|]. intros _ p2 [Hho2 Hl2].
    apply wp_ret. split_and!; [by etrans|done|simpl; multiset_solver|done|done].
Qed.

(** Start-up, with what the accept loop relies on. *)
Lemma wp_server_start e config p :
  wp (server_start e config) (fun res p' => p_fds p' = p_fds p /\
    match res with
    | inl _ => p_live p' = p_live p
    | inr (s, wargs) =>
        (p_live p' = p_live p ⊎ blk (q_block (sv_queue s)) ⊎ blk (tp_threads (sv_pool s)) ⊎
           list_to_set_disj wargs /\
         implements (sv_queue s) (Fifo (Z.to_nat (queue_capacity config)) [] false) /\
         length wargs = Z.to_nat (worker_count config) /\
         tp_started_count (sv_pool s) = Z.to_nat (worker_count config)) /\
        heap_only p p' /\ is_Some (q_block (sv_queue s)) /\ sv_stats s = zero_stats true
    end) p.
Proof.
  unfold server_start. cbv zeta. destruct (su_logger_ok e); cbn [negb].
  2: { apply wp_bind. eapply wp_mono; [by apply wp_cleanup_bare|]. intros s' p' ->. by apply wp_ret. }
  unfold server_stats_init. destruct (su_stats_ok e); cbn [negb].
  2: { apply wp_bind. eapply wp_mono; [by apply wp_cleanup_bare|]. intros s' p' ->. by apply wp_ret. }
  apply wp_bind. eapply wp_mono; [apply init_wp|]. intros [[] q] p1 [Hho1 Hq]; cbn [negb].
  2: { apply wp_bind. eapply wp_mono; [by apply wp_cleanup_bare|]. intros s' p' ->. apply wp_ret.
       split; [by apply Hho1|done]. }
  destruct Hq as (Hi & Hb & Hl1). pose proof Hi as (Hring & _).
  apply wp_bind. eapply wp_mono; [apply wp_pool_init|]. intros [[] pool] p2 [Hho2 Hp]; cbn [negb].
  2: { apply wp_bind. eapply wp_mono; [eapply (wp_cleanup_started _ []); [done|done|done| |]|].
    - simpl. rewrite Hp. multiset_solver.
    - simpl. multiset_solver.
    - intros s' p' (_ & Hl & Hf). simpl in Hl, Hf. apply wp_ret. rewrite (ho_fds _ _ Hho2), (ho_fds _ _ Hho1) in Hf.
      split; multiset_solver. }
  destruct Hp as (Hn & Hpb & Hl2). apply wp_bind. eapply wp_mono; [by apply wp_pool_start|].
  intros [[[[] pool'] q'] wargs] p3 (Hho3 & Ht & Hl3 & Hres); cbn [negb].
  - destruct Hres as (-> & Hlen & Hst). apply wp_ret. rewrite Hn in *.
    split; [by rewrite (ho_fds _ _ Hho3), (ho_fds _ _ Hho2), (ho_fds _ _ Hho1)|].
    simpl. rewrite Ht. split; [split_and!; [multiset_solver|done|done|done]|].
    split_and!; [by do 2 (etrans; [done|])|done|done].
  - destruct Hres as [-> ->]. apply wp_bind.
    assert (Hblock : q_block (connection_queue_shutdown q) = q_block q).
    { unfold connection_queue_shutdown. by destruct (negb _). }
    eapply wp_mono; [eapply (wp_cleanup_started _ []); [done|by apply ring_shutdown|by simpl; rewrite Hblock| |]|].
    + simpl. rewrite Hblock, Ht. simpl in Hl3. multiset_solver.
    + simpl. multiset_solver.
    + intros s' p' (_ & Hl & Hf). simpl in Hl, Hf. rewrite Hblock, Ht in Hl. simpl in Hl3. apply wp_ret.
      rewrite (ho_fds _ _ Hho3), (ho_fds _ _ Hho2), (ho_fds _ _ Hho1) in Hf. split; multiset_solver.
Qed.

(** C29. Start-up.  Whichever initializer, allocation or thread creation fails,
    [server_run] gives back everything acquired so far; otherwise the queue is
    empty and open and every worker asked for has been started. *)
Theorem server_start_all_or_nothing e config p :
  wp (server_start e config) (fun res p' => p_fds p' = p_fds p /\
    match res with
    | inl _ => p_live p' = p_live p
    | inr (s, wargs) =>
        p_live p' = p_live p ⊎ blk (q_block (sv_queue s)) ⊎ blk (tp_threads (sv_pool s)) ⊎
          list_to_set_disj wargs /\
        implements (sv_queue s) (Fifo (Z.to_nat (queue_capacity config)) [] false) /\
        length wargs = Z.to_nat (worker_count config) /\
        tp_started_count (sv_pool s) = Z.to_nat (worker_count config)
    end) p.
Proof.
  eapply wp_mono; [apply wp_server_start|]. intros [[]|[s wargs]] p' [Hf Hres]; (split; [done|]); [done|].
  by destruct Hres as [? _].
Qed.

(** The listening socket. *)
Lemma wp_listening_socket socket_ok reuse_ok bind_ok listen_ok p :
  wp (server_create_listening_socket socket_ok reuse_ok bind_ok listen_ok) (fun fd p' =>
    p_live p' = p_live p /\ p_fds p' = p_fds p ⊎ blk fd /\
    (is_Some fd <-> socket_ok && reuse_ok && bind_ok && listen_ok = true)) p.
Proof.
  unfold server_create_listening_socket. destruct socket_ok; cbn [negb andb].
  2: { apply wp_ret. split_and!; [done|simpl; multiset_solver|]. split; [by intros []|done]. }
  apply wp_bind. unfold wp at 1, fd_open. set (p1 := set_fds _ _ p).
  assert (Hclose : wp (close (p_next_fd p);; mret None) (fun (fd : option nat) p' =>
    p_live p' = p_live p /\ p_fds p' = p_fds p ⊎ blk fd /\ (is_Some fd <-> false = true)) p1).
  { apply wp_bind. eapply wp_mono; [apply wp_close; simpl; multiset_solver|].
    intros _ p2 (_ & Hl & Hf). simpl in Hl, Hf. apply wp_ret.
    split_and!; [done|simpl; multiset_solver|]. split; [by intros []|done]. }
  destruct reuse_ok; cbn [negb andb]; [|done]. destruct bind_ok; cbn [negb andb]; [|done].
  destruct listen_ok; cbn [negb andb]; [|done].
  apply wp_ret. split_and!; [done|simpl; multiset_solver|]. split; [done|eauto].
Qed.

(** The listening socket is returned open or, when any call fails, closed. *)
Theorem listening_socket_no_leak socket_ok reuse_ok bind_ok listen_ok p :
  wp (server_create_listening_socket socket_ok reuse_ok bind_ok listen_ok) (fun fd p' =>
    p_live p' = p_live p /\ p_fds p' = p_fds p ⊎ blk fd /\
    (is_Some fd <-> socket_ok && reuse_ok && bind_ok && listen_ok = true)) p.
Proof. apply wp_listening_socket. Qed.
