(* ===== verification/Server.v ===== *)
(** * The server in operation: the accept loop of server.c and the workers of
    thread_pool.c

    A transition system: the accept thread, the workers, the shared queue (the
    ring buffer itself), the shutdown flag, the descriptors and the counters.
    One step is one critical section or one call, so runs are the interleavings
    of the threads.  What a worker does with a connection is an interface. *)
From S2P Require Import Prelude CLib Proc ResponseCorrect Stats ConnectionQueue Logger LogLines.

(** ** The interface of the connection handler *)

(** The events a handler reports between accept and finish. *)
Definition request_event (e : stats_event) : bool :=
  match e with EvRequest | EvResponse _ => true | _ => false end.

(** [handles evs]: on some connection the handler reports [evs], and closes the
    descriptor just before the last of them, which is the finish. *)
Class ConnectionHandler := {
  handles : list stats_event -> Prop;
  handles_some : exists evs, handles evs;
  handles_finish : forall evs, handles evs ->
    exists evs0, evs = evs0 ++ [EvFinished] /\ Forall (fun e => request_event e = true) evs0;
}.

(** ** States *)

(** Where the accept thread is in [server_run]: at the test of the loop, after it,
    in [accept] (and whether a signal interrupted it), in the push, at the close
    of a descriptor that was not taken, at the report of the start, at the
    shutdown of the queue, joining worker [i], and at the end. *)
Inductive accept_pc :=
| ATop
| AChecked
| AAccept (interrupted : bool)
| APush (fd : nat)
| AFailed (fd : nat) (st : connection_queue_status_t)
| AStarted
| ADrain
| AJoin (i : nat)
| ADone.

#[global] Instance accept_pc_eq_dec : EqDecision accept_pc.
Proof. solve_decision. Defined.

(** Where a worker is in [worker_main]: in the pop, in [client_handle] with the
    events still to come, after the close, and at the end. *)
Inductive worker_pc :=
| WPop
| WHandle (fd : nat) (evs : list stats_event)
| WClosed
| WExit (st : connection_queue_status_t).

(** The last fields are a trace: the events, every descriptor accepted, closed, and
    closed by the destruction of the queue, and what the accept thread logged.
    [y_peers k] is the address of the [k]-th connection, and whether it can be
    printed. *)
Record sys := Sys {
  y_accept : accept_pc;
  y_workers : list worker_pc;
  y_queue : connection_queue_t;
  y_flag : bool;            (* g_shutdown_requested *)
  y_proc : proc;
  y_stats : server_stats_t;
  y_events : list stats_event;
  y_accepted : list nat;
  y_closed : list nat;
  y_dropped : list nat;
  y_log : list entry;
  y_peers : nat -> sockaddr_in * bool;
}.

Definition set_accept (a : accept_pc) (y : sys) : sys :=
  Sys a (y_workers y) (y_queue y) (y_flag y) (y_proc y) (y_stats y) (y_events y) (y_accepted y)
    (y_closed y) (y_dropped y) (y_log y) (y_peers y).

Definition set_worker (i : nat) (w : worker_pc) (y : sys) : sys :=
  Sys (y_accept y) (<[i := w]> (y_workers y)) (y_queue y) (y_flag y) (y_proc y) (y_stats y) (y_events y)
    (y_accepted y) (y_closed y) (y_dropped y) (y_log y) (y_peers y).

Definition set_queue (q : connection_queue_t) (y : sys) : sys :=
  Sys (y_accept y) (y_workers y) q (y_flag y) (y_proc y) (y_stats y) (y_events y) (y_accepted y)
    (y_closed y) (y_dropped y) (y_log y) (y_peers y).

Definition raise_flag (y : sys) : sys :=
  Sys (y_accept y) (y_workers y) (y_queue y) true (y_proc y) (y_stats y) (y_events y) (y_accepted y)
    (y_closed y) (y_dropped y) (y_log y) (y_peers y).

Definition tell (e : stats_event) (y : sys) : sys :=
  Sys (y_accept y) (y_workers y) (y_queue y) (y_flag y) (y_proc y) (apply_event (y_stats y) e)
    (y_events y ++ [e]) (y_accepted y) (y_closed y) (y_dropped y) (y_log y) (y_peers y).

Definition opened (fd : nat) (p : proc) (y : sys) : sys :=
  Sys (y_accept y) (y_workers y) (y_queue y) (y_flag y) p (y_stats y) (y_events y)
    (y_accepted y ++ [fd]) (y_closed y) (y_dropped y) (y_log y) (y_peers y).

Definition closed (fds : list nat) (p : proc) (y : sys) : sys :=
  Sys (y_accept y) (y_workers y) (y_queue y) (y_flag y) p (y_stats y) (y_events y) (y_accepted y)
    (y_closed y ++ fds) (y_dropped y) (y_log y) (y_peers y).

Definition dropped (fds : list nat) (y : sys) : sys :=
  Sys (y_accept y) (y_workers y) (y_queue y) (y_flag y) (y_proc y) (y_stats y) (y_events y)
    (y_accepted y) (y_closed y) (y_dropped y ++ fds) (y_log y) (y_peers y).

Definition logged (es : list entry) (y : sys) : sys :=
  Sys (y_accept y) (y_workers y) (y_queue y) (y_flag y) (y_proc y) (y_stats y) (y_events y)
    (y_accepted y) (y_closed y) (y_dropped y) (y_log y ++ es) (y_peers y).

(** The peer of the next connection. *)
Definition next_peer (y : sys) : entry :=
  let '(addr, ntop_ok) := y_peers y (length (y_accepted y)) in Connected addr ntop_ok.

(** The descriptors in the ring, oldest first. *)
Definition queued (q : connection_queue_t) : list nat :=
  omap (fun i => mjoin (q_items q !! ((q_head q + i) mod q_capacity q)%nat)) (seq 0 (q_count q)).

(** ** Steps *)

(** The thread of worker [i] has not been joined. *)
Definition unjoined (a : accept_pc) (i : nat) : Prop :=
  match a with AJoin k => (k <= i)%nat | ADone => False | _ => True end.

Inductive label := LSignal | LArrival | LAcceptError | LInternal.

Section steps.
  Context `{ConnectionHandler}.

Inductive step : label -> sys -> sys -> Prop :=
(** The signal handler, run by the accept thread: the signal interrupts [accept] if
    the thread is in it. *)
| step_signal y : step LSignal y
    (set_accept (match y_accept y with AAccept _ => AAccept true | a => a end) (raise_flag y))
(** The workers do not block the signals: the handler may run in one of them, and
    then nothing interrupts the accept thread. *)
| step_signal_worker y i w : y_workers y !! i = Some w -> unjoined (y_accept y) i ->
    step LSignal y (raise_flag y)
(** [while (!shutdown_was_requested())] *)
| step_check y : y_accept y = ATop ->
    step LInternal y (set_accept (if y_flag y then ADrain else AChecked) y)
| step_enter y : y_accept y = AChecked -> step LInternal y (set_accept (AAccept false) y)
| step_accept y i fd p : y_accept y = AAccept i -> fd_open (y_proc y) = Done fd p ->
    step LArrival y (set_accept (APush fd) (logged [next_peer y] (tell EvAccepted (opened fd p y))))
| step_eintr y : y_accept y = AAccept true -> step LInternal y (set_accept ATop y)
| step_accept_error y i : y_accept y = AAccept i -> step LAcceptError y (set_accept ATop y)
(** [connection_queue_push], when it returns *)
| step_push y fd lock_ok clock_ok wait_ok st q : y_accept y = APush fd ->
    connection_queue_push (y_queue y) (Some fd) (y_flag y) lock_ok clock_ok wait_ok = Return st q ->
    step LInternal y (set_accept (if decide (st = CONNECTION_QUEUE_OK) then AStarted else AFailed fd st)
                        (set_queue q y))
| step_reject y fd st p : y_accept y = AFailed fd st -> close fd (y_proc y) = Done () p ->
    step LInternal y
      (set_accept (if bool_decide (st = CONNECTION_QUEUE_SHUTDOWN) || y_flag y then ADrain else ATop)
         (logged (if bool_decide (st = CONNECTION_QUEUE_SHUTDOWN) || y_flag y then [] else [NotQueued])
            (closed [fd] p y)))
| step_started y : y_accept y = AStarted -> step LInternal y (set_accept ATop (tell EvStarted y))
| step_shutdown y : y_accept y = ADrain ->
    step LInternal y (set_accept (AJoin 0) (set_queue (connection_queue_shutdown (y_queue y)) y))
| step_join y i st : y_accept y = AJoin i -> y_workers y !! i = Some (WExit st) ->
    step LInternal y (set_accept (AJoin (S i)) y)
| step_destroy y q p : y_accept y = AJoin (length (y_workers y)) ->
    connection_queue_destroy (y_queue y) (y_proc y) = Done q p ->
    step LInternal y (set_accept ADone (set_queue q (dropped (queued (y_queue y))
                        (closed (queued (y_queue y)) p y))))
(** The workers *)
| step_pop y i lock_ok wait_ok fd q evs : y_workers y !! i = Some WPop ->
    connection_queue_pop (y_queue y) lock_ok wait_ok = Return (CONNECTION_QUEUE_OK, Some fd) q -> handles evs ->
    step LInternal y (set_worker i (WHandle fd evs) (set_queue q y))
| step_exit y i lock_ok wait_ok st fd q : y_workers y !! i = Some WPop ->
    connection_queue_pop (y_queue y) lock_ok wait_ok = Return (st, fd) q -> st <> CONNECTION_QUEUE_OK ->
    step LInternal y (set_worker i (WExit st) (set_queue q y))
| step_report y i fd e e' evs : y_workers y !! i = Some (WHandle fd (e :: e' :: evs)) ->
    step LInternal y (set_worker i (WHandle fd (e' :: evs)) (tell e y))
| step_close y i fd e p : y_workers y !! i = Some (WHandle fd [e]) -> close fd (y_proc y) = Done () p ->
    step LInternal y (set_worker i WClosed (closed [fd] p y))
| step_finish y i : y_workers y !! i = Some WClosed ->
    step LInternal y (set_worker i WPop (tell EvFinished y)).

(** A server that has started: an open, empty queue and [n] workers. *)
Record initial (y : sys) : Prop := {
  i_accept : y_accept y = ATop;
  i_workers : Forall (fun w => w = WPop) (y_workers y);
  i_queue : exists bound, implements (y_queue y) (Fifo bound [] false);
  i_block : is_Some (q_block (y_queue y)) /\ blk (q_block (y_queue y)) ⊆ p_live (y_proc y);
  i_fds : forall fd, fd ∈ p_fds (y_proc y) -> (fd < p_next_fd (y_proc y))%nat;
  i_stats : y_stats y = zero_stats true;
  i_trace : y_events y = [] /\ y_accepted y = [] /\ y_closed y = [] /\ y_dropped y = [] /\ y_log y = [];
}.

Inductive reachable (y0 : sys) : sys -> Prop :=
| reach_refl : reachable y0 y0
| reach_step l y y' : reachable y0 y -> step l y y' -> reachable y0 y'.
End steps.
