(* ===== verification/ServerCorrect.v ===== *)
(** * Correctness of the server: ownership of the connections

    In every reachable state each open connection has exactly one owner, the
    accept thread, the queue or a worker, and was closed exactly once otherwise. *)
From S2P Require Import Prelude CLib Proc ResponseCorrect Stats ConnectionQueue Server.

(** ** Owners *)

Definition accept_fds (a : accept_pc) : list nat :=
  match a with APush fd | AFailed fd _ => [fd] | _ => [] end.

Definition worker_fds (w : worker_pc) : list nat :=
  match w with WHandle fd _ => [fd] | _ => [] end.

(** The connections the server has: of the accept thread, queued, in progress. *)
Definition owned (y : sys) (f : fifo) : list nat :=
  accept_fds (y_accept y) ++ ff_list f ++ concat (map worker_fds (y_workers y)).

Lemma worker_split {ws : list worker_pc} {i w} w' : ws !! i = Some w ->
  exists l k, ws = l ++ w :: k /\ <[i := w']> ws = l ++ w' :: k.
Proof.
  intros Hw. exists (take i ws), (drop (S i) ws). split; [by rewrite take_drop_middle|].
  rewrite insert_take_drop; [done|]. by eapply lookup_lt_Some.
Qed.

Lemma owned_worker y f i w w' : y_workers y !! i = Some w ->
  worker_fds w ++ owned (set_worker i w' y) f ≡ₚ worker_fds w' ++ owned y f.
Proof.
  intros Hw. destruct (worker_split w' Hw) as (l & k & Hl & Hk).
  unfold owned. simpl. rewrite Hk, Hl, !map_app, !concat_app. simpl. solve_Permutation.
Qed.

(** The queue is in use until it is destroyed. *)
Definition queue_ok (y : sys) (f : fifo) : Prop :=
  match y_accept y with
  | ADone => ff_list f = [] /\ queued (y_queue y) = []
  | _ => implements (y_queue y) f /\ is_Some (q_block (y_queue y)) /\
      blk (q_block (y_queue y)) ⊆ p_live (y_proc y)
  end.

Lemma queue_ok_live y f : y_accept y <> ADone -> queue_ok y f ->
  implements (y_queue y) f /\ is_Some (q_block (y_queue y)) /\
  blk (q_block (y_queue y)) ⊆ p_live (y_proc y).
Proof. unfold queue_ok. by destruct (y_accept y). Qed.

Lemma push_block q fd abort k c w st q' : connection_queue_push q fd abort k c w = Return st q' ->
  q_block q' = q_block q.
Proof. unfold connection_queue_push. repeat case_match; intros; by simplify_eq. Qed.

Lemma pop_block q k w r q' : connection_queue_pop q k w = Return r q' -> q_block q' = q_block q.
Proof. unfold connection_queue_pop. repeat case_match; intros; by simplify_eq. Qed.

Lemma shutdown_block q : q_block (connection_queue_shutdown q) = q_block q.
Proof. unfold connection_queue_shutdown. by destruct (negb _). Qed.

(** The trace list of the ring is the FIFO. *)
Lemma queued_ring q l : ring q l -> queued q = l.
Proof.
  intros [Hc Hi Hh Hn Hb Ht He]. unfold queued. rewrite Hn. clear Hn Ht.
  assert (Hg : forall k l', (forall i fd, l' !! i = Some fd -> l !! (k + i)%nat = Some fd) ->
    omap (fun i => mjoin (q_items q !! ((q_head q + i) mod q_capacity q)%nat)) (seq k (length l')) = l').
  { intros k l'. revert k. induction l' as [|x l' IH]; intros k Hl; [done|]. cbn [length seq].
    cbn [omap list_omap]. pose proof (Hl 0%nat x eq_refl) as Hx. rewrite Nat.add_0_r in Hx.
    rewrite (He _ _ Hx). simpl. f_equal. apply IH. intros i fd Hfd. rewrite <- (Hl (S i) fd Hfd). f_equal. lia. }
  apply (Hg 0%nat l). auto.
Qed.

(** ** What closing does *)

Lemma close_fds fd p p' : close fd p = Done () p' ->
  p_fds p = p_fds p' ⊎ {[+ fd +]} /\ p_live p' = p_live p /\ p_next_fd p' = p_next_fd p.
Proof. unfold close. destruct (decide (fd ∈ p_fds p)); intros [= <-]. simpl. split; [multiset_solver|done]. Qed.

Lemma close_entries_next : forall n i q p x p', close_entries n i q p = Done x p' -> p_next_fd p' = p_next_fd p.
Proof.
  induction n as [|n IH]; intros i q p x p'; [by intros [= _ <-]|]. cbn [close_entries].
  destruct (q_items q !! _) as [[fd|]|]; [|by apply IH..].
  unfold mbind, M_bind. destruct (close fd p) as [[] p1| |] eqn:Ec; [|done..]. intros Hr.
  apply IH in Hr. apply close_fds in Ec as (_ & _ & Hn). congruence.
Qed.

Lemma destroy_next q p q' p' : connection_queue_destroy q p = Done q' p' ->
  q' = zero_queue /\ p_next_fd p' = p_next_fd p.
Proof.
  unfold connection_queue_destroy, mbind, M_bind.
  destruct ((match q_block q with
             | Some _ => if (0 <? q_count q)%nat then close_entries (q_count q) 0 q else mret (q_items q)
             | None => mret (q_items q)
             end : M proc (list (option nat))) p) as [x p1| |] eqn:E; [|done..].
  assert (Hn : p_next_fd p1 = p_next_fd p).
  { destruct (q_block q); [destruct (_ <? _)%nat; [by eapply close_entries_next|]|]; by injection E as _ <-. }
  destruct (free (q_block q) p1) as [[] p2| |] eqn:Ef; [|done..]. intros [= <- <-]. split; [done|]. rewrite <- Hn.
  destruct (q_block q) as [b|]; simpl in Ef; [|by injection Ef as <-].
  unfold free_block in Ef. destruct (decide _); [|done]. by injection Ef as <-.
Qed.

(** ** The invariant *)

Section ownership.
  Context `{ConnectionHandler} (y0 : sys) (Hinit : initial y0).

Record own (y : sys) (f : fifo) : Prop := {
  o_queue : queue_ok y f;
  o_fds : p_fds (y_proc y) = p_fds (y_proc y0) ⊎ list_to_set_disj (owned y f);
  o_accepted : y_accepted y ≡ₚ y_closed y ++ owned y f;
  o_nodup : NoDup (y_accepted y);
  o_fresh : Forall (fun fd => p_next_fd (y_proc y0) <= fd < p_next_fd (y_proc y))%nat (y_accepted y);
  o_next : (p_next_fd (y_proc y0) <= p_next_fd (y_proc y))%nat;
}.

(** The connections only change hands. *)
Lemma own_move y f y' f' : own y f -> queue_ok y' f' -> owned y' f' ≡ₚ owned y f ->
  y_proc y' = y_proc y -> y_accepted y' = y_accepted y -> y_closed y' = y_closed y -> own y' f'.
Proof.
  intros [Hq Hf Ha Hn Hfr Hnx] Hq' Hp Hpr Hac Hcl. split; rewrite ?Hpr, ?Hac, ?Hcl; auto.
  - rewrite Hf. by rewrite Hp.
  - by rewrite Hp.
Qed.

(** Some are closed. *)
Lemma own_closed y f y' f' fds : own y f -> queue_ok y' f' -> owned y f ≡ₚ fds ++ owned y' f' ->
  p_fds (y_proc y) = p_fds (y_proc y') ⊎ list_to_set_disj fds ->
  p_next_fd (y_proc y') = p_next_fd (y_proc y) ->
  y_accepted y' = y_accepted y -> y_closed y' = y_closed y ++ fds -> own y' f'.
Proof.
  intros [Hq Hf Ha Hn Hfr Hnx] Hq' Hp Hpr Hnxt Hac Hcl. split; rewrite ?Hac, ?Hcl, ?Hnxt; auto.
  - rewrite Hp, list_to_set_disj_app in Hf. multiset_solver.
  - rewrite Ha, Hp. by rewrite app_assoc.
Qed.

Lemma own_initial : exists f, own y0 f.
Proof.
  destruct Hinit as [Ha Hw [bound Hq] [Hb Hl] _ _ (_ & Hac & Hcl & _)]. exists (Fifo bound [] false).
  assert (Hown : owned y0 (Fifo bound [] false) = []).
  { unfold owned. rewrite Ha. simpl. induction Hw as [|w ws -> _ IH]; [done|]. simpl. done. }
  split; rewrite ?Hown, ?Hac, ?Hcl; simpl; auto.
  - unfold queue_ok. by rewrite Ha.
  - multiset_solver.
  - constructor.
Qed.

(** Steps that leave the queue and the owners alone. *)
Lemma own_same y f a : own y f -> y_accept y <> ADone -> a <> ADone ->
  accept_fds a = accept_fds (y_accept y) -> own (set_accept a y) f.
Proof.
  intros Ho Hnd Ha Hfd. eapply own_move; [done| |by unfold owned; simpl; rewrite Hfd|done..].
  pose proof (queue_ok_live _ _ Hnd (o_queue _ _ Ho)) as Hq. unfold queue_ok. simpl. by destruct a.
Qed.

Lemma queue_ok_worker y f i w : queue_ok y f -> queue_ok (set_worker i w y) f.
Proof. done. Qed.

Lemma own_worker y f i w w' : own y f -> y_workers y !! i = Some w -> worker_fds w = worker_fds w' ->
  own (set_worker i w' y) f.
Proof.
  intros Ho Hw Hfd. eapply own_move; [done|apply Ho| |done..].
  pose proof (owned_worker y f i w w' Hw) as Hp. rewrite Hfd in Hp. by apply Permutation_app_inv_l in Hp.
Qed.

Lemma own_tell y f e : own y f -> own (tell e y) f.
Proof. intros []. by split. Qed.

(** A pop of a queue that was destroyed has no descriptor. *)
Definition own_step_goal (y' : sys) : Prop := exists f', own y' f'.

(** What is logged changes nothing. *)
Lemma own_logged y f es : own y f -> own (logged es y) f.
Proof. intros []. by split. Qed.

Lemma own_push y f fd k c w st q : own y f -> y_accept y = APush fd ->
  connection_queue_push (y_queue y) (Some fd) (y_flag y) k c w = Return st q ->
  own_step_goal (set_accept (if decide (st = CONNECTION_QUEUE_OK) then AStarted else AFailed fd st)
                   (set_queue q y)).
Proof.
  intros Ho Ha Hpush. destruct (queue_ok_live y f) as (Hi & Hb & Hl); [by rewrite Ha|apply Ho|].
  pose proof (push_implements _ _ fd (y_flag y) k c w Hi) as Hp. rewrite Hpush in Hp.
  pose proof (push_block _ _ _ _ _ _ _ _ Hpush) as Hbq.
  destruct (fifo_push _ _ _ _ _) as [[st' f']|] eqn:Ef; [|done]. destruct Hp as [<- Hi'].
  exists f'. eapply own_move; [done| | |done..].
  - unfold queue_ok. simpl. rewrite Hbq. by destruct (decide _).
  - unfold owned. simpl. rewrite Ha. unfold fifo_push in Ef.
    repeat case_match; simplify_eq; simpl; try done. rewrite <- app_assoc. solve_Permutation.
Qed.

Lemma own_pop y f i k wt fd q evs : own y f -> y_accept y <> ADone -> y_workers y !! i = Some WPop ->
  connection_queue_pop (y_queue y) k wt = Return (CONNECTION_QUEUE_OK, Some fd) q ->
  own_step_goal (set_worker i (WHandle fd evs) (set_queue q y)).
Proof.
  intros Ho Hnd Hw Hpop. destruct (queue_ok_live y f) as (Hi & Hb & Hl); [done|apply Ho|].
  pose proof (pop_implements _ _ k wt Hi) as Hp. rewrite Hpop in Hp.
  pose proof (pop_block _ _ _ _ _ Hpop) as Hbq.
  destruct (fifo_pop _ _ _) as [[[st' fd'] f']|] eqn:Ef; [|done]. destruct Hp as (<- & <- & Hi').
  exists f'. eapply own_move; [done| | |done..].
  - unfold queue_ok. simpl. rewrite Hbq. by destruct (y_accept y).
  - unfold fifo_pop in Ef. destruct k; cbn [negb] in Ef; [|done].
    destruct (ff_list f) as [|x l] eqn:El; [by repeat case_match; simplify_eq|].
    injection Ef as <- <-. pose proof (owned_worker (set_queue q y) (Fifo (ff_bound f) l (ff_closed f)) i WPop
      (WHandle x evs) Hw) as Hp. simpl in Hp. rewrite Hp. unfold owned. simpl. rewrite El. solve_Permutation.
Qed.

(** After the end no worker is left. *)
Definition all_exited (y : sys) : Prop :=
  match y_accept y with
  | AJoin i => forall j, (j < i)%nat -> exists st, y_workers y !! j = Some (WExit st)
  | ADone => forall j w, y_workers y !! j = Some w -> exists st, w = WExit st
  | _ => True
  end.

Definition exited (w : worker_pc) : bool := match w with WExit _ => true | _ => false end.

Lemma all_exited_running y i w : all_exited y -> y_workers y !! i = Some w -> exited w = false ->
  y_accept y <> ADone.
Proof.
  intros He Hw Hx Ha. unfold all_exited in He. rewrite Ha in He.
  destruct (He _ _ Hw) as [st ->]. done.
Qed.

Lemma all_exited_worker y i w w' : all_exited y -> y_workers y !! i = Some w -> exited w = false ->
  all_exited (set_worker i w' y).
Proof.
  intros He Hw Hx. pose proof (all_exited_running _ _ _ He Hw Hx) as Hnd. unfold all_exited in *. simpl.
  destruct (y_accept y) as [| | | | | | |k|]; try done. intros j Hj. destruct (He j Hj) as [st Hst]. exists st.
  rewrite list_lookup_insert_ne; [done|]. intros ->. rewrite Hw in Hst. by simplify_eq.
Qed.

Lemma all_exited_step l y y' : step l y y' -> all_exited y -> all_exited y'.
Proof.
  intros Hs He. destruct Hs as [y|y ? ? Hw Hx|y Ha|y Ha|y i fd p Ha _|y Ha|y i Ha|y fd ? c w st q Ha _|y fd st p Ha _|y Ha|
    y Ha|y i st Ha Hw|y q p Ha _|y i ? wt fd q evs Hw _ _|y i ? wt st fd q Hw _ _|y i fd e e' evs Hw|
    y i fd e p Hw _|y i Hw]; try done.
  - unfold all_exited in *. simpl. by destruct (y_accept y).
  - unfold all_exited. simpl. by destruct (y_flag y).
  - unfold all_exited. simpl. by destruct (decide _).
  - unfold all_exited. simpl. by destruct (_ || _).
  - intros j Hj. simpl in Hj. lia.
  - unfold all_exited in *. rewrite Ha in He. simpl. intros j Hj.
    destruct (decide (j = i)) as [->|]; [eauto|]. apply He. lia.
  - unfold all_exited in *. rewrite Ha in He. simpl. intros j w Hw.
    destruct (He j) as [st Hst]; [by eapply lookup_lt_Some|]. rewrite Hw in Hst. simplify_eq. eauto.
  - exact (all_exited_worker (set_queue q y) i _ _ He Hw eq_refl).
  - exact (all_exited_worker (set_queue q y) i _ _ He Hw eq_refl).
  - exact (all_exited_worker (tell e y) i _ _ He Hw eq_refl).
  - exact (all_exited_worker (closed [fd] p y) i _ _ He Hw eq_refl).
  - exact (all_exited_worker (tell EvFinished y) i _ _ He Hw eq_refl).
Qed.

(** A new connection. *)
Lemma own_accept f y i fd p : own y f -> y_accept y = AAccept i -> fd_open (y_proc y) = Done fd p ->
  own (set_accept (APush fd) (tell EvAccepted (opened fd p y))) f.
Proof.
  intros [Hq Hf Ha Hn Hfr Hnx] Hacc [= <- <-]. assert (Hown : forall fd', owned (set_accept (APush fd')
    (tell EvAccepted (opened fd' (set_fds (S (p_next_fd (y_proc y))) ({[+ p_next_fd (y_proc y) +]} ⊎
      p_fds (y_proc y)) (y_proc y)) y))) f = fd' :: owned y f).
  { intros fd'. unfold owned. simpl. by rewrite Hacc. }
  split; rewrite ?Hown; simpl.
  - unfold queue_ok in *. rewrite Hacc in Hq. by simpl.
  - rewrite Hf. multiset_solver.
  - rewrite Ha. solve_Permutation.
  - apply NoDup_app. split_and!; [done| |apply NoDup_singleton]. intros x Hx Hin.
    apply list_elem_of_singleton in Hin as ->. rewrite Forall_forall in Hfr. apply Hfr in Hx. lia.
  - apply Forall_app. split; [|repeat constructor; simpl; lia].
    eapply Forall_impl; [exact Hfr|]. simpl. lia.
  - lia.
Qed.

(** The end: what is still queued is closed. *)
Lemma own_destroy y f q p : own y f -> y_accept y = AJoin (length (y_workers y)) ->
  connection_queue_destroy (y_queue y) (y_proc y) = Done q p ->
  own_step_goal (set_accept ADone (set_queue q (dropped (queued (y_queue y))
    (closed (queued (y_queue y)) p y)))).
Proof.
  intros Ho Ha Hd. destruct (queue_ok_live y f) as (Hi & Hb & Hl); [by rewrite Ha|apply Ho|].
  pose proof Hi as (Hr & _). rewrite (queued_ring _ _ Hr). exists (Fifo (ff_bound f) [] true).
  pose proof (destroy_wp (y_queue y) (ff_list f) (y_proc y) Hr Hb Hl) as Hw. unfold wp in Hw.
  rewrite Hd in Hw. destruct Hw as (_ & _ & _ & Hfds).
  { rewrite (o_fds _ _ Ho). unfold owned. rewrite !list_to_set_disj_app. multiset_solver. }
  destruct (destroy_next _ _ _ _ Hd) as [-> Hnext].
  eapply (own_closed y f _ _ (ff_list f)); try done.
  - unfold owned. simpl. rewrite Ha. done.
Qed.

Lemma own_exit y f i k wt st fd q : own y f -> all_exited y -> y_workers y !! i = Some WPop ->
  connection_queue_pop (y_queue y) k wt = Return (st, fd) q -> st <> CONNECTION_QUEUE_OK ->
  own_step_goal (set_worker i (WExit st) (set_queue q y)).
Proof.
  intros Ho He Hw Hpop Hne. assert (Hq : q = y_queue y).
  { unfold connection_queue_pop in Hpop. repeat case_match; by simplify_eq. }
  exists f. eapply (own_worker (set_queue q y)); [|done|done]. rewrite Hq. by destruct Ho.
Qed.

Lemma own_step l y y' f : step l y y' -> own y f -> all_exited y -> own_step_goal y'.
Proof.
  intros Hs Ho He. destruct Hs as [y|y ? ? Hw Hx|y Ha|y Ha|y i fd p Ha Hop|y Ha|y i Ha|y fd ? c w st q Ha Hp|
    y fd st p Ha Hcl|y Ha|y Ha|y i st Ha Hw|y q p Ha Hd|y i ? wt fd q evs Hw Hp Hev|y i ? wt st fd q Hw Hp Hne|
    y i fd e e' evs Hw|y i fd e p Hw Hcl|y i Hw].
  - exists f. destruct Ho as [Hq Hf Hac Hn Hfr Hnx].
    split; unfold owned, queue_ok in *; simpl in *; by destruct (y_accept y).
  - exists f. by destruct Ho.
  - exists f. apply own_same; [done|by rewrite Ha|by destruct (y_flag y)|rewrite Ha; by destruct (y_flag y)].
  - exists f. apply own_same; [done|by rewrite Ha|done|by rewrite Ha].
  - exists f. pose proof (own_accept f y i fd p Ho Ha Hop) as Hacc.
    exact (own_logged _ f [next_peer y] Hacc).
  - exists f. apply own_same; [done|by rewrite Ha|done|by rewrite Ha].
  - exists f. apply own_same; [done|by rewrite Ha|done|by rewrite Ha].
  - by eapply own_push.
  - exists f. destruct (close_fds _ _ _ Hcl) as (Hf & Hl & Hn). eapply (own_closed y f _ _ [fd]); try done.
    + destruct (queue_ok_live y f) as (? & ? & ?); [by rewrite Ha|apply Ho|]. unfold queue_ok. simpl.
      rewrite Hl. by destruct (_ || _).
    + unfold owned. simpl. rewrite Ha. by destruct (_ || _).
    + simpl. multiset_solver.
  - exists f. apply (own_same (tell EvStarted y)); [by apply own_tell|simpl; by rewrite Ha|done|simpl; by rewrite Ha].
  - destruct (queue_ok_live y f) as (Hi & Hb & Hl); [by rewrite Ha|apply Ho|].
    exists (fifo_close f). eapply own_move; [done| |by unfold owned; simpl; rewrite Ha|done..].
    unfold queue_ok. simpl. rewrite shutdown_block. split; [by apply shutdown_implements|done].
  - exists f. apply own_same; [done|by rewrite Ha|done|by rewrite Ha].
  - by eapply own_destroy.
  - eapply own_pop; try done. by eapply all_exited_running.
  - by eapply own_exit.
  - exists f. eapply (own_worker (tell e y)); [by apply own_tell|done|done].
  - exists f. destruct (close_fds _ _ _ Hcl) as (Hf & Hl & Hn). eapply (own_closed y f _ _ [fd]); try done.
    + pose proof (o_queue _ _ Ho) as Hq. unfold queue_ok in *. simpl. by rewrite Hl.
    + symmetry. apply (owned_worker y f i (WHandle fd [e]) WClosed Hw).
    + simpl. multiset_solver.
  - exists f. eapply (own_worker (tell EvFinished y)); [by apply own_tell|done|done].
Qed.
End ownership.
