(* ===== verification/ServerProps.v ===== *)
(** * The server in operation: counting

    The reports of started and finished connections are as many as the
    connections that entered and left, in every reachable state.  The invariant
    [inv] joins this with the ownership of ServerCorrect.v. *)
From S2P Require Import Prelude CLib Proc ResponseCorrect Stats ConnectionQueue Server ServerCorrect.

(** ** Counting *)

Definition busy (w : worker_pc) : Z := match w with WHandle _ _ | WClosed => 1 | _ => 0 end.

Fixpoint sum_busy (ws : list worker_pc) : Z :=
  match ws with [] => 0 | w :: ws => busy w + sum_busy ws end.

Lemma sum_busy_app l k : sum_busy (l ++ k) = sum_busy l + sum_busy k.
Proof. induction l; simpl; lia. Qed.

Lemma sum_busy_insert ws i w w' : ws !! i = Some w ->
  sum_busy (<[i := w']> ws) = sum_busy ws - busy w + busy w'.
Proof.
  intros Hw. destruct (worker_split w' Hw) as (l & k & -> & ->). rewrite !sum_busy_app. simpl. lia.
Qed.

Definition pending_start (a : accept_pc) : Z := match a with AStarted => 1 | _ => 0 end.

(** What is left of the events of a handler. *)
Definition handler_tail (evs : list stats_event) : Prop :=
  exists evs0, evs = evs0 ++ [EvFinished] /\ Forall (fun e => request_event e = true) evs0.

Definition worker_ok (w : worker_pc) : Prop := match w with WHandle _ evs => handler_tail evs | _ => True end.

(** Every connection that was queued and started is queued, in progress, finished
    or dropped. *)
Record tally (y : sys) : Prop := {
  t_count : count is_started (y_events y) + pending_start (y_accept y) =
    zlen (queued (y_queue y)) + sum_busy (y_workers y) + count is_finished (y_events y) + zlen (y_dropped y);
  t_workers : Forall worker_ok (y_workers y);
  t_stats : y_stats y = run_events (zero_stats true) (y_events y);
  t_drained : forall i, y_workers y !! i = Some (WExit CONNECTION_QUEUE_SHUTDOWN) ->
    queued (y_queue y) = [] /\ y_dropped y = [] /\
    (y_accept y = ADone \/ q_shutting_down (y_queue y) = true);
}.

Lemma run_events_snoc s es e : run_events s (es ++ [e]) = apply_event (run_events s es) e.
Proof. unfold run_events. by rewrite foldl_app. Qed.

Lemma queued_zero : queued zero_queue = [].
Proof. done. Qed.

Lemma queued_implements q f : implements q f -> queued q = ff_list f.
Proof. intros (Hr & _). by apply queued_ring. Qed.

Lemma push_queued q f fd abort k c w st q' : implements q f ->
  connection_queue_push q (Some fd) abort k c w = Return st q' ->
  (st = CONNECTION_QUEUE_OK /\ queued q' = queued q ++ [fd] /\ q_shutting_down q = false) \/
  (st <> CONNECTION_QUEUE_OK /\ q' = q).
Proof.
  intros Hi Hp. pose proof (push_implements _ _ fd abort k c w Hi) as Him. rewrite Hp in Him.
  destruct (fifo_push f fd abort _ _) as [[st' f']|] eqn:Ef; [|done]. destruct Him as [<- Hi'].
  rewrite (queued_implements _ _ Hi), (queued_implements _ _ Hi'). unfold fifo_push in Ef.
  destruct Hi as (_ & _ & Hc & _). unfold connection_queue_push in Hp.
  repeat case_match; simplify_eq; auto; try (right; split; [done|]; done); try congruence.
  all: left; split_and!; try done; by rewrite Hc.
Qed.

Lemma pop_queued q f k wt st fd q' : implements q f -> connection_queue_pop q k wt = Return (st, fd) q' ->
  (exists x, st = CONNECTION_QUEUE_OK /\ fd = Some x /\ queued q = x :: queued q') \/
  (st <> CONNECTION_QUEUE_OK /\ q' = q /\
   (st = CONNECTION_QUEUE_SHUTDOWN -> queued q = [] /\ q_shutting_down q = true)).
Proof.
  intros Hi Hp. pose proof (pop_implements _ _ k wt Hi) as Him. rewrite Hp in Him.
  destruct k; [|unfold connection_queue_pop in Hp; cbn [negb] in Hp; simplify_eq; by right].
  destruct (fifo_pop f _ _) as [[[st' fd'] f']|] eqn:Ef; [|done]. destruct Him as (<- & <- & Hi').
  rewrite (queued_implements _ _ Hi), (queued_implements _ _ Hi'). unfold fifo_pop in Ef. cbn [negb] in Ef.
  pose proof Hi as (Hr & _ & Hc & _). pose proof (rg_count _ _ Hr) as Hn.
  destruct (ff_list f) as [|x l]; [right|left; simplify_eq; eauto].
  unfold connection_queue_pop in Hp. rewrite Hn in Hp. simpl in Hp.
  destruct (ff_closed f); rewrite Hc in Hp; simpl in Hp; [by simplify_eq|].
  destruct (negb wt); by simplify_eq.
Qed.

Section counting.
  Context `{ConnectionHandler} (y0 : sys) (Hinit : initial y0).

Lemma worker_ok_insert y i w : Forall worker_ok (y_workers y) -> worker_ok w ->
  Forall worker_ok (<[i := w]> (y_workers y)).
Proof. intros HF Hw. by apply Forall_insert. Qed.

Lemma tally_initial : tally y0.
Proof.
  destruct Hinit as [Ha Hw [bound Hq] _ _ Hst (He & _ & _ & Hd & _)].
  assert (Hb : sum_busy (y_workers y0) = 0) by (induction Hw as [|w ws -> _ IH]; simpl; lia).
  split.
  - rewrite He, Ha, Hd, Hb, (queued_implements _ _ Hq). by vm_compute.
  - eapply Forall_impl; [exact Hw|]. by intros w ->.
  - by rewrite He.
  - intros i Hi. rewrite Forall_forall in Hw. apply list_elem_of_lookup_2 in Hi. by apply Hw in Hi.
Qed.

(** A step of the accept thread that tells nothing and leaves the queue. *)
Lemma tally_accept y a : tally y -> y_accept y <> ADone -> y_accept y <> AStarted -> a <> AStarted ->
  tally (set_accept a y).
Proof.
  intros [Hc Hw Hs Hd] Hnd H1 H2. split; simpl; auto.
  - rewrite <- Hc. destruct (y_accept y), a; done.
  - intros i Hi. destruct (Hd i Hi) as (? & ? & [?|?]); [done|auto].
Qed.

(** A worker moves on without leaving the loop. *)
Lemma tally_worker y i w w' : tally y -> y_workers y !! i = Some w -> busy w = busy w' -> worker_ok w' ->
  exited w' = false -> tally (set_worker i w' y).
Proof.
  intros [Hc Hw Hs Hd] Hi Hb Hok Hx. split; simpl; auto.
  - rewrite (sum_busy_insert _ _ _ _ Hi). lia.
  - by apply worker_ok_insert.
  - intros j Hj. destruct (decide (i = j)) as [->|].
    + rewrite list_lookup_insert_eq in Hj by (by eapply lookup_lt_Some). by simplify_eq.
    + rewrite list_lookup_insert_ne in Hj by done. eauto.
Qed.

(** Events that do not concern the tally. *)
Lemma tally_tell y e : tally y -> is_started e = false -> is_finished e = false -> tally (tell e y).
Proof.
  intros [Hc Hw Hs Hd] H1 H2. split; simpl; auto.
  - rewrite !count_snoc, H1, H2. lia.
  - by rewrite run_events_snoc, Hs.
Qed.

Lemma tally_logged y es : tally y -> tally (logged es y).
Proof. intros []. by split. Qed.

Lemma tally_push y f fd k c w st q : tally y -> own y0 y f -> y_accept y = APush fd ->
  connection_queue_push (y_queue y) (Some fd) (y_flag y) k c w = Return st q ->
  tally (set_accept (if decide (st = CONNECTION_QUEUE_OK) then AStarted else AFailed fd st) (set_queue q y)).
Proof.
  intros [Hc Hw Hs Hd] Ho Ha Hp. destruct (queue_ok_live y f) as (Hi & _); [by rewrite Ha|apply Ho|].
  rewrite Ha in Hc. simpl in Hc.
  destruct (push_queued _ _ _ _ _ _ _ _ _ Hi Hp) as [(-> & Hq & Hopen)|[Hne ->]].
  - rewrite decide_True by done. split; simpl; auto.
    + rewrite Hq, zlen_app. change (zlen [fd]) with 1. lia.
    + intros i Hx. destruct (Hd i Hx) as (_ & _ & [?|?]); congruence.
  - rewrite decide_False by done. split; simpl; auto.
    intros i Hx. destruct (Hd i Hx) as (? & ? & [?|?]); [congruence|auto].
Qed.

Lemma tally_pop y f i k wt fd q evs : tally y -> own y0 y f -> y_accept y <> ADone ->
  y_workers y !! i = Some WPop ->
  connection_queue_pop (y_queue y) k wt = Return (CONNECTION_QUEUE_OK, Some fd) q -> handles evs ->
  tally (set_worker i (WHandle fd evs) (set_queue q y)).
Proof.
  intros [Hc Hw Hs Hd] Ho Hnd Hi Hp Hev. destruct (queue_ok_live y f) as (Himp & _); [done|apply Ho|].
  destruct (pop_queued _ _ _ _ _ _ _ Himp Hp) as [(x & _ & [= <-] & Hq)|(Hne & _)]; [|done].
  split; simpl; auto.
  - rewrite (sum_busy_insert _ _ _ _ Hi). simpl. rewrite Hc, Hq. unfold zlen. simpl. lia.
  - apply worker_ok_insert; [done|]. by apply handles_finish.
  - intros j Hj. destruct (decide (i = j)) as [->|].
    + rewrite list_lookup_insert_eq in Hj by (by eapply lookup_lt_Some). by simplify_eq.
    + rewrite list_lookup_insert_ne in Hj by done. destruct (Hd j Hj) as (Hnil & _). by rewrite Hq in Hnil.
Qed.

Lemma tally_exit y f i k wt st fd q : tally y -> own y0 y f -> y_accept y <> ADone ->
  y_workers y !! i = Some WPop ->
  connection_queue_pop (y_queue y) k wt = Return (st, fd) q -> st <> CONNECTION_QUEUE_OK ->
  (y_dropped y = []) -> tally (set_worker i (WExit st) (set_queue q y)).
Proof.
  intros [Hc Hw Hs Hd] Ho Hnd Hi Hp Hne Hdr. destruct (queue_ok_live y f) as (Himp & _); [done|apply Ho|].
  destruct (pop_queued _ _ _ _ _ _ _ Himp Hp) as [(x & -> & _)|(_ & -> & Hsh)]; [done|].
  split; simpl; auto.
  - rewrite (sum_busy_insert _ _ _ _ Hi). simpl. lia.
  - by apply worker_ok_insert.
  - intros j Hj. destruct (decide (i = j)) as [->|].
    + rewrite list_lookup_insert_eq in Hj by (by eapply lookup_lt_Some). injection Hj as ->.
      destruct (Hsh eq_refl). auto.
    + rewrite list_lookup_insert_ne in Hj by done. eauto.
Qed.

Lemma handler_tail_cons e e' evs : handler_tail (e :: e' :: evs) ->
  request_event e = true /\ handler_tail (e' :: evs).
Proof.
  intros ([|x evs0] & Heq & HF); [done|]. injection Heq as <- Heq. apply Forall_cons_1 in HF as [? ?].
  split; [done|]. by exists evs0.
Qed.

Lemma request_event_plain e : request_event e = true -> is_started e = false /\ is_finished e = false.
Proof. by destruct e. Qed.

Record inv (y : sys) : Prop := {
  v_own : exists f, own y0 y f;
  v_exited : all_exited y;
  v_tally : tally y;
  v_dropped : y_accept y <> ADone -> y_dropped y = [];
}.

Lemma tally_reject y st fd p es : tally y -> y_accept y = AFailed fd st ->
  tally (set_accept (if bool_decide (st = CONNECTION_QUEUE_SHUTDOWN) || y_flag y then ADrain else ATop)
    (logged es (closed [fd] p y))).
Proof.
  intros Ht Ha. apply (tally_accept (logged es (closed [fd] p y))); simpl; [by destruct Ht|by rewrite Ha..|].
  by destruct (_ || _).
Qed.

Lemma tally_started y : tally y -> y_accept y = AStarted -> tally (set_accept ATop (tell EvStarted y)).
Proof.
  intros [Hc Hw Hs Hd] Ha. rewrite Ha in Hc. simpl in Hc. split; simpl; auto.
  - rewrite !count_snoc. simpl. lia.
  - by rewrite run_events_snoc, Hs.
  - intros i Hi. destruct (Hd i Hi) as (? & ? & [?|?]); [congruence|auto].
Qed.

Lemma tally_shutdown y f : tally y -> own y0 y f -> y_accept y = ADrain ->
  tally (set_accept (AJoin 0) (set_queue (connection_queue_shutdown (y_queue y)) y)).
Proof.
  intros [Hc Hw Hs Hd] Ho Ha. destruct (queue_ok_live y f) as (Hi & _); [by rewrite Ha|apply Ho|].
  assert (Hq : queued (connection_queue_shutdown (y_queue y)) = queued (y_queue y)).
  { by rewrite (queued_implements _ _ Hi), (queued_implements _ _ (shutdown_implements _ _ Hi)). }
  rewrite Ha in Hc. simpl in Hc. split; simpl; auto.
  - by rewrite Hq.
  - intros i Hx. destruct (Hd i Hx) as (? & ? & [?|?]); [congruence|]. rewrite Hq. split_and!; auto. right.
    destruct Hi as (_ & _ & _ & Hm). unfold connection_queue_shutdown. by rewrite Hm.
Qed.

Lemma tally_destroy y q p : tally y -> y_accept y = AJoin (length (y_workers y)) -> y_dropped y = [] ->
  connection_queue_destroy (y_queue y) (y_proc y) = Done q p ->
  tally (set_accept ADone (set_queue q (dropped (queued (y_queue y)) (closed (queued (y_queue y)) p y)))).
Proof.
  intros [Hc Hw Hs Hd] Ha Hdr Hq. assert (q = zero_queue) as ->.
  { by apply destroy_next in Hq as [? _]. }
  rewrite Ha, Hdr in Hc. simpl in Hc. split; simpl; auto.
  - rewrite Hdr, queued_zero. unfold zlen in *. simpl in *. lia.
  - intros i Hi. destruct (Hd i Hi) as (-> & -> & _). auto.
Qed.

Lemma tally_finish y i : tally y -> y_workers y !! i = Some WClosed ->
  tally (set_worker i WPop (tell EvFinished y)).
Proof.
  intros [Hc Hw Hs Hd] Hi. split; simpl; auto.
  - rewrite !count_snoc, (sum_busy_insert _ _ _ _ Hi). simpl. lia.
  - by apply worker_ok_insert.
  - by rewrite run_events_snoc, Hs.
  - intros j Hj. destruct (decide (i = j)) as [->|].
    + rewrite list_lookup_insert_eq in Hj by (by eapply lookup_lt_Some). by simplify_eq.
    + rewrite list_lookup_insert_ne in Hj by done. eauto.
Qed.

Lemma inv_step l y y' : step l y y' -> inv y -> inv y'.
Proof.
  intros Hs [[f Ho] He Ht Hdr]. assert (Ho' : own_step_goal y0 y') by by eapply own_step.
  pose proof (all_exited_step _ _ _ Hs He) as He'.
  assert (Hok : forall i w, y_workers y !! i = Some w -> worker_ok w).
  { intros i w Hw. pose proof (t_workers _ Ht) as HF. rewrite Forall_forall in HF.
    by eapply HF, list_elem_of_lookup_2. }
  assert (Hrun : forall i w, y_workers y !! i = Some w -> exited w = false -> y_accept y <> ADone).
  { intros i w. by apply all_exited_running. }
  split; [done|done| |].
  - destruct Hs as [y|y ? ? Hw Hx|y Ha|y Ha|y i fd p Ha _|y Ha|y i Ha|y fd ? c w st q Ha Hp|y fd st p Ha Hp|y Ha|
    y Ha|y i st Ha Hw|y q p Ha Hq|y i ? wt fd q evs Hw Hp Hev|y i ? wt st fd q Hw Hp Hne|y i fd e e' evs Hw|
    y i fd e p Hw Hp|y i Hw].
    + destruct Ht as [Hc Hw Hst Hd]. split; simpl; auto.
      * rewrite <- Hc. by destruct (y_accept y).
      * intros i Hi. destruct (Hd i Hi) as (? & ? & [Hx|?]); [rewrite Hx; auto|auto].
    + by destruct Ht.
    + apply tally_accept; [done|by rewrite Ha..|by destruct (y_flag y)].
    + apply tally_accept; [done|by rewrite Ha..|done].
    + apply tally_accept; simpl; [|by rewrite Ha..|done]. apply tally_logged, tally_tell; [|done|done]. by destruct Ht.
    + apply tally_accept; [done|by rewrite Ha..|done].
    + apply tally_accept; [done|by rewrite Ha..|done].
    + by eapply tally_push.
    + by apply tally_reject.
    + by apply tally_started.
    + by eapply tally_shutdown.
    + apply tally_accept; [done|by rewrite Ha..|done].
    + apply tally_destroy; [done|done|by apply Hdr; rewrite Ha|done].
    + eapply tally_pop; try done. by eapply Hrun.
    + eapply tally_exit; try done; [by eapply Hrun|]. by eapply Hdr, Hrun.
    + destruct (handler_tail_cons _ _ _ (Hok _ _ Hw)) as [Hr Hta].
      destruct (request_event_plain _ Hr) as [? ?].
      eapply (tally_worker (tell e y)); [by apply tally_tell|done|done|done|done].
    + eapply (tally_worker (closed [fd] p y)); [by destruct Ht|done|done|done|done].
    + by apply tally_finish.
  - intros Hnd. destruct Hs; simpl in *; try done; apply Hdr; try congruence;
      try (by eapply Hrun); by destruct (y_accept y).
Qed.

Lemma inv_reachable y : reachable y0 y -> inv y.
Proof.
  intros Hr. induction Hr as [|l y y' _ IH Hs]; [|by eapply inv_step]. split.
  - by apply own_initial.
  - unfold all_exited. by rewrite (i_accept _ Hinit).
  - apply tally_initial.
  - intros _. by destruct (i_trace _ Hinit) as (_ & _ & _ & ? & _).
Qed.
End counting.
