(* ===== verification/ServerLog.v ===== *)
(** * What the accept thread logs

    Every connection is logged once, in the order of acceptance, and a connection
    that is refused while the server goes on is logged as not queued. *)
From S2P Require Import Prelude CLib Proc ResponseCorrect Stats ConnectionQueue Logger LogLines.
From S2P Require Import Server ServerCorrect ServerProps.

(** The peers in the log. *)
Definition connected (es : list entry) : list (sockaddr_in * bool) :=
  omap (fun e => match e with Connected addr ntop_ok => Some (addr, ntop_ok) | _ => None end) es.

(** The accept thread logs nothing else. *)
Definition accept_entry (e : entry) : Prop :=
  match e with Connected _ _ | NotQueued => True | _ => False end.

Record accept_log (peers : nat -> sockaddr_in * bool) (y : sys) : Prop := {
  al_peers : y_peers y = peers;
  al_connected : connected (y_log y) = map peers (seq 0 (length (y_accepted y)));
  al_bound : (length (y_log y) <= length (y_accepted y) + length (y_closed y))%nat;
  al_entries : Forall accept_entry (y_log y);
}.

Lemma accept_log_same peers y y' : y_peers y' = y_peers y -> y_log y' = y_log y ->
  y_accepted y' = y_accepted y -> (length (y_closed y) <= length (y_closed y'))%nat ->
  accept_log peers y -> accept_log peers y'.
Proof.
  intros Hp Hl Ha Hc [H1 H2 H3 H4]. split; [congruence|congruence|rewrite Hl, Ha; lia|congruence].
Qed.

Lemma accept_log_step `{ConnectionHandler} peers l y y' : step l y y' -> accept_log peers y -> accept_log peers y'.
Proof.
  intros Hs Hy. destruct Hs as [y|y i w Hw Hx|y Ha|y Ha|y i fd p Ha Hop|y Ha|y i Ha|y fd k c w st q Ha Hp|
    y fd st p Ha Hcl|y Ha|y Ha|y i st Ha Hw|y q p Ha Hd|y i k wt fd q evs Hw Hp Hev|y i k wt st fd q Hw Hp Hne|
    y i fd e e' evs Hw|y i fd e p Hw Hcl|y i Hw];
    try (apply (accept_log_same peers y); [done|done|done| |exact Hy]; simpl; rewrite ?length_app; lia).
  - destruct Hy as [H1 H2 H3 H4]. unfold next_peer. rewrite H1. split; simpl.
    + done.
    + unfold connected in *. rewrite omap_app, H2, length_app, Nat.add_1_r, seq_S, map_app. simpl.
      by destruct (peers _).
    + rewrite !length_app. simpl. lia.
    + apply Forall_app. split; [done|]. destruct (peers _). by constructor.
  - destruct Hy as [H1 H2 H3 H4]. split; simpl; [done| | |].
    + unfold connected in *. rewrite omap_app, H2. destruct (_ || _); simpl; by rewrite app_nil_r.
    + rewrite !length_app. destruct (_ || _); simpl; lia.
    + apply Forall_app. split; [done|]. destruct (_ || _); by repeat constructor.
Qed.

(** The accept thread's part of the log: in every reachable state the connections
    logged are those accepted, with their peers and in order; the other entries are
    at most as many as the connections closed, and every entry is one line. *)
Theorem accept_thread_logs `{ConnectionHandler} y0 y config lg : initial y0 -> reachable y0 y ->
  lg_ready lg = true ->
  connected (y_log y) = map (y_peers y0) (seq 0 (length (y_accepted y))) /\
  (length (y_log y) <= length (y_accepted y) + length (y_closed y))%nat /\
  log_entries config (y_log y) lg = Some (Logger true (lg_stderr lg ++
    concat (map (fun l => l ++ [LF]) (map entry_line (List.filter (entry_written config) (y_log y)))))).
Proof.
  intros Hi Hr Hlg. assert (Hy : accept_log (y_peers y0) y).
  { induction Hr as [|l y y' _ IH Hs]; [|by eapply accept_log_step].
    destruct (i_trace _ Hi) as (_ & Ha & Hc & _ & Hl). split; rewrite ?Hl, ?Ha; first [done|simpl; lia|apply Forall_nil_2]. }
  destruct Hy as [_ H2 H3 H4]. split_and!; [done|done|]. apply log_entries_lines; [|done].
  eapply Forall_impl; [exact H4|]. by intros [].
Qed.
