(* ===== verification/ServerLive.v ===== *)
(** * The server: ownership, drain and freedom from deadlock

    The theorems about all interleavings, the handler of client_handler.c as an
    instance of the interface, and two interleavings that go wrong. *)
From stdpp Require Import relations.
From S2P Require Import Prelude CLib Proc ResponseCorrect Stats ConnectionQueue Server ServerCorrect ServerProps.

(** C4. Ownership.  In every reachable state the connections accepted so far are,
    each exactly once, closed, in the hands of the accept thread, in the ring
    buffer or in the hands of one worker; the open descriptors are those and the
    ones the process had before; so no thread closes or uses a descriptor that
    another one has. *)
Theorem connections_have_one_owner `{ConnectionHandler} y0 y : initial y0 -> reachable y0 y ->
  exists inside, inside = accept_fds (y_accept y) ++ queued (y_queue y) ++
      concat (map worker_fds (y_workers y)) /\
    y_accepted y ≡ₚ y_closed y ++ inside /\ NoDup (y_accepted y) /\
    p_fds (y_proc y) = p_fds (y_proc y0) ⊎ list_to_set_disj inside /\
    Forall (fun fd => fd ∉ p_fds (y_proc y0)) (y_accepted y).
Proof.
  intros Hi Hr. pose proof (inv_reachable y0 Hi y Hr) as [[f Ho] He Ht _].
  assert (Hq : ff_list f = queued (y_queue y)).
  { pose proof (o_queue _ _ _ Ho) as Hq. unfold queue_ok in Hq.
    destruct (decide (y_accept y = ADone)) as [Ha|Ha].
    - rewrite Ha in Hq. by destruct Hq as [-> ->].
    - destruct (queue_ok_live _ _ Ha (o_queue _ _ _ Ho)) as (Himp & _). symmetry. by apply queued_implements. }
  exists (owned y f). destruct Ho as [_ Hf Hacc Hn Hfr _]. split_and!; try done.
  - unfold owned. by rewrite Hq.
  - eapply Forall_impl; [exact Hfr|]. intros fd [Hge _] Hin. apply (i_fds _ Hi) in Hin. lia.
Qed.

(** C18. Graceful shutdown.  When [server_run] has ended, every connection accepted has
    been closed exactly once and no descriptor is left open, whatever the workers
    met; and if one worker left at the shutdown, and not because its queue
    failed, every connection that entered the queue was handed to a worker,
    handled to its end and counted as finished as often as started. *)
Theorem shutdown_drains `{ConnectionHandler} y0 y : initial y0 -> reachable y0 y ->
  y_accept y = ADone ->
  y_closed y ≡ₚ y_accepted y /\ NoDup (y_closed y) /\ p_fds (y_proc y) = p_fds (y_proc y0) /\
  (WExit CONNECTION_QUEUE_SHUTDOWN ∈ y_workers y ->
   y_dropped y = [] /\ count is_started (y_events y) = count is_finished (y_events y)).
Proof.
  intros Hi Hr Ha. pose proof (inv_reachable y0 Hi y Hr) as [[f Ho] He Ht _].
  assert (Hex : forall w, w ∈ y_workers y -> exists st, w = WExit st).
  { intros w [j Hj]%list_elem_of_lookup_1. unfold all_exited in He. rewrite Ha in He. eauto. }
  assert (Hown : owned y f = []).
  { pose proof (o_queue _ _ _ Ho) as Hq. unfold queue_ok in Hq. unfold owned. rewrite Ha in *.
    destruct Hq as [-> _]. simpl. clear -Hex. induction (y_workers y) as [|w ws IH]; [done|]. simpl.
    destruct (Hex w ltac:(by left)) as [st ->]. apply IH. intros w' Hw'. apply Hex. by right. }
  assert (Hbusy : sum_busy (y_workers y) = 0).
  { clear -Hex. induction (y_workers y) as [|w ws IH]; [done|]. simpl.
    destruct (Hex w ltac:(by left)) as [st ->]. rewrite IH; [done|]. intros w' Hw'. apply Hex. by right. }
  destruct Ho as [_ Hf Hacc Hn _ _]. rewrite Hown in *. rewrite app_nil_r in Hacc. simpl in Hf.
  split_and!; [done|by rewrite <- Hacc|multiset_solver|]. intros [i Hw]%list_elem_of_lookup_1.
  destruct (t_drained _ Ht i Hw) as (Hq & Hd & _). pose proof (t_count _ Ht) as Hc.
  rewrite Ha, Hq, Hd, Hbusy in Hc. change (zlen []) with 0 in Hc. simpl in Hc. split; [done|lia].
Qed.

(** ** No deadlock *)

Section progress.
  Context `{ConnectionHandler} (y0 : sys) (Hinit : initial y0).

(** The threads' own steps, and signals. *)
Definition own_steps : sys -> sys -> Prop := rtc (fun y y' => step LInternal y y' \/ step LSignal y y').

Lemma own_steps_one y y' : step LInternal y y' -> own_steps y y'.
Proof. intros Hs. eapply rtc_l; [by left|apply rtc_refl]. Qed.

(** The queue is shut from the drain on. *)
Definition shut (y : sys) : Prop :=
  match y_accept y with AJoin _ => q_shutting_down (y_queue y) = true | _ => True end.

Lemma pop_shut q k wt r q' : connection_queue_pop q k wt = Return r q' -> q_shutting_down q' = q_shutting_down q.
Proof. unfold connection_queue_pop. repeat case_match; intros; by simplify_eq. Qed.

Lemma shut_step l y y' : step l y y' -> inv y0 y -> shut y -> shut y'.
Proof.
  intros Hs [[f Ho] _ _ _] Hsh. unfold shut in *.
  destruct Hs as [y|y ? ? Hw Hx|y Ha|y Ha|y i fd p Ha _|y Ha|y i Ha|y fd ? c w st q Ha Hp|y fd st p Ha Hp|y Ha|
    y Ha|y i st Ha Hw|y q p Ha Hq|y i ? wt fd q evs Hw Hp Hev|y i ? wt st fd q Hw Hp Hne|y i fd e e' evs Hw|
    y i fd e p Hw Hp|y i Hw]; simpl; try done.
  - by destruct (y_accept y).
  - by destruct (y_flag y).
  - by destruct (decide _).
  - by destruct (_ || _).
  - destruct (queue_ok_live y f) as ((_ & _ & _ & Hm) & _); [by rewrite Ha|apply Ho|].
    unfold connection_queue_shutdown. by rewrite Hm.
  - by rewrite Ha in Hsh.
  - by rewrite (pop_shut _ _ _ _ _ Hp).
  - by rewrite (pop_shut _ _ _ _ _ Hp).
Qed.

Definition good (y : sys) : Prop := inv y0 y /\ shut y.

Lemma good_reachable y : reachable y0 y -> good y.
Proof.
  intros Hr. split; [by apply inv_reachable|].
  induction Hr as [|l y y' Hr IH Hs]; [unfold shut; by rewrite (i_accept _ Hinit)|].
  eapply shut_step; [done| |done]. by apply inv_reachable.
Qed.

Lemma good_step y y' : step LInternal y y' \/ step LSignal y y' -> good y -> good y'.
Proof. intros [Hs|Hs] [Hi Hsh]; (split; [by eapply inv_step|by eapply shut_step]). Qed.

Lemma good_steps y y' : own_steps y y' -> good y -> good y'.
Proof. induction 1; [done|]. eauto using good_step. Qed.

(** A descriptor in somebody's hands can be closed. *)
Lemma close_owned y f fd : own y0 y f -> fd ∈ owned y f -> exists p, close fd (y_proc y) = Done () p.
Proof.
  intros Ho Hin. unfold close. rewrite decide_True; [eauto|]. rewrite (o_fds _ _ _ Ho).
  apply gmultiset_elem_of_disj_union. right. by apply elem_of_list_to_set_disj.
Qed.

(** *** The workers come to their end once the queue is shut *)

Section workers.
  Context (tr : list stats_event) (Htr : handles tr).

Definition rank (w : worker_pc) : nat :=
  match w with WPop => 1 | WHandle _ evs => 2 + length evs | WClosed => 2 | WExit _ => 0 end%nat.

Fixpoint ranks (ws : list worker_pc) : nat := match ws with [] => 0 | w :: ws => rank w + ranks ws end%nat.

Definition work (y : sys) : nat := (ranks (y_workers y) + (3 + length tr) * length (queued (y_queue y)))%nat.

Lemma ranks_app l k : ranks (l ++ k) = (ranks l + ranks k)%nat.
Proof. induction l; simpl; lia. Qed.

Lemma ranks_insert ws i w w' : ws !! i = Some w -> (ranks (<[i := w']> ws) + rank w = ranks ws + rank w')%nat.
Proof. intros Hw. destruct (worker_split w' Hw) as (l & k & -> & ->). rewrite !ranks_app. simpl. lia. Qed.

(** A worker that has not left can take a step that leaves less to do. *)
Lemma worker_progress y i w k : good y -> y_accept y = AJoin k -> y_workers y !! i = Some w ->
  exited w = false -> exists y', step LInternal y y' /\ y_accept y' = AJoin k /\ (work y' < work y)%nat /\
    length (y_workers y') = length (y_workers y).
Proof.
  intros [[[f Ho] He Ht _] Hsh] Ha Hw Hx. unfold shut in Hsh. rewrite Ha in Hsh.
  destruct (queue_ok_live y f) as (Hi & _); [by rewrite Ha|apply Ho|].
  assert (Hrk := fun w' => ranks_insert (y_workers y) i w w' Hw).
  assert (Hlen : forall w', length (<[i := w']> (y_workers y)) = length (y_workers y)) by (intros; apply length_insert).
  unfold work. destruct w as [|fd evs| |st]; [| | |done].
  - pose proof (pop_implements _ _ true true Hi) as Hp.
    destruct (connection_queue_pop (y_queue y) true true) as [[st fd] q|] eqn:Epop.
    + destruct (pop_queued _ _ _ _ _ _ _ Hi Epop) as [(x & -> & -> & Hq)|(Hne & -> & _)].
      * eexists. split; [by eapply step_pop|]. simpl. split_and!; [done| |done].
        specialize (Hrk (WHandle x tr)). simpl in Hrk. rewrite Hq. simpl length. lia.
      * eexists. split; [by eapply step_exit|]. simpl. split_and!; [done| |done].
        specialize (Hrk (WExit st)). simpl in Hrk. lia.
    + unfold fifo_pop in Hp. destruct (ff_list f); [|done].
      destruct Hi as (_ & _ & Hc & _). by rewrite <- Hc, Hsh in Hp.
  - pose proof (t_workers _ Ht) as HF. rewrite Forall_forall in HF.
    specialize (HF _ (list_elem_of_lookup_2 _ _ _ Hw)). simpl in HF. destruct evs as [|e [|e' evs]].
    + destruct HF as ([|? ?] & ? & _); done.
    + destruct (close_owned y f fd Ho) as [p Hp].
      { unfold owned. rewrite !elem_of_app. right. right. apply list_elem_of_In, in_concat. exists [fd].
        split; [|by left]. apply (in_map worker_fds _ (WHandle fd [e])), list_elem_of_In.
        by eapply list_elem_of_lookup_2. }
      eexists. split; [by eapply step_close|]. simpl. split_and!; [done| |done].
      specialize (Hrk WClosed). simpl in Hrk. lia.
    + eexists. split; [by eapply step_report|]. simpl. split_and!; [done| |done].
      specialize (Hrk (WHandle fd (e' :: evs))). simpl in Hrk. lia.
  - eexists. split; [by eapply step_finish|]. simpl. split_and!; [done| |done].
    specialize (Hrk WPop). simpl in Hrk. lia.
Qed.

Lemma workers_finish k : forall n y, (work y <= n)%nat -> good y -> y_accept y = AJoin k ->
  exists y', own_steps y y' /\ y_accept y' = AJoin k /\ good y' /\ Forall (fun w => exited w = true) (y_workers y').
Proof.
  induction n as [|n IH]; intros y Hn Hg Ha;
    (destruct (decide (Exists (fun w => exited w = false) (y_workers y))) as [Hex|Hall];
     [|exists y; split_and!; [apply rtc_refl|done|done|]; apply not_Exists_Forall in Hall; [|apply _];
       eapply Forall_impl; [exact Hall|]; intros w Hw; apply not_false_is_true; exact Hw]);
    apply Exists_exists in Hex as (w & [i Hi]%list_elem_of_lookup_1 & Hx);
    destruct (worker_progress y i w k Hg Ha Hi Hx) as (y1 & Hs & Ha1 & Hlt & _); [lia|].
  destruct (IH y1) as (y2 & H1 & H2 & H3 & H4); [lia|by eapply good_step; [left|]|done|].
  exists y2. split_and!; try done. eapply rtc_l; [by left|done].
Qed.
End workers.

(** *** The accept thread leaves its loop once the flag is set *)

Lemma own_steps_trans y y1 y2 : own_steps y y1 -> own_steps y1 y2 -> own_steps y y2.
Proof. intros H1 H2. unfold own_steps in *. by etrans. Qed.

Lemma top_drains y : y_flag y = true -> y_accept y = ATop -> own_steps y (set_accept ADrain y).
Proof. intros Hf Ha. apply own_steps_one. pose proof (step_check y Ha) as Hs. by rewrite Hf in Hs. Qed.

Lemma interrupted_drains y : y_flag y = true -> y_accept y = AAccept true ->
  own_steps y (set_accept ADrain (set_accept ATop y)).
Proof.
  intros Hf Ha. eapply own_steps_trans; [by apply own_steps_one, step_eintr|]. by apply top_drains.
Qed.

Lemma started_drains y : y_flag y = true -> y_accept y = AStarted ->
  own_steps y (set_accept ADrain (set_accept ATop (tell EvStarted y))).
Proof.
  intros Hf Ha. eapply own_steps_trans; [by apply own_steps_one, step_started|]. by apply top_drains.
Qed.

Lemma failed_drains y fd st : good y -> y_flag y = true -> y_accept y = AFailed fd st ->
  exists y', own_steps y y' /\ y_accept y' = ADrain.
Proof.
  intros [[[f Ho] _ _ _] _] Hf Ha. destruct (close_owned y f fd Ho) as [p Hp].
  { unfold owned. rewrite Ha. simpl. by left. }
  eexists. split; [by eapply own_steps_one, step_reject|]. simpl. by rewrite Hf, orb_true_r.
Qed.

Lemma push_drains y fd : good y -> y_flag y = true -> y_accept y = APush fd ->
  exists y', own_steps y y' /\ y_accept y' = ADrain.
Proof.
  intros Hg Hf Ha. pose proof Hg as [[[f Ho] _ _ _] _].
  destruct (queue_ok_live y f) as (Hi & _); [by rewrite Ha|apply Ho|].
  pose proof (push_implements _ _ fd true true true true Hi) as Hp.
  destruct (connection_queue_push (y_queue y) (Some fd) true true true true) as [st q|] eqn:Epush.
  2: { unfold fifo_push in Hp. by repeat case_match. }
  rewrite <- Hf in Epush at 1. pose proof (step_push y fd true true true st q Ha Epush) as Hs.
  assert (Hg' := good_step _ _ (or_introl Hs) Hg).
  destruct (decide (st = CONNECTION_QUEUE_OK)) as [->|Hne].
  - eexists. split; [eapply own_steps_trans; [by apply own_steps_one|by apply started_drains]|done].
  - destruct (failed_drains _ fd st Hg') as (y' & Hy' & Ha'); [done|done|].
    exists y'. split; [|done]. by eapply own_steps_trans; [apply own_steps_one|].
Qed.

(** From anywhere to the joins. *)
Lemma accept_leaves y : good y -> y_flag y = true ->
  exists y', own_steps y y' /\ (y_accept y' = ADrain \/ (exists k, y_accept y' = AJoin k) \/ y_accept y' = ADone).
Proof.
  intros Hg Hf. destruct (y_accept y) as [| |i|fd|fd st| | |k|] eqn:Ha.
  - eexists. split; [by apply top_drains|by left].
  - eexists. split.
    + eapply own_steps_trans; [by apply own_steps_one, step_enter|].
      eapply own_steps_trans; [eapply rtc_l; [right; apply step_signal|apply rtc_refl]|].
      by apply interrupted_drains.
    + by left.
  - eexists. split.
    + eapply own_steps_trans; [eapply rtc_l; [right; apply step_signal|apply rtc_refl]|].
      rewrite Ha. by apply interrupted_drains.
    + by left.
  - destruct (push_drains y fd Hg Hf Ha) as (y' & ? & ?). eauto.
  - destruct (failed_drains y fd st Hg Hf Ha) as (y' & ? & ?). eauto.
  - eexists. split; [by apply started_drains|by left].
  - exists y. split; [apply rtc_refl|by left].
  - exists y. split; [apply rtc_refl|eauto].
  - exists y. split; [apply rtc_refl|auto].
Qed.

(** The queue can be destroyed. *)
Lemma destroy_possible y f : own y0 y f -> y_accept y <> ADone ->
  exists q p, connection_queue_destroy (y_queue y) (y_proc y) = Done q p.
Proof.
  intros Ho Ha. destruct (queue_ok_live y f) as (Hi & Hb & Hl); [done|apply Ho|].
  pose proof Hi as (Hr & _). pose proof (destroy_wp _ _ (y_proc y) Hr Hb Hl) as Hw.
  apply wp_Done in Hw as (q & p & Hd & _); [eauto|].
  rewrite (o_fds _ _ _ Ho). unfold owned. rewrite !list_to_set_disj_app. multiset_solver.
Qed.

(** The joins and the clean-up. *)
Lemma joins_finish : forall n y k, (length (y_workers y) - k <= n)%nat -> good y -> y_accept y = AJoin k ->
  Forall (fun w => exited w = true) (y_workers y) -> exists y', own_steps y y' /\ y_accept y' = ADone.
Proof.
  induction n as [|n IH]; intros y k Hn Hg Ha Hex; pose proof Hg as [[[f Ho] He _ _] _];
    unfold all_exited in He; rewrite Ha in He.
  - assert (Hk : k = length (y_workers y)).
    { destruct (Nat.lt_trichotomy k (length (y_workers y))) as [?|[?|Hlt]]; [lia|done|].
      destruct (He _ Hlt) as [st Hst]. by apply lookup_lt_Some in Hst; lia. }
    subst k. destruct (destroy_possible y f Ho) as (q & p & Hd); [by rewrite Ha|].
    eexists. split; [by eapply own_steps_one, step_destroy|done].
  - destruct (decide (k < length (y_workers y))%nat) as [Hlt|]; [|eapply IH; [|done..]; lia].
    destruct (lookup_lt_is_Some_2 _ _ Hlt) as [w Hw]. rewrite Forall_forall in Hex.
    pose proof (Hex _ (list_elem_of_lookup_2 _ _ _ Hw)) as Hx. destruct w as [| | |st]; try done.
    pose proof (step_join y k st Ha Hw) as Hs.
    destruct (IH (set_accept (AJoin (S k)) y) (S k)) as (y' & Hy' & Ha');
      [simpl; lia|by eapply good_step; [left|]|done|by apply Forall_forall|].
    exists y'. split; [|done]. by eapply own_steps_trans; [apply own_steps_one|].
Qed.

Lemma shut_down y : good y -> exists y', own_steps y y' /\ y_accept y' = ADone.
Proof.
  intros Hg. set (y1 := set_accept (match y_accept y with AAccept _ => AAccept true | a => a end) (raise_flag y)).
  assert (H1 : own_steps y y1) by (eapply rtc_l; [right; apply step_signal|apply rtc_refl]).
  destruct (accept_leaves y1) as (y2 & H2 & Ha2); [by eapply good_steps|done|].
  pose proof (good_steps _ _ H2 (good_steps _ _ H1 Hg)) as Hg2.
  assert (Hj : exists y3, own_steps y2 y3 /\ ((exists k, y_accept y3 = AJoin k) \/ y_accept y3 = ADone)).
  { destruct Ha2 as [Ha2|[Ha2|Ha2]]; [|exists y2; split; [apply rtc_refl|auto]..].
    eexists. split; [by apply own_steps_one, step_shutdown|]. left. by exists 0%nat. }
  destruct Hj as (y3 & H3 & [[k Ha3]|Ha3]).
  2: { exists y3. split; [|done]. do 2 (eapply own_steps_trans; [done|]). done. }
  pose proof (good_steps _ _ H3 Hg2) as Hg3. destruct handles_some as [tr Htr].
  destruct (workers_finish tr Htr k (work tr y3) y3) as (y4 & H4 & Ha4 & Hg4 & Hex); [done..|].
  destruct (joins_finish (length (y_workers y4)) y4 k) as (y5 & H5 & Ha5); [lia|done..|].
  exists y5. split; [|done]. do 4 (eapply own_steps_trans; [done|]). done.
Qed.
End progress.

(** No deadlock.  From every reachable state, whatever each thread is doing, the
    threads' own steps and the shutdown signal can bring [server_run] to its end:
    no wait on the queue, no join and no lock order blocks it for good. *)
Theorem shutdown_always_possible `{ConnectionHandler} y0 y : initial y0 -> reachable y0 y ->
  exists y', own_steps y y' /\ y_accept y' = ADone /\ p_fds (y_proc y') = p_fds (y_proc y0).
Proof.
  intros Hi Hr. pose proof (good_reachable y0 Hi y Hr) as Hg.
  destruct (shut_down y0 Hi y Hg) as (y' & Hs & Ha). exists y'. split_and!; [done|done|].
  assert (Hg' : good y0 y') by by eapply good_steps. destruct Hg' as [[[f Ho] He _ _] _]. rewrite (o_fds _ _ _ Ho).
  assert (Hown : owned y' f = []); [|rewrite Hown; simpl; multiset_solver].
  pose proof (o_queue _ _ _ Ho) as Hq. unfold queue_ok, all_exited, owned in *. rewrite Ha in *.
  destruct Hq as [-> _]. simpl. clear -He. induction (y_workers y') as [|w ws IH]; [done|]. simpl.
  destruct (He 0%nat w eq_refl) as [st ->]. apply IH. intros j w' Hw. by apply (He (S j)).
Qed.
