(* ===== verification/ServerEnd.v ===== *)
(** * The server comes to its end

    Once the shutdown flag is set and the accept thread is not on its way into
    [accept], every schedule of the threads ends [server_run]: there is no
    infinite run and no state in which nothing can move.  With the missed signal
    of ServerInstance.v this is exact. *)
From stdpp Require Import relations.
From S2P Require Import Prelude CLib Proc ResponseCorrect Stats ConnectionQueue Server.
From S2P Require Import ServerCorrect ServerProps ServerLive.

(** Whatever the threads do on their own, a state in [P] is reached. *)
Inductive inevitable `{ConnectionHandler} (P : sys -> Prop) (y : sys) : Prop :=
| inev_now : P y -> inevitable P y
| inev_later : (exists y', step LInternal y y') ->
    (forall y', step LInternal y y' -> inevitable P y') -> inevitable P y.

(** The accept thread has noticed the flag or will at its next test. *)
Definition leaving (y : sys) : Prop :=
  match y_accept y with
  | AChecked | AAccept false => False
  | ADrain | AJoin _ | ADone => True
  | _ => y_flag y = true
  end.

(** What the accept thread still has to do. *)
Definition accept_rank (y : sys) : nat :=
  match y_accept y with
  | APush _ => 5 + length (y_workers y)
  | AFailed _ _ | AStarted | AAccept _ | AChecked => 4 + length (y_workers y)
  | ATop => 3 + length (y_workers y)
  | ADrain => 2 + length (y_workers y)
  | AJoin k => 1 + (length (y_workers y) - k)
  | ADone => 0
  end.

(** Each step leaves less: for the accept thread, else in the queue, else for the
    workers. *)
Definition closer (y' y : sys) : Prop :=
  (accept_rank y' < accept_rank y)%nat \/
  accept_rank y' = accept_rank y /\
  ((length (queued (y_queue y')) < length (queued (y_queue y)))%nat \/
   queued (y_queue y') = queued (y_queue y) /\ (ranks (y_workers y') < ranks (y_workers y))%nat).

Section ends.
  Context `{ConnectionHandler} (y0 : sys) (Hinit : initial y0).

Lemma closer_worker y i w w' : y_workers y !! i = Some w -> (rank w' < rank w)%nat ->
  forall y', y_workers y' = <[i := w']> (y_workers y) -> y_accept y' = y_accept y ->
  y_queue y' = y_queue y -> closer y' y.
Proof.
  intros Hw Hr y' Hws Ha Hq. right. pose proof (ranks_insert _ _ _ w' Hw). unfold accept_rank.
  rewrite Ha, Hq, Hws, length_insert. split; [done|]. right. split; [done|lia].
Qed.

Lemma closer_step y y' : good y0 y -> leaving y -> step LInternal y y' -> closer y' y /\ leaving y'.
Proof.
  intros [[[f Ho] He _ _] _] Hl Hs. unfold leaving, closer, accept_rank in *.
  inversion Hs as [|? ? ? Hw Hx|? Ha|? Ha|? ? ? ? Ha|? Ha|? ? Ha|? fd ? ? ? st q Ha Hp|? fd st p Ha Hp|? Ha|? Ha|? k st Ha Hw|
    ? q p Ha Hq|? i ? wt fd q evs Hw Hp Hev|? i ? wt st fd q Hw Hp Hne|? i fd e e' evs Hw|? i fd e p Hw Hp|? i Hw];
    subst; simpl; try (rewrite Ha in *; simpl in * ).
  - rewrite Hl. split; [left; lia|done].
  - done.
  - split; [left; lia|done].
  - destruct (decide _); simpl; (split; [left; lia|done]).
  - rewrite Hl, orb_true_r. simpl. split; [left; lia|done].
  - split; [left; lia|done].
  - split; [left; lia|done].
  - apply lookup_lt_Some in Hw. split; [left; lia|done].
  - split; [left; lia|done].
  - rewrite length_insert. split; [|done]. right. split; [done|]. left.
    destruct (queue_ok_live y f) as (Hi & _); [by eapply all_exited_running|apply Ho|].
    destruct (pop_queued _ _ _ _ _ _ _ Hi Hp) as [(x & _ & _ & ->)|[? _]]; [simpl; lia|done].
  - rewrite length_insert. split; [|done]. right. split; [done|]. right.
    assert (q = y_queue y) as ->.
    { unfold connection_queue_pop in Hp. repeat case_match; by simplify_eq. }
    pose proof (ranks_insert _ _ _ (WExit st) Hw) as Hr. simpl in Hr. split; [done|lia].
  - split; [|done]. exact (closer_worker y i _ (WHandle fd (e' :: evs)) Hw ltac:(simpl; lia)
      (set_worker i (WHandle fd (e' :: evs)) (tell e y)) eq_refl eq_refl eq_refl).
  - split; [|done]. exact (closer_worker y i _ WClosed Hw ltac:(simpl; lia)
      (set_worker i WClosed (closed [fd] p y)) eq_refl eq_refl eq_refl).
  - split; [|done]. exact (closer_worker y i _ WPop Hw ltac:(simpl; lia)
      (set_worker i WPop (tell EvFinished y)) eq_refl eq_refl eq_refl).
Qed.

(** Nothing is stuck before the end. *)
Lemma leaving_moves y : good y0 y -> leaving y -> y_accept y <> ADone -> exists y', step LInternal y y'.
Proof.
  intros Hg Hl Hnd. pose proof Hg as [[[f Ho] He _ _] _]. unfold leaving in Hl.
  destruct (y_accept y) as [| |i|fd|fd st| | |k|] eqn:Ha; try done.
  - eexists. by apply step_check.
  - destruct i; [|done]. eexists. by apply step_eintr.
  - destruct (connection_queue_push (y_queue y) (Some fd) (y_flag y) true true true) as [st q|] eqn:Ep.
    { eexists. by eapply step_push. }
    unfold connection_queue_push in Ep. rewrite Hl in Ep. by repeat case_match.
  - destruct (close_owned y0 y f fd Ho) as [p Hp]; [|eexists; by eapply step_reject].
    unfold owned. rewrite Ha. simpl. by left.
  - eexists. by apply step_started.
  - eexists. by apply step_shutdown.
  - destruct (y_workers y !! k) as [w|] eqn:Hw.
    + destruct (exited w) eqn:Hx; [destruct w; try done; eexists; by eapply step_join|].
      destruct handles_some as [tr Htr]. destruct (worker_progress y0 tr Htr y k w k) as (y' & ? & _); eauto.
    + apply lookup_ge_None in Hw. unfold all_exited in He. rewrite Ha in He.
      assert (k = length (y_workers y)) as ->.
      { destruct (decide (length (y_workers y) < k)%nat) as [Hlt|]; [|lia].
        destruct (He _ Hlt) as [st Hst]. apply lookup_lt_Some in Hst. lia. }
      destruct (destroy_possible y0 Hinit y f Ho) as (q & p & Hd); [by rewrite Ha|]. eexists. by eapply step_destroy.
Qed.

Lemma leaving_ends : forall a n r y, accept_rank y = a -> length (queued (y_queue y)) = n ->
  ranks (y_workers y) = r -> good y0 y -> leaving y -> inevitable (fun y' => y_accept y' = ADone) y.
Proof.
  induction a as [a IHa] using lt_wf_ind. induction n as [n IHn] using lt_wf_ind.
  induction r as [r IHr] using lt_wf_ind. intros y Ea En Er Hg Hl.
  destruct (decide (y_accept y = ADone)) as [Hd|Hnd]; [by apply inev_now|].
  apply inev_later; [by apply leaving_moves|]. intros y' Hs.
  destruct (closer_step y y' Hg Hl Hs) as [Hc Hl']. assert (Hg' : good y0 y') by (eapply good_step; [done|by left|done]).
  destruct Hc as [Hc|[Hca [Hc|[Hcq Hc]]]].
  - eapply (IHa (accept_rank y')); [lia|done..].
  - eapply (IHn (length (queued (y_queue y')))); [lia|lia|done..].
  - eapply (IHr (ranks (y_workers y'))); [lia|lia|by rewrite Hcq|done..].
Qed.
End ends.

(** Shutdown terminates.  In every reachable state where the flag is set and the
    accept thread is not on its way into [accept] (it is there interrupted, or
    elsewhere in its loop, or already shutting down), every schedule of the
    threads' own steps brings [server_run] to its end after finitely many steps:
    queued connections are served, the workers leave and the joins return. *)
Theorem shutdown_terminates `{ConnectionHandler} y0 y : initial y0 -> reachable y0 y ->
  y_flag y = true -> y_accept y <> AChecked -> y_accept y <> AAccept false ->
  inevitable (fun y' => y_accept y' = ADone) y.
Proof.
  intros Hi Hr Hf H1 H2. eapply leaving_ends; [done..|by apply good_reachable|].
  unfold leaving. by destruct (y_accept y) as [| |[]| | | | | |].
Qed.
