(* ===== verification/ServerInstance.v ===== *)
(** * The server with the connection handler of client_handler.c

    [client_handle] discharges the interface of the server.  Then two
    interleavings that go wrong: a shutdown signal that is missed, and a
    connection that is counted as active for ever. *)
From stdpp Require Import relations.
From S2P Require Import Prelude CLib Proc Request World Response ResponseCorrect Stats Config.
From S2P Require Import StaticFiles StaticServe Router RouterCorrect ClientHandler HandlerSpec HandlerSize.
From S2P Require Import Conversation HandlerCorrect HandlerSend HandlerLoop HandlerProps.
From S2P Require Import Logger LogLines ConnectionQueue ThreadPool Server ServerCorrect ServerProps ServerLive ServerEnd.

(** A conversation reports requests and responses only. *)
Lemma talk_request_events `{FileSystem} config counters w0 R n received sent evs :
  talk config counters w0 R n received sent evs -> Forall (fun e => request_event e = true) evs.
Proof.
  intros Ht. induction Ht as [n rest _|n rest evs _ Hev|n rest code r r' d evs _ _ _ Hx|
    n msg rest v o ps st r r' d evs _ _ _ _ Hx _|n msg a rq rest st r r' d snt evs _ _ _ _ _ _ _ _ _ _ IH].
  - done.
  - destruct Hev as [->| ->]; by repeat constructor.
  - apply transmitted_events in Hx as [->| ->]; by repeat constructor.
  - apply transmitted_events in Hx as [->| ->]; by repeat constructor.
  - by repeat constructor.
Qed.

(** The events of some connection handled by [client_handle]. *)
Definition client_events (evs : list stats_event) : Prop :=
  exists (fs : FileSystem) config fd worker_id s s', (forall k, counters_in_range (ss_counters s k)) /\
    fd ∈ p_fds (sp s) /\ client_handle config fd worker_id s = Done () s' /\ ss_events s' = ss_events s ++ evs.

Definition sample_events : list stats_event :=
  [EvRequest; EvResponse 200; EvRequest; EvResponse 200; EvFinished].

Lemma sample_client_events : client_events sample_events.
Proof.
  destruct (ended_inv _ _ sample_run) as (s' & Hd & _ & He & _). exists site, sample_config, 7%nat, 0, sample_session, s'.
  split_and!; [intros k; apply zero_in_range|by apply (bool_decide_unpack _)|done|done].
Qed.

Lemma client_events_finish evs : client_events evs ->
  exists evs0, evs = evs0 ++ [EvFinished] /\ Forall (fun e => request_event e = true) evs0.
Proof.
  intros (fs & config & fd & id & s & s' & Hc & Hfd & Hd & He).
  pose proof (wlp_client_handle config fd id s Hc Hfd) as Hw. unfold wlp in Hw. rewrite Hd in Hw.
  destruct Hw as (_ & _ & rcv & snt & evs0 & _ & _ & He' & Ht & _). exists evs0. split.
  - rewrite He in He'. by apply app_inv_head in He'.
  - by eapply talk_request_events.
Qed.

#[export] Instance client_handler : ConnectionHandler :=
  {| handles := client_events;
     handles_some := ex_intro _ _ sample_client_events;
     handles_finish := client_events_finish |}.

(** ** A small server *)

Definition small_queue : connection_queue_t :=
  {| q_block := Some 0%nat; q_items := replicate 2 (Some 0%nat); q_capacity := 2; q_head := 0; q_tail := 0;
     q_count := 0; q_shutting_down := false; q_mutex_initialized := true; q_not_empty_initialized := true;
     q_not_full_initialized := true |}.

Definition small_server : sys :=
  {| y_accept := ATop; y_workers := [WPop]; y_queue := small_queue; y_flag := false;
     y_proc := {| p_malloc_ok := fun _ => true; p_next := 1; p_live := {[+ 0%nat +]}; p_next_fd := 4;
                  p_fds := {[+ 3%nat +]} |};
     y_stats := zero_stats true; y_events := []; y_accepted := []; y_closed := []; y_dropped := [];
     y_log := []; y_peers := fun _ => (SockAddr [x7f; x00; x00; x01] (x1f, x90), true) |}.

Lemma small_server_initial : initial small_server.
Proof.
  split; simpl; try done; [by constructor| |].
  - exists 2%nat. split_and!; [|done..]. split; simpl; try lia; done.
  - intros fd Hfd. apply gmultiset_elem_of_singleton in Hfd as ->. lia.
Qed.

(** One more step of a run. *)
Tactic Notation "extend" hyp(R) uconstr(c) := eapply reach_step in R; [|eapply c; reflexivity].

(** A connection arrives, is queued and waits for its start to be reported. *)
Lemma busy_reachable : exists y, reachable small_server y /\ y_accept y = AStarted /\
  queued (y_queue y) = [4%nat] /\ y_workers y = [WPop].
Proof.
  pose proof (reach_refl small_server) as R. extend R step_check. extend R step_enter. extend R step_accept.
  extend R (step_push _ 4 true true true). eexists. split; [exact R|]. by vm_compute.
Qed.

Lemma connections_have_one_owner_witness : exists y inside, reachable small_server y /\ inside <> [] /\
  inside = accept_fds (y_accept y) ++ queued (y_queue y) ++ concat (map worker_fds (y_workers y)) /\
  y_accepted y ≡ₚ y_closed y ++ inside /\ NoDup (y_accepted y) /\
  p_fds (y_proc y) = p_fds (y_proc small_server) ⊎ list_to_set_disj inside /\
  Forall (fun fd => fd ∉ p_fds (y_proc small_server)) (y_accepted y).
Proof.
  destruct busy_reachable as (y & Hr & Ha & Hq & Hw).
  destruct (connections_have_one_owner small_server y small_server_initial Hr)
    as (inside & Hin & H1 & H2 & H3 & H4).
  exists y, inside. split_and!; [done| |done|done|done|done|done]. by rewrite Hin, Ha, Hq, Hw.
Defined.

Lemma shutdown_always_possible_witness : exists y, reachable small_server y /\ y_accept y = AStarted /\
  exists y', own_steps y y' /\ y_accept y' = ADone /\ p_fds (y_proc y') = p_fds (y_proc small_server).
Proof.
  destruct busy_reachable as (y & Hr & Ha & _). exists y. split_and!; [done|done|].
  apply (shutdown_always_possible small_server y); [apply small_server_initial|done].
Defined.

(** The server after a connection has been served and the signal has come. *)
Lemma ended_reachable : exists y, reachable small_server y /\ y_accept y = ADone /\
  y_workers y = [WExit CONNECTION_QUEUE_SHUTDOWN] /\ y_accepted y = [4%nat].
Proof.
  pose proof (reach_refl small_server) as R. extend R step_check. extend R step_enter. extend R step_accept.
  extend R (step_push _ 4 true true true). extend R step_started.
  eapply reach_step in R; [|eapply (step_pop _ 0 true true 4 _ sample_events); [reflexivity..|apply sample_client_events]].
  do 4 extend R (step_report _ 0 4). extend R (step_close _ 0 4). extend R (step_finish _ 0).
  eapply reach_step in R; [|apply step_signal]. extend R step_check. extend R step_shutdown.
  eapply reach_step in R; [|eapply (step_exit _ 0 true true); [reflexivity..|done]].
  extend R step_join. extend R step_destroy. eexists. split; [exact R|]. by vm_compute.
Qed.

Lemma shutdown_drains_witness : exists y, reachable small_server y /\ y_accepted y = [4%nat] /\
  y_closed y ≡ₚ y_accepted y /\ NoDup (y_closed y) /\ p_fds (y_proc y) = p_fds (y_proc small_server) /\
  (WExit CONNECTION_QUEUE_SHUTDOWN ∈ y_workers y ->
   y_dropped y = [] /\ count is_started (y_events y) = count is_finished (y_events y)) /\
  WExit CONNECTION_QUEUE_SHUTDOWN ∈ y_workers y.
Proof.
  destruct ended_reachable as (y & Hr & Ha & Hw & Hac). exists y. split; [done|]. split; [done|].
  assert (Hin : WExit CONNECTION_QUEUE_SHUTDOWN ∈ y_workers y) by (rewrite Hw; by left).
  destruct (shutdown_drains small_server y small_server_initial Hr Ha) as (? & ? & ? & ?). by split_and!.
Defined.

(** ** Two bad interleavings *)

Lemma accept_waits `{ConnectionHandler} y y' : y_accept y = AAccept false -> rtc (step LInternal) y y' ->
  y_accept y' = AAccept false.
Proof.
  intros Ha Hs. induction Hs as [|y y1 y2 Hs _ IH]; [done|]. apply IH. clear IH.
  inversion Hs; subst; simpl; congruence.
Qed.

(** C39. A missed signal.  The flag is tested before [accept] is entered: a signal that
    comes between the two sets the flag but interrupts nothing, so unless another
    connection or another signal arrives the server waits in [accept] for ever,
    however long the workers go on.  The same happens when [accept] has been entered
    but the signal is handled by a worker, which does not block it. *)
Theorem shutdown_signal_can_be_missed :
  (exists y, reachable small_server y /\ y_flag y = true /\
    forall y', rtc (step LInternal) y y' -> y_accept y' = AAccept false) /\
  (exists y y1, reachable small_server y /\ y_accept y = AAccept false /\ step LSignal y y1 /\
    y_flag y1 = true /\ forall y', rtc (step LInternal) y1 y' -> y_accept y' = AAccept false).
Proof.
  pose proof (reach_refl small_server) as R. extend R step_check. split.
  - eapply reach_step in R; [|apply step_signal]. extend R step_enter.
    eexists. split; [exact R|]. split; [reflexivity|]. intros y'. by apply accept_waits.
  - extend R step_enter. eexists _, _. split; [exact R|]. split; [reflexivity|].
    split; [by apply (step_signal_worker _ 0 WPop)|]. split; [reflexivity|]. intros y'. by apply accept_waits.
Qed.

(** C40. A lost decrement.  The start of a connection is reported after it was queued;
    when a worker has finished it by then, the gauge of active connections stays
    at one although no connection is left. *)
Theorem active_gauge_can_leak : exists y, reachable small_server y /\ y_accept y = ATop /\
  y_workers y = [WPop] /\ queued (y_queue y) = [] /\ y_closed y = y_accepted y /\
  snap_active_connections (server_stats_snapshot (y_stats y)) = 1.
Proof.
  pose proof (reach_refl small_server) as R. extend R step_check. extend R step_enter. extend R step_accept.
  extend R (step_push _ 4 true true true).
  eapply reach_step in R; [|eapply (step_pop _ 0 true true 4 _ sample_events); [reflexivity..|apply sample_client_events]].
  do 4 extend R (step_report _ 0 4). extend R (step_close _ 0 4). extend R (step_finish _ 0).
  extend R step_started. eexists. split; [exact R|]. by vm_compute.
Qed.

(** ** Termination at work *)

(** A signal while a connection waits for its start to be reported. *)
Lemma shutdown_terminates_witness : exists y, reachable small_server y /\ y_accept y = AStarted /\
  queued (y_queue y) = [4%nat] /\ inevitable (fun y' => y_accept y' = ADone) y.
Proof.
  destruct busy_reachable as (y & R & Ha & Hq & _). eapply reach_step in R; [|apply step_signal].
  eexists. split; [exact R|]. simpl. rewrite Ha. split_and!; [done|done|].
  apply (shutdown_terminates small_server); [apply small_server_initial|by rewrite Ha in R|done..].
Defined.
