(* ===== verification/ServerThreads.v ===== *)
(** * The server over the pthread calls of its queue

    In Server.v a push, a pop and the shutdown of the queue are one step each.
    Here they run at the granularity of QueueThreads.v, interleaved with
    everything else the threads do: the accept thread is thread 0 of the queue,
    worker [i] is thread [S i].  Every run of this system is, up to stuttering, a
    run of Server.v: a call takes effect when it is decided under the lock.  A
    section under the mutex is one step here; ServerAccess.v takes it apart. *)
From S2P Require Import Prelude CLib Proc ResponseCorrect Stats ConnectionQueue QueueThreads QueueWake.
From S2P Require Import Server ServerCorrect ServerProps.

(** [fn_sys] is where the threads are outside of the queue (a thread inside a call
    is at the call), with the queue and the flag they share. *)
Record fine := Fine {
  fn_sys : sys;
  fn_owner : option nat;
  fn_pcs : list thread_pc;
}.

(** The threads as the queue sees them. *)
Definition view (f : fine) : threads :=
  Threads (y_queue (fn_sys f)) (fn_owner f) (y_flag (fn_sys f)) (fn_pcs f).

(** After a step inside the queue; the flag is not written there. *)
Definition in_queue (v : threads) (y : sys) : fine :=
  Fine (set_queue (t_queue v) y) (t_owner v) (t_pcs v).

Definition outside (y : sys) (f : fine) : fine := Fine y (fn_owner f) (fn_pcs f).

(** What is done inside a call, neither its beginning nor its end. *)
Definition inner (a : action) : bool :=
  match a with Call _ _ | Leave _ | WakeUp _ | SetAbort => false | _ => true end.

(** A step of Server.v that is not one of a thread at a call of the queue. *)
Definition elsewhere (y y' : sys) : Prop :=
  (y_accept y' = y_accept y \/ y_accept y <> ADrain /\ forall fd, y_accept y <> APush fd) /\
  (forall i, y_workers y !! i = Some WPop -> y_workers y' !! i = Some WPop).

(** [FTimeout]: the timed wait of the push ends; [FSpurious]: another wait ends
    without a signal. *)
Inductive flabel := FStep (l : label) | FTimeout | FSpurious.

Section fine_steps.
  Context `{ConnectionHandler}.

Inductive fstep : flabel -> fine -> fine -> Prop :=
(** [server_run] calls push and shutdown, [worker_main] calls pop. *)
| fs_call_push f fd v ev : y_accept (fn_sys f) = APush fd ->
    act (Call 0 (OpPush fd)) (view f) = Some (v, ev) ->
    fstep (FStep LInternal) f (in_queue v (fn_sys f))
| fs_call_shutdown f v ev : y_accept (fn_sys f) = ADrain ->
    act (Call 0 OpShutdown) (view f) = Some (v, ev) ->
    fstep (FStep LInternal) f (in_queue v (fn_sys f))
| fs_call_pop f i v ev : y_workers (fn_sys f) !! i = Some WPop ->
    act (Call (S i) OpPop) (view f) = Some (v, ev) ->
    fstep (FStep LInternal) f (in_queue v (fn_sys f))
(** The pthread calls. *)
| fs_inner f a v ev : inner a = true -> act a (view f) = Some (v, ev) ->
    fstep (FStep LInternal) f (in_queue v (fn_sys f))
| fs_wake f i v ev : act (WakeUp i) (view f) = Some (v, ev) ->
    fstep (if (i =? 0)%nat then FTimeout else FSpurious) f (in_queue v (fn_sys f))
(** The calls return. *)
| fs_push_returns f fd st v : y_accept (fn_sys f) = APush fd ->
    act (Leave 0) (view f) = Some (v, [EvReturn 0 (Pushed st)]) ->
    fstep (FStep LInternal) f (in_queue v
      (set_accept (if decide (st = CONNECTION_QUEUE_OK) then AStarted else AFailed fd st) (fn_sys f)))
| fs_shutdown_returns f v : y_accept (fn_sys f) = ADrain ->
    act (Leave 0) (view f) = Some (v, [EvReturn 0 Shut]) ->
    fstep (FStep LInternal) f (in_queue v (set_accept (AJoin 0) (fn_sys f)))
| fs_pop_returns f i fd evs v : y_workers (fn_sys f) !! i = Some WPop ->
    act (Leave (S i)) (view f) = Some (v, [EvReturn (S i) (Popped CONNECTION_QUEUE_OK (Some fd))]) ->
    handles evs ->
    fstep (FStep LInternal) f (in_queue v (set_worker i (WHandle fd evs) (fn_sys f)))
| fs_exit f i st fd v : y_workers (fn_sys f) !! i = Some WPop ->
    act (Leave (S i)) (view f) = Some (v, [EvReturn (S i) (Popped st fd)]) -> st <> CONNECTION_QUEUE_OK ->
    fstep (FStep LInternal) f (in_queue v (set_worker i (WExit st) (fn_sys f)))
(** Everything else. *)
| fs_elsewhere f l y : step l (fn_sys f) y -> elsewhere (fn_sys f) y ->
    fstep (FStep l) f (outside y f).

(** A server that has started: nobody is inside the queue. *)
Record fine_initial (f : fine) : Prop := {
  fi_sys : initial (fn_sys f);
  fi_conds : forall c, cond_initialized c (y_queue (fn_sys f)) = true;
  fi_owner : fn_owner f = None;
  fi_pcs : fn_pcs f = replicate (S (length (y_workers (fn_sys f)))) Idle;
}.

Inductive fine_reachable (f0 : fine) : fine -> Prop :=
| fine_refl : fine_reachable f0 f0
| fine_trans l f f' : fine_reachable f0 f -> fstep l f f' -> fine_reachable f0 f'.
End fine_steps.

(** ** The abstract state *)

(** A call that is decided counts as returned; [evs] is what the handler of the
    connection will report. *)
Definition abs_accept (ph : phase) (a : accept_pc) : accept_pc :=
  match ph, a with
  | Done (Pushed st), APush fd =>
      if decide (st = CONNECTION_QUEUE_OK) then AStarted else AFailed fd st
  | Done Shut, ADrain => AJoin 0
  | _, a => a
  end.

Definition abs_worker (evs : list stats_event) (ph : phase) (w : worker_pc) : worker_pc :=
  match ph, w with
  | Done (Popped CONNECTION_QUEUE_OK (Some fd)), WPop => WHandle fd evs
  | Done (Popped CONNECTION_QUEUE_OK None), WPop => WPop
  | Done (Popped st _), WPop => WExit st
  | _, w => w
  end.

Definition phase_at (f : fine) (i : nat) : phase := phase_of (pc_of i (view f)).

Definition abs (plan : nat -> list stats_event) (ph : nat -> phase) (y : sys) : sys :=
  Sys (abs_accept (ph 0%nat) (y_accept y)) (imap (fun i w => abs_worker (plan i) (ph (S i)) w) (y_workers y))
    (y_queue y) (y_flag y) (y_proc y) (y_stats y) (y_events y) (y_accepted y) (y_closed y) (y_dropped y) (y_log y)
    (y_peers y).

Definition abstract (plan : nat -> list stats_event) (f : fine) : sys := abs plan (phase_at f) (fn_sys f).

(** Only a thread at a call is inside the queue, in that call. *)
Definition accept_in (ph : phase) (a : accept_pc) : Prop :=
  match ph with
  | Outside => True
  | Called (OpPush fd) => a = APush fd
  | Done (Pushed _) => exists fd, a = APush fd
  | Called OpShutdown | Done Shut => a = ADrain
  | _ => False
  end.

Definition worker_in (ph : phase) (w : worker_pc) : Prop :=
  match ph with
  | Outside => True
  | Called OpPop => w = WPop
  | Done (Popped st fd) => w = WPop /\ (st = CONNECTION_QUEUE_OK -> is_Some fd)
  | _ => False
  end.

Record fine_ok (f : fine) : Prop := {
  fo_length : length (fn_pcs f) = S (length (y_workers (fn_sys f)));
  fo_accept : accept_in (phase_at f 0) (y_accept (fn_sys f));
  fo_workers : forall i w, y_workers (fn_sys f) !! i = Some w -> worker_in (phase_at f (S i)) w;
  fo_exited : all_exited (fn_sys f);
  fo_sync : y_accept (fn_sys f) <> ADone -> sync_inv (view f);
}.

(** ** Steps of the queue, by phases *)

Lemma history_none j ph ph' : history j ph [] ph' -> ph' = ph.
Proof. intros H. by inversion H. Qed.

Lemma history_one j ph e ph' : history j ph [e] ph' -> event_thread e <> j -> ph' = ph.
Proof.
  intros Hh Hne. inversion Hh as [|? ? ? ? _ H| | |]; subst; simpl in Hne; try congruence. by apply history_none in H.
Qed.

Lemma act_abort a s s' evs : act a s = Some (s', evs) -> a <> SetAbort -> t_abort s' = t_abort s.
Proof.
  intros H Ha. act_cases H; try done.
  - destruct (evaluate_inv _ _ _ _ _ _ _ H) as [(_ & -> & _)|(r & q & _ & _ & -> & _)]; done.
  - simpl. by apply cond_signal_phases in E as (_ & _ & _ & _ & ->).
  - simpl. unfold cond_broadcast. by case_match.
  - simpl. unfold cond_broadcast. by case_match.
Qed.

(** The call begins. *)
Lemma act_call i o s s' evs : act (Call i o) s = Some (s', evs) ->
  pc_of i s = Idle /\ t_queue s' = t_queue s /\ phase_of (pc_of i s') = Called o /\
  forall j, j <> i -> phase_of (pc_of j s') = phase_of (pc_of j s).
Proof.
  intros H. cbn [act] in H. destruct (t_pcs s !! i) as [[]|] eqn:Epc; simplify_eq.
  split_and!; [by apply pc_of_lookup|done|by rewrite (pc_of_set_eq _ _ _ _ Epc)|].
  intros j Hj. by rewrite pc_of_set_ne.
Qed.

(** The call returns. *)
Lemma act_leave i s s' evs : act (Leave i) s = Some (s', evs) -> exists r,
  evs = [EvReturn i r] /\ t_queue s' = t_queue s /\ phase_of (pc_of i s) = Done r /\ pc_of i s' = Idle /\
  forall j, j <> i -> phase_of (pc_of j s') = phase_of (pc_of j s).
Proof.
  intros H. cbn [act] in H. destruct (t_pcs s !! i) as [[]|] eqn:Epc; simplify_eq. eexists. split_and!; [done|done|by rewrite (pc_of_lookup _ _ _ Epc)|
    by rewrite (pc_of_set_eq _ _ _ _ Epc)|]. intros j Hj. by rewrite pc_of_set_ne.
Qed.

(** The steps in between: nothing seen from outside, or one call is decided. *)
Inductive inside (s s' : threads) : Prop :=
| inside_quiet : t_queue s' = t_queue s ->
    (forall j, phase_of (pc_of j s') = phase_of (pc_of j s)) -> inside s s'
| inside_commit i o k ck wt r :
    phase_of (pc_of i s) = Called o ->
    queue_step (queue_call_of o (t_abort s) k ck wt) (t_queue s) = (r, t_queue s') -> r <> Waits ->
    phase_of (pc_of i s') = Done r ->
    (forall j, j <> i -> phase_of (pc_of j s') = phase_of (pc_of j s)) -> inside s s'.

Lemma act_inside a s s' evs : act a s = Some (s', evs) -> (forall i o, a <> Call i o) ->
  (forall i, a <> Leave i) -> inside s s'.
Proof.
  intros H Hc Hl. pose proof (act_history _ _ _ _ H) as Hh. pose proof (act_run _ _ _ _ H) as Hr.
  assert (Hq : evs = [] -> inside s s').
  { intros ->. apply inside_quiet; [by injection Hr as ->|]. intros j. by apply (history_none j). }
  assert (Hcom : forall i o k ck wt r, evs = [EvCommit i (queue_call_of o (t_abort s) k ck wt) r] ->
    phase_of (pc_of i s) = Called o -> inside s s').
  { intros i o k ck wt r -> Hph. specialize (Hh i) as Hi. rewrite Hph in Hi.
    inversion Hi as [|? ? ? ? Hne| |? ? ? ? ? ? ? ? Hw Hn|]; subst; [by simpl in Hne|].
    apply history_none in Hn. apply (inside_commit _ _ i o k ck wt r); try done.
    - unfold committed, answers in Hr. cbn [omap list_omap run] in Hr.
      destruct (queue_step _ _) as [r' q']. by injection Hr as -> ->.
    - intros j Hj. specialize (Hh j). by apply history_one in Hh; [|by simpl]. }
  clear Hh Hr. act_cases H; try (by apply Hq); try (by exfalso; eapply Hc); try (by exfalso; eapply Hl).
  - eapply Hcom; [done|]. by rewrite (pc_of_lookup _ _ _ Epc0).
  - eapply Hcom; [done|]. by rewrite (pc_of_lookup _ _ _ Epc0).
  - destruct (evaluate_inv _ _ _ _ _ _ _ H) as [(_ & _ & ->)|(r & q & _ & _ & _ & ->)]; [by apply Hq|].
    eapply Hcom; [done|]. by rewrite (pc_of_lookup _ _ _ Epc).
Qed.

(** ** Simulation *)

Lemma abs_ext plan ph ph' y : (forall i, ph' i = ph i) -> abs plan ph' y = abs plan ph y.
Proof. intros Hp. unfold abs. rewrite Hp. f_equal. apply imap_ext. intros i w _. by rewrite Hp. Qed.

Lemma set_same_queue y : set_queue (y_queue y) y = y.
Proof. by destruct y. Qed.

(** A thread inside the queue is one of the server's. *)
Lemma inside_worker f i : fine_ok f -> phase_at f (S i) <> Outside ->
  exists w, y_workers (fn_sys f) !! i = Some w.
Proof.
  intros Hf Hp. apply lookup_lt_is_Some. unfold phase_at, pc_of in Hp. simpl in Hp.
  destruct (fn_pcs f !! S i) as [pc|] eqn:E; [|done]. apply lookup_lt_Some in E.
  rewrite (fo_length _ Hf) in E. lia.
Qed.

Lemma inside_live f i : fine_ok f -> phase_at f i <> Outside -> y_accept (fn_sys f) <> ADone.
Proof.
  intros Hf Hp Ha. destruct i as [|i].
  - pose proof (fo_accept _ Hf) as Hin. rewrite Ha in Hin. unfold accept_in in Hin.
    destruct (phase_at f 0) as [|[]|[]]; try done. by destruct Hin.
  - destruct (inside_worker f i Hf Hp) as [w Hw]. pose proof (fo_workers _ Hf i w Hw) as Hin.
    pose proof (fo_exited _ Hf) as He. unfold all_exited in He. rewrite Ha in He.
    destruct (He i w Hw) as [st ->]. unfold worker_in in Hin. destruct (phase_at f (S i)) as [|[]|[]]; try done.
    by destruct Hin.
Qed.

(** What a decided call of the accept thread is for Server.v. *)
Lemma commit_accept `{ConnectionHandler} plan ph ph' y o k ck wt r q :
  accept_in (ph 0%nat) (y_accept y) -> ph 0%nat = Called o -> ph' 0%nat = Done r ->
  queue_step (queue_call_of o (y_flag y) k ck wt) (y_queue y) = (r, q) -> r <> Waits ->
  (forall j, j <> 0%nat -> ph' j = ph j) ->
  step LInternal (abs plan ph y) (abs plan ph' (set_queue q y)).
Proof.
  intros Hin Hp Hp' Hq Hr Hoth. rewrite Hp in Hin.
  assert (Hw : imap (fun i w => abs_worker (plan i) (ph' (S i)) w) (y_workers y) =
    imap (fun i w => abs_worker (plan i) (ph (S i)) w) (y_workers y)).
  { apply imap_ext. intros i w _. by rewrite Hoth. }
  destruct o as [fd| |]; simpl in Hin; [|done|].
  - cbn [queue_call_of queue_step] in Hq. destruct (connection_queue_push _ _ _ _ _ _) as [st q'|] eqn:E; [|by simplify_eq].
    injection Hq as <- ->. pose proof (step_push (abs plan ph y) fd k ck wt st q) as Hs.
    unfold abs in *. simpl in *. rewrite Hp, Hp', Hin in *. rewrite Hw. apply Hs; [done|exact E].
  - cbn [queue_call_of queue_step] in Hq. injection Hq as <- <-.
    pose proof (step_shutdown (abs plan ph y)) as Hs.
    unfold abs in *. simpl in *. rewrite Hp, Hp', Hin in *. rewrite Hw. by apply Hs.
Qed.

Lemma imap_insert_worker (plan : nat -> list stats_event) (ph ph' : nat -> phase) ws i w w' :
  ws !! i = Some w -> (forall j, j <> S i -> ph' j = ph j) -> abs_worker (plan i) (ph' (S i)) w = w' ->
  imap (fun i w => abs_worker (plan i) (ph' (S i)) w) ws =
  <[i := w']> (imap (fun i w => abs_worker (plan i) (ph (S i)) w) ws).
Proof.
  intros Hw Hoth Hab. apply list_eq. intros j. destruct (decide (j = i)) as [->|Hne].
  - rewrite list_lookup_insert_eq by (rewrite length_imap; by eapply lookup_lt_Some).
    rewrite list_lookup_imap, Hw. simpl. by rewrite Hab.
  - rewrite list_lookup_insert_ne by done. rewrite !list_lookup_imap. destruct (ws !! j); [|done]. simpl.
    rewrite Hoth; [done|congruence].
Qed.

(** The same for a worker. *)
Lemma commit_worker `{ConnectionHandler} plan ph ph' y f i w o k ck wt r q :
  implements (y_queue y) f -> y_workers y !! i = Some w -> worker_in (ph (S i)) w -> handles (plan i) ->
  ph (S i) = Called o -> ph' (S i) = Done r ->
  queue_step (queue_call_of o (y_flag y) k ck wt) (y_queue y) = (r, q) -> r <> Waits ->
  (forall j, j <> S i -> ph' j = ph j) ->
  step LInternal (abs plan ph y) (abs plan ph' (set_queue q y)).
Proof.
  intros Hi Hw Hin Hpl Hp Hp' Hq Hr Hoth. rewrite Hp in Hin. destruct o as [fd| |]; simpl in Hin; try done. subst w.
  cbn [queue_call_of queue_step] in Hq. destruct (connection_queue_pop _ _ _) as [[st fd] q'|] eqn:E; [|by simplify_eq].
  injection Hq as <- ->.
  assert (Hwp : y_workers (abs plan ph y) !! i = Some WPop).
  { simpl. rewrite list_lookup_imap, Hw. simpl. by rewrite Hp. }
  destruct (pop_queued _ _ _ _ _ _ _ Hi E) as [(x & -> & -> & _)|(Hne & _)].
  - pose proof (step_pop (abs plan ph y) i k wt x q (plan i) Hwp) as Hs.
    assert (Heq : abs plan ph' (set_queue q y) = set_worker i (WHandle x (plan i)) (set_queue q (abs plan ph y))).
    { unfold abs, set_worker, set_queue. simpl. rewrite (Hoth 0%nat) by done. f_equal.
      eapply imap_insert_worker; [done..|]. by rewrite Hp'. }
    rewrite Heq. by apply Hs.
  - pose proof (step_exit (abs plan ph y) i k wt st fd q Hwp) as Hs.
    assert (Heq : abs plan ph' (set_queue q y) = set_worker i (WExit st) (set_queue q (abs plan ph y))).
    { unfold abs, set_worker, set_queue. simpl. rewrite (Hoth 0%nat) by done. f_equal.
      eapply imap_insert_worker; [done..|]. rewrite Hp'. by destruct st. }
    rewrite Heq. by apply Hs.
Qed.

Lemma accept_outside ph a : accept_in ph a -> a <> ADrain -> (forall fd, a <> APush fd) -> ph = Outside.
Proof.
  intros Hin Hd Hp. destruct ph as [|[]|[]]; simpl in Hin; try done; [by eapply Hp in Hin|].
  destruct Hin as [fd Hin]. by eapply Hp in Hin.
Qed.

Lemma worker_outside ph w : worker_in ph w -> w <> WPop -> ph = Outside.
Proof. intros Hin Hw. destruct ph as [|[]|[]]; simpl in Hin; try done. by destruct Hin. Qed.

(** A worker outside of the queue moves. *)
Lemma abs_set_worker plan ph i w y : ph (S i) = Outside ->
  abs plan ph (set_worker i w y) = set_worker i w (abs plan ph y).
Proof.
  intros Hp. unfold abs, set_worker. simpl. f_equal. apply list_eq. intros j.
  rewrite list_lookup_imap. destruct (decide (i = j)) as [<-|Hne].
  - destruct (decide (i < length (y_workers y))%nat) as [Hl|Hl].
    + rewrite !list_lookup_insert_eq by (rewrite ?length_imap; done). simpl. by rewrite Hp.
    + rewrite !list_insert_ge by (rewrite ?length_imap; lia). by rewrite list_lookup_imap.
  - by rewrite !list_lookup_insert_ne, list_lookup_imap by done.
Qed.

(** The accept thread outside of the queue moves. *)
Ltac accept_move Hout Hstep :=
  let H0 := fresh "H0" in let Hs := fresh "Hs" in
  pose proof (Hout ltac:(done) ltac:(done)) as H0; pose proof Hstep as Hs;
  unfold abs in *; simpl in *; rewrite H0 in *; by apply Hs.

(** A step elsewhere is the same step of Server.v. *)
Lemma sim_elsewhere `{ConnectionHandler} plan ph y y' l : accept_in (ph 0%nat) (y_accept y) ->
  (forall i w, y_workers y !! i = Some w -> worker_in (ph (S i)) w) ->
  step l y y' -> elsewhere y y' -> step l (abs plan ph y) (abs plan ph y').
Proof.
  intros Hin Hws Hs Hel.
  assert (Hout : forall a, y_accept y = a -> a <> ADrain -> (forall fd, a <> APush fd) -> ph 0%nat = Outside).
  { intros a <- Hd Hp. by eapply accept_outside. }
  assert (Hwk : forall i w, y_workers y !! i = Some w -> w <> WPop ->
    ph (S i) = Outside /\ y_workers (abs plan ph y) !! i = Some w).
  { intros i w Hw Hne. pose proof (worker_outside _ _ (Hws i w Hw) Hne) as Ho. split; [done|].
    simpl. rewrite list_lookup_imap, Hw. simpl. by rewrite Ho. }
  destruct Hs as [y|y i w Hw Hx|y Ha|y Ha|y i fd p Ha Hop|y Ha|y i Ha|y fd k c w st q Ha Hp|
    y fd st p Ha Hcl|y Ha|y Ha|y i st Ha Hw|y q p Ha Hd|y i k wt fd q evs Hw Hp Hev|y i k wt st fd q Hw Hp Hne|
    y i fd e e' evs Hw|y i fd e p Hw Hcl|y i Hw].
  - pose proof (step_signal (abs plan ph y)) as Hs. unfold abs in *. simpl in *.
    destruct (ph 0%nat) as [|[]|[]]; simpl in *; try done; try (by rewrite Hin in * ).
    destruct Hin as [fd Hin]. rewrite Hin in *. by destruct (decide _).
  - assert (Hl : is_Some (y_workers (abs plan ph y) !! i)) by (simpl; rewrite list_lookup_imap, Hw; by eexists).
    destruct Hl as [w' Hw']. apply (step_signal_worker (abs plan ph y) i w' Hw'). simpl.
    destruct (ph 0%nat) as [|[]|[]]; simpl in *; try done; [|rewrite Hin; simpl; lia].
    destruct Hin as [fd ->]. by destruct (decide _).
  - accept_move (Hout _ Ha) (step_check (abs plan ph y)).
  - accept_move (Hout _ Ha) (step_enter (abs plan ph y)).
  - accept_move (Hout _ Ha) (step_accept (abs plan ph y) i fd p).
  - accept_move (Hout _ Ha) (step_eintr (abs plan ph y)).
  - accept_move (Hout _ Ha) (step_accept_error (abs plan ph y) i).
  - exfalso. destruct Hel as [[He|[_ He]] _]; [|by apply (He fd)]. rewrite Ha in He. simpl in He. by destruct (decide _).
  - accept_move (Hout _ Ha) (step_reject (abs plan ph y) fd st p).
  - accept_move (Hout _ Ha) (step_started (abs plan ph y)).
  - exfalso. destruct Hel as [[He|[He _]] _]; [by rewrite Ha in He|done].
  - destruct (Hwk i _ Hw ltac:(done)) as [_ Hw']. accept_move (Hout _ Ha) (step_join (abs plan ph y) i st).
  - pose proof (step_destroy (abs plan ph y) q p) as Hs. assert (H0 : ph 0%nat = Outside) by (by eapply Hout).
    unfold abs in *. simpl in *. rewrite H0 in *. rewrite length_imap in Hs. by apply Hs.
  - exfalso. destruct Hel as [_ He]. specialize (He i Hw). simpl in He.
    by rewrite list_lookup_insert_eq in He by (by eapply lookup_lt_Some).
  - exfalso. destruct Hel as [_ He]. specialize (He i Hw). simpl in He.
    by rewrite list_lookup_insert_eq in He by (by eapply lookup_lt_Some).
  - destruct (Hwk i _ Hw ltac:(done)) as [Ho Hw']. rewrite abs_set_worker by done.
    by apply (step_report (abs plan ph y) i fd e e' evs).
  - destruct (Hwk i _ Hw ltac:(done)) as [Ho Hw']. rewrite abs_set_worker by done.
    by apply (step_close (abs plan ph y) i fd e p).
  - destruct (Hwk i _ Hw ltac:(done)) as [Ho Hw']. rewrite abs_set_worker by done.
    by apply (step_finish (abs plan ph y) i).
Qed.

(** A step inside the queue: nothing for Server.v, or one step of it. *)
Lemma sim_inside `{ConnectionHandler} plan f v : fine_ok f -> (forall i, handles (plan i)) ->
  inside (view f) v ->
  abstract plan (in_queue v (fn_sys f)) = abstract plan f \/
  step LInternal (abstract plan f) (abstract plan (in_queue v (fn_sys f))).
Proof.
  intros Hf Hpl [Hq Hph|i o k ck wt r Hp Hq Hr Hp' Hoth].
  - left. unfold abstract, in_queue. simpl in *. rewrite Hq, set_same_queue. by apply abs_ext.
  - right. assert (Hlive : y_accept (fn_sys f) <> ADone).
    { apply (inside_live f i Hf). unfold phase_at. by rewrite Hp. }
    destruct (si_queue _ (fo_sync _ Hf Hlive)) as [ff Hi]. destruct i as [|i].
    + eapply commit_accept; [apply (fo_accept _ Hf)|done..].
    + destruct (inside_worker f i Hf) as [w Hw]; [unfold phase_at; by rewrite Hp|].
      eapply commit_worker; [done|done|by apply (fo_workers _ Hf)|done..].
Qed.

Lemma view_in_queue v y : t_abort v = y_flag y -> view (in_queue v y) = v.
Proof. destruct v. unfold view, in_queue. simpl. by intros ->. Qed.

(** The reply of a decided call. *)
Lemma popped_some o a k ck wt q f st fd q' : implements q f ->
  queue_step (queue_call_of o a k ck wt) q = (Popped st fd, q') -> st = CONNECTION_QUEUE_OK -> is_Some fd.
Proof.
  intros Hi Hq ->. destruct o; cbn [queue_call_of queue_step] in Hq; try (by repeat case_match; simplify_eq).
  destruct (connection_queue_pop q k wt) as [[st' fd'] q2|] eqn:E; simplify_eq.
  destruct (pop_queued _ _ _ _ _ _ _ Hi E) as [(x & _ & -> & _)|[? _]]; [eauto|done].
Qed.

Lemma reply_of o a k ck wt q r q' : queue_step (queue_call_of o a k ck wt) q = (r, q') -> r <> Waits ->
  match o, r with
  | OpPush _, Pushed _ | OpPop, Popped _ _ | OpShutdown, Shut => True
  | _, _ => False
  end.
Proof. intros Hq Hr. destruct o; cbn [queue_call_of queue_step] in Hq; repeat case_match; by simplify_eq. Qed.

Lemma ok_inside f v : fine_ok f -> inside (view f) v -> length (t_pcs v) = length (fn_pcs f) ->
  (y_accept (fn_sys f) <> ADone -> sync_inv (view f) -> sync_inv (view (in_queue v (fn_sys f)))) ->
  fine_ok (in_queue v (fn_sys f)).
Proof.
  intros Hf Hin Hl Hsync. pose proof Hf as [Hlen Ha Hw He Hs].
  assert (Hph : forall j, phase_at (in_queue v (fn_sys f)) j = phase_of (pc_of j v)) by done.
  split; simpl; [lia| | |done|auto].
  - rewrite Hph. destruct Hin as [Hq Hp|i o k ck wt r Hp Hq Hr Hp' Hoth]; [by rewrite Hp|].
    destruct i as [|i]; [|by rewrite Hoth]. rewrite Hp'. apply reply_of in Hq; [|done].
    unfold phase_at in Ha. rewrite Hp in Ha. destruct o, r; try done; simpl in *. by eexists.
  - intros j w Hj. rewrite Hph. specialize (Hw j w Hj). unfold phase_at in Hw.
    destruct Hin as [Hq Hp|i o k ck wt r Hp Hq Hr Hp' Hoth]; [by rewrite Hp|].
    destruct (decide (S j = i)) as [<-|Hne]; [|by rewrite Hoth]. rewrite Hp'. rewrite Hp in Hw.
    pose proof (reply_of _ _ _ _ _ _ _ _ Hq Hr) as Hrep. destruct o; simpl in Hw; try done.
    destruct r as [|st fd| |]; try done. split; [done|].
    assert (Hlive : y_accept (fn_sys f) <> ADone).
    { apply (inside_live f (S j) Hf). unfold phase_at. by rewrite Hp. }
    destruct (si_queue _ (Hs Hlive)) as [ff Hi]. by eapply popped_some.
Qed.

Lemma sync_abort q o a a' pcs : sync_inv (Threads q o a pcs) -> sync_inv (Threads q o a' pcs).
Proof. intros [? ? ? ? ?]. by split. Qed.

(** A call begins: a thread at a call goes inside. *)
Lemma ok_call f i o v ev : fine_ok f -> act (Call i o) (view f) = Some (v, ev) ->
  match i with
  | O => accept_in (Called o) (y_accept (fn_sys f))
  | S i => exists w, y_workers (fn_sys f) !! i = Some w /\ worker_in (Called o) w
  end ->
  fine_ok (in_queue v (fn_sys f)) /\ forall plan, abstract plan (in_queue v (fn_sys f)) = abstract plan f.
Proof.
  intros Hf Hact Hin. pose proof Hf as [Hlen Ha Hw He Hs].
  destruct (act_call _ _ _ _ _ Hact) as (Hpc & Hq & Hp & Hoth).
  assert (Hv : view (in_queue v (fn_sys f)) = v) by (by apply view_in_queue, (act_abort _ _ _ _ Hact)).
  assert (Hph : forall j, phase_at (in_queue v (fn_sys f)) j = phase_of (pc_of j v)) by done.
  split.
  - split; [by simpl; rewrite (act_length _ _ _ _ Hact)| | |done|].
    + rewrite Hph. simpl. destruct i as [|i]; [by rewrite Hp|by rewrite Hoth].
    + intros j w Hj. rewrite Hph. destruct (decide (i = S j)) as [->|Hne].
      * destruct Hin as (w' & Hw' & Hin). simpl in Hj. simplify_eq. by rewrite Hp.
      * rewrite Hoth by congruence. by apply Hw.
    + intros Hnd. rewrite Hv. by eapply sync_act, Hs.
  - intros plan. unfold abstract. cbn [in_queue fn_sys]. rewrite Hq. cbn [view t_queue].
    rewrite set_same_queue. unfold abs. f_equal.
    + rewrite Hph. destruct i as [|i]; [|by rewrite Hoth]. unfold phase_at. rewrite Hp, Hpc.
      simpl in Hin. by destruct o; simpl in *; try rewrite Hin.
    + apply imap_ext. intros j w Hj. rewrite Hph. destruct (decide (i = S j)) as [->|Hne].
      * destruct Hin as (w' & Hw' & Hin). simplify_eq. unfold phase_at. rewrite Hp, Hpc. by destruct o.
      * by rewrite Hoth by congruence.
Qed.

(** A call returns: the thread is outside, where the reply takes it. *)
Lemma ok_leave f i v ev y : fine_ok f -> act (Leave i) (view f) = Some (v, ev) ->
  y_queue y = y_queue (fn_sys f) -> y_flag y = y_flag (fn_sys f) ->
  length (y_workers y) = length (y_workers (fn_sys f)) -> all_exited y ->
  match i with
  | O => y_workers y = y_workers (fn_sys f)
  | S i => y_accept y = y_accept (fn_sys f) /\
      forall j, j <> i -> y_workers y !! j = y_workers (fn_sys f) !! j
  end ->
  fine_ok (in_queue v y) /\ set_queue (t_queue v) y = y.
Proof.
  intros Hf Hact Hq Hfl Hlen Hex Hmove. pose proof Hf as [Hlen' Ha Hw He Hs].
  destruct (act_leave _ _ _ _ Hact) as (r & -> & Hqv & Hp & Hpc & Hoth).
  assert (Hsame : set_queue (t_queue v) y = y) by (replace (t_queue v) with (y_queue y) by (by rewrite Hqv); apply set_same_queue).
  assert (Hv : view (in_queue v y) = v).
  { apply view_in_queue. rewrite (act_abort _ _ _ _ Hact) by done. done. }
  assert (Hph : forall j, phase_at (in_queue v y) j = phase_of (pc_of j v)) by done.
  assert (Hlive : y_accept (fn_sys f) <> ADone).
  { apply (inside_live f i Hf). unfold phase_at. by rewrite Hp. }
  split; [|done]. split; simpl.
  - rewrite (act_length _ _ _ _ Hact). simpl. lia.
  - rewrite Hph. destruct i as [|i]; [by rewrite Hpc|]. destruct Hmove as [-> _]. by rewrite Hoth.
  - intros j w Hj. rewrite Hph. destruct (decide (i = S j)) as [->|Hne]; [by rewrite Hpc|].
    rewrite Hoth by congruence. apply Hw. destruct i as [|i]; [by rewrite <- Hmove|].
    destruct Hmove as [_ Hm]. rewrite <- Hm by congruence. done.
  - done.
  - intros _. rewrite Hv. by eapply sync_act, Hs.
Qed.

Lemma elsewhere_same `{ConnectionHandler} l y y' : step l y y' -> elsewhere y y' ->
  length (y_workers y') = length (y_workers y) /\ (y_accept y = ADone -> y_accept y' = ADone) /\
  (y_accept y' <> ADone -> y_queue y' = y_queue y).
Proof.
  intros Hs Hel. destruct Hs; simpl; rewrite ?length_insert; try (split_and!; congruence).
  - split_and!; [done|by destruct (y_accept y)|done].
  - exfalso. destruct Hel as [[He|[_ He]] _]; [|by eapply He]. simpl in He. destruct (decide _); congruence.
  - exfalso. destruct Hel as [[He|[He _]] _]; [simpl in He; congruence|done].
  - exfalso. destruct Hel as [_ He]. specialize (He _ H0). simpl in He.
    by rewrite list_lookup_insert_eq in He by (by eapply lookup_lt_Some).
  - exfalso. destruct Hel as [_ He]. specialize (He _ H0). simpl in He.
    by rewrite list_lookup_insert_eq in He by (by eapply lookup_lt_Some).
Qed.

(** The accept thread takes its reply along: nothing new for Server.v. *)
Lemma abs_leave_accept plan f v ev a : act (Leave 0) (view f) = Some (v, ev) ->
  a = abs_accept (phase_at f 0) (y_accept (fn_sys f)) ->
  abstract plan (in_queue v (set_accept a (fn_sys f))) = abstract plan f.
Proof.
  intros Hact ->. destruct (act_leave _ _ _ _ Hact) as (r & _ & Hq & _ & Hpc & Hoth).
  assert (Hph : forall g j, phase_at (in_queue v g) j = phase_of (pc_of j v)) by done.
  unfold abstract, abs. rewrite !Hph, Hpc. cbn [in_queue fn_sys set_queue set_accept y_accept y_workers y_queue
    y_flag y_proc y_stats y_events y_accepted y_closed y_dropped y_log y_peers phase_of abs_accept]. rewrite Hq. f_equal.
  apply imap_ext. intros i w _. rewrite Hph. f_equal. by apply Hoth.
Qed.

(** So does a worker, whose handler reports [evs]. *)
Lemma abs_leave_worker plan f v ev i w w' evs : act (Leave (S i)) (view f) = Some (v, ev) ->
  y_workers (fn_sys f) !! i = Some w -> w' = abs_worker evs (phase_at f (S i)) w ->
  abstract plan (in_queue v (set_worker i w' (fn_sys f))) =
  abstract (fun j => if decide (j = i) then evs else plan j) f.
Proof.
  intros Hact Hw ->. destruct (act_leave _ _ _ _ Hact) as (r & _ & Hq & _ & Hpc & Hoth).
  unfold abstract, abs. cbn. rewrite Hq.
  assert (Hph : forall g j, phase_at (in_queue v g) j = phase_of (pc_of j v)) by done. rewrite !Hph.
  rewrite (Hoth 0%nat) by done. f_equal. apply list_eq. intros j. rewrite !list_lookup_imap.
  destruct (decide (i = j)) as [<-|Hne].
  - rewrite list_lookup_insert_eq by (by eapply lookup_lt_Some). rewrite Hw. cbn. rewrite Hph, Hpc.
    by rewrite decide_True.
  - rewrite list_lookup_insert_ne by done. destruct (y_workers (fn_sys f) !! j); [|done]. cbn.
    rewrite Hph, (Hoth (S j)) by congruence. by rewrite decide_False.
Qed.

Section refinement.
  Context `{ConnectionHandler}.

(** The label of the step of Server.v. *)
Definition label_of (l : flabel) : label := match l with FStep l => l | _ => LInternal end.

Definition simulated (l : flabel) (f f' : fine) : Prop :=
  forall plan', (forall i, handles (plan' i)) -> exists plan, (forall i, handles (plan i)) /\
    (abstract plan' f' = abstract plan f \/ step (label_of l) (abstract plan f) (abstract plan' f')).

Lemma simulated_same l f f' : (forall plan, abstract plan f' = abstract plan f) -> simulated l f f'.
Proof. intros Hs plan Hp. exists plan. split; [done|]. left. apply Hs. Qed.

Lemma simulated_inside l f a v ev : label_of l = LInternal -> fine_ok f -> act a (view f) = Some (v, ev) ->
  (forall i o, a <> Call i o) -> (forall i, a <> Leave i) -> a <> SetAbort ->
  fine_ok (in_queue v (fn_sys f)) /\ simulated l f (in_queue v (fn_sys f)).
Proof.
  intros Hlab Hf Hact Hc Hl Hs. pose proof (act_inside _ _ _ _ Hact Hc Hl) as Hin. split.
  - apply ok_inside; [done|done|exact (act_length _ _ _ _ Hact)|]. intros _ Hsync.
    rewrite view_in_queue by (by apply (act_abort _ _ _ _ Hact)). by eapply sync_act.
  - intros plan Hp. exists plan. split; [done|].
    rewrite Hlab. by apply sim_inside.
Qed.

Lemma ok_elsewhere l f y : fine_ok f -> step l (fn_sys f) y -> elsewhere (fn_sys f) y ->
  fine_ok (outside y f).
Proof.
  intros Hf Hst Hel. pose proof Hf as [Hlen Ha Hw He Hsync].
  destruct (elsewhere_same l _ _ Hst Hel) as (Hl & Hd & Hq). split; simpl.
  - by rewrite Hl.
  - change (accept_in (phase_at f 0) (y_accept y)). destruct Hel as [[Heq|[Hn Hp]] _]; [by rewrite Heq|].
    by rewrite (accept_outside _ _ Ha Hn Hp).
  - intros i w Hi. change (worker_in (phase_at f (S i)) w). destruct (y_workers (fn_sys f) !! i) as [w0|] eqn:Hi0.
    + specialize (Hw i w0 Hi0). assert (Hc : w0 = WPop \/ w0 <> WPop) by (destruct w0; auto).
      destruct Hc as [->|Hne]; [apply Hel in Hi0; by simplify_eq|]. by rewrite (worker_outside _ _ Hw Hne).
    + apply lookup_lt_Some in Hi. apply lookup_ge_None in Hi0. lia.
  - by eapply all_exited_step.
  - intros Hnd. unfold view. simpl. rewrite Hq by done. eapply sync_abort, Hsync. auto.
Qed.

Lemma all_exited_accept y a : (forall k, a <> AJoin (S k)) -> a <> ADone -> all_exited (set_accept a y).
Proof. intros Hj Hd. unfold all_exited. destruct a as [| | | | | | |[|k]|]; simpl; try done; [lia|by destruct (Hj k)]. Qed.

Lemma fine_step l f f' : fine_ok f -> fstep l f f' -> fine_ok f' /\ simulated l f f'.
Proof.
  intros Hf Hs. pose proof Hf as [Hlen Ha Hw He Hsync].
  destruct Hs as [f fd v ev Hacc Hact|f v ev Hacc Hact|f i v ev Hwk Hact|f a v ev Hin Hact|f i v ev Hact|
    f fd st v Hacc Hact|f v Hacc Hact|f i fd evs v Hwk Hact Hev|f i st fd v Hwk Hact Hne|f l y Hst Hel].
  - destruct (ok_call _ _ _ _ _ Hf Hact) as [Hok Hab]; [done|]. split; [done|by apply simulated_same].
  - destruct (ok_call _ _ _ _ _ Hf Hact) as [Hok Hab]; [done|]. split; [done|by apply simulated_same].
  - destruct (ok_call _ _ _ _ _ Hf Hact) as [Hok Hab]; [by eexists|]. split; [done|by apply simulated_same].
  - apply (simulated_inside _ f a v ev); try done; by intros; intros ->.
  - apply (simulated_inside _ f (WakeUp i) v ev); try done. by destruct i.
  - destruct (act_leave _ _ _ _ Hact) as (r & [= <-] & _ & Hp & _). split.
    + eapply (ok_leave f 0); try done. apply all_exited_accept; by destruct (decide _).
    + apply simulated_same. intros plan. eapply abs_leave_accept; [done|]. unfold phase_at. by rewrite Hp, Hacc.
  - destruct (act_leave _ _ _ _ Hact) as (r & [= <-] & _ & Hp & _). split.
    + eapply (ok_leave f 0); try done. by apply all_exited_accept.
    + apply simulated_same. intros plan. eapply abs_leave_accept; [done|]. unfold phase_at. by rewrite Hp, Hacc.
  - destruct (act_leave _ _ _ _ Hact) as (r & [= <-] & _ & Hp & _). split.
    + eapply (ok_leave f (S i)); try done; simpl; rewrite ?length_insert; try done.
      * exact (all_exited_worker (fn_sys f) i _ _ He Hwk eq_refl).
      * split; [done|]. intros j Hj. by rewrite list_lookup_insert_ne.
    + intros plan Hpl. exists (fun j => if decide (j = i) then evs else plan j).
      split; [intros j; by destruct (decide _)|]. left. eapply abs_leave_worker; [done..|].
      unfold phase_at. by rewrite Hp.
  - destruct (act_leave _ _ _ _ Hact) as (r & [= <-] & _ & Hp & _). split.
    + eapply (ok_leave f (S i)); try done; simpl; rewrite ?length_insert; try done.
      * exact (all_exited_worker (fn_sys f) i _ _ He Hwk eq_refl).
      * split; [done|]. intros j Hj. by rewrite list_lookup_insert_ne.
    + intros plan Hpl. exists (fun j => if decide (j = i) then plan i else plan j).
      split; [intros j; destruct (decide _); subst; done|]. left. eapply abs_leave_worker; [done..|].
      unfold phase_at. rewrite Hp. by destruct st.
  - destruct (elsewhere_same l _ _ Hst Hel) as (Hl & Hd & Hq). split.
    + by apply (ok_elsewhere l).
    + intros plan Hpl. exists plan. split; [done|]. right. cbn [label_of].
      apply (sim_elsewhere plan (phase_at f)); [done|done|done|done].
Qed.

Lemma initial_outside f i : fine_initial f -> phase_at f i = Outside.
Proof.
  intros [Hi _ _ Hp]. unfold phase_at, pc_of. simpl. rewrite Hp. destruct (_ !! i) as [pc|] eqn:E; [|done].
  by apply lookup_replicate_1 in E as [-> _].
Qed.

Lemma fine_ok_initial f : fine_initial f -> fine_ok f.
Proof.
  intros Hfi. assert (Hph : forall i, phase_at f i = Outside) by (intros i; by apply initial_outside).
  destruct Hfi as [Hi Hc Ho Hp].
  split; [by rewrite Hp, length_replicate|by rewrite Hph|intros i w _; by rewrite Hph| |].
  - unfold all_exited. by rewrite (i_accept _ Hi).
  - intros _. destruct (i_queue _ Hi) as [bound Hq]. apply (sync_at_rest _ (Fifo bound [] false)).
    split; simpl; [done|done|done|]. rewrite Hp. by apply Forall_replicate.
Qed.

Lemma fine_ok_reachable f0 f : fine_initial f0 -> fine_reachable f0 f -> fine_ok f.
Proof. intros Hi Hr. induction Hr as [|l f f' _ IH Hs]; [by apply fine_ok_initial|]. by eapply fine_step. Qed.

Lemma abstract_outside plan f : (forall i, phase_at f i = Outside) -> abstract plan f = fn_sys f.
Proof.
  intros Hph. unfold abstract, abs. rewrite Hph. destruct (fn_sys f) as [a ws ? ? ? ? ? ? ? ? ? ?]. simpl. f_equal.
  apply list_eq. intros i. rewrite list_lookup_imap. destruct (ws !! i); simpl; [by rewrite Hph|done].
Qed.

Lemma fine_refines f0 f plan : fine_initial f0 -> fine_reachable f0 f -> (forall i, handles (plan i)) ->
  reachable (fn_sys f0) (abstract plan f).
Proof.
  intros Hi Hr. revert plan. induction Hr as [|l f f' Hr IH Hs]; intros plan Hp.
  - rewrite abstract_outside by (intros i; by apply initial_outside). apply reach_refl.
  - destruct (fine_step l f f') as [_ Hsim]; [by eapply fine_ok_reachable|done|].
    destruct (Hsim plan Hp) as (plan0 & Hp0 & [->|Hs']); [by apply IH|].
    eapply reach_step; [by apply IH|done].
Qed.
End refinement.
