(* ===== verification/ServerAccess.v ===== *)
(** * The server over the memory accesses of its queue

    ServerThreads.v with the critical sections of the queue run one load or store
    at a time, as in QueueAccess.v: between two accesses of a thread in a section
    every other thread, inside the queue or outside of it, can move.  What keeps
    the accept thread and the workers apart is the mutex alone.  The theorem: this
    system refines that of ServerThreads.v, and so the server of Server.v. *)
From S2P Require Import Prelude CLib Proc ResponseCorrect Stats ConnectionQueue QueueThreads QueueWake QueueAccess.
From S2P Require Import Server ServerCorrect ServerProps ServerThreads.

(** [rw_sys] has the queue as it is in memory. *)
Record raw := Raw {
  rw_sys : sys;
  rw_owner : option nat;
  rw_pcs : list access_pc;
}.

Definition memory_view (r : raw) : accesses :=
  Accesses (y_queue (rw_sys r)) (rw_owner r) (y_flag (rw_sys r)) (rw_pcs r).

(** The state of ServerThreads.v with the queue [q]: a thread in a section has not
    begun it. *)
Definition restored (q : connection_queue_t) (r : raw) : fine :=
  Fine (set_queue q (rw_sys r)) (rw_owner r) (coarse_pc <$> rw_pcs r).

Definition coarse_fine (r : raw) : fine := Fine (rw_sys r) (rw_owner r) (coarse_pc <$> rw_pcs r).

Section raw_steps.
  Context `{ConnectionHandler}.

Inductive rstep : flabel -> raw -> raw -> Prop :=
(** A step of ServerThreads.v in which no thread that holds the mutex to look at the
    queue moves: all of its steps but the evaluation. *)
| rs_other r l f : fstep l (coarse_fine r) f ->
    (forall i o, fn_pcs (coarse_fine r) !! i = Some (Testing o) -> fn_pcs f !! i = Some (Testing o)) ->
    rstep l r (Raw (fn_sys f) (fn_owner f) (zip_with keep_inside (rw_pcs r) (fn_pcs f)))
(** A thread enters a section, goes on by one access, or ends it. *)
| rs_inside r a v ev : inside_action a = true -> access_act a (memory_view r) = Some (v, ev) ->
    rstep (FStep LInternal) r (Raw (set_queue (ac_queue v) (rw_sys r)) (ac_owner v) (ac_pcs v)).

Inductive raw_reachable (r0 : raw) : raw -> Prop :=
| raw_refl : raw_reachable r0 r0
| raw_trans l r r' : raw_reachable r0 r -> rstep l r r' -> raw_reachable r0 r'.

(** ** Steps elsewhere do not depend on the queue *)

Definition swap (q : connection_queue_t) (f : fine) : fine :=
  Fine (set_queue q (fn_sys f)) (fn_owner f) (fn_pcs f).

(** Only the destruction of the queue reads it outside of its calls. *)
Lemma step_swap q l y y' : step l y y' -> elsewhere y y' -> y_accept y <> AJoin (length (y_workers y)) ->
  step l (set_queue q y) (set_queue q y') /\ y_queue y' = y_queue y.
Proof.
  intros Hs Hel Hj. destruct Hs as [y|y i w Hw Hx|y Ha|y Ha|y i fd p Ha Hop|y Ha|y i Ha|y fd k c w st q' Ha Hp|
    y fd st p Ha Hcl|y Ha|y Ha|y i st Ha Hw|y q' p Ha Hd|y i k wt fd q' evs Hw Hp Hev|y i k wt st fd q' Hw Hp Hne|
    y i fd e e' evs Hw|y i fd e p Hw Hcl|y i Hw]; try done.
  - split; [apply (step_signal (set_queue q y))|done].
  - split; [by apply (step_signal_worker (set_queue q y) i w)|done].
  - split; [by apply (step_check (set_queue q y))|done].
  - split; [by apply (step_enter (set_queue q y))|done].
  - split; [by apply (step_accept (set_queue q y) i fd p)|done].
  - split; [by apply (step_eintr (set_queue q y))|done].
  - split; [by apply (step_accept_error (set_queue q y) i)|done].
  - exfalso. destruct Hel as [[He|[_ He]] _]; [|by apply (He fd)]. rewrite Ha in He. simpl in He. by destruct (decide _).
  - split; [by apply (step_reject (set_queue q y) fd st p)|done].
  - split; [by apply (step_started (set_queue q y))|done].
  - exfalso. destruct Hel as [[He|[He _]] _]; [by rewrite Ha in He|done].
  - split; [by apply (step_join (set_queue q y) i st)|done].
  - exfalso. destruct Hel as [_ He]. specialize (He i Hw). simpl in He.
    by rewrite list_lookup_insert_eq in He by (by eapply lookup_lt_Some).
  - exfalso. destruct Hel as [_ He]. specialize (He i Hw). simpl in He.
    by rewrite list_lookup_insert_eq in He by (by eapply lookup_lt_Some).
  - split; [by apply (step_report (set_queue q y) i fd e e' evs)|done].
  - split; [by apply (step_close (set_queue q y) i fd e p)|done].
  - split; [by apply (step_finish (set_queue q y) i)|done].
Qed.

Lemma fstep_length l f f' : fstep l f f' -> length (fn_pcs f') = length (fn_pcs f).
Proof. intros []; try done; simpl; erewrite act_length by done; done. Qed.

(** An evaluation moves the thread. *)
Lemma evaluate_moves a v v' evs : act a v = Some (v', evs) -> is_evaluate a = true ->
  exists i o, t_pcs v !! i = Some (Testing o) /\ t_pcs v' !! i <> Some (Testing o).
Proof.
  destruct a as [| | |i ck wt| | | | | |]; try done. intros Hact _. cbn [act] in Hact.
  destruct (t_pcs v !! i) as [[]|] eqn:Hi; simplify_eq. exists i, o. split; [done|].
  destruct (evaluate_inv _ _ _ _ _ _ _ Hact) as [(_ & -> & _)|(r & q & _ & Hr & -> & _)]; simpl.
  all: rewrite list_lookup_insert_eq by (by eapply lookup_lt_Some).
  - done.
  - destruct r as [[]|[]| |]; done.
Qed.

(** The steps of [rs_other], with another queue. *)
Lemma fstep_swap q l f f' : fstep l f f' ->
  (forall i o, fn_pcs f !! i = Some (Testing o) -> fn_pcs f' !! i = Some (Testing o)) ->
  y_accept (fn_sys f) <> AJoin (length (y_workers (fn_sys f))) ->
  (forall c, cond_initialized c q = cond_initialized c (y_queue (fn_sys f))) ->
  fstep l (swap q f) (swap q f') /\ y_queue (fn_sys f') = y_queue (fn_sys f).
Proof.
  intros Hs Hkeep Hj Hc.
  assert (Hfr : forall a v ev, act a (view f) = Some (v, ev) -> is_evaluate a = false ->
    act a (view (swap q f)) = Some (with_queue q v, ev) /\ t_queue v = y_queue (fn_sys f)).
  { intros a v ev Ha He. by apply (act_frame a q _ _ _ Ha He). }
  destruct Hs as [f fd v ev Hacc Ha|f v ev Hacc Ha|f i v ev Hwk Ha|f a v ev Hin Ha|f i v ev Ha|
    f fd st v Hacc Ha|f v Hacc Ha|f i fd evs v Hwk Ha Hev|f i st fd v Hwk Ha Hne|f l y Hst Hel].
  - destruct (Hfr _ _ _ Ha eq_refl) as [Ha' Hq]. split; [|done]. by apply (fs_call_push (swap q f) fd _ _ Hacc Ha').
  - destruct (Hfr _ _ _ Ha eq_refl) as [Ha' Hq]. split; [|done]. by apply (fs_call_shutdown (swap q f) _ _ Hacc Ha').
  - destruct (Hfr _ _ _ Ha eq_refl) as [Ha' Hq]. split; [|done]. by apply (fs_call_pop (swap q f) i _ _ Hwk Ha').
  - destruct (is_evaluate a) eqn:He.
    { destruct (evaluate_moves _ _ _ _ Ha He) as (i & o & Hi & Hn). by apply Hkeep in Hi. }
    destruct (Hfr _ _ _ Ha He) as [Ha' Hq]. split; [|done]. by apply (fs_inner (swap q f) a _ _ Hin Ha').
  - destruct (Hfr _ _ _ Ha eq_refl) as [Ha' Hq]. split; [|done]. by apply (fs_wake (swap q f) i _ _ Ha').
  - destruct (Hfr _ _ _ Ha eq_refl) as [Ha' Hq]. split; [|done]. by apply (fs_push_returns (swap q f) fd st _ Hacc Ha').
  - destruct (Hfr _ _ _ Ha eq_refl) as [Ha' Hq]. split; [|done]. by apply (fs_shutdown_returns (swap q f) _ Hacc Ha').
  - destruct (Hfr _ _ _ Ha eq_refl) as [Ha' Hq]. split; [|done]. by apply (fs_pop_returns (swap q f) i fd evs _ Hwk Ha').
  - destruct (Hfr _ _ _ Ha eq_refl) as [Ha' Hq]. split; [|done]. by apply (fs_exit (swap q f) i st fd _ Hwk Ha').
  - destruct (step_swap q _ _ _ Hst Hel Hj) as [Hst' Hq]. split; [|done]. by apply (fs_elsewhere (swap q f) l).
Qed.

(** ** Simulation *)

Record raw_ok (q : connection_queue_t) (r : raw) : Prop := {
  ro_agrees : agrees q (memory_view r);
  ro_fine : fine_ok (restored q r);
}.

(** A thread in a section, or about to enter one: the server is in operation. *)
Lemma testing_live f i o : fine_ok f -> fn_pcs f !! i = Some (Testing o) ->
  y_accept (fn_sys f) <> ADone /\ y_accept (fn_sys f) <> AJoin (length (y_workers (fn_sys f))).
Proof.
  intros Hf Hi. assert (Hp : phase_at f i = Called o) by (unfold phase_at, pc_of; simpl; by rewrite Hi).
  split; [apply (inside_live f i Hf); by rewrite Hp|]. intros Ha. destruct i as [|i].
  - pose proof (fo_accept _ Hf) as Hin. rewrite Ha, Hp in Hin. by destruct o.
  - destruct (inside_worker f i Hf) as [w Hw]; [by rewrite Hp|]. pose proof (fo_workers _ Hf i w Hw) as Hin.
    pose proof (fo_exited _ Hf) as He. unfold all_exited in He. rewrite Ha in He.
    destruct (He i) as [st Hst]; [by eapply lookup_lt_Some|]. rewrite Hp in Hin. simplify_eq. by destruct o.
Qed.

Lemma restored_testing q r i o c : rw_pcs r !! i = Some (Inside o c) ->
  fn_pcs (restored q r) !! i = Some (Testing o).
Proof. intros Hi. simpl. by rewrite list_lookup_fmap, Hi. Qed.

Lemma nobody_dec pcs : nobody_inside pcs \/ exists i o c, pcs !! i = Some (Inside o c).
Proof.
  induction pcs as [|[pc|o c] pcs [IH|(i & o' & c' & IH)]].
  - by left.
  - left. intros [|i] o c; [done|]. apply IH.
  - right. by exists (S i), o', c'.
  - right. by exists 0%nat, o, c.
  - right. by exists 0%nat, o, c.
Qed.

Definition after_other (r : raw) (f : fine) : raw :=
  Raw (fn_sys f) (fn_owner f) (zip_with keep_inside (rw_pcs r) (fn_pcs f)).

Lemma restored_after_other q r l f : fstep l (coarse_fine r) f ->
  (forall i o, fn_pcs (coarse_fine r) !! i = Some (Testing o) -> fn_pcs f !! i = Some (Testing o)) ->
  length (fn_pcs f) = length (rw_pcs r) /\ restored q (after_other r f) = swap q f.
Proof.
  intros Hs Hk. assert (Hl : length (fn_pcs f) = length (rw_pcs r)).
  { rewrite (fstep_length _ _ _ Hs). simpl. apply length_fmap. }
  split; [done|]. unfold restored, after_other, swap. simpl. rewrite keep_coarse; [done..|].
  intros i o c Hi. apply Hk. simpl. by rewrite list_lookup_fmap, Hi.
Qed.

Lemma other_step q r l f : raw_ok q r -> fstep l (coarse_fine r) f ->
  (forall i o, fn_pcs (coarse_fine r) !! i = Some (Testing o) -> fn_pcs f !! i = Some (Testing o)) ->
  exists q', raw_ok q' (after_other r f) /\ fstep l (restored q r) (restored q' (after_other r f)).
Proof.
  intros [Hag Hok] Hs Hk. destruct (nobody_dec (rw_pcs r)) as [Hno|(i & o & c & Hi)].
  - pose proof (ag_outside _ _ Hag Hno) as Hq. simpl in Hq. subst q.
    assert (Hsame : restored (y_queue (rw_sys r)) r = coarse_fine r).
    { unfold restored, coarse_fine. by rewrite set_same_queue. }
    rewrite Hsame in Hok |- *. exists (y_queue (fn_sys f)).
    destruct (restored_after_other (y_queue (fn_sys f)) r l f Hs Hk) as [Hl Hr].
    assert (Hf : swap (y_queue (fn_sys f)) f = f).
    { unfold swap. rewrite set_same_queue. by destruct f. }
    rewrite Hf in Hr. rewrite Hr. split; [|done]. split; [|rewrite Hr; by eapply fine_step].
    split; [done| |done]. intros j o c Hj. simpl in Hj. apply keep_lookup in Hj; [|done]. by apply Hno in Hj.
  - destruct (testing_live _ _ _ Hok (restored_testing q r _ _ _ Hi)) as [_ Hj].
    destruct (fstep_swap q l _ _ Hs Hk Hj) as [Hs' Hq]; [intros cv; symmetry; apply (ag_conds _ _ Hag)|].
    destruct (restored_after_other q r l f Hs Hk) as [Hl Hr]. exists q. rewrite Hr. split; [|exact Hs'].
    split; [|rewrite Hr; by eapply fine_step]. eapply (agrees_other q (memory_view r)); [done..|exact Hl].
Qed.

Lemma inside_abort a s s' evs : inside_action a = true -> access_act a s = Some (s', evs) ->
  ac_abort s' = ac_abort s.
Proof.
  destruct a; try done; intros _ Ha; cbn [access_act] in Ha; destruct (ac_pcs s !! i) as [[[]|]|]; simplify_eq; try done.
  - destruct (access c (ac_queue s)) as [[]|]; [|done]. simpl in Ha. by simplify_eq.
  - destruct (decision _ _ _ _ _) as [[]|]; [..|done]; simpl in Ha; by simplify_eq.
Qed.

(** The thread that takes a step inside is in its section or enters it. *)
Lemma inside_testing q a r v evs : inside_action a = true -> access_act a (memory_view r) = Some (v, evs) ->
  exists i o, fn_pcs (restored q r) !! i = Some (Testing o).
Proof.
  destruct a as [|i|i|i ck wt]; try done; intros _ Ha; cbn [access_act] in Ha; simpl in Ha; exists i; simpl;
    rewrite list_lookup_fmap; destruct (rw_pcs r !! i) as [[[]|]|]; simplify_eq; simpl; eauto.
Qed.

Definition after_inside (r : raw) (v : accesses) : raw :=
  Raw (set_queue (ac_queue v) (rw_sys r)) (ac_owner v) (ac_pcs v).

Lemma inside_step q r a v evs : raw_ok q r -> inside_action a = true ->
  access_act a (memory_view r) = Some (v, evs) ->
  exists q', raw_ok q' (after_inside r v) /\
    (restored q' (after_inside r v) = restored q r \/
     fstep (FStep LInternal) (restored q r) (restored q' (after_inside r v))).
Proof.
  intros [Hag Hok] Ha Hact. destruct (inside_testing q _ _ _ _ Ha Hact) as (i & o & Hi).
  destruct (testing_live _ _ _ Hok Hi) as [Hlive _]. pose proof (fo_sync _ Hok Hlive) as Hsync.
  assert (Hmv : memory_view (after_inside r v) = v).
  { pose proof (inside_abort _ _ _ _ Ha Hact) as Hab. simpl in Hab. unfold memory_view. simpl.
    rewrite <- Hab. by destruct v. }
  destruct (access_simulated q (memory_view r) a v evs Hag Hsync Hact) as (q' & Hag' & Hcase). exists q'.
  assert (Hgo : restored q' (after_inside r v) = restored q r \/
     fstep (FStep LInternal) (restored q r) (restored q' (after_inside r v))).
  { destruct Hcase as [[_ Heq]|(b & Hb & Hst)].
    - left. unfold saved, with_queue, coarse in Heq. simpl in Heq. injection Heq as -> Ho _ Hp.
      unfold restored. simpl. by rewrite Ho, Hp.
    - right. specialize (Hb Ha). exact (fs_inner (restored q r) b (saved q' v) evs ltac:(by destruct b) Hst). }
  split; [|done]. split; [by rewrite Hmv|]. destruct Hgo as [->|Hs]; [done|]. by eapply fine_step.
Qed.

Lemma raw_refines r0 r : fine_initial (coarse_fine r0) -> raw_reachable r0 r ->
  exists q, raw_ok q r /\ fine_reachable (coarse_fine r0) (restored q r).
Proof.
  intros Hi Hr. induction Hr as [|l r r' _ (q & Hq & Hf) Hs].
  - exists (y_queue (rw_sys r0)). assert (Hsame : restored (y_queue (rw_sys r0)) r0 = coarse_fine r0).
    { unfold restored, coarse_fine. by rewrite set_same_queue. }
    split; [|rewrite Hsame; apply fine_refl]. split; [|rewrite Hsame; by apply fine_ok_initial].
    split; [done| |done]. intros i o c Hin. pose proof (fi_pcs _ Hi) as Hp. cbn [coarse_fine fn_pcs] in Hp. simpl in Hin.
    assert (Hl : (coarse_pc <$> rw_pcs r0) !! i = Some (Testing o)) by (by rewrite list_lookup_fmap, Hin).
    rewrite Hp in Hl. by apply lookup_replicate_1 in Hl as [? _].
  - destruct Hs as [r l f Hs Hk|r a v ev Ha Hact].
    + destruct (other_step q r l f Hq Hs Hk) as (q' & Hq' & Hst). exists q'. split; [done|]. by eapply fine_trans.
    + destruct (inside_step q r a v ev Hq Ha Hact) as (q' & Hq' & [Heq|Hst]); exists q'; (split; [done|]).
      * unfold after_inside in Heq. by rewrite Heq.
      * by eapply fine_trans.
Qed.
End raw_steps.

(** C6. The server at the granularity of the pthread calls and of the memory accesses under
    the mutex.  The accept thread and the workers load and store the fields of the
    queue one at a time, interleaved with each other's locks, waits, signals,
    broadcasts, spurious wake-ups, time-outs and failures, and with everything they do
    outside of the queue.  Whatever the interleaving, a thread in a critical section
    owns the mutex; the state is, but for a section in progress that is taken back, one
    of the server in which sections are atomic, and this is one that the server of
    Server.v reaches, in which each call of the queue is one step: calls that are
    decided count as returned.  When nobody is in a section nothing is taken back, and
    when nobody is inside the queue the state is one of Server.v. *)
Theorem server_accesses_refine `{ConnectionHandler} r0 r plan : fine_initial (coarse_fine r0) ->
  raw_reachable r0 r -> (forall i, handles (plan i)) ->
  (forall i o c, rw_pcs r !! i = Some (Inside o c) -> rw_owner r = Some i) /\
  exists q, fine_reachable (coarse_fine r0) (restored q r) /\
    reachable (rw_sys r0) (abstract plan (restored q r)) /\
    (nobody_inside (rw_pcs r) -> restored q r = coarse_fine r) /\
    (Forall (eq (At Idle)) (rw_pcs r) -> abstract plan (restored q r) = rw_sys r).
Proof.
  intros Hi Hr Hp. destruct (raw_refines r0 r Hi Hr) as (q & [Hag Hok] & Hf).
  assert (Hsame : nobody_inside (rw_pcs r) -> restored q r = coarse_fine r).
  { intros Hn. pose proof (ag_outside _ _ Hag Hn) as Hq. simpl in Hq. subst q.
    unfold restored, coarse_fine. by rewrite set_same_queue. }
  split.
  - intros i o c Hin. destruct (testing_live _ _ _ Hok (restored_testing q r _ _ _ Hin)) as [Hlive _].
    by eapply (inside_owner q (memory_view r)); [exact (fo_sync _ Hok Hlive)|exact Hin|].
  - exists q. split_and!; [done|exact (fine_refines _ _ plan Hi Hf Hp)|done|]. intros Hidle.
    assert (Hn : nobody_inside (rw_pcs r)).
    { intros i o c Hin. rewrite Forall_lookup in Hidle. by apply Hidle in Hin. }
    rewrite Hsame by done. apply abstract_outside. intros i. unfold phase_at, pc_of. simpl.
    rewrite list_lookup_fmap. destruct (rw_pcs r !! i) as [pc|] eqn:E; [|done].
    rewrite Forall_lookup in Hidle. by rewrite <- (Hidle _ _ E).
Qed.
