(* ===== verification/ServerThreadsEnd.v ===== *)
(** * The interleaved server comes to its end

    Termination of shutdown in ServerThreads.v: once the flag is set and the accept
    thread is not on its way into [accept], every schedule of the threads, at the
    granularity of the pthread calls, ends [server_run], and no state before is
    stuck.  The waits inside the queue need no fairness: no wake-up is lost, and
    the timed wait of the push ends. *)
From S2P Require Import Prelude CLib Proc ResponseCorrect Stats ConnectionQueue QueueThreads QueueWake.
From S2P Require Import Server ServerCorrect ServerProps ServerLive ServerEnd ServerThreads.

(** The threads' own steps: all but signals, connections, errors of [accept] and
    spurious wake-ups. *)
Definition own_step `{ConnectionHandler} (f f' : fine) : Prop :=
  fstep (FStep LInternal) f f' \/ fstep FTimeout f f'.

Inductive fine_inevitable `{ConnectionHandler} (P : fine -> Prop) (f : fine) : Prop :=
| finev_now : P f -> fine_inevitable P f
| finev_later : (exists f', own_step f f') ->
    (forall f', own_step f f' -> fine_inevitable P f') -> fine_inevitable P f.

(** The accept thread has noticed the flag or will, whatever its call of the queue
    returns. *)
Definition fine_leaving (f : fine) : Prop := leaving (abstract (fun _ => []) f).

Section moves.
  Context `{ConnectionHandler} (y0 : sys) (Hinit : initial y0).

Lemma accept_elsewhere f y l : step l (fn_sys f) y -> y_accept (fn_sys f) <> ADrain ->
  (forall fd, y_accept (fn_sys f) <> APush fd) -> y_workers y = y_workers (fn_sys f) ->
  fstep (FStep l) f (outside y f).
Proof. intros Hs Hd Hp Hw. apply fs_elsewhere; [done|]. split; [by right|]. by rewrite Hw. Qed.

Lemma worker_elsewhere f y i w w' : step LInternal (fn_sys f) y -> y_workers (fn_sys f) !! i = Some w ->
  w <> WPop -> y_accept y = y_accept (fn_sys f) -> y_workers y = <[i := w']> (y_workers (fn_sys f)) ->
  fstep (FStep LInternal) f (outside y f).
Proof.
  intros Hs Hw Hne Ha Hws. apply fs_elsewhere; [done|]. split; [by left|]. intros j Hj. rewrite Hws.
  rewrite list_lookup_insert_ne; [done|]. intros ->. by simplify_eq.
Qed.

(** A decided call can return. *)
Lemma leave_moves f i v ev : fine_ok f -> act (Leave i) (view f) = Some (v, ev) ->
  exists f', fstep (FStep LInternal) f f'.
Proof.
  intros Hf Hact. destruct (act_leave _ _ _ _ Hact) as (r & -> & _ & Hp & _). destruct i as [|i].
  - pose proof (fo_accept _ Hf) as Ha. unfold phase_at in Ha. rewrite Hp in Ha.
    destruct r as [st| | |]; simpl in Ha; try done.
    + destruct Ha as [fd Ha]. eexists. by eapply fs_push_returns.
    + eexists. by eapply fs_shutdown_returns.
  - destruct (inside_worker f i Hf) as [w Hw]; [unfold phase_at; by rewrite Hp|].
    pose proof (fo_workers _ Hf i w Hw) as Hin. unfold phase_at in Hin. rewrite Hp in Hin.
    destruct r as [|st fd| |]; simpl in Hin; try done. destruct Hin as [-> Hok].
    destruct (decide (st = CONNECTION_QUEUE_OK)) as [->|Hne].
    + destruct (Hok eq_refl) as [x ->]. destruct handles_some as [evs Hev]. eexists. by eapply fs_pop_returns.
    + eexists. by eapply fs_exit.
Qed.

(** A thread inside the queue that can take its next step. *)
Lemma inner_moves f i pc a : fine_ok f -> fn_pcs f !! i = Some pc -> next_action i pc (view f) = Some a ->
  exists f', fstep (FStep LInternal) f f'.
Proof.
  intros Hf Hpc Ha. destruct (next_action_act i pc (view f) a Hpc Ha) as [Hp [[v ev] Hact]].
  destruct a; try done; try (eexists; by eapply fs_inner; [|exact Hact]). by eapply leave_moves.
Qed.

Section stuck.
  Context (plan : nat -> list stats_event) (f : fine) (Hf : fine_ok f) (Hg : good y0 (abstract plan f)).
  (** Nobody inside the queue can move. *)
  Context (Hrest : forall i pc, fn_pcs f !! i = Some pc -> rests (y_queue (fn_sys f)) pc).

Lemma outside_abs i w : fn_pcs f !! S i = Some Idle -> y_workers (fn_sys f) !! i = Some w ->
  y_workers (abstract plan f) !! i = Some w.
Proof.
  intros Hpc Hw. simpl. rewrite list_lookup_imap, Hw. simpl. unfold phase_at, pc_of. simpl. by rewrite Hpc.
Qed.

(** A worker outside of the queue can move until it has left. *)
Lemma worker_moves i w : q_shutting_down (y_queue (fn_sys f)) = true ->
  y_workers (fn_sys f) !! i = Some w -> exited w = false -> exists f', fstep (FStep LInternal) f f'.
Proof.
  intros Hsd Hw Hx. destruct (lookup_lt_is_Some_2 (fn_pcs f) (S i)) as [pc Hpc].
  { rewrite (fo_length _ Hf). apply lookup_lt_Some in Hw. lia. }
  assert (Hidle : pc = Idle).
  { specialize (Hrest _ _ Hpc). destruct pc as [| | |[]| | | | |]; simpl in Hrest; try done; destruct Hrest; congruence. }
  subst pc. pose proof (outside_abs i w Hpc Hw) as Hab. destruct Hg as [[[ff Ho] _ Ht _] _].
  destruct w as [|fd evs| |]; try done.
  - eexists. eapply (fs_call_pop f i); [done|]. cbn [act]. cbn. by rewrite Hpc.
  - pose proof (t_workers _ Ht) as HF. rewrite Forall_lookup in HF. specialize (HF _ _ Hab).
    destruct evs as [|e [|e' evs]]; [by destruct HF as ([|? ?] & ? & _)| |].
    + destruct (close_owned y0 _ ff fd Ho) as [p Hp].
      { unfold owned. rewrite !elem_of_app. right. right. apply list_elem_of_In, in_concat. exists [fd].
        split; [|by left]. apply (in_map worker_fds _ (WHandle fd [e])), list_elem_of_In.
        by eapply list_elem_of_lookup_2. }
      eexists. eapply worker_elsewhere; [by eapply step_close|done..].
    + eexists. eapply worker_elsewhere; [by eapply step_report|done..].
  - eexists. eapply worker_elsewhere; [by apply step_finish|done..].
Qed.

(** So can the accept thread on its way out. *)
Lemma accept_moves : fn_pcs f !! 0%nat = Some Idle -> leaving (abstract plan f) ->
  y_accept (fn_sys f) <> ADone -> exists f', own_step f f'.
Proof.
  intros Hpc Hl Hnd. assert (Hph : phase_at f 0 = Outside) by (unfold phase_at, pc_of; simpl; by rewrite Hpc).
  assert (Hacc : y_accept (abstract plan f) = y_accept (fn_sys f)) by (simpl; by rewrite Hph).
  pose proof Hg as [[[ff Ho] _ _ _] Hsh]. unfold leaving in Hl. unfold shut in Hsh. rewrite Hacc in Hl, Hsh.
  assert (Hgo : forall y, step LInternal (fn_sys f) y -> y_accept (fn_sys f) <> ADrain ->
    (forall fd, y_accept (fn_sys f) <> APush fd) -> y_workers y = y_workers (fn_sys f) -> exists f', own_step f f').
  { intros y Hs Hd Hp Hw. eexists. left. by eapply accept_elsewhere. }
  destruct (y_accept (fn_sys f)) as [| |i|fd|fd st| | |k|] eqn:Ha; try done.
  - eapply Hgo; [by apply step_check|done..].
  - destruct i; [|done]. eapply Hgo; [by apply step_eintr|done..].
  - eexists. left. eapply (fs_call_push f fd); [done|]. cbn [act]. cbn. by rewrite Hpc.
  - destruct (close_owned y0 _ ff fd Ho) as [p Hp]; [unfold owned; rewrite Hacc; by left|].
    eapply Hgo; [by eapply step_reject|done..].
  - eapply Hgo; [by apply step_started|done..].
  - eexists. left. eapply (fs_call_shutdown f); [done|]. cbn [act]. cbn. by rewrite Hpc.
  - destruct (y_workers (fn_sys f) !! k) as [w|] eqn:Hw.
    + destruct (exited w) eqn:Hx; [destruct w; try done; by eapply Hgo; [by eapply step_join|..]|].
      destruct (worker_moves k w Hsh Hw Hx) as [f' Hs]. exists f'. by left.
    + apply lookup_ge_None in Hw. pose proof (fo_exited _ Hf) as He. unfold all_exited in He. rewrite Ha in He.
      assert (k = length (y_workers (fn_sys f))) as ->.
      { destruct (decide (length (y_workers (fn_sys f)) < k)%nat) as [Hlt|]; [|lia].
        destruct (He _ Hlt) as [st Hst]. apply lookup_lt_Some in Hst. lia. }
      destruct (destroy_possible y0 Hinit _ ff Ho) as (q & p & Hd); [by rewrite Hacc|].
      eapply Hgo; [by eapply step_destroy|done..].
Qed.
End stuck.

(** Nothing is stuck before the end. *)
Lemma fine_moves plan f : fine_ok f -> good y0 (abstract plan f) -> leaving (abstract plan f) ->
  y_accept (fn_sys f) <> ADone -> exists f', own_step f f'.
Proof.
  intros Hf Hg Hl Hnd. pose proof (fo_sync _ Hf Hnd) as Hsync.
  destruct (can_move (view f)) as [(i & pc & a & Hpc & Ha)|Hs].
  { destruct (inner_moves f i pc a Hf Hpc Ha) as [f' Hs]. exists f'. by left. }
  destruct (stuck_rests _ Hsync Hs) as [_ Hrest]. rewrite Forall_lookup in Hrest.
  destruct (lookup_lt_is_Some_2 (fn_pcs f) 0) as [pc Hpc]; [rewrite (fo_length _ Hf); lia|].
  pose proof (Hrest _ _ Hpc) as Hr. destruct pc as [| | |o| | | | |]; simpl in Hr; try done.
  - by eapply accept_moves.
  - eexists. right. eapply (fs_wake f 0). cbn [act]. cbn. by rewrite Hpc.
Qed.
End moves.

(** ** The measure *)

Fixpoint tally_at (n : nat) (g : nat -> nat) : nat :=
  match n with O => 0 | S n => (g n + tally_at n g)%nat end.

Lemma tally_at_ext n g g' : (forall i, (i < n)%nat -> g' i = g i) -> tally_at n g' = tally_at n g.
Proof. intros Hg. induction n as [|n IH]; simpl; [done|]. rewrite Hg by lia. rewrite IH; [done|]. intros; apply Hg; lia. Qed.

Lemma tally_at_update n g g' k : (k < n)%nat -> (forall i, i <> k -> g' i = g i) ->
  (tally_at n g' + g k = tally_at n g + g' k)%nat.
Proof.
  intros Hk Hg. induction n as [|n IH]; [lia|]. simpl. destruct (decide (k = n)) as [->|Hne].
  - rewrite (tally_at_ext n g g'); [lia|]. intros i Hi. apply Hg. lia.
  - specialize (IH ltac:(lia)). rewrite (Hg n) by congruence. lia.
Qed.

(** Connections popped but not yet returned. *)
Definition taking (ph : phase) : nat :=
  match ph with Done (Popped CONNECTION_QUEUE_OK _) => 1 | _ => 0 end.

Definition to_serve (f : fine) : nat :=
  length (queued (y_queue (fn_sys f))) +
  tally_at (length (y_workers (fn_sys f))) (fun i => taking (phase_at f (S i))).

(** Threads about to make a call. *)
Definition wishes (ph : nat -> phase) (y : sys) (i : nat) : nat :=
  match ph i with
  | Outside =>
      match i with
      | O => match y_accept y with APush _ | ADrain => 1 | _ => 0 end
      | S i => match y_workers y !! i with Some WPop => 1 | _ => 0 end
      end
  | _ => 0
  end.

Definition dozing (pc : thread_pc) : nat := match pc with Asleep _ => 1 | _ => 0 end.

(** Steps inside the queue that may still come before something happens outside. *)
Definition inner_effort (f : fine) : nat :=
  let n := length (fn_pcs f) in
  effort (view f) + 4 * dozing (pc_of 0 (view f)) + (4 * n + 14) * tally_at n (wishes (phase_at f) (fn_sys f)).

Definition accept_left (f : fine) : nat := accept_rank (abstract (fun _ => []) f).

(** Each step leaves less. *)
Definition fine_closer (f' f : fine) : Prop :=
  (accept_left f' < accept_left f)%nat \/
  accept_left f' = accept_left f /\
  ((to_serve f' < to_serve f)%nat \/
   to_serve f' = to_serve f /\
   ((ranks (y_workers (fn_sys f')) < ranks (y_workers (fn_sys f)))%nat \/
    ranks (y_workers (fn_sys f')) = ranks (y_workers (fn_sys f)) /\
    (inner_effort f' < inner_effort f)%nat)).

(** A thread falls asleep only when its evaluation waits. *)
Lemma act_asleep a s s' evs i o : act a s = Some (s', evs) -> pc_of i s' = Asleep o ->
  pc_of i s = Asleep o \/
  pc_of i s = Testing o /\ exists ck wt, fst (queue_step (queue_call_of o (t_abort s) true ck wt) (t_queue s)) = Waits.
Proof.
  intros H Ha. assert (Hset : forall k pc s1, pc <> Asleep o -> pc_of i (set_pc k pc s1) = Asleep o -> pc_of i s1 = Asleep o).
  { intros k pc s1 Hne Hp. destruct (decide (k = i)) as [->|Hk]; [|by rewrite pc_of_set_ne in Hp].
    unfold pc_of in *. simpl in Hp. destruct (decide (i < length (t_pcs s1))%nat).
    - by rewrite list_lookup_insert_eq in Hp.
    - by rewrite list_insert_ge in Hp by lia. }
  assert (Hb : forall c, pc_of i (cond_broadcast c s) = Asleep o -> pc_of i s = Asleep o).
  { intros c Hp. unfold cond_broadcast in Hp. case_match; [|done]. unfold pc_of in *. simpl in Hp.
    rewrite list_lookup_fmap in Hp. destruct (t_pcs s !! i) as [[]|]; simpl in *; try done.
    unfold wake_on in Hp. simpl in Hp. by case_match. }
  act_cases H; try (left; eapply (Hset _ _ s); [|exact Ha]; done).
    - destruct (evaluate_inv _ _ _ _ _ _ _ H) as [(Hq & -> & _)|(r & q & _ & Hr & -> & _)].
    + destruct (decide (i0 = i)) as [->|Hne].
      * right. change (pc_of i (set_pc i (Asleep o0) s) = Asleep o) in Ha.
        rewrite (pc_of_set_eq _ _ _ _ Epc) in Ha. injection Ha as <-. split; [by apply pc_of_lookup|eauto].
      * left. change (pc_of i (set_pc i0 (Asleep o0) s) = Asleep o) in Ha. by rewrite pc_of_set_ne in Ha.
    + left. apply (Hset i0 (after r) (with_queue q s)) in Ha; [done|]. by destruct r as [[]|[]| |].
  - left. apply Hset in Ha; [|done]. destruct (cond_signal_inv _ _ _ _ E) as [(-> & _)|(j & o' & _ & _ & _ & ->)]; [done|].
    by eapply (Hset j); [|exact Ha].
  - left. eapply Hb, (Hset i0); [|exact Ha]. done.
  - left. eapply Hb, (Hset i0); [|exact Ha]. done.
  - by left.
Qed.

Section closer.
  Context `{ConnectionHandler} (f : fine) (Hf : fine_ok f) (Hl : fine_leaving f).

(** With the flag set the push does not wait. *)
Lemma no_new_dozer a v ev : act a (view f) = Some (v, ev) ->
  (dozing (pc_of 0 v) <= dozing (pc_of 0 (view f)))%nat.
Proof.
  intros Hact. destruct (pc_of 0 v) as [| | |o| | | | |] eqn:E; simpl; try lia.
  destruct (act_asleep _ _ _ _ _ _ Hact E) as [->|(Ht & ck & wt & Hw)]; [done|]. exfalso.
  pose proof (fo_accept _ Hf) as Ha. assert (Hph : phase_at f 0 = Called o) by (unfold phase_at; by rewrite Ht).
  unfold fine_leaving, leaving in Hl. simpl in Hl. rewrite Hph in Ha, Hl. destruct o as [fd| |]; simpl in Ha; try done.
  rewrite Ha in Hl. simpl in Hl. cbn [queue_call_of queue_step view t_abort t_queue] in Hw. rewrite Hl in Hw.
  unfold connection_queue_push in Hw. repeat case_match; by simplify_eq.
Qed.

Lemma wishes_same ph' y i : (ph' i = Outside <-> phase_at f i = Outside) ->
  y_accept y = y_accept (fn_sys f) -> y_workers y = y_workers (fn_sys f) ->
  wishes ph' y i = wishes (phase_at f) (fn_sys f) i.
Proof.
  intros Hp Ha Hw. unfold wishes. rewrite Ha, Hw.
  destruct Hp as [H1 H2].
  destruct (ph' i), (phase_at f i); first [done|discriminate (H1 eq_refl)|discriminate (H2 eq_refl)].
Qed.

Lemma accept_left_eq f' : abs_accept (phase_at f' 0) (y_accept (fn_sys f')) =
    abs_accept (phase_at f 0) (y_accept (fn_sys f)) ->
  length (y_workers (fn_sys f')) = length (y_workers (fn_sys f)) -> accept_left f' = accept_left f.
Proof. intros Ha Hw. unfold accept_left, accept_rank. simpl. by rewrite Ha, !length_imap, Hw. Qed.

(** Less to do inside the queue, everything else as before. *)
Lemma closer_inner a v ev : act a (view f) = Some (v, ev) ->
  abs_accept (phase_of (pc_of 0 v)) (y_accept (fn_sys f)) = abs_accept (phase_at f 0) (y_accept (fn_sys f)) ->
  to_serve (in_queue v (fn_sys f)) = to_serve f ->
  (inner_effort (in_queue v (fn_sys f)) < inner_effort f)%nat -> fine_closer (in_queue v (fn_sys f)) f.
Proof.
  intros Hact Ha Hs He. right. split; [by apply accept_left_eq|]. right. split; [done|]. right. by split.
Qed.

Lemma to_serve_quiet v : t_queue v = y_queue (fn_sys f) ->
  (forall i, taking (phase_of (pc_of (S i) v)) = taking (phase_at f (S i))) ->
  to_serve (in_queue v (fn_sys f)) = to_serve f.
Proof. intros Hq Hp. unfold to_serve. simpl. rewrite Hq. f_equal. apply tally_at_ext. intros i _. apply Hp. Qed.

Lemma effort_in_queue v : effort (view (in_queue v (fn_sys f))) = effort v.
Proof. done. Qed.

Lemma inner_effort_progress a v ev : progress a = true -> act a (view f) = Some (v, ev) ->
  (forall i, phase_of (pc_of i v) = Outside <-> phase_at f i = Outside) ->
  (inner_effort (in_queue v (fn_sys f)) < inner_effort f)%nat.
Proof.
  intros Hp Hact Hph. unfold inner_effort. rewrite effort_in_queue. pose proof (effort_act _ _ _ _ Hp Hact) as He.
  pose proof (no_new_dozer _ _ _ Hact) as Hd. change (pc_of 0 (view (in_queue v (fn_sys f)))) with (pc_of 0 v).
  simpl fn_pcs. rewrite (act_length _ _ _ _ Hact). simpl t_pcs.
  rewrite (tally_at_ext _ (wishes (phase_at f) (fn_sys f))); [lia|].
  intros i _. apply wishes_same; [apply Hph|done|done].
Qed.

(** A call begins. *)
Lemma closer_call i o v ev : act (Call i o) (view f) = Some (v, ev) ->
  abs_accept (phase_of (pc_of 0 v)) (y_accept (fn_sys f)) = abs_accept (phase_at f 0) (y_accept (fn_sys f)) ->
  wishes (phase_at f) (fn_sys f) i = 1%nat -> fine_closer (in_queue v (fn_sys f)) f.
Proof.
  intros Hact Ha Hwish. destruct (act_call _ _ _ _ _ Hact) as (Hpc & Hq & Hp & Hoth).
  eapply closer_inner; [done|done|apply to_serve_quiet; [done|]|].
  - intros j. destruct (decide (S j = i)) as [<-|Hne]; [|by rewrite Hoth]. rewrite Hp. unfold phase_at. by rewrite Hpc.
  - unfold inner_effort. rewrite effort_in_queue. change (pc_of 0 (view (in_queue v (fn_sys f)))) with (pc_of 0 v).
    simpl fn_pcs. rewrite (act_length _ _ _ _ Hact). simpl t_pcs. pose proof (no_new_dozer _ _ _ Hact) as Hd.
    assert (He : effort v = (effort (view f) + (4 * length (fn_pcs f) + 10))%nat).
    { cbn [act] in Hact. destruct (t_pcs (view f) !! i) as [[]|] eqn:Epc; simplify_eq.
      pose proof (effort_set _ _ _ (Locking o) Epc) as He. cbn [weight] in He. simpl t_pcs in He. lia. }
    assert (Hi : (i < length (fn_pcs f))%nat).
    { cbn [act] in Hact. destruct (t_pcs (view f) !! i) eqn:Epc; [|done]. by eapply lookup_lt_Some. }
    pose proof (tally_at_update (length (fn_pcs f)) (wishes (phase_at f) (fn_sys f))
      (wishes (phase_at (in_queue v (fn_sys f))) (set_queue (t_queue v) (fn_sys f))) i Hi) as Ht.
    assert (Hw0 : wishes (phase_at (in_queue v (fn_sys f))) (set_queue (t_queue v) (fn_sys f)) i = 0%nat).
    { unfold wishes. change (phase_at (in_queue v (fn_sys f)) i) with (phase_of (pc_of i v)). by rewrite Hp. }
    rewrite Hw0, Hwish in Ht. rewrite He. simpl fn_sys.
    assert (Hrest : forall j, j <> i -> wishes (phase_at (in_queue v (fn_sys f))) (set_queue (t_queue v) (fn_sys f)) j =
      wishes (phase_at f) (fn_sys f) j).
    { intros j Hj. apply wishes_same; try done. unfold phase_at.
      change (pc_of j (view (in_queue v (fn_sys f)))) with (pc_of j v). by rewrite Hoth. }
    specialize (Ht Hrest). nia.
Qed.

(** A call of the accept thread is decided. *)
Lemma accept_left_commit v o a k ck wt r : phase_at f 0 = Called o ->
  queue_step (queue_call_of o a k ck wt) (y_queue (fn_sys f)) = (r, t_queue v) -> r <> Waits ->
  phase_of (pc_of 0 v) = Done r -> (accept_left (in_queue v (fn_sys f)) < accept_left f)%nat.
Proof.
  intros Hp Hq Hr Hp'. apply reply_of in Hq; [|done]. pose proof (fo_accept _ Hf) as Ha. rewrite Hp in Ha.
  unfold accept_left, accept_rank, abstract, abs. cbn [in_queue fn_sys set_queue y_accept y_workers].
  change (phase_at (in_queue v (fn_sys f)) 0) with (phase_of (pc_of 0 v)). rewrite Hp, Hp', !length_imap.
  destruct o, r; try done; simpl in Ha; rewrite Ha; simpl; [|lia]. destruct (decide _); simpl; lia.
Qed.

(** A call of a worker is decided: what it took from the queue it has. *)
Lemma to_serve_commit i v o a k ck wt r : phase_at f (S i) = Called o ->
  queue_step (queue_call_of o a k ck wt) (y_queue (fn_sys f)) = (r, t_queue v) -> r <> Waits ->
  phase_of (pc_of (S i) v) = Done r ->
  (forall j, j <> S i -> phase_of (pc_of j v) = phase_at f j) ->
  to_serve (in_queue v (fn_sys f)) = to_serve f.
Proof.
  intros Hp Hq Hr Hp' Hoth. destruct (inside_worker f i Hf) as [w Hw]; [by rewrite Hp|].
  pose proof (fo_workers _ Hf i w Hw) as Hin. rewrite Hp in Hin. destruct o; simpl in Hin; try done.
  assert (Hlive : y_accept (fn_sys f) <> ADone) by (apply (inside_live f (S i) Hf); by rewrite Hp).
  destruct (si_queue _ (fo_sync _ Hf Hlive)) as [ff Hi].
  pose proof (tally_at_update (length (y_workers (fn_sys f))) (fun i => taking (phase_at f (S i)))
    (fun i => taking (phase_of (pc_of (S i) v))) i (lookup_lt_Some _ _ _ Hw)) as Ht.
  simpl in Ht. rewrite Hp, Hp' in Ht. specialize (Ht ltac:(intros j Hj; by rewrite Hoth by congruence)).
  unfold to_serve. cbn [in_queue fn_sys set_queue y_queue y_workers].
  change (tally_at (length (y_workers (fn_sys f))) (fun i => taking (phase_at (in_queue v (fn_sys f)) (S i))))
    with (tally_at (length (y_workers (fn_sys f))) (fun i => taking (phase_of (pc_of (S i) v)))).
  cbn [queue_call_of queue_step] in Hq. destruct (connection_queue_pop _ _ _) as [[st fd] q'|] eqn:E; [|by simplify_eq].
  injection Hq as <- <-. cbn [view t_queue] in Hi.
  destruct (pop_queued _ _ _ _ _ _ _ Hi E) as [(x & -> & -> & Hx)|(Hne & Hsame & _)].
  - rewrite Hx. simpl in *. lia.
  - rewrite Hsame. destruct st; simpl in Ht; try done; lia.
Qed.

(** A step inside the queue. *)
Lemma closer_inside a v ev : inner a = true -> act a (view f) = Some (v, ev) ->
  fine_closer (in_queue v (fn_sys f)) f.
Proof.
  intros Hin Hact. assert (Hp : progress a = true) by (by destruct a).
  destruct (act_inside _ _ _ _ Hact) as [Hq Hph|i o k ck wt r Hph Hq Hr Hph' Hoth]; [by intros; intros ->..| |].
  - eapply closer_inner; [done|by rewrite Hph| |].
    + apply to_serve_quiet; [done|]. intros i. by rewrite Hph.
    + eapply inner_effort_progress; [done..|]. intros i. by rewrite Hph.
  - destruct i as [|i]; [left; by eapply accept_left_commit|].
    eapply closer_inner; [done|by rewrite Hoth| |].
    + by eapply to_serve_commit.
    + eapply inner_effort_progress; [done..|]. intros j. destruct (decide (j = S i)) as [->|Hne]; [|by rewrite Hoth].
      unfold phase_at. by rewrite Hph, Hph'.
Qed.

(** The timed wait ends. *)
Lemma closer_timeout v ev : act (WakeUp 0) (view f) = Some (v, ev) -> fine_closer (in_queue v (fn_sys f)) f.
Proof.
  intros Hact. destruct (act_inside _ _ _ _ Hact) as [Hq Hph|]; [done..| |].
  2: { exfalso. cbn [act] in Hact. destruct (t_pcs (view f) !! 0%nat) as [[]|] eqn:Epc; simplify_eq.
    destruct i as [|i]; [by rewrite (pc_of_set_eq _ _ _ _ Epc) in *|by rewrite pc_of_set_ne in * by done; congruence]. }
  eapply closer_inner; [done|by rewrite Hph|apply to_serve_quiet; [done|intros i; by rewrite Hph]|].
  unfold inner_effort. rewrite effort_in_queue. change (pc_of 0 (view (in_queue v (fn_sys f)))) with (pc_of 0 v).
  cbn [in_queue fn_pcs]. rewrite (act_length _ _ _ _ Hact). cbn [view t_pcs].
  rewrite (tally_at_ext _ (wishes (phase_at f) (fn_sys f))).
  2: { intros i _. apply wishes_same; [|done|done]. unfold phase_at. rewrite <- Hph. reflexivity. }
  cbn [act] in Hact. destruct (t_pcs (view f) !! 0%nat) as [[]|] eqn:Epc; simplify_eq.
  pose proof (effort_set _ _ _ (Woken o) Epc) as He. cbn [weight] in He.
  rewrite (pc_of_set_eq _ _ _ _ Epc), (pc_of_lookup _ _ _ Epc). simpl dozing. lia.
Qed.

(** The accept thread returns from the queue. *)
Lemma closer_leave_accept a v ev : act (Leave 0) (view f) = Some (v, ev) ->
  a = abs_accept (phase_at f 0) (y_accept (fn_sys f)) -> a <> ADrain -> (forall fd, a <> APush fd) ->
  fine_closer (in_queue v (set_accept a (fn_sys f))) f.
Proof.
  intros Hact Ha Hnd Hnp. pose proof (abs_leave_accept (fun _ => []) f v ev a Hact Ha) as Habs.
  destruct (act_leave _ _ _ _ Hact) as (r & _ & Hq & Hp & Hpc & Hoth).
  right. split; [unfold accept_left; by rewrite Habs|]. right.
  split; [unfold to_serve; cbn; rewrite Hq; f_equal; apply tally_at_ext; intros i _; f_equal; by apply Hoth|].
  right. split; [done|]. unfold inner_effort. pose proof (effort_act (Leave 0) _ _ _ eq_refl Hact) as He.
  change (effort (view (in_queue v (set_accept a (fn_sys f))))) with (effort v).
  change (pc_of 0 (view (in_queue v (set_accept a (fn_sys f))))) with (pc_of 0 v).
  cbn [in_queue fn_pcs fn_sys]. rewrite (act_length _ _ _ _ Hact). cbn [view t_pcs].
  rewrite (tally_at_ext _ (wishes (phase_at f) (fn_sys f))); [rewrite Hpc; simpl dozing; lia|].
  intros [|i] _; unfold wishes, phase_at; cbn [set_queue set_accept y_accept y_workers].
  - change (pc_of 0 (view (in_queue v (set_accept a (fn_sys f))))) with (pc_of 0 v). rewrite Hp, Hpc. simpl.
    destruct a; try done. by destruct (Hnp fd).
  - change (pc_of (S i) (view (in_queue v (set_accept a (fn_sys f))))) with (pc_of (S i) v). by rewrite Hoth.
Qed.

(** A worker returns from the pop, with a connection or to leave. *)
Lemma closer_leave_worker i w st fd v : y_workers (fn_sys f) !! i = Some WPop ->
  act (Leave (S i)) (view f) = Some (v, [EvReturn (S i) (Popped st fd)]) ->
  (st <> CONNECTION_QUEUE_OK -> rank w = 0%nat) ->
  fine_closer (in_queue v (set_worker i w (fn_sys f))) f.
Proof.
  intros Hw Hact Hr. destruct (act_leave _ _ _ _ Hact) as (r & [= <-] & Hq & Hp & Hpc & Hoth).
  right. split.
  { apply accept_left_eq; [|cbn; by rewrite length_insert]. cbn. f_equal. by apply Hoth. }
  pose proof (tally_at_update (length (y_workers (fn_sys f))) (fun i => taking (phase_at f (S i)))
    (fun i => taking (phase_of (pc_of (S i) v))) i (lookup_lt_Some _ _ _ Hw)) as Ht.
  specialize (Ht ltac:(intros j Hj; cbn; f_equal; apply Hoth; congruence)). cbn beta in Ht.
  unfold phase_at in Ht at 1. rewrite Hp, Hpc in Ht.
  assert (Hts : to_serve (in_queue v (set_worker i w (fn_sys f))) =
    (length (queued (y_queue (fn_sys f))) +
     tally_at (length (y_workers (fn_sys f))) (fun i => taking (phase_of (pc_of (S i) v))))%nat).
  { unfold to_serve. cbn [in_queue fn_sys set_queue set_worker y_queue y_workers]. by rewrite Hq, length_insert. }
  rewrite Hts. unfold to_serve. destruct (decide (st = CONNECTION_QUEUE_OK)) as [->|Hne].
  - left. simpl in Ht. lia.
  - right. split; [destruct st; simpl in Ht; try done; lia|]. left.
    pose proof (ranks_insert _ _ _ w Hw) as Hrk. rewrite (Hr Hne) in Hrk. simpl in *. lia.
Qed.

Lemma accept_left_outside g : phase_at g 0 = Outside -> accept_left g = accept_rank (fn_sys g).
Proof. intros Hp. unfold accept_left, accept_rank. simpl. by rewrite Hp, length_imap. Qed.

(** A worker outside of the queue moves. *)
Lemma closer_worker_outside i w w' y : y_workers (fn_sys f) !! i = Some w -> (rank w' < rank w)%nat ->
  y_workers y = <[i := w']> (y_workers (fn_sys f)) -> y_accept y = y_accept (fn_sys f) ->
  y_queue y = y_queue (fn_sys f) -> fine_closer (outside y f) f.
Proof.
  intros Hw Hr Hws Ha Hq. pose proof (ranks_insert _ _ _ w' Hw) as Hrk. right.
  split; [apply accept_left_eq; cbn; [by rewrite Ha|by rewrite Hws, length_insert]|]. right.
  split; [unfold to_serve; cbn; by rewrite Hq, Hws, length_insert|]. left. cbn. rewrite Hws. lia.
Qed.

Lemma closer_elsewhere y : step LInternal (fn_sys f) y -> elsewhere (fn_sys f) y -> fine_closer (outside y f) f.
Proof.
  intros Hs Hel. pose proof Hl as Hlv. unfold fine_leaving, leaving in Hlv. cbn [abstract abs y_accept y_flag] in Hlv.
  assert (Hacc : y_accept (fn_sys f) <> ADrain -> (forall fd, y_accept (fn_sys f) <> APush fd) ->
    (leaving (fn_sys f) -> (accept_rank y < accept_rank (fn_sys f))%nat) -> fine_closer (outside y f) f).
  { intros Hd Hp Hr. pose proof (accept_outside _ _ (fo_accept _ Hf) Hd Hp) as Ho. left.
    rewrite !accept_left_outside by done. apply Hr. unfold leaving. rewrite Ho in Hlv. exact Hlv. }
  clear Hlv. unfold leaving, accept_rank in Hacc.
  inversion Hs as [|? ? ? Hw Hx|? Ha|? Ha|? ? ? ? Ha|? Ha|? ? Ha|? fd ? ? ? st q Ha Hp|? fd st p Ha Hp|? Ha|? Ha|? k st Ha Hw|
    ? q p Ha Hq|? i ? wt fd q evs Hw Hp Hev|? i ? wt st fd q Hw Hp Hne|? i fd e e' evs Hw|? i fd e p Hw Hp|? i Hw];
    subst; simpl in Hacc; try (rewrite Ha in Hacc; simpl in Hacc).
  - apply Hacc; [done..|]. intros ->. simpl. lia.
  - by apply Hacc.
  - apply Hacc; [done..|lia].
  - exfalso. destruct Hel as [[He|[_ He]] _]; [|by apply (He fd)]. rewrite Ha in He. simpl in He. by destruct (decide _).
  - apply Hacc; [done..|]. intros ->. rewrite orb_true_r. lia.
  - apply Hacc; [done..|lia].
  - exfalso. destruct Hel as [[He|[He _]] _]; [by rewrite Ha in He|done].
  - apply lookup_lt_Some in Hw. apply Hacc; [done..|lia].
  - apply Hacc; [done..|lia].
  - exfalso. destruct Hel as [_ He]. specialize (He i Hw). simpl in He.
    by rewrite list_lookup_insert_eq in He by (by eapply lookup_lt_Some).
  - exfalso. destruct Hel as [_ He]. specialize (He i Hw). simpl in He.
    by rewrite list_lookup_insert_eq in He by (by eapply lookup_lt_Some).
  - by eapply (closer_worker_outside i _ (WHandle fd (e' :: evs))); [done|simpl; lia|..].
  - by eapply (closer_worker_outside i _ WClosed); [done|simpl; lia|..].
  - by eapply (closer_worker_outside i _ WPop); [done|simpl; lia|..].
Qed.
End closer.

(** Every step of the threads leaves less. *)
Lemma fine_closer_step `{ConnectionHandler} f f' : fine_ok f -> fine_leaving f -> own_step f f' -> fine_closer f' f.
Proof.
  intros Hf Hl Hown.
  assert (Hs : exists l, fstep l f f' /\ label_of l = LInternal /\ l <> FSpurious) by (destruct Hown; eauto).
  destruct Hs as (l & Hs & Hlab & Hsp). clear Hown.
  destruct Hs as [f fd v ev Hacc Hact|f v ev Hacc Hact|f i v ev Hwk Hact|f a v ev Hin Hact|f i v ev Hact|
    f fd st v Hacc Hact|f v Hacc Hact|f i fd evs v Hwk Hact Hev|f i st fd v Hwk Hact Hne|f l y Hst Hel].
  - destruct (act_call _ _ _ _ _ Hact) as (Hpc & _ & Hp & _). eapply closer_call; [done|done|exact Hact| |].
    + unfold phase_at. by rewrite Hp, Hpc.
    + unfold wishes, phase_at. by rewrite Hpc, Hacc.
  - destruct (act_call _ _ _ _ _ Hact) as (Hpc & _ & Hp & _). eapply closer_call; [done|done|exact Hact| |].
    + unfold phase_at. by rewrite Hp, Hpc.
    + unfold wishes, phase_at. by rewrite Hpc, Hacc.
  - destruct (act_call _ _ _ _ _ Hact) as (Hpc & _ & Hp & Hoth). eapply closer_call; [done|done|exact Hact| |].
    + by rewrite Hoth.
    + unfold wishes, phase_at. by rewrite Hpc, Hwk.
  - by eapply closer_inside.
  - destruct i; [|done]. by eapply closer_timeout.
  - destruct (act_leave _ _ _ _ Hact) as (r & [= <-] & _ & Hp & _). eapply closer_leave_accept; [exact Hact| |by destruct (decide _)..].
    unfold phase_at. by rewrite Hp, Hacc.
  - destruct (act_leave _ _ _ _ Hact) as (r & [= <-] & _ & Hp & _). eapply closer_leave_accept; [exact Hact| |done..].
    unfold phase_at. by rewrite Hp, Hacc.
  - by eapply closer_leave_worker.
  - by eapply closer_leave_worker.
  - simpl in Hlab. subst l. by apply closer_elsewhere.
Qed.

Section ends.
  Context `{ConnectionHandler} (y0 : sys) (Hinit : initial y0).

(** What holds on the way: the state of Server.v is a good one, whatever the
    handlers will report, and the accept thread is leaving. *)
Record on_the_way (f : fine) : Prop := {
  ow_ok : fine_ok f;
  ow_good : forall plan, (forall i, handles (plan i)) -> good y0 (abstract plan f);
  ow_leaving : fine_leaving f;
}.

Lemma some_plan : exists plan, forall i : nat, handles (plan i).
Proof. destruct handles_some as [evs Hev]. by exists (fun _ => evs). Qed.

Lemma on_the_way_step f f' : on_the_way f -> own_step f f' -> on_the_way f'.
Proof.
  intros [Hf Hg Hl] Hown. assert (Hs : exists l, fstep l f f' /\ label_of l = LInternal) by (destruct Hown; eauto).
  destruct Hs as (l & Hs & Hlab). destruct (fine_step l f f' Hf Hs) as [Hf' Hsim]. split; [done| |].
  - intros plan Hp. destruct (Hsim plan Hp) as (plan0 & Hp0 & [->|Hst]); [by apply Hg|]. rewrite Hlab in Hst.
    eapply (good_step y0 Hinit); [by left|by apply Hg].
  - destruct some_plan as [plan Hp]. destruct (Hsim plan Hp) as (plan0 & Hp0 & Hcase).
    change (leaving (abstract plan f')). rewrite Hlab in Hcase.
    destruct Hcase as [->|Hst]; [exact Hl|]. by eapply (closer_step y0 (abstract plan0 f) _ (Hg _ Hp0) Hl Hst).
Qed.

Lemma on_the_way_ends : forall a n r e f, accept_left f = a -> to_serve f = n -> ranks (y_workers (fn_sys f)) = r ->
  inner_effort f = e -> on_the_way f -> fine_inevitable (fun f' => y_accept (fn_sys f') = ADone) f.
Proof.
  induction a as [a IHa] using lt_wf_ind. induction n as [n IHn] using lt_wf_ind.
  induction r as [r IHr] using lt_wf_ind. induction e as [e IHe] using lt_wf_ind.
  intros f Ea En Er Ee Hw. destruct (decide (y_accept (fn_sys f) = ADone)) as [Hd|Hnd]; [by apply finev_now|].
  destruct some_plan as [plan Hp]. pose proof Hw as [Hf Hg Hl].
  apply finev_later; [by eapply (fine_moves y0 Hinit plan); [|apply Hg|..]|]. intros f' Hs.
  pose proof (on_the_way_step _ _ Hw Hs) as Hw'.
  destruct (fine_closer_step f f' Hf Hl Hs) as [Hc|[Hca [Hc|[Hcn [Hc|[Hcr Hc]]]]]].
  - eapply (IHa (accept_left f')); [lia|done..].
  - eapply (IHn (to_serve f')); [lia|lia|done..].
  - eapply (IHr (ranks (y_workers (fn_sys f')))); [lia|lia|lia|done..].
  - eapply (IHe (inner_effort f')); [lia|lia|lia|lia|done..].
Qed.
End ends.

(** C7. Shutdown terminates at the granularity of the pthread calls.  In every state the
    interleaved server reaches with the flag set and the accept thread not on its way
    into [accept], every schedule of the threads' steps (of the queue's locks, waits,
    signals and broadcasts, of the time-out of the push, of the handlers) brings
    [server_run] to its end after finitely many steps; no state before is stuck, in
    particular no thread sleeps for ever.  A schedule may fail any call that can fail.
    A wake-up without a signal is not a step of the threads' own, and a handler
    reports finitely many events. *)
Theorem preemptive_shutdown_terminates `{ConnectionHandler} f0 f : fine_initial f0 -> fine_reachable f0 f ->
  y_flag (fn_sys f) = true -> y_accept (fn_sys f) <> AChecked -> y_accept (fn_sys f) <> AAccept false ->
  fine_inevitable (fun f' => y_accept (fn_sys f') = ADone) f.
Proof.
  intros Hi Hr Hfl H1 H2. eapply (on_the_way_ends (fn_sys f0) (fi_sys _ Hi)); [done..|]. split.
  - by eapply fine_ok_reachable.
  - intros plan Hp. apply good_reachable; [apply Hi|]. by eapply fine_refines.
  - unfold fine_leaving, leaving. simpl. rewrite Hfl.
    destruct (y_accept (fn_sys f)) as [| |[]| | | | | |], (phase_at f 0) as [|[]|[]]; simpl; try done; by repeat case_match.
Qed.
