(* ===== verification/ServerThreadsInstance.v ===== *)
(** * A run of the interleaved server with the connection handler of
    client_handler.c

    The worker sleeps in the pop, a connection arrives and is pushed, and the
    signal comes before the push has woken the worker. *)
From S2P Require Import Prelude CLib Proc ResponseCorrect Stats ConnectionQueue QueueThreads QueueWake QueueAccess.
From S2P Require Import Server ServerCorrect ServerProps ServerLive ServerEnd ServerInstance.
From S2P Require Import ServerThreads ServerAccess ServerThreadsEnd.

Definition small_threads : fine := Fine small_server None [Idle; Idle].

Lemma small_threads_initial : fine_initial small_threads.
Proof. split; [apply small_server_initial|by intros []|done|done]. Qed.

(** One more step of a run. *)
Tactic Notation "further" hyp(R) uconstr(c) := eapply fine_trans in R; [|eapply c; vm_compute; reflexivity].
Tactic Notation "further" hyp(R) "elsewhere" uconstr(c) :=
  eapply fine_trans in R; [|eapply fs_elsewhere; [eapply c; vm_compute; reflexivity|by split; [right|]]].

Lemma pushing_reachable : exists f, fine_reachable small_threads f /\ y_accept (fn_sys f) = APush 4 /\
  y_flag (fn_sys f) = true /\ fn_owner f = Some 0%nat /\
  fn_pcs f = [Signalling NotEmpty (Pushed CONNECTION_QUEUE_OK); Asleep OpPop].
Proof.
  pose proof (fine_refl small_threads) as R.
  further R (fs_call_pop _ 0). further R (fs_inner _ (Lock 1 true)). further R (fs_inner _ (Evaluate 1 true true)).
  further R elsewhere step_check. further R elsewhere step_enter. further R elsewhere step_accept.
  further R (fs_call_push _ 4). further R (fs_inner _ (Lock 0 true)). further R (fs_inner _ (Evaluate 0 true true)).
  eapply fine_trans in R; [|eapply fs_elsewhere; [apply step_signal|by split; [left|]]].
  eexists. split; [exact R|]. by vm_compute.
Qed.

(** The same server with the sections of the queue taken apart. *)
Definition small_raw : raw := Raw small_server None [At Idle; At Idle].

(** One more step of a run, of a thread outside of the sections or inside; the state is
    computed at once. *)
Ltac stays := intros [|[|?]]; vm_compute; intros; by simplify_eq.
Ltac settle R := lazymatch type of R with raw_reachable _ ?r =>
  let r' := eval vm_compute in r in change_no_check r with r' in R end.
Tactic Notation "on" hyp(R) uconstr(c) :=
  eapply raw_trans in R; [|eapply rs_other; [eapply c; vm_compute; reflexivity|stays]]; settle R.
Tactic Notation "on" hyp(R) "elsewhere" uconstr(c) :=
  eapply raw_trans in R; [|eapply rs_other;
    [eapply fs_elsewhere; [eapply c; vm_compute; reflexivity|by split; [right|]]|stays]]; settle R.
Tactic Notation "within" hyp(R) constr(a) :=
  eapply raw_trans in R; [|eapply (rs_inside _ a); [done|vm_compute; reflexivity]]; settle R.

(** The worker has read the count and is about to read the flag of the queue; the
    accept thread has a connection and wants the mutex. *)
Lemma popping_reachable : exists r k, raw_reachable small_raw r /\
  y_accept (rw_sys r) = APush 4 /\
  rw_pcs r = [At (Locking (OpPush 4)); Inside OpPop (Load ShuttingDown k)].
Proof.
  pose proof (raw_refl small_raw) as R.
  on R (fs_call_pop _ 0). on R elsewhere step_check. on R (fs_inner _ (Lock 1 true)). within R (Enter 1).
  on R elsewhere step_enter. on R elsewhere step_accept. within R (Access 1). on R (fs_call_push _ 4).
  eexists _, _. split; [exact R|]. by vm_compute.
Qed.

Lemma server_accesses_refine_witness : exists r, raw_reachable small_raw r /\
  y_accept (rw_sys r) = APush 4 /\ rw_owner r = Some 1%nat /\
  exists q, fine_reachable (coarse_fine small_raw) (restored q r) /\
    reachable small_server (abstract (fun _ => sample_events) (restored q r)).
Proof.
  destruct popping_reachable as (r & k & Hr & Ha & Hp). exists r. split; [done|]. split; [done|].
  destruct (server_accesses_refine small_raw r (fun _ => sample_events) small_threads_initial Hr)
    as (Ho & q & Hf & Hab & _); [intros i; apply sample_client_events|].
  split; [by eapply Ho; rewrite Hp|]. by exists q.
Defined.

Lemma preemptive_shutdown_terminates_witness : exists f, fine_reachable small_threads f /\
  fn_pcs f = [Signalling NotEmpty (Pushed CONNECTION_QUEUE_OK); Asleep OpPop] /\
  fine_inevitable (fun f' => y_accept (fn_sys f') = ADone) f.
Proof.
  destruct pushing_reachable as (f & Hr & Ha & Hfl & Ho & Hp). exists f. split; [done|]. split; [done|].
  apply (preemptive_shutdown_terminates small_threads f small_threads_initial Hr Hfl); by rewrite Ha.
Defined.
