(* ===== verification/Signals.v ===== *)
(** * Signals: server_install_signal_handlers of server.c

    The table of signal actions of the process, its set-up, and what the
    delivery of a signal to one of the threads does: terminate the process,
    nothing, or run the handler, which only sets the flag, and interrupt the
    call the thread is in.  The theorem relates deliveries to the signal steps
    of Server.v. *)
From S2P Require Import Prelude CLib Proc Stats ConnectionQueue Server ServerInstance.

Inductive signal := SIGINT | SIGTERM | SIGPIPE.

#[global] Instance signal_eq_dec : EqDecision signal.
Proof. solve_decision. Defined.

Inductive sa_handler_t := SIG_DFL | SIG_IGN | handle_shutdown_signal.

(** [sa_flags] with its bit SA_RESTART. *)
Record sigaction_t := SigAction {
  sa_handler : sa_handler_t;
  sa_mask : list signal;
  sa_flags : Z;
}.

Definition SA_RESTART : Z := Z.shiftl 1 28.

Definition actions : Type := signal -> sigaction_t.

(** [sigaction(sig, &action, NULL)]; a failing call changes nothing. *)
Definition sigaction (ok : signal -> bool) (sig : signal) (action : sigaction_t) (t : actions) : actions :=
  if ok sig then fun s => if decide (s = sig) then action else t s else t.

Definition server_install_signal_handlers (ok : signal -> bool) (t : actions) : actions :=
  let action := {| sa_handler := handle_shutdown_signal; sa_mask := []; sa_flags := 0 |} in
  let t := sigaction ok SIGINT action t in
  let t := sigaction ok SIGTERM action t in
  let pipe_action := {| sa_handler := SIG_IGN; sa_mask := []; sa_flags := 0 |} in
  sigaction ok SIGPIPE pipe_action t.

(** The actions a process starts with. *)
Definition default_actions : actions :=
  fun _ => {| sa_handler := SIG_DFL; sa_mask := []; sa_flags := 0 |}.

(** A signal is delivered to the accept thread ([None]) or to worker [i]. *)
Definition interrupt (restart : bool) (target : option nat) (y : sys) : sys :=
  match target, y_accept y with
  | None, AAccept _ => if restart then y else set_accept (AAccept true) y
  | _, _ => y
  end.

(** The system after a delivery; [None]: the process is terminated, which is the
    default action of these signals. *)
Definition deliver (t : actions) (sig : signal) (target : option nat) (y : sys) : option sys :=
  match sa_handler (t sig) with
  | SIG_DFL => None
  | SIG_IGN => Some y
  | handle_shutdown_signal =>
      Some (interrupt (negb (Z.land (sa_flags (t sig)) SA_RESTART =? 0)) target (raise_flag y))
  end.

(** The thread exists. *)
Definition alive (target : option nat) (y : sys) : Prop :=
  match target with
  | None => True
  | Some i => exists w, y_workers y !! i = Some w /\ unjoined (y_accept y) i
  end.

Lemma installed_action ok t sig : server_install_signal_handlers ok t sig =
  if ok sig then
    {| sa_handler := match sig with SIGPIPE => SIG_IGN | _ => handle_shutdown_signal end;
       sa_mask := []; sa_flags := 0 |}
  else t sig.
Proof.
  unfold server_install_signal_handlers, sigaction.
  destruct sig, (ok SIGINT) eqn:E1, (ok SIGTERM) eqn:E2, (ok SIGPIPE) eqn:E3; by rewrite ?E1, ?E2, ?E3.
Qed.

Lemma deliver_step `{ConnectionHandler} target y : alive target y ->
  step LSignal y (interrupt false target (raise_flag y)).
Proof.
  intros Ha. destruct target as [i|].
  - destruct Ha as (w & Hw & Hx). by apply (step_signal_worker _ i w).
  - pose proof (step_signal y) as Hs. unfold interrupt. simpl. destruct y as [a ? ? ? ? ? ? ? ? ?]. by destruct a.
Qed.

(** C38. Signals after the set-up.  Whichever of the [sigaction] calls failed, a signal
    whose call succeeded never terminates the process: SIGPIPE changes nothing, SIGINT
    and SIGTERM set the flag in whichever thread they arrive, as a signal step of the
    server, and make a blocked [accept] return when they arrive in the accept thread;
    a signal whose call failed keeps its old action. *)
Theorem signals_after_setup `{ConnectionHandler} ok t sig target y : alive target y ->
  let t' := server_install_signal_handlers ok t in
  if ok sig then
    match sig with
    | SIGPIPE => deliver t' sig target y = Some y
    | _ => exists y', deliver t' sig target y = Some y' /\ step LSignal y y' /\ y_flag y' = true /\
        (forall i, target = None -> y_accept y = AAccept i -> step LInternal y' (set_accept ATop y'))
    end
  else deliver t' sig target y = deliver t sig target y.
Proof.
  intros Ha t'. unfold deliver, t'. rewrite installed_action. destruct (ok sig); [|done].
  assert (Hs : exists y', Some (interrupt (negb (Z.land 0 SA_RESTART =? 0)) target (raise_flag y)) = Some y' /\
    step LSignal y y' /\ y_flag y' = true /\
    (forall i, target = None -> y_accept y = AAccept i -> step LInternal y' (set_accept ATop y'))).
  { eexists. split; [reflexivity|]. split; [by apply deliver_step|]. simpl. unfold interrupt. simpl.
    split; [by destruct target, (y_accept y)|]. intros i -> Hy. rewrite Hy. by apply step_eintr. }
  by destruct sig.
Qed.

(** With both kinds of action: a write to a closed connection, and a SIGTERM that
    a worker takes. *)
Lemma signals_after_setup_witness :
  let t := server_install_signal_handlers (fun _ => true) default_actions in
  deliver default_actions SIGPIPE (Some 0%nat) small_server = None /\
  deliver t SIGPIPE (Some 0%nat) small_server = Some small_server /\
  exists y', deliver t SIGTERM (Some 0%nat) small_server = Some y' /\ step LSignal small_server y' /\
    y_flag y' = true.
Proof.
  assert (Ha : alive (Some 0%nat) small_server) by (by exists WPop).
  split; [reflexivity|]. split.
  - exact (signals_after_setup (fun _ => true) default_actions SIGPIPE (Some 0%nat) small_server Ha).
  - destruct (signals_after_setup (fun _ => true) default_actions SIGTERM (Some 0%nat) small_server Ha)
      as (y' & Hd & Hs & Hf & _). by exists y'.
Defined.
