(* ===== verification/ServerRun.v ===== *)
(** * The whole program: server_run of server.c and main of main.c

    [server_run] is start-up, the threads in operation, and clean-up; [main] is
    the configuration, the listening socket and [server_run].  What the
    environment decides makes them relations between the process before and
    after and the value returned. *)
From stdpp Require Import relations.
From S2P Require Import Prelude CLib Proc ResponseCorrect Stats Config ConnectionQueue ThreadPool.
From S2P Require Import Logger ConfigOutput LogLines Server ServerCorrect ServerProps ServerLive ServerInstance Signals.

(** The server when its workers have entered their loop. *)
Definition running (s : server_t) (workers : nat) (flag : bool) (peers : nat -> sockaddr_in * bool)
    (p : proc) : sys :=
  {| y_accept := ATop; y_workers := replicate workers WPop; y_queue := sv_queue s; y_flag := flag;
     y_proc := p; y_stats := sv_stats s; y_events := []; y_accepted := []; y_closed := []; y_dropped := [];
     y_log := []; y_peers := peers |}.

(** [server_run e config p result p'].  The blocks passed to the workers are freed
    by them when they enter; the clean-up starts when the last one is joined. *)
Inductive server_run `{ConnectionHandler} (e : startup) (config : server_config_t) (p : proc)
  : Z -> proc -> Prop :=
| run_failed p' :
    server_start e config p = Done (inl ()) p' -> server_run e config p (-1) p'
| run_served s wargs flag peers p1 p2 y s' p' :
    server_start e config p = Done (inr (s, wargs)) p1 ->
    enter_all wargs p1 = Done () p2 ->
    reachable (running s (length wargs) flag peers p2) y ->
    y_accept y = AJoin (length (y_workers y)) ->
    server_cleanup (Server true true true true true (y_stats y) (y_queue y) (sv_pool s)) (y_proc y) =
      Done s' p' ->
    server_run e config p 0 p'.

Definition EXIT_SUCCESS : Z := 0.
Definition EXIT_FAILURE : Z := 1.

(** What the socket calls of [server_create_listening_socket] answer. *)
Record socket_calls := SocketCalls {
  sc_socket_ok : bool; sc_reuse_ok : bool; sc_bind_ok : bool; sc_listen_ok : bool;
}.

(** The process: its resources, its table of signal actions, and what [main] and the
    parsing of the command line have printed. *)
Record process := Process {
  ps_proc : proc;
  ps_actions : actions;
  ps_output : output;
}.

(** What the parsing of the command line prints. *)
Definition args_output (argv : list (list byte)) : output :=
  config_output (S (length argv)) config_defaults argv.

(** The line of --verbose; the logger is ready from the start. *)
Definition verbose_line (config : server_config_t) : output :=
  if verbose config then
    Output [] (default [] (lg_stderr <$>
      logger_log (Some (lit "[verbose] port=%d workers=%d queue_capacity=%d root=%s"))
        [ArgInt (port config); ArgInt (worker_count config); ArgInt (queue_capacity config);
         ArgString (document_root config)] (Logger true [])))
  else silent.

(** [main argv k e ok s code s']; [argv] without the name of the program, [ok]: which
    calls of [sigaction] succeed. *)
Inductive main `{ConnectionHandler} (argv : list (list byte)) (k : socket_calls) (e : startup)
    (ok : signal -> bool) (s : process) : Z -> process -> Prop :=
| main_help config :
    config_parse_args config_defaults argv = (config, CONFIG_PARSE_HELP) ->
    main argv k e ok s EXIT_SUCCESS
      (Process (ps_proc s) (ps_actions s) (also (ps_output s) (args_output argv)))
| main_error config :
    config_parse_args config_defaults argv = (config, CONFIG_PARSE_ERROR) ->
    main argv k e ok s EXIT_FAILURE
      (Process (ps_proc s) (ps_actions s) (also (ps_output s) (args_output argv)))
| main_no_socket config p' :
    config_parse_args config_defaults argv = (config, CONFIG_PARSE_OK) ->
    server_create_listening_socket (sc_socket_ok k) (sc_reuse_ok k) (sc_bind_ok k) (sc_listen_ok k)
      (ps_proc s) = Done None p' ->
    main argv k e ok s EXIT_FAILURE
      (Process p' (server_install_signal_handlers ok (ps_actions s))
         (also (ps_output s) (also (args_output argv) (also (verbose_line config)
            (Output [] (line "cinderhttp: failed to start server, exiting"))))))
| main_run config listen_fd p1 run_result p2 p' :
    config_parse_args config_defaults argv = (config, CONFIG_PARSE_OK) ->
    server_create_listening_socket (sc_socket_ok k) (sc_reuse_ok k) (sc_bind_ok k) (sc_listen_ok k)
      (ps_proc s) = Done (Some listen_fd) p1 ->
    server_run e config p1 run_result p2 ->
    server_close_listening_socket (Some listen_fd) p2 = Done () p' ->
    main argv k e ok s (if run_result =? 0 then EXIT_SUCCESS else EXIT_FAILURE)
      (Process p' (server_install_signal_handlers ok (ps_actions s))
         (also (ps_output s) (also (args_output argv) (also (verbose_line config)
            (Output (line "CinderHTTP shut down cleanly.") []))))).

(** ** The heap while the server runs *)

(** Descriptors are numbered in the order in which they were opened. *)
Definition fds_numbered (p : proc) : Prop := forall fd, fd ∈ p_fds p -> (fd < p_next_fd p)%nat.

Section heap.
  Context `{ConnectionHandler} (y0 : sys) (Hinit : initial y0).

(** The threads leave the block of the queue and the rest of the heap alone. *)
Definition heap_kept (y : sys) : Prop :=
  y_accept y <> ADone -> p_live (y_proc y) = p_live (y_proc y0) /\ q_block (y_queue y) = q_block (y_queue y0).

Lemma heap_kept_step l y y' : step l y y' -> heap_kept y -> heap_kept y'.
Proof.
  intros Hs Hk Hnd. destruct Hs as [y|y ? ? Hw Hx|y Ha|y Ha|y i fd p Ha Ho|y Ha|y i Ha|y fd ? c w st q Ha Hp|y fd st p Ha Hp|
    y Ha|y Ha|y i st Ha Hw|y q p Ha Hq|y i ? wt fd q evs Hw Hp Hev|y i ? wt st fd q Hw Hp Hne|
    y i fd e e' evs Hw|y i fd e p Hw Hp|y i Hw]; simpl; simpl in Hnd;
    try (destruct Hk as [Hl Hb]; [try rewrite Ha; done|]); try done.
  - destruct Hk as [Hl Hb]; [|done]. intros Ha. by rewrite Ha in Hnd.
  - by injection Ho as _ <-.
  - by rewrite (push_block _ _ _ _ _ _ _ _ Hp).
  - by destruct (close_fds _ _ _ Hp) as (_ & -> & _).
  - by rewrite shutdown_block.
  - by rewrite (pop_block _ _ _ _ _ Hp).
  - by rewrite (pop_block _ _ _ _ _ Hp).
  - by destruct (close_fds _ _ _ Hp) as (_ & -> & _).
Qed.

Lemma heap_kept_reachable y : reachable y0 y -> heap_kept y.
Proof. induction 1; [done|]. by eapply heap_kept_step. Qed.

(** Before the end there was the last join. *)
Lemma done_from_join y : reachable y0 y -> y_accept y = ADone ->
  exists y', reachable y0 y' /\ y_accept y' = AJoin (length (y_workers y')).
Proof.
  induction 1 as [|l y y' Hr IH Hs]; intros Hd; [by rewrite (i_accept _ Hinit) in Hd|].
  destruct (decide (y_accept y = ADone)) as [Hd'|Hnd]; [auto|]. exists y. split; [done|].
  inversion Hs; subst; simpl in *; try done; try congruence.
  - by destruct (y_accept y).
  - by destruct (y_flag y).
  - by destruct (decide _).
  - by destruct (_ || _).
Qed.

Lemma own_steps_reachable y y' : own_steps y y' -> reachable y0 y -> reachable y0 y'.
Proof. induction 1 as [|y y1 y2 [Hs|Hs] _ IH]; intros Hr; [done|..]; (apply IH; by eapply reach_step). Qed.
End heap.

(** ** server_run gives everything back *)

Lemma running_initial s workers flag peers p bound :
  implements (sv_queue s) (Fifo bound [] false) -> is_Some (q_block (sv_queue s)) ->
  blk (q_block (sv_queue s)) ⊆ p_live p -> sv_stats s = zero_stats true -> fds_numbered p ->
  initial (running s workers flag peers p).
Proof.
  intros Hi Hb Hl Hst Hn. split; simpl; try done; [by apply Forall_replicate|by exists bound].
Qed.

(** At the last join only the queue holds connections. *)
Lemma joined_owned y f : y_accept y = AJoin (length (y_workers y)) -> all_exited y -> owned y f = ff_list f.
Proof.
  intros Ha He. unfold owned, all_exited in *. rewrite Ha in *. simpl.
  assert (Hw : concat (map worker_fds (y_workers y)) = []); [|by rewrite Hw, app_nil_r].
  assert (HF : Forall (fun w => worker_fds w = []) (y_workers y)).
  { apply Forall_lookup. intros i w Hw. destruct (He i) as [st Hst]; [by eapply lookup_lt_Some|].
    rewrite Hw in Hst. by simplify_eq. }
  clear -HF. induction HF as [|w ws Hw _ IH]; simpl; [done|]. by rewrite Hw, IH.
Qed.

Lemma cleanup_joined `{ConnectionHandler} y0 s y :
  initial y0 -> reachable y0 y -> y_accept y = AJoin (length (y_workers y)) ->
  blk (q_block (y_queue y0)) ⊎ blk (tp_threads (sv_pool s)) ⊆ p_live (y_proc y0) ->
  wp (server_cleanup (Server true true true true true (y_stats y) (y_queue y) (sv_pool s)))
    (fun _ p' => p_fds p' = p_fds (y_proc y0) /\
       p_live (y_proc y0) = p_live p' ⊎ blk (q_block (y_queue y0)) ⊎ blk (tp_threads (sv_pool s))) (y_proc y).
Proof.
  intros Hi Hr Ha Hin. destruct (inv_reachable y0 Hi y Hr) as [[f Ho] He _ _].
  assert (Hnd : y_accept y <> ADone) by by rewrite Ha.
  destruct (heap_kept_reachable y0 y Hr Hnd) as [Hl Hb].
  destruct (queue_ok_live y f Hnd) as (Himp & Hsome & _); [apply Ho|]. pose proof Himp as (Hring & _).
  pose proof (o_fds _ _ _ Ho) as Hfds. rewrite (joined_owned y f Ha He) in Hfds.
  eapply wp_mono; [eapply (wp_cleanup_started _ (ff_list f)); simpl; [done|done|done| |]|].
  - by rewrite Hl, Hb.
  - rewrite Hfds. multiset_solver.
  - intros s' p' (_ & Hl' & Hf'). simpl in Hl', Hf'. rewrite Hb, Hl in Hl'. split; [multiset_solver|done].
Qed.

(** The start-up of a run that serves, with its first state. *)
Lemma started_state `{ConnectionHandler} e config p s wargs flag peers p1 : fds_numbered p ->
  server_start e config p = Done (inr (s, wargs)) p1 ->
  exists p2, enter_all wargs p1 = Done () p2 /\ initial (running s (length wargs) flag peers p2) /\
    p_fds p2 = p_fds p /\ p_live p2 = p_live p ⊎ blk (q_block (sv_queue s)) ⊎ blk (tp_threads (sv_pool s)).
Proof.
  intros Hn Hs. pose proof (wp_server_start e config p) as Hw. unfold wp in Hw. rewrite Hs in Hw.
  destruct Hw as (Hf & (Hl & Hi & _ & _) & Hho & Hb & Hst).
  pose proof (wp_enter_all wargs p1) as Hw. rewrite Hl in Hw.
  apply wp_Done in Hw as ([] & p2 & He & Hho2 & Hl2); [|multiset_solver]. exists p2. split; [done|].
  assert (Hl2' : p_live p2 = p_live p ⊎ blk (q_block (sv_queue s)) ⊎ blk (tp_threads (sv_pool s))) by multiset_solver.
  split_and!; [|by rewrite (ho_fds _ _ Hho2), Hf|done]. eapply running_initial; [done|done|multiset_solver|done|].
  intros fd. rewrite (ho_fds _ _ Hho2), Hf, (ho_next_fd _ _ Hho2), (ho_next_fd _ _ Hho). apply Hn.
Qed.

Lemma server_run_ledger `{ConnectionHandler} e config p result p' : fds_numbered p ->
  server_run e config p result p' -> p_live p' = p_live p /\ p_fds p' = p_fds p.
Proof.
  intros Hn Hrun. destruct Hrun as [p' Hs|s wargs flag peers p1 p2 y s' p' Hs He Hr Ha Hc].
  - pose proof (wp_server_start e config p) as Hw. unfold wp in Hw. rewrite Hs in Hw. by destruct Hw.
  - destruct (started_state e config p s wargs flag peers p1 Hn Hs) as (p2' & He' & Hi & Hf & Hl).
    rewrite He in He'. injection He' as <-.
    pose proof (cleanup_joined _ s y Hi Hr Ha) as Hw. unfold wp in Hw. rewrite Hc in Hw. simpl in Hw.
    rewrite Hl, Hf in Hw. destruct Hw as [Hf' Hl']; [multiset_solver|]. split; [multiset_solver|done].
Qed.

(** The listening socket is one more descriptor. *)
Lemma socket_opened k p fd p1 : fds_numbered p ->
  server_create_listening_socket (sc_socket_ok k) (sc_reuse_ok k) (sc_bind_ok k) (sc_listen_ok k) p =
    Done (Some fd) p1 ->
  p_live p1 = p_live p /\ p_fds p1 = p_fds p ⊎ {[+ fd +]} /\ fds_numbered p1.
Proof.
  intros Hn Hs. unfold server_create_listening_socket, mbind, M_bind in Hs.
  destruct (sc_socket_ok k); [|done]. simpl in Hs.
  destruct (sc_reuse_ok k), (sc_bind_ok k), (sc_listen_ok k); simpl in Hs;
    try (unfold close in Hs; by destruct (decide _) in Hs). injection Hs as <- <-. simpl.
  split_and!; [done|multiset_solver|]. intros fd. simpl.
  rewrite gmultiset_elem_of_disj_union, gmultiset_elem_of_singleton. intros [->|Hin]; [lia|].
  apply Hn in Hin. lia.
Qed.

(** A run that ends. *)
Lemma server_run_ends `{ConnectionHandler} e config p : fds_numbered p ->
  exists result p', server_run e config p result p'.
Proof.
  intros Hn. pose proof (wp_server_start e config p) as Hw.
  apply wp_Done in Hw as ([[]|[s wargs]] & p1 & Hs & _); [exists (-1), p1; by apply run_failed|].
  destruct (started_state e config p s wargs false (fun _ => (SockAddr [] (x00, x00), false)) p1 Hn Hs) as (p2 & He & Hi & Hf & Hl).
  destruct (shut_down _ Hi _ (good_reachable _ Hi _ (reach_refl _))) as (y & Hst & Hd).
  destruct (done_from_join _ Hi y) as (y' & Hr & Ha);
    [by eapply own_steps_reachable; [|apply reach_refl]|done|].
  pose proof (cleanup_joined _ s y' Hi Hr Ha) as Hw.
  apply wp_Done in Hw as (s' & p' & Hc & _); [|simpl; rewrite Hl; multiset_solver].
  exists 0, p'. by eapply run_served.
Qed.

Lemma main_ends `{ConnectionHandler} argv k e ok s : fds_numbered (ps_proc s) ->
  exists code s', main argv k e ok s code s'.
Proof.
  intros Hn. destruct (config_parse_args config_defaults argv) as [config rc] eqn:Ec.
  destruct rc; [|eexists EXIT_SUCCESS, _; by eapply main_help|eexists EXIT_FAILURE, _; by eapply main_error].
  pose proof (wp_listening_socket (sc_socket_ok k) (sc_reuse_ok k) (sc_bind_ok k) (sc_listen_ok k) (ps_proc s)) as Hw.
  apply wp_Done in Hw as ([fd|] & p1 & Hs & _); [|eexists EXIT_FAILURE, _; by eapply main_no_socket].
  destruct (socket_opened k _ fd p1 Hn Hs) as (_ & Hf & Hn1).
  destruct (server_run_ends e config p1 Hn1) as (rc & p2 & Hr).
  destruct (server_run_ledger e config p1 rc p2 Hn1 Hr) as [_ Hf2].
  assert (Hc : exists p', close fd p2 = Done () p').
  { unfold close. rewrite decide_True; [eauto|]. rewrite Hf2, Hf. multiset_solver. }
  destruct Hc as [p' Hc]. eexists _, _. by eapply main_run.
Qed.

(** C8. The program gives everything back.  Whatever the command line, whichever
    system call, initializer, allocation or thread creation fails, whatever the
    clients do and however the threads are scheduled: when [main] returns, every
    block and descriptor it acquired has been released exactly once, and the
    exit status is success or failure. *)
Theorem main_releases `{ConnectionHandler} argv k e ok s code s' : fds_numbered (ps_proc s) ->
  main argv k e ok s code s' ->
  p_live (ps_proc s') = p_live (ps_proc s) /\ p_fds (ps_proc s') = p_fds (ps_proc s) /\
  (code = EXIT_SUCCESS \/ code = EXIT_FAILURE).
Proof.
  intros Hn Hm. destruct Hm as [config _|config _|config p' _ Hs|config fd p1 rc p2 p' _ Hs Hr Hc]; simpl.
  - auto.
  - auto.
  - pose proof (wp_listening_socket (sc_socket_ok k) (sc_reuse_ok k) (sc_bind_ok k) (sc_listen_ok k) (ps_proc s)) as Hw.
    unfold wp in Hw. rewrite Hs in Hw. destruct Hw as (Hl & Hf & _). simpl in Hf.
    split_and!; [done|multiset_solver|by right].
  - destruct (socket_opened k _ fd p1 Hn Hs) as (Hl & Hf & Hn1).
    destruct (server_run_ledger e config p1 rc p2 Hn1 Hr) as [Hl2 Hf2].
    destruct (close_fds _ _ _ Hc) as (Hf3 & Hl3 & _).
    split_and!; [congruence|multiset_solver|destruct (rc =? 0); auto].
Qed.

(** C28. The program can always be ended: for every command line and every pattern of
    failures at start-up there is a run of [main] that returns; with success
    exactly when help was asked for or the server started and was shut down.  The
    signal actions are set up exactly when the command line is accepted. *)
Theorem main_returns `{ConnectionHandler} argv k e ok s : fds_numbered (ps_proc s) ->
  (exists code s', main argv k e ok s code s') /\
  forall code s', main argv k e ok s code s' ->
    let '(config, rc) := config_parse_args config_defaults argv in
    (code = EXIT_SUCCESS <->
     match rc with
     | CONFIG_PARSE_HELP => True
     | CONFIG_PARSE_ERROR => False
     | CONFIG_PARSE_OK =>
         exists listen_fd p1 sv p2, server_create_listening_socket (sc_socket_ok k) (sc_reuse_ok k)
             (sc_bind_ok k) (sc_listen_ok k) (ps_proc s) = Done (Some listen_fd) p1 /\
           server_start e config p1 = Done (inr sv) p2
     end) /\
    ps_actions s' =
      match rc with CONFIG_PARSE_OK => server_install_signal_handlers ok (ps_actions s) | _ => ps_actions s end.
Proof.
  intros Hn. split; [by apply main_ends|]. intros code s' Hm.
  destruct Hm as [config Hc|config Hc|config p' Hc Hs|config fd p1 rc p2 p' Hc Hs Hr Hcl]; rewrite Hc; (split; [|done]).
  - done.
  - done.
  - split; [done|]. intros (fd & p1 & sv & p2 & Hs' & _). rewrite Hs in Hs'. done.
  - destruct Hr as [p2 Hst|sv wargs flag peers p1' p2' y sv' p2 Hst _ _ _ _]; simpl.
    + split; [done|]. intros (fd' & p1' & sv & p2' & Hs' & Hst'). rewrite Hs in Hs'. injection Hs' as <- <-.
      by rewrite Hst in Hst'.
    + split; [|done]. intros _. by exists fd, p1, (sv, wargs), p1'.
Qed.

(** The message of a clean end is printed when the server could not start, too. *)
Lemma failed_start_says_cleanly `{ConnectionHandler} argv k e ok s config fd p1 p2 p' :
  config_parse_args config_defaults argv = (config, CONFIG_PARSE_OK) ->
  server_create_listening_socket (sc_socket_ok k) (sc_reuse_ok k) (sc_bind_ok k) (sc_listen_ok k) (ps_proc s) =
    Done (Some fd) p1 ->
  server_start e config p1 = Done (inl ()) p2 -> server_close_listening_socket (Some fd) p2 = Done () p' ->
  exists s' printed, main argv k e ok s EXIT_FAILURE s' /\
    to_stdout (ps_output s') = printed ++ line "CinderHTTP shut down cleanly.".
Proof.
  intros Hc Hs Hst Hcl. eexists _, _. split.
  - eapply (main_run argv k e ok s config fd p1 (-1) p2 p'); [done..| |done]. by apply run_failed.
  - simpl. by rewrite !app_assoc.
Qed.

(** ** The program started *)

Definition fresh_process : proc :=
  {| p_malloc_ok := fun _ => true; p_next := 0; p_live := ∅; p_next_fd := 3; p_fds := ∅ |}.

Lemma fresh_numbered : fds_numbered fresh_process.
Proof. intros fd Hfd. by apply gmultiset_elem_of_empty in Hfd. Qed.

Definition fresh_start : process := Process fresh_process default_actions silent.

Definition all_ok : socket_calls := SocketCalls true true true true.
Definition startup_ok : startup := Startup true true true true true (fun _ => true).

Lemma main_returns_witness :
  (exists code s', main [lit "--port"; lit "9000"] all_ok startup_ok (fun _ => true) fresh_start code s') /\
  (forall s', ~ main [lit "--port"] all_ok startup_ok (fun _ => true) fresh_start EXIT_SUCCESS s').
Proof.
  split.
  - apply (main_returns [lit "--port"; lit "9000"] all_ok startup_ok (fun _ => true) fresh_start fresh_numbered).
  - intros s' Hm. exact (proj1 (proj1 (proj2 (main_returns [lit "--port"] all_ok startup_ok (fun _ => true)
      fresh_start fresh_numbered) _ _ Hm)) eq_refl).
Defined.

Lemma main_releases_witness : exists code s', main [] all_ok startup_ok (fun _ => true) fresh_start code s' /\
  p_live (ps_proc s') = ∅ /\ p_fds (ps_proc s') = ∅ /\ (code = EXIT_SUCCESS \/ code = EXIT_FAILURE).
Proof.
  destruct (main_ends [] all_ok startup_ok (fun _ => true) fresh_start fresh_numbered) as (code & s' & Hm).
  exists code, s'. split; [exact Hm|].
  exact (main_releases [] all_ok startup_ok (fun _ => true) fresh_start code s' fresh_numbered Hm).
Defined.
